(* ===== verification/_CoqProject ===== *)
-Q . S2P
Prelude.v
Strings.v
Core.v
Table.v
Sql.v
RedbKeys.v
Json.v
Concrete.v
Spec.v
SpecFacts.v
History.v
RedbStore.v
RedbRep.v
RedbRefine.v
Redb.v
SqliteStore.v
SqliteRep.v
SqliteRefine.v
Sqlite.v
Agreement.v
Proto.v
Server.v
ServerProps.v
Replay.v
ServerClaims.v
Sync.v
SyncProps.v
Converge.v
SyncClaims.v
Pass.v
PassClaims.v
Subscribe.v
SubscribeClaims.v
Programs.v
Concurrent.v
Delivery.v
ConcurrentClaims.v
Sdk.v
SdkClaims.v
EndToEnd.v
Text.v
Probe.v
Daemon.v
Lifecycle.v
Backends.v
UnitTests.v
