(* ===== verification/Prelude.v ===== *)
(** * A verification of msgbus

    msgbus is a message bus for devices.  A daemon, msgbusd, keeps append logs
    (one per topic and origin node), deletion ranges and FIFO queues in a local
    store, serves them over gRPC, and pulls the logs of other nodes from its
    peers.  Applications use it through an SDK.

    ** The program and its model

    - [crates/msgbus-core/src/lib.rs]: identities, validated names, messages, the
      error enum and the [MsgbusStore] trait.  Modelled in [Core]; the trait is
      the type class [MsgbusStore].
    - [crates/msgbus-store-redb/src/lib.rs]: the trait over six ordered tables of
      the redb engine.  [RedbKeys] has the key layout, [RedbStore] the
      operations and their transactions.
    - [crates/msgbus-store-sqlite/src/lib.rs]: the trait over six SQL tables.
      [Sql] has the statements SQLite offers as functions on lists of rows,
      [SqliteStore] the schema, each statement of the source, and the operations
      and their transactions.
    - [crates/msgbus-server/src/lib.rs]: the gRPC service.  [Proto] has the wire
      records and conversions, [Server] the handlers, delete markers and the
      replay at start-up, [Subscribe] the task a subscription runs in.
    - [crates/msgbus-server/src/sync.rs]: pulling from peers, in [Sync].
    - [crates/msgbus-server/src/main.rs]: the daemon's configuration, the choice
      of the store, start-up and a run until shutdown, in [Daemon].
    - [crates/msgbus-sdk-rust/src/lib.rs]: the client library, in [Sdk]; the
      programs of its [examples] directory, in [Probe] with the text functions of
      [Text].
    - The tests: [mod tests] of the crates and
      [crates/msgbus-server/tests/peer_sync.rs], in [UnitTests].

    The service and the synchronisation share the store and the broadcast
    channel: [MsgbusGrpcService] is the store together with the messages sent so
    far, and [Sync] runs on the same state.  Handlers, pulls and subscribers run
    side by side: [Programs] gives each handler again as a program of atomic
    actions (a store call, a send on the channel, the creation of a receiver) and
    proves that running it without interruption is the handler; [Concurrent]
    interleaves such programs in every possible way.  A Rust [u64] or [u32] is an [N] with
    saturation written out, a [String] its bytes, a [HashMap] a [gmap].

    Effectful code runs in the monad [M] of this file.  It reads an environment
    that decides the clock, the random identifiers and which calls into the
    storage engine fail, so a theorem "for every environment" covers every
    pattern of engine failures.  Executing a definition on a concrete
    environment is evaluation, which is how the witnesses work.  [wp] is total
    correctness for [M], with one rule per effect and the tactic [wp_run];
    [keeps], [atomic] and [preserves] are its special cases for frames and
    invariants, with the hint database [frames].

    ** Layers

    - [Prelude], [Strings]: results, effects, machine integers, text.
    - [Table], [RedbKeys], [Json]: what the engine, base64 and serde_json are
      assumed to do, as classes of operations and classes of documented laws.
      [Concrete] instantiates all of them, so the laws are consistent and the
      stores can run.
    - [Spec]: the abstract store, its invariant [wf], what each of the thirteen
      operations may answer ([spec_op]), and the contract [StoreRefinement]: from
      a represented state, in any environment, an operation that succeeds
      answers and changes the state as the specification says; one that fails
      leaves the abstract state alone, and the specification gives that error,
      or an engine call failed, or a limit the backend declares was met.
    - [SpecFacts], [History]: what follows from the specification and from the
      contract alone.
    - [RedbRep], [RedbRefine], [Redb]: the redb backend discharges the contract.
    - [SqliteRep], [SqliteRefine], [Sqlite]: so does the SQLite backend, with the
      limits [sqlite_limited]: numbers and times above [i64::MAX], message ids
      used twice, and stored names that validation rejects on reading.
    - [Agreement]: an executable reference of the specification, and that two
      stores that meet the contract agree with it and so with each other.
    - [ServerProps], [Replay], [ServerClaims], [SyncProps], [Converge],
      [SyncClaims], [SubscribeClaims]: the service, synchronisation and
      subscriptions, proved against the contract and so for every backend that
      meets it; the witnesses run them over redb.
      Their hypotheses name the calls that must not meet a limit, so they apply
      to SQLite as well.
    - [Pass], [PassClaims]: a whole pass against a node that serves its logs
      through its own handlers, two nodes that pull from each other, and a peer
      whose stream does not end.
    - [Programs], [Concurrent], [Delivery], [ConcurrentClaims]: the service under
      any interleaving.  [Concurrent] has the worlds, the histories and the
      invariant [linearised]; [Delivery] the invariant of the channel and of a
      subscriber that keeps up.
    - [SdkClaims]: the client's reconnecting subscription, against any daemon.
      [EndToEnd] puts the service behind the library; [Probe] is built on it.
    - [Daemon]: the configuration, and a run over the data files of a disk.
    - [Lifecycle]: runs of the daemon, one after another, over either backend.
    - [Backends]: the two backends side by side, alone, at start-up and when one
      node pulls from the other.
    - [UnitTests]: the tests of the repository, run.

    ** What the theorems show

    The stores.  Every operation of either backend refines the specification,
    failures included.  Logs only grow, entries keep their content, deletions
    last, a failed operation leaves the committed data alone, queues are first in
    first out, and redb's keys order as numbers do.  The SQLite schema (keys,
    unique indexes, ranges of integers) is an invariant, and arguments beyond
    [i64] are refused without effect.  Short of SQLite's limits any sequence of
    calls gets the same answers from both backends.

    Concurrency.  The service is linearisable: under any interleaving the answers
    and the store are those of a sequence of whole requests, each at the moment
    of its store call, that only grows as the run goes on.  An acknowledged
    publication is stored, announced and has its number to itself.

    The service.  [publish] accepts exactly the permitted requests and stores,
    announces and answers the same message.  No sequence of client requests
    touches another node's log or puts an invalid marker into the control log.
    The replay of markers terminates and applies each of them, so the daemon
    restarts after any sequence of requests.

    Subscriptions.  Under any interleaving a subscriber receives entries of the
    requested log in strictly increasing order.  When the replay is not cut and no two
    publications of the log overlap, it receives every entry once, also when it
    subscribed in the middle of a publication.  Two theorems are about the cases
    outside these hypotheses, on any store: of two overlapping publications that
    reach the channel in the wrong order the subscriber never receives the first,
    and after a replay cut by its limit it never receives the entries between
    the replay and the next live message.

    Synchronisation.  Whatever peers answer, a pass cannot damage logs, deletions
    or queues, and a pull changes only the pulled log and deletions of the same
    origin.  A pass terminates when the streams of its peers end; one stream that
    does not end holds it for ever.  A pass against a node that serves its logs
    succeeds and ends with the union of both stores, every new entry announced
    and every marker applied, also between nodes with different backends; after
    two nodes have pulled from each other their logs are equal, deletion flags
    included.  A peer that fails the identity check is not pulled from.

    The daemon.  Accepted configurations are usable.  Over any number of runs,
    on any paths and with either backend, with any requests, peers and failures
    and ended after any of them, the file of each path stays well formed and
    keeps its engine, and nothing in its logs is lost.

    The client.  Against any daemon with gap-free streams the reconnecting
    subscription returns every number once and in order; against the service it
    returns the entries of the log as they are stored, however short the
    connections last.  Sessions over the library, through the wire, the handlers
    and the store, give what the caller expects, up to the lines the probe program
    prints.

    The tests.  The tests of the repository pass on the concrete backends.

    Negative results are theorems too: a marker that cannot be applied, received
    from a peer, is stored and stops every later start, an append at the last number overwrites it,
    keys of identities collide when parts contain a slash, an empty identity
    passes the check of the service, a message deleted on arrival is announced
    as not deleted, the task of [spawn_peer_sync] ends when it first looks at its
    shutdown channel, and an accepted delete up to a number beyond [i64::MAX] on
    a redb node keeps a SQLite node that pulls its marker from starting.

    ** Bounds and fuel

    Four loops of the daemon and the library are not structural and take fuel; each returns [None] when it
    runs out, and theorems say when it does not.  [replay_log] reads one page
    per round and needs more fuel than the log has entries.  [sync_loop] raises
    the local head in every round that continues, so [u64::MAX] rounds are
    always enough when the streams of the peer end, and the length of the peer's
    log when the peer serves it.  The response stream of a fetch is a [Stream],
    which ends or is an endless sequence; [for_stream] reads the
    former to its end, whatever the fuel, and of the latter as many items as the
    fuel before it gives [None].
    [next_message] needs two rounds more than the number of refusals in a row.
    The scanner of [from_utf8_lossy] consumes a byte per round, so the length of
    the text is enough.

    ** What is not modelled

    - The engines: redb's tables by their documented laws, SQLite's statements by
      the tables they produce; query plans, WAL and file formats are theirs, and
      the texts of rusqlite's errors are parameters.
    - [crates/msgbus-proto]: generated code; the records are in [Proto].
    - gRPC transport, TLS, argument parsing, signals and logging.  Of the listener
      and the TLS configuration only their failure is modelled.
    - The Go SDK, packaging and scripts.
    - Scheduling below the atomic actions.  The methods of both stores contain no
      await point and exclude each other by a transaction or a mutex, so a store
      call is one action and a handler is not dropped half way.  In [Daemon] and
      [Lifecycle] a request is one step and so is a pass; a run ends between two
      of them.  Requests and pulls are interleaved in [Concurrent].

    ** Plan

    Next: peers that change while a pass runs, a reconnecting subscription over
    the interleaved service, and convergence of more than two nodes.

    ** This file

    Results, the effect monad and its rules, machine integers and list lemmas. *)

From Stdlib Require Import Ascii String NArith ZArith Lia.
From stdpp Require Import base strings list gmap sorting fin_maps.

(** ** Results, as Rust's [Result] *)

Inductive result (E A : Type) : Type :=
| Ok (a : A)
| Err (x : E).
Arguments Ok {E A} a.
Arguments Err {E A} x.

#[export] Instance result_ret E : MRet (result E) := λ A a, Ok a.
#[export] Instance result_bind E : MBind (result E) := λ A B f m,
  match m with Ok a => f a | Err x => Err x end.

#[export] Instance result_eq_dec E A `{!EqDecision E, !EqDecision A} :
  EqDecision (result E A).
Proof. solve_decision. Defined.

(** [Result::map_err] and [Option::ok_or_else]. *)
Definition map_err {E F A} (f : E → F) (m : result E A) : result F A :=
  match m with Ok a => Ok a | Err x => Err (f x) end.

Definition ok_or {E A} (x : E) (o : option A) : result E A :=
  match o with Some a => Ok a | None => Err x end.

(** [Option::transpose]. *)
Definition transpose {E A} (o : option (result E A)) : result E (option A) :=
  match o with
  | None => Ok None
  | Some (Ok a) => Ok (Some a)
  | Some (Err x) => Err x
  end.

Definition is_ok {E A} (m : result E A) : bool :=
  match m with Ok _ => true | Err _ => false end.

Lemma result_bind_ok {E A B} (r : result E A) (f : A → result E B) b :
  r ≫= f = Ok b ↔ ∃ a, r = Ok a ∧ f a = Ok b.
Proof. destruct r; cbn; naive_solver. Qed.

(** ** The effect monad

    Code that talks to the outside world runs in [M E S A]: it reads an
    environment, threads a counter of external calls and a state [S], and
    returns a [result].  The environment is the part of the world the program
    does not control: the clock (milliseconds since the epoch, [None] when it is
    set before the epoch), the random identifiers ([Uuid::new_v4]), and whether the i-th call into the storage engine fails,
    and with which text.  Every external call takes the next value of the
    counter, so two calls are never forced to agree. *)

Record Env := mkEnv {
  clock : nat → option N;
  uuid : nat → string;
  fault : nat → option string;
}.

Definition M (E S A : Type) : Type := Env → nat → S → result E A * nat * S.

#[export] Instance M_ret E S : MRet (M E S) := λ A a _ t s, (Ok a, t, s).
#[export] Instance M_bind E S : MBind (M E S) := λ A B k m e t s,
  match m e t s with
  | (Ok a, t', s') => k a e t' s'
  | (Err x, t', s') => (Err x, t', s')
  end.

Section effects.
Context {E S : Type}.

Definition throw {A} (x : E) : M E S A := λ _ t s, (Err x, t, s).
Definition get_state : M E S S := λ _ t s, (Ok s, t, s).
Definition put_state (s : S) : M E S unit := λ _ t _, (Ok tt, t, s).
Definition modify (f : S → S) : M E S unit := λ _ t s, (Ok tt, t, f s).
Definition of_result {A} (r : result E A) : M E S A := λ _ t s, (r, t, s).

(** One call into an external engine: it fails as the environment says. *)
Definition io (err : string → E) : M E S unit := λ e t s,
  match fault e t with
  | None => (Ok tt, Datatypes.S t, s)
  | Some msg => (Err (err msg), Datatypes.S t, s)
  end.

Definition read_clock : M E S (option N) := λ e t s, (Ok (clock e t), Datatypes.S t, s).
Definition fresh_uuid : M E S string := λ e t s, (Ok (uuid e t), Datatypes.S t, s).

(** [match m.await { ... }]: the outcome of [m] as a value. *)
Definition try {F A} (m : M E S A) : M F S (result E A) := λ e t s,
  let '(r, t', s') := m e t s in (Ok r, t', s').

Definition map_err_m {F A} (f : E → F) (m : M E S A) : M F S A := λ e t s,
  let '(r, t', s') := m e t s in (map_err f r, t', s').

(** Run a computation on one part of a larger state. *)
Definition zoom {T A} (get : T → S) (set : S → T → T) (m : M E S A) : M E T A :=
  λ e t s, let '(r, t', s') := m e t (get s) in (r, t', set s' s).
End effects.

(** A [for] loop with [break]: the body says how to go on. *)
Inductive flow (A : Type) : Type :=
| Continue (a : A)
| Break (a : A).
Arguments Continue {A} a.
Arguments Break {A} a.

Fixpoint for_each {E S X A} (l : list X) (body : X → A → M E S (flow A)) (acc : A)
    : M E S A :=
  match l with
  | [] => mret acc
  | x :: l' =>
      f ← body x acc;
      match f with
      | Continue acc' => for_each l' body acc'
      | Break acc' => mret acc'
      end
  end.

Definition no_faults (e : Env) : Prop := ∀ t, fault e t = None.

(** ** Weakest preconditions

    [wp e m Q s]: whatever the counter is, running [m] in environment [e] from
    state [s] ends in a result and a state that satisfy [Q].  [M] is total, so
    [wp] is total correctness. *)
Definition wp {E S A} (e : Env) (m : M E S A) (Q : result E A → S → Prop) (s : S) : Prop :=
  ∀ t, let '(r, _, s') := m e t s in Q r s'.

(** The environment has some failing call: what an unexpected error implies. *)
Definition has_fault (e : Env) : Prop := ∃ t m, fault e t = Some m.

Lemma no_faults_has_fault e : no_faults e → ¬ has_fault e.
Proof. intros Hn (t & m & H). by rewrite Hn in H. Qed.

Section wp_rules.
Context {E S : Type} (e : Env).

Lemma wp_mono {A} (m : M E S A) (P Q : result E A → S → Prop) s :
  wp e m P s → (∀ r s', P r s' → Q r s') → wp e m Q s.
Proof. intros Hm HPQ t. specialize (Hm t). destruct (m e t s) as [[r t'] s']. auto. Qed.

(** A postcondition that holds whatever happens. *)
Lemma wp_any {A} (m : M E S A) (Q : result E A → S → Prop) s :
  (∀ r s', Q r s') → wp e m Q s.
Proof. intros H t. destruct (m e t s) as [[r t'] s']. apply H. Qed.

Lemma wp_ret {A} (a : A) (Q : result E A → S → Prop) s : Q (Ok a) s → wp e (mret a) Q s.
Proof. by intros H t. Qed.

Lemma wp_throw {A} (x : E) (Q : result E A → S → Prop) s : Q (Err x) s → wp e (throw x) Q s.
Proof. by intros H t. Qed.

Lemma wp_of_result {A} (r : result E A) (Q : result E A → S → Prop) s :
  Q r s → wp e (of_result r) Q s.
Proof. by intros H t. Qed.

Lemma wp_bind {A B} (m : M E S A) (k : A → M E S B) (Q : result E B → S → Prop) s :
  wp e m (λ r s', match r with
                  | Ok a => wp e (k a) Q s'
                  | Err x => Q (Err x) s'
                  end) s →
  wp e (m ≫= k) Q s.
Proof.
  intros H t. specialize (H t). unfold mbind, M_bind.
  destruct (m e t s) as [[[a|x] t'] s']; [apply H | done].
Qed.

Lemma wp_get_state (Q : result E S → S → Prop) s : Q (Ok s) s → wp e get_state Q s.
Proof. by intros H t. Qed.

Lemma wp_put_state (Q : result E unit → S → Prop) s0 s :
  Q (Ok tt) s0 → wp e (put_state s0) Q s.
Proof. by intros H t. Qed.

Lemma wp_modify f (Q : result E unit → S → Prop) s : Q (Ok tt) (f s) → wp e (modify f) Q s.
Proof. by intros H t. Qed.

(** An engine call either goes through or reports a fault of [e]. *)
Lemma wp_io err (Q : result E unit → S → Prop) s :
  Q (Ok tt) s → (∀ msg, has_fault e → Q (Err (err msg)) s) → wp e (io err) Q s.
Proof.
  intros Hok Herr t. unfold io. destruct (fault e t) as [msg|] eqn:Hf; [|done].
  apply Herr. by exists t, msg.
Qed.

Lemma wp_read_clock (Q : result E (option N) → S → Prop) s :
  (∀ n, Q (Ok n) s) → wp e read_clock Q s.
Proof. intros H t. apply H. Qed.

Lemma wp_fresh_uuid (Q : result E string → S → Prop) s :
  (∀ u, Q (Ok u) s) → wp e fresh_uuid Q s.
Proof. intros H t. apply H. Qed.

Lemma wp_try {F A} (m : M E S A) (Q : result F (result E A) → S → Prop) s :
  wp e m (λ r s', Q (Ok r) s') s → wp e (try m) Q s.
Proof. intros H t. specialize (H t). unfold try. by destruct (m e t s) as [[r t'] s']. Qed.

Lemma wp_map_err {F A} (f : E → F) (m : M E S A) (Q : result F A → S → Prop) s :
  wp e m (λ r s', Q (map_err f r) s') s → wp e (map_err_m f m) Q s.
Proof. intros H t. specialize (H t). unfold map_err_m. by destruct (m e t s) as [[r t'] s']. Qed.

Lemma wp_zoom {T A} (get : T → S) (set : S → T → T) (m : M E S A)
    (Q : result E A → T → Prop) s :
  wp e m (λ r s', Q r (set s' s)) (get s) → wp e (zoom get set m) Q s.
Proof. intros H t. specialize (H t). unfold zoom. by destruct (m e t (get s)) as [[r t'] s']. Qed.

(** Loop rule: an invariant indexed by what is left to visit. *)
Lemma wp_for_each {X A} (body : X → A → M E S (flow A)) (l : list X) (acc : A)
    (I : list X → A → S → Prop) (Q : result E A → S → Prop) s :
  I l acc s →
  (∀ x l' acc s, I (x :: l') acc s →
     wp e (body x acc) (λ r s', match r with
                                | Ok (Continue a) => I l' a s'
                                | Ok (Break a) => Q (Ok a) s'
                                | Err y => Q (Err y) s'
                                end) s) →
  (∀ acc s, I [] acc s → Q (Ok acc) s) →
  wp e (for_each l body acc) Q s.
Proof.
  intros HI Hbody Hend. revert acc s HI.
  induction l as [|x l IH]; intros acc s HI; simpl.
  - apply wp_ret. by apply Hend.
  - apply wp_bind. eapply wp_mono; [by eapply Hbody|].
    intros [[a|a]|y] s' H; [by apply IH | by apply wp_ret | done].
Qed.
End wp_rules.

(** One step of symbolic execution; [io] leaves the fault case as the second
    goal, which [fault_case] closes when the postcondition admits faults. *)
Ltac wp_step :=
  lazymatch goal with
  | |- wp _ (mbind _ _) _ _ => apply wp_bind
  | |- wp _ (mret _) _ _ => apply wp_ret
  | |- wp _ (throw _) _ _ => apply wp_throw
  | |- wp _ (of_result _) _ _ => apply wp_of_result
  | |- wp _ get_state _ _ => apply wp_get_state
  | |- wp _ (put_state _) _ _ => apply wp_put_state
  | |- wp _ (modify _) _ _ => apply wp_modify
  | |- wp _ read_clock _ _ => apply wp_read_clock; intros ?
  | |- wp _ fresh_uuid _ _ => apply wp_fresh_uuid; intros ?
  | |- wp _ (try _) _ _ => apply wp_try
  | |- wp _ (map_err_m _ _) _ _ => apply wp_map_err
  | |- wp _ (zoom _ _ _) _ _ => apply wp_zoom
  | |- wp _ (io _) _ _ => apply wp_io; [| intros ? ?; try by eauto ]
  | |- wp _ (if ?b then _ else _) _ _ => destruct b eqn:?
  end; simpl.

Ltac wp_run := repeat wp_step.

(** ** Frames and invariants

    [keeps view m]: whatever happens, [m] leaves the part [view] of the state
    alone; [atomic view m]: it does so when it fails; [preserves I m]: [I] is an
    invariant of [m].  The hint database [frames] runs through straight-line
    code. *)
Definition keeps {E S V A} (view : S → V) (m : M E S A) : Prop :=
  ∀ e s, wp e m (λ _ s', view s' = view s) s.

Definition atomic {E S V A} (view : S → V) (m : M E S A) : Prop :=
  ∀ e s, wp e m (λ r s', is_ok r = false → view s' = view s) s.

Definition preserves {E S A} (I : S → Prop) (m : M E S A) : Prop :=
  ∀ e s, I s → wp e m (λ _ s', I s') s.

Create HintDb frames.

Section frames.
Context {E S V : Type} (view : S → V) (I : S → Prop).

Lemma keeps_ret {A} (x : A) : keeps (E := E) view (mret x).
Proof. by intros e s t. Qed.
Lemma keeps_throw {A} x : keeps (E := E) (A := A) view (throw x).
Proof. by intros e s t. Qed.
Lemma keeps_of_result {A} (r : result E A) : keeps view (of_result r).
Proof. by intros e s t. Qed.
Lemma keeps_io err : keeps (E := E) view (io err).
Proof. intros e s. by apply wp_io. Qed.
Lemma keeps_fresh_uuid : keeps (E := E) view fresh_uuid.
Proof. by intros e s t. Qed.
Lemma keeps_read_clock : keeps (E := E) view read_clock.
Proof. by intros e s t. Qed.
Lemma keeps_bind {A B} (m : M E S A) (k : A → M E S B) :
  keeps view m → (∀ x, keeps view (k x)) → keeps view (m ≫= k).
Proof.
  intros Hm Hk e s. apply wp_bind. eapply wp_mono; [apply Hm|].
  intros [x|x] s' Hs; [|done]. eapply wp_mono; [apply Hk|]. simpl. congruence.
Qed.

(** A computation on a part of the state that does not touch [view]. *)
Lemma keeps_zoom {T A} (get : S → T) (set : T → S → S) (m : M E T A) :
  (∀ t s, view (set t s) = view s) → keeps view (zoom get set m).
Proof. intros Hset e s t. unfold zoom. destruct (m e t (get s)) as [[r t'] x]. apply Hset. Qed.

Lemma atomic_keeps {A} (m : M E S A) : keeps view m → atomic view m.
Proof. intros Hm e s. eapply wp_mono; [apply Hm|]. done. Qed.
Lemma atomic_bind {A B} (m : M E S A) (k : A → M E S B) :
  keeps view m → (∀ x, atomic view (k x)) → atomic view (m ≫= k).
Proof.
  intros Hm Hk e s. apply wp_bind. eapply wp_mono; [apply Hm|].
  intros [x|x] s' Hs; [|done]. eapply wp_mono; [apply Hk|]. simpl. intros r s'' H Hr.
  rewrite H by done. done.
Qed.

Lemma preserves_ret {A} (x : A) : preserves (E := E) I (mret x).
Proof. by intros e s Hs t. Qed.
Lemma preserves_throw {A} x : preserves (E := E) (A := A) I (throw x).
Proof. by intros e s Hs t. Qed.
Lemma preserves_of_result {A} (r : result E A) : preserves I (of_result r).
Proof. by intros e s Hs t. Qed.
Lemma preserves_io err : preserves (E := E) I (io err).
Proof. intros e s Hs. by apply wp_io. Qed.
Lemma preserves_get_state : preserves (E := E) I get_state.
Proof. by intros e s Hs t. Qed.
Lemma preserves_fresh_uuid : preserves (E := E) I fresh_uuid.
Proof. by intros e s Hs t. Qed.
Lemma preserves_read_clock : preserves (E := E) I read_clock.
Proof. by intros e s Hs t. Qed.
Lemma preserves_bind {A B} (m : M E S A) (k : A → M E S B) :
  preserves I m → (∀ x, preserves I (k x)) → preserves I (m ≫= k).
Proof.
  intros Hm Hk e s Hs. apply wp_bind. eapply wp_mono; [by apply Hm|].
  intros [x|x] s' Hs'; [by apply Hk | done].
Qed.

(** The continuation of a pure result may use what it returned. *)
Lemma preserves_bind_result {A B} (r : result E A) (k : A → M E S B) :
  (∀ x, r = Ok x → preserves I (k x)) → preserves I (of_result r ≫= k).
Proof.
  intros Hk e s Hs. apply wp_bind, wp_of_result. destruct r as [x|x]; [by apply Hk | done].
Qed.
Lemma preserves_for_each {X A} (l : list X) (body : X → A → M E S (flow A)) acc :
  (∀ x a, preserves I (body x a)) → preserves I (for_each l body acc).
Proof.
  intros Hb. revert acc. induction l as [|x l IH]; intros acc; [apply preserves_ret|].
  apply preserves_bind; [apply Hb|]. intros [a|a]; [apply IH | apply preserves_ret].
Qed.
End frames.

#[export] Hint Resolve keeps_ret keeps_throw keeps_of_result keeps_io keeps_fresh_uuid
  keeps_read_clock keeps_bind keeps_zoom atomic_keeps : frames.
#[export] Hint Resolve preserves_ret preserves_throw preserves_of_result preserves_io
  preserves_get_state preserves_fresh_uuid preserves_read_clock preserves_for_each : frames.

(** Straight-line code, one bind at a time. *)
Ltac atomic_run :=
  repeat first
    [ solve [auto 8 with frames]
    | apply atomic_bind; [solve [auto 8 with frames] | intros ?] ].

(** ** Machine integers

    [u64] and [u32] values are [N] with the saturation written out; [i64]
    values (SQLite's INTEGER) are [Z]. *)
Definition u64_max : N := 18446744073709551615.
Definition u32_max : N := 4294967295.
Definition i64_max : Z := 9223372036854775807.

Definition u64_saturating_add (a b : N) : N := N.min u64_max (a + b).
Definition u32_saturating_add (a b : N) : N := N.min u32_max (a + b).
Definition u64_saturating_sub (a b : N) : N := a - b.

Definition is_u64 (n : N) : Prop := (n ≤ u64_max)%N.
Definition is_u32 (n : N) : Prop := (n ≤ u32_max)%N.

Lemma u64_saturating_add_bound a b : is_u64 (u64_saturating_add a b).
Proof. unfold is_u64, u64_saturating_add. lia. Qed.

Lemma u64_saturating_succ a : (a < u64_max)%N → u64_saturating_add a 1 = (a + 1)%N.
Proof. unfold u64_saturating_add. lia. Qed.

Lemma u64_saturating_top : u64_saturating_add u64_max 1 = u64_max.
Proof. reflexivity. Qed.

(** ** Lists *)

Lemma Forall2_fmap_eq {A B C} (f : A → C) (g : B → C) (R : A → B → Prop) l k :
  Forall2 R l k → (∀ x y, R x y → f x = g y) → g <$> k = f <$> l.
Proof.
  intros Hl HR. induction Hl as [|x y l k Hxy _ IH]; [done|].
  by rewrite !fmap_cons, IH, (HR x y).
Qed.

Lemma filter_all {A} (P : A → Prop) `{!∀ x, Decision (P x)} (l : list A) :
  (∀ x, x ∈ l → P x) → filter P l = l.
Proof.
  induction l as [|x l IH]; intros Hl; [done|].
  rewrite filter_cons_True by (apply Hl; left). f_equal. apply IH. intros y Hy. apply Hl. by right.
Qed.

Lemma filter_none {A} (P : A → Prop) `{!∀ x, Decision (P x)} (l : list A) :
  (∀ x, x ∈ l → ¬ P x) → filter P l = [].
Proof.
  induction l as [|x l IH]; intros Hl; [done|].
  rewrite filter_cons_False by (apply Hl; left). apply IH. intros y Hy. apply Hl. by right.
Qed.

Lemma fmap_filter {A B} (f : A → B) (P : B → Prop) (Q : A → Prop)
    `{!∀ x, Decision (P x), !∀ x, Decision (Q x)} (l : list A) :
  (∀ x, x ∈ l → P (f x) ↔ Q x) → filter P (f <$> l) = f <$> filter Q l.
Proof.
  induction l as [|x l IH]; intros HPQ; [done|]. csimpl. rewrite !filter_cons.
  rewrite IH by (intros y Hy; apply HPQ; by right).
  pose proof (HPQ x ltac:(by left)). repeat case_decide; naive_solver.
Qed.

Lemma pair_fst {A B} (x : A * B) y : x.1 = y → x = (y, x.2).
Proof. intros <-. apply surjective_pairing. Qed.

Lemma take_length_take {A} n (l : list A) : take (length (take n l)) l = take n l.
Proof.
  rewrite length_take. destruct (decide (n ≤ length l)%nat).
  - by rewrite Nat.min_l.
  - rewrite Nat.min_r by lia. by rewrite !take_ge by lia.
Qed.
