(* ===== verification/Strings.v ===== *)
(** * Strings: the [str] and formatting operations of the Rust library

    A [String]/[&str] is its UTF-8 byte sequence, as Rocq's [string].  This file
    holds the operations the sources use ([trim], [split], [rsplit_once],
    [strip_prefix], [starts_with], [contains], [format!] with [{:020}]) and the
    facts about them the components share: the byte-wise order of keys, prefix
    intervals, and that zero-padded decimals order as numbers do. *)

From Stdlib Require Import Ascii String NArith ZArith Lia.
From stdpp Require Import base strings list.
From S2P Require Import Prelude.

(** ** Operations *)

Definition is_empty (s : string) : bool := bool_decide (s = "").

Fixpoint contains (c : ascii) (s : string) : bool :=
  match s with
  | EmptyString => false
  | String a s' => bool_decide (a = c) || contains c s'
  end.

(** [str::split(char)]: always at least one part. *)
Fixpoint split (c : ascii) (s : string) : list string :=
  match s with
  | EmptyString => [""]
  | String a s' =>
      if bool_decide (a = c) then "" :: split c s'
      else match split c s' with
           | p :: ps => String a p :: ps
           | [] => [String a ""]
           end
  end.

(** [str::rsplit_once(char)]: cut at the last occurrence. *)
Fixpoint rsplit_once (c : ascii) (s : string) : option (string * string) :=
  match s with
  | EmptyString => None
  | String a s' =>
      match rsplit_once c s' with
      | Some (l, r) => Some (String a l, r)
      | None => if bool_decide (a = c) then Some ("", s') else None
      end
  end.

Definition starts_with (p s : string) : bool := String.prefix p s.

Fixpoint strip_prefix (p s : string) : option string :=
  match p, s with
  | EmptyString, _ => Some s
  | String a p', String b s' => if bool_decide (a = b) then strip_prefix p' s' else None
  | String _ _, EmptyString => None
  end.

(** The characters of a UTF-8 string, each as its byte sequence: a
    continuation byte (10xxxxxx) belongs to the character before it. *)
Definition is_continuation (a : ascii) : bool :=
  let n := N_of_ascii a in (128 <=? n)%N && (n <? 192)%N.

Fixpoint chars (s : string) : list string :=
  match s with
  | EmptyString => []
  | String a s' =>
      match chars s' with
      | String b x :: cs =>
          if is_continuation b then String a (String b x) :: cs
          else String a "" :: String b x :: cs
      | cs => String a "" :: cs
      end
  end.

(** [char::is_whitespace]: the Unicode White_Space property, by UTF-8 bytes. *)
Definition is_whitespace (ch : string) : bool :=
  match N_of_ascii <$> String.list_ascii_of_string ch with
  | [b] => ((9 <=? b) && (b <=? 13)) || (b =? 32)
  | [194; b] => (b =? 133) || (b =? 160)
  | [225; 154; 128] => true
  | [226; 128; b] => ((128 <=? b) && (b <=? 138)) || (b =? 168) || (b =? 169) || (b =? 175)
  | [226; 129; 159] => true
  | [227; 128; 128] => true
  | _ => false
  end%N.

Fixpoint drop_while {A} (f : A → bool) (l : list A) : list A :=
  match l with
  | [] => []
  | x :: l' => if f x then drop_while f l' else l
  end.

Fixpoint join (l : list string) : string :=
  match l with [] => "" | x :: l' => x +:+ join l' end.

(** [str::trim]. *)
Definition trim (s : string) : string :=
  join (reverse (drop_while is_whitespace (reverse (drop_while is_whitespace (chars s))))).

(** Decimal printing of a [u64] ([{}]) and with zero padding to width 20
    ([{:020}]).  A [u64] has at most 20 digits, the fuel of [dec_go]. *)
Definition digit (d : N) : ascii := ascii_of_N (48 + d).

Fixpoint dec_go (fuel : nat) (n : N) (acc : string) : string :=
  match fuel with
  | O => acc
  | S fuel' =>
      let acc' := String (digit (n mod 10)) acc in
      if (n <? 10)%N then acc' else dec_go fuel' (n / 10) acc'
  end.

Definition fmt_u64 (n : N) : string := dec_go 20 n "".

Fixpoint zeros (n : nat) : string :=
  match n with O => "" | S n' => String "0" (zeros n') end.

Definition fmt_020 (n : N) : string :=
  zeros (20 - String.length (fmt_u64 n)) +:+ fmt_u64 n.

(** ** Append and prefixes *)

Lemma app_nil_l s : "" +:+ s = s.
Proof. done. Qed.

Lemma app_cons a s1 s2 : String a s1 +:+ s2 = String a (s1 +:+ s2).
Proof. done. Qed.

Lemma app_assoc_string s1 s2 s3 : (s1 +:+ s2) +:+ s3 = s1 +:+ s2 +:+ s3.
Proof. induction s1 as [|a s1 IH]; [done|]. by rewrite !app_cons, IH. Qed.

Lemma app_nil_r_string s : s +:+ "" = s.
Proof. induction s as [|a s IH]; [done|]. by rewrite app_cons, IH. Qed.

Lemma app_empty_inv s1 s2 : s1 +:+ s2 = "" → s1 = "" ∧ s2 = "".
Proof. by destruct s1. Qed.

Lemma length_app_string s1 s2 :
  String.length (s1 +:+ s2) = (String.length s1 + String.length s2)%nat.
Proof. induction s1 as [|a s1 IH]; [done|]. rewrite app_cons. simpl. by rewrite IH. Qed.

Lemma starts_with_iff p s : starts_with p s = true ↔ ∃ r, s = p +:+ r.
Proof.
  unfold starts_with. revert s. induction p as [|a p IH]; intros s; simpl.
  - split; [intros _; by exists s | by destruct s].
  - destruct s as [|b s]; [split; [done | by intros [r [=]]]|].
    simpl. destruct (ascii_dec a b) as [->|Hne].
    + rewrite IH. split; intros [r Hr].
      * exists r. by rewrite app_cons, Hr.
      * exists r. rewrite app_cons in Hr. by simplify_eq.
    + split; [done|]. intros [r Hr]. rewrite app_cons in Hr. by simplify_eq.
Qed.

Lemma starts_with_app p r : starts_with p (p +:+ r) = true.
Proof. apply starts_with_iff. by exists r. Qed.

Lemma strip_prefix_app p s : strip_prefix p (p +:+ s) = Some s.
Proof.
  induction p as [|a p IH]; [done|]. rewrite app_cons. simpl.
  by rewrite bool_decide_eq_true_2.
Qed.

(** ** Characters that do not occur *)

Lemma contains_app c s1 s2 : contains c (s1 +:+ s2) = contains c s1 || contains c s2.
Proof.
  induction s1 as [|a s1 IH]; [done|]. rewrite app_cons. simpl. by rewrite IH, orb_assoc.
Qed.

Lemma contains_cons_false c a s :
  contains c (String a s) = false ↔ a ≠ c ∧ contains c s = false.
Proof. simpl. rewrite orb_false_iff, bool_decide_eq_false. done. Qed.

Lemma split_no_sep c s : contains c s = false → split c s = [s].
Proof.
  induction s as [|a s IH]; [done|]. rewrite contains_cons_false. intros [Ha Hs]. simpl.
  rewrite bool_decide_eq_false_2 by done. by rewrite IH.
Qed.

Lemma split_app_sep c s r : contains c s = false → split c (s +:+ String c r) = s :: split c r.
Proof.
  induction s as [|a s IH]; intros Hc.
  - rewrite app_nil_l. simpl. by rewrite bool_decide_eq_true_2.
  - apply contains_cons_false in Hc as [Ha Hs]. rewrite app_cons. simpl.
    rewrite bool_decide_eq_false_2 by done. by rewrite IH.
Qed.

(** The parts of a split avoid the separator and rebuild the string. *)
Fixpoint intercalate (c : ascii) (l : list string) : string :=
  match l with
  | [] => ""
  | [p] => p
  | p :: l' => p +:+ String c (intercalate c l')
  end.

Lemma intercalate_cons c p l : l ≠ [] → intercalate c (p :: l) = p +:+ String c (intercalate c l).
Proof. by destruct l. Qed.

Lemma split_not_nil c s : split c s ≠ [].
Proof. destruct s; simpl; [done|]. repeat case_match; done. Qed.

Lemma split_parts c s :
  Forall (λ p, contains c p = false) (split c s) ∧ intercalate c (split c s) = s.
Proof.
  induction s as [|a s [IH1 IH2]]; simpl; [by repeat constructor|].
  case_bool_decide as Ha.
  - split; [by constructor|]. rewrite intercalate_cons by apply split_not_nil.
    rewrite app_nil_l, IH2. by subst.
  - pose proof (split_not_nil c s) as Hnn.
    destruct (split c s) as [|p ps]; [done|].
    inversion IH1 as [|?? Hp Hps]. split.
    + constructor; [by apply contains_cons_false | done].
    + destruct ps as [|q ps]; simpl in *; [by rewrite IH2|].
      rewrite app_cons. by rewrite IH2.
Qed.

(** Cutting at a separator is unambiguous when the left parts avoid it. *)
Lemma app_sep_inj c a1 a2 r1 r2 :
  contains c a1 = false → contains c a2 = false →
  a1 +:+ String c r1 = a2 +:+ String c r2 → a1 = a2 ∧ r1 = r2.
Proof.
  revert a2. induction a1 as [|x a1 IH]; intros [|y a2].
  - rewrite !app_nil_l. intros _ _ [= ->]. done.
  - rewrite app_nil_l, app_cons, contains_cons_false. intros _ [? _] [= -> _]. done.
  - rewrite app_nil_l, app_cons, contains_cons_false. intros [? _] _ [= -> _]. done.
  - rewrite !contains_cons_false, !app_cons. intros [_ H1] [_ H2] [= -> H].
    destruct (IH a2 H1 H2 H) as [-> ->]. done.
Qed.

Lemma rsplit_once_none c s : contains c s = false → rsplit_once c s = None.
Proof.
  induction s as [|a s IH]; [done|]. rewrite contains_cons_false. intros [Ha Hs]. simpl.
  rewrite IH by done. by rewrite bool_decide_eq_false_2.
Qed.

Lemma rsplit_once_app c l r :
  contains c r = false → rsplit_once c (l +:+ String c r) = Some (l, r).
Proof.
  intros Hr. induction l as [|a l IH].
  - rewrite app_nil_l. simpl. rewrite rsplit_once_none by done.
    by rewrite bool_decide_eq_true_2.
  - rewrite app_cons. simpl. by rewrite IH.
Qed.

Lemma rsplit_once_none_inv c s : rsplit_once c s = None → contains c s = false.
Proof.
  induction s as [|b s IH]; simpl; [done|].
  destruct (rsplit_once c s) as [[??]|]; [done|]. case_bool_decide; [done|]. auto.
Qed.

Lemma rsplit_once_some c s l r :
  rsplit_once c s = Some (l, r) → s = l +:+ String c r ∧ contains c r = false.
Proof.
  revert l r. induction s as [|a s IH]; intros l r; simpl; [done|].
  destruct (rsplit_once c s) as [[l' r']|] eqn:Hs.
  - intros [= <- <-]. destruct (IH l' r' eq_refl) as [-> ?]. by rewrite app_cons.
  - case_bool_decide; [|done]. intros [= <- <-]. subst. rewrite app_nil_l. split; [done|].
    by apply rsplit_once_none_inv.
Qed.

(** ** The byte-wise order of [str] *)

Definition slt (a b : string) : Prop := String.compare a b = Lt.
Definition sle (a b : string) : bool := String.leb a b.

Lemma ascii_compare_refl a : Ascii.compare a a = Eq.
Proof. apply N.compare_refl. Qed.

Lemma compare_refl s : String.compare s s = Eq.
Proof. induction s as [|a s IH]; [done|]. simpl. by rewrite ascii_compare_refl. Qed.

Lemma compare_cons a s1 b s2 :
  String.compare (String a s1) (String b s2) =
  match Ascii.compare a b with Eq => String.compare s1 s2 | c => c end.
Proof. done. Qed.

Lemma compare_app p s1 s2 : String.compare (p +:+ s1) (p +:+ s2) = String.compare s1 s2.
Proof.
  induction p as [|a p IH]; [done|].
  by rewrite !app_cons, compare_cons, ascii_compare_refl, IH.
Qed.

Lemma sle_iff a b : sle a b = true ↔ a = b ∨ slt a b.
Proof.
  unfold sle, slt, String.leb. split.
  - destruct (String.compare a b) eqn:H; [|auto|done].
    intros _. left. by apply String.compare_eq_iff.
  - intros [-> | ->]; [|done]. by rewrite compare_refl.
Qed.

Lemma sle_refl a : sle a a = true.
Proof. apply sle_iff. auto. Qed.

#[export] Instance slt_irrefl : Irreflexive slt.
Proof. intros a H. unfold slt in H. by rewrite compare_refl in H. Qed.

#[export] Instance slt_trans : Transitive slt.
Proof.
  intros a b c Hab Hbc.
  assert (String.le a c) as Hle.
  { transitivity b; unfold String.le, String.leb; [by rewrite Hab | by rewrite Hbc]. }
  unfold String.le, String.leb in Hle. unfold slt.
  destruct (String.compare a c) eqn:Hac; [|done|done].
  apply String.compare_eq_iff in Hac as ->.
  unfold slt in *. rewrite String.compare_antisym, Hbc in Hab. done.
Qed.

Lemma slt_asym a b : slt a b → ¬ slt b a.
Proof. intros H1 H2. by apply (slt_irrefl a), (slt_trans a b a). Qed.

Lemma slt_sle_trans a b c : slt a b → sle b c = true → slt a c.
Proof. rewrite sle_iff. intros H [<-|H']; [done|]. by apply (slt_trans a b c). Qed.

Lemma sle_total a b : sle a b = false → slt b a.
Proof.
  unfold sle, slt, String.leb. rewrite (String.compare_antisym b a).
  by destruct (String.compare a b).
Qed.

Lemma sle_prefix p s : sle p (p +:+ s) = true.
Proof.
  rewrite <- (app_nil_r_string p) at 1. unfold sle, String.leb. rewrite compare_app.
  by destruct s.
Qed.

(** The strings with a given prefix form an interval of the order. *)
Lemma prefix_interval p a b c :
  sle (p +:+ a) b = true → slt b (p +:+ c) → starts_with p b = true.
Proof.
  revert b. induction p as [|x p IH]; intros b Hab Hbc; [by apply starts_with_iff; exists b|].
  rewrite !app_cons in *. destruct b as [|y b].
  { apply sle_iff in Hab as [Hab|Hab]; [by simplify_eq | by unfold slt in Hab]. }
  assert (Ascii.compare x y = Eq) as Hxy.
  { unfold sle, String.leb in Hab. unfold slt in Hbc.
    rewrite compare_cons in Hab. rewrite compare_cons in Hbc.
    unfold Ascii.compare in *.
    destruct (N.compare_spec (N_of_ascii x) (N_of_ascii y)) as [H|H|H]; [done| |done].
    destruct (N.compare_spec (N_of_ascii y) (N_of_ascii x)); [lia|lia|done]. }
  unfold sle, String.leb, slt in *. rewrite compare_cons, Hxy in Hab.
  apply Ascii.compare_eq_iff in Hxy as ->.
  rewrite compare_cons, ascii_compare_refl in Hbc.
  apply starts_with_iff. destruct (proj1 (starts_with_iff p b)) as [r ->].
  { by apply IH. }
  by exists r.
Qed.

(** ** Zero-padded decimals *)

(** Exactly [w] decimal digits of [n], most significant first. *)
Fixpoint fixed (w : nat) (n : N) (acc : string) : string :=
  match w with
  | O => acc
  | S w' => fixed w' (n / 10) (String (digit (n mod 10)) acc)
  end.

Lemma zeros_snoc n s : zeros n +:+ String "0" s = zeros (S n) +:+ s.
Proof.
  induction n as [|n IH]; [done|].
  change (zeros (S n)) with (String "0" (zeros n)) at 1. by rewrite app_cons, IH.
Qed.

Lemma fixed_zero w acc : fixed w 0 acc = zeros w +:+ acc.
Proof.
  revert acc. induction w as [|w IH]; intros acc; [done|]. simpl fixed.
  replace (0 / 10)%N with 0%N by done. rewrite IH.
  change (digit (0 mod 10)) with "0"%char. apply zeros_snoc.
Qed.

Lemma fixed_length w n acc : String.length (fixed w n acc) = (w + String.length acc)%nat.
Proof.
  revert n acc. induction w as [|w IH]; intros n acc; [done|].
  simpl fixed. rewrite IH. simpl. lia.
Qed.

Lemma dec_go_fixed w n acc :
  (0 < w)%nat → (n < 10 ^ N.of_nat w)%N →
  zeros (w + String.length acc - String.length (dec_go w n acc)) +:+ dec_go w n acc
  = fixed w n acc.
Proof.
  revert n acc. induction w as [|w IH]; intros n acc Hw Hn; [lia|].
  cbn [dec_go fixed]. destruct (N.ltb_spec n 10) as [Hlt|Hge].
  - rewrite (N.div_small n 10) by done. rewrite fixed_zero.
    f_equal. f_equal. cbn [String.length]. lia.
  - assert (0 < w)%nat as Hw'.
    { destruct w; [|lia]. change (10 ^ N.of_nat 1)%N with 10%N in Hn. lia. }
    rewrite <- IH; [|done|].
    + f_equal. f_equal. cbn [String.length]. lia.
    + apply N.Div0.div_lt_upper_bound.
      rewrite Nat2N.inj_succ, N.pow_succ_r' in Hn. lia.
Qed.

Lemma u64_lt_pow20 n : is_u64 n → (n < 10 ^ N.of_nat 20)%N.
Proof. intros H. apply (N.le_lt_trans _ u64_max); [done|]. by vm_compute. Qed.

Lemma fmt_020_fixed n : is_u64 n → fmt_020 n = fixed 20 n "".
Proof.
  intros H. unfold fmt_020, fmt_u64. rewrite <- dec_go_fixed; [|lia|by apply u64_lt_pow20].
  f_equal.
Qed.

Lemma digit_compare a b :
  (a < 10)%N → (b < 10)%N → Ascii.compare (digit a) (digit b) = N.compare a b.
Proof.
  intros Ha Hb. unfold Ascii.compare, digit. rewrite !N_ascii_embedding by lia.
  destruct (N.compare_spec a b), (N.compare_spec (48 + a) (48 + b)); try lia; done.
Qed.

Lemma div_mod_compare q1 r1 q2 r2 :
  (r1 < 10)%N → (r2 < 10)%N →
  N.compare (10 * q1 + r1) (10 * q2 + r2) =
  match N.compare q1 q2 with Eq => N.compare r1 r2 | c => c end.
Proof.
  intros H1 H2.
  destruct (N.compare_spec q1 q2), (N.compare_spec r1 r2),
    (N.compare_spec (10 * q1 + r1) (10 * q2 + r2)); try done; exfalso; lia.
Qed.

Lemma fixed_compare w n m acc1 acc2 :
  (n < 10 ^ N.of_nat w)%N → (m < 10 ^ N.of_nat w)%N →
  String.compare (fixed w n acc1) (fixed w m acc2) =
  match N.compare n m with Eq => String.compare acc1 acc2 | c => c end.
Proof.
  revert n m acc1 acc2. induction w as [|w IH]; intros n m acc1 acc2 Hn Hm.
  { change (10 ^ N.of_nat 0)%N with 1%N in *.
    replace n with 0%N by lia. by replace m with 0%N by lia. }
  cbn [fixed]. rewrite Nat2N.inj_succ, N.pow_succ_r' in Hn, Hm.
  rewrite IH by (apply N.Div0.div_lt_upper_bound; lia).
  rewrite compare_cons, digit_compare by (apply N.mod_lt; lia).
  rewrite (N.div_mod n 10) at 3 by lia. rewrite (N.div_mod m 10) at 3 by lia.
  rewrite div_mod_compare by (apply N.mod_lt; lia).
  by destruct (N.compare (n / 10) (m / 10)).
Qed.

(** [{:020}] orders as the numbers do, whatever precedes and follows it. *)
Lemma fmt_020_compare p n m r1 r2 :
  is_u64 n → is_u64 m →
  String.compare (p +:+ fmt_020 n +:+ r1) (p +:+ fmt_020 m +:+ r2) =
  match N.compare n m with Eq => String.compare r1 r2 | c => c end.
Proof.
  intros Hn Hm. rewrite compare_app, !fmt_020_fixed by done.
  assert (∀ w k acc r, fixed w k acc +:+ r = fixed w k (acc +:+ r)) as Happ.
  { induction w as [|w IH]; intros k acc r; [done|]. cbn [fixed]. by rewrite IH, app_cons. }
  rewrite !Happ, fixed_compare by (by apply u64_lt_pow20). done.
Qed.

Lemma fmt_020_slt p n m : is_u64 n → is_u64 m → slt (p +:+ fmt_020 n) (p +:+ fmt_020 m) ↔ (n < m)%N.
Proof.
  intros Hn Hm. unfold slt.
  pose proof (fmt_020_compare p n m "" "" Hn Hm) as H. rewrite !app_nil_r_string in H.
  rewrite H, compare_refl. destruct (N.compare_spec n m); split; try done; lia.
Qed.

Lemma fmt_020_sle p n m :
  is_u64 n → is_u64 m → sle (p +:+ fmt_020 n) (p +:+ fmt_020 m) = true ↔ (n ≤ m)%N.
Proof.
  intros Hn Hm. unfold sle, String.leb.
  pose proof (fmt_020_compare p n m "" "" Hn Hm) as H. rewrite !app_nil_r_string in H.
  rewrite H, compare_refl. destruct (N.compare_spec n m); split; try done; lia.
Qed.

Lemma fmt_020_inj n m r1 r2 :
  is_u64 n → is_u64 m → fmt_020 n +:+ r1 = fmt_020 m +:+ r2 → n = m ∧ r1 = r2.
Proof.
  intros Hn Hm Heq.
  pose proof (fmt_020_compare "" n m r1 r2 Hn Hm) as H.
  rewrite !app_nil_l, Heq, compare_refl in H.
  destruct (N.compare_spec n m) as [->|?|?]; [|done|done].
  split; [done|]. by apply String.compare_eq_iff.
Qed.

(** ** Trimming *)

Lemma drop_while_nil {A} (f : A → bool) l : drop_while f l = [] ↔ Forall f l.
Proof.
  induction l as [|x l IH]; simpl; [done|].
  rewrite Forall_cons. destruct (f x); simpl; [rewrite IH; naive_solver|].
  split; [done | by intros [[] _]].
Qed.

Lemma drop_while_head {A} (f : A → bool) l x l' : drop_while f l = x :: l' → f x = false.
Proof.
  induction l as [|y l IH]; simpl; [done|]. destruct (f y) eqn:Hy; [done|].
  intros [= -> ->]. done.
Qed.

Lemma chars_nonempty s : Forall (λ c, c ≠ "") (chars s).
Proof.
  induction s as [|a s IH]; simpl; [constructor|].
  destruct (chars s) as [|[|b x] cs]; [by repeat constructor | by constructor |].
  apply Forall_cons in IH as [_ IH]. by case_match; repeat constructor.
Qed.

Lemma drop_while_sub {A} (f : A → bool) l (P : A → Prop) : Forall P l → Forall P (drop_while f l).
Proof. induction 1; simpl; [done|]. by case_match; [|constructor]. Qed.

Lemma join_empty l : Forall (λ c, c ≠ "") l → join l = "" → l = [].
Proof.
  intros Hl. destruct Hl as [|x l Hx _]; [done|]. simpl.
  intros [-> _]%app_empty_inv. done.
Qed.

(** [s.trim().is_empty()] says every character is white space. *)
Lemma trim_empty s : trim s = "" ↔ Forall is_whitespace (chars s).
Proof.
  unfold trim. split.
  - intros H%join_empty.
    + apply (f_equal reverse) in H. rewrite reverse_involutive, drop_while_nil in H.
      rewrite Forall_reverse in H.
      destruct (drop_while is_whitespace (chars s)) as [|x l] eqn:Hd.
      * by apply drop_while_nil in Hd.
      * apply drop_while_head in Hd. inversion H as [|?? Hx]. by rewrite Hd in Hx.
    + apply Forall_reverse, drop_while_sub, Forall_reverse, drop_while_sub, chars_nonempty.
  - intros H%drop_while_nil. by rewrite H.
Qed.

(** A byte that starts a character cuts the characters of a text. *)
Lemma chars_cons_start c r :
  is_continuation c = false → ∃ x cs, chars (String c r) = String c x :: cs.
Proof.
  intros Hc. simpl. destruct (chars r) as [|[|b x] cs]; [by eauto..|].
  destruct (is_continuation b); eauto.
Qed.

Lemma chars_app s c r :
  is_continuation c = false → chars (s +:+ String c r) = chars s ++ chars (String c r).
Proof.
  intros Hc. destruct (chars_cons_start c r Hc) as (y & ys & Heq). rewrite Heq.
  induction s as [|a s IH]; [by rewrite app_nil_l|]. rewrite app_cons.
  change (chars (String a (s +:+ String c r))) with
    (match chars (s +:+ String c r) with
     | String b x :: cs => if is_continuation b then String a (String b x) :: cs
                           else String a "" :: String b x :: cs
     | cs => String a "" :: cs
     end).
  rewrite IH. simpl. destruct (chars s) as [|[|b x] cs]; simpl; [by rewrite Hc|done|].
  by destruct (is_continuation b).
Qed.
