(* ===== verification/Core.v ===== *)
(** * Core: domain types, validation and the store trait

    Models [crates/msgbus-core/src/lib.rs]: the error enum, node identities and
    their textual keys, the validated newtypes, the message records, the clock,
    and the [MsgbusStore] trait as a type class. *)

From Stdlib Require Import Ascii String NArith ZArith Lia.
From stdpp Require Import base strings list gmap countable.
From S2P Require Import Prelude Strings.

Abbreviation bytes := (list Byte.byte).

#[export] Instance byte_eq_dec : EqDecision Byte.byte := Byte.byte_eq_dec.
#[export] Instance byte_countable : Countable Byte.byte :=
  inj_countable Byte.to_N Byte.of_N Byte.of_to_N.

(** ** Errors *)

Inductive MsgbusError : Type :=
| InvalidArgument (msg : string)
| NotFound (msg : string)
| Conflict (msg : string)
| Storage (msg : string)
| Serialization (msg : string).

#[export] Instance MsgbusError_eq_dec : EqDecision MsgbusError.
Proof. solve_decision. Defined.

(** The [Display] text derived by [thiserror]. *)
Definition error_to_string (x : MsgbusError) : string :=
  match x with
  | InvalidArgument m => "invalid argument: " +:+ m
  | NotFound m => "not found: " +:+ m
  | Conflict m => "conflict: " +:+ m
  | Storage m => "storage error: " +:+ m
  | Serialization m => "serialization error: " +:+ m
  end.

Abbreviation Result := (result MsgbusError).

Definition validate_part (name value : string) : Result unit :=
  if is_empty (trim value) then Err (InvalidArgument (name +:+ " is empty"))
  else if contains "000" value then Err (InvalidArgument (name +:+ " contains NUL byte"))
  else Ok tt.

(** ** Node identities *)

Record NodeId := mkNodeId {
  tenant_id : string;
  bl_name : string;
  device_id : string;
}.

#[export] Instance NodeId_eq_dec : EqDecision NodeId.
Proof. solve_decision. Defined.

Module NodeId.
Definition validate (n : NodeId) : Result unit :=
  validate_part "tenant_id" (tenant_id n);;
  validate_part "bl_name" (bl_name n);;
  validate_part "device_id" (device_id n).

Definition new (tenant bl device : string) : Result NodeId :=
  let node := mkNodeId tenant bl device in
  validate node;;
  Ok node.

Definition is_empty (n : NodeId) : bool :=
  Strings.is_empty (tenant_id n) && Strings.is_empty (bl_name n) &&
  Strings.is_empty (device_id n).

Definition key (n : NodeId) : string :=
  tenant_id n +:+ "/" +:+ bl_name n +:+ "/" +:+ device_id n.

(** [parts.next()] four times on the iterator of [value.split('/')]. *)
Definition from_key (value : string) : Result NodeId :=
  let parts := split "/" value in
  tenant ← ok_or (InvalidArgument "node key is missing tenant_id") (parts !! 0%nat);
  bl ← ok_or (InvalidArgument "node key is missing bl_name") (parts !! 1%nat);
  device ← ok_or (InvalidArgument "node key is missing device_id") (parts !! 2%nat);
  match parts !! 3%nat with
  | Some _ => Err (InvalidArgument "node key must have tenant_id/bl_name/device_id")
  | None => new tenant bl device
  end.
End NodeId.

(** ** Validated newtypes: the fields are private, [new] is the constructor *)

Record Topic := mkTopic { topic_str : string }.
Record MessageId := mkMessageId { message_id_str : string }.
Record QueueName := mkQueueName { queue_str : string }.

#[export] Instance Topic_eq_dec : EqDecision Topic.
Proof. solve_decision. Defined.
#[export] Instance MessageId_eq_dec : EqDecision MessageId.
Proof. solve_decision. Defined.
#[export] Instance QueueName_eq_dec : EqDecision QueueName.
Proof. solve_decision. Defined.

Definition Topic_new (value : string) : Result Topic :=
  validate_part "topic" value;; Ok (mkTopic value).

Definition QueueName_new (value : string) : Result QueueName :=
  validate_part "queue" value;; Ok (mkQueueName value).

Definition MessageId_from_string (value : string) : Result MessageId :=
  validate_part "message_id" value;; Ok (mkMessageId value).

Definition MessageId_new {E S} : M E S MessageId :=
  u ← fresh_uuid; mret (mkMessageId u).

(** [HeadId] is a [u64]; [next] saturates. *)
Abbreviation HeadId := N.
Definition HeadId_next (h : HeadId) : HeadId := u64_saturating_add h 1.

(** [duration.as_millis() as u64]: the cast truncates; a clock before the
    epoch reads as 0. *)
Definition clock_ms (c : option N) : N :=
  match c with None => 0%N | Some ms => (ms mod 2 ^ 64)%N end.

Definition now_ms {E S} : M E S N :=
  c ← read_clock;
  mret (clock_ms c).

(** A time the environment's clock shows. *)
Definition ticks (e : Env) (now : N) : Prop := ∃ t, now = clock_ms (clock e t).

Lemma ticks_u64 e now : ticks e now → is_u64 now.
Proof.
  intros [t ->]. unfold is_u64, u64_max, clock_ms. destruct (clock e t) as [ms|]; [|lia].
  pose proof (N.mod_lt ms (2 ^ 64) ltac:(lia)). lia.
Qed.

Lemma wp_now_ms {E S} e (Q : result E N → S → Prop) (s : S) :
  (∀ n, ticks e n → Q (Ok n) s) → wp e now_ms Q s.
Proof. intros HQ t. apply HQ. by exists t. Qed.

Lemma keeps_now_ms {E S V} (view : S → V) : keeps (E := E) view now_ms.
Proof. intros e s. by apply wp_now_ms. Qed.
Lemma preserves_now_ms {E S} (I : S → Prop) : preserves (E := E) I now_ms.
Proof. intros e s Hs. by apply wp_now_ms. Qed.
#[export] Hint Resolve keeps_now_ms preserves_now_ms : frames.

(** ** Messages *)

Record NewMessage := mkNewMessage {
  nm_id : MessageId;
  nm_topic : Topic;
  nm_origin : NodeId;
  nm_payload : bytes;
  nm_headers : gmap string string;
}.

Definition NewMessage_new {E S} (topic : Topic) (origin : NodeId) (payload : bytes)
    (headers : gmap string string) : M E S NewMessage :=
  id ← MessageId_new;
  mret (mkNewMessage id topic origin payload headers).

Lemma wp_MessageId_new {E S} e (Q : result E MessageId → S → Prop) (s : S) :
  (∀ t, Q (Ok (mkMessageId (uuid e t))) s) → wp e MessageId_new Q s.
Proof. intros HQ t. apply HQ. Qed.

Lemma keeps_NewMessage_new {E S V} (view : S → V) t o p h :
  keeps (E := E) view (NewMessage_new t o p h).
Proof. unfold NewMessage_new, MessageId_new. auto 8 with frames. Qed.
Lemma preserves_NewMessage_new {E S} (I : S → Prop) t o p h :
  preserves (E := E) I (NewMessage_new t o p h).
Proof. intros e s Hs. unfold NewMessage_new, MessageId_new. wp_run; done. Qed.
#[export] Hint Resolve keeps_NewMessage_new preserves_NewMessage_new : frames.

Record StoredMessage := mkStoredMessage {
  sm_id : MessageId;
  sm_topic : Topic;
  sm_origin : NodeId;
  sm_head_id : HeadId;
  sm_payload : bytes;
  sm_headers : gmap string string;
  sm_created_at_ms : N;
  sm_deleted : bool;
}.

#[export] Instance StoredMessage_eq_dec : EqDecision StoredMessage.
Proof. solve_decision. Defined.

Definition set_deleted (b : bool) (m : StoredMessage) : StoredMessage :=
  mkStoredMessage (sm_id m) (sm_topic m) (sm_origin m) (sm_head_id m) (sm_payload m)
    (sm_headers m) (sm_created_at_ms m) b.

Record TopicHead := mkTopicHead {
  th_topic : Topic;
  th_origin : NodeId;
  th_head_id : HeadId;
}.

Record PeerSyncState := mkPeerSyncState {
  ps_peer : string;
  ps_topic : option Topic;
  ps_origin : option NodeId;
  ps_local_head : HeadId;
  ps_remote_head : HeadId;
  ps_last_synced_head : HeadId;
  ps_last_attempt_at_ms : N;
  ps_last_success_at_ms : N;
  ps_consecutive_failures : N;
  ps_last_error : option string;
}.

Inductive ReplicateResult : Type := Inserted | AlreadyPresent.

Record FetchQuery := mkFetchQuery {
  fq_topic : Topic;
  fq_origin : NodeId;
  fq_from_head_id : HeadId;
  fq_limit : N;
}.

Record TombstoneRange := mkTombstoneRange {
  tr_topic : Topic;
  tr_origin : NodeId;
  tr_from_head_id : HeadId;
  tr_to_head_id : HeadId;
  tr_created_at_ms : N;
}.

Record NewFifoMessage := mkNewFifoMessage {
  nf_id : MessageId;
  nf_queue : QueueName;
  nf_topic : Topic;
  nf_source : NodeId;
  nf_target : NodeId;
  nf_payload : bytes;
  nf_headers : gmap string string;
}.

Definition NewFifoMessage_new {E S} (queue : QueueName) (topic : Topic)
    (source target : NodeId) (payload : bytes) (headers : gmap string string)
    : M E S NewFifoMessage :=
  id ← MessageId_new;
  mret (mkNewFifoMessage id queue topic source target payload headers).

Record StoredFifoMessage := mkStoredFifoMessage {
  sf_id : MessageId;
  sf_queue : QueueName;
  sf_topic : Topic;
  sf_source : NodeId;
  sf_target : NodeId;
  sf_payload : bytes;
  sf_headers : gmap string string;
  sf_created_at_ms : N;
  sf_sequence : N;
  sf_attempts : N;
}.

Definition set_attempts (n : N) (m : StoredFifoMessage) : StoredFifoMessage :=
  mkStoredFifoMessage (sf_id m) (sf_queue m) (sf_topic m) (sf_source m) (sf_target m)
    (sf_payload m) (sf_headers m) (sf_created_at_ms m) (sf_sequence m) n.

(** ** The store trait *)

Class MsgbusStore (DB : Type) := {
  append_message : NewMessage → M MsgbusError DB StoredMessage;
  fetch_messages : FetchQuery → M MsgbusError DB (list StoredMessage);
  get_head : Topic → NodeId → M MsgbusError DB (option HeadId);
  list_heads : M MsgbusError DB (list TopicHead);
  put_replicated_message : StoredMessage → M MsgbusError DB ReplicateResult;
  tombstone_range : Topic → NodeId → HeadId → HeadId → M MsgbusError DB N;
  tombstone_range_with_marker :
    Topic → NodeId → HeadId → HeadId → Topic → NodeId → M MsgbusError DB (N * StoredMessage);
  enqueue_fifo : NewFifoMessage → M MsgbusError DB StoredFifoMessage;
  peek_fifo : QueueName → M MsgbusError DB (option StoredFifoMessage);
  ack_fifo : QueueName → MessageId → M MsgbusError DB bool;
  reject_fifo : QueueName → MessageId → M MsgbusError DB bool;
  record_peer_sync_state : PeerSyncState → M MsgbusError DB unit;
  list_peer_sync_states : M MsgbusError DB (list PeerSyncState);
}.

(** ** Validation *)

(** What [validate_part] accepts: a part with a non-blank character, no NUL. *)
Definition valid_part (v : string) : Prop :=
  ¬ Forall is_whitespace (chars v) ∧ contains "000" v = false.

Lemma is_empty_true s : is_empty s = true ↔ s = "".
Proof. apply bool_decide_eq_true. Qed.

Lemma is_empty_false s : is_empty s = false ↔ s ≠ "".
Proof. apply bool_decide_eq_false. Qed.

Lemma validate_part_ok name v : validate_part name v = Ok tt ↔ valid_part v.
Proof.
  unfold validate_part, valid_part. rewrite <- trim_empty.
  destruct (is_empty (trim v)) eqn:He.
  - apply is_empty_true in He. split; [done | by intros [? _]].
  - apply is_empty_false in He. destruct (contains "000" v); naive_solver.
Qed.

(** Rejection is an [InvalidArgument] that names the field; blank wins over NUL. *)
Lemma validate_part_err name v x :
  validate_part name v = Err x ↔
  (Forall is_whitespace (chars v) ∧ x = InvalidArgument (name +:+ " is empty")) ∨
  (¬ Forall is_whitespace (chars v) ∧ contains "000" v = true ∧
     x = InvalidArgument (name +:+ " contains NUL byte")).
Proof.
  unfold validate_part. rewrite <- trim_empty.
  destruct (is_empty (trim v)) eqn:He.
  - apply is_empty_true in He. naive_solver.
  - apply is_empty_false in He. destruct (contains "000" v); naive_solver.
Qed.

Definition NodeId_valid (n : NodeId) : Prop :=
  valid_part (tenant_id n) ∧ valid_part (bl_name n) ∧ valid_part (device_id n).

Definition slash_free (n : NodeId) : Prop :=
  contains "/" (tenant_id n) = false ∧ contains "/" (bl_name n) = false ∧
  contains "/" (device_id n) = false.

Lemma result_bind_unit_ok {E A} (m : result E unit) (k : result E A) a :
  (m;; k) = Ok a ↔ m = Ok tt ∧ k = Ok a.
Proof. destruct m as [[]|x]; cbn; naive_solver. Qed.

Lemma validate_ok n : NodeId.validate n = Ok tt ↔ NodeId_valid n.
Proof.
  unfold NodeId.validate, NodeId_valid.
  by rewrite !result_bind_unit_ok, !validate_part_ok.
Qed.

Lemma NodeId_new_ok a b c n :
  NodeId.new a b c = Ok n ↔ n = mkNodeId a b c ∧ NodeId_valid n.
Proof.
  unfold NodeId.new. rewrite result_bind_unit_ok, validate_ok. naive_solver.
Qed.

Lemma newtype_ok {A} (f : string → A) name v a :
  (validate_part name v;; Ok (f v) : Result A) = Ok a ↔ valid_part v ∧ a = f v.
Proof. rewrite result_bind_unit_ok, validate_part_ok. naive_solver. Qed.

Lemma Topic_new_ok v t : Topic_new v = Ok t ↔ valid_part v ∧ t = mkTopic v.
Proof. apply newtype_ok. Qed.

Lemma QueueName_new_ok v q : QueueName_new v = Ok q ↔ valid_part v ∧ q = mkQueueName v.
Proof. apply newtype_ok. Qed.

Lemma MessageId_from_string_ok v i :
  MessageId_from_string v = Ok i ↔ valid_part v ∧ i = mkMessageId v.
Proof. apply newtype_ok. Qed.

(** ** Node keys *)

Lemma key_cons n :
  NodeId.key n = tenant_id n +:+ String "/" (bl_name n +:+ String "/" (device_id n)).
Proof. done. Qed.

Lemma split_key n :
  slash_free n → split "/" (NodeId.key n) = [tenant_id n; bl_name n; device_id n].
Proof.
  intros (Ht & Hb & Hd). rewrite key_cons.
  by rewrite !split_app_sep, split_no_sep.
Qed.

(** Node keys of slash-free identities are injective. *)
Lemma key_inj n1 n2 :
  slash_free n1 → slash_free n2 → NodeId.key n1 = NodeId.key n2 → n1 = n2.
Proof.
  intros H1 H2 Heq. pose proof (split_key n1 H1) as E1. rewrite Heq, split_key in E1 by done.
  destruct n1, n2. simpl in *. by simplify_eq.
Qed.

(** A key always holds at least two slashes, so it is never a bare word. *)
Lemma key_contains_slash n : contains "/" (NodeId.key n) = true.
Proof. rewrite key_cons, contains_app. simpl. by rewrite orb_true_r. Qed.

Lemma from_key_ok s n :
  NodeId.from_key s = Ok n ↔ s = NodeId.key n ∧ NodeId_valid n ∧ slash_free n.
Proof.
  split.
  - unfold NodeId.from_key. destruct (split_parts "/" s) as [Hsf Hs].
    destruct (split "/" s) as [|a [|b [|c [|d l]]]]; try done. cbn.
    intros [-> Hv]%NodeId_new_ok. decompose_Forall_hyps.
    done.
  - intros (-> & Hv & Hsf). unfold NodeId.from_key. rewrite split_key by done. cbn.
    apply NodeId_new_ok. by destruct n.
Qed.

(** Distinct valid identities can share a key, because validation lets a slash
    into a part; every table keyed by [NodeId::key] merges their logs. *)
Theorem key_not_injective :
  ∃ n1 n2, NodeId.validate n1 = Ok tt ∧ NodeId.validate n2 = Ok tt ∧
           n1 ≠ n2 ∧ NodeId.key n1 = NodeId.key n2.
Proof.
  exists (mkNodeId "a/b" "c" "d"), (mkNodeId "a" "b/c" "d").
  by repeat split; vm_compute.
Qed.

(** C31: [NodeId::from_key] accepts exactly the keys of valid identities whose
    parts hold no slash, and returns that identity: it is the inverse of
    [NodeId::key] on those identities and rejects every other text.  The
    restriction matters: among all valid identities, [key] is not injective. *)
Theorem node_keys :
  (∀ s n, NodeId.from_key s = Ok n ↔ s = NodeId.key n ∧ NodeId_valid n ∧ slash_free n) ∧
  ∃ n1 n2, NodeId.validate n1 = Ok tt ∧ NodeId.validate n2 = Ok tt ∧ n1 ≠ n2 ∧ NodeId.key n1 = NodeId.key n2.
Proof. split; [apply from_key_ok | apply key_not_injective]. Qed.
