(* ===== verification/Table.v ===== *)
(** * Table: ordered key-value tables

    redb's tables are external to the sources.  [OrderedTable] lists the calls
    the sources make on them ([get], [insert], [remove], [range(start..)]) and
    [OrderedTableLaws] their documented behaviour: a finite map whose range
    iterator visits the keys from [start] on, each once, in increasing order.
    The rest of the file is the theory of prefix scans over such tables, which
    the redb store uses for logs, tombstones and queues. *)

From Stdlib Require Import Ascii String NArith ZArith Lia Sorting.Sorted.
From stdpp Require Import base strings list gmap sorting.
From S2P Require Import Prelude Strings.

Class OrderedTable (T : Type → Type) := {
  tbl_empty : ∀ {V : Type}, T V;
  tbl_get : ∀ {V : Type}, string → T V → option V;
  tbl_insert : ∀ {V : Type}, string → V → T V → T V;
  tbl_remove : ∀ {V : Type}, string → T V → T V;
  tbl_range : ∀ {V : Type}, string → T V → list (string * V);
}.

Definition key_lt {V} (x y : string * V) : Prop := slt x.1 y.1.

Class OrderedTableLaws (T : Type → Type) `{!OrderedTable T} : Prop := {
  tbl_get_empty : ∀ V k, tbl_get k (tbl_empty : T V) = None;
  tbl_get_insert : ∀ V k k' (v : V) (t : T V),
    tbl_get k' (tbl_insert k v t) = if decide (k = k') then Some v else tbl_get k' t;
  tbl_get_remove : ∀ V k k' (t : T V),
    tbl_get k' (tbl_remove k t) = if decide (k = k') then None else tbl_get k' t;
  tbl_range_elem : ∀ V start k (v : V) (t : T V),
    (k, v) ∈ tbl_range start t ↔ sle start k = true ∧ tbl_get k t = Some v;
  tbl_range_sorted : ∀ V start (t : T V), StronglySorted key_lt (tbl_range start t);
}.

(** ** Strictly sorted lists are determined by their elements *)

Lemma key_sorted_ext {V} (l1 l2 : list (string * V)) :
  StronglySorted key_lt l1 → StronglySorted key_lt l2 →
  (∀ x, x ∈ l1 ↔ x ∈ l2) → l1 = l2.
Proof.
  intros H1. revert l2. induction H1 as [|x l1 Hs1 IH Hx]; intros l2 H2 Hext.
  - destruct l2 as [|y l2]; [done|]. exfalso.
    apply (not_elem_of_nil y), Hext. left.
  - destruct H2 as [|y l2 Hs2 Hy].
    { exfalso. apply (not_elem_of_nil x), Hext. left. }
    rewrite Forall_forall in Hx, Hy.
    assert (x = y) as ->.
    { pose proof (proj1 (Hext x) ltac:(left)) as Hxin.
      pose proof (proj2 (Hext y) ltac:(left)) as Hyin.
      apply elem_of_cons in Hxin as [?|Hxin]; [done|].
      apply elem_of_cons in Hyin as [?|Hyin]; [done|].
      exfalso. eapply slt_asym; [by apply Hy | by apply Hx]. }
    f_equal. apply IH; [done|]. intros z. split; intros Hz.
    + pose proof (proj1 (Hext z) ltac:(by right)) as Hin.
      apply elem_of_cons in Hin as [->|]; [|done]. by apply Hx, slt_irrefl in Hz.
    + pose proof (proj2 (Hext z) ltac:(by right)) as Hin.
      apply elem_of_cons in Hin as [->|]; [|done]. by apply Hy, slt_irrefl in Hz.
Qed.

Fixpoint take_while {A} (f : A → bool) (l : list A) : list A :=
  match l with
  | [] => []
  | x :: l' => if f x then x :: take_while f l' else []
  end.

Lemma take_while_sorted {A} (R : relation A) f l :
  StronglySorted R l → StronglySorted R (take_while f l).
Proof.
  induction 1 as [|x l Hs IH Hx]; simpl; [constructor|].
  destruct (f x); [|constructor]. constructor; [done|].
  clear -Hx. induction Hx; simpl; [constructor|]. by case_match; repeat constructor.
Qed.

Lemma take_while_elem_of {A} (f : A → bool) l x :
  x ∈ take_while f l → x ∈ l ∧ f x = true.
Proof.
  induction l as [|y l IH]; simpl; [by intros ?%not_elem_of_nil|].
  destruct (f y) eqn:Hy; [|by intros ?%not_elem_of_nil].
  rewrite !elem_of_cons. intros [->|?]; naive_solver.
Qed.

Lemma take_while_all {A} (f : A → bool) l : Forall f l → take_while f l = l.
Proof.
  induction 1 as [|x l Hx _ IH]; simpl; [done|].
  apply Is_true_true in Hx. by rewrite Hx, IH.
Qed.

(** ** Prefix scans *)

Section scan.
Context {T : Type → Type} `{!OrderedTable T, !OrderedTableLaws T}.
Context {V : Type}.
Implicit Types (t : T V) (p k start : string) (v : V).

(** What a loop over [range(start..)] with a [break] at the first key outside
    [p] visits. *)
Definition scan p start t : list (string * V) :=
  take_while (λ kv, starts_with p kv.1) (tbl_range start t).

(** The scan misses nothing: the keys with prefix [p] are contiguous. *)
Lemma scan_elem p r k v t :
  (k, v) ∈ scan p (p +:+ r) t ↔
  starts_with p k = true ∧ sle (p +:+ r) k = true ∧ tbl_get k t = Some v.
Proof.
  unfold scan. split.
  - intros [Hin Hp]%take_while_elem_of. by rewrite tbl_range_elem in Hin.
  - intros (Hp & Hle & Hget).
    pose proof (tbl_range_elem _ (p +:+ r) k v t) as Hel.
    assert (Forall (λ x, sle (p +:+ r) x.1 = true) (tbl_range (p +:+ r) t)) as Hall.
    { apply Forall_forall. intros [k' v'] [? _]%tbl_range_elem. done. }
    pose proof (tbl_range_sorted _ (p +:+ r) t) as Hs.
    assert ((k, v) ∈ tbl_range (p +:+ r) t) as Hin by (by apply Hel).
    clear Hel. induction Hs as [|[k0 v0] l Hs IH Hx]; [by inversion Hin|].
    apply Forall_cons_1 in Hall as [Hk0 Hall]. simpl in *.
    apply elem_of_cons in Hin as [[= -> ->]|Hin].
    { rewrite Hp. by left. }
    rewrite Forall_forall in Hx.
    assert (starts_with p k0 = true) as ->.
    { apply starts_with_iff in Hp as [r' ->].
      exact (prefix_interval p r k0 r' Hk0 (Hx _ Hin)). }
    right. by apply IH.
Qed.

Lemma scan_sorted p start t : StronglySorted key_lt (scan p start t).
Proof. apply take_while_sorted, tbl_range_sorted. Qed.

(** ** Segments

    [segment p l t]: the entries of [t] under prefix [p] are exactly the
    numbered entries [l], each under [p] followed by its padded number. *)
Definition num_lt (x y : N * V) : Prop := (x.1 < y.1)%N.

Definition segment p (l : list (N * V)) t : Prop :=
  StronglySorted num_lt l ∧ Forall (λ x, is_u64 x.1) l ∧
  ∀ r v, tbl_get (p +:+ r) t = Some v ↔ ∃ i, (i, v) ∈ l ∧ r = fmt_020 i.

Definition key_entries p (l : list (N * V)) : list (string * V) :=
  (λ x : N * V, (p +:+ fmt_020 x.1, x.2)) <$> l.

Lemma key_entries_sorted p l :
  StronglySorted num_lt l → Forall (λ x, is_u64 x.1) l →
  StronglySorted key_lt (key_entries p l).
Proof.
  induction 1 as [|x l Hs IH Hx]; intros Hu; csimpl; [constructor|].
  apply Forall_cons_1 in Hu as [Hux Hu]. constructor; [by apply IH|].
  apply Forall_fmap, Forall_forall. intros y Hy. rewrite Forall_forall in Hx, Hu.
  apply fmt_020_slt; [done | by apply Hu | by apply Hx].
Qed.

Lemma segment_lookup p l t i v :
  segment p l t → is_u64 i → tbl_get (p +:+ fmt_020 i) t = Some v ↔ (i, v) ∈ l.
Proof.
  intros (_ & Hu & Hg) Hi. rewrite Hg. split; [|by eauto].
  intros (j & Hj & Heq). rewrite Forall_forall in Hu.
  destruct (fmt_020_inj i j "" "") as [-> _]; [done | by apply (Hu _ Hj) | |done].
  by rewrite !app_nil_r_string.
Qed.

(** Scanning from number [i] visits the entries numbered [i] and above. *)
Lemma scan_segment_from p l t i :
  segment p l t → is_u64 i →
  scan p (p +:+ fmt_020 i) t = key_entries p (filter (λ x, (i ≤ x.1)%N) l).
Proof.
  intros (Hs & Hu & Hg) Hi. apply key_sorted_ext; [apply scan_sorted| |].
  - apply key_entries_sorted.
    + clear -Hs. induction Hs as [|x l Hs IH Hx]; [constructor|].
      rewrite filter_cons. case_decide; [|done]. constructor; [done|].
      rewrite Forall_forall in *. intros y [_ Hy]%list_elem_of_filter. by apply Hx.
    + rewrite Forall_forall in *. intros y [_ Hy]%list_elem_of_filter. by apply Hu.
  - intros [k v]. rewrite scan_elem. unfold key_entries. rewrite list_elem_of_fmap.
    rewrite Forall_forall in Hu. split.
    + intros (Hp & Hle & Hget). apply starts_with_iff in Hp as [r ->].
      apply Hg in Hget as (j & Hj & ->). exists (j, v). split; [done|].
      apply list_elem_of_filter. split; [|done]. simpl.
      apply (fmt_020_sle p) in Hle; [done | done | by apply (Hu _ Hj)].
    + intros ([j w] & Heq & [Hij Hj]%list_elem_of_filter). simplify_eq/=.
      split; [apply starts_with_app|]. split.
      * apply fmt_020_sle; [done | by apply (Hu _ Hj) | done].
      * apply Hg. by exists j.
Qed.

(** Scanning from the bare prefix visits them all. *)
Lemma scan_segment_all p l t : segment p l t → scan p p t = key_entries p l.
Proof.
  intros (Hs & Hu & Hg). apply key_sorted_ext; [apply scan_sorted| by apply key_entries_sorted|].
  intros [k v]. rewrite <- (app_nil_r_string p) at 2. rewrite scan_elem, app_nil_r_string.
  unfold key_entries. rewrite list_elem_of_fmap. split.
  - intros (Hp & _ & Hget). apply starts_with_iff in Hp as [r ->].
    apply Hg in Hget as (j & Hj & ->). by exists (j, v).
  - intros ([j w] & Heq & Hj). simplify_eq/=.
    split; [apply starts_with_app|]. split; [apply sle_prefix|]. apply Hg. by exists j.
Qed.

(** ** Updating segments *)

Lemma segment_empty p : segment p [] (tbl_empty : T V).
Proof.
  split; [constructor|]. split; [constructor|]. intros r v. rewrite tbl_get_empty.
  split; [done|]. by intros (i & ?%not_elem_of_nil & _).
Qed.

Lemma segment_insert_other p l t k v :
  starts_with p k = false → segment p l t → segment p l (tbl_insert k v t).
Proof.
  intros Hp (Hs & Hu & Hg). split; [done|]. split; [done|]. intros r w.
  rewrite tbl_get_insert. case_decide as Hk; [|done].
  subst. by rewrite starts_with_app in Hp.
Qed.

Lemma segment_remove_other p l t k :
  starts_with p k = false → segment p l t → segment p l (tbl_remove k t).
Proof.
  intros Hp (Hs & Hu & Hg). split; [done|]. split; [done|]. intros r w.
  rewrite tbl_get_remove. case_decide as Hk; [|done].
  subst. by rewrite starts_with_app in Hp.
Qed.

Lemma num_sorted_snoc (l : list (N * V)) i v :
  StronglySorted num_lt l → Forall (λ x, (x.1 < i)%N) l → StronglySorted num_lt (l ++ [(i, v)]).
Proof.
  induction 1 as [|x l Hs IH Hx]; intros Hl; simpl; [by repeat constructor|].
  apply Forall_cons_1 in Hl as [Hxi Hl]. constructor; [by apply IH|].
  apply Forall_app. split; [done|]. by repeat constructor.
Qed.

Lemma segment_snoc p l t i v :
  segment p l t → Forall (λ x, (x.1 < i)%N) l → is_u64 i →
  segment p (l ++ [(i, v)]) (tbl_insert (p +:+ fmt_020 i) v t).
Proof.
  intros (Hs & Hu & Hg) Hl Hi. split; [by apply num_sorted_snoc|].
  split; [by apply Forall_app; repeat constructor|].
  intros r w. rewrite tbl_get_insert. case_decide as Hk.
  - apply (inj (String.app p)) in Hk as <-. split.
    + intros [= <-]. exists i. split; [|done]. apply elem_of_app. right. by left.
    + intros (j & Hj & Heq).
      assert (is_u64 j) as Huj.
      { apply elem_of_app in Hj as [Hj|Hj].
        - rewrite Forall_forall in Hu. apply (Hu _ Hj).
        - apply list_elem_of_singleton in Hj. by simplify_eq. }
      destruct (fmt_020_inj i j "" "") as [<- _]; [done|done|by rewrite Heq|].
      apply elem_of_app in Hj as [Hj|Hj].
      * rewrite Forall_forall in Hl. apply Hl in Hj. simpl in Hj. lia.
      * apply list_elem_of_singleton in Hj. by simplify_eq.
  - rewrite Hg. split; intros (j & Hj & ->).
    + exists j. split; [|done]. apply elem_of_app. by left.
    + apply elem_of_app in Hj as [Hj|Hj]; [by exists j|].
      apply list_elem_of_singleton in Hj. by simplify_eq.
Qed.

(** Entries of a sorted list are determined by their number. *)
Lemma num_sorted_inj (l : list (N * V)) i v w :
  StronglySorted num_lt l → (i, v) ∈ l → (i, w) ∈ l → v = w.
Proof.
  induction 1 as [|x l Hs IH Hx]; [by intros ?%not_elem_of_nil|].
  rewrite Forall_forall in Hx. rewrite !elem_of_cons. intros [H1|H1] [H2|H2].
  - by simplify_eq.
  - subst x. apply Hx in H2. unfold num_lt in H2. simpl in H2. lia.
  - subst x. apply Hx in H1. unfold num_lt in H1. simpl in H1. lia.
  - by apply IH.
Qed.

(** Overwriting the value of an existing number. *)
Definition renumber (i : N) (v : V) (l : list (N * V)) : list (N * V) :=
  (λ x : N * V, if decide (x.1 = i) then (i, v) else x) <$> l.

Lemma renumber_fst i v l : (renumber i v l).*1 = l.*1.
Proof.
  unfold renumber. rewrite <- list_fmap_compose. apply list_fmap_ext.
  intros _ [j w] _. simpl. by case_decide; subst.
Qed.

Lemma renumber_elem i v l j w :
  (j, w) ∈ renumber i v l ↔ ((j, w) ∈ l ∧ j ≠ i) ∨ (j = i ∧ w = v ∧ i ∈ l.*1).
Proof.
  unfold renumber. rewrite !list_elem_of_fmap. split.
  - intros ([j' w'] & Heq & Hin). simpl in *. case_decide; simplify_eq.
    + right. split; [done|]. split; [done|]. by exists (i, w').
    + by left.
  - intros [[Hin Hne]|(-> & -> & [j' w'] & Heq & Hin)].
    + exists (j, w). simpl. by rewrite decide_False.
    + simpl in Heq. subst. exists (j', w'). simpl. by rewrite decide_True.
Qed.

Lemma num_sorted_fst (l l' : list (N * V)) :
  l'.*1 = l.*1 → StronglySorted num_lt l → StronglySorted num_lt l'.
Proof.
  intros Heq Hs. revert l' Heq. induction Hs as [|x l Hs IH Hx]; intros [|y l'] Heq;
    [constructor | done | done |].
  injection Heq as Hy Hl. constructor; [by apply IH|].
  rewrite Forall_forall in *. intros z Hz. unfold num_lt in *.
  apply (list_elem_of_fmap_2 fst) in Hz. setoid_rewrite Hl in Hz.
  apply list_elem_of_fmap in Hz as (u & -> & Hu). rewrite Hy. by apply Hx.
Qed.

Lemma segment_renumber p l t i v :
  segment p l t → i ∈ l.*1 →
  segment p (renumber i v l) (tbl_insert (p +:+ fmt_020 i) v t).
Proof.
  intros (Hs & Hu & Hg) Hin.
  assert (∀ j, j ∈ l.*1 → is_u64 j) as Hu1.
  { rewrite Forall_forall in Hu. intros j (x & -> & Hx)%list_elem_of_fmap. by apply Hu. }
  split; [eapply num_sorted_fst; [apply renumber_fst | done]|]. split.
  { apply Forall_forall. intros x Hx. apply Hu1. rewrite <- (renumber_fst i v l).
    by apply list_elem_of_fmap_2. }
  intros r w. rewrite tbl_get_insert. case_decide as Hk.
  - apply (inj (String.app p)) in Hk as <-. split.
    + intros [= <-]. exists i. split; [|done]. apply renumber_elem. auto.
    + intros (j & [[Hj Hne]|(-> & -> & _)]%renumber_elem & Heq); [|done].
      destruct Hne. destruct (fmt_020_inj j i "" "") as [-> _]; [|auto|by rewrite Heq|done].
      apply Hu1. by apply (list_elem_of_fmap_2 fst) in Hj.
  - rewrite Hg. split; intros (j & Hj & ->).
    + exists j. split; [|done]. apply renumber_elem. left. split; [done|].
      intros ->. by destruct Hk.
    + apply renumber_elem in Hj as [[Hj _]|(-> & -> & _)]; [by exists j|done].
Qed.

Lemma segment_tail p l t i v :
  segment p ((i, v) :: l) t → segment p l (tbl_remove (p +:+ fmt_020 i) t).
Proof.
  intros (Hs & Hu & Hg). inversion Hs as [|?? Hs' Hlt]; subst.
  apply Forall_cons_1 in Hu as [Hi Hu]. split; [done|]. split; [done|].
  rewrite Forall_forall in Hlt, Hu.
  intros r w. rewrite tbl_get_remove. case_decide as Hk.
  - apply (inj (String.app p)) in Hk as <-. split; [done|].
    intros (j & Hj & Heq). destruct (fmt_020_inj i j "" "") as [<- _];
      [done | by apply (Hu _ Hj) | by rewrite Heq |].
    apply Hlt in Hj. unfold num_lt in Hj. simpl in Hj. lia.
  - rewrite Hg. split; intros (j & Hj & ->).
    + apply elem_of_cons in Hj as [[= -> ->]|Hj]; [done|]. by exists j.
    + exists j. split; [by right | done].
Qed.

(** Writing at the top number, whether or not it was in use. *)
Lemma segment_put_last p l t i v :
  segment p l t → Forall (λ x, (x.1 ≤ i)%N) l → is_u64 i →
  segment p (filter (λ x, x.1 ≠ i) l ++ [(i, v)]) (tbl_insert (p +:+ fmt_020 i) v t).
Proof.
  intros (Hs & Hu & Hg) Hl Hi.
  assert (Forall (λ x : N * V, (x.1 < i)%N) (filter (λ x, x.1 ≠ i) l)) as Hlt.
  { rewrite Forall_forall in *. intros x [Hne Hx]%list_elem_of_filter.
    specialize (Hl x Hx). simpl in *. lia. }
  assert (Forall (λ x : N * V, is_u64 x.1) (filter (λ x, x.1 ≠ i) l ++ [(i, v)])) as Hu'.
  { apply Forall_app. split; [|by repeat constructor].
    rewrite Forall_forall in *. intros x [_ Hx]%list_elem_of_filter. by apply Hu. }
  split; [|split; [done|]].
  { apply num_sorted_snoc; [|done]. clear -Hs. induction Hs as [|x l Hs IH Hx]; [constructor|].
    rewrite filter_cons. case_decide; [|done]. constructor; [done|].
    rewrite Forall_forall in *. intros y [_ Hy]%list_elem_of_filter. by apply Hx. }
  rewrite Forall_forall in Hu', Hu.
  intros r w. rewrite tbl_get_insert. setoid_rewrite elem_of_app.
  setoid_rewrite list_elem_of_filter. setoid_rewrite list_elem_of_singleton. simpl.
  case_decide as Hk.
  - apply (inj (String.app p)) in Hk as <-. split.
    + intros [= <-]. exists i. auto.
    + intros (j & [[Hne Hj]|Hj] & Heq); [|by simplify_eq].
      destruct Hne. destruct (fmt_020_inj j i "" "") as [-> _]; [|done|by rewrite Heq|done].
      by apply (Hu _ Hj).
  - rewrite Hg. split.
    + intros (j & Hj & ->). exists j. split; [|done]. left. split; [|done]. intros ->. by destruct Hk.
    + intros (j & [[_ Hj]|Hj] & ->); [by exists j|]. by simplify_eq.
Qed.
End scan.
