(* ===== verification/Sql.v ===== *)
(** * Sql: tables and statements

    What the SQLite backend uses of SQL.  A table is the list of its rows; a
    [SELECT ... WHERE] keeps the rows that satisfy the condition, [ORDER BY]
    sorts them and [LIMIT] cuts the list.  [INSERT] is refused when a row clashes
    on a primary key or a unique index, [INSERT OR IGNORE] then does nothing, and
    [ON CONFLICT DO UPDATE] rewrites the clashing row.  Without [ORDER BY] the
    order of a result is the engine's choice; the sources only use such results
    when they hold at most one row, or only ask whether there is one. *)

From Stdlib Require Import String NArith ZArith Lia Sorting.Sorted.
From stdpp Require Import base strings list gmap sorting.
From S2P Require Import Prelude.

(** ** Statements *)

Section statements.
Context {R : Type}.

Definition order_by (le : relation R) `{!RelDecision le} (rows : list R) : list R :=
  merge_sort le rows.

Definition insert_into (clash : relation R) `{!RelDecision clash} (r : R) (t : list R)
    : option (list R) :=
  if decide (Exists (clash r) t) then None else Some (t ++ [r]).

Definition insert_or_ignore (clash : relation R) `{!RelDecision clash} (r : R) (t : list R)
    : list R :=
  if decide (Exists (clash r) t) then t else t ++ [r].

Definition upsert (clash : relation R) `{!RelDecision clash} (set : R → R → R) (r : R) (t : list R)
    : list R :=
  if decide (Exists (clash r) t) then (λ x, if decide (clash r x) then set r x else x) <$> t
  else t ++ [r].

Definition update_where (P : R → Prop) `{!∀ x, Decision (P x)} (f : R → R) (t : list R) : list R :=
  (λ x, if decide (P x) then f x else x) <$> t.

Definition count_where (P : R → Prop) `{!∀ x, Decision (P x)} (t : list R) : N :=
  N.of_nat (length (filter P t)).

Definition delete_where (P : R → Prop) `{!∀ x, Decision (P x)} (t : list R) : list R :=
  filter (λ x, ¬ P x) t.
End statements.

(** ** Rows by key *)

Section by_key.
Context {R K : Type} `{!EqDecision K} (key : R → K).

Definition by_key (k : K) (t : list R) : list R := filter (λ r, key r = k) t.

(** Two rows with the same key. *)
Definition same_key (x y : R) : Prop := key x = key y.
#[export] Instance same_key_dec : RelDecision same_key := λ x y, decide (key x = key y).

Lemma by_key_elem k t r : r ∈ by_key k t ↔ key r = k ∧ r ∈ t.
Proof. unfold by_key. by rewrite list_elem_of_filter. Qed.

Lemma by_key_own t r : r ∈ t → r ∈ by_key (key r) t.
Proof. intros. by apply by_key_elem. Qed.

Lemma by_key_none k t : by_key k t = [] ↔ ¬ Exists (λ x, k = key x) t.
Proof.
  unfold by_key. rewrite Exists_exists. split.
  - intros H (x & Hx & ->). assert (x ∈ filter (λ r, key r = key x) t) as Hin
      by by apply list_elem_of_filter. by rewrite H in Hin; apply elem_of_nil in Hin.
  - intros H. destruct (filter _ t) as [|x l] eqn:Hf; [done|]. destruct H. exists x.
    assert (x ∈ filter (λ r, key r = k) t) as [<- ?]%list_elem_of_filter; [|done].
    rewrite Hf. by left.
Qed.

Lemma by_key_snoc k t r :
  by_key k (t ++ [r]) = by_key k t ++ (if decide (key r = k) then [r] else []).
Proof. unfold by_key. rewrite filter_app, filter_cons, filter_nil. by case_decide. Qed.

Lemma by_key_fmap f k t :
  (∀ x, key (f x) = key x) → by_key k (f <$> t) = f <$> by_key k t.
Proof.
  intros Hf. unfold by_key. induction t as [|x t IH]; [done|]. csimpl.
  rewrite !filter_cons, Hf, IH. by case_decide.
Qed.

Lemma by_key_update (P : R → Prop) `{!∀ x, Decision (P x)} f k t :
  (∀ x, key (f x) = key x) →
  by_key k (update_where P f t) = update_where P f (by_key k t).
Proof. intros Hf. apply by_key_fmap. intros x. by case_decide. Qed.

Lemma by_key_delete (P : R → Prop) `{!∀ x, Decision (P x)} k t :
  by_key k (delete_where P t) = delete_where P (by_key k t).
Proof. unfold by_key, delete_where. rewrite !list_filter_filter. apply list_filter_iff. tauto. Qed.

(** When no two rows share a key, keys do not repeat. *)
Lemma by_key_NoDup t : (∀ k, (length (by_key k t) ≤ 1)%nat) → NoDup (key <$> t).
Proof.
  induction t as [|x t IH]; intros Hk; csimpl; constructor.
  - intros (y & Hy & Hin)%list_elem_of_fmap. specialize (Hk (key x)).
    unfold by_key in Hk. rewrite filter_cons, decide_True in Hk by done. simpl in Hk.
    assert (y ∈ by_key (key x) t) as Hb by (by apply by_key_elem).
    unfold by_key in Hb. destruct (filter _ t); [by apply elem_of_nil in Hb | simpl in Hk; lia].
  - apply IH. intros k. specialize (Hk k). unfold by_key in *. rewrite filter_cons in Hk.
    case_decide; simpl in Hk; lia.
Qed.

(** A condition that names the key selects among the rows of that key. *)
Lemma filter_by_key (P Q : R → Prop) `{!∀ x, Decision (P x), !∀ x, Decision (Q x)} k t :
  (∀ x, P x ↔ key x = k ∧ Q x) → filter P t = filter Q (by_key k t).
Proof.
  intros HPQ. unfold by_key. rewrite list_filter_filter. apply list_filter_iff.
  intros x. rewrite HPQ. tauto.
Qed.

Lemma by_key_upsert set r k t :
  (∀ x, key x = key r → key (set r x) = key r) →
  by_key k (upsert same_key set r t) =
    if decide (key r = k)
    then match by_key k t with [] => [r] | rows => set r <$> rows end
    else by_key k t.
Proof.
  intros Hset. unfold upsert. case_decide as He.
  - rewrite by_key_fmap.
    2: { intros x. case_decide as Hx; [|done]. unfold same_key in Hx. rewrite Hset by done. done. }
    assert (∀ l, Forall (λ x, key x = k) l →
      (λ x, if decide (same_key r x) then set r x else x) <$> l =
      if decide (key r = k) then set r <$> l else l) as Hl.
    { intros l. induction 1 as [|x l Hx _ IH]; csimpl; [by case_decide|].
      rewrite IH. repeat case_decide; unfold same_key in *; congruence. }
    rewrite Hl by (apply Forall_forall; by intros x [? _]%by_key_elem).
    case_decide as Hk; [|done]. destruct (by_key k t) eqn:Hb; [|done].
    apply by_key_none in Hb. destruct Hb. subst k. exact He.
  - rewrite by_key_snoc. case_decide as Hk; [|by rewrite app_nil_r].
    subst k. apply by_key_none in He. by rewrite He.
Qed.

(** An upsert whose update replaces the whole row. *)
Lemma upsert_elem set r t y :
  (∀ x, key x = key r → set r x = r) →
  y ∈ upsert same_key set r t ↔ (y ∈ t ∧ key y ≠ key r) ∨ y = r.
Proof.
  intros Hset. unfold upsert. destruct (decide (Exists (same_key r) t)) as [He|He].
  - rewrite list_elem_of_fmap. split.
    + intros (x & -> & Hx). destruct (decide (same_key r x)) as [Hk|Hk]; unfold same_key in Hk.
      * right. by apply Hset.
      * left. split; [done|congruence].
    + intros [[Hy Hk]| ->].
      * exists y. split; [|done]. rewrite decide_False; [done|]. unfold same_key. congruence.
      * apply Exists_exists in He as (x & Hx & Hk). exists x. split; [|done].
        rewrite decide_True by done. by rewrite Hset.
  - rewrite elem_of_app, list_elem_of_singleton. split; [|naive_solver].
    intros [Hy| ->]; [|by right]. left. split; [done|]. intros Hk. apply He, Exists_exists.
    exists y. by split.
Qed.

Lemma upsert_NoDup set r t :
  (∀ x, key x = key r → key (set r x) = key r) →
  NoDup (key <$> t) → NoDup (key <$> upsert same_key set r t).
Proof.
  intros Hset Hnd. unfold upsert. destruct (decide (Exists (same_key r) t)) as [He|He].
  - rewrite <- list_fmap_compose.
    rewrite (list_fmap_ext _ key); [done|]. intros i x _. simpl. case_decide as Hk; [|done].
    rewrite Hset by done. done.
  - rewrite fmap_app. apply NoDup_app. split; [done|]. split; [|apply NoDup_singleton].
    intros k (x & -> & Hx)%list_elem_of_fmap Hk%list_elem_of_singleton. apply He, Exists_exists.
    exists x. by split.
Qed.
End by_key.

(** ** Sorting *)

(** Sorting rows that are, in some order, a sorted list gives that list. *)
Lemma order_by_eq {R} (le : relation R) `{!RelDecision le} `{!Transitive le, !Total le} rows l :
  rows ≡ₚ l → StronglySorted le l →
  (∀ x y, x ∈ l → y ∈ l → le x y → le y x → x = y) → order_by le rows = l.
Proof.
  intros Hp Hs Hanti. assert (order_by le rows ≡ₚ l) as Hl.
  { unfold order_by. by rewrite merge_sort_Permutation. }
  apply (StronglySorted_unique_strong le); [|by apply StronglySorted_merge_sort|done|done].
  intros x y Hx Hy. apply Hanti; [|done]. by rewrite <- Hl.
Qed.

(** Rows ordered by an integer column. *)
Section by_column.
Context {R : Type} (col : R → Z).

Definition col_le (x y : R) : Prop := (col x ≤ col y)%Z.
#[export] Instance col_le_dec : RelDecision col_le := λ x y, decide (col x ≤ col y)%Z.
#[export] Instance col_le_trans : Transitive col_le.
Proof. intros x y z. unfold col_le. lia. Qed.
#[export] Instance col_le_total : Total col_le.
Proof. intros x y. unfold col_le. lia. Qed.

(** [ORDER BY col ASC] on rows whose column is strictly increasing in [l]. *)
Lemma order_by_col rows l :
  rows ≡ₚ l → StronglySorted (λ x y, (col x < col y)%Z) l → order_by col_le rows = l.
Proof.
  intros Hp Hs. apply (order_by_eq col_le); [done| |].
  - clear Hp. induction Hs as [|x l Hs IH Hx]; constructor; [done|].
    eapply Forall_impl; [exact Hx|]. unfold col_le. simpl. lia.
  - clear Hp. intros x y Hx Hy Hxy Hyx. unfold col_le in *.
    induction Hs as [|z l Hs IH Hz]; [by apply elem_of_nil in Hx|].
    rewrite Forall_forall in Hz.
    apply elem_of_cons in Hx as [->|Hx]; apply elem_of_cons in Hy as [->|Hy]; [done| | |by apply IH].
    + apply Hz in Hy. lia.
    + apply Hz in Hx. lia.
Qed.
End by_column.
