(* ===== verification/RedbKeys.v ===== *)
(** * RedbKeys: the key layout of the redb backend

    Models the key functions at the end of
    [crates/msgbus-store-redb/src/lib.rs].  The base64 encoder is external: it
    is the class [Base64], with the two facts of the URL-safe alphabet the
    layout relies on ([Base64Laws]).  The lemmas show that keys of different
    logs, queues and tombstones never share a prefix. *)

From Stdlib Require Import Ascii String NArith ZArith Lia.
From stdpp Require Import base strings list gmap.
From S2P Require Import Prelude Strings Core.

(** [URL_SAFE_NO_PAD.encode]: injective, with output over [A-Za-z0-9_-]. *)
Class Base64 := b64_encode : string → string.

Definition url_safe_char (a : ascii) : bool :=
  let n := N_of_ascii a in
  ((65 <=? n) && (n <=? 90) || (97 <=? n) && (n <=? 122) || (48 <=? n) && (n <=? 57)
   || (n =? 45) || (n =? 95))%N.

Fixpoint all_chars (f : ascii → bool) (s : string) : bool :=
  match s with EmptyString => true | String a s' => f a && all_chars f s' end.

Class Base64Laws `{!Base64} : Prop := {
  b64_inj : ∀ s1 s2, b64_encode s1 = b64_encode s2 → s1 = s2;
  b64_alphabet : ∀ s, all_chars url_safe_char (b64_encode s) = true;
}.

Section keys.
Context {B64 : Base64}.

Definition enc (value : string) : string := b64_encode value.

Definition head_key (topic : Topic) (origin : NodeId) : string :=
  "head/" +:+ enc (topic_str topic) +:+ "/" +:+ enc (NodeId.key origin).

Definition head_key_parts (key : string) : Result (string * string) :=
  let invalid := Storage ("invalid head key: " +:+ key) in
  rest ← ok_or invalid (strip_prefix "head/" key);
  let parts := split "/" rest in
  topic ← ok_or invalid (parts !! 0%nat);
  origin ← ok_or invalid (parts !! 1%nat);
  match parts !! 2%nat with
  | Some _ => Err invalid
  | None => Ok (topic, origin)
  end.

Definition message_prefix (topic : Topic) (origin : NodeId) : string :=
  "msg/" +:+ enc (topic_str topic) +:+ "/" +:+ enc (NodeId.key origin) +:+ "/".

Definition raw_message_key (topic_part origin_part : string) (head_id : HeadId) : string :=
  "msg/" +:+ topic_part +:+ "/" +:+ origin_part +:+ "/" +:+ fmt_020 head_id.

Definition peer_sync_key (state : PeerSyncState) : string :=
  let topic := match ps_topic state with None => "-" | Some t => topic_str t end in
  let origin := match ps_origin state with None => "-" | Some o => NodeId.key o end in
  "peer-sync/" +:+ enc (ps_peer state) +:+ "/" +:+ enc topic +:+ "/" +:+ enc origin.

Definition message_key (topic : Topic) (origin : NodeId) (head_id : HeadId) : string :=
  message_prefix topic origin +:+ fmt_020 head_id.

Definition tombstone_prefix (topic : Topic) (origin : NodeId) : string :=
  "tombstone/" +:+ enc (topic_str topic) +:+ "/" +:+ enc (NodeId.key origin) +:+ "/".

Definition tombstone_key (topic : Topic) (origin : NodeId) (from to : HeadId) : string :=
  tombstone_prefix topic origin +:+ fmt_020 from +:+ "-" +:+ fmt_020 to.

Definition fifo_sequence_key (queue : QueueName) : string :=
  "fifo-seq/" +:+ enc (queue_str queue).

Definition fifo_prefix (queue : QueueName) : string :=
  "fifo/" +:+ enc (queue_str queue) +:+ "/".

Definition fifo_message_key (queue : QueueName) (sequence : N) : string :=
  fifo_prefix queue +:+ fmt_020 sequence.

(** The same keys by the raw strings they are built from. *)
Definition head_key_of (t o : string) : string := "head/" +:+ enc t +:+ "/" +:+ enc o.
Definition message_prefix_of (t o : string) : string :=
  "msg/" +:+ enc t +:+ "/" +:+ enc o +:+ "/".
Definition tombstone_prefix_of (t o : string) : string :=
  "tombstone/" +:+ enc t +:+ "/" +:+ enc o +:+ "/".
Definition fifo_prefix_of (q : string) : string := "fifo/" +:+ enc q +:+ "/".
Definition fifo_sequence_key_of (q : string) : string := "fifo-seq/" +:+ enc q.

Context {B64L : Base64Laws}.

Lemma all_chars_contains f s c : all_chars f s = true → f c = false → contains c s = false.
Proof.
  intros Hs Hc. induction s as [|a s IH]; [done|]. simpl in *.
  apply andb_true_iff in Hs as [Ha Hs]. rewrite IH by done.
  rewrite bool_decide_eq_false_2; [done|]. intros ->. by rewrite Ha in Hc.
Qed.

Lemma enc_no_slash s : contains "/" (enc s) = false.
Proof. by apply (all_chars_contains url_safe_char); [apply b64_alphabet|]. Qed.

Lemma sep_inj1 s1 s2 r1 r2 :
  enc s1 +:+ String "/" r1 = enc s2 +:+ String "/" r2 → s1 = s2 ∧ r1 = r2.
Proof.
  intros H. destruct (app_sep_inj "/" _ _ _ _ (enc_no_slash s1) (enc_no_slash s2) H) as [He ->].
  split; [by apply b64_inj | done].
Qed.

Lemma message_prefix_of_cons t o r :
  message_prefix_of t o +:+ r = "msg/" +:+ enc t +:+ String "/" (enc o +:+ String "/" r).
Proof.
  unfold message_prefix_of. by rewrite !app_assoc_string.
Qed.

Lemma tombstone_prefix_of_cons t o r :
  tombstone_prefix_of t o +:+ r
  = "tombstone/" +:+ enc t +:+ String "/" (enc o +:+ String "/" r).
Proof.
  unfold tombstone_prefix_of. by rewrite !app_assoc_string.
Qed.

Lemma fifo_prefix_of_cons q r :
  fifo_prefix_of q +:+ r = "fifo/" +:+ enc q +:+ String "/" r.
Proof. unfold fifo_prefix_of. by rewrite !app_assoc_string. Qed.

Lemma message_prefix_inj t o t' o' r r' :
  message_prefix_of t o +:+ r = message_prefix_of t' o' +:+ r' → t = t' ∧ o = o' ∧ r = r'.
Proof.
  rewrite !message_prefix_of_cons. intros H%(inj (String.app "msg/")).
  apply sep_inj1 in H as [-> H]. by apply sep_inj1 in H as [-> ->].
Qed.

Lemma tombstone_prefix_inj t o t' o' r r' :
  tombstone_prefix_of t o +:+ r = tombstone_prefix_of t' o' +:+ r' → t = t' ∧ o = o' ∧ r = r'.
Proof.
  rewrite !tombstone_prefix_of_cons. intros H%(inj (String.app "tombstone/")).
  apply sep_inj1 in H as [-> H]. by apply sep_inj1 in H as [-> ->].
Qed.

Lemma fifo_prefix_inj q q' r r' :
  fifo_prefix_of q +:+ r = fifo_prefix_of q' +:+ r' → q = q' ∧ r = r'.
Proof.
  rewrite !fifo_prefix_of_cons. intros H%(inj (String.app "fifo/")). by apply sep_inj1.
Qed.

Lemma head_key_inj t o t' o' : head_key_of t o = head_key_of t' o' → t = t' ∧ o = o'.
Proof.
  unfold head_key_of. intros H%(inj (String.app "head/")).
  apply sep_inj1 in H as [-> H]. split; [done|]. by apply b64_inj.
Qed.

Lemma fifo_sequence_key_inj q q' : fifo_sequence_key_of q = fifo_sequence_key_of q' → q = q'.
Proof. intros H%(inj (String.app "fifo-seq/")). by apply b64_inj. Qed.

(** Keys of one log never start with the prefix of another. *)
Lemma message_prefix_other t o t' o' r :
  (t, o) ≠ (t', o') → starts_with (message_prefix_of t o) (message_prefix_of t' o' +:+ r) = false.
Proof.
  intros Hne. apply not_true_iff_false. intros [r' H]%starts_with_iff.
  apply message_prefix_inj in H as (-> & -> & _). done.
Qed.

Lemma fifo_prefix_other q q' r :
  q ≠ q' → starts_with (fifo_prefix_of q) (fifo_prefix_of q' +:+ r) = false.
Proof.
  intros Hne. apply not_true_iff_false. intros [r' H]%starts_with_iff.
  by apply fifo_prefix_inj in H as [-> _].
Qed.

(** [head_key_parts] recovers the two encoded parts of a head key. *)
Lemma head_key_parts_ok t o : head_key_parts (head_key_of t o) = Ok (enc t, enc o).
Proof.
  unfold head_key_parts, head_key_of. rewrite strip_prefix_app.
  cbn [ok_or mbind result_bind].
  change ("/" +:+ enc o) with (String "/" (enc o)).
  by rewrite split_app_sep, split_no_sep by apply enc_no_slash.
Qed.

Lemma raw_message_key_enc t o h :
  raw_message_key (enc t) (enc o) h = message_prefix_of t o +:+ fmt_020 h.
Proof. by rewrite message_prefix_of_cons. Qed.
End keys.
