(* ===== verification/Json.v ===== *)
(** * Json: the serde_json interface

    [serde_json] is external.  [Json A] is the pair of encoders and decoders the
    sources call on a type [A]; [JsonLaws A] is the documented fact they rely
    on: serialising such a value succeeds, and parsing the output gives the
    value back.  Nothing is assumed about other inputs of the decoders. *)

From Stdlib Require Import String.
From stdpp Require Import base strings list gmap.
From S2P Require Import Prelude Core.

Class Json (A : Type) := {
  to_vec : A → result string bytes;
  from_slice : bytes → result string A;
  to_string : A → result string string;
  from_str : string → result string A;
}.

Class JsonLaws (A : Type) `{!Json A} : Prop := {
  json_vec : ∀ a : A, ∃ b, to_vec a = Ok b ∧ from_slice b = Ok a;
  json_string : ∀ a : A, ∃ s, to_string a = Ok s ∧ from_str s = Ok a;
}.

(** [encode]/[decode] of the redb store and [encode_json]/[decode_json] of the
    SQLite store: errors become [MsgbusError::Serialization]. *)
Definition encode {A} `{!Json A} (value : A) : Result bytes :=
  map_err Serialization (to_vec value).
Definition decode {A} `{!Json A} (value : bytes) : Result A :=
  map_err Serialization (from_slice value).
Definition encode_json {A} `{!Json A} (value : A) : Result string :=
  map_err Serialization (to_string value).
Definition decode_json {A} `{!Json A} (value : string) : Result A :=
  map_err Serialization (from_str value).

Section json.
Context {A : Type} {J : Json A} {JL : JsonLaws A}.

(** The encoding as a function, for statements about stored bytes. *)
Definition enc_of (a : A) : bytes :=
  match to_vec a with Ok b => b | Err _ => [] end.
Definition str_of (a : A) : string :=
  match to_string a with Ok s => s | Err _ => "" end.

Lemma encode_ok (a : A) : encode a = Ok (enc_of a).
Proof. destruct (json_vec a) as (b & Hb & _). unfold encode, enc_of. by rewrite Hb. Qed.

Lemma decode_enc_of (a : A) : decode (enc_of a) = Ok a.
Proof.
  destruct (json_vec a) as (b & Hb & Hd). unfold decode, enc_of. by rewrite Hb, Hd.
Qed.

Lemma encode_json_ok (a : A) : encode_json a = Ok (str_of a).
Proof. destruct (json_string a) as (b & Hb & _). unfold encode_json, str_of. by rewrite Hb. Qed.

Lemma decode_str_of (a : A) : decode_json (str_of a) = Ok a.
Proof.
  destruct (json_string a) as (b & Hb & Hd). unfold decode_json, str_of. by rewrite Hb, Hd.
Qed.

Lemma enc_of_inj (a b : A) : enc_of a = enc_of b → a = b.
Proof. intros H. pose proof (decode_enc_of a) as Ha. rewrite H, decode_enc_of in Ha. by simplify_eq. Qed.
End json.
