(* ===== verification/Concrete.v ===== *)
(** * Concrete: instances of the external interfaces

    The interfaces [OrderedTable], [Base64] and [Json] can all be met: a table
    as a finite map with a sorted listing, the RFC 4648 URL-safe encoder without
    padding, and a self-inverse byte encoding of any countable type.  They let
    the stores run, so that concrete executions are evaluated by the kernel. *)

From Stdlib Require Import Ascii String NArith ZArith Lia Sorting.Sorted.
From stdpp Require Import countable base strings list gmap sorting.
From S2P Require Import Prelude Strings Core Table RedbKeys Json.

(** ** Tables *)

Definition GTable (V : Type) : Type := gmap string V.

Definition key_le {V} (x y : string * V) : Prop := sle x.1 y.1 = true.

#[export] Instance key_le_dec {V} : RelDecision (@key_le V).
Proof. intros x y. unfold key_le. apply _. Defined.

#[export] Instance key_le_total {V} : Total (@key_le V).
Proof.
  intros x y. unfold key_le. destruct (sle x.1 y.1) eqn:H; [by left|right].
  apply sle_iff. right. by apply sle_total.
Qed.

#[export] Instance key_le_trans {V} : Transitive (@key_le V).
Proof.
  intros x y z. unfold key_le. rewrite !sle_iff. intros [H1|H1] [H2|H2]; rewrite ?H1, <- ?H2; auto.
  right. by transitivity y.1.
Qed.

#[export] Instance gtable : OrderedTable GTable := {|
  tbl_empty := λ V, (∅ : gmap string V);
  tbl_get := λ V k (t : gmap string V), t !! k;
  tbl_insert := λ V k v (t : gmap string V), <[k := v]> t;
  tbl_remove := λ V k (t : gmap string V), delete k t;
  tbl_range := λ V start (t : gmap string V),
    merge_sort key_le (filter (λ kv : string * V, sle start kv.1 = true) (map_to_list t));
|}.

Lemma key_le_strict {V} (l : list (string * V)) :
  StronglySorted key_le l → NoDup l.*1 → StronglySorted key_lt l.
Proof.
  induction 1 as [|x l Hs IH Hx]; csimpl; intros Hnd; constructor.
  - apply IH. by apply NoDup_cons_1_2 in Hnd.
  - apply NoDup_cons_1_1 in Hnd as Hnin. rewrite Forall_forall in *. intros y Hy.
    specialize (Hx y Hy). apply sle_iff in Hx as [Heq|?]; [|done].
    destruct Hnin. rewrite Heq. apply list_elem_of_fmap. eauto.
Qed.

#[export] Instance gtable_laws : OrderedTableLaws GTable.
Proof.
  split; simpl; intros.
  - apply lookup_empty.
  - apply lookup_insert.
  - apply lookup_delete.
  - rewrite merge_sort_Permutation, list_elem_of_filter, elem_of_map_to_list. done.
  - apply key_le_strict; [apply (StronglySorted_merge_sort _)|].
    rewrite merge_sort_Permutation.
    apply NoDup_fmap_fst; [|by apply NoDup_filter, NoDup_map_to_list].
    intros k v1 v2 [_ H1]%list_elem_of_filter [_ H2]%list_elem_of_filter.
    apply elem_of_map_to_list in H1, H2. congruence.
Qed.

(** ** Base64, URL-safe alphabet, no padding *)

Definition sextet (b5 b4 b3 b2 b1 b0 : bool) : ascii :=
  let n := (32 * N.b2n b5 + 16 * N.b2n b4 + 8 * N.b2n b3 + 4 * N.b2n b2 + 2 * N.b2n b1
            + N.b2n b0)%N in
  ascii_of_N
    (if (n <? 26)%N then 65 + n
     else if (n <? 52)%N then 71 + n
     else if (n <? 62)%N then n - 4
     else if (n =? 62)%N then 45 else 95)%N.

(** The six bits of an alphabet character. *)
Definition unsextet (a : ascii) : list bool :=
  let c := N_of_ascii a in
  let n := (if (c =? 45)%N then 62
            else if (c =? 95)%N then 63
            else if (c <? 58)%N then c + 4
            else if (c <? 91)%N then c - 65 else c - 71)%N in
  [N.testbit n 5; N.testbit n 4; N.testbit n 3; N.testbit n 2; N.testbit n 1; N.testbit n 0].

Fixpoint base64 (s : string) : string :=
  match s with
  | EmptyString => ""
  | String (Ascii a0 a1 a2 a3 a4 a5 a6 a7) EmptyString =>
      String (sextet a7 a6 a5 a4 a3 a2) (String (sextet a1 a0 false false false false) "")
  | String (Ascii a0 a1 a2 a3 a4 a5 a6 a7)
      (String (Ascii b0 b1 b2 b3 b4 b5 b6 b7) EmptyString) =>
      String (sextet a7 a6 a5 a4 a3 a2) (String (sextet a1 a0 b7 b6 b5 b4)
        (String (sextet b3 b2 b1 b0 false false) ""))
  | String (Ascii a0 a1 a2 a3 a4 a5 a6 a7)
      (String (Ascii b0 b1 b2 b3 b4 b5 b6 b7) (String (Ascii c0 c1 c2 c3 c4 c5 c6 c7) s')) =>
      String (sextet a7 a6 a5 a4 a3 a2) (String (sextet a1 a0 b7 b6 b5 b4)
        (String (sextet b3 b2 b1 b0 c7 c6) (String (sextet c5 c4 c3 c2 c1 c0) (base64 s'))))
  end.

Lemma unsextet_sextet b5 b4 b3 b2 b1 b0 :
  unsextet (sextet b5 b4 b3 b2 b1 b0) = [b5; b4; b3; b2; b1; b0].
Proof. by destruct b5, b4, b3, b2, b1, b0. Qed.

Lemma sextet_inj b5 b4 b3 b2 b1 b0 c5 c4 c3 c2 c1 c0 :
  sextet b5 b4 b3 b2 b1 b0 = sextet c5 c4 c3 c2 c1 c0 →
  [b5; b4; b3; b2; b1; b0] = [c5; c4; c3; c2; c1; c0].
Proof. intros H. by rewrite <- !unsextet_sextet, H. Qed.

Lemma sextet_safe b5 b4 b3 b2 b1 b0 : url_safe_char (sextet b5 b4 b3 b2 b1 b0) = true.
Proof. by destruct b5, b4, b3, b2, b1, b0. Qed.

(** Induction three bytes at a time, as the encoder works. *)
Lemma string_ind3 (P : string → Prop) :
  P "" → (∀ a, P (String a "")) → (∀ a b, P (String a (String b ""))) →
  (∀ a b c s, P s → P (String a (String b (String c s)))) → ∀ s, P s.
Proof.
  intros H0 H1 H2 H3.
  assert (∀ s, P s ∧ (∀ a, P (String a s)) ∧ (∀ a b, P (String a (String b s)))) as H;
    [|intros s; by destruct (H s)].
  induction s as [|a s (IH0 & IH1 & IH2)]; [done|]. repeat split; auto.
Qed.

#[export] Instance base64_encoder : Base64 := base64.

Lemma base64_inj s1 s2 : base64 s1 = base64 s2 → s1 = s2.
Proof.
  revert s2. induction s1 as [|[]|[] []|[] [] [] s1 IH] using string_ind3;
    intros [|[] [|[] [|[] s2]]]; cbn [base64]; intros Heq; try discriminate Heq.
  all: repeat match goal with
              | H : String _ _ = String _ _ |- _ => injection H as ?H H
              | H : sextet _ _ _ _ _ _ = sextet _ _ _ _ _ _ |- _ =>
                  apply sextet_inj in H; simplify_eq
              end; try done.
  by rewrite (IH s2).
Qed.

#[export] Instance base64_laws : Base64Laws.
Proof.
  split; [apply base64_inj|]. intros s. unfold b64_encode, base64_encoder.
  induction s as [|[]|[] []|[] [] [] s IH] using string_ind3; cbn [base64 all_chars];
    rewrite ?sextet_safe; try done.
Qed.

(** ** A byte encoding of countable types *)

Fixpoint pos_bytes (p : positive) : bytes :=
  match p with
  | xH => []
  | xO p' => Byte.x30 :: pos_bytes p'
  | xI p' => Byte.x31 :: pos_bytes p'
  end.

Fixpoint bytes_pos (l : bytes) : positive :=
  match l with
  | [] => xH
  | b :: l' => if bool_decide (b = Byte.x30) then xO (bytes_pos l') else xI (bytes_pos l')
  end.

Fixpoint pos_string (p : positive) : string :=
  match p with
  | xH => ""
  | xO p' => String "0" (pos_string p')
  | xI p' => String "1" (pos_string p')
  end.

Fixpoint string_pos (s : string) : positive :=
  match s with
  | EmptyString => xH
  | String a s' => if bool_decide (a = "0"%char) then xO (string_pos s') else xI (string_pos s')
  end.

Lemma bytes_pos_bytes p : bytes_pos (pos_bytes p) = p.
Proof. induction p as [p IH|p IH|]; simpl; by rewrite ?IH. Qed.

Lemma string_pos_string p : string_pos (pos_string p) = p.
Proof. induction p as [p IH|p IH|]; simpl; by rewrite ?IH. Qed.

Definition json_of_countable (A : Type) `{Countable A} : Json A := {|
  to_vec := λ a, Ok (pos_bytes (countable.encode a));
  from_slice := λ b, ok_or "invalid data" (countable.decode (bytes_pos b));
  to_string := λ a, Ok (pos_string (countable.encode a));
  from_str := λ s, ok_or "invalid data" (countable.decode (string_pos s));
|}.

Lemma json_of_countable_laws (A : Type) `{Countable A} : @JsonLaws A (json_of_countable A).
Proof.
  split; intros a; eexists; (split; [done|]); simpl.
  - by rewrite bytes_pos_bytes, decode_encode.
  - by rewrite string_pos_string, decode_encode.
Qed.

#[export] Instance NodeId_countable : Countable NodeId :=
  inj_countable' (λ n, (tenant_id n, (bl_name n, device_id n)))
    (λ '(a, (b, c)), mkNodeId a b c) ltac:(by intros []).
#[export] Instance Topic_countable : Countable Topic :=
  inj_countable' topic_str mkTopic ltac:(by intros []).
#[export] Instance MessageId_countable : Countable MessageId :=
  inj_countable' message_id_str mkMessageId ltac:(by intros []).
#[export] Instance QueueName_countable : Countable QueueName :=
  inj_countable' queue_str mkQueueName ltac:(by intros []).

#[export] Instance StoredMessage_countable : Countable StoredMessage :=
  inj_countable'
    (λ m, ((sm_id m, sm_topic m, (sm_origin m, sm_head_id m)),
           (sm_payload m, sm_headers m, (sm_created_at_ms m, sm_deleted m))))
    (λ '((a, b, (c, d)), (x, y, (z, w))), mkStoredMessage a b c d x y z w) ltac:(by intros []).

#[export] Instance StoredFifoMessage_eq_dec : EqDecision StoredFifoMessage.
Proof. solve_decision. Defined.
#[export] Instance StoredFifoMessage_countable : Countable StoredFifoMessage :=
  inj_countable'
    (λ m, ((sf_id m, sf_queue m, (sf_topic m, sf_source m, sf_target m)),
           (sf_payload m, sf_headers m, (sf_created_at_ms m, (sf_sequence m, sf_attempts m)))))
    (λ '((a, b, (c, d, t)), (x, y, (z, (w, u)))), mkStoredFifoMessage a b c d t x y z w u)
    ltac:(by intros []).

#[export] Instance TombstoneRange_eq_dec : EqDecision TombstoneRange.
Proof. solve_decision. Defined.
#[export] Instance TombstoneRange_countable : Countable TombstoneRange :=
  inj_countable'
    (λ r, (tr_topic r, tr_origin r, (tr_from_head_id r, tr_to_head_id r, tr_created_at_ms r)))
    (λ '(a, b, (c, d, x)), mkTombstoneRange a b c d x) ltac:(by intros []).

#[export] Instance PeerSyncState_eq_dec : EqDecision PeerSyncState.
Proof. solve_decision. Defined.
#[export] Instance PeerSyncState_countable : Countable PeerSyncState :=
  inj_countable'
    (λ s, ((ps_peer s, ps_topic s, ps_origin s),
           (ps_local_head s, ps_remote_head s, ps_last_synced_head s,
            (ps_last_attempt_at_ms s, ps_last_success_at_ms s,
             (ps_consecutive_failures s, ps_last_error s)))))
    (λ '((a, b, c), (d, x, y, (z, w, (u, v)))), mkPeerSyncState a b c d x y z w u v)
    ltac:(by intros []).

#[export] Instance StoredMessage_json : Json StoredMessage := json_of_countable _.
#[export] Instance StoredMessage_json_laws : JsonLaws StoredMessage := json_of_countable_laws _.
#[export] Instance StoredFifoMessage_json : Json StoredFifoMessage := json_of_countable _.
#[export] Instance StoredFifoMessage_json_laws : JsonLaws StoredFifoMessage :=
  json_of_countable_laws _.
#[export] Instance TombstoneRange_json : Json TombstoneRange := json_of_countable _.
#[export] Instance TombstoneRange_json_laws : JsonLaws TombstoneRange := json_of_countable_laws _.
#[export] Instance PeerSyncState_json : Json PeerSyncState := json_of_countable _.
#[export] Instance PeerSyncState_json_laws : JsonLaws PeerSyncState := json_of_countable_laws _.
#[export] Instance NodeId_json : Json NodeId := json_of_countable _.
#[export] Instance NodeId_json_laws : JsonLaws NodeId := json_of_countable_laws _.
#[export] Instance headers_json : Json (gmap string string) := json_of_countable _.
#[export] Instance headers_json_laws : JsonLaws (gmap string string) := json_of_countable_laws _.

(** ** Sample values *)

Definition env0 : Env :=
  mkEnv (λ t, Some (N.of_nat t)) (λ t, "id-" +:+ fmt_u64 (N.of_nat t)) (λ _, None).

Lemma env0_no_faults : no_faults env0.
Proof. by intros t. Qed.

(** An environment whose engine calls all fail. *)
Definition env_faulty : Env := mkEnv (λ _, None) (λ _, "") (λ _, Some "disk full").

Definition node_a : NodeId := mkNodeId "tenant" "bl" "device".
Definition node_b : NodeId := mkNodeId "tenant" "bl" "target".
Definition topic_events : Topic := mkTopic "events".
