(* ===== verification/Spec.v ===== *)
(** * Spec: what a message store promises

    The abstract state a [MsgbusStore] presents: one append log per topic and
    origin key, the tombstone ranges of each log, one FIFO queue per name with
    its sequence counter, and the latest sync state per peer, topic and origin.
    [StoreOp] lists the thirteen trait operations, [spec_op] says what each may
    answer and how the abstract state changes, [wf] is the invariant, and
    [StoreRefinement] is the contract a backend discharges. *)

From Stdlib Require Import String NArith ZArith Lia Sorting.Sorted.
From stdpp Require Import base strings list gmap sorting.
From S2P Require Import Prelude Strings Core Json.

Abbreviation log_key := (string * string)%type.
Abbreviation sync_key := (string * option string * option string)%type.

Record AbsStore := mkAbs {
  a_logs : gmap log_key (list StoredMessage);
  a_tombs : gmap log_key (gset (N * N));
  a_seqs : gmap string N;
  a_queues : gmap string (list StoredFifoMessage);
  a_sync : gmap sync_key PeerSyncState;
}.

Definition abs_empty : AbsStore := mkAbs ∅ ∅ ∅ ∅ ∅.

Definition log_of (a : AbsStore) (k : log_key) : list StoredMessage := default [] (a_logs a !! k).
Definition tombs_of (a : AbsStore) (k : log_key) : gset (N * N) := default ∅ (a_tombs a !! k).
Definition seq_of (a : AbsStore) (q : string) : N := default 0%N (a_seqs a !! q).
Definition queue_of (a : AbsStore) (q : string) : list StoredFifoMessage :=
  default [] (a_queues a !! q).

Definition set_log (k : log_key) (l : list StoredMessage) (a : AbsStore) : AbsStore :=
  mkAbs (<[k := l]> (a_logs a)) (a_tombs a) (a_seqs a) (a_queues a) (a_sync a).
Definition set_tombs (k : log_key) (ts : gset (N * N)) (a : AbsStore) : AbsStore :=
  mkAbs (a_logs a) (<[k := ts]> (a_tombs a)) (a_seqs a) (a_queues a) (a_sync a).
Definition set_queue (q : string) (n : N) (l : list StoredFifoMessage) (a : AbsStore) : AbsStore :=
  mkAbs (a_logs a) (a_tombs a) (<[q := n]> (a_seqs a)) (<[q := l]> (a_queues a)) (a_sync a).
Definition set_sync (k : sync_key) (s : PeerSyncState) (a : AbsStore) : AbsStore :=
  mkAbs (a_logs a) (a_tombs a) (a_seqs a) (a_queues a) (<[k := s]> (a_sync a)).

Definition key_of (t : Topic) (o : NodeId) : log_key := (topic_str t, NodeId.key o).
Definition msg_key (m : StoredMessage) : log_key := key_of (sm_topic m) (sm_origin m).
Definition log_head (l : list StoredMessage) : N := N.of_nat (length l).

(** ** Logs *)

Definition covered (ts : gset (N * N)) (h : N) : bool :=
  bool_decide (set_Exists (λ x, (x.1 ≤ h ∧ h ≤ x.2)%N) ts).

Definition mark (a : AbsStore) (m : StoredMessage) : StoredMessage :=
  if covered (tombs_of a (msg_key m)) (sm_head_id m) then set_deleted true m else m.

(** Store [m] at number [h] (from 1): append just past the end, else replace. *)
Definition log_put (h : N) (m : StoredMessage) (l : list StoredMessage) : list StoredMessage :=
  take (N.to_nat h - 1) l ++ m :: drop (N.to_nat h) l.

Definition append_spec (now : N) (m : NewMessage) (a : AbsStore) : StoredMessage * AbsStore :=
  let k := key_of (nm_topic m) (nm_origin m) in
  let h := u64_saturating_add (log_head (log_of a k)) 1 in
  let s := mark a (mkStoredMessage (nm_id m) (nm_topic m) (nm_origin m) h (nm_payload m)
                     (nm_headers m) now false) in
  (s, set_log k (log_put h s (log_of a k)) a).

Definition page_limit (limit : N) : nat :=
  if (limit =? 0)%N then 100%nat else N.to_nat (N.min limit 10000).

Definition fetch_spec (q : FetchQuery) (a : AbsStore) : list StoredMessage :=
  take (page_limit (fq_limit q))
    (filter (λ m, (fq_from_head_id q ≤ sm_head_id m)%N)
       (log_of a (key_of (fq_topic q) (fq_origin q)))).

Definition head_spec (t : Topic) (o : NodeId) (a : AbsStore) : option HeadId :=
  let n := log_head (log_of a (key_of t o)) in
  if (n =? 0)%N then None else Some n.

Definition heads_spec (a : AbsStore) : list TopicHead :=
  omap (λ kl : log_key * list StoredMessage,
          m ← last kl.2; Some (mkTopicHead (sm_topic m) (sm_origin m) (log_head kl.2)))
    (map_to_list (a_logs a)).

Definition same_message_except_deleted_spec (l r : StoredMessage) : bool :=
  bool_decide (set_deleted true l = set_deleted true r).

Definition location (m : StoredMessage) : string :=
  "topic=" +:+ topic_str (sm_topic m) +:+ " origin=" +:+ NodeId.key (sm_origin m).

Definition put_replicated_spec (m : StoredMessage) (a : AbsStore)
    : Result ReplicateResult * AbsStore :=
  let h := sm_head_id m in
  if (h =? 0)%N
  then (Err (InvalidArgument "replicated message head_id must be greater than zero"), a)
  else
    let m' := mark a m in
    let l := log_of a (msg_key m) in
    match l !! (N.to_nat h - 1)%nat with
    | Some existing =>
        if bool_decide (existing = m') then (Ok AlreadyPresent, a)
        else if same_message_except_deleted_spec existing m' && sm_deleted m'
        then (Ok Inserted, set_log (msg_key m) (log_put h m' l) a)
        else (Err (Conflict ("message conflict at " +:+ location m +:+ " head_id=" +:+ fmt_u64 h)), a)
    | None =>
        if (u64_saturating_add (log_head l) 1 <? h)%N
        then (Err (InvalidArgument ("replicated message would create a gap at " +:+ location m
                     +:+ " local_head=" +:+ fmt_u64 (log_head l)
                     +:+ " incoming_head=" +:+ fmt_u64 h)), a)
        else (Ok Inserted, set_log (msg_key m) (log_put h m' l) a)
    end.

Definition in_range (from to h : N) : bool := (from <=? h)%N && (h <=? to)%N.

Definition mark_range (from to : N) (m : StoredMessage) : StoredMessage :=
  if in_range from to (sm_head_id m) then set_deleted true m else m.

Definition newly_deleted (from to : N) (m : StoredMessage) : bool :=
  in_range from to (sm_head_id m) && negb (sm_deleted m).

Definition tombstone_spec (k : log_key) (from to : N) (a : AbsStore) : N * AbsStore :=
  let l := log_of a k in
  (N.of_nat (length (filter (λ m, newly_deleted from to m = true) l)),
   set_tombs k ({[ (from, to) ]} ∪ tombs_of a k) (set_log k (mark_range from to <$> l) a)).

Definition bad_range : MsgbusError := InvalidArgument "from_head_id must be <= to_head_id".

(** ** Queues and sync states *)

Definition enqueue_spec (now : N) (m : NewFifoMessage) (a : AbsStore)
    : StoredFifoMessage * AbsStore :=
  let q := queue_str (nf_queue m) in
  let n := u64_saturating_add (seq_of a q) 1 in
  let s := mkStoredFifoMessage (nf_id m) (nf_queue m) (nf_topic m) (nf_source m) (nf_target m)
             (nf_payload m) (nf_headers m) now n 0 in
  (s, set_queue q n (filter (λ x, sf_sequence x ≠ n) (queue_of a q) ++ [s]) a).

Definition ack_spec (q : string) (i : MessageId) (a : AbsStore) : bool * AbsStore :=
  match queue_of a q with
  | m :: l => if bool_decide (sf_id m = i) then (true, set_queue q (seq_of a q) l a) else (false, a)
  | [] => (false, a)
  end.

Definition reject_spec (q : string) (i : MessageId) (a : AbsStore) : bool * AbsStore :=
  match queue_of a q with
  | m :: l =>
      if bool_decide (sf_id m = i)
      then (true, set_queue q (seq_of a q)
                    (set_attempts (u32_saturating_add (sf_attempts m) 1) m :: l) a)
      else (false, a)
  | [] => (false, a)
  end.

Definition sync_id (s : PeerSyncState) : sync_key :=
  (ps_peer s, topic_str <$> ps_topic s, NodeId.key <$> ps_origin s).

(** The state as recorded: a failure extends the previous failure count and
    keeps the last success time; a success resets the count. *)
Definition record_spec (s : PeerSyncState) (a : AbsStore) : PeerSyncState :=
  let prev := a_sync a !! sync_id s in
  let failures :=
    match ps_last_error s, prev with
    | None, _ => 0%N
    | Some _, None => 1%N
    | Some _, Some p => u32_saturating_add (ps_consecutive_failures p) 1
    end in
  let success :=
    match ps_last_error s, prev with
    | Some _, Some p =>
        if (ps_last_success_at_ms s =? 0)%N then ps_last_success_at_ms p
        else ps_last_success_at_ms s
    | _, _ => ps_last_success_at_ms s
    end in
  mkPeerSyncState (ps_peer s) (ps_topic s) (ps_origin s) (ps_local_head s) (ps_remote_head s)
    (ps_last_synced_head s) (ps_last_attempt_at_ms s) success failures (ps_last_error s).

(** ** Operations *)

Inductive StoreOp : Type → Type :=
| OpAppend (m : NewMessage) : StoreOp StoredMessage
| OpFetch (q : FetchQuery) : StoreOp (list StoredMessage)
| OpGetHead (t : Topic) (o : NodeId) : StoreOp (option HeadId)
| OpListHeads : StoreOp (list TopicHead)
| OpPutReplicated (m : StoredMessage) : StoreOp ReplicateResult
| OpTombstone (t : Topic) (o : NodeId) (from to : HeadId) : StoreOp N
| OpTombstoneMarker (t : Topic) (o : NodeId) (from to : HeadId) (mt : Topic) (mo : NodeId)
    : StoreOp (N * StoredMessage)
| OpEnqueue (m : NewFifoMessage) : StoreOp StoredFifoMessage
| OpPeek (q : QueueName) : StoreOp (option StoredFifoMessage)
| OpAck (q : QueueName) (i : MessageId) : StoreOp bool
| OpReject (q : QueueName) (i : MessageId) : StoreOp bool
| OpRecord (s : PeerSyncState) : StoreOp unit
| OpListSync : StoreOp (list PeerSyncState).

Definition run_op {DB} `{!MsgbusStore DB} {A} (op : StoreOp A) : M MsgbusError DB A :=
  match op in StoreOp A return M MsgbusError DB A with
  | OpAppend m => append_message m
  | OpFetch q => fetch_messages q
  | OpGetHead t o => get_head t o
  | OpListHeads => list_heads
  | OpPutReplicated m => put_replicated_message m
  | OpTombstone t o from to => tombstone_range t o from to
  | OpTombstoneMarker t o from to mt mo => tombstone_range_with_marker t o from to mt mo
  | OpEnqueue m => enqueue_fifo m
  | OpPeek q => peek_fifo q
  | OpAck q i => ack_fifo q i
  | OpReject q i => reject_fifo q i
  | OpRecord s => record_peer_sync_state s
  | OpListSync => list_peer_sync_states
  end.

(** The numbers of an operation are in their machine range, and a sync state
    names a topic and an origin together or neither, as every caller does. *)
Definition op_typed {A} (op : StoreOp A) : Prop :=
  match op with
  | OpFetch q => is_u64 (fq_from_head_id q) ∧ is_u32 (fq_limit q)
  | OpPutReplicated m => is_u64 (sm_head_id m) ∧ is_u64 (sm_created_at_ms m)
  | OpTombstone _ _ from to | OpTombstoneMarker _ _ from to _ _ => is_u64 from ∧ is_u64 to
  | OpRecord s => is_Some (ps_topic s) ↔ is_Some (ps_origin s)
  | _ => True
  end.

(** The marker a deletion appends to the control log. *)
Definition marker_message `{!Json TombstoneRange} (id : MessageId) (now : N) (t : Topic)
    (o : NodeId) (from to : HeadId) (mt : Topic) (mo : NodeId) : NewMessage :=
  mkNewMessage id mt mo (enc_of (mkTombstoneRange t o from to now)) ∅.

(** Delete the range, then append the marker. *)
Definition marker_spec `{!Json TombstoneRange} (id : MessageId) (now now' : N) (t : Topic)
    (o : NodeId) (from to : HeadId) (mt : Topic) (mo : NodeId) (a : AbsStore)
    : (N * StoredMessage) * AbsStore :=
  let d := tombstone_spec (key_of t o) from to a in
  let p := append_spec now' (marker_message id now t o from to mt mo) d.2 in
  ((d.1, p.1), p.2).

Definition spec_op `{!Json TombstoneRange} (e : Env) {A} (op : StoreOp A)
    : AbsStore → Result A → AbsStore → Prop :=
  match op in StoreOp A return AbsStore → Result A → AbsStore → Prop with
  | OpAppend m => λ a r a', ∃ now, ticks e now ∧
      r = Ok (append_spec now m a).1 ∧ a' = (append_spec now m a).2
  | OpFetch q => λ a r a', r = Ok (fetch_spec q a) ∧ a' = a
  | OpGetHead t o => λ a r a', r = Ok (head_spec t o a) ∧ a' = a
  | OpListHeads => λ a r a', a' = a ∧ ∃ l, r = Ok l ∧ l ≡ₚ heads_spec a
  | OpPutReplicated m => λ a r a', (r, a') = put_replicated_spec m a
  | OpTombstone t o from to => λ a r a',
      if (to <? from)%N then r = Err bad_range ∧ a' = a
      else r = Ok (tombstone_spec (key_of t o) from to a).1 ∧
           a' = (tombstone_spec (key_of t o) from to a).2
  | OpTombstoneMarker t o from to mt mo => λ a r a',
      if (to <? from)%N then r = Err bad_range ∧ a' = a
      else ∃ now now' n, ticks e now ∧ ticks e now' ∧
             r = Ok (marker_spec (mkMessageId (uuid e n)) now now' t o from to mt mo a).1 ∧
             a' = (marker_spec (mkMessageId (uuid e n)) now now' t o from to mt mo a).2
  | OpEnqueue m => λ a r a', ∃ now, ticks e now ∧
      r = Ok (enqueue_spec now m a).1 ∧ a' = (enqueue_spec now m a).2
  | OpPeek q => λ a r a', r = Ok (head (queue_of a (queue_str q))) ∧ a' = a
  | OpAck q i => λ a r a', r = Ok (ack_spec (queue_str q) i a).1 ∧ a' = (ack_spec (queue_str q) i a).2
  | OpReject q i => λ a r a',
      r = Ok (reject_spec (queue_str q) i a).1 ∧ a' = (reject_spec (queue_str q) i a).2
  | OpRecord s => λ a r a', r = Ok tt ∧ a' = set_sync (sync_id s) (record_spec s a) a
  | OpListSync => λ a r a', a' = a ∧ ∃ l, r = Ok l ∧ l ≡ₚ (map_to_list (a_sync a)).*2
  end.

(** ** The invariant *)

Definition seq_lt (x y : StoredFifoMessage) : Prop := (sf_sequence x < sf_sequence y)%N.

Record wf (a : AbsStore) : Prop := {
  (** the i-th entry of a log carries number i (from 1) and the log's key *)
  wf_entry : ∀ k i m, log_of a k !! i = Some m →
    sm_head_id m = N.of_nat (S i) ∧ msg_key m = k;
  wf_len : ∀ k, is_u64 (log_head (log_of a k));
  (** every entry under a tombstone is marked deleted *)
  wf_tomb : ∀ k m, m ∈ log_of a k → covered (tombs_of a k) (sm_head_id m) = true →
    sm_deleted m = true;
  wf_tomb_u64 : ∀ k f t, (f, t) ∈ tombs_of a k → is_u64 f ∧ is_u64 t;
  (** a queue is sorted by sequence number, below its counter *)
  wf_queue_sorted : ∀ q, StronglySorted seq_lt (queue_of a q);
  wf_queue_entry : ∀ q m, m ∈ queue_of a q →
    (sf_sequence m ≤ seq_of a q)%N ∧ queue_str (sf_queue m) = q;
  wf_seq : ∀ q, is_u64 (seq_of a q);
  (** a sync state is filed under its own key, topic and origin together *)
  wf_sync : ∀ k s, a_sync a !! k = Some s →
    sync_id s = k ∧ (is_Some (ps_topic s) ↔ is_Some (ps_origin s));
}.

(** ** The contract of a backend

    [rep a db] relates the abstract state to the committed data.  Every
    operation, in every environment, either answers as the specification says
    and moves to the specified state, or fails and leaves the abstract state
    alone; and a failure is a fault of the environment, a limit of the backend
    ([limited]), or an error the specification gives. *)
Definition refines_op {DB} `{!MsgbusStore DB, !Json TombstoneRange}
    (rep : AbsStore → DB → Prop) (limited : Env → ∀ A, StoreOp A → AbsStore → Prop)
    {A} (op : StoreOp A) : Prop :=
  ∀ e a db, op_typed op → rep a db →
    wp e (run_op op) (λ r db',
      match r with
      | Ok x => ∃ a', spec_op e op a (Ok x) a' ∧ rep a' db'
      | Err x => rep a db' ∧ (has_fault e ∨ limited e A op a ∨ spec_op e op a (Err x) a)
      end) db.

Class StoreRefinement (DB : Type) `{!MsgbusStore DB, !Json TombstoneRange} := {
  rep : AbsStore → DB → Prop;
  limited : Env → ∀ A, StoreOp A → AbsStore → Prop;
  rep_wf : ∀ a db, rep a db → wf a;
  store_refines : ∀ A (op : StoreOp A), refines_op rep limited op;
}.

(** ** Reading an updated state *)

Lemma log_of_set_log k l a k' :
  log_of (set_log k l a) k' = if decide (k = k') then l else log_of a k'.
Proof. unfold log_of, set_log. simpl. rewrite lookup_insert. by case_decide. Qed.

Lemma tombs_of_set_tombs k ts a k' :
  tombs_of (set_tombs k ts a) k' = if decide (k = k') then ts else tombs_of a k'.
Proof. unfold tombs_of, set_tombs. simpl. rewrite lookup_insert. by case_decide. Qed.

Lemma log_of_set_tombs k ts a k' : log_of (set_tombs k ts a) k' = log_of a k'.
Proof. done. Qed.

Lemma tombs_of_set_log k l a k' : tombs_of (set_log k l a) k' = tombs_of a k'.
Proof. done. Qed.

Lemma queue_of_set_queue q n l a q' :
  queue_of (set_queue q n l a) q' = if decide (q = q') then l else queue_of a q'.
Proof. unfold queue_of, set_queue. simpl. rewrite lookup_insert. by case_decide. Qed.

Lemma seq_of_set_queue q n l a q' :
  seq_of (set_queue q n l a) q' = if decide (q = q') then n else seq_of a q'.
Proof. unfold seq_of, set_queue. simpl. rewrite lookup_insert. by case_decide. Qed.

Lemma covered_iff ts h : covered ts h = true ↔ ∃ f t, (f, t) ∈ ts ∧ (f ≤ h ≤ t)%N.
Proof.
  unfold covered. rewrite bool_decide_eq_true. split.
  - intros ([f t] & Hin & ?). by exists f, t.
  - intros (f & t & Hin & ?). by exists (f, t).
Qed.

Lemma mark_head a m : sm_head_id (mark a m) = sm_head_id m.
Proof. unfold mark. by case_match. Qed.

Lemma mark_key a m : msg_key (mark a m) = msg_key m.
Proof. unfold mark. by case_match. Qed.

Lemma mark_deleted a m :
  covered (tombs_of a (msg_key m)) (sm_head_id m) = true → sm_deleted (mark a m) = true.
Proof. unfold mark. by intros ->. Qed.

(** ** [log_put] *)

Lemma log_put_lookup h m l i :
  (1 ≤ h ≤ log_head l + 1)%N →
  log_put h m l !! i = if decide (i = N.to_nat h - 1)%nat then Some m else l !! i.
Proof.
  unfold log_put, log_head. intros Hh.
  assert (length (take (N.to_nat h - 1) l) = N.to_nat h - 1)%nat as Hlen.
  { rewrite length_take. lia. }
  case_decide as Hi.
  - rewrite lookup_app_r by lia. by rewrite Hlen, Hi, Nat.sub_diag.
  - destruct (decide (i < N.to_nat h - 1)%nat).
    + rewrite lookup_app_l by lia. by rewrite lookup_take_lt by lia.
    + rewrite lookup_app_r by lia. rewrite Hlen.
      destruct (i - (N.to_nat h - 1))%nat as [|j] eqn:Hj; [lia|].
      simpl. rewrite lookup_drop. f_equal. lia.
Qed.

Lemma log_put_length h m l :
  (1 ≤ h ≤ log_head l + 1)%N → log_head (log_put h m l) = N.max (log_head l) h.
Proof.
  unfold log_put, log_head. intros Hh. rewrite length_app, length_take. simpl.
  rewrite length_drop. lia.
Qed.

Lemma log_put_snoc m l : log_put (log_head l + 1) m l = l ++ [m].
Proof.
  unfold log_put, log_head.
  rewrite take_ge by lia. by rewrite drop_ge by lia.
Qed.

Lemma next_head_bounds l :
  is_u64 (log_head l) →
  (1 ≤ u64_saturating_add (log_head l) 1 ≤ log_head l + 1)%N ∧
  is_u64 (u64_saturating_add (log_head l) 1).
Proof. unfold is_u64, u64_saturating_add, u64_max. lia. Qed.

(** ** Preservation of the invariant *)

Lemma wf_empty : wf abs_empty.
Proof.
  split; unfold log_of, tombs_of, queue_of, seq_of; simpl; intros *;
    rewrite ?lookup_empty; simpl; try done; try set_solver. constructor.
Qed.

Lemma wf_set_log k l a :
  wf a →
  (∀ i m, l !! i = Some m →
     sm_head_id m = N.of_nat (S i) ∧ msg_key m = k ∧
     (covered (tombs_of a k) (sm_head_id m) = true → sm_deleted m = true)) →
  is_u64 (log_head l) →
  wf (set_log k l a).
Proof.
  intros Hwf Hl Hlen. split; try apply Hwf.
  - intros k' i m. rewrite log_of_set_log. case_decide; [subst|by apply Hwf].
    intros Hm. by destruct (Hl i m Hm) as (? & ? & _).
  - intros k'. rewrite log_of_set_log. case_decide; [done | by apply Hwf].
  - intros k' m. rewrite log_of_set_log. case_decide; [subst|by apply Hwf].
    intros (i & Hi)%list_elem_of_lookup. by apply (Hl i m).
Qed.

Lemma wf_log_put k h m a :
  wf a → (1 ≤ h ≤ log_head (log_of a k) + 1)%N → is_u64 h →
  sm_head_id m = h → msg_key m = k → 
  (covered (tombs_of a k) h = true → sm_deleted m = true) →
  wf (set_log k (log_put h m (log_of a k)) a).
Proof.
  intros Hwf Hh Hu Hmh Hmk Hdel. apply wf_set_log; [done| |].
  - intros i m'. rewrite log_put_lookup by done. case_decide as Hi.
    + intros [= <-]. subst i. rewrite Hmh. split; [lia|]. by split.
    + intros Hm'. destruct (wf_entry _ Hwf _ _ _ Hm') as [? ?]. split; [done|]. split; [done|].
      apply (wf_tomb _ Hwf k). apply list_elem_of_lookup. eauto.
  - rewrite log_put_length by done. pose proof (wf_len _ Hwf k). unfold is_u64 in *. lia.
Qed.

Lemma append_wf now m a : wf a → wf (append_spec now m a).2.
Proof.
  intros Hwf. unfold append_spec. set (k := key_of (nm_topic m) (nm_origin m)). simpl.
  destruct (next_head_bounds (log_of a k)) as [Hb Hu]; [by apply Hwf|].
  apply wf_log_put; [done|done|done| | |].
  - by rewrite mark_head.
  - by rewrite mark_key.
  - intros Hc. by apply mark_deleted.
Qed.

Lemma put_replicated_wf m a :
  wf a → is_u64 (sm_head_id m) → wf (put_replicated_spec m a).2.
Proof.
  intros Hwf Hu. unfold put_replicated_spec.
  destruct (N.eqb_spec (sm_head_id m) 0) as [|Hne]; [done|].
  set (l := log_of a (msg_key m)).
  assert (wf (set_log (msg_key m) (log_put (sm_head_id m) (mark a m) l) a) ∨
          (log_head l + 1 < sm_head_id m)%N) as [Hput|Hgap].
  { destruct (decide (sm_head_id m ≤ log_head l + 1)%N); [left|right; lia].
    apply wf_log_put; [done|unfold l in *; lia|done|apply mark_head|apply mark_key|].
    intros. by apply mark_deleted. }
  - by repeat case_match.
  - destruct (l !! _) as [ex|] eqn:Hl.
    + apply lookup_lt_Some in Hl. unfold log_head in Hgap. lia.
    + case_match eqn:Hc; [done|]. apply N.ltb_ge in Hc.
      unfold u64_saturating_add in Hc. lia.
Qed.

Lemma mark_range_head from to m : sm_head_id (mark_range from to m) = sm_head_id m.
Proof. unfold mark_range. by case_match. Qed.

Lemma mark_range_key from to m : msg_key (mark_range from to m) = msg_key m.
Proof. unfold mark_range. by case_match. Qed.

Lemma in_range_iff from to h : in_range from to h = true ↔ (from ≤ h ≤ to)%N.
Proof. unfold in_range. rewrite andb_true_iff, !N.leb_le. done. Qed.

Lemma tombstone_wf k from to a :
  wf a → is_u64 from → is_u64 to → wf (tombstone_spec k from to a).2.
Proof.
  intros Hwf Hf Ht. unfold tombstone_spec. simpl. split; try apply Hwf.
  - intros k' i m. rewrite log_of_set_tombs, log_of_set_log. case_decide; [subst|by apply Hwf].
    rewrite list_lookup_fmap. intros (m0 & Hm0 & ->)%fmap_Some.
    rewrite mark_range_head, mark_range_key. by apply Hwf.
  - intros k'. rewrite log_of_set_tombs, log_of_set_log. case_decide; [subst|by apply Hwf].
    unfold log_head. rewrite length_fmap. apply Hwf.
  - intros k' m. rewrite log_of_set_tombs, log_of_set_log, tombs_of_set_tombs. case_decide; [subst|by apply Hwf].
    intros (m0 & -> & Hm0)%list_elem_of_fmap. rewrite mark_range_head, covered_iff.
    intros (f & t & Hin & Hr). unfold mark_range.
    destruct (in_range from to (sm_head_id m0)) eqn:Hir; [done|].
    apply (wf_tomb _ Hwf k' m0 Hm0). apply covered_iff. exists f, t. split; [|done].
    apply elem_of_union in Hin as [Hin|Hin]; [|done].
    apply elem_of_singleton in Hin. simplify_eq. apply in_range_iff in Hr. by rewrite Hir in Hr.
  - intros k' f t. rewrite tombs_of_set_tombs. case_decide; [subst|by apply Hwf].
    intros [Hin|Hin]%elem_of_union; [|by apply (wf_tomb_u64 _ Hwf) in Hin].
    apply elem_of_singleton in Hin. by simplify_eq.
Qed.

Lemma wf_set_queue q n l a :
  wf a → is_u64 n → StronglySorted seq_lt l →
  (∀ m, m ∈ l → (sf_sequence m ≤ n)%N ∧ queue_str (sf_queue m) = q) →
  wf (set_queue q n l a).
Proof.
  intros Hwf Hn Hs Hl. split; try apply Hwf.
  - intros q'. rewrite queue_of_set_queue. case_decide; [done | apply Hwf].
  - intros q' m. rewrite queue_of_set_queue, seq_of_set_queue.
    case_decide; [subst; apply Hl | apply Hwf].
  - intros q'. rewrite seq_of_set_queue. case_decide; [done | apply Hwf].
Qed.

Lemma seq_sorted_snoc l s :
  StronglySorted seq_lt l → Forall (λ m, (sf_sequence m < sf_sequence s)%N) l →
  StronglySorted seq_lt (l ++ [s]).
Proof.
  induction 1 as [|x l Hs IH Hx]; intros Hl; simpl; [by repeat constructor|].
  apply Forall_cons_1 in Hl as [? Hl]. constructor; [by apply IH|].
  apply Forall_app. split; [done|]. by repeat constructor.
Qed.

Lemma seq_sorted_filter P `{!∀ x, Decision (P x)} l :
  StronglySorted seq_lt l → StronglySorted seq_lt (filter P l).
Proof.
  induction 1 as [|x l Hs IH Hx]; [constructor|]. rewrite filter_cons.
  case_decide; [|done]. constructor; [done|].
  rewrite Forall_forall in *. intros y [_ Hy]%list_elem_of_filter. by apply Hx.
Qed.

Lemma enqueue_wf now m a : wf a → wf (enqueue_spec now m a).2.
Proof.
  intros Hwf. unfold enqueue_spec. simpl. set (q := queue_str (nf_queue m)).
  pose proof (wf_seq _ Hwf q) as Hseq. apply wf_set_queue; [done| | |].
  - apply u64_saturating_add_bound.
  - apply seq_sorted_snoc; [apply seq_sorted_filter, Hwf|].
    apply Forall_forall. intros x [Hne Hx]%list_elem_of_filter. simpl.
    destruct (wf_queue_entry _ Hwf _ _ Hx) as [Hle _].
    unfold u64_saturating_add, is_u64 in *. lia.
  - intros x [[_ Hx]%list_elem_of_filter|Hx]%elem_of_app.
    + destruct (wf_queue_entry _ Hwf _ _ Hx) as [Hle ?]. split; [|done].
      unfold u64_saturating_add, is_u64 in *. lia.
    + apply list_elem_of_singleton in Hx as ->. simpl. split; [lia|done].
Qed.

Lemma queue_tail_wf q m l a :
  wf a → queue_of a q = m :: l → wf (set_queue q (seq_of a q) l a).
Proof.
  intros Hwf Hq. pose proof (wf_queue_sorted _ Hwf q) as Hs. rewrite Hq in Hs.
  inversion Hs; subst. apply wf_set_queue; [done|apply Hwf|done|].
  intros x Hx. apply Hwf. rewrite Hq. by right.
Qed.

Lemma queue_head_wf q m m' l a :
  wf a → queue_of a q = m :: l → sf_sequence m' = sf_sequence m → sf_queue m' = sf_queue m →
  wf (set_queue q (seq_of a q) (m' :: l) a).
Proof.
  intros Hwf Hq Hseq Hqn. pose proof (wf_queue_sorted _ Hwf q) as Hs. rewrite Hq in Hs.
  inversion Hs as [|?? ? Hlt]; subst. apply wf_set_queue; [done|apply Hwf| |].
  - constructor; [done|]. unfold seq_lt in *. by rewrite Hseq.
  - intros x [->|Hx]%elem_of_cons.
    + rewrite Hseq, Hqn. apply Hwf. rewrite Hq. by left.
    + apply Hwf. rewrite Hq. by right.
Qed.

Lemma ack_wf q i a : wf a → wf (ack_spec q i a).2.
Proof.
  intros Hwf. unfold ack_spec. destruct (queue_of a q) eqn:Hq; [done|].
  case_bool_decide; [by eapply queue_tail_wf | done].
Qed.

Lemma reject_wf q i a : wf a → wf (reject_spec q i a).2.
Proof.
  intros Hwf. unfold reject_spec. destruct (queue_of a q) eqn:Hq; [done|].
  case_bool_decide; [by eapply queue_head_wf | done].
Qed.

Lemma wf_set_sync s a :
  wf a → (is_Some (ps_topic s) ↔ is_Some (ps_origin s)) → wf (set_sync (sync_id s) s a).
Proof.
  intros Hwf Hp. split; try apply Hwf. intros k s'. simpl. rewrite lookup_insert.
  case_decide; [subst|by apply Hwf]. by intros [= <-].
Qed.

Lemma record_wf s a :
  wf a → (is_Some (ps_topic s) ↔ is_Some (ps_origin s)) →
  wf (set_sync (sync_id s) (record_spec s a) a).
Proof. intros Hwf Hp. by apply (wf_set_sync (record_spec s a)). Qed.
