(* ===== verification/SpecFacts.v ===== *)
(** * SpecFacts: facts about the abstract store that every backend needs

    How logs are sorted, which heads the specification lists, and what marking
    does to a message. *)

From Stdlib Require Import String NArith ZArith Lia Sorting.Sorted.
From stdpp Require Import base strings list gmap sorting.
From S2P Require Import Prelude Strings Core Json Spec.

Implicit Types (a : AbsStore).

(** A sync state that names topic and origin together or neither. *)
Definition paired (s : PeerSyncState) : Prop := is_Some (ps_topic s) ↔ is_Some (ps_origin s).

Lemma set_deleted_id m : sm_deleted m = true → set_deleted true m = m.
Proof. destruct m. simpl. by intros ->. Qed.

Lemma mark_of_deleted a m : sm_deleted m = true → mark a m = m.
Proof. intros H. unfold mark. case_match; [by apply set_deleted_id | done]. Qed.

Lemma log_head_put_next l m :
  is_u64 (log_head l) →
  log_head (log_put (u64_saturating_add (log_head l) 1) m l) = u64_saturating_add (log_head l) 1.
Proof.
  intros Hu. destruct (next_head_bounds l Hu) as [Hb _]. rewrite log_put_length by done.
  unfold u64_saturating_add, is_u64 in *. lia.
Qed.

Definition head_lt (x y : StoredMessage) : Prop := (sm_head_id x < sm_head_id y)%N.

Lemma log_sorted a k : wf a → StronglySorted head_lt (log_of a k).
Proof.
  intros Hwf. pose proof (wf_entry _ Hwf k) as Hent. revert Hent.
  generalize (log_of a k) as l. intros l Hent.
  assert (∀ j, (∀ i m, l !! i = Some m → sm_head_id m = N.of_nat (S (j + i))) →
               StronglySorted head_lt l) as Hgen; [|by apply (Hgen 0%nat); naive_solver].
  clear Hent. induction l as [|m l IH]; intros j Hj; constructor.
  - apply (IH (S j)). intros i m' Hm'. rewrite (Hj (S i) m' Hm'). lia.
  - apply Forall_forall. intros m' (i & Hi)%list_elem_of_lookup. unfold head_lt.
    rewrite (Hj 0%nat m eq_refl), (Hj (S i) m' Hi). lia.
Qed.

Lemma head_sorted_filter P `{!∀ x, Decision (P x)} l :
  StronglySorted head_lt l → StronglySorted head_lt (filter P l).
Proof.
  induction 1 as [|x l Hs IH Hx]; [constructor|]. rewrite filter_cons.
  case_decide; [|done]. constructor; [done|].
  rewrite Forall_forall in *. intros y [_ Hy]%list_elem_of_filter. by apply Hx.
Qed.

Definition th_key (th : TopicHead) : log_key := key_of (th_topic th) (th_origin th).

Lemma elem_of_heads_spec a th :
  th ∈ heads_spec a ↔
  ∃ k l m, a_logs a !! k = Some l ∧ last l = Some m ∧
           th = mkTopicHead (sm_topic m) (sm_origin m) (log_head l).
Proof.
  unfold heads_spec. rewrite list_elem_of_omap. split.
  - intros ([k l] & Hin & Hth). apply elem_of_map_to_list in Hin. simpl in Hth.
    destruct (last l) as [m|] eqn:Hl; simplify_eq/=. by exists k, l, m.
  - intros (k & l & m & Hk & Hl & ->). exists (k, l). split; [by apply elem_of_map_to_list|].
    simpl. by rewrite Hl.
Qed.

Lemma log_of_lookup a k l : a_logs a !! k = Some l → log_of a k = l.
Proof. unfold log_of. by intros ->. Qed.

Lemma last_key a k m : wf a → last (log_of a k) = Some m → msg_key m = k.
Proof. rewrite last_lookup. intros Hwf Hm. by destruct (wf_entry _ Hwf _ _ _ Hm). Qed.

Lemma heads_spec_nodup a : wf a → NoDup (heads_spec a).
Proof.
  intros Hwf. unfold heads_spec.
  pose proof (NoDup_fst_map_to_list (a_logs a)) as Hnd.
  assert (∀ kl, kl ∈ map_to_list (a_logs a) → ∀ m, last kl.2 = Some m → msg_key m = kl.1) as Hkey.
  { intros [k l] Hin%elem_of_map_to_list m Hm. simpl in *.
    apply (last_key a); [done|]. by rewrite (log_of_lookup a k l). }
  revert Hnd Hkey. induction (map_to_list (a_logs a)) as [|[k l] kls IH]; csimpl; [constructor|].
  intros [Hk Hnd]%NoDup_cons Hkey.
  assert (NoDup (omap (λ kl : log_key * list StoredMessage, m ← last kl.2;
            Some (mkTopicHead (sm_topic m) (sm_origin m) (log_head kl.2))) kls)) as IH'.
  { apply IH; [done|]. intros kl Hkl. apply Hkey. by right. }
  destruct (last l) as [m|] eqn:Hm; [|done]. simpl. constructor; [|done].
  intros ([k' l'] & Hin & Hth)%list_elem_of_omap. simpl in Hth.
  destruct (last l') as [m'|] eqn:Hm'; simplify_eq/=. destruct Hk.
  pose proof (Hkey (k, l) ltac:(by left) m Hm) as Hk1.
  pose proof (Hkey (k', l') ltac:(by right) m' Hm') as Hk2. simpl in *.
  apply list_elem_of_fmap. exists (k', l'). split; [|done]. simpl.
  rewrite <- Hk1, <- Hk2. unfold msg_key. congruence.
Qed.

Lemma log_put_max h m l :
  (1 ≤ h ≤ log_head l + 1)%N →
  log_head (log_put h m l) = (if log_head l <? h then h else log_head l)%N.
Proof. intros Hh. rewrite log_put_length by done. destruct (N.ltb_spec (log_head l) h); lia. Qed.

(** The stored sync states are distinct: each is filed under its own key. *)
Lemma sync_states_NoDup a : wf a → NoDup (map_to_list (a_sync a)).*2.
Proof.
  intros Hwf. apply (NoDup_fmap_1 sync_id). rewrite <- list_fmap_compose.
  rewrite (list_fmap_ext _ fst); [apply NoDup_fst_map_to_list|].
  intros i [k st] Hi. simpl. apply list_elem_of_lookup_2, elem_of_map_to_list in Hi.
  by apply (wf_sync _ Hwf) in Hi as [].
Qed.
