(* ===== verification/History.v ===== *)
(** * History: what every store that meets the contract guarantees

    Consequences of [StoreRefinement], proved once against the interface: the
    specification preserves the invariant, every answer is determined by the
    specification, and logs only grow along any sequence of operations, in any
    environment, failures included. *)

From Stdlib Require Import String NArith ZArith Lia Sorting.Sorted.
From stdpp Require Import base strings list gmap sorting.
From S2P Require Import Prelude Strings Core Json Spec.

(** ** The order on logs

    An entry keeps its number, identity and content; its deletion flag only
    goes from false to true. *)
Definition entry_le (m m' : StoredMessage) : Prop :=
  set_deleted true m = set_deleted true m' ∧ (sm_deleted m = true → sm_deleted m' = true).

Definition log_le (l l' : list StoredMessage) : Prop :=
  ∀ i m, l !! i = Some m → ∃ m', l' !! i = Some m' ∧ entry_le m m'.

Definition store_le (a a' : AbsStore) : Prop :=
  ∀ k, log_le (log_of a k) (log_of a' k) ∧ tombs_of a k ⊆ tombs_of a' k.

#[export] Instance entry_le_preorder : PreOrder entry_le.
Proof.
  split; [done|]. intros m1 m2 m3 [H1 D1] [H2 D2]. split; [congruence | auto].
Qed.

#[export] Instance log_le_preorder : PreOrder log_le.
Proof.
  split.
  - intros l i m Hm. by exists m.
  - intros l1 l2 l3 H1 H2 i m Hm. destruct (H1 i m Hm) as (m' & Hm' & ?).
    destruct (H2 i m' Hm') as (m'' & Hm'' & ?). exists m''. split; [done|]. by etrans.
Qed.

#[export] Instance store_le_preorder : PreOrder store_le.
Proof.
  split; [done|]. intros a1 a2 a3 H1 H2 k. destruct (H1 k), (H2 k). split; by etrans.
Qed.

Lemma log_le_app l l' : log_le l (l ++ l').
Proof. intros i m Hm. exists m. split; [by apply lookup_app_l_Some | done]. Qed.

Lemma store_le_set_log k l a : log_le (log_of a k) l → store_le a (set_log k l a).
Proof.
  intros Hl k'. rewrite log_of_set_log, tombs_of_set_log. case_decide; subst; done.
Qed.

Lemma mark_range_le from to m : entry_le m (mark_range from to m).
Proof. unfold mark_range. by case_match. Qed.

Lemma mark_le a m : entry_le m (mark a m).
Proof. unfold mark. by case_match. Qed.

Lemma append_le now m a :
  (log_head (log_of a (key_of (nm_topic m) (nm_origin m))) < u64_max)%N →
  store_le a (append_spec now m a).2.
Proof.
  intros Hk. unfold append_spec. simpl. apply store_le_set_log.
  rewrite u64_saturating_succ by done. rewrite log_put_snoc. apply log_le_app.
Qed.

Lemma tombstone_le k from to a : store_le a (tombstone_spec k from to a).2.
Proof.
  intros k'. unfold tombstone_spec. simpl.
  rewrite log_of_set_tombs, log_of_set_log, tombs_of_set_tombs. split.
  - case_decide; [subst|done]. intros i m Hm. exists (mark_range from to m).
    rewrite list_lookup_fmap, Hm. split; [done | apply mark_range_le].
  - case_decide; [subst; set_solver | done].
Qed.

Lemma same_message_le m m' :
  same_message_except_deleted_spec m m' && sm_deleted m' = true → entry_le m m'.
Proof.
  unfold same_message_except_deleted_spec. rewrite andb_true_iff, bool_decide_eq_true.
  by intros [? ?].
Qed.

Lemma put_replicated_le m a : wf a → store_le a (put_replicated_spec m a).2.
Proof.
  intros Hwf. unfold put_replicated_spec.
  destruct (N.eqb_spec (sm_head_id m) 0) as [|Hne]; [done|].
  set (l := log_of a (msg_key m)). destruct (l !! _) as [ex|] eqn:Hl.
  - case_bool_decide; [done|]. destruct (_ && _) eqn:Hsame; [|done].
    apply store_le_set_log. intros i m0 Hm0.
    rewrite log_put_lookup; [|apply lookup_lt_Some in Hl; unfold log_head; fold l; lia].
    case_decide as Hi; [|by exists m0]. subst i. fold l in Hm0. rewrite Hl in Hm0.
    injection Hm0 as <-. exists (mark a m). split; [done | by apply same_message_le].
  - destruct (_ <? _)%N eqn:Hlt; [done|]. apply store_le_set_log.
    apply N.ltb_ge in Hlt. apply lookup_ge_None in Hl.
    assert (sm_head_id m = log_head l + 1)%N as ->
      by (unfold u64_saturating_add, log_head in *; lia).
    fold l. rewrite log_put_snoc. apply log_le_app.
Qed.

Lemma append_grow now m a k :
  wf a → (log_head (log_of (append_spec now m a).2 k) ≤ log_head (log_of a k) + 1)%N.
Proof.
  intros Hwf. unfold append_spec. cbn [snd]. rewrite log_of_set_log.
  case_decide; [subst|lia].
  destruct (next_head_bounds (log_of a (key_of (nm_topic m) (nm_origin m)))) as [Hb _];
    [by apply Hwf|]. rewrite log_put_length by done. lia.
Qed.

Lemma tombstone_head k from to a k' :
  log_head (log_of (tombstone_spec k from to a).2 k') = log_head (log_of a k').
Proof.
  unfold tombstone_spec. cbn [snd]. rewrite log_of_set_tombs, log_of_set_log.
  case_decide; [subst|done]. unfold log_head. by rewrite length_fmap.
Qed.

Lemma put_replicated_grow m a k :
  (log_head (log_of (put_replicated_spec m a).2 k) ≤ log_head (log_of a k) + 1)%N.
Proof.
  unfold put_replicated_spec.
  destruct (N.eqb_spec (sm_head_id m) 0) as [|Hne]; [simpl; lia|].
  assert (sm_head_id m ≤ log_head (log_of a (msg_key m)) + 1 →
    log_head (log_of (set_log (msg_key m) (log_put (sm_head_id m) (mark a m)
      (log_of a (msg_key m))) a) k) ≤ log_head (log_of a k) + 1)%N as Hput.
  { intros Hle. rewrite log_of_set_log. case_decide; [subst|lia].
    rewrite log_put_length by lia. lia. }
  destruct (_ !! _) as [ex|] eqn:Hl.
  - apply lookup_lt_Some in Hl. case_bool_decide; [simpl; lia|].
    destruct (_ && _); [|simpl; lia]. apply Hput. unfold log_head. lia.
  - destruct (_ <? _)%N eqn:Hlt; [simpl; lia|]. apply Hput.
    apply N.ltb_ge in Hlt. unfold u64_saturating_add in Hlt. lia.
Qed.

Lemma queue_grow q n l a k :
  (log_head (log_of (set_queue q n l a) k) ≤ log_head (log_of a k) + 1)%N.
Proof. change (log_of (set_queue q n l a) k) with (log_of a k). lia. Qed.

Section spec_op.
Context `{!Json TombstoneRange} (e : Env).

Lemma spec_op_wf {A} (op : StoreOp A) a r a' :
  op_typed op → wf a → spec_op e op a r a' → wf a'.
Proof.
  intros Hty Hwf. destruct op; cbn [spec_op op_typed] in *; intros Hs.
  - destruct Hs as (now & _ & _ & ->). by apply append_wf.
  - by destruct Hs as [_ ->].
  - by destruct Hs as [_ ->].
  - by destruct Hs as [-> _].
  - change a' with (r, a').2. rewrite Hs. apply put_replicated_wf; [done | apply Hty].
  - destruct (_ <? _)%N; destruct Hs as [_ ->]; [done|].
    apply tombstone_wf; [done | apply Hty..].
  - destruct (_ <? _)%N; [by destruct Hs as [_ ->]|].
    destruct Hs as (now & now' & n & _ & _ & _ & ->).
    apply append_wf, tombstone_wf; [done | apply Hty..].
  - destruct Hs as (now & _ & _ & ->). by apply enqueue_wf.
  - by destruct Hs as [_ ->].
  - destruct Hs as [_ ->]. by apply ack_wf.
  - destruct Hs as [_ ->]. by apply reject_wf.
  - destruct Hs as [_ ->]. by apply record_wf.
  - by destruct Hs as [-> _].
Qed.

(** An error of the specification leaves the state alone. *)
Lemma spec_op_err {A} (op : StoreOp A) a x a' : spec_op e op a (Err x) a' → a' = a.
Proof.
  destruct op; simpl; try (intros (? & ? & ? & ?); done); try (intros [? ?]; congruence);
    try (intros [_ (? & ? & ?)]; done).
  - unfold put_replicated_spec. intros Hs.
    repeat case_match; by simplify_eq.
  - destruct (_ <? _)%N; intros Hs; destruct_and?; simplify_eq; done.
  - destruct (_ <? _)%N; intros Hs; [by destruct Hs|].
    by destruct Hs as (? & ? & ? & ? & ? & ? & ?).
Qed.

(** The space an operation needs: a log at [u64::MAX] cannot grow. *)
Definition has_room (a : AbsStore) : Prop := ∀ k, (log_head (log_of a k) < u64_max)%N.

Lemma spec_op_le {A} (op : StoreOp A) a r a' :
  has_room a → wf a → spec_op e op a r a' → store_le a a'.
Proof.
  intros Hroom Hwf. destruct op; cbn [spec_op]; intros Hs.
  - destruct Hs as (now & _ & _ & ->). by apply append_le.
  - by destruct Hs as [_ ->].
  - by destruct Hs as [_ ->].
  - by destruct Hs as [-> _].
  - change a' with (r, a').2. rewrite Hs. by apply put_replicated_le.
  - destruct (_ <? _)%N; destruct Hs as [_ ->]; [done | apply tombstone_le].
  - destruct (_ <? _)%N; [by destruct Hs as [_ ->]|].
    destruct Hs as (now & now' & n & _ & _ & _ & ->).
    etrans; [apply tombstone_le|]. apply append_le. by rewrite tombstone_head.
  - destruct Hs as (now & _ & _ & ->). done.
  - by destruct Hs as [_ ->].
  - destruct Hs as [_ ->]. unfold ack_spec. repeat case_match; done.
  - destruct Hs as [_ ->]. unfold reject_spec. repeat case_match; done.
  - by destruct Hs as [_ ->].
  - by destruct Hs as [-> _].
Qed.

(** Short of a log at [u64::MAX], everything stays: the room is a condition on
    the later state, as heads never go down. *)
Definition kept (a a' : AbsStore) : Prop :=
  (∀ k, (log_head (log_of a k) ≤ log_head (log_of a' k))%N) ∧ (has_room a' → store_le a a').

#[export] Instance kept_preorder : PreOrder kept.
Proof.
  split; [by split|]. intros a1 a2 a3 [H1 L1] [H2 L2]. split.
  - intros k. etrans; [apply H1 | apply H2].
  - intros Hroom. assert (has_room a2) as Hroom2.
    { intros k. specialize (Hroom k). specialize (H2 k). lia. }
    etrans; [by apply L1 | by apply L2].
Qed.

Lemma store_le_kept a a' : store_le a a' → kept a a'.
Proof.
  intros Hle. split; [|done]. intros k. unfold log_head.
  destruct (length (log_of a k)) as [|n] eqn:Hn; [lia|].
  destruct (lookup_lt_is_Some_2 (log_of a k) n) as [m Hm]; [lia|].
  destruct (proj1 (Hle k) n m Hm) as (m' & Hm' & _). apply lookup_lt_Some in Hm'. lia.
Qed.

Lemma append_kept now m a : wf a → kept a (append_spec now m a).2.
Proof.
  intros Hwf. set (k0 := key_of (nm_topic m) (nm_origin m)).
  assert (∀ k, log_head (log_of a k) ≤ log_head (log_of (append_spec now m a).2 k))%N as Hmono.
  { intros k. unfold append_spec. cbn [snd]. fold k0. rewrite log_of_set_log. case_decide; [subst k|lia].
    destruct (next_head_bounds (log_of a k0)) as [Hb _]; [by apply Hwf|].
    rewrite log_put_length by done. lia. }
  split; [done|]. intros Hroom. apply append_le. specialize (Hroom k0). specialize (Hmono k0).
  fold k0. lia.
Qed.

Lemma spec_op_kept {A} (op : StoreOp A) a r a' :
  op_typed op → wf a → spec_op e op a r a' → kept a a'.
Proof.
  intros Hty Hwf. destruct op; cbn [spec_op op_typed] in *; intros Hs.
  - destruct Hs as (now & _ & _ & ->). by apply append_kept.
  - by destruct Hs as [_ ->].
  - by destruct Hs as [_ ->].
  - by destruct Hs as [-> _].
  - change a' with (r, a').2. rewrite Hs. by apply store_le_kept, put_replicated_le.
  - destruct (_ <? _)%N; destruct Hs as [_ ->]; [done|]. apply store_le_kept, tombstone_le.
  - destruct (_ <? _)%N; [by destruct Hs as [_ ->]|].
    destruct Hs as (now & now' & n & _ & _ & _ & ->).
    etrans; [apply store_le_kept, tombstone_le|].
    apply append_kept, tombstone_wf; [done | apply Hty..].
  - destruct Hs as (now & _ & _ & ->). by apply store_le_kept.
  - by destruct Hs as [_ ->].
  - destruct Hs as [_ ->]. apply store_le_kept. unfold ack_spec. repeat case_match; done.
  - destruct Hs as [_ ->]. apply store_le_kept. unfold reject_spec. repeat case_match; done.
  - destruct Hs as [_ ->]. by apply store_le_kept.
  - by destruct Hs as [-> _].
Qed.

(** One operation adds at most one entry to a log. *)
Lemma spec_op_grow {A} (op : StoreOp A) a r a' k :
  op_typed op → wf a → spec_op e op a r a' →
  (log_head (log_of a' k) ≤ log_head (log_of a k) + 1)%N.
Proof.
  intros Hty Hwf. destruct op; cbn [spec_op op_typed] in *; intros Hs.
  - destruct Hs as (now & _ & _ & ->). by apply append_grow.
  - destruct Hs as [_ ->]. lia.
  - destruct Hs as [_ ->]. lia.
  - destruct Hs as [-> _]. lia.
  - change a' with (r, a').2. rewrite Hs. apply put_replicated_grow.
  - destruct (_ <? _)%N; destruct Hs as [_ ->]; [lia|]. rewrite tombstone_head. lia.
  - destruct (_ <? _)%N; [destruct Hs as [_ ->]; lia|].
    destruct Hs as (now & now' & n & _ & _ & _ & ->).
    unfold marker_spec. cbn [snd]. etrans; [apply append_grow|].
    + apply tombstone_wf; [done | apply Hty..].
    + rewrite tombstone_head. lia.
  - destruct Hs as (now & _ & _ & ->). apply queue_grow.
  - destruct Hs as [_ ->]. lia.
  - destruct Hs as [_ ->]. unfold ack_spec. destruct (queue_of a _); [simpl; lia|].
    case_bool_decide; [apply queue_grow | simpl; lia].
  - destruct Hs as [_ ->]. unfold reject_spec. destruct (queue_of a _); [simpl; lia|].
    case_bool_decide; [apply queue_grow | simpl; lia].
  - destruct Hs as [_ ->]. change (log_of (set_sync _ _ a) k) with (log_of a k). lia.
  - destruct Hs as [-> _]. lia.
Qed.
End spec_op.

(** ** Runs

    A client issues operations one after another, each in its own environment;
    it sees the answers and goes on after an error. *)
Record Call := mkCall {
  call_type : Type;
  call_op : StoreOp call_type;
  call_env : Env;
}.

Definition call_typed (c : Call) : Prop := op_typed (call_op c).

Fixpoint run_calls {DB} `{!MsgbusStore DB} (t : nat) (calls : list Call) (db : DB) : nat * DB :=
  match calls with
  | [] => (t, db)
  | c :: calls' =>
      let '(_, t', db') := run_op (call_op c) (call_env c) t db in run_calls t' calls' db'
  end.

Section history.
Context {DB : Type} {ST : MsgbusStore DB} {JT : Json TombstoneRange}.
Context {SR : StoreRefinement DB}.

(** One call: the new database represents a state above the old one. *)
Lemma call_history {A} (op : StoreOp A) e t a db :
  op_typed op → rep a db → has_room a →
  ∃ a', rep a' (run_op op e t db).2 ∧ store_le a a' ∧
        ∀ k, (log_head (log_of a' k) ≤ log_head (log_of a k) + 1)%N.
Proof.
  intros Hty Hrep Hroom. pose proof (store_refines A op e a db Hty Hrep t) as H.
  destruct (run_op op e t db) as [[[x|x] t'] db']; simpl.
  - destruct H as (a' & Hs & Hrep'). exists a'. split; [done|]. pose proof (rep_wf _ _ Hrep).
    split; [by eapply spec_op_le | intros k; by eapply spec_op_grow].
  - destruct H as [Hrep' _]. exists a. split; [done|]. split; [done | lia].
Qed.

Lemma run_history calls t a db :
  Forall call_typed calls → rep a db →
  (∀ k, (log_head (log_of a k) + N.of_nat (length calls) ≤ u64_max)%N) →
  ∃ a', rep a' (run_calls t calls db).2 ∧ store_le a a'.
Proof.
  intros Hty. revert t a db. induction Hty as [|[A op e] calls Hc _ IH]; intros t a db Hrep Hroom.
  { by exists a. }
  destruct (call_history op e t a db) as (a1 & Hrep1 & Hle1 & Hgrow); [done|done| |].
  { intros k. specialize (Hroom k). simpl in Hroom. lia. }
  simpl. destruct (run_op op e t db) as [[r t'] db']. simpl in Hrep1.
  destruct (IH t' a1 db' Hrep1) as (a2 & Hrep2 & Hle2).
  - intros k. specialize (Hroom k). specialize (Hgrow k). simpl in Hroom. lia.
  - exists a2. split; [done | by etrans].
Qed.
End history.
