(* ===== verification/RedbStore.v ===== *)
(** * RedbStore: the redb backend

    Models [crates/msgbus-store-redb/src/lib.rs].  The database is the committed
    tables together with the tables of the write transaction in progress:
    [begin_write] copies the former to the latter, [commit] the other way, and a
    transaction that returns early, or fails, leaves the committed tables alone.
    Every call into the engine goes through [io] and may fail. *)

From Stdlib Require Import String NArith ZArith.
From stdpp Require Import base strings list gmap.
From S2P Require Import Prelude Strings Core Table RedbKeys Json.

(** ** Tables and transactions *)

Record Tables (T : Type → Type) := mkTables {
  MESSAGES : T bytes;
  HEADS : T N;
  FIFO_MESSAGES : T bytes;
  FIFO_SEQUENCES : T N;
  TOMBSTONES : T bytes;
  PEER_SYNC : T bytes;
}.
Arguments mkTables {T} _ _ _ _ _ _.
Arguments MESSAGES {T} _.
Arguments HEADS {T} _.
Arguments FIFO_MESSAGES {T} _.
Arguments FIFO_SEQUENCES {T} _.
Arguments TOMBSTONES {T} _.
Arguments PEER_SYNC {T} _.

Record RedbStore (T : Type → Type) := mkRedb {
  committed : Tables T;
  txn : Tables T;
}.
Arguments mkRedb {T} _ _.
Arguments committed {T} _.
Arguments txn {T} _.

Definition storage_err (err : string) : MsgbusError := Storage err.

Inductive FifoFrontAction : Type := Ack | Reject.

Section redb.
Context {T : Type → Type} {OT : OrderedTable T} {B64 : Base64}.
Context {JM : Json StoredMessage} {JF : Json StoredFifoMessage}
        {JT : Json TombstoneRange} {JP : Json PeerSyncState}.

Abbreviation Txn := (M MsgbusError (Tables T)).
Abbreviation Op := (M MsgbusError (RedbStore T)).

Definition set_MESSAGES (t : T bytes) (s : Tables T) : Tables T :=
  mkTables t (HEADS s) (FIFO_MESSAGES s) (FIFO_SEQUENCES s) (TOMBSTONES s) (PEER_SYNC s).
Definition set_HEADS (t : T N) (s : Tables T) : Tables T :=
  mkTables (MESSAGES s) t (FIFO_MESSAGES s) (FIFO_SEQUENCES s) (TOMBSTONES s) (PEER_SYNC s).
Definition set_FIFO_MESSAGES (t : T bytes) (s : Tables T) : Tables T :=
  mkTables (MESSAGES s) (HEADS s) t (FIFO_SEQUENCES s) (TOMBSTONES s) (PEER_SYNC s).
Definition set_FIFO_SEQUENCES (t : T N) (s : Tables T) : Tables T :=
  mkTables (MESSAGES s) (HEADS s) (FIFO_MESSAGES s) t (TOMBSTONES s) (PEER_SYNC s).
Definition set_TOMBSTONES (t : T bytes) (s : Tables T) : Tables T :=
  mkTables (MESSAGES s) (HEADS s) (FIFO_MESSAGES s) (FIFO_SEQUENCES s) t (PEER_SYNC s).
Definition set_PEER_SYNC (t : T bytes) (s : Tables T) : Tables T :=
  mkTables (MESSAGES s) (HEADS s) (FIFO_MESSAGES s) (FIFO_SEQUENCES s) (TOMBSTONES s) t.

(** [txn.open_table(X).map_err(storage_err)?] *)
Definition open_table : Txn unit := io storage_err.

(** [table.get(key).map_err(storage_err)?] *)
Definition table_get {V} (sel : Tables T → T V) (key : string) : Txn (option V) :=
  io storage_err;;
  s ← get_state;
  mret (tbl_get key (sel s)).

(** [table.range(start..).map_err(storage_err)?] *)
Definition table_range {V} (sel : Tables T → T V) (start : string)
    : Txn (list (string * V)) :=
  io storage_err;;
  s ← get_state;
  mret (tbl_range start (sel s)).

(** [table.insert(key, value).map_err(storage_err)?], and [remove] *)
Definition table_insert {V} (sel : Tables T → T V) (set : T V → Tables T → Tables T)
    (key : string) (value : V) : Txn unit :=
  io storage_err;;
  modify (λ s, set (tbl_insert key value (sel s)) s).

Definition table_remove {V} (sel : Tables T → T V) (set : T V → Tables T → Tables T)
    (key : string) : Txn unit :=
  io storage_err;;
  modify (λ s, set (tbl_remove key (sel s)) s).

(** [item.map_err(storage_err)?] on each item of a range iterator *)
Definition next_item : Txn unit := io storage_err.

Definition begin_write : Op unit :=
  io storage_err;; modify (λ s, mkRedb (committed s) (committed s)).
Definition commit : Op unit :=
  io storage_err;; modify (λ s, mkRedb (txn s) (txn s)).
Definition begin_read : Op unit := io storage_err.

(** Work of a write transaction, and of a read transaction (a snapshot of the
    committed tables). *)
Definition in_txn {A} (m : Txn A) : Op A :=
  zoom txn (λ t s, mkRedb (committed s) t) m.
Definition in_read {A} (m : Txn A) : Op A := zoom committed (λ _ s, s) m.

(** ** Opening: [initialize] creates the six tables *)

Definition initialize : Op unit :=
  begin_write;;
  in_txn (open_table;; open_table;; open_table;; open_table;; open_table;; open_table);;
  commit.

(** [Database::create] makes an empty database or opens the existing one. *)
Definition redb_open : Op unit := io storage_err;; initialize.

Definition empty_tables : Tables T :=
  mkTables tbl_empty tbl_empty tbl_empty tbl_empty tbl_empty tbl_empty.
Definition empty_db : RedbStore T := mkRedb empty_tables empty_tables.

(** ** Helpers *)

Definition effective_limit (limit : N) : nat :=
  if (limit =? 0)%N then 100%nat else N.to_nat (N.min limit 10000).

Definition current_head_in_txn (topic : Topic) (origin : NodeId) : Txn N :=
  open_table;;
  v ← table_get HEADS (head_key topic origin);
  mret (default 0%N v).

Definition apply_tombstone_markers (message : StoredMessage) : Txn StoredMessage :=
  if sm_deleted message then mret message
  else
    open_table;;
    let prefix := tombstone_prefix (sm_topic message) (sm_origin message) in
    items ← table_range TOMBSTONES prefix;
    for_each items (λ '(key, value) message,
      next_item;;
      if negb (starts_with prefix key) then mret (Break message)
      else
        tombstone ← of_result (decode value);
        if (tr_from_head_id tombstone <=? sm_head_id message)%N
           && (sm_head_id message <=? tr_to_head_id tombstone)%N
        then mret (Break (set_deleted true message))
        else mret (Continue message)) message.

Definition same_message_except_deleted (left right : StoredMessage) : bool :=
  bool_decide (sm_id left = sm_id right)
  && bool_decide (sm_topic left = sm_topic right)
  && bool_decide (sm_origin left = sm_origin right)
  && bool_decide (sm_head_id left = sm_head_id right)
  && bool_decide (sm_payload left = sm_payload right)
  && bool_decide (sm_headers left = sm_headers right)
  && bool_decide (sm_created_at_ms left = sm_created_at_ms right).

Definition append_message_in_txn (message : NewMessage) : Txn StoredMessage :=
  let key := head_key (nm_topic message) (nm_origin message) in
  open_table;;
  v ← table_get HEADS key;
  let next := u64_saturating_add (default 0%N v) 1 in
  table_insert HEADS set_HEADS key next;;
  now ← now_ms;
  let stored := mkStoredMessage (nm_id message) (nm_topic message) (nm_origin message) next
                  (nm_payload message) (nm_headers message) now false in
  stored ← apply_tombstone_markers stored;
  let key := message_key (sm_topic stored) (sm_origin stored) (sm_head_id stored) in
  encoded ← of_result (encode stored);
  open_table;;
  table_insert MESSAGES set_MESSAGES key encoded;;
  mret stored.

Definition tombstone_range_in_txn (topic : Topic) (origin : NodeId) (from to : HeadId)
    (created_at_ms : N) : Txn N :=
  let prefix := message_prefix topic origin in
  let start := message_key topic origin from in
  open_table;;
  items ← table_range MESSAGES start;
  updates ← for_each items (λ '(key, value) updates,
    next_item;;
    if negb (starts_with prefix key) then mret (Break updates)
    else
      message ← of_result (decode value);
      if (to <? sm_head_id message)%N then mret (Break updates)
      else if negb (sm_deleted message) then
        encoded ← of_result (encode (set_deleted true message));
        mret (Continue (updates ++ [(key, encoded)]))
      else mret (Continue updates)) [];
  changed ← for_each updates (λ '(key, value) changed,
    table_insert MESSAGES set_MESSAGES key value;;
    mret (Continue (u64_saturating_add changed 1))) 0%N;
  let tombstone := mkTombstoneRange topic origin from to created_at_ms in
  open_table;;
  let key := tombstone_key topic origin from to in
  value ← of_result (encode tombstone);
  table_insert TOMBSTONES set_TOMBSTONES key value;;
  mret changed.

(** ** Logs *)

Definition redb_append_message (message : NewMessage) : Op StoredMessage :=
  begin_write;;
  stored ← in_txn (append_message_in_txn message);
  commit;;
  mret stored.

Definition redb_fetch_messages (query : FetchQuery) : Op (list StoredMessage) :=
  begin_read;;
  in_read (
    open_table;;
    let prefix := message_prefix (fq_topic query) (fq_origin query) in
    let start := message_key (fq_topic query) (fq_origin query) (fq_from_head_id query) in
    items ← table_range MESSAGES start;
    for_each items (λ '(key, value) out,
      next_item;;
      if negb (starts_with prefix key) then mret (Break out)
      else
        message ← of_result (decode value);
        let out := out ++ [message] in
        if (effective_limit (fq_limit query) <=? length out)%nat then mret (Break out)
        else mret (Continue out)) []).

Definition redb_get_head (topic : Topic) (origin : NodeId) : Op (option HeadId) :=
  begin_read;;
  in_read (open_table;; table_get HEADS (head_key topic origin)).

Definition redb_list_heads : Op (list TopicHead) :=
  begin_read;;
  in_read (
    open_table;;
    open_table;;
    items ← table_range HEADS "";
    for_each items (λ '(key, head_id) out,
      next_item;;
      parts ← of_result (head_key_parts key);
      let '(topic_part, origin_part) := parts in
      v ← table_get MESSAGES (raw_message_key topic_part origin_part head_id);
      value ← of_result (ok_or (Storage ("head entry has no message: " +:+ key)) v);
      message ← of_result (decode value);
      mret (Continue (out ++ [mkTopicHead (sm_topic message) (sm_origin message) head_id])))
    []).

(** The common tail of the two accepting branches of [put_replicated_message]:
    write the entry, raise the head if it grew, commit. *)
Definition store_and_finish (message : StoredMessage) (key : string) : Op ReplicateResult :=
  encoded ← of_result (encode message);
  in_txn (table_insert MESSAGES set_MESSAGES key encoded);;
  in_txn open_table;;
  let head_key := head_key (sm_topic message) (sm_origin message) in
  cur ← in_txn (table_get HEADS head_key);
  (if (default 0%N cur <? sm_head_id message)%N
   then in_txn (table_insert HEADS set_HEADS head_key (sm_head_id message))
   else mret tt);;
  commit;;
  mret Inserted.

Definition redb_put_replicated_message (message : StoredMessage) : Op ReplicateResult :=
  if (sm_head_id message =? 0)%N
  then throw (InvalidArgument "replicated message head_id must be greater than zero")
  else
    begin_write;;
    message ← in_txn (apply_tombstone_markers message);
    let key := message_key (sm_topic message) (sm_origin message) (sm_head_id message) in
    current_head ← in_txn (current_head_in_txn (sm_topic message) (sm_origin message));
    in_txn open_table;;
    v ← in_txn (table_get MESSAGES key);
    existing ← of_result (transpose (decode <$> v));
    let location := "topic=" +:+ topic_str (sm_topic message) +:+ " origin="
                      +:+ NodeId.key (sm_origin message) in
    match existing with
    | Some existing =>
        if bool_decide (existing = message) then mret AlreadyPresent
        else if same_message_except_deleted existing message && sm_deleted message
        then store_and_finish message key
        else throw (Conflict ("message conflict at " +:+ location +:+ " head_id="
                                +:+ fmt_u64 (sm_head_id message)))
    | None =>
        if (u64_saturating_add current_head 1 <? sm_head_id message)%N
        then throw (InvalidArgument ("replicated message would create a gap at " +:+ location
                      +:+ " local_head=" +:+ fmt_u64 current_head
                      +:+ " incoming_head=" +:+ fmt_u64 (sm_head_id message)))
        else store_and_finish message key
    end.

Definition redb_tombstone_range (topic : Topic) (origin : NodeId) (from to : HeadId)
    : Op N :=
  if (to <? from)%N
  then throw (InvalidArgument "from_head_id must be <= to_head_id")
  else
    begin_write;;
    now ← now_ms;
    changed ← in_txn (tombstone_range_in_txn topic origin from to now);
    commit;;
    mret changed.

Definition redb_tombstone_range_with_marker (topic : Topic) (origin : NodeId)
    (from to : HeadId) (marker_topic : Topic) (marker_origin : NodeId)
    : Op (N * StoredMessage) :=
  if (to <? from)%N
  then throw (InvalidArgument "from_head_id must be <= to_head_id")
  else
    begin_write;;
    created_at_ms ← now_ms;
    changed ← in_txn (tombstone_range_in_txn topic origin from to created_at_ms);
    let tombstone := mkTombstoneRange topic origin from to created_at_ms in
    payload ← of_result (encode tombstone);
    message ← NewMessage_new marker_topic marker_origin payload ∅;
    marker ← in_txn (append_message_in_txn message);
    commit;;
    mret (changed, marker).

(** ** Queues *)

Definition redb_enqueue_fifo (message : NewFifoMessage) : Op StoredFifoMessage :=
  begin_write;;
  in_txn open_table;;
  let sequence_key := fifo_sequence_key (nf_queue message) in
  v ← in_txn (table_get FIFO_SEQUENCES sequence_key);
  let sequence := u64_saturating_add (default 0%N v) 1 in
  in_txn (table_insert FIFO_SEQUENCES set_FIFO_SEQUENCES sequence_key sequence);;
  now ← now_ms;
  let stored := mkStoredFifoMessage (nf_id message) (nf_queue message) (nf_topic message)
                  (nf_source message) (nf_target message) (nf_payload message)
                  (nf_headers message) now sequence 0 in
  let key := fifo_message_key (sf_queue stored) (sf_sequence stored) in
  value ← of_result (encode stored);
  in_txn open_table;;
  in_txn (table_insert FIFO_MESSAGES set_FIFO_MESSAGES key value);;
  commit;;
  mret stored.

Definition redb_peek_fifo (queue : QueueName) : Op (option StoredFifoMessage) :=
  begin_read;;
  in_read (
    open_table;;
    let prefix := fifo_prefix queue in
    items ← table_range FIFO_MESSAGES prefix;
    match items with
    | (key, value) :: _ =>
        next_item;;
        if starts_with prefix key
        then message ← of_result (decode value); mret (Some message)
        else mret None
    | [] => mret None
    end).

Definition update_fifo_front (queue : QueueName) (message_id : MessageId)
    (action : FifoFrontAction) : Op bool :=
  begin_write;;
  accepted ← in_txn (
    open_table;;
    let prefix := fifo_prefix queue in
    items ← table_range FIFO_MESSAGES prefix;
    front ← match items with
            | (key, value) :: _ =>
                next_item;;
                if starts_with prefix key
                then message ← of_result (decode value); mret (Some (key, message))
                else mret None
            | [] => mret None
            end;
    match front with
    | Some (key, message) =>
        if bool_decide (sf_id message = message_id) then
          match action with
          | Ack => table_remove FIFO_MESSAGES set_FIFO_MESSAGES key
          | Reject =>
              let message :=
                set_attempts (u32_saturating_add (sf_attempts message) 1) message in
              value ← of_result (encode message);
              table_insert FIFO_MESSAGES set_FIFO_MESSAGES key value
          end;;
          mret true
        else mret false
    | None => mret false
    end);
  commit;;
  mret accepted.

Definition redb_ack_fifo (queue : QueueName) (message_id : MessageId) : Op bool :=
  update_fifo_front queue message_id Ack.

Definition redb_reject_fifo (queue : QueueName) (message_id : MessageId) : Op bool :=
  update_fifo_front queue message_id Reject.

(** ** Sync states *)

Definition redb_record_peer_sync_state (state : PeerSyncState) : Op unit :=
  begin_write;;
  in_txn (
    open_table;;
    let key := peer_sync_key state in
    v ← table_get PEER_SYNC key;
    previous ← of_result (transpose (decode <$> v));
    let '(last_success, failures) :=
      match ps_last_error state with
      | Some _ =>
          match previous with
          | Some previous =>
              (if (ps_last_success_at_ms state =? 0)%N
               then ps_last_success_at_ms previous else ps_last_success_at_ms state,
               u32_saturating_add (ps_consecutive_failures previous) 1)
          | None => (ps_last_success_at_ms state, 1%N)
          end
      | None => (ps_last_success_at_ms state, 0%N)
      end in
    let state :=
      mkPeerSyncState (ps_peer state) (ps_topic state) (ps_origin state)
        (ps_local_head state) (ps_remote_head state) (ps_last_synced_head state)
        (ps_last_attempt_at_ms state) last_success failures (ps_last_error state) in
    encoded ← of_result (encode state);
    table_insert PEER_SYNC set_PEER_SYNC key encoded);;
  commit.

Definition redb_list_peer_sync_states : Op (list PeerSyncState) :=
  begin_read;;
  in_read (
    open_table;;
    items ← table_range PEER_SYNC "";
    for_each items (λ '(_, value) states,
      next_item;;
      state ← of_result (decode value);
      mret (Continue (states ++ [state]))) []).

#[export] Instance redb_store : MsgbusStore (RedbStore T) := {|
  append_message := redb_append_message;
  fetch_messages := redb_fetch_messages;
  get_head := redb_get_head;
  list_heads := redb_list_heads;
  put_replicated_message := redb_put_replicated_message;
  tombstone_range := redb_tombstone_range;
  tombstone_range_with_marker := redb_tombstone_range_with_marker;
  enqueue_fifo := redb_enqueue_fifo;
  peek_fifo := redb_peek_fifo;
  ack_fifo := redb_ack_fifo;
  reject_fifo := redb_reject_fifo;
  record_peer_sync_state := redb_record_peer_sync_state;
  list_peer_sync_states := redb_list_peer_sync_states;
|}.
End redb.
