(* ===== verification/RedbRep.v ===== *)
(** * RedbRep: how redb tables represent the abstract store

    The representation relation between the six tables and an [AbsStore], one
    component per table, and how each table update changes it. *)

From Stdlib Require Import String NArith ZArith Lia Sorting.Sorted.
From stdpp Require Import base strings list gmap sorting.
From S2P Require Import Prelude Strings Core Table RedbKeys Json Spec SpecFacts RedbStore.

Section rep.
Context {T : Type → Type} {OT : OrderedTable T} {OTL : OrderedTableLaws T}.
Context {B64 : Base64} {B64L : Base64Laws}.
Context {JM : Json StoredMessage} {JML : JsonLaws StoredMessage}.
Context {JF : Json StoredFifoMessage} {JFL : JsonLaws StoredFifoMessage}.
Context {JT : Json TombstoneRange} {JTL : JsonLaws TombstoneRange}.
Context {JP : Json PeerSyncState} {JPL : JsonLaws PeerSyncState}.

Implicit Types (a : AbsStore) (t o q k : string).

Definition numbered (l : list StoredMessage) : list (N * bytes) :=
  (λ m, (sm_head_id m, enc_of m)) <$> l.

Definition queue_entries (l : list StoredFifoMessage) : list (N * bytes) :=
  (λ m, (sf_sequence m, enc_of m)) <$> l.

Definition logs_rep a (tbl : T bytes) : Prop :=
  ∀ t o, segment (message_prefix_of t o) (numbered (log_of a (t, o))) tbl.

Definition heads_rep a (tbl : T N) : Prop :=
  ∀ k n, tbl_get k tbl = Some n ↔
    ∃ t o, k = head_key_of t o ∧ n = log_head (log_of a (t, o)) ∧ n ≠ 0%N.

Record tombs_rep a (tbl : T bytes) : Prop := {
  tombs_sound : ∀ t o r v, tbl_get (tombstone_prefix_of t o +:+ r) tbl = Some v →
    ∃ tr, v = enc_of tr ∧ (tr_from_head_id tr, tr_to_head_id tr) ∈ tombs_of a (t, o);
  tombs_complete : ∀ t o f u, (f, u) ∈ tombs_of a (t, o) →
    ∃ tr, tbl_get (tombstone_prefix_of t o +:+ fmt_020 f +:+ "-" +:+ fmt_020 u) tbl
            = Some (enc_of tr) ∧ tr_from_head_id tr = f ∧ tr_to_head_id tr = u;
}.

Definition queues_rep a (tbl : T bytes) : Prop :=
  ∀ q, segment (fifo_prefix_of q) (queue_entries (queue_of a q)) tbl.

Definition seqs_rep a (tbl : T N) : Prop :=
  ∀ q, default 0%N (tbl_get (fifo_sequence_key_of q) tbl) = seq_of a q.

Definition sync_rep a (tbl : T bytes) : Prop :=
  ∀ k v, tbl_get k tbl = Some v ↔
    ∃ s, a_sync a !! sync_id s = Some s ∧ k = peer_sync_key s ∧ v = enc_of s.

Record redb_rep a (s : Tables T) : Prop := {
  rr_wf : wf a;
  rr_logs : logs_rep a (MESSAGES s);
  rr_heads : heads_rep a (HEADS s);
  rr_tombs : tombs_rep a (TOMBSTONES s);
  rr_queues : queues_rep a (FIFO_MESSAGES s);
  rr_seqs : seqs_rep a (FIFO_SEQUENCES s);
  rr_sync : sync_rep a (PEER_SYNC s);
}.

Lemma empty_rep : redb_rep abs_empty empty_tables.
Proof.
  split; simpl.
  - apply wf_empty.
  - intros t o. apply segment_empty.
  - intros k n. rewrite tbl_get_empty. split; [done|]. by intros (t & o & _ & -> & ?).
  - split; intros t o *; [by rewrite tbl_get_empty | by intros ?%elem_of_empty].
  - intros q. apply segment_empty.
  - intros q. by rewrite tbl_get_empty.
  - intros k v. rewrite tbl_get_empty. split; [done|]. by intros (s & Hs & _).
Qed.

(** ** Logs *)

Lemma numbered_fst_lt a t o h :
  wf a → (log_head (log_of a (t, o)) < h)%N →
  Forall (λ x : N * bytes, (x.1 < h)%N) (numbered (log_of a (t, o))).
Proof.
  intros Hwf Hh. apply Forall_fmap, Forall_forall. intros m (i & Hi)%list_elem_of_lookup. simpl.
  destruct (wf_entry _ Hwf _ _ _ Hi) as [-> _]. apply lookup_lt_Some in Hi.
  unfold log_head in Hh. lia.
Qed.

Lemma numbered_log_put a t o h m :
  wf a → (1 ≤ h ≤ log_head (log_of a (t, o)))%N → sm_head_id m = h →
  numbered (log_put h m (log_of a (t, o)))
  = renumber h (enc_of m) (numbered (log_of a (t, o))) ∧
  h ∈ (numbered (log_of a (t, o))).*1.
Proof.
  intros Hwf Hh Hmh. set (l := log_of a (t, o)) in *.
  destruct (lookup_lt_is_Some_2 l (N.to_nat h - 1)) as [m0 Hm0].
  { unfold log_head in Hh. lia. }
  assert (sm_head_id m0 = h) as Hm0h.
  { destruct (wf_entry _ Hwf _ _ _ Hm0) as [-> _]. lia. }
  split.
  - apply list_eq. intros i. unfold numbered, renumber.
    rewrite !list_lookup_fmap, log_put_lookup by lia. case_decide as Hi.
    + subst i. rewrite Hm0. simpl. by rewrite Hm0h, decide_True, Hmh.
    + destruct (l !! i) as [mi|] eqn:Hl; [|done]. simpl.
      destruct (wf_entry _ Hwf _ _ _ Hl) as [Hhi _].
      rewrite decide_False; [done|]. lia.
  - unfold numbered. rewrite <- list_fmap_compose. apply list_elem_of_fmap. exists m0.
    split; [done|]. apply list_elem_of_lookup. eauto.
Qed.

Lemma logs_rep_put a tbl t o h m :
  wf a → logs_rep a tbl → (1 ≤ h ≤ log_head (log_of a (t, o)) + 1)%N → is_u64 h →
  sm_head_id m = h →
  logs_rep (set_log (t, o) (log_put h m (log_of a (t, o))) a)
    (tbl_insert (message_prefix_of t o +:+ fmt_020 h) (enc_of m) tbl).
Proof.
  intros Hwf Hrep Hh Hu Hmh t' o'. rewrite log_of_set_log. case_decide as Heq.
  - simplify_eq. destruct (decide (sm_head_id m = log_head (log_of a (t', o')) + 1)%N) as [He|Hne].
    + rewrite He, log_put_snoc. unfold numbered. rewrite fmap_app. simpl.
      rewrite He. apply segment_snoc; [apply Hrep| |by rewrite <- He].
      apply (numbered_fst_lt a); [done | lia].
    + destruct (numbered_log_put a t' o' (sm_head_id m) m) as [-> ?]; [done|lia|done|].
      by apply segment_renumber.
  - apply segment_insert_other; [|apply Hrep]. apply message_prefix_other. congruence.
Qed.

(** ** Heads *)

Lemma heads_rep_get a tbl t o :
  heads_rep a tbl →
  tbl_get (head_key_of t o) tbl =
    if (log_head (log_of a (t, o)) =? 0)%N then None else Some (log_head (log_of a (t, o))).
Proof.
  intros Hrep. destruct (N.eqb_spec (log_head (log_of a (t, o))) 0) as [Hz|Hnz].
  - destruct (tbl_get _ _) as [n|] eqn:Hg; [|done]. exfalso.
    apply Hrep in Hg as (t' & o' & [<- <-]%head_key_inj & -> & ?). done.
  - apply Hrep. by exists t, o.
Qed.

Lemma heads_rep_default a tbl t o :
  heads_rep a tbl → default 0%N (tbl_get (head_key_of t o) tbl) = log_head (log_of a (t, o)).
Proof.
  intros Hrep. rewrite (heads_rep_get a) by done.
  destruct (N.eqb_spec (log_head (log_of a (t, o))) 0); simpl; lia.
Qed.

(** Writing the head of a log that has just been extended to [n]. *)
Lemma heads_rep_insert a tbl t o l :
  heads_rep a tbl → log_head l ≠ 0%N →
  heads_rep (set_log (t, o) l a) (tbl_insert (head_key_of t o) (log_head l) tbl).
Proof.
  intros Hrep Hl k n. rewrite tbl_get_insert. case_decide as Hk.
  - subst k. split.
    + intros [= <-]. exists t, o. by rewrite log_of_set_log, decide_True.
    + intros (t' & o' & [<- <-]%head_key_inj & -> & _). by rewrite log_of_set_log, decide_True.
  - rewrite (Hrep k n). split; intros (t' & o' & -> & Hn & ?); exists t', o'.
    + rewrite log_of_set_log, decide_False; [done|]. congruence.
    + rewrite log_of_set_log, decide_False in Hn; [done|]. congruence.
Qed.

(** Rewriting entries without changing the length leaves the heads alone. *)
Lemma heads_rep_same a tbl t o l :
  heads_rep a tbl → log_head l = log_head (log_of a (t, o)) →
  heads_rep (set_log (t, o) l a) tbl.
Proof.
  intros Hrep Hl k n. rewrite (Hrep k n).
  assert (∀ t' o', log_head (log_of (set_log (t, o) l a) (t', o')) = log_head (log_of a (t', o')))
    as Hlen.
  { intros t' o'. rewrite log_of_set_log. case_decide; [|done]. by simplify_eq. }
  by setoid_rewrite Hlen.
Qed.

(** ** Tombstones *)

Lemma tombs_rep_insert a tbl t o tr :
  tombs_rep a tbl → is_u64 (tr_from_head_id tr) → is_u64 (tr_to_head_id tr) → wf a →
  tombs_rep (set_tombs (t, o)
               ({[(tr_from_head_id tr, tr_to_head_id tr)]} ∪ tombs_of a (t, o)) a)
    (tbl_insert (tombstone_prefix_of t o +:+ fmt_020 (tr_from_head_id tr) +:+ "-"
                   +:+ fmt_020 (tr_to_head_id tr)) (enc_of tr) tbl).
Proof.
  intros [Hsound Hcomp] Hf Hu Hwf. split; intros t' o' x v.
  - rewrite tbl_get_insert. case_decide as Hk.
    + intros [= <-]. exists tr. split; [done|].
      apply tombstone_prefix_inj in Hk as (-> & -> & _).
      rewrite tombs_of_set_tombs, decide_True by done. set_solver.
    + intros (tr' & -> & Hin)%Hsound. exists tr'. split; [done|].
      rewrite tombs_of_set_tombs. case_decide; [simplify_eq; set_solver | done].
  - intros Hin. rewrite tbl_get_insert. case_decide as Hk.
    + exists tr. split; [done|]. apply tombstone_prefix_inj in Hk as (<- & <- & Hk).
      rewrite tombs_of_set_tombs, decide_True in Hin by done.
      assert (is_u64 x ∧ is_u64 v) as [Hx Hv].
      { apply elem_of_union in Hin as [Hin|Hin].
        - apply elem_of_singleton in Hin. by simplify_eq.
        - by apply (wf_tomb_u64 _ Hwf) in Hin. }
      apply fmt_020_inj in Hk as [-> Hk]; [|done..]. split; [done|].
      apply (inj (String.app "-")) in Hk.
      destruct (fmt_020_inj (tr_to_head_id tr) v "" "") as [-> _]; [done..|by rewrite Hk|done].
    + rewrite tombs_of_set_tombs in Hin. case_decide as Heq; [|by apply Hcomp].
      simplify_eq. apply elem_of_union in Hin as [Hin|Hin]; [|by apply Hcomp].
      apply elem_of_singleton in Hin. by simplify_eq.
Qed.

Lemma tombs_rep_ext a a' tbl :
  (∀ lk, tombs_of a' lk = tombs_of a lk) → tombs_rep a tbl → tombs_rep a' tbl.
Proof.
  intros Heq [Hs Hc]. split; intros t o *; rewrite Heq; [apply Hs | apply Hc].
Qed.

(** ** Queues *)

Lemma queues_rep_other a q n l tbl k v :
  queues_rep a tbl → (∃ r, k = fifo_prefix_of q +:+ r) →
  (segment (fifo_prefix_of q) (queue_entries l) (tbl_insert k v tbl)) →
  queues_rep (set_queue q n l a) (tbl_insert k v tbl).
Proof.
  intros Hrep [r ->] Hseg q'. rewrite queue_of_set_queue. case_decide; [by subst|].
  apply segment_insert_other; [|apply Hrep]. by apply fifo_prefix_other.
Qed.

Lemma queue_entries_lt a q n :
  wf a → (seq_of a q < n)%N →
  Forall (λ x : N * bytes, (x.1 < n)%N) (queue_entries (queue_of a q)).
Proof.
  intros Hwf Hn. apply Forall_fmap, Forall_forall. intros m Hm. simpl.
  destruct (wf_queue_entry _ Hwf _ _ Hm). lia.
Qed.

Lemma seqs_rep_insert a tbl q n l :
  seqs_rep a tbl → seqs_rep (set_queue q n l a) (tbl_insert (fifo_sequence_key_of q) n tbl).
Proof.
  intros Hrep q'. rewrite tbl_get_insert, seq_of_set_queue.
  case_decide as Hk; case_decide as Hq; [done| | |apply Hrep].
  - by apply fifo_sequence_key_inj in Hk.
  - by subst.
Qed.

Lemma seqs_rep_same a tbl q l :
  seqs_rep a tbl → seqs_rep (set_queue q (seq_of a q) l a) tbl.
Proof.
  intros Hrep q'. rewrite seq_of_set_queue. case_decide; [subst|]; apply Hrep.
Qed.

(** ** Sync states *)

(** On states that name topic and origin together or not at all, the table key
    identifies peer, topic and origin: the placeholder "-" is no node key. *)
Lemma peer_sync_key_inj s1 s2 :
  paired s1 → paired s2 → peer_sync_key s1 = peer_sync_key s2 → sync_id s1 = sync_id s2.
Proof.
  unfold peer_sync_key, sync_id, paired. intros H1 H2 H%(inj (String.app "peer-sync/")).
  apply sep_inj1 in H as [-> H]. apply sep_inj1 in H as [Ht H].
  apply b64_inj in H.
  assert (∀ n, "-" ≠ NodeId.key n) as Hdash.
  { intros n Hn. pose proof (key_contains_slash n) as Hc. by rewrite <- Hn in Hc. }
  destruct (ps_origin s1) as [o1|], (ps_origin s2) as [o2|]; simpl in *.
  - destruct (proj2 H1 ltac:(eauto)) as [t1 Et1], (proj2 H2 ltac:(eauto)) as [t2 Et2].
    rewrite Et1, Et2 in *. simpl. congruence.
  - by destruct (Hdash o1).
  - by destruct (Hdash o2).
  - destruct (ps_topic s1); [by destruct (proj1 H1 ltac:(eauto))|].
    destruct (ps_topic s2); [by destruct (proj1 H2 ltac:(eauto))|]. done.
Qed.

Lemma sync_rep_get a tbl s :
  wf a → sync_rep a tbl → paired s →
  tbl_get (peer_sync_key s) tbl = enc_of <$> (a_sync a !! sync_id s).
Proof.
  intros Hwf Hrep Hp. destruct (a_sync a !! sync_id s) as [s'|] eqn:Hs; simpl.
  - apply Hrep. destruct (wf_sync _ Hwf _ _ Hs) as [Hid Hp'].
    exists s'. rewrite Hid. split; [done|]. split; [|done].
    unfold peer_sync_key, sync_id in *. simplify_eq. f_equal. f_equal. congruence.
    f_equal. f_equal.
    + by destruct (ps_topic s) as [[]|], (ps_topic s') as [[]|]; simplify_eq/=.
    + destruct (ps_origin s), (ps_origin s'); simplify_eq/=; congruence.
  - destruct (tbl_get _ _) as [v|] eqn:Hg; [|done]. exfalso.
    apply Hrep in Hg as (s' & Hs' & Hk & _).
    apply peer_sync_key_inj in Hk; [congruence | done |]. by apply (wf_sync _ Hwf) in Hs' as [].
Qed.

Lemma sync_rep_insert a tbl s s' :
  wf a → sync_rep a tbl → paired s → sync_id s' = sync_id s → peer_sync_key s' = peer_sync_key s →
  sync_rep (set_sync (sync_id s) s' a) (tbl_insert (peer_sync_key s) (enc_of s') tbl).
Proof.
  intros Hwf Hrep Hp Hid Hkey k v. simpl. rewrite tbl_get_insert. case_decide as Hk.
  - subst k. split.
    + intros [= <-]. exists s'. by rewrite Hid, lookup_insert_eq.
    + intros (s2 & Hs2 & Hk2 & ->). f_equal. f_equal.
      rewrite lookup_insert in Hs2. case_decide as Hd; [by simplify_eq|].
      destruct Hd. apply peer_sync_key_inj; [done| |done].
      by apply (wf_sync _ Hwf) in Hs2 as [].
  - rewrite (Hrep k v). split; intros (s2 & Hs2 & -> & ->); exists s2.
    + rewrite lookup_insert_ne; [done|]. intros Heq.
      pose proof (sync_rep_get a tbl s Hwf Hrep Hp) as Hg1.
      rewrite Heq, Hs2 in Hg1. simpl in Hg1.
      apply Hrep in Hg1 as (s3 & Hs3 & Hk3 & He3). apply enc_of_inj in He3 as ->.
      by destruct Hk.
    + rewrite lookup_insert in Hs2. by case_decide; simplify_eq.
Qed.
End rep.
