(* ===== verification/RedbRefine.v ===== *)
(** * RedbRefine: the redb backend implements the store specification

    Total-correctness lemmas for the transaction helpers of the redb store, and
    the refinement theorem for all thirteen operations. *)

From Stdlib Require Import String NArith ZArith Lia Sorting.Sorted.
From stdpp Require Import base strings list gmap sorting.
From S2P Require Import Prelude Strings Core Table RedbKeys Json Spec SpecFacts RedbStore RedbRep.

Section refine.
Context {T : Type → Type} {OT : OrderedTable T} {OTL : OrderedTableLaws T}.
Context {B64 : Base64} {B64L : Base64Laws}.
Context {JM : Json StoredMessage} {JML : JsonLaws StoredMessage}.
Context {JF : Json StoredFifoMessage} {JFL : JsonLaws StoredFifoMessage}.
Context {JT : Json TombstoneRange} {JTL : JsonLaws TombstoneRange}.
Context {JP : Json PeerSyncState} {JPL : JsonLaws PeerSyncState}.
Context (e : Env).

Implicit Types (a : AbsStore) (s : Tables T).

(** ** Engine calls

    A failure of a call is a fault of the environment; what the transaction
    tables hold at that point does not matter. *)
Definition on_fault {S A} (Q : result MsgbusError A → S → Prop) (s : S) : Prop :=
  ∀ msg, has_fault e → Q (Err (Storage msg)) s.

Lemma wp_open_table (Q : result MsgbusError unit → Tables T → Prop) s :
  Q (Ok tt) s → on_fault Q s → wp e open_table Q s.
Proof. intros HQ Hf. apply wp_io; [done | exact Hf]. Qed.

Lemma wp_next_item (Q : result MsgbusError unit → Tables T → Prop) s :
  Q (Ok tt) s → on_fault Q s → wp e next_item Q s.
Proof. intros HQ Hf. apply wp_io; [done | exact Hf]. Qed.

Lemma wp_table_get {V} (sel : Tables T → T V) k (Q : result MsgbusError (option V) → Tables T → Prop) s :
  Q (Ok (tbl_get k (sel s))) s → on_fault Q s → wp e (table_get sel k) Q s.
Proof. intros HQ Hf. unfold table_get. wp_run; first [done | by apply Hf]. Qed.

Lemma wp_table_range {V} (sel : Tables T → T V) k
    (Q : result MsgbusError (list (string * V)) → Tables T → Prop) s :
  Q (Ok (tbl_range k (sel s))) s → on_fault Q s → wp e (table_range sel k) Q s.
Proof. intros HQ Hf. unfold table_range. wp_run; first [done | by apply Hf]. Qed.

Lemma wp_table_insert {V} (sel : Tables T → T V) set k v
    (Q : result MsgbusError unit → Tables T → Prop) s :
  Q (Ok tt) (set (tbl_insert k v (sel s)) s) → on_fault Q s → wp e (table_insert sel set k v) Q s.
Proof. intros HQ Hf. unfold table_insert. wp_run; first [done | by apply Hf]. Qed.

Lemma wp_table_remove {V} (sel : Tables T → T V) set k
    (Q : result MsgbusError unit → Tables T → Prop) s :
  Q (Ok tt) (set (tbl_remove k (sel s)) s) → on_fault Q s → wp e (table_remove sel set k) Q s.
Proof. intros HQ Hf. unfold table_remove. wp_run; first [done | by apply Hf]. Qed.

(** ** Loops over a prefix *)

(** A loop over [range(start..)] that stops at the first key outside [p]
    visits [scan p start]; [I] is indexed by what is left of it. *)
Lemma wp_scan_loop {V A} (p : string) (items : list (string * V))
    (body : string → V → A → M MsgbusError (Tables T) (flow A)) (acc : A)
    (I : list (string * V) → A → Tables T → Prop) (Q : result MsgbusError A → Tables T → Prop) s :
  I (take_while (λ kv, starts_with p kv.1) items) acc s →
  (∀ k v l acc s, I ((k, v) :: l) acc s → starts_with p k = true →
     wp e (body k v acc) (λ r s', match r with
                                  | Ok (Continue x) => I l x s'
                                  | Ok (Break x) => Q (Ok x) s'
                                  | Err y => Q (Err y) s'
                                  end) s) →
  (∀ l acc s, I l acc s → on_fault Q s) →
  (∀ acc s, I [] acc s → Q (Ok acc) s) →
  wp e (for_each items (λ '(key, value) acc,
          next_item;;
          if negb (starts_with p key) then mret (Break acc) else body key value acc) acc) Q s.
Proof.
  intros HI Hbody Hf Hend. revert acc s HI.
  induction items as [|[k v] items IH]; intros acc s HI; simpl in *.
  { apply wp_ret. by apply Hend. }
  apply wp_bind. apply wp_bind. apply wp_next_item; [|intros msg Hfault; by eapply Hf].
  destruct (starts_with p k) eqn:Hp; simpl.
  - eapply wp_mono; [by apply (Hbody k v _ _ _ HI)|].
    intros [[x|x]|y] s' H; [by apply IH | by apply wp_ret | done].
  - apply wp_ret, wp_ret. by apply Hend.
Qed.

Lemma scan_prefix_elem (p k : string) {V} (v : V) (t : T V) :
  (k, v) ∈ scan p p t ↔ starts_with p k = true ∧ tbl_get k t = Some v.
Proof.
  rewrite <- (app_nil_r_string p) at 2. rewrite scan_elem, app_nil_r_string.
  split; [by intros (? & _ & ?)|]. intros [Hp Hg]. split; [done|]. split; [|done].
  apply starts_with_iff in Hp as [r ->]. apply sle_prefix.
Qed.

(** [apply_tombstone_markers] marks a message exactly when a stored range
    covers it, and changes no table. *)
Lemma wp_apply_tombstone_markers a s m (Q : result MsgbusError StoredMessage → Tables T → Prop) :
  wf a → tombs_rep a (TOMBSTONES s) → Q (Ok (mark a m)) s → on_fault Q s →
  wp e (apply_tombstone_markers m) Q s.
Proof.
  intros Hwf [Hsound Hcomp] HQ Hf. unfold apply_tombstone_markers.
  destruct (sm_deleted m) eqn:Hdel.
  { apply wp_ret. by rewrite mark_of_deleted in HQ. }
  apply wp_bind, wp_open_table; [|done]. apply wp_bind, wp_table_range; [|done].
  set (p := tombstone_prefix (sm_topic m) (sm_origin m)).
  change p with (tombstone_prefix_of (topic_str (sm_topic m)) (NodeId.key (sm_origin m))) in *.
  set (p' := tombstone_prefix_of _ _).
  set (covers := λ kv : string * bytes, ∃ tr, kv.2 = enc_of tr ∧
         (tr_from_head_id tr ≤ sm_head_id m ≤ tr_to_head_id tr)%N).
  assert (∀ kv, kv ∈ scan p' p' (TOMBSTONES s) → covers kv →
            covered (tombs_of a (msg_key m)) (sm_head_id m) = true) as Hcov.
  { intros [k v] Hin (tr & Hv & Hr). apply scan_prefix_elem in Hin as [[r ->]%starts_with_iff Hg].
    apply Hsound in Hg as (tr' & Htr' & Hin). simpl in Hv.
    rewrite Hv in Htr'. apply enc_of_inj in Htr' as <-. apply covered_iff. eauto. }
  apply (wp_scan_loop p' _ _ _ (λ l acc s', s' = s ∧ acc = m ∧
           ∃ done, scan p' p' (TOMBSTONES s) = done ++ l ∧ Forall (λ kv, ¬ covers kv) done)).
  - split; [done|]. split; [done|]. by exists [].
  - intros k v l acc s' (-> & -> & dn & Heq & Hdn) Hk.
    assert ((k, v) ∈ scan p' p' (TOMBSTONES s)) as Hin by (rewrite Heq; set_solver).
    pose proof Hin as Hin'. apply scan_prefix_elem in Hin' as [[r ->]%starts_with_iff Hg].
    apply Hsound in Hg as (tr & -> & Htr). rewrite decode_enc_of.
    apply wp_bind, wp_of_result.
    destruct (_ && _) eqn:Hr; apply wp_ret.
    + apply andb_true_iff in Hr as [H1%N.leb_le H2%N.leb_le].
      assert (mark a m = set_deleted true m) as <-; [|done].
      unfold mark. rewrite (Hcov _ Hin); [done|]. by exists tr.
    + split; [done|]. split; [done|]. exists (dn ++ [(p' +:+ r, enc_of tr)]).
      rewrite <- app_assoc. split; [done|]. apply Forall_app. split; [done|].
      apply Forall_singleton. intros (tr' & He & Hr'). simpl in He.
      apply enc_of_inj in He as <-. apply andb_false_iff in Hr as [Hr|Hr];
        apply N.leb_gt in Hr; lia.
  - by intros l acc s' (-> & _).
  - intros acc s' (-> & -> & dn & Heq & Hdn). rewrite app_nil_r in Heq.
    assert (mark a m = m) as <-; [|done]. unfold mark.
    destruct (covered _ _) eqn:Hc; [|done]. exfalso.
    apply covered_iff in Hc as (f & u & Hin & Hr).
    apply Hcomp in Hin as (tr & Hg & <- & <-).
    rewrite <- Heq, Forall_forall in Hdn. eapply (Hdn (_, _)).
    + apply scan_prefix_elem. split; [apply starts_with_app | exact Hg].
    + by exists tr.
Qed.

(** ** Appending *)

Lemma wp_append_message_in_txn a s m (Q : result MsgbusError StoredMessage → Tables T → Prop) :
  redb_rep a s →
  (∀ now s', ticks e now → redb_rep (append_spec now m a).2 s' →
     Q (Ok (append_spec now m a).1) s') →
  (∀ s', on_fault Q s') →
  wp e (append_message_in_txn m) Q s.
Proof.
  intros Hrep HQ Hf. destruct Hrep as [Hwf Hlogs Hheads Htombs Hqueues Hseqs Hsync].
  unfold append_message_in_txn.
  apply wp_bind, wp_open_table; [|apply Hf]. apply wp_bind, wp_table_get; [|apply Hf].
  change (head_key (nm_topic m) (nm_origin m))
    with (head_key_of (topic_str (nm_topic m)) (NodeId.key (nm_origin m))).
  rewrite (heads_rep_default a) by done.
  set (k := key_of (nm_topic m) (nm_origin m)).
  change (topic_str (nm_topic m), NodeId.key (nm_origin m)) with k.
  set (h := u64_saturating_add (log_head (log_of a k)) 1).
  destruct (next_head_bounds (log_of a k) (wf_len _ Hwf k)) as [Hb Hu].
  apply wp_bind, wp_table_insert; [|apply Hf].
  apply wp_bind, wp_now_ms. intros now Hnow.
  specialize (HQ now). unfold append_spec in HQ. fold k in HQ. fold h in HQ. simpl in HQ.
  set (m0 := mkStoredMessage _ _ _ _ _ _ now false) in *.
  apply wp_bind, (wp_apply_tombstone_markers a); [done|done| |apply Hf].
  rewrite encode_ok. apply wp_bind, wp_of_result.
  apply wp_bind, wp_open_table; [|apply Hf].
  apply wp_bind, wp_table_insert; [|apply Hf]. apply wp_ret, HQ; [done|].
  assert (sm_head_id (mark a m0) = h) as Hmh by apply mark_head.
  assert (msg_key (mark a m0) = k) as Hmk by apply mark_key.
  unfold message_key. change (message_prefix (sm_topic (mark a m0)) (sm_origin (mark a m0)))
    with (message_prefix_of (msg_key (mark a m0)).1 (msg_key (mark a m0)).2).
  rewrite Hmk, Hmh. split; simpl.
  - apply (append_wf now m a Hwf).
  - by apply (logs_rep_put a _ k.1 k.2).
  - pose proof (heads_rep_insert a (HEADS s) k.1 k.2 (log_put h (mark a m0) (log_of a k)) Hheads)
      as Hins. unfold h in Hins at 1 3. rewrite log_head_put_next in Hins by apply Hwf.
    apply Hins. fold h. lia.
  - by apply (tombs_rep_ext a).
  - done.
  - done.
  - done.
Qed.

(** ** Tombstoning *)

Lemma numbered_filter from l :
  filter (λ x : N * bytes, (from ≤ x.1)%N) (numbered l)
  = numbered (filter (λ m, (from ≤ sm_head_id m)%N) l).
Proof.
  induction l as [|m l IH]; [done|]. unfold numbered in *. csimpl.
  rewrite !filter_cons. simpl. case_decide; csimpl; by rewrite IH.
Qed.

(** What the scan from [from] sees of a log. *)
Lemma scan_log a s t o from :
  logs_rep a (MESSAGES s) → is_u64 from →
  scan (message_prefix_of t o) (message_prefix_of t o +:+ fmt_020 from) (MESSAGES s)
  = key_entries (message_prefix_of t o)
      (numbered (filter (λ m, (from ≤ sm_head_id m)%N) (log_of a (t, o)))).
Proof.
  intros Hrep Hu. rewrite (scan_segment_from _ (numbered (log_of a (t, o)))) by done.
  by rewrite numbered_filter.
Qed.

(** Marking the entries whose numbers are in [X]. *)
Definition mark_set (X : gset N) (m : StoredMessage) : StoredMessage :=
  if decide (sm_head_id m ∈ X) then set_deleted true m else m.

Lemma mark_set_wf a k X : wf a → wf (set_log k (mark_set X <$> log_of a k) a).
Proof.
  intros Hwf. apply wf_set_log; [done| |].
  - intros i m. rewrite list_lookup_fmap. intros (m0 & Hm0 & ->)%fmap_Some.
    destruct (wf_entry _ Hwf _ _ _ Hm0) as [Hh Hk]. unfold mark_set.
    case_decide; (split; [done|split; [done|]]); [done|].
    apply (wf_tomb _ Hwf). apply list_elem_of_lookup. eauto.
  - unfold log_head. rewrite length_fmap. apply Hwf.
Qed.

Lemma mark_set_put a k X m :
  wf a → m ∈ log_of a k →
  log_put (sm_head_id m) (set_deleted true m) (mark_set X <$> log_of a k)
  = mark_set ({[sm_head_id m]} ∪ X) <$> log_of a k.
Proof.
  intros Hwf (i & Hi)%list_elem_of_lookup.
  destruct (wf_entry _ Hwf _ _ _ Hi) as [Hh _]. pose proof (lookup_lt_Some _ _ _ Hi) as Hlt.
  apply list_eq. intros j. rewrite log_put_lookup, !list_lookup_fmap.
  2:{ unfold log_head. rewrite length_fmap. lia. }
  case_decide as Hj.
  - replace j with i by lia. rewrite Hi. simpl. unfold mark_set. by rewrite decide_True by set_solver.
  - destruct (log_of a k !! j) as [m'|] eqn:Hm'; [|done]. simpl. f_equal. unfold mark_set.
    destruct (wf_entry _ Hwf _ _ _ Hm') as [Hh' _].
    destruct (decide (sm_head_id m' ∈ X)); [by rewrite decide_True by set_solver|].
    rewrite decide_False; [done|]. rewrite elem_of_union, elem_of_singleton. intros [?|?]; [lia|done].
Qed.

Lemma logs_rep_ext a a' tbl :
  (∀ k, log_of a' k = log_of a k) → logs_rep a tbl → logs_rep a' tbl.
Proof. intros Heq Hrep t o. rewrite Heq. apply Hrep. Qed.

Definition mark_updates (p : string) (ms : list StoredMessage) : list (string * bytes) :=
  (λ m, (p +:+ fmt_020 (sm_head_id m), enc_of (set_deleted true m))) <$> ms.

(** The entries a deletion has to change. *)
Definition to_mark (from to : N) (l : list StoredMessage) : list StoredMessage :=
  filter (λ m, newly_deleted from to m = true) l.

Lemma to_mark_split from to l dn rest :
  filter (λ m, (from ≤ sm_head_id m)%N) l = dn ++ rest →
  Forall (λ m, (sm_head_id m ≤ to)%N) dn → Forall (λ m, (to < sm_head_id m)%N) rest →
  to_mark from to l = filter (λ m, sm_deleted m = false) dn.
Proof.
  intros Hl Hdn Hrest.
  assert (to_mark from to l =
    filter (λ m, sm_deleted m = false) (filter (λ m, (sm_head_id m ≤ to)%N)
      (filter (λ m, (from ≤ sm_head_id m)%N) l))) as ->.
  { unfold to_mark. rewrite !list_filter_filter. apply list_filter_iff. intros m.
    unfold newly_deleted, in_range.
    rewrite !andb_true_iff, negb_true_iff, !N.leb_le. naive_solver. }
  rewrite Hl, filter_app.
  assert (filter (λ m, (sm_head_id m ≤ to)%N) rest = []) as ->.
  { clear -Hrest. induction Hrest as [|m rest Hm _ IH]; [done|].
    rewrite filter_cons, decide_False by lia. done. }
  assert (filter (λ m, (sm_head_id m ≤ to)%N) dn = dn) as ->; [|by rewrite app_nil_r].
  clear -Hdn. induction Hdn as [|m dn Hm _ IH]; [done|].
  by rewrite filter_cons, decide_True, IH.
Qed.

Lemma head_sorted_rest (dn rest : list StoredMessage) m to :
  StronglySorted head_lt (dn ++ m :: rest) → (to < sm_head_id m)%N →
  Forall (λ m, (to < sm_head_id m)%N) (m :: rest).
Proof.
  intros Hs Hm. apply StronglySorted_app_1_r in Hs. inversion Hs as [|?? _ Hlt]; subst.
  constructor; [done|]. rewrite Forall_forall in *. intros x Hx%Hlt. unfold head_lt in Hx. lia.
Qed.

(** First loop of [tombstone_range_in_txn]: collect the rewritten entries. *)
Lemma wp_collect_updates a s t o from to
    (Q : result MsgbusError (list (string * bytes)) → Tables T → Prop) :
  let p := message_prefix_of t o in
  redb_rep a s → is_u64 from →
  Q (Ok (mark_updates p (to_mark from to (log_of a (t, o))))) s → on_fault Q s →
  wp e (for_each (tbl_range (p +:+ fmt_020 from) (MESSAGES s)) (λ '(key, value) updates,
          next_item;;
          if negb (starts_with p key) then mret (Break updates)
          else
            message ← of_result (decode value);
            if (to <? sm_head_id message)%N then mret (Break updates)
            else if negb (sm_deleted message) then
              encoded ← of_result (encode (set_deleted true message));
              mret (Continue (updates ++ [(key, encoded)]))
            else mret (Continue updates)) []) Q s.
Proof.
  intros p Hrep Hu HQ Hf.
  pose proof (scan_log a s t o from (rr_logs _ _ Hrep) Hu) as Hscan. fold p in Hscan.
  set (total := filter (λ m, (from ≤ sm_head_id m)%N) (log_of a (t, o))) in *.
  assert (StronglySorted head_lt total) as Hsorted
    by (by apply head_sorted_filter, log_sorted, Hrep).
  apply (wp_scan_loop p _ _ _ (λ l acc s', s' = s ∧ ∃ dn rest, total = dn ++ rest ∧
           l = key_entries p (numbered rest) ∧ Forall (λ m, (sm_head_id m ≤ to)%N) dn ∧
           acc = mark_updates p (filter (λ m, sm_deleted m = false) dn))).
  - split; [done|]. exists [], total. by split.
  - intros k v l acc s' (-> & dn & rest & Htot & Hl & Hdn & ->) Hk.
    destruct rest as [|m rest]; [done|]. unfold key_entries, numbered in Hl. csimpl in Hl.
    injection Hl as -> -> ->. rewrite decode_enc_of. apply wp_bind, wp_of_result.
    destruct (N.ltb_spec to (sm_head_id m)) as [Hgt|Hle].
    { apply wp_ret. rewrite Htot in Hsorted.
      rewrite <- (to_mark_split from to (log_of a (t, o)) dn (m :: rest)); [done|done|done|].
      by apply (head_sorted_rest dn). }
    assert (∀ b, sm_deleted m = b → s = s ∧ ∃ dn0 rest0, total = dn0 ++ rest0 ∧
      key_entries p (numbered rest) = key_entries p (numbered rest0) ∧
      Forall (λ m, (sm_head_id m ≤ to)%N) dn0 ∧
      mark_updates p (filter (λ m, sm_deleted m = false) dn)
        ++ (if b then [] else mark_updates p [m])
      = mark_updates p (filter (λ m, sm_deleted m = false) dn0)) as Hnext.
    { intros b Hb. split; [done|]. exists (dn ++ [m]), rest. rewrite <- app_assoc.
      split; [done|]. split; [done|]. split; [by apply Forall_app; repeat constructor|].
      unfold mark_updates. rewrite filter_app, fmap_app. f_equal.
      rewrite filter_cons, filter_nil, Hb. by destruct b. }
    destruct (sm_deleted m) eqn:Hb; simpl.
    + apply wp_ret. specialize (Hnext true eq_refl). by rewrite app_nil_r in Hnext.
    + rewrite encode_ok. apply wp_bind, wp_of_result, wp_ret. by apply (Hnext false).
  - by intros l acc s' (-> & _).
  - intros acc s' (-> & dn & rest & Htot & Hl & Hdn & ->).
    destruct rest as [|m rest]; [|done].
    rewrite <- (to_mark_split from to (log_of a (t, o)) dn []); done.
Qed.

(** Second loop: write them back, counting. *)
Lemma wp_write_updates a s t o ms (Q : result MsgbusError N → Tables T → Prop) :
  let p := message_prefix_of t o in
  redb_rep a s → ms ⊆ log_of a (t, o) → is_u64 (N.of_nat (length ms)) →
  (∀ tbl, logs_rep (set_log (t, o)
             (mark_set (list_to_set (sm_head_id <$> ms)) <$> log_of a (t, o)) a) tbl →
     Q (Ok (N.of_nat (length ms))) (set_MESSAGES tbl s)) →
  (∀ s', on_fault Q s') →
  wp e (for_each (mark_updates p ms) (λ '(key, value) changed,
          table_insert MESSAGES set_MESSAGES key value;;
          mret (Continue (u64_saturating_add changed 1))) 0%N) Q s.
Proof.
  intros p Hrep Hsub Hlen HQ Hf. set (l := log_of a (t, o)) in *.
  pose proof (rr_wf _ _ Hrep) as Hwf.
  apply (wp_for_each e _ _ _ (λ us n s', ∃ dn rest tbl, ms = dn ++ rest ∧
           us = mark_updates p rest ∧ n = N.of_nat (length dn) ∧ s' = set_MESSAGES tbl s ∧
           logs_rep (set_log (t, o) (mark_set (list_to_set (sm_head_id <$> dn)) <$> l) a) tbl)).
  - exists [], ms, (MESSAGES s). split; [done|]. split; [done|]. split; [done|].
    split; [by destruct s|]. apply (logs_rep_ext a); [|apply Hrep].
    intros k'. rewrite log_of_set_log. case_decide; [|done]. subst k'. fold l.
    rewrite <- (list_fmap_id l) at 2. apply list_fmap_ext. intros i m _. unfold mark_set.
    by rewrite decide_False by set_solver.
  - intros [key value] us n s' (dn & rest & tbl & Hms & Hus & -> & -> & Htbl).
    destruct rest as [|m rest]; [done|]. unfold mark_updates in Hus. csimpl in Hus.
    injection Hus as -> -> ->.
    apply wp_bind, wp_table_insert; [|apply Hf]. apply wp_ret. simpl.
    assert (m ∈ l) as Hm by (apply Hsub; rewrite Hms; set_solver).
    exists (dn ++ [m]), rest, (tbl_insert (p +:+ fmt_020 (sm_head_id m))
                                 (enc_of (set_deleted true m)) tbl).
    rewrite <- app_assoc. split; [done|]. split; [done|]. split.
    { rewrite length_app. unfold is_u64 in Hlen. rewrite Hms, length_app in Hlen. simpl in *.
      rewrite u64_saturating_succ; lia. }
    split; [done|].
    set (a1 := set_log (t, o) (mark_set (list_to_set (sm_head_id <$> dn)) <$> l) a) in *.
    assert (log_of a1 (t, o) = mark_set (list_to_set (sm_head_id <$> dn)) <$> l) as Hl1
      by (unfold a1; by rewrite log_of_set_log, decide_True).
    pose proof Hm as (i & Hi)%list_elem_of_lookup.
    destruct (wf_entry _ Hwf _ _ _ Hi) as [Hh _]. pose proof (lookup_lt_Some _ _ _ Hi).
    pose proof (wf_len _ Hwf (t, o)) as Hu. fold l in Hu. unfold is_u64, log_head in Hu.
    eapply logs_rep_ext; [|apply (logs_rep_put a1 tbl t o (sm_head_id m) (set_deleted true m))].
    + intros k'. rewrite !log_of_set_log. case_decide; [|unfold a1; by rewrite log_of_set_log, decide_False].
      subst k'. rewrite Hl1. unfold l. rewrite mark_set_put by done.
      apply list_fmap_ext. intros j m' _. unfold mark_set.
      rewrite fmap_app, list_to_set_app_L. simpl.
      case_decide; [rewrite decide_True by set_solver | rewrite decide_False by set_solver]; done.
    + by apply mark_set_wf.
    + done.
    + rewrite Hl1. unfold log_head. rewrite length_fmap. lia.
    + unfold is_u64. lia.
    + done.
  - intros n s' (dn & rest & tbl & -> & Hus & -> & -> & Htbl). destruct rest; [|done].
    rewrite app_nil_r in *. by apply HQ.
Qed.

Lemma mark_set_range a t o from to :
  wf a →
  mark_set (list_to_set (sm_head_id <$> to_mark from to (log_of a (t, o)))) <$> log_of a (t, o)
  = mark_range from to <$> log_of a (t, o).
Proof.
  intros Hwf. apply list_fmap_ext. intros i m Hi. unfold mark_set, mark_range.
  destruct (wf_entry _ Hwf _ _ _ Hi) as [Hh _].
  assert (newly_deleted from to m = true ↔
          sm_head_id m ∈ (list_to_set (sm_head_id <$> to_mark from to (log_of a (t, o))) : gset N))
    as Hin.
  { rewrite elem_of_list_to_set, list_elem_of_fmap. unfold to_mark. split.
    - intros Hn. exists m. split; [done|]. apply list_elem_of_filter. split; [done|].
      apply list_elem_of_lookup. eauto.
    - intros (m' & Heq & [Hn (j & Hj)%list_elem_of_lookup]%list_elem_of_filter).
      destruct (wf_entry _ Hwf _ _ _ Hj) as [Hh' _].
      replace j with i in Hj by lia. rewrite Hi in Hj. by simplify_eq. }
  unfold newly_deleted in Hin.
  destruct (in_range from to (sm_head_id m)); simpl in *.
  - destruct (sm_deleted m) eqn:Hd; simpl in *; case_decide as Hc; try done.
    + by rewrite set_deleted_id.
    + by case (Hc (proj1 Hin eq_refl)).
  - case_decide as Hc; [|done]. by apply Hin in Hc.
Qed.

Lemma wp_tombstone_range_in_txn a s topic origin from to now
    (Q : result MsgbusError N → Tables T → Prop) :
  redb_rep a s → is_u64 from → is_u64 to →
  (∀ s', redb_rep (tombstone_spec (key_of topic origin) from to a).2 s' →
     Q (Ok (tombstone_spec (key_of topic origin) from to a).1) s') →
  (∀ s', on_fault Q s') →
  wp e (tombstone_range_in_txn topic origin from to now) Q s.
Proof.
  intros Hrep Hfrom Hto HQ Hf. unfold tombstone_range_in_txn, message_key.
  set (t := topic_str topic) in *. set (o := NodeId.key origin) in *.
  change (key_of topic origin) with (t, o) in *.
  change (message_prefix topic origin) with (message_prefix_of t o).
  apply wp_bind, wp_open_table; [|apply Hf].
  apply wp_bind, wp_table_range; [|apply Hf].
  apply wp_bind, (wp_collect_updates a); [done|done| |apply Hf].
  pose proof (rr_wf _ _ Hrep) as Hwf.
  apply wp_bind, (wp_write_updates a); [done| | | |intros s'; apply Hf].
  { intros m [_ ?]%list_elem_of_filter. done. }
  { pose proof (wf_len _ Hwf (t, o)) as Hl. unfold is_u64, log_head in *.
    pose proof (length_filter (λ m, newly_deleted from to m = true) (log_of a (t, o))).
    unfold to_mark. lia. }
  intros tbl Htbl. rewrite mark_set_range in Htbl by done.
  apply wp_bind, wp_open_table; [|apply Hf].
  rewrite encode_ok. apply wp_bind, wp_of_result.
  apply wp_bind, wp_table_insert; [|apply Hf]. apply wp_ret, HQ.
  destruct Hrep as [_ Hlogs Hheads Htombs Hqueues Hseqs Hsync]. split; simpl.
  - by apply (tombstone_wf (t, o)).
  - done.
  - apply (heads_rep_same a _ t o (mark_range from to <$> log_of a (t, o))); [done|].
    unfold log_head. by rewrite length_fmap.
  - apply (tombs_rep_ext (set_tombs (t, o) ({[(from, to)]} ∪ tombs_of a (t, o)) a)).
    { intros lk. by rewrite !tombs_of_set_tombs. }
    by apply (tombs_rep_insert a (TOMBSTONES s) t o (mkTombstoneRange topic origin from to now)).
  - done.
  - done.
  - done.
Qed.

(** ** Operations *)

Implicit Types (db : RedbStore T).

Lemma wp_begin_write (Q : result MsgbusError unit → RedbStore T → Prop) db :
  Q (Ok tt) (mkRedb (committed db) (committed db)) → on_fault Q db → wp e begin_write Q db.
Proof. intros HQ Hf. unfold begin_write. wp_run; first [done | by apply Hf]. Qed.

Lemma wp_commit (Q : result MsgbusError unit → RedbStore T → Prop) db :
  Q (Ok tt) (mkRedb (txn db) (txn db)) → on_fault Q db → wp e commit Q db.
Proof. intros HQ Hf. unfold commit. wp_run; first [done | by apply Hf]. Qed.

Lemma wp_begin_read (Q : result MsgbusError unit → RedbStore T → Prop) db :
  Q (Ok tt) db → on_fault Q db → wp e begin_read Q db.
Proof. intros HQ Hf. apply wp_io; [done | exact Hf]. Qed.

Definition no_limit (e : Env) (A : Type) (op : StoreOp A) a : Prop := False.

Definition redb_db_rep a db : Prop := redb_rep a (committed db).

Definition post {A} (op : StoreOp A) a (r : Result A) db : Prop :=
  match r with
  | Ok x => ∃ a', spec_op e op a (Ok x) a' ∧ redb_db_rep a' db
  | Err x => redb_db_rep a db ∧ (has_fault e ∨ no_limit e A op a ∨ spec_op e op a (Err x) a)
  end.

Lemma post_fault {A} (op : StoreOp A) a db : redb_db_rep a db → on_fault (post op a) db.
Proof. intros Hrep msg Hfault. split; [done | by left]. Qed.

Lemma append_refines a db m :
  redb_db_rep a db → wp e (redb_append_message m) (post (OpAppend m) a) db.
Proof.
  intros Hrep. unfold redb_append_message.
  apply wp_bind, wp_begin_write; [|by apply post_fault].
  apply wp_bind, wp_zoom, (wp_append_message_in_txn a); [done| |intros s; by apply post_fault].
  intros now s' Hnow Hrep'. apply wp_bind, wp_commit; [|by apply post_fault].
  apply wp_ret. eexists. split; [|done]. by exists now.
Qed.

Lemma effective_limit_pos n : (0 < effective_limit n)%nat.
Proof. unfold effective_limit. destruct (N.eqb_spec n 0); lia. Qed.

Lemma fetch_refines a db q :
  redb_db_rep a db → is_u64 (fq_from_head_id q) →
  wp e (redb_fetch_messages q) (post (OpFetch q) a) db.
Proof.
  intros Hrep Hu. unfold redb_fetch_messages.
  apply wp_bind, wp_begin_read; [|by apply post_fault]. apply wp_zoom. simpl.
  apply wp_bind, wp_open_table; [|by apply post_fault].
  apply wp_bind, wp_table_range; [|by apply post_fault]. unfold message_key.
  set (t := topic_str (fq_topic q)). set (o := NodeId.key (fq_origin q)).
  change (message_prefix (fq_topic q) (fq_origin q)) with (message_prefix_of t o).
  set (p := message_prefix_of t o).
  pose proof (scan_log a (committed db) t o (fq_from_head_id q) (rr_logs _ _ Hrep) Hu) as Hscan.
  fold p in Hscan. set (total := filter _ _) in Hscan.
  set (lim := effective_limit (fq_limit q)).
  assert (fetch_spec q a = take lim total) as Hspec by done.
  pose proof (effective_limit_pos (fq_limit q)) as Hpos. fold lim in Hpos.
  apply (wp_scan_loop p _ _ _ (λ l out s', s' = committed db ∧ ∃ rest,
           total = out ++ rest ∧ l = key_entries p (numbered rest) ∧ (length out < lim)%nat)).
  - split; [done|]. exists total. by split.
  - intros k v l out s' (-> & rest & Htot & Hl & Hlt) Hk.
    destruct rest as [|m rest]; [done|]. unfold key_entries, numbered in Hl. csimpl in Hl.
    injection Hl as -> -> ->. rewrite decode_enc_of. apply wp_bind, wp_of_result.
    rewrite length_app. simpl. destruct (Nat.leb_spec lim (length out + 1)); apply wp_ret.
    + exists a. split; [|done]. split; [|done]. rewrite Hspec.
      replace total with ((out ++ [m]) ++ rest) by (by rewrite Htot, <- app_assoc).
      rewrite take_app_length'; [done|]. rewrite length_app. simpl. lia.
    + split; [done|]. exists rest. rewrite <- app_assoc, length_app. simpl. split; [done|].
      split; [done|lia].
  - intros l out s' (-> & _). by apply post_fault.
  - intros out s' (-> & rest & Htot & Hl & Hlt). destruct rest; [|done].
    exists a. split; [|done]. split; [|done]. rewrite Hspec, Htot, app_nil_r.
    by rewrite take_ge by lia.
Qed.

Lemma get_head_refines a db t o :
  redb_db_rep a db → wp e (redb_get_head t o) (post (OpGetHead t o) a) db.
Proof.
  intros Hrep. unfold redb_get_head.
  apply wp_bind, wp_begin_read; [|by apply post_fault]. apply wp_zoom. simpl.
  apply wp_bind, wp_open_table; [|by apply post_fault].
  apply wp_table_get; [|by apply post_fault].
  exists a. split; [|done]. split; [|done]. f_equal.
  apply (heads_rep_get a _ (topic_str t) (NodeId.key o)), Hrep.
Qed.

Lemma logs_rep_get a tbl t o h :
  wf a → logs_rep a tbl → is_u64 h → h ≠ 0%N →
  tbl_get (message_prefix_of t o +:+ fmt_020 h) tbl
  = enc_of <$> (log_of a (t, o) !! (N.to_nat h - 1)%nat).
Proof.
  intros Hwf Hrep Hu Hne. apply option_eq. intros v.
  rewrite (segment_lookup _ _ _ h v (Hrep t o) Hu). unfold numbered.
  rewrite list_elem_of_fmap, fmap_Some. split.
  - intros (m & Heq & (i & Hi)%list_elem_of_lookup). simplify_eq.
    destruct (wf_entry _ Hwf _ _ _ Hi) as [-> _]. exists m. split; [|done].
    by replace (N.to_nat (N.of_nat (S i)) - 1)%nat with i by lia.
  - intros (m & Hi & ->). exists m. split; [|apply list_elem_of_lookup; eauto].
    destruct (wf_entry _ Hwf _ _ _ Hi) as [-> _]. f_equal. lia.
Qed.

Lemma same_except_deleted_iff l r :
  same_message_except_deleted l r = same_message_except_deleted_spec l r.
Proof.
  unfold same_message_except_deleted, same_message_except_deleted_spec.
  apply eq_true_iff_eq. rewrite !andb_true_iff, !bool_decide_eq_true.
  unfold set_deleted. split; [naive_solver congruence|]. intros [=]. naive_solver.
Qed.

(** The tail of [put_replicated_message]: write the entry, raise the head,
    commit. *)
Lemma put_finish a db m (Q : result MsgbusError ReplicateResult → RedbStore T → Prop) :
  let k := msg_key m in
  let h := sm_head_id m in
  let key := message_prefix_of k.1 k.2 +:+ fmt_020 h in
  wf a → redb_rep a (txn db) →
  (1 ≤ h ≤ log_head (log_of a k) + 1)%N → is_u64 h →
  (covered (tombs_of a k) h = true → sm_deleted m = true) →
  (∀ db', redb_rep (set_log k (log_put h m (log_of a k)) a) (committed db') → Q (Ok Inserted) db') →
  (∀ s, on_fault Q (mkRedb (committed db) s)) →
  wp e (store_and_finish m key) Q db.
Proof.
  intros k h key Hwf Hrep Hh Hu Hdel HQ Hf.
  destruct Hrep as [_ Hlogs Hheads Htombs Hqueues Hseqs Hsync]. unfold store_and_finish.
  change (head_key (sm_topic m) (sm_origin m)) with (head_key_of k.1 k.2). fold h.
  rewrite encode_ok. apply wp_bind, wp_of_result.
  apply wp_bind, wp_zoom, wp_table_insert; [|apply Hf].
  apply wp_bind, wp_zoom, wp_open_table; [|apply Hf].
  apply wp_bind, wp_zoom, wp_table_get; [|apply Hf].
  change (default 0%N _) with (default 0%N (tbl_get (head_key_of k.1 k.2) (HEADS (txn db)))).
  rewrite (heads_rep_default a) by done. change (k.1, k.2) with k.
  assert (wf (set_log k (log_put h m (log_of a k)) a)) as Hwf' by by apply wf_log_put.
  assert (logs_rep (set_log k (log_put h m (log_of a k)) a)
            (tbl_insert key (enc_of m) (MESSAGES (txn db)))) as Hlogs'
    by by apply (logs_rep_put a _ k.1 k.2).
  pose proof (log_put_max h m (log_of a k) Hh) as Hmax.
  apply wp_bind. destruct (N.ltb_spec (log_head (log_of a k)) h) as [Hlt|Hge].
  - apply wp_zoom, wp_table_insert; [|apply Hf]. apply wp_bind, wp_commit; [|apply Hf].
    apply wp_ret, HQ. split; simpl; try done; [|by apply (tombs_rep_ext a)].
    pose proof (heads_rep_insert a (HEADS (txn db)) k.1 k.2 (log_put h m (log_of a k)) Hheads)
      as Hins. rewrite Hmax in Hins. apply Hins. lia.
  - apply wp_ret, wp_bind, wp_commit; [|apply Hf].
    apply wp_ret, HQ. split; simpl; try done; [|by apply (tombs_rep_ext a)].
    by apply (heads_rep_same a _ k.1 k.2).
Qed.

(** Storing the marked message where the specification accepts it. *)
Lemma put_accepted a db m (Q : result MsgbusError ReplicateResult → RedbStore T → Prop) :
  let m' := mark a m in
  redb_db_rep a db → is_u64 (sm_head_id m) → sm_head_id m ≠ 0%N →
  (sm_head_id m ≤ log_head (log_of a (msg_key m)) + 1)%N →
  (∀ db', redb_db_rep (set_log (msg_key m) (log_put (sm_head_id m) m' (log_of a (msg_key m))) a) db' →
     Q (Ok Inserted) db') →
  (∀ s, on_fault Q (mkRedb (committed db) s)) →
  wp e (store_and_finish m' (message_prefix_of (msg_key m).1 (msg_key m).2
                               +:+ fmt_020 (sm_head_id m))) Q
    (mkRedb (committed db) (committed db)).
Proof.
  intros m' Hrep Hu Hnz Hle HQ Hf.
  assert (sm_head_id m' = sm_head_id m) as Hmh by apply mark_head.
  assert (msg_key m' = msg_key m) as Hmk by apply mark_key.
  pose proof (put_finish a (mkRedb (committed db) (committed db)) m' Q) as Hfin.
  cbv zeta in Hfin. rewrite Hmk, Hmh in Hfin. apply Hfin; try done; [by apply rr_wf in Hrep|lia|].
  intros. by apply mark_deleted.
Qed.

(** The case analysis of [put_replicated_message], once the transaction has read
    the head and the entry at the message's number. *)
Lemma put_decide a db m (existing : option StoredMessage) :
  let m' := mark a m in
  redb_db_rep a db → is_u64 (sm_head_id m) → sm_head_id m ≠ 0%N →
  log_of a (msg_key m) !! (N.to_nat (sm_head_id m) - 1)%nat = existing →
  wp e (match existing with
        | Some existing =>
            if bool_decide (existing = m') then mret AlreadyPresent
            else if same_message_except_deleted existing m' && sm_deleted m'
            then store_and_finish m' (message_prefix_of (msg_key m).1 (msg_key m).2
                                        +:+ fmt_020 (sm_head_id m))
            else throw (Conflict ("message conflict at " +:+ location m +:+ " head_id="
                                    +:+ fmt_u64 (sm_head_id m)))
        | None =>
            if (u64_saturating_add (log_head (log_of a (msg_key m))) 1 <? sm_head_id m)%N
            then throw (InvalidArgument ("replicated message would create a gap at " +:+ location m
                          +:+ " local_head=" +:+ fmt_u64 (log_head (log_of a (msg_key m)))
                          +:+ " incoming_head=" +:+ fmt_u64 (sm_head_id m)))
            else store_and_finish m' (message_prefix_of (msg_key m).1 (msg_key m).2
                                        +:+ fmt_020 (sm_head_id m))
        end) (post (OpPutReplicated m) a) (mkRedb (committed db) (committed db)).
Proof.
  intros m' Hrep Hu Hnz Hex. pose proof (rr_wf _ _ Hrep) as Hwf.
  assert (∀ s, on_fault (post (OpPutReplicated m) a) (mkRedb (committed db) s)) as Hf
    by (intros s; by apply post_fault).
  unfold post, spec_op, put_replicated_spec in *. rewrite (proj2 (N.eqb_neq _ _) Hnz) in *.
  fold m' in Hf |- *. rewrite Hex in *. destruct existing as [ex|].
  - apply lookup_lt_Some in Hex as Hlt.
    case_bool_decide as Heq; [apply wp_ret; by exists a|].
    rewrite same_except_deleted_iff in *.
    destruct (_ && _); [|apply wp_throw; split; [done|]; by right; right].
    apply (put_accepted a db); [done..|unfold log_head; lia| |exact Hf].
    intros db' Hdb'. by eexists.
  - destruct (N.ltb_spec (u64_saturating_add (log_head (log_of a (msg_key m))) 1) (sm_head_id m))
      as [Hgap|Hok]; [apply wp_throw; split; [done|]; by right; right|].
    pose proof (wf_len _ Hwf (msg_key m)).
    apply (put_accepted a db); [done..|unfold u64_saturating_add, is_u64 in *; lia| |exact Hf].
    intros db' Hdb'. by eexists.
Qed.

Lemma put_replicated_refines a db m :
  redb_db_rep a db → is_u64 (sm_head_id m) →
  wp e (redb_put_replicated_message m) (post (OpPutReplicated m) a) db.
Proof.
  intros Hrep Hu. unfold redb_put_replicated_message.
  destruct (N.eqb_spec (sm_head_id m) 0) as [Hz|Hnz].
  { apply wp_throw. split; [done|]. right. right. simpl. unfold put_replicated_spec.
    by rewrite Hz. }
  apply wp_bind, wp_begin_write; [|by apply post_fault].
  apply wp_bind, wp_zoom, (wp_apply_tombstone_markers a); [apply Hrep|apply Hrep| |by apply post_fault].
  set (m' := mark a m).
  assert (sm_head_id m' = sm_head_id m) as Hmh by apply mark_head.
  assert (msg_key m' = msg_key m) as Hmk by apply mark_key.
  assert (location m' = location m) as Hloc.
  { unfold location. injection Hmk as H1 H2. by rewrite H1, H2. }
  apply wp_bind, wp_zoom. unfold current_head_in_txn.
  apply wp_bind, wp_open_table; [|by apply post_fault].
  apply wp_bind, wp_table_get; [|by apply post_fault]. apply wp_ret.
  change (head_key (sm_topic m') (sm_origin m'))
    with (head_key_of (msg_key m').1 (msg_key m').2).
  rewrite (heads_rep_default a _ (msg_key m').1 (msg_key m').2) by apply Hrep.
  change ((msg_key m').1, (msg_key m').2) with (msg_key m').
  apply wp_bind, wp_zoom, wp_open_table; [|by apply post_fault].
  apply wp_bind, wp_zoom, wp_table_get; [|by apply post_fault].
  unfold message_key. change (message_prefix (sm_topic m') (sm_origin m'))
    with (message_prefix_of (msg_key m').1 (msg_key m').2).
  rewrite (logs_rep_get a _ (msg_key m').1 (msg_key m').2)
    by (try apply Hrep; by rewrite Hmh).
  change ((msg_key m').1, (msg_key m').2) with (msg_key m').
  apply wp_bind, wp_of_result. fold (location m'). rewrite Hloc, Hmh, Hmk.
  pose proof (put_decide a db m _ Hrep Hu Hnz eq_refl) as Hdec.
  destruct (log_of a (msg_key m) !! (N.to_nat (sm_head_id m) - 1)%nat) as [ex|]; simpl;
    [rewrite decode_enc_of|]; exact Hdec.
Qed.

Lemma tombstone_refines a db t o from to :
  redb_db_rep a db → is_u64 from → is_u64 to →
  wp e (redb_tombstone_range t o from to) (post (OpTombstone t o from to) a) db.
Proof.
  intros Hrep Hf Ht. unfold redb_tombstone_range, post. simpl.
  destruct (to <? from)%N; [apply wp_throw; split; [done|]; by right; right|].
  apply wp_bind, wp_begin_write; [|intros msg Hfault; split; [done|by left]].
  apply wp_bind, wp_now_ms. intros now Hnow.
  apply wp_bind, wp_zoom, (wp_tombstone_range_in_txn a);
    [done|done|done| |intros s msg Hfault; split; [done|by left]].
  intros s' Hrep'. apply wp_bind, wp_commit; [|intros msg Hfault; split; [done|by left]].
  apply wp_ret. by eexists.
Qed.

Lemma tombstone_marker_refines a db t o from to mt mo :
  redb_db_rep a db → is_u64 from → is_u64 to →
  wp e (redb_tombstone_range_with_marker t o from to mt mo)
    (post (OpTombstoneMarker t o from to mt mo) a) db.
Proof.
  intros Hrep Hf Ht. unfold redb_tombstone_range_with_marker, post. simpl.
  destruct (to <? from)%N; [apply wp_throw; split; [done|]; by right; right|].
  apply wp_bind, wp_begin_write; [|intros msg Hfault; split; [done|by left]].
  apply wp_bind, wp_now_ms. intros now Hnow.
  apply wp_bind, wp_zoom, (wp_tombstone_range_in_txn a);
    [done|done|done| |intros s msg Hfault; split; [done|by left]].
  intros s' Hrep'. rewrite encode_ok. apply wp_bind, wp_of_result.
  unfold NewMessage_new. apply wp_bind, wp_bind, wp_MessageId_new. intros u. apply wp_ret.
  apply wp_bind, wp_zoom, (wp_append_message_in_txn (tombstone_spec (key_of t o) from to a).2);
    [done| |intros s msg Hfault; split; [done|by left]].
  intros now' s2 Hnow' Hrep2.
  apply wp_bind, wp_commit; [|intros msg Hfault; split; [done|by left]].
  apply wp_ret. eexists. split; [|exact Hrep2].
  exists now, now', u. done.
Qed.

(** ** Queues *)

Lemma queue_entries_filter n l :
  queue_entries (filter (λ x, sf_sequence x ≠ n) l)
  = filter (λ x : N * bytes, x.1 ≠ n) (queue_entries l).
Proof.
  unfold queue_entries. induction l as [|m l IH]; [done|]. csimpl. rewrite !filter_cons. simpl.
  case_decide; csimpl; by rewrite IH.
Qed.

Lemma enqueue_refines a db m :
  redb_db_rep a db → wp e (redb_enqueue_fifo m) (post (OpEnqueue m) a) db.
Proof.
  intros Hrep. pose proof (rr_wf _ _ Hrep) as Hwf. unfold redb_enqueue_fifo.
  apply wp_bind, wp_begin_write; [|by apply post_fault].
  apply wp_bind, wp_zoom, wp_open_table; [|by apply post_fault].
  apply wp_bind, wp_zoom, wp_table_get; [|by apply post_fault].
  set (q := queue_str (nf_queue m)).
  change (fifo_sequence_key (nf_queue m)) with (fifo_sequence_key_of q).
  cbn [txn committed]. rewrite (rr_seqs _ _ Hrep q).
  set (n := u64_saturating_add (seq_of a q) 1).
  apply wp_bind, wp_zoom, wp_table_insert; [|by apply post_fault].
  apply wp_bind, wp_now_ms. intros now Hnow. rewrite encode_ok.
  apply wp_bind, wp_of_result, wp_bind, wp_zoom, wp_open_table; [|by apply post_fault].
  apply wp_bind, wp_zoom, wp_table_insert; [|by apply post_fault].
  apply wp_bind, wp_commit; [|by apply post_fault].
  apply wp_ret. eexists. split; [by exists now|].
  pose proof (enqueue_wf now m a Hwf) as Hwf'. unfold enqueue_spec in *. fold q in Hwf'.
  fold n in Hwf'. fold q. fold n. simpl in *.
  destruct Hrep as [_ Hlogs Hheads Htombs Hqueues Hseqs Hsync]. split; simpl; try done.
  - by apply (tombs_rep_ext a).
  - apply queues_rep_other; [done|by eexists|]. unfold queue_entries at 1. rewrite fmap_app.
    setoid_rewrite (queue_entries_filter n). simpl.
    apply segment_put_last; [apply Hqueues| |apply u64_saturating_add_bound].
    apply Forall_fmap, Forall_forall. intros x Hx. simpl.
    destruct (wf_queue_entry _ Hwf _ _ Hx) as [Hle _]. pose proof (wf_seq _ Hwf q).
    unfold n, u64_saturating_add, is_u64 in *. lia.
  - by apply seqs_rep_insert.
Qed.

(** The first item of a range from a queue's prefix is its front, if any. *)
Lemma front_item a tbl q :
  queues_rep a tbl →
  match tbl_range (fifo_prefix_of q) tbl, queue_of a q with
  | (k, v) :: _, [] => starts_with (fifo_prefix_of q) k = false
  | (k, v) :: _, m :: _ =>
      starts_with (fifo_prefix_of q) k = true ∧ v = enc_of m ∧
      k = fifo_prefix_of q +:+ fmt_020 (sf_sequence m)
  | [], [] => True
  | [], _ :: _ => False
  end.
Proof.
  intros Hrep. pose proof (scan_segment_all _ _ _ (Hrep q)) as Hscan. unfold scan in Hscan.
  destruct (tbl_range _ _) as [|[k v] items], (queue_of a q) as [|m l]; simpl in *; try done.
  - by destruct (starts_with _ k).
  - destruct (starts_with _ k); [|done]. unfold key_entries in Hscan. csimpl in Hscan.
    by simplify_eq.
Qed.

Lemma peek_refines a db q :
  redb_db_rep a db → wp e (redb_peek_fifo q) (post (OpPeek q) a) db.
Proof.
  intros Hrep. unfold redb_peek_fifo.
  apply wp_bind, wp_begin_read; [|by apply post_fault]. apply wp_zoom.
  apply wp_bind, wp_open_table; [|by apply post_fault].
  apply wp_bind, wp_table_range; [|by apply post_fault].
  change (fifo_prefix q) with (fifo_prefix_of (queue_str q)).
  pose proof (front_item a _ (queue_str q) (rr_queues _ _ Hrep)) as Hfront.
  assert (∀ r, r = head (queue_of a (queue_str q)) → post (OpPeek q) a (Ok r) db) as Hend.
  { intros r ->. by exists a. }
  destruct (tbl_range _ _) as [|[k v] items].
  - apply wp_ret, Hend. by destruct (queue_of a (queue_str q)).
  - apply wp_bind, wp_next_item; [|by apply post_fault].
    destruct (queue_of a (queue_str q)) as [|m l].
    + rewrite Hfront. by apply wp_ret, Hend.
    + destruct Hfront as (-> & -> & _). rewrite decode_enc_of.
      by apply wp_bind, wp_of_result, wp_ret, Hend.
Qed.

Definition front_spec (action : FifoFrontAction) : string → MessageId → AbsStore → bool * AbsStore :=
  match action with Ack => ack_spec | Reject => reject_spec end.

Lemma queues_rep_ack a tbl q m l :
  queues_rep a tbl → queue_of a q = m :: l →
  queues_rep (set_queue q (seq_of a q) l a)
    (tbl_remove (fifo_prefix_of q +:+ fmt_020 (sf_sequence m)) tbl).
Proof.
  intros Hrep Hq q'. rewrite queue_of_set_queue. case_decide as Heq.
  - subst q'. pose proof (Hrep q) as Hseg. rewrite Hq in Hseg. by apply segment_tail in Hseg.
  - apply segment_remove_other; [|apply Hrep]. by apply fifo_prefix_other.
Qed.

Lemma queues_rep_reject a tbl q m m' l :
  wf a → queues_rep a tbl → queue_of a q = m :: l → sf_sequence m' = sf_sequence m →
  queues_rep (set_queue q (seq_of a q) (m' :: l) a)
    (tbl_insert (fifo_prefix_of q +:+ fmt_020 (sf_sequence m)) (enc_of m') tbl).
Proof.
  intros Hwf Hrep Hq Hseq. apply queues_rep_other; [done|by eexists|].
  pose proof (Hrep q) as Hseg. rewrite Hq in Hseg.
  assert (queue_entries (m' :: l)
          = renumber (sf_sequence m) (enc_of m') (queue_entries (m :: l))) as ->.
  { pose proof (wf_queue_sorted _ Hwf q) as Hs. rewrite Hq in Hs.
    inversion Hs as [|?? _ Hlt]; subst. unfold queue_entries, renumber. csimpl.
    rewrite decide_True, Hseq by done. f_equal. rewrite <- list_fmap_compose.
    apply list_fmap_ext. intros i x Hx. simpl.
    rewrite decide_False; [done|]. rewrite Forall_forall in Hlt.
    specialize (Hlt x ltac:(by eapply list_elem_of_lookup_2)). unfold seq_lt in Hlt. lia. }
  apply segment_renumber; [done|]. csimpl. by left.
Qed.

Lemma update_front_refines a db q i action :
  redb_db_rep a db →
  wp e (update_fifo_front q i action) (λ r db',
    match r with
    | Ok x => x = (front_spec action (queue_str q) i a).1 ∧
              redb_db_rep (front_spec action (queue_str q) i a).2 db'
    | Err x => redb_db_rep a db' ∧ has_fault e
    end) db.
Proof.
  intros Hrep. pose proof (rr_wf _ _ Hrep) as Hwf. unfold update_fifo_front.
  change (fifo_prefix q) with (fifo_prefix_of (queue_str q)). set (qs := queue_str q).
  pose proof (ack_wf qs i a Hwf) as Hwa. pose proof (reject_wf qs i a Hwf) as Hwr.
  unfold ack_spec in Hwa. unfold reject_spec in Hwr.
  apply wp_bind, wp_begin_write; [|done]. apply wp_bind, wp_zoom.
  apply wp_bind, wp_open_table; [|done]. apply wp_bind, wp_table_range; [|done].
  pose proof (front_item a _ qs (rr_queues _ _ Hrep)) as Hfront.
  cbn [txn committed].
  assert (∀ s acc a', redb_rep a' s → (acc, a') = front_spec action qs i a →
    wp e (commit;; mret acc) (λ r db',
      match r with
      | Ok x => x = (front_spec action qs i a).1 ∧ redb_db_rep (front_spec action qs i a).2 db'
      | Err x => redb_db_rep a db' ∧ has_fault e
      end) (mkRedb (committed db) s)) as Hfin.
  { intros s acc a' Hs Hspec. apply wp_bind, wp_commit; [|done].
    apply wp_ret. by rewrite <- Hspec. }
  apply wp_bind.
  destruct (tbl_range _ _) as [|[k v] items].
  { apply wp_ret, wp_ret. destruct (queue_of a qs) eqn:Hq; [|done].
    apply (Hfin _ _ a); [done | destruct action; cbn; unfold ack_spec, reject_spec; by rewrite Hq]. }
  apply wp_bind, wp_next_item; [|done].
  destruct (queue_of a qs) as [|m l] eqn:Hq.
  { rewrite Hfront. apply wp_ret, wp_ret, (Hfin _ _ a); [done | destruct action; cbn; unfold ack_spec, reject_spec; by rewrite Hq]. }
  destruct Hfront as (-> & -> & ->). rewrite decode_enc_of.
  apply wp_bind, wp_of_result, wp_ret.
  case_bool_decide as Hid.
  2:{ apply wp_ret, (Hfin _ _ a); [done|].
      destruct action; cbn; unfold ack_spec, reject_spec; by rewrite Hq, bool_decide_eq_false_2. }
  destruct Hrep as [_ Hlogs Hheads Htombs Hqueues Hseqs Hsync].
  apply wp_bind. destruct action.
  - apply wp_table_remove; [|done]. apply wp_ret.
    apply (Hfin _ _ (set_queue qs (seq_of a qs) l a));
      [|cbn; unfold ack_spec; by rewrite Hq, bool_decide_eq_true_2].
    split; simpl; try done; [by apply (tombs_rep_ext a) | by apply queues_rep_ack | by apply seqs_rep_same].
  - rewrite encode_ok. apply wp_bind, wp_of_result, wp_table_insert; [|done]. apply wp_ret.
    eapply Hfin; [|cbn; unfold reject_spec; by rewrite Hq, bool_decide_eq_true_2]. split; simpl; try done;
      [by apply (tombs_rep_ext a) | by apply queues_rep_reject | by apply seqs_rep_same].
Qed.

Lemma ack_refines a db q i :
  redb_db_rep a db → wp e (redb_ack_fifo q i) (post (OpAck q i) a) db.
Proof.
  intros Hrep. eapply wp_mono; [by apply (update_front_refines a _ q i Ack)|].
  intros [x|x] db'; simpl; [intros [-> ?] | intros [? ?]; by split; [|left]]. eauto.
Qed.

Lemma reject_refines a db q i :
  redb_db_rep a db → wp e (redb_reject_fifo q i) (post (OpReject q i) a) db.
Proof.
  intros Hrep. eapply wp_mono; [by apply (update_front_refines a _ q i Reject)|].
  intros [x|x] db'; simpl; [intros [-> ?] | intros [? ?]; by split; [|left]]. eauto.
Qed.

(** ** Listings *)

Lemma key_sorted_nodup {V} (l : list (string * V)) : StronglySorted key_lt l → NoDup l.*1.
Proof.
  induction 1 as [|x l Hs IH Hx]; csimpl; constructor; [|done].
  intros (y & Heq & Hy)%list_elem_of_fmap. rewrite Forall_forall in Hx.
  apply Hx in Hy. unfold key_lt in Hy. rewrite Heq in Hy. by apply slt_irrefl in Hy.
Qed.

Lemma range_all {V} (k : string) (v : V) (t : T V) :
  (k, v) ∈ tbl_range "" t ↔ tbl_get k t = Some v.
Proof. rewrite tbl_range_elem. rewrite <- (app_nil_l k) at 1. by rewrite sle_prefix; naive_solver. Qed.

(** One entry of the heads table and the head reported for it. *)
Definition head_item a (item : string * N) (th : TopicHead) : Prop :=
  item.1 = head_key_of (th_key th).1 (th_key th).2 ∧
  ∃ m, last (log_of a (th_key th)) = Some m ∧
       th = mkTopicHead (sm_topic m) (sm_origin m) (log_head (log_of a (th_key th))) ∧
       item.2 = th_head_id th.

Lemma head_items_perm a s out :
  redb_rep a s → Forall2 (head_item a) (tbl_range "" (HEADS s)) out → out ≡ₚ heads_spec a.
Proof.
  intros Hrep Hout. pose proof (rr_wf _ _ Hrep) as Hwf.
  apply NoDup_Permutation; [|by apply heads_spec_nodup|].
  - apply (NoDup_fmap_1 (λ th, head_key_of (th_key th).1 (th_key th).2)).
    assert ((λ th, head_key_of (th_key th).1 (th_key th).2) <$> out
            = (tbl_range "" (HEADS s)).*1) as ->.
    { eapply Forall2_fmap_eq; [exact Hout|]. by intros x y [-> _]. }
    apply key_sorted_nodup, tbl_range_sorted.
  - intros th. rewrite elem_of_heads_spec. split.
    + intros (i & Hi)%list_elem_of_lookup.
      destruct (Forall2_lookup_r _ _ _ _ _ Hout Hi) as (item & _ & _ & m & Hm & Hth & _).
      exists (th_key th), (log_of a (th_key th)), m. split; [|done].
      unfold log_of in *. by destruct (a_logs a !! th_key th).
    + intros (k & l & m & Hk & Hl & ->). pose proof (log_of_lookup a k l Hk) as Hlog.
      assert (msg_key m = k) as Hmk by (apply (last_key a); [done | by rewrite Hlog]).
      assert (tbl_get (head_key_of k.1 k.2) (HEADS s) = Some (log_head l)) as Hg.
      { apply (rr_heads _ _ Hrep). exists k.1, k.2. rewrite <- surjective_pairing, Hlog.
        split; [done|]. split; [done|]. unfold log_head. by destruct l. }
      apply range_all, list_elem_of_lookup in Hg as [i Hi].
      destruct (Forall2_lookup_l _ _ _ _ _ Hout Hi) as (th & Hth & Hkey & m' & Hm' & Hthe & _).
      apply head_key_inj in Hkey as [H1 H2].
      assert (th_key th = k) as Hk' by (by apply injective_projections).
      rewrite Hk', Hlog in *. apply list_elem_of_lookup. exists i. rewrite Hth, Hthe.
      by simplify_eq.
Qed.

Lemma list_heads_refines a db :
  redb_db_rep a db → wp e redb_list_heads (post OpListHeads a) db.
Proof.
  intros Hrep. pose proof (rr_wf _ _ Hrep) as Hwf. unfold redb_list_heads.
  apply wp_bind, wp_begin_read; [|by apply post_fault]. apply wp_zoom.
  apply wp_bind, wp_open_table; [|by apply post_fault].
  apply wp_bind, wp_open_table; [|by apply post_fault].
  apply wp_bind, wp_table_range; [|by apply post_fault].
  apply (wp_for_each e _ _ _ (λ l out s', s' = committed db ∧ ∃ dn,
           tbl_range "" (HEADS (committed db)) = dn ++ l ∧ Forall2 (head_item a) dn out)).
  - split; [done|]. by exists [].
  - intros [k n] l out s' (-> & dn & Heq & Hout).
    apply wp_bind, wp_next_item; [|by apply post_fault].
    assert (tbl_get k (HEADS (committed db)) = Some n) as Hg
      by (apply range_all; rewrite Heq; set_solver).
    apply (rr_heads _ _ Hrep) in Hg as (t & o & -> & -> & Hnz).
    rewrite head_key_parts_ok. apply wp_bind, wp_of_result.
    apply wp_bind, wp_table_get; [|by apply post_fault].
    rewrite raw_message_key_enc, (logs_rep_get a);
      [|done|apply Hrep|apply Hwf|done].
    assert (N.to_nat (log_head (log_of a (t, o))) - 1 = pred (length (log_of a (t, o))))%nat as ->
      by (unfold log_head; lia).
    rewrite <- last_lookup.
    destruct (last (log_of a (t, o))) as [m|] eqn:Hm.
    2:{ apply last_None in Hm. by rewrite Hm in Hnz. }
    apply wp_bind, wp_of_result. simpl. rewrite decode_enc_of.
    apply wp_bind, wp_of_result, wp_ret. split; [done|].
    eexists. rewrite (cons_middle (_, _)), app_assoc in Heq. split; [exact Heq|].
    apply Forall2_app; [done|]. apply Forall2_cons. split; [|constructor].
    pose proof (last_key a _ _ Hwf Hm) as Hk. unfold head_item.
    replace (th_key _) with (t, o) by (symmetry; exact Hk). split; [done|]. by exists m.
  - intros out s' (-> & dn & Heq & Hout). rewrite app_nil_r in Heq. subst dn.
    exists a. split; [|done]. split; [done|]. exists out. split; [done|].
    by eapply head_items_perm.
Qed.

(** ** Sync states *)

Lemma record_refines a db st :
  redb_db_rep a db → paired st →
  wp e (redb_record_peer_sync_state st) (post (OpRecord st) a) db.
Proof.
  intros Hrep Hp. pose proof (rr_wf _ _ Hrep) as Hwf. unfold redb_record_peer_sync_state.
  apply wp_bind, wp_begin_write; [|by apply post_fault]. apply wp_bind, wp_zoom.
  apply wp_bind, wp_open_table; [|by apply post_fault].
  apply wp_bind, wp_table_get; [|by apply post_fault].
  cbn [txn committed]. rewrite (sync_rep_get a) by (done || apply Hrep).
  assert (transpose (decode <$> (enc_of <$> a_sync a !! sync_id st)) = Ok (a_sync a !! sync_id st))
    as ->.
  { destruct (a_sync a !! sync_id st); simpl; [by rewrite decode_enc_of | done]. }
  apply wp_bind, wp_of_result.
  match goal with |- context [let '(x, y) := ?p in _] => set (pr := p) end.
  assert (mkPeerSyncState (ps_peer st) (ps_topic st) (ps_origin st) (ps_local_head st)
    (ps_remote_head st) (ps_last_synced_head st) (ps_last_attempt_at_ms st) pr.1 pr.2
    (ps_last_error st) = record_spec st a) as Hst.
  { unfold record_spec, pr. by destruct (ps_last_error st), (a_sync a !! sync_id st). }
  destruct pr as [x y]. simpl in Hst. rewrite Hst, encode_ok. apply wp_bind, wp_of_result.
  apply wp_table_insert; [|by apply post_fault]. apply wp_commit; [|by apply post_fault].
  exists (set_sync (sync_id st) (record_spec st a) a). split; [done|].
  destruct Hrep as [_ Hlogs Hheads Htombs Hqueues Hseqs Hsync]. split; simpl; try done.
  - by apply record_wf.
  - by apply (tombs_rep_ext a).
  - by apply sync_rep_insert.
Qed.

Lemma sync_items_perm a s out :
  redb_rep a s →
  Forall2 (λ (item : string * bytes) st, item.1 = peer_sync_key st ∧ item.2 = enc_of st ∧
             a_sync a !! sync_id st = Some st) (tbl_range "" (PEER_SYNC s)) out →
  out ≡ₚ (map_to_list (a_sync a)).*2.
Proof.
  intros Hrep Hout. pose proof (rr_wf _ _ Hrep) as Hwf.
  assert (∀ k st, (k, st) ∈ map_to_list (a_sync a) → sync_id st = k) as Hid.
  { intros k st Hin%elem_of_map_to_list. by apply (wf_sync _ Hwf) in Hin as []. }
  apply NoDup_Permutation.
  - apply (NoDup_fmap_1 peer_sync_key).
    assert (peer_sync_key <$> out = (tbl_range "" (PEER_SYNC s)).*1) as ->.
    { eapply Forall2_fmap_eq; [exact Hout|]. by intros x y [-> _]. }
    apply key_sorted_nodup, tbl_range_sorted.
  - by apply sync_states_NoDup.
  - intros st. rewrite list_elem_of_fmap. split.
    + intros (i & Hi)%list_elem_of_lookup.
      destruct (Forall2_lookup_r _ _ _ _ _ Hout Hi) as (item & _ & _ & _ & Hst).
      exists (sync_id st, st). split; [done|]. by apply elem_of_map_to_list.
    + intros ([k st'] & -> & Hin). simpl. pose proof (Hid _ _ Hin) as <-.
      apply elem_of_map_to_list in Hin.
      assert (tbl_get (peer_sync_key st') (PEER_SYNC s) = Some (enc_of st')) as Hg
        by (apply (rr_sync _ _ Hrep); eauto).
      apply range_all, list_elem_of_lookup in Hg as [i Hi].
      destruct (Forall2_lookup_l _ _ _ _ _ Hout Hi) as (st & Hst & _ & He & _).
      apply enc_of_inj in He as ->. by eapply list_elem_of_lookup_2.
Qed.

Lemma list_sync_refines a db :
  redb_db_rep a db → wp e redb_list_peer_sync_states (post OpListSync a) db.
Proof.
  intros Hrep. unfold redb_list_peer_sync_states.
  apply wp_bind, wp_begin_read; [|by apply post_fault]. apply wp_zoom.
  apply wp_bind, wp_open_table; [|by apply post_fault].
  apply wp_bind, wp_table_range; [|by apply post_fault].
  apply (wp_for_each e _ _ _ (λ l out s', s' = committed db ∧ ∃ dn,
           tbl_range "" (PEER_SYNC (committed db)) = dn ++ l ∧
           Forall2 (λ (item : string * bytes) st, item.1 = peer_sync_key st ∧
             item.2 = enc_of st ∧ a_sync a !! sync_id st = Some st) dn out)).
  - split; [done|]. by exists [].
  - intros [k v] l out s' (-> & dn & Heq & Hout).
    apply wp_bind, wp_next_item; [|by apply post_fault].
    assert (tbl_get k (PEER_SYNC (committed db)) = Some v) as Hg
      by (apply range_all; rewrite Heq; set_solver).
    apply (rr_sync _ _ Hrep) in Hg as (st & Hst & -> & ->). rewrite decode_enc_of.
    apply wp_bind, wp_of_result, wp_ret. split; [done|].
    eexists. rewrite (cons_middle (_, _)), app_assoc in Heq. split; [exact Heq|].
    apply Forall2_app; [done|]. by repeat constructor.
  - intros out s' (-> & dn & Heq & Hout). rewrite app_nil_r in Heq. subst dn.
    exists a. split; [|done]. split; [done|]. exists out. split; [done|].
    by eapply sync_items_perm.
Qed.
End refine.
