(* ===== verification/Redb.v ===== *)
(** * Redb: theorems about the redb backend

    The backend discharges the store contract; what follows for histories,
    deletion, queues and failures. *)

From Stdlib Require Import Ascii String NArith ZArith Lia Sorting.Sorted.
From stdpp Require Import base strings list gmap sorting.
From S2P Require Import Prelude Strings Core Table RedbKeys Json Spec History RedbStore RedbRep RedbRefine Concrete.

Section redb_refinement.
Context {T : Type → Type} {OT : OrderedTable T} {OTL : OrderedTableLaws T}.
Context {B64 : Base64} {B64L : Base64Laws}.
Context {JM : Json StoredMessage} {JML : JsonLaws StoredMessage}.
Context {JF : Json StoredFifoMessage} {JFL : JsonLaws StoredFifoMessage}.
Context {JT : Json TombstoneRange} {JTL : JsonLaws TombstoneRange}.
Context {JP : Json PeerSyncState} {JPL : JsonLaws PeerSyncState}.

Lemma redb_refines_op {A} (op : StoreOp A) :
  refines_op (DB := RedbStore T) redb_db_rep no_limit op.
Proof.
  intros e a db Hty Hrep. destruct op; simpl in Hty.
  - by apply append_refines.
  - apply fetch_refines; [done | apply Hty].
  - by apply get_head_refines.
  - by apply list_heads_refines.
  - apply put_replicated_refines; [done | apply Hty].
  - destruct Hty. by apply tombstone_refines.
  - destruct Hty. by apply tombstone_marker_refines.
  - by apply enqueue_refines.
  - by apply peek_refines.
  - by apply ack_refines.
  - by apply reject_refines.
  - by apply record_refines.
  - by apply list_sync_refines.
Qed.

#[export] Instance redb_refinement : StoreRefinement (RedbStore T) := {|
  rep := redb_db_rep;
  limited := no_limit;
  rep_wf := λ a db H, rr_wf a (committed db) H;
  store_refines := @redb_refines_op;
|}.

(** ** Atomicity: an operation that fails has changed nothing *)

Lemma keeps_begin_write : keeps (committed (T := T)) begin_write.
Proof. intros e db. unfold begin_write. wp_run; done. Qed.
Lemma keeps_begin_read : keeps (committed (T := T)) begin_read.
Proof. apply keeps_io. Qed.
Lemma keeps_in_txn {A} (m : M MsgbusError (Tables T) A) : keeps (committed (T := T)) (in_txn m).
Proof. by apply keeps_zoom. Qed.
Lemma keeps_in_read {A} (m : M MsgbusError (Tables T) A) : keeps (committed (T := T)) (in_read m).
Proof. by apply keeps_zoom. Qed.
Lemma atomic_commit : atomic (committed (T := T)) commit.
Proof. intros e db. unfold commit. wp_run; done. Qed.
Lemma atomic_commit_ret {A} (x : A) : atomic (committed (T := T)) (commit;; mret x).
Proof. intros e db. unfold commit. wp_run; done. Qed.

Hint Resolve keeps_begin_write keeps_begin_read keeps_in_txn keeps_in_read atomic_commit atomic_commit_ret : frames.

Lemma store_and_finish_atomic m key : atomic (committed (T := T)) (store_and_finish m key).
Proof.
  unfold store_and_finish. do 4 (apply atomic_bind; [by auto with frames|intros ?]).
  apply atomic_bind; [|intros _; apply atomic_commit_ret]. case_match; auto with frames.
Qed.

Lemma put_replicated_atomic m : atomic (committed (T := T)) (redb_put_replicated_message m).
Proof.
  unfold redb_put_replicated_message. case_match; [auto with frames|]. atomic_run.
  repeat case_match; auto using store_and_finish_atomic with frames.
Qed.

Lemma redb_atomic {A} (op : StoreOp A) : atomic (committed (T := T)) (run_op (DB := RedbStore T) op).
Proof.
  destruct op; simpl; [..|apply put_replicated_atomic| | | | | | | | ].
  - unfold redb_append_message. atomic_run.
  - unfold redb_fetch_messages. atomic_run.
  - unfold redb_get_head. atomic_run.
  - unfold redb_list_heads. atomic_run.
  - unfold redb_tombstone_range. case_match; atomic_run.
  - unfold redb_tombstone_range_with_marker. case_match; atomic_run.
  - unfold redb_enqueue_fifo. atomic_run.
  - unfold redb_peek_fifo. atomic_run.
  - unfold redb_ack_fifo, update_fifo_front. atomic_run.
  - unfold redb_reject_fifo, update_fifo_front. atomic_run.
  - unfold redb_record_peer_sync_state. atomic_run.
  - unfold redb_list_peer_sync_states. atomic_run.
Qed.

(** ** Without faults every operation answers as specified *)

Lemma redb_answers {A} (op : StoreOp A) e a db :
  no_faults e → op_typed op → redb_db_rep a db →
  wp e (run_op op) (λ r db', ∃ a', spec_op e op a r a' ∧ redb_db_rep a' db') db.
Proof.
  intros Hnf Hty Hrep. eapply wp_mono; [by apply redb_refines_op|].
  intros [x|x] db'; [done|]. intros [Hrep' [H|[[]|H]]].
  - by destruct (no_faults_has_fault e).
  - by exists a.
Qed.

(** ** Queues *)

(** Enqueue a list of messages; take the front and acknowledge it, [n] times. *)
Fixpoint enqueue_all (ms : list NewFifoMessage)
    : M MsgbusError (RedbStore T) (list StoredFifoMessage) :=
  match ms with
  | [] => mret []
  | m :: ms' => s ← redb_enqueue_fifo m; l ← enqueue_all ms'; mret (s :: l)
  end.

Fixpoint drain (q : QueueName) (n : nat) : M MsgbusError (RedbStore T) (list StoredFifoMessage) :=
  match n with
  | O => mret []
  | S n' =>
      front ← redb_peek_fifo q;
      match front with
      | None => mret []
      | Some m => _ ← redb_ack_fifo q (sf_id m); l ← drain q n'; mret (m :: l)
      end
  end.

(** A stored queue message holds what was enqueued. *)
Definition carries (m : NewFifoMessage) (s : StoredFifoMessage) : Prop :=
  sf_id s = nf_id m ∧ sf_queue s = nf_queue m ∧ sf_topic s = nf_topic m ∧
  sf_source s = nf_source m ∧ sf_target s = nf_target m ∧ sf_payload s = nf_payload m ∧
  sf_headers s = nf_headers m ∧ sf_attempts s = 0%N.

Lemma enqueue_all_ok e ms q a db :
  no_faults e → redb_db_rep a db → Forall (λ m, queue_str (nf_queue m) = q) ms →
  (seq_of a q + N.of_nat (length ms) ≤ u64_max)%N →
  wp e (enqueue_all ms) (λ r db', ∃ l a', r = Ok l ∧ Forall2 carries ms l ∧
    queue_of a' q = queue_of a q ++ l ∧ redb_db_rep a' db') db.
Proof.
  intros Hnf Hrep Hq. revert a db Hrep. induction Hq as [|m ms Hm _ IH]; intros a db Hrep Hroom; simpl.
  { apply wp_ret. exists [], a. by rewrite app_nil_r. }
  apply wp_bind. eapply wp_mono; [by apply (redb_answers (OpEnqueue m) e a)|].
  intros r db' (a' & (now & _ & -> & ->) & Hrep'). simpl in Hroom.
  unfold enqueue_spec in *. cbn [fst snd] in *. rewrite Hm in *.
  rewrite u64_saturating_succ in * by lia.
  apply wp_bind. eapply wp_mono; [apply (IH _ _ Hrep')|].
  { rewrite seq_of_set_queue, decide_True by done. lia. }
  intros r db'' (l & a2 & -> & Hl & Hqueue & Hrep2). apply wp_ret.
  eexists _, a2. split; [done|]. split; [by constructor|]. split; [|done].
  rewrite Hqueue, queue_of_set_queue, decide_True, <- app_assoc by done. simpl. f_equal.
  apply filter_all. intros x Hx.
  destruct (wf_queue_entry _ (rr_wf _ _ Hrep) _ _ Hx). lia.
Qed.

Lemma drain_ok e q a db :
  no_faults e → redb_db_rep a db →
  wp e (drain q (length (queue_of a (queue_str q))))
    (λ r db', r = Ok (queue_of a (queue_str q)) ∧
       ∃ a', redb_db_rep a' db' ∧ queue_of a' (queue_str q) = []) db.
Proof.
  intros Hnf Hrep. remember (queue_of a (queue_str q)) as l eqn:Hl. symmetry in Hl.
  revert a db Hl Hrep. induction l as [|m l IH]; intros a db Hl Hrep; simpl.
  { apply wp_ret. split; [done|]. by exists a. }
  apply wp_bind. eapply wp_mono; [by apply (redb_answers (OpPeek q) e a)|].
  intros r db' (a' & [-> ->] & Hrep'). rewrite Hl. simpl.
  apply wp_bind. eapply wp_mono; [by apply (redb_answers (OpAck q (sf_id m)) e a)|].
  intros r db'' (a' & [-> ->] & Hrep''). unfold ack_spec in *. rewrite Hl in *.
  rewrite bool_decide_true in * by done. simpl in *.
  pose proof (queue_of_set_queue (queue_str q) (seq_of a (queue_str q)) l a (queue_str q)) as Hl'.
  rewrite decide_True in Hl' by done.
  apply wp_bind. eapply wp_mono; [apply (IH _ _ Hl' Hrep'')|].
  intros r db3 (-> & a3 & Hrep3 & Hq3). apply wp_ret. split; [done|]. by exists a3.
Qed.

(** ** Deletion lasts *)

Lemma covered_in ts f t h : (f, t) ∈ ts → (f ≤ h ≤ t)%N → covered ts h = true.
Proof. intros. apply covered_iff. by exists f, t. Qed.

Lemma fetch_spec_key q a m : wf a → m ∈ fetch_spec q a →
  m ∈ log_of a (key_of (fq_topic q) (fq_origin q)).
Proof.
  intros Hwf Hm. unfold fetch_spec in Hm.
  apply elem_of_take in Hm as (i & Hi & _). apply list_elem_of_lookup_2 in Hi.
  by apply list_elem_of_filter in Hi as [_ Hi].
Qed.
End redb_refinement.

(** ** The properties *)

(** C1: in every environment, each of the thirteen operations of the redb store
    refines the abstract store: from tables that represent a well-formed abstract
    state, it ends (whatever engine calls fail) either with the answer and the
    state the specification gives, or with an error and the represented state
    unchanged, and an error without an engine fault is one the specification
    gives. *)
Theorem redb_refines {T : Type → Type} `{OTL : OrderedTableLaws T} `{B64L : Base64Laws}
    `{JML : JsonLaws StoredMessage} `{JFL : JsonLaws StoredFifoMessage}
    `{JTL : JsonLaws TombstoneRange} `{JPL : JsonLaws PeerSyncState}
    {A} (op : StoreOp A) e a (db : RedbStore T) :
  op_typed op → redb_db_rep a db →
  wp e (run_op op) (λ r db',
    match r with
    | Ok x => ∃ a', spec_op e op a (Ok x) a' ∧ redb_db_rep a' db' ∧ wf a'
    | Err x => redb_db_rep a db' ∧ (has_fault e ∨ spec_op e op a (Err x) a)
    end) db.
Proof.
  intros Hty Hrep. eapply wp_mono; [by apply redb_refines_op|].
  intros [x|x] db'.
  - intros (a' & Hs & Hrep'). exists a'. split; [done|]. split; [done | apply Hrep'].
  - intros [? [?|[[]|?]]]; auto.
Qed.

Lemma redb_refines_witness :
  wp env0 (run_op (OpAppend (mkNewMessage (mkMessageId "m1") topic_events node_a [] ∅)))
    (λ r db', match r with
              | Ok x => ∃ a', spec_op env0 (OpAppend (mkNewMessage (mkMessageId "m1") topic_events
                                        node_a [] ∅)) abs_empty (Ok x) a' ∧
                              redb_db_rep a' db' ∧ wf a'
              | Err x => redb_db_rep abs_empty db' ∧
                         (has_fault env0 ∨ spec_op env0 (OpAppend (mkNewMessage (mkMessageId "m1")
                            topic_events node_a [] ∅)) abs_empty (Err x) abs_empty)
              end) (empty_db (T := GTable)).
Proof. apply redb_refines; [done | apply empty_rep]. Defined.

(** A redb operation that returns an error leaves the committed tables as
    they were, whichever engine call fails and whatever the tables hold. *)
Theorem redb_error_atomic {T : Type → Type} `{!OrderedTable T, !Base64, !Json StoredMessage,
    !Json StoredFifoMessage, !Json TombstoneRange, !Json PeerSyncState}
    {A} (op : StoreOp A) e (db : RedbStore T) :
  wp e (run_op op) (λ r db', is_ok r = false → committed db' = committed db) db.
Proof. apply redb_atomic. Qed.

(** Along any sequence of operations, each in its own environment and with
    any failures, the redb tables keep representing a well-formed state in which
    every earlier log entry is still at its number with its content, deleted
    entries stay deleted and tombstones stay; the logs must not reach
    [u64::MAX] entries. *)
Theorem redb_log_append_only {T : Type → Type} `{OTL : OrderedTableLaws T} `{B64L : Base64Laws}
    `{JML : JsonLaws StoredMessage} `{JFL : JsonLaws StoredFifoMessage}
    `{JTL : JsonLaws TombstoneRange} `{JPL : JsonLaws PeerSyncState}
    calls t a (db : RedbStore T) :
  Forall call_typed calls → redb_db_rep a db →
  (∀ k, (log_head (log_of a k) + N.of_nat (length calls) ≤ u64_max)%N) →
  ∃ a', redb_db_rep a' (run_calls t calls db).2 ∧ wf a' ∧ store_le a a'.
Proof.
  intros Hty Hrep Hroom. destruct (run_history (SR := redb_refinement) calls t a db Hty Hrep Hroom) as (a' & Hrep' & Hle).
  exists a'. split; [done|]. split; [apply Hrep' | done].
Qed.

Lemma redb_log_append_only_witness :
  ∃ a', redb_db_rep a'
    (run_calls 0 [mkCall _ (OpAppend (mkNewMessage (mkMessageId "m1") topic_events node_a [] ∅)) env0;
                  mkCall _ (OpTombstone topic_events node_a 1 1) env_faulty]
       (empty_db (T := GTable))).2 ∧ wf a' ∧ store_le abs_empty a'.
Proof.
  apply redb_log_append_only; [repeat constructor; done | apply empty_rep | done].
Defined.

(** C15: once a range of a log has been deleted, no later sequence of redb
    operations brings it back: whatever is appended, replicated or retried
    afterwards, and whatever fails, every message of that range a fetch returns
    is marked deleted. *)
Theorem redb_deletion_lasts {T : Type → Type} `{OTL : OrderedTableLaws T} `{B64L : Base64Laws}
    `{JML : JsonLaws StoredMessage} `{JFL : JsonLaws StoredFifoMessage}
    `{JTL : JsonLaws TombstoneRange} `{JPL : JsonLaws PeerSyncState}
    calls topic origin from to n e t t1 (a : AbsStore) (db db1 : RedbStore T) e' q :
  is_u64 from → is_u64 to → redb_db_rep a db →
  (∀ k, (log_head (log_of a k) + N.of_nat (length calls) < u64_max)%N) →
  redb_tombstone_range topic origin from to e t db = (Ok n, t1, db1) →
  Forall call_typed calls →
  fq_topic q = topic → fq_origin q = origin → is_u64 (fq_from_head_id q) →
  is_u32 (fq_limit q) →
  wp e' (redb_fetch_messages q)
    (λ r _, match r with
            | Ok out => Forall (λ m, (from ≤ sm_head_id m ≤ to)%N → sm_deleted m = true) out
            | Err _ => has_fault e'
            end) (run_calls t1 calls db1).2.
Proof.
  intros Hf Ht Hrep Hroom Hrun Hcalls <- <- Hqu Hql.
  pose proof (tombstone_refines e a db (fq_topic q) (fq_origin q) from to Hrep Hf Ht t) as Hp.
  rewrite Hrun in Hp. destruct Hp as (a1 & Hs & Hrep1). cbn [spec_op] in Hs.
  destruct (to <? from)%N; [by destruct Hs|]. destruct Hs as [_ ->].
  set (k := key_of (fq_topic q) (fq_origin q)) in *.
  destruct (run_history (SR := redb_refinement) calls t1 _ _ Hcalls Hrep1) as (a2 & Hrep2 & Hle).
  { intros k'. rewrite tombstone_head. specialize (Hroom k'). lia. }
  eapply wp_mono; [by apply (fetch_refines e' a2)|].
  intros [out|x] db'; [|intros [_ [?|[[]|[? _]]]]; done].
  intros (a3 & [[= ->] ->] & _). apply Forall_forall. intros m Hm Hr.
  apply fetch_spec_key in Hm; [|apply Hrep2].
  apply (wf_tomb _ (rr_wf _ _ Hrep2) _ _ Hm). apply (covered_in _ from to); [|done].
  apply (Hle k). unfold tombstone_spec. cbn [snd]. rewrite tombs_of_set_tombs, decide_True by done.
  set_solver.
Qed.

Lemma redb_deletion_lasts_witness :
  wp env0 (redb_fetch_messages (mkFetchQuery topic_events node_a 1 10))
    (λ r _, match r with
            | Ok out => Forall (λ m, (1 ≤ sm_head_id m ≤ 5)%N → sm_deleted m = true) out
            | Err _ => has_fault env0
            end)
    (run_calls 7 [mkCall _ (OpAppend (mkNewMessage (mkMessageId "m1") topic_events node_a [] ∅)) env0]
       (redb_tombstone_range topic_events node_a 1 5 env0 0 (empty_db (T := GTable))).2).2.
Proof.
  apply (redb_deletion_lasts [mkCall _ (OpAppend (mkNewMessage (mkMessageId "m1") topic_events
           node_a [] ∅)) env0] topic_events node_a 1 5 0 env0 0 7 abs_empty (empty_db (T := GTable)));
    [done|done|apply empty_rep|done|apply pair_fst; vm_compute; reflexivity|repeat constructor|done|done|done|done].
Defined.

(** C16: redb queues are first in, first out, and lose and duplicate nothing:
    enqueuing messages on an empty queue and then taking and acknowledging the
    front once per message yields exactly the enqueued messages, in order, with
    their content, and leaves the queue empty. *)
Theorem redb_fifo_order {T : Type → Type} `{OTL : OrderedTableLaws T} `{B64L : Base64Laws}
    `{JML : JsonLaws StoredMessage} `{JFL : JsonLaws StoredFifoMessage}
    `{JTL : JsonLaws TombstoneRange} `{JPL : JsonLaws PeerSyncState}
    e ms q a (db : RedbStore T) :
  no_faults e → redb_db_rep a db → queue_of a (queue_str q) = [] →
  Forall (λ m, queue_str (nf_queue m) = queue_str q) ms →
  (seq_of a (queue_str q) + N.of_nat (length ms) ≤ u64_max)%N →
  wp e (_ ← enqueue_all ms; drain q (length ms))
    (λ r db', ∃ out a', r = Ok out ∧ Forall2 carries ms out ∧
       redb_db_rep a' db' ∧ queue_of a' (queue_str q) = []) db.
Proof.
  intros Hnf Hrep Hempty Hq Hroom. apply wp_bind.
  eapply wp_mono; [by apply (enqueue_all_ok e ms (queue_str q) a)|].
  intros r db' (l & a' & -> & Hl & Hqueue & Hrep'). rewrite Hempty in Hqueue. simpl in Hqueue.
  rewrite (Forall2_length _ _ _ Hl), <- Hqueue. eapply wp_mono; [by apply drain_ok|].
  intros r db'' (-> & a2 & Hrep2 & Hq2). exists l, a2. by rewrite Hqueue.
Qed.

Definition fifo_m (i : string) : NewFifoMessage :=
  mkNewFifoMessage (mkMessageId i) (mkQueueName "jobs") topic_events node_a node_b [Byte.x01] ∅.

Lemma redb_fifo_order_witness :
  wp env0 (_ ← enqueue_all [fifo_m "a"; fifo_m "b"]; drain (mkQueueName "jobs") 2)
    (λ r db', ∃ out a', r = Ok out ∧ Forall2 carries [fifo_m "a"; fifo_m "b"] out ∧
       redb_db_rep a' db' ∧ queue_of a' "jobs" = []) (empty_db (T := GTable)).
Proof.
  apply (redb_fifo_order env0 [fifo_m "a"; fifo_m "b"] (mkQueueName "jobs") abs_empty);
    [apply env0_no_faults | apply empty_rep | done | by repeat constructor | done].
Defined.

(** C32: the head counter saturates: when it stands at [u64::MAX], an append
    reports success, gives the new message the number [u64::MAX] again and
    overwrites the entry stored there. *)
Theorem redb_append_at_max {T : Type → Type} `{OTL : OrderedTableLaws T} `{B64L : Base64Laws}
    `{JML : JsonLaws StoredMessage} `{!Json StoredFifoMessage, !Json TombstoneRange,
    !Json PeerSyncState} e m (db : RedbStore T) :
  no_faults e → tbl_range (tombstone_prefix (nm_topic m) (nm_origin m)) (TOMBSTONES (committed db)) = [] →
  tbl_get (head_key (nm_topic m) (nm_origin m)) (HEADS (committed db)) = Some u64_max →
  wp e (redb_append_message m) (λ r db', ∃ s, r = Ok s ∧ sm_head_id s = u64_max ∧
    sm_id s = nm_id m ∧ sm_deleted s = false ∧
    tbl_get (head_key (nm_topic m) (nm_origin m)) (HEADS (committed db')) = Some u64_max ∧
    tbl_get (message_key (nm_topic m) (nm_origin m) u64_max) (MESSAGES (committed db'))
      = Some (enc_of s)) db.
Proof.
  intros Hnf Htomb Hhead t. unfold redb_append_message, append_message_in_txn, begin_write, commit,
    in_txn, zoom, table_get, table_insert, apply_tombstone_markers, open_table, table_range, now_ms,
    read_clock, get_state, modify, io, mbind, M_bind, mret, M_ret, of_result.
  repeat (rewrite Hnf || rewrite Htomb || rewrite Hhead || rewrite encode_ok || cbn -[u64_max enc_of message_key]).
  eexists. split; [reflexivity|]. repeat (split; [reflexivity|]).
  rewrite !tbl_get_insert, !decide_True by done. by rewrite u64_saturating_top.
Qed.

Definition full_db : RedbStore GTable :=
  let s := set_HEADS (tbl_insert (head_key topic_events node_a) u64_max tbl_empty) empty_tables in
  mkRedb s s.

Lemma redb_append_at_max_witness :
  wp env0 (redb_append_message (mkNewMessage (mkMessageId "m1") topic_events node_a [] ∅))
    (λ r db', ∃ s, r = Ok s ∧ sm_head_id s = u64_max ∧
      sm_id s = mkMessageId "m1" ∧ sm_deleted s = false ∧
      tbl_get (head_key topic_events node_a) (HEADS (committed db')) = Some u64_max ∧
      tbl_get (message_key topic_events node_a u64_max) (MESSAGES (committed db'))
        = Some (enc_of s)) full_db.
Proof.
  apply (redb_append_at_max env0 (mkNewMessage (mkMessageId "m1") topic_events node_a [] ∅));
    [apply env0_no_faults | reflexivity | vm_compute; reflexivity].
Defined.

(** Message keys sort as their numbers do within a log, and keys of
    different logs or different numbers are different: the byte order of the
    table is the order of the log, over the whole range of [u64]. *)
Theorem message_key_order `{B64L : Base64Laws} t o h t' o' h' :
  is_u64 h → is_u64 h' →
  (slt (message_key t o h) (message_key t o h') ↔ (h < h')%N) ∧
  (message_key t o h = message_key t' o' h' ↔
     topic_str t = topic_str t' ∧ NodeId.key o = NodeId.key o' ∧ h = h').
Proof.
  intros Hh Hh'. split; [by apply fmt_020_slt|]. unfold message_key.
  change (message_prefix t o) with (message_prefix_of (topic_str t) (NodeId.key o)).
  change (message_prefix t' o') with (message_prefix_of (topic_str t') (NodeId.key o')).
  split; [|by intros (-> & -> & ->)].
  intros Heq. apply message_prefix_inj in Heq as (Ht & Ho & Heq). split; [done|]. split; [done|].
  rewrite <- (app_nil_r_string (fmt_020 h)), <- (app_nil_r_string (fmt_020 h')) in Heq.
  by apply fmt_020_inj in Heq as [? _].
Qed.

Lemma message_key_order_witness :
  (slt (message_key topic_events node_a 9) (message_key topic_events node_a 10) ↔ (9 < 10)%N) ∧
  (message_key topic_events node_a 9 = message_key topic_events node_b 10 ↔
     topic_str topic_events = topic_str topic_events ∧ NodeId.key node_a = NodeId.key node_b
     ∧ 9%N = 10%N).
Proof. apply message_key_order; done. Defined.
