(* ===== verification/SqliteStore.v ===== *)
(** * SqliteStore: the SQLite backend

    Models [crates/msgbus-store-sqlite/src/lib.rs].  The rows have the columns of
    the schema in [initialize]; INTEGER columns are [Z], TEXT is [string], BLOB is
    [bytes].  Each SQL statement of the source is one definition over the tables.
    The connection is behind a mutex, so operations do not interleave; a
    transaction works on a copy of the tables that [commit] makes the database,
    and a transaction that is dropped is rolled back.  Every call into the engine
    goes through [io] and may fail.  The texts of rusqlite's errors are
    parameters. *)

From Stdlib Require Import String NArith ZArith.
From stdpp Require Import base strings list gmap sorting.
From S2P Require Import Prelude Strings Core Json Sql.

(** ** The schema *)

Record HeadRow := mkHeadRow {
  h_topic : string;
  h_origin_key : string;
  h_head_id : Z;
}.

Record MessageRow := mkMessageRow {
  mr_topic : string;
  mr_origin_key : string;
  mr_origin_json : string;
  mr_head_id : Z;
  mr_id : string;
  mr_payload : bytes;
  mr_headers_json : string;
  mr_created_at_ms : Z;
  mr_deleted : Z;
}.

Record TombstoneRow := mkTombstoneRow {
  tb_topic : string;
  tb_origin_key : string;
  tb_from_head_id : Z;
  tb_to_head_id : Z;
  tb_created_at_ms : Z;
  tb_range_json : string;
}.

Record SequenceRow := mkSequenceRow {
  sq_queue : string;
  sq_sequence : Z;
}.

Record FifoRow := mkFifoRow {
  fr_queue : string;
  fr_sequence : Z;
  fr_id : string;
  fr_topic : string;
  fr_source_json : string;
  fr_target_json : string;
  fr_payload : bytes;
  fr_headers_json : string;
  fr_created_at_ms : Z;
  fr_attempts : Z;
}.

Record PeerRow := mkPeerRow {
  pr_peer : string;
  pr_topic_key : string;
  pr_origin_key : string;
  pr_state_json : string;
}.

Record Database := mkDatabase {
  heads : list HeadRow;
  messages : list MessageRow;
  tombstones : list TombstoneRow;
  fifo_sequences : list SequenceRow;
  fifo_messages : list FifoRow;
  peer_sync_states : list PeerRow;
}.

(** Primary keys, and the clash an [INSERT] runs into: on the primary key or on
    the unique index over [id]. *)
Definition heads_pk (r : HeadRow) := (h_topic r, h_origin_key r).
Definition log_of_row (r : MessageRow) := (mr_topic r, mr_origin_key r).
Definition messages_pk (r : MessageRow) := (mr_topic r, mr_origin_key r, mr_head_id r).
Definition tombstones_pk (r : TombstoneRow) :=
  (tb_topic r, tb_origin_key r, tb_from_head_id r, tb_to_head_id r).
Definition fifo_pk (r : FifoRow) := (fr_queue r, fr_sequence r).
Definition peers_pk (r : PeerRow) := (pr_peer r, pr_topic_key r, pr_origin_key r).

Definition messages_clash (x y : MessageRow) : Prop :=
  messages_pk x = messages_pk y ∨ mr_id x = mr_id y.
#[export] Instance messages_clash_dec : RelDecision messages_clash.
Proof. unfold messages_clash. intros x y. solve_decision. Defined.

Definition fifo_clash (x y : FifoRow) : Prop := fifo_pk x = fifo_pk y ∨ fr_id x = fr_id y.
#[export] Instance fifo_clash_dec : RelDecision fifo_clash.
Proof. unfold fifo_clash. intros x y. solve_decision. Defined.

Definition empty_database : Database := mkDatabase [] [] [] [] [] [].

Definition set_heads (t : list HeadRow) (d : Database) : Database :=
  mkDatabase t (messages d) (tombstones d) (fifo_sequences d) (fifo_messages d) (peer_sync_states d).
Definition set_messages (t : list MessageRow) (d : Database) : Database :=
  mkDatabase (heads d) t (tombstones d) (fifo_sequences d) (fifo_messages d) (peer_sync_states d).
Definition set_tombstones (t : list TombstoneRow) (d : Database) : Database :=
  mkDatabase (heads d) (messages d) t (fifo_sequences d) (fifo_messages d) (peer_sync_states d).
Definition set_fifo_sequences (t : list SequenceRow) (d : Database) : Database :=
  mkDatabase (heads d) (messages d) (tombstones d) t (fifo_messages d) (peer_sync_states d).
Definition set_fifo_messages (t : list FifoRow) (d : Database) : Database :=
  mkDatabase (heads d) (messages d) (tombstones d) (fifo_sequences d) t (peer_sync_states d).
Definition set_peer_sync_states (t : list PeerRow) (d : Database) : Database :=
  mkDatabase (heads d) (messages d) (tombstones d) (fifo_sequences d) (fifo_messages d) t.

Record SqliteStore := mkSqlite {
  conn : Database;
  tx : Database;
}.

Inductive FifoFrontAction : Type := Ack | Reject.

(** The texts of rusqlite's errors: a failed constraint on a table, a conversion
    failure that wraps another error, an integer that does not fit. *)
Class SqliteTexts := {
  constraint_failed : string → string;
  conversion_failed : string → string;
  out_of_range : Z → string;
}.

(** ** Conversions *)

Definition storage_err (err : string) : MsgbusError := Storage err.

Definition fmt_i64 (z : Z) : string :=
  if (z <? 0)%Z then "-" +:+ fmt_u64 (Z.to_N (- z)) else fmt_u64 (Z.to_N z).

Definition u64_to_i64 (value : N) : Result Z :=
  if (Z.of_N value <=? i64_max)%Z then Ok (Z.of_N value)
  else Err (InvalidArgument (fmt_u64 value +:+ " exceeds i64")).

Definition i64_to_u64 (value : Z) : Result N :=
  if (0 <=? value)%Z then Ok (Z.to_N value)
  else Err (Storage ("negative integer stored in sqlite: " +:+ fmt_i64 value)).

Definition effective_limit (limit : N) : nat :=
  if (limit =? 0)%N then 100%nat else N.to_nat (N.min limit 10000).

Definition same_message_except_deleted (left right : StoredMessage) : bool :=
  bool_decide (sm_id left = sm_id right)
  && bool_decide (sm_topic left = sm_topic right)
  && bool_decide (sm_origin left = sm_origin right)
  && bool_decide (sm_head_id left = sm_head_id right)
  && bool_decide (sm_payload left = sm_payload right)
  && bool_decide (sm_headers left = sm_headers right)
  && bool_decide (sm_created_at_ms left = sm_created_at_ms right).

Definition peer_sync_keys (state : PeerSyncState) : string * string :=
  (from_option topic_str "" (ps_topic state), from_option NodeId.key "" (ps_origin state)).

Section sqlite.
Context {SX : SqliteTexts} {JN : Json NodeId} {JH : Json (gmap string string)}.
Context {JT : Json TombstoneRange} {JP : Json PeerSyncState}.

(** A [rusqlite::Result]: the error is only ever shown. *)
Abbreviation SqlResult := (result string).

Definition sql_from_msgbus (err : MsgbusError) : string := conversion_failed (error_to_string err).

(** [row.get::<_, u32>] and [row.get::<_, bool>] *)
Definition get_u32 (z : Z) : SqlResult N :=
  if (0 <=? z)%Z && (z <=? Z.of_N u32_max)%Z then Ok (Z.to_N z) else Err (out_of_range z).
Definition get_bool (z : Z) : bool := negb (z =? 0)%Z.

Definition row_to_message (row : MessageRow) : SqlResult StoredMessage :=
  head_id ← map_err sql_from_msgbus (i64_to_u64 (mr_head_id row));
  created_at_ms ← map_err sql_from_msgbus (i64_to_u64 (mr_created_at_ms row));
  let deleted := get_bool (mr_deleted row) in
  id ← map_err sql_from_msgbus (MessageId_from_string (mr_id row));
  topic ← map_err sql_from_msgbus (Topic_new (mr_topic row));
  origin ← map_err sql_from_msgbus (decode_json (mr_origin_json row));
  headers ← map_err sql_from_msgbus (decode_json (mr_headers_json row));
  Ok (mkStoredMessage id topic origin head_id (mr_payload row) headers created_at_ms deleted).

Definition row_to_fifo (row : FifoRow) : SqlResult StoredFifoMessage :=
  sequence ← map_err sql_from_msgbus (i64_to_u64 (fr_sequence row));
  created_at_ms ← map_err sql_from_msgbus (i64_to_u64 (fr_created_at_ms row));
  attempts ← get_u32 (fr_attempts row);
  id ← map_err sql_from_msgbus (MessageId_from_string (fr_id row));
  queue ← map_err sql_from_msgbus (QueueName_new (fr_queue row));
  topic ← map_err sql_from_msgbus (Topic_new (fr_topic row));
  source ← map_err sql_from_msgbus (decode_json (fr_source_json row));
  target ← map_err sql_from_msgbus (decode_json (fr_target_json row));
  headers ← map_err sql_from_msgbus (decode_json (fr_headers_json row));
  Ok (mkStoredFifoMessage id queue topic source target (fr_payload row) headers created_at_ms
        sequence attempts).

(** The closure of [list_heads] on a joined row. *)
Definition row_to_head (row : HeadRow * MessageRow) : SqlResult TopicHead :=
  head_id ← map_err sql_from_msgbus (i64_to_u64 (h_head_id row.1));
  topic ← map_err sql_from_msgbus (Topic_new (h_topic row.1));
  origin ← map_err sql_from_msgbus (decode_json (mr_origin_json row.2));
  Ok (mkTopicHead topic origin head_id).

(** ** The connection *)

Abbreviation Tx := (M MsgbusError Database).
Abbreviation Op := (M MsgbusError SqliteStore).

Definition connection : Op unit :=
  io (λ err, Storage ("sqlite connection lock poisoned: " +:+ err)).
Definition transaction : Op unit :=
  io storage_err;; modify (λ s, mkSqlite (conn s) (conn s)).
Definition commit : Op unit :=
  io storage_err;; modify (λ s, mkSqlite (tx s) (tx s)).
Definition in_tx {A} (m : Tx A) : Op A := zoom tx (λ d s, mkSqlite (conn s) d) m.
Definition in_conn {A} (m : Tx A) : Op A := zoom conn (λ d s, mkSqlite d (tx s)) m.

(** [prepare(sql).map_err(storage_err)?] *)
Definition prepare : Tx unit := io storage_err.

(** [query_row(sql, params, f).optional().map_err(storage_err)?] *)
Definition query_row {R A} (select : Database → list R) (f : R → SqlResult A) : Tx (option A) :=
  io storage_err;;
  d ← get_state;
  match select d with
  | [] => mret None
  | row :: _ => a ← of_result (map_err storage_err (f row)); mret (Some a)
  end.

(** [query_map(params, f)] and the loop that collects the rows: each step of the
    statement may fail, the last one included. *)
Definition query_all {R A} (select : Database → list R) (f : R → SqlResult A) : Tx (list A) :=
  io storage_err;;
  d ← get_state;
  out ← for_each (select d) (λ row out,
    io storage_err;;
    a ← of_result (map_err storage_err (f row));
    mret (Continue (out ++ [a]))) [];
  io storage_err;;
  mret out.

(** [execute(sql, params).map_err(storage_err)?] *)
Definition execute (stmt : Database → SqlResult (N * Database)) : Tx N :=
  io storage_err;;
  d ← get_state;
  match stmt d with
  | Ok (n, d') => put_state d';; mret n
  | Err x => throw (storage_err x)
  end.

(** ** Opening *)

Definition configure : Op unit :=
  in_conn (io storage_err;; io storage_err;; io storage_err).

(** [CREATE TABLE IF NOT EXISTS]: a new database has the six tables, empty; an
    existing one keeps its rows. *)
Definition initialize : Op unit := in_conn (io storage_err).

Definition sqlite_open : Op unit := io storage_err;; configure;; initialize.

Definition open_in_memory : Op unit :=
  io storage_err;;
  put_state (mkSqlite empty_database empty_database);;
  configure;;
  initialize.

(** ** Statements *)

(** [SELECT head_id FROM heads WHERE topic = ?1 AND origin_key = ?2], and the
    same value through [i64_to_u64] *)
Definition select_head (topic origin_key : string) (d : Database) : list HeadRow :=
  filter (λ r, h_topic r = topic ∧ h_origin_key r = origin_key) (heads d).

Definition query_head (topic origin_key : string) : Tx (option N) :=
  head ← query_row (select_head topic origin_key) (λ r, Ok (h_head_id r));
  of_result (transpose (i64_to_u64 <$> head)).

(** [INSERT INTO heads ... ON CONFLICT(topic, origin_key) DO UPDATE SET head_id =
    excluded.head_id] *)
Definition upsert_head (r : HeadRow) (d : Database) : SqlResult (N * Database) :=
  Ok (1%N, set_heads (upsert (same_key heads_pk)
    (λ new old, mkHeadRow (h_topic old) (h_origin_key old) (h_head_id new)) r (heads d)) d).

(** [INSERT INTO messages(...)] *)
Definition insert_message (r : MessageRow) (d : Database) : SqlResult (N * Database) :=
  match insert_into messages_clash r (messages d) with
  | Some t => Ok (1%N, set_messages t d)
  | None => Err (constraint_failed "messages")
  end.

(** [SELECT ... FROM messages WHERE topic = ?1 AND origin_key = ?2 AND head_id >=
    ?3 ORDER BY head_id ASC LIMIT ?4] *)
Definition select_messages (topic origin_key : string) (from : Z) (limit : nat) (d : Database)
    : list MessageRow :=
  take limit (order_by (col_le mr_head_id)
    (filter (λ r, mr_topic r = topic ∧ mr_origin_key r = origin_key ∧ (from ≤ mr_head_id r)%Z)
       (messages d))).

(** [SELECT ... FROM messages WHERE topic = ?1 AND origin_key = ?2 AND head_id = ?3] *)
Definition select_message (topic origin_key : string) (head_id : Z) (d : Database)
    : list MessageRow :=
  filter (λ r, mr_topic r = topic ∧ mr_origin_key r = origin_key ∧ mr_head_id r = head_id)
    (messages d).

(** [SELECT ... FROM heads h JOIN messages m ON ... ORDER BY h.topic, h.origin_key] *)
Definition heads_le (x y : HeadRow * MessageRow) : Prop :=
  slt (h_topic x.1) (h_topic y.1) ∨
  h_topic x.1 = h_topic y.1 ∧ sle (h_origin_key x.1) (h_origin_key y.1) = true.
#[export] Instance heads_le_dec : RelDecision heads_le.
Proof. unfold heads_le, slt. intros x y. solve_decision. Defined.

Definition select_heads (d : Database) : list (HeadRow * MessageRow) :=
  order_by heads_le
    (h ← heads d;
     m ← filter (λ m, mr_topic m = h_topic h ∧ mr_origin_key m = h_origin_key h ∧
                      mr_head_id m = h_head_id h) (messages d);
     [(h, m)]).

Definition mark_row (r : MessageRow) : MessageRow :=
  mkMessageRow (mr_topic r) (mr_origin_key r) (mr_origin_json r) (mr_head_id r) (mr_id r)
    (mr_payload r) (mr_headers_json r) (mr_created_at_ms r) 1.

(** [UPDATE messages SET deleted = TRUE WHERE topic = ?1 AND origin_key = ?2 AND
    head_id = ?3] *)
Definition update_deleted (topic origin_key : string) (head_id : Z) (d : Database)
    : SqlResult (N * Database) :=
  let P := λ r, mr_topic r = topic ∧ mr_origin_key r = origin_key ∧ mr_head_id r = head_id in
  Ok (count_where P (messages d), set_messages (update_where P mark_row (messages d)) d).

(** [UPDATE messages SET deleted = TRUE WHERE ... AND head_id >= ?3 AND head_id <=
    ?4 AND deleted = FALSE] *)
Definition update_deleted_range (topic origin_key : string) (from to : Z) (d : Database)
    : SqlResult (N * Database) :=
  let P := λ r, mr_topic r = topic ∧ mr_origin_key r = origin_key ∧
             (from ≤ mr_head_id r)%Z ∧ (mr_head_id r ≤ to)%Z ∧ mr_deleted r = 0%Z in
  Ok (count_where P (messages d), set_messages (update_where P mark_row (messages d)) d).

(** [INSERT OR IGNORE INTO tombstones(...)] *)
Definition insert_tombstone (r : TombstoneRow) (d : Database) : SqlResult (N * Database) :=
  let t := insert_or_ignore (same_key tombstones_pk) r (tombstones d) in
  Ok (N.of_nat (length t - length (tombstones d)), set_tombstones t d).

(** [SELECT 1 FROM tombstones WHERE topic = ?1 AND origin_key = ?2 AND from_head_id
    <= ?3 AND to_head_id >= ?3 LIMIT 1] *)
Definition select_tombstone (topic origin_key : string) (head_id : Z) (d : Database)
    : list TombstoneRow :=
  take 1 (filter (λ r, tb_topic r = topic ∧ tb_origin_key r = origin_key ∧
                       (tb_from_head_id r ≤ head_id)%Z ∧ (head_id ≤ tb_to_head_id r)%Z)
            (tombstones d)).

(** [SELECT sequence FROM fifo_sequences WHERE queue = ?1], and its upsert *)
Definition select_sequence (queue : string) (d : Database) : list SequenceRow :=
  filter (λ r, sq_queue r = queue) (fifo_sequences d).

Definition upsert_sequence (r : SequenceRow) (d : Database) : SqlResult (N * Database) :=
  Ok (1%N, set_fifo_sequences (upsert (same_key sq_queue)
    (λ new old, mkSequenceRow (sq_queue old) (sq_sequence new)) r (fifo_sequences d)) d).

(** [INSERT INTO fifo_messages(...)] *)
Definition insert_fifo (r : FifoRow) (d : Database) : SqlResult (N * Database) :=
  match insert_into fifo_clash r (fifo_messages d) with
  | Some t => Ok (1%N, set_fifo_messages t d)
  | None => Err (constraint_failed "fifo_messages")
  end.

(** [SELECT ... FROM fifo_messages WHERE queue = ?1 ORDER BY sequence ASC LIMIT 1] *)
Definition select_front (queue : string) (d : Database) : list FifoRow :=
  take 1 (order_by (col_le fr_sequence) (filter (λ r, fr_queue r = queue) (fifo_messages d))).

(** [DELETE FROM fifo_messages WHERE queue = ?1 AND sequence = ?2] *)
Definition delete_fifo (queue : string) (sequence : Z) (d : Database) : SqlResult (N * Database) :=
  let P := λ r, fr_queue r = queue ∧ fr_sequence r = sequence in
  Ok (count_where P (fifo_messages d), set_fifo_messages (delete_where P (fifo_messages d)) d).

(** [UPDATE fifo_messages SET attempts = ?3 WHERE queue = ?1 AND sequence = ?2] *)
Definition set_row_attempts (n : Z) (r : FifoRow) : FifoRow :=
  mkFifoRow (fr_queue r) (fr_sequence r) (fr_id r) (fr_topic r) (fr_source_json r)
    (fr_target_json r) (fr_payload r) (fr_headers_json r) (fr_created_at_ms r) n.

Definition update_attempts (queue : string) (sequence attempts : Z) (d : Database)
    : SqlResult (N * Database) :=
  let P := λ r, fr_queue r = queue ∧ fr_sequence r = sequence in
  Ok (count_where P (fifo_messages d),
      set_fifo_messages (update_where P (set_row_attempts attempts) (fifo_messages d)) d).

(** [SELECT state_json FROM peer_sync_states WHERE peer = ?1 AND topic = ?2 AND
    origin_key = ?3], its upsert, and the listing ordered by the primary key *)
Definition select_peer (peer topic origin_key : string) (d : Database) : list PeerRow :=
  filter (λ r, pr_peer r = peer ∧ pr_topic_key r = topic ∧ pr_origin_key r = origin_key)
    (peer_sync_states d).

Definition upsert_peer (r : PeerRow) (d : Database) : SqlResult (N * Database) :=
  Ok (1%N, set_peer_sync_states (upsert (same_key peers_pk)
    (λ new old, mkPeerRow (pr_peer old) (pr_topic_key old) (pr_origin_key old)
                  (pr_state_json new)) r (peer_sync_states d)) d).

Definition peers_le (x y : PeerRow) : Prop :=
  slt (pr_peer x) (pr_peer y) ∨ pr_peer x = pr_peer y ∧
  (slt (pr_topic_key x) (pr_topic_key y) ∨ pr_topic_key x = pr_topic_key y ∧
   sle (pr_origin_key x) (pr_origin_key y) = true).
#[export] Instance peers_le_dec : RelDecision peers_le.
Proof. unfold peers_le, slt. intros x y. solve_decision. Defined.

Definition select_peers (d : Database) : list PeerRow := order_by peers_le (peer_sync_states d).

(** ** Logs *)

Definition apply_tombstone_markers (message : StoredMessage) : Tx StoredMessage :=
  if sm_deleted message then mret message
  else
    head_id ← of_result (u64_to_i64 (sm_head_id message));
    applies ← query_row (select_tombstone (topic_str (sm_topic message))
                           (NodeId.key (sm_origin message)) head_id) (λ _, Ok tt);
    mret (match applies with Some _ => set_deleted true message | None => message end).

(** The parameters of the two inserts into [messages], converted in order. *)
Definition message_params (message : StoredMessage) : Result MessageRow :=
  origin_json ← encode_json (sm_origin message);
  head_id ← u64_to_i64 (sm_head_id message);
  headers_json ← encode_json (sm_headers message);
  created_at_ms ← u64_to_i64 (sm_created_at_ms message);
  Ok (mkMessageRow (topic_str (sm_topic message)) (NodeId.key (sm_origin message)) origin_json
        head_id (message_id_str (sm_id message)) (sm_payload message) headers_json created_at_ms
        (Z.b2z (sm_deleted message))).

Definition append_message_in_tx (message : NewMessage) : Tx StoredMessage :=
  let topic := topic_str (nm_topic message) in
  let origin_key := NodeId.key (nm_origin message) in
  current ← query_head topic origin_key;
  let next := u64_saturating_add (default 0%N current) 1 in
  head_id ← of_result (u64_to_i64 next);
  execute (upsert_head (mkHeadRow topic origin_key head_id));;
  now ← now_ms;
  let stored := mkStoredMessage (nm_id message) (nm_topic message) (nm_origin message) next
                  (nm_payload message) (nm_headers message) now false in
  stored ← apply_tombstone_markers stored;
  row ← of_result (message_params stored);
  execute (insert_message row);;
  mret stored.

Definition tombstone_range_in_tx (topic : Topic) (origin : NodeId) (from to : HeadId)
    (created_at_ms : N) : Tx N :=
  from_i ← of_result (u64_to_i64 from);
  to_i ← of_result (u64_to_i64 to);
  changed ← execute (update_deleted_range (topic_str topic) (NodeId.key origin) from_i to_i);
  let tombstone := mkTombstoneRange topic origin from to created_at_ms in
  from_i ← of_result (u64_to_i64 from);
  to_i ← of_result (u64_to_i64 to);
  created_i ← of_result (u64_to_i64 (tr_created_at_ms tombstone));
  range_json ← of_result (encode_json tombstone);
  execute (insert_tombstone (mkTombstoneRow (topic_str topic) (NodeId.key origin) from_i to_i
                               created_i range_json));;
  mret changed.

Definition sqlite_append_message (message : NewMessage) : Op StoredMessage :=
  connection;;
  transaction;;
  stored ← in_tx (append_message_in_tx message);
  commit;;
  mret stored.

Definition sqlite_fetch_messages (query : FetchQuery) : Op (list StoredMessage) :=
  connection;;
  in_conn (
    prepare;;
    from ← of_result (u64_to_i64 (fq_from_head_id query));
    query_all (select_messages (topic_str (fq_topic query)) (NodeId.key (fq_origin query)) from
                 (effective_limit (fq_limit query))) row_to_message).

Definition sqlite_get_head (topic : Topic) (origin : NodeId) : Op (option HeadId) :=
  connection;;
  in_conn (query_head (topic_str topic) (NodeId.key origin)).

Definition sqlite_list_heads : Op (list TopicHead) :=
  connection;;
  in_conn (prepare;; query_all select_heads row_to_head).

Definition sqlite_put_replicated_message (message : StoredMessage) : Op ReplicateResult :=
  if (sm_head_id message =? 0)%N
  then throw (InvalidArgument "replicated message head_id must be greater than zero")
  else
    connection;;
    transaction;;
    message ← in_tx (apply_tombstone_markers message);
    let topic := topic_str (sm_topic message) in
    let origin_key := NodeId.key (sm_origin message) in
    let location := "topic=" +:+ topic +:+ " origin=" +:+ origin_key in
    head_id ← of_result (u64_to_i64 (sm_head_id message));
    existing ← in_tx (query_row (select_message topic origin_key head_id) row_to_message);
    match existing with
    | Some existing =>
        if bool_decide (existing = message) then mret AlreadyPresent
        else if same_message_except_deleted existing message && sm_deleted message then
          head_id ← of_result (u64_to_i64 (sm_head_id message));
          in_tx (execute (update_deleted topic origin_key head_id));;
          commit;;
          mret Inserted
        else throw (Conflict ("message conflict at " +:+ location +:+ " head_id="
                                +:+ fmt_u64 (sm_head_id message)))
    | None =>
        current ← in_tx (query_head topic origin_key);
        let current := default 0%N current in
        if (u64_saturating_add current 1 <? sm_head_id message)%N
        then throw (InvalidArgument ("replicated message would create a gap at " +:+ location
                      +:+ " local_head=" +:+ fmt_u64 current
                      +:+ " incoming_head=" +:+ fmt_u64 (sm_head_id message)))
        else
          row ← of_result (message_params message);
          in_tx (execute (insert_message row));;
          (if (current <? sm_head_id message)%N then
             head_id ← of_result (u64_to_i64 (sm_head_id message));
             in_tx (execute (upsert_head (mkHeadRow topic origin_key head_id)));;
             mret tt
           else mret tt);;
          commit;;
          mret Inserted
    end.

Definition sqlite_tombstone_range (topic : Topic) (origin : NodeId) (from to : HeadId) : Op N :=
  if (to <? from)%N
  then throw (InvalidArgument "from_head_id must be <= to_head_id")
  else
    connection;;
    transaction;;
    now ← now_ms;
    changed ← in_tx (tombstone_range_in_tx topic origin from to now);
    commit;;
    mret changed.

Definition sqlite_tombstone_range_with_marker (topic : Topic) (origin : NodeId)
    (from to : HeadId) (marker_topic : Topic) (marker_origin : NodeId)
    : Op (N * StoredMessage) :=
  if (to <? from)%N
  then throw (InvalidArgument "from_head_id must be <= to_head_id")
  else
    connection;;
    transaction;;
    created_at_ms ← now_ms;
    changed ← in_tx (tombstone_range_in_tx topic origin from to created_at_ms);
    let tombstone := mkTombstoneRange topic origin from to created_at_ms in
    payload ← of_result (encode tombstone);
    message ← NewMessage_new marker_topic marker_origin payload ∅;
    marker ← in_tx (append_message_in_tx message);
    commit;;
    mret (changed, marker).

(** ** Queues *)

Definition fifo_params (stored : StoredFifoMessage) : Result FifoRow :=
  sequence ← u64_to_i64 (sf_sequence stored);
  source_json ← encode_json (sf_source stored);
  target_json ← encode_json (sf_target stored);
  headers_json ← encode_json (sf_headers stored);
  created_at_ms ← u64_to_i64 (sf_created_at_ms stored);
  Ok (mkFifoRow (queue_str (sf_queue stored)) sequence (message_id_str (sf_id stored))
        (topic_str (sf_topic stored)) source_json target_json (sf_payload stored) headers_json
        created_at_ms (Z.of_N (sf_attempts stored))).

Definition sqlite_enqueue_fifo (message : NewFifoMessage) : Op StoredFifoMessage :=
  connection;;
  transaction;;
  let queue := queue_str (nf_queue message) in
  current ← in_tx (query_row (select_sequence queue) (λ r, Ok (sq_sequence r)));
  current ← of_result (transpose (i64_to_u64 <$> current));
  let sequence := u64_saturating_add (default 0%N current) 1 in
  sequence_i ← of_result (u64_to_i64 sequence);
  in_tx (execute (upsert_sequence (mkSequenceRow queue sequence_i)));;
  now ← now_ms;
  let stored := mkStoredFifoMessage (nf_id message) (nf_queue message) (nf_topic message)
                  (nf_source message) (nf_target message) (nf_payload message)
                  (nf_headers message) now sequence 0 in
  row ← of_result (fifo_params stored);
  in_tx (execute (insert_fifo row));;
  commit;;
  mret stored.

Definition sqlite_peek_fifo (queue : QueueName) : Op (option StoredFifoMessage) :=
  connection;;
  in_conn (query_row (select_front (queue_str queue)) row_to_fifo).

Definition update_fifo_front (queue : QueueName) (message_id : MessageId)
    (action : FifoFrontAction) : Op bool :=
  connection;;
  transaction;;
  front ← in_tx (query_row (select_front (queue_str queue)) row_to_fifo);
  accepted ← match front with
    | Some message =>
        if bool_decide (sf_id message = message_id) then
          match action with
          | Ack =>
              sequence ← of_result (u64_to_i64 (sf_sequence message));
              in_tx (execute (delete_fifo (queue_str queue) sequence));;
              mret tt
          | Reject =>
              let message := set_attempts (u32_saturating_add (sf_attempts message) 1) message in
              sequence ← of_result (u64_to_i64 (sf_sequence message));
              in_tx (execute (update_attempts (queue_str queue) sequence
                                (Z.of_N (sf_attempts message))));;
              mret tt
          end;;
          mret true
        else mret false
    | None => mret false
    end;
  commit;;
  mret accepted.

Definition sqlite_ack_fifo (queue : QueueName) (message_id : MessageId) : Op bool :=
  update_fifo_front queue message_id Ack.
Definition sqlite_reject_fifo (queue : QueueName) (message_id : MessageId) : Op bool :=
  update_fifo_front queue message_id Reject.

(** ** Sync states *)

Definition sqlite_record_peer_sync_state (state : PeerSyncState) : Op unit :=
  connection;;
  transaction;;
  let '(topic_key, origin_key) := peer_sync_keys state in
  value ← in_tx (query_row (select_peer (ps_peer state) topic_key origin_key)
                   (λ r, Ok (pr_state_json r)));
  previous ← of_result (transpose (decode_json <$> value));
  let '(last_success, failures) :=
    match ps_last_error state with
    | Some _ =>
        match previous with
        | Some previous =>
            (if (ps_last_success_at_ms state =? 0)%N
             then ps_last_success_at_ms previous else ps_last_success_at_ms state,
             u32_saturating_add (ps_consecutive_failures previous) 1)
        | None => (ps_last_success_at_ms state, 1%N)
        end
    | None => (ps_last_success_at_ms state, 0%N)
    end in
  let state :=
    mkPeerSyncState (ps_peer state) (ps_topic state) (ps_origin state)
      (ps_local_head state) (ps_remote_head state) (ps_last_synced_head state)
      (ps_last_attempt_at_ms state) last_success failures (ps_last_error state) in
  state_json ← of_result (encode_json state);
  in_tx (execute (upsert_peer (mkPeerRow (ps_peer state) topic_key origin_key state_json)));;
  commit.

Definition sqlite_list_peer_sync_states : Op (list PeerSyncState) :=
  connection;;
  in_conn (
    prepare;;
    query_all select_peers (λ r, map_err sql_from_msgbus (decode_json (pr_state_json r)))).

#[export] Instance sqlite_store : MsgbusStore SqliteStore := {|
  append_message := sqlite_append_message;
  fetch_messages := sqlite_fetch_messages;
  get_head := sqlite_get_head;
  list_heads := sqlite_list_heads;
  put_replicated_message := sqlite_put_replicated_message;
  tombstone_range := sqlite_tombstone_range;
  tombstone_range_with_marker := sqlite_tombstone_range_with_marker;
  enqueue_fifo := sqlite_enqueue_fifo;
  peek_fifo := sqlite_peek_fifo;
  ack_fifo := sqlite_ack_fifo;
  reject_fifo := sqlite_reject_fifo;
  record_peer_sync_state := sqlite_record_peer_sync_state;
  list_peer_sync_states := sqlite_list_peer_sync_states;
|}.
End sqlite.
