(* ===== verification/SqliteRep.v ===== *)
(** * SqliteRep: how SQLite tables represent the abstract store

    The row of a message, the relation between the six tables and an [AbsStore],
    and how each statement changes it. *)

From Stdlib Require Import String NArith ZArith Lia Sorting.Sorted.
From stdpp Require Import base strings list gmap sorting.
From S2P Require Import Prelude Strings Core Json Spec SpecFacts Sql SqliteStore.

Section rep.
Context {SX : SqliteTexts} {JN : Json NodeId} {JNL : JsonLaws NodeId}.
Context {JH : Json (gmap string string)} {JHL : JsonLaws (gmap string string)}.
Context {JT : Json TombstoneRange} {JTL : JsonLaws TombstoneRange}.
Context {JP : Json PeerSyncState} {JPL : JsonLaws PeerSyncState}.

Implicit Types (a : AbsStore) (d : Database).

(** ** Integers *)

Lemma u64_to_i64_iff n z :
  u64_to_i64 n = Ok z ↔ z = Z.of_N n ∧ (Z.of_N n ≤ i64_max)%Z.
Proof. unfold u64_to_i64. destruct (Z.leb_spec (Z.of_N n) i64_max); naive_solver lia. Qed.

Lemma u64_to_i64_fits n : (Z.of_N n ≤ i64_max)%Z → u64_to_i64 n = Ok (Z.of_N n).
Proof. intros. by apply u64_to_i64_iff. Qed.

Lemma u64_to_i64_over n :
  (i64_max < Z.of_N n)%Z → ∃ x, u64_to_i64 n = Err x.
Proof. unfold u64_to_i64. intros H. destruct (Z.leb_spec (Z.of_N n) i64_max); [lia|eauto]. Qed.

Lemma i64_to_u64_of_N n : i64_to_u64 (Z.of_N n) = Ok n.
Proof. unfold i64_to_u64. rewrite (proj2 (Z.leb_le 0 (Z.of_N n))) by lia. by rewrite N2Z.id. Qed.

Lemma get_u32_of_N n : is_u32 n → get_u32 (Z.of_N n) = Ok n.
Proof.
  intros Hn. unfold get_u32, is_u32 in *.
  rewrite (proj2 (Z.leb_le _ _)), (proj2 (Z.leb_le _ _)) by lia. simpl. by rewrite N2Z.id.
Qed.

Lemma get_bool_b2z b : get_bool (Z.b2z b) = b.
Proof. by destruct b. Qed.

(** ** Rows *)

Definition message_row (m : StoredMessage) : MessageRow :=
  mkMessageRow (topic_str (sm_topic m)) (NodeId.key (sm_origin m)) (str_of (sm_origin m))
    (Z.of_N (sm_head_id m)) (message_id_str (sm_id m)) (sm_payload m) (str_of (sm_headers m))
    (Z.of_N (sm_created_at_ms m)) (Z.b2z (sm_deleted m)).

Definition fifo_row (m : StoredFifoMessage) : FifoRow :=
  mkFifoRow (queue_str (sf_queue m)) (Z.of_N (sf_sequence m)) (message_id_str (sf_id m))
    (topic_str (sf_topic m)) (str_of (sf_source m)) (str_of (sf_target m)) (sf_payload m)
    (str_of (sf_headers m)) (Z.of_N (sf_created_at_ms m)) (Z.of_N (sf_attempts m)).

Definition peer_row (s : PeerSyncState) : PeerRow :=
  mkPeerRow (ps_peer s) (peer_sync_keys s).1 (peer_sync_keys s).2 (str_of s).

(** Names a row is read back with: [row_to_message] and [row_to_fifo] validate
    them again. *)
Definition message_ok (m : StoredMessage) : Prop :=
  valid_part (message_id_str (sm_id m)) ∧ valid_part (topic_str (sm_topic m)).
Definition fifo_ok (m : StoredFifoMessage) : Prop :=
  valid_part (message_id_str (sf_id m)) ∧ valid_part (queue_str (sf_queue m)) ∧
  valid_part (topic_str (sf_topic m)).

Lemma newtype_read {A} (f : string → A) (g : A → string) (new : string → Result A) v :
  (∀ x, f (g x) = x) →
  (∀ s x, new s = Ok x ↔ valid_part s ∧ x = f s) →
  (valid_part (g v) ∧ new (g v) = Ok v) ∨ (¬ valid_part (g v) ∧ ∃ x, new (g v) = Err x).
Proof.
  intros Hfg Hnew. destruct (new (g v)) as [y|x] eqn:Hn.
  - left. apply Hnew in Hn as [? ->]. by rewrite Hfg.
  - right. split; [|eauto]. intros Hv.
    rewrite (proj2 (Hnew (g v) (f (g v)))) in Hn; [done|by split].
Qed.

Lemma topic_read t :
  (valid_part (topic_str t) ∧ Topic_new (topic_str t) = Ok t) ∨
  (¬ valid_part (topic_str t) ∧ ∃ x, Topic_new (topic_str t) = Err x).
Proof. apply (newtype_read mkTopic); [by intros []|apply Topic_new_ok]. Qed.

Lemma queue_read q :
  (valid_part (queue_str q) ∧ QueueName_new (queue_str q) = Ok q) ∨
  (¬ valid_part (queue_str q) ∧ ∃ x, QueueName_new (queue_str q) = Err x).
Proof. apply (newtype_read mkQueueName); [by intros []|apply QueueName_new_ok]. Qed.

Lemma id_read i :
  (valid_part (message_id_str i) ∧ MessageId_from_string (message_id_str i) = Ok i) ∨
  (¬ valid_part (message_id_str i) ∧ ∃ x, MessageId_from_string (message_id_str i) = Err x).
Proof. apply (newtype_read mkMessageId); [by intros []|apply MessageId_from_string_ok]. Qed.

Lemma row_to_message_read m :
  (message_ok m ∧ row_to_message (message_row m) = Ok m) ∨
  (¬ message_ok m ∧ ∃ x, row_to_message (message_row m) = Err x).
Proof.
  unfold row_to_message, message_ok. cbn. rewrite !i64_to_u64_of_N, get_bool_b2z. cbn.
  destruct (id_read (sm_id m)) as [[? ->]|[? [x ->]]]; cbn; [|right; naive_solver].
  destruct (topic_read (sm_topic m)) as [[? ->]|[? [x ->]]]; cbn; [|right; naive_solver].
  rewrite !decode_str_of. cbn. left. by destruct m.
Qed.

Lemma row_to_fifo_read m :
  is_u32 (sf_attempts m) →
  (fifo_ok m ∧ row_to_fifo (fifo_row m) = Ok m) ∨
  (¬ fifo_ok m ∧ ∃ x, row_to_fifo (fifo_row m) = Err x).
Proof.
  intros Hu. unfold row_to_fifo, fifo_ok. cbn. rewrite !i64_to_u64_of_N, get_u32_of_N by done. cbn.
  destruct (id_read (sf_id m)) as [[? ->]|[? [x ->]]]; cbn; [|right; naive_solver].
  destruct (queue_read (sf_queue m)) as [[? ->]|[? [x ->]]]; cbn; [|right; naive_solver].
  destruct (topic_read (sf_topic m)) as [[? ->]|[? [x ->]]]; cbn; [|right; naive_solver].
  rewrite !decode_str_of. cbn. left. by destruct m.
Qed.

(** Writing a row. *)
Lemma message_params_ok m :
  (Z.of_N (sm_head_id m) ≤ i64_max)%Z →
  ((Z.of_N (sm_created_at_ms m) ≤ i64_max)%Z ∧ message_params m = Ok (message_row m)) ∨
  ((i64_max < Z.of_N (sm_created_at_ms m))%Z ∧ ∃ x, message_params m = Err x).
Proof.
  intros Hh. unfold message_params. rewrite !encode_json_ok, (u64_to_i64_fits (sm_head_id m)) by done. cbn.
  destruct (Z.le_gt_cases (Z.of_N (sm_created_at_ms m)) i64_max) as [Hc|Hc].
  - left. by rewrite u64_to_i64_fits.
  - right. destruct (u64_to_i64_over _ Hc) as [x ->]. eauto.
Qed.

Lemma fifo_params_ok m :
  (Z.of_N (sf_sequence m) ≤ i64_max)%Z →
  ((Z.of_N (sf_created_at_ms m) ≤ i64_max)%Z ∧ fifo_params m = Ok (fifo_row m)) ∨
  ((i64_max < Z.of_N (sf_created_at_ms m))%Z ∧ ∃ x, fifo_params m = Err x).
Proof.
  intros Hh. unfold fifo_params. rewrite (u64_to_i64_fits (sf_sequence m)), !encode_json_ok by done. cbn.
  destruct (Z.le_gt_cases (Z.of_N (sf_created_at_ms m)) i64_max) as [Hc|Hc].
  - left. by rewrite u64_to_i64_fits.
  - right. destruct (u64_to_i64_over _ Hc) as [x ->]. eauto.
Qed.

(** ** The representation *)

Definition head_rows (k : log_key) (l : list StoredMessage) : list HeadRow :=
  if (log_head l =? 0)%N then [] else [mkHeadRow k.1 k.2 (Z.of_N (log_head l))].

Definition tombs_rep a (t : list TombstoneRow) : Prop :=
  (∀ r, r ∈ t → (0 ≤ tb_from_head_id r)%Z ∧ (0 ≤ tb_to_head_id r ≤ i64_max)%Z) ∧
  ∀ k f u, (f, u) ∈ tombs_of a k ↔
    ∃ r, r ∈ t ∧ tombstones_pk r = (k.1, k.2, Z.of_N f, Z.of_N u).

Record sqlite_rep a d : Prop := {
  sr_wf : wf a;
  sr_heads : ∀ k, by_key heads_pk k (heads d) = head_rows k (log_of a k);
  sr_messages : ∀ k, by_key log_of_row k (messages d) ≡ₚ message_row <$> log_of a k;
  sr_tombs : tombs_rep a (tombstones d);
  sr_seqs : ∀ q, default 0%Z (sq_sequence <$> head (by_key sq_queue q (fifo_sequences d)))
                 = Z.of_N (seq_of a q);
  sr_seq_max : ∀ q, (Z.of_N (seq_of a q) ≤ i64_max)%Z;
  sr_queues : ∀ q, by_key fr_queue q (fifo_messages d) ≡ₚ fifo_row <$> queue_of a q;
  sr_attempts : ∀ q x, x ∈ queue_of a q → is_u32 (sf_attempts x);
  sr_sync : ∀ r, r ∈ peer_sync_states d ↔ ∃ s, a_sync a !! sync_id s = Some s ∧ r = peer_row s;
  sr_sync_pk : NoDup (peers_pk <$> peer_sync_states d);
}.

Lemma sqlite_empty_rep : sqlite_rep abs_empty empty_database.
Proof.
  split; simpl; try done; [apply wf_empty| |by intros q x ?%elem_of_nil| |constructor].
  - split; [intros r Hr; by apply elem_of_nil in Hr|]. intros k f u. unfold tombs_of. simpl.
    rewrite lookup_empty. split; [by intros ?%elem_of_empty|].
    by intros (r & ?%elem_of_nil & _).
  - intros r. split; [by intros ?%elem_of_nil|]. by intros (s & ? & _).
Qed.

(** ** Heads *)

Lemma select_head_rows a d t o :
  sqlite_rep a d → select_head t o d = head_rows (t, o) (log_of a (t, o)).
Proof.
  intros Hrep. rewrite <- (sr_heads _ _ Hrep). apply list_filter_iff.
  intros r. unfold heads_pk. naive_solver.
Qed.

(** What [query_head] computes from the rows. *)
Lemma head_rows_value k l :
  transpose (i64_to_u64 <$> (h_head_id <$> head (head_rows k l)))
  = Ok (if (log_head l =? 0)%N then None else Some (log_head l)).
Proof. unfold head_rows. case_match; [done|]. simpl. by rewrite i64_to_u64_of_N. Qed.

Lemma head_default l :
  default 0%N (if (log_head l =? 0)%N then None else Some (log_head l)) = log_head l.
Proof. destruct (N.eqb_spec (log_head l) 0); simpl; lia. Qed.

Lemma heads_upsert a d k l k' :
  (∀ k, by_key heads_pk k (heads d) = head_rows k (log_of a k)) → log_head l ≠ 0%N →
  by_key heads_pk k' (upsert (same_key heads_pk)
    (λ new old, mkHeadRow (h_topic old) (h_origin_key old) (h_head_id new))
    (mkHeadRow k.1 k.2 (Z.of_N (log_head l))) (heads d))
  = head_rows k' (log_of (set_log k l a) k').
Proof.
  intros Hrep Hl. rewrite by_key_upsert by (intros x Hx; exact Hx).
  rewrite log_of_set_log, Hrep.
  change (heads_pk (mkHeadRow k.1 k.2 (Z.of_N (log_head l)))) with (k.1, k.2).
  rewrite <- surjective_pairing. destruct (decide (k = k')) as [<-|]; [|done].
  unfold head_rows. rewrite (proj2 (N.eqb_neq _ _) Hl).
  by destruct (log_head (log_of a k) =? 0)%N.
Qed.

Lemma heads_same a d k l :
  (∀ k, by_key heads_pk k (heads d) = head_rows k (log_of a k)) →
  log_head l = log_head (log_of a k) →
  ∀ k', by_key heads_pk k' (heads d) = head_rows k' (log_of (set_log k l a) k').
Proof.
  intros Hrep Hl k'. rewrite log_of_set_log, Hrep. case_decide; [subst|done].
  unfold head_rows. by rewrite Hl.
Qed.

(** ** Messages *)

Lemma messages_elem a d r :
  sqlite_rep a d → r ∈ messages d ↔ ∃ k m, m ∈ log_of a k ∧ r = message_row m.
Proof.
  intros Hrep. split.
  - intros Hr. apply (by_key_own log_of_row) in Hr. rewrite (sr_messages _ _ Hrep) in Hr.
    apply list_elem_of_fmap in Hr as (m & -> & Hm). eauto.
  - intros (k & m & Hm & ->). assert (message_row m ∈ by_key log_of_row k (messages d)) as Hin.
    { rewrite (sr_messages _ _ Hrep). apply list_elem_of_fmap. eauto. }
    by apply by_key_elem in Hin as [_ ?].
Qed.

Definition id_used a (i : MessageId) : Prop := ∃ k m, m ∈ log_of a k ∧ sm_id m = i.

(** The next entry of a log clashes with a stored row only on the id. *)
Lemma next_clash a d k m :
  sqlite_rep a d → msg_key m = k → sm_head_id m = (log_head (log_of a k) + 1)%N →
  Exists (messages_clash (message_row m)) (messages d) → id_used a (sm_id m).
Proof.
  intros Hrep Hk Hh (r & Hr & Hc)%Exists_exists.
  apply (messages_elem a) in Hr as (k' & m' & Hm' & ->); [|done].
  destruct Hc as [Hpk|Hid].
  - exfalso. unfold messages_pk in Hpk. simpl in Hpk. injection Hpk as H1 H2 H3.
    apply list_elem_of_lookup in Hm' as [i Hi]. pose proof (lookup_lt_Some _ _ _ Hi) as Hlt.
    destruct (wf_entry _ (sr_wf _ _ Hrep) _ _ _ Hi) as [Hhi Hki].
    assert (k' = k) as -> by (rewrite <- Hki, <- Hk; unfold msg_key, key_of; congruence).
    unfold log_head in Hh. lia.
  - exists k', m'. split; [done|]. simpl in Hid. destruct (sm_id m), (sm_id m'). simpl in *. congruence.
Qed.

(** Appending an entry, with its head. *)
Lemma append_rep a d k m :
  let l := log_of a k ++ [m] in
  sqlite_rep a d → msg_key m = k → wf (set_log k l a) →
  sqlite_rep (set_log k l a)
    (mkDatabase (upsert (same_key heads_pk)
       (λ new old, mkHeadRow (h_topic old) (h_origin_key old) (h_head_id new))
       (mkHeadRow k.1 k.2 (Z.of_N (log_head l))) (heads d))
      (messages d ++ [message_row m]) (tombstones d) (fifo_sequences d) (fifo_messages d)
      (peer_sync_states d)).
Proof.
  intros l [Hwf Hheads Hmsgs Htombs Hseqs Hmax Hqueues Hatt Hsync Hpk] Hk Hwf'. split; simpl; try done.
  - intros k'. apply heads_upsert; [done|]. unfold l, log_head. rewrite length_app. simpl. lia.
  - intros k'. rewrite by_key_snoc, log_of_set_log. change (log_of_row (message_row m)) with (msg_key m).
    rewrite Hk. repeat case_decide; try congruence.
    + subst. unfold l. rewrite fmap_app. simpl. by rewrite (Hmsgs (msg_key m)).
    + rewrite app_nil_r. apply Hmsgs.
Qed.

Lemma message_row_mark m : message_row (set_deleted true m) = mark_row (message_row m).
Proof. done. Qed.

(** Marking the entries of one log that satisfy [P]. *)
Lemma mark_rep a d k (P : MessageRow → Prop) `{!∀ r, Decision (P r)} (f : StoredMessage → StoredMessage) :
  sqlite_rep a d → wf (set_log k (f <$> log_of a k) a) →
  (∀ r, P r → log_of_row r = k) →
  (∀ m, m ∈ log_of a k →
     message_row (f m) = if decide (P (message_row m)) then mark_row (message_row m)
                         else message_row m) →
  sqlite_rep (set_log k (f <$> log_of a k) a)
    (set_messages (update_where P mark_row (messages d)) d).
Proof.
  intros [Hwf Hheads Hmsgs Htombs Hseqs Hmax Hqueues Hatt Hsync Hpk] Hwf' HP Hf. split; simpl; try done.
  - apply heads_same; [done|]. unfold log_head. by rewrite length_fmap.
  - intros k'. rewrite by_key_update, log_of_set_log by done. unfold update_where.
    rewrite (Hmsgs k'). case_decide as Hk.
    + subst k'. rewrite <- !list_fmap_compose. erewrite list_fmap_ext; [done|].
      intros i m Hm. simpl. rewrite Hf by (by eapply list_elem_of_lookup_2). done.
    + rewrite <- list_fmap_compose. erewrite list_fmap_ext; [done|].
      intros i m Hm. simpl. case_decide as Hp; [|done]. apply HP in Hp.
      destruct (wf_entry _ Hwf _ _ _ Hm) as [_ Hmk]. change (msg_key m = k) in Hp. congruence.
Qed.

Lemma rows_sorted l :
  StronglySorted head_lt l →
  StronglySorted (λ x y, (mr_head_id x < mr_head_id y)%Z) (message_row <$> l).
Proof.
  induction 1 as [|m l Hs IH Hm]; csimpl; constructor; [done|].
  apply Forall_fmap. eapply Forall_impl; [exact Hm|]. unfold head_lt. simpl. lia.
Qed.

Lemma select_messages_rows a d t o from lim :
  sqlite_rep a d →
  select_messages t o (Z.of_N from) lim d
  = message_row <$> take lim (filter (λ m, (from ≤ sm_head_id m)%N) (log_of a (t, o))).
Proof.
  intros Hrep. unfold select_messages. rewrite fmap_take. f_equal.
  rewrite (filter_by_key log_of_row _ (λ r, (Z.of_N from ≤ mr_head_id r)%Z) (t, o))
    by (intros r; unfold log_of_row; naive_solver).
  apply order_by_col.
  - rewrite (sr_messages _ _ Hrep), (fmap_filter _ _ (λ m, (from ≤ sm_head_id m)%N)); [done|].
    intros m _. simpl. lia.
  - apply rows_sorted, head_sorted_filter, log_sorted, Hrep.
Qed.

(** At most one row has a given number. *)
Lemma select_message_rows a d k h :
  sqlite_rep a d → h ≠ 0%N →
  select_message k.1 k.2 (Z.of_N h) d
  = option_list (message_row <$> log_of a k !! (N.to_nat h - 1)%nat).
Proof.
  intros Hrep Hnz. unfold select_message.
  rewrite (filter_by_key log_of_row _ (λ r, mr_head_id r = Z.of_N h) k)
    by (intros r; unfold log_of_row; destruct k; naive_solver).
  pose proof (sr_messages _ _ Hrep k) as Hp. apply (filter_Permutation (λ r, mr_head_id r = Z.of_N h)) in Hp.
  rewrite (fmap_filter _ _ (λ m, sm_head_id m = h)) in Hp by (intros m _; simpl; lia).
  assert (filter (λ m, sm_head_id m = h) (log_of a k)
          = option_list (log_of a k !! (N.to_nat h - 1)%nat)) as Hf.
  { pose proof (wf_entry _ (sr_wf _ _ Hrep) k) as Hent. revert Hent.
    generalize (log_of a k) as l. intros l Hent.
    destruct (l !! (N.to_nat h - 1)%nat) as [m|] eqn:Hm; simpl.
    - rewrite <- (take_drop_middle l _ m Hm) at 1. rewrite filter_app, filter_cons.
      destruct (Hent _ _ Hm) as [Hh _]. rewrite decide_True by lia.
      assert (filter (λ m, sm_head_id m = h) (take (N.to_nat h - 1) l) = []) as ->.
      { apply filter_none. intros x (i & Hi & Hlt)%elem_of_take.
        destruct (Hent _ _ Hi). lia. }
      assert (filter (λ m, sm_head_id m = h) (drop (S (N.to_nat h - 1)) l) = []) as ->; [|done].
      apply filter_none. intros x (i & Hi)%list_elem_of_lookup.
      rewrite lookup_drop in Hi. destruct (Hent _ _ Hi). lia.
    - apply filter_none. intros x (i & Hi)%list_elem_of_lookup Hx.
      destruct (Hent _ _ Hi) as [Hh _]. apply lookup_lt_Some in Hi.
      apply lookup_ge_None in Hm. lia. }
  rewrite Hf in Hp. destruct (log_of a k !! _) as [m|]; simpl in *.
  - by apply Permutation_singleton_r in Hp.
  - by apply Permutation_nil_r in Hp.
Qed.

(** ** Tombstones *)

Lemma select_tombstone_covered a d k h :
  tombs_rep a (tombstones d) →
  covered (tombs_of a k) h = true ↔ select_tombstone k.1 k.2 (Z.of_N h) d ≠ [].
Proof.
  intros [Hpos Htombs]. unfold select_tombstone.
  set (t := filter _ _). rewrite covered_iff.
  assert (take 1 t ≠ [] ↔ ∃ r, r ∈ t) as ->.
  { destruct t as [|r t]; simpl; [split; [done|by intros (r & ?%elem_of_nil)]|].
    split; [intros _; exists r; by left | done]. }
  split.
  - intros (f & u & Hin & Hr). apply Htombs in Hin as (r & Hin & Hpk).
    unfold tombstones_pk in Hpk. injection Hpk as Ht Ho Hf Hu. exists r. apply list_elem_of_filter.
    split; [|done]. split; [done|]. split; [done|]. lia.
  - intros (r & Hin). apply list_elem_of_filter in Hin as ((Ht & Ho & Hf & Hu) & Hin). destruct (Hpos r Hin).
    exists (Z.to_N (tb_from_head_id r)), (Z.to_N (tb_to_head_id r)). split; [|lia].
    apply Htombs. exists r. split; [done|]. unfold tombstones_pk.
    rewrite !Z2N.id by lia. by rewrite Ht, Ho.
Qed.

Lemma tombs_insert a t k f u r :
  tombs_rep a t → tombstones_pk r = (k.1, k.2, Z.of_N f, Z.of_N u) → (Z.of_N u ≤ i64_max)%Z →
  tombs_rep (set_tombs k ({[(f, u)]} ∪ tombs_of a k) a)
    (insert_or_ignore (same_key tombstones_pk) r t).
Proof.
  intros [Hpos Ht] Hr Hmax. unfold insert_or_ignore.
  assert (∀ x, x ∈ (if decide (Exists (same_key tombstones_pk r) t) then t else t ++ [r]) ↔
               x ∈ t ∨ (x = r ∧ ¬ Exists (same_key tombstones_pk r) t)) as Hel.
  { intros x. case_decide; [naive_solver|]. rewrite elem_of_app, list_elem_of_singleton. naive_solver. }
  assert (tb_from_head_id r = Z.of_N f ∧ tb_to_head_id r = Z.of_N u) as [Hf Hu]
    by (unfold tombstones_pk in Hr; by simplify_eq).
  split.
  - intros x [Hx|[-> _]]%Hel; [by apply Hpos|]. rewrite Hf, Hu. lia.
  - intros k' f' u'. rewrite tombs_of_set_tombs. setoid_rewrite Hel.
    split.
    + destruct (decide (k = k')) as [<-|]; [|intros (x & ? & ?)%Ht; eauto].
      intros [Hin|Hin]%elem_of_union; [|apply Ht in Hin as (x & ? & ?); eauto].
      apply elem_of_singleton in Hin as [= -> ->].
      destruct (decide (Exists (same_key tombstones_pk r) t)) as [He|]; [|by eauto].
      apply Exists_exists in He as (x & Hx & Hsame). exists x. split; [by left|].
      rewrite <- Hr. done.
    + intros (x & [Hx|[-> _]] & Hpk).
      * destruct (decide (k = k')) as [<-|]; [apply elem_of_union_r|]; apply Ht; eauto.
      * rewrite Hr in Hpk. assert (k = k' ∧ f = f' ∧ u = u') as (-> & -> & ->).
        { destruct k, k'. simpl in Hpk. simplify_eq. split; [done|]. lia. }
        rewrite decide_True by done. set_solver.
Qed.

(** A stored tombstone ends inside [i64]. *)
Lemma tombs_rep_max a t k f u : tombs_rep a t → (f, u) ∈ tombs_of a k → (Z.of_N u ≤ i64_max)%Z.
Proof.
  intros [Hpos Ht] (r & Hr & Hpk)%Ht. destruct (Hpos r Hr) as [_ Hto].
  unfold tombstones_pk in Hpk. injection Hpk as _ _ _ Hu. lia.
Qed.

(** ** Queues *)

Lemma fifo_rows_sorted l :
  StronglySorted seq_lt l →
  StronglySorted (λ x y, (fr_sequence x < fr_sequence y)%Z) (fifo_row <$> l).
Proof.
  induction 1 as [|m l Hs IH Hm]; csimpl; constructor; [done|].
  apply Forall_fmap. eapply Forall_impl; [exact Hm|]. unfold seq_lt. simpl. lia.
Qed.

Lemma select_front_rows a d q :
  sqlite_rep a d → select_front q d = option_list (fifo_row <$> head (queue_of a q)).
Proof.
  intros Hrep. unfold select_front.
  rewrite (order_by_col fr_sequence _ (fifo_row <$> queue_of a q)).
  - by destruct (queue_of a q).
  - apply (sr_queues _ _ Hrep).
  - apply fifo_rows_sorted, Hrep.
Qed.

Definition fifo_id_used a (i : MessageId) : Prop := ∃ q m, m ∈ queue_of a q ∧ sf_id m = i.

Lemma fifo_elem a d r :
  sqlite_rep a d → r ∈ fifo_messages d ↔ ∃ q m, m ∈ queue_of a q ∧ r = fifo_row m.
Proof.
  intros Hrep. split.
  - intros Hr. apply (by_key_own fr_queue) in Hr. rewrite (sr_queues _ _ Hrep) in Hr.
    apply list_elem_of_fmap in Hr as (m & -> & Hm). eauto.
  - intros (q & m & Hm & ->). assert (fifo_row m ∈ by_key fr_queue q (fifo_messages d)) as Hin.
    { rewrite (sr_queues _ _ Hrep). apply list_elem_of_fmap. eauto. }
    by apply by_key_elem in Hin as [_ ?].
Qed.

Lemma fifo_next_clash a d m :
  sqlite_rep a d → (seq_of a (queue_str (sf_queue m)) < sf_sequence m)%N →
  Exists (fifo_clash (fifo_row m)) (fifo_messages d) → fifo_id_used a (sf_id m).
Proof.
  intros Hrep Hseq (r & Hr & Hc)%Exists_exists.
  apply (fifo_elem a) in Hr as (q & m' & Hm' & ->); [|done]. destruct Hc as [Hpk|Hid].
  - exfalso. unfold fifo_pk in Hpk. simpl in Hpk. injection Hpk as H1 H2.
    destruct (wf_queue_entry _ (sr_wf _ _ Hrep) _ _ Hm') as [Hle Hq].
    rewrite H1, Hq in Hseq. lia.
  - exists q, m'. split; [done|]. simpl in Hid. destruct (sf_id m), (sf_id m'). simpl in *. congruence.
Qed.

Lemma seqs_upsert a d q n l q' :
  (∀ q, default 0%Z (sq_sequence <$> head (by_key sq_queue q (fifo_sequences d)))
        = Z.of_N (seq_of a q)) →
  default 0%Z (sq_sequence <$> head (by_key sq_queue q' (upsert (same_key sq_queue)
    (λ new old, mkSequenceRow (sq_queue old) (sq_sequence new)) (mkSequenceRow q (Z.of_N n))
    (fifo_sequences d))))
  = Z.of_N (seq_of (set_queue q n l a) q').
Proof.
  intros Hrep. rewrite by_key_upsert by (intros x Hx; exact Hx). rewrite seq_of_set_queue. simpl.
  destruct (decide (q = q')) as [<-|]; [|apply Hrep]. by destruct (by_key _ _ _).
Qed.

Lemma seqs_same a d q l q' :
  (∀ q, default 0%Z (sq_sequence <$> head (by_key sq_queue q (fifo_sequences d)))
        = Z.of_N (seq_of a q)) →
  default 0%Z (sq_sequence <$> head (by_key sq_queue q' (fifo_sequences d)))
  = Z.of_N (seq_of (set_queue q (seq_of a q) l a) q').
Proof. intros Hrep. rewrite seq_of_set_queue, Hrep. case_decide; by subst. Qed.

(** Rewriting one queue. *)
Lemma queue_rep a d q n l seqs fifos :
  sqlite_rep a d → wf (set_queue q n l a) → (Z.of_N n ≤ i64_max)%Z →
  (∀ q', default 0%Z (sq_sequence <$> head (by_key sq_queue q' seqs))
         = Z.of_N (seq_of (set_queue q n l a) q')) →
  by_key fr_queue q fifos ≡ₚ fifo_row <$> l →
  (∀ q', q' ≠ q → by_key fr_queue q' fifos = by_key fr_queue q' (fifo_messages d)) →
  (∀ x, x ∈ l → is_u32 (sf_attempts x)) →
  sqlite_rep (set_queue q n l a)
    (mkDatabase (heads d) (messages d) (tombstones d) seqs fifos (peer_sync_states d)).
Proof.
  intros [Hwf Hheads Hmsgs Htombs Hseqs Hmax Hqueues Hatt Hsync Hpk] Hwf' Hn Hs Hq Hother Hl.
  split; simpl; try done.
  - intros q'. rewrite seq_of_set_queue. case_decide; [done | apply Hmax].
  - intros q'. rewrite queue_of_set_queue. case_decide; [by subst|]. rewrite Hother by done. apply Hqueues.
  - intros q' x. rewrite queue_of_set_queue. case_decide; [apply Hl | apply Hatt].
Qed.

(** ** Sync states *)

Lemma peer_keys_inj s1 s2 :
  paired s1 → paired s2 → peers_pk (peer_row s1) = peers_pk (peer_row s2) → sync_id s1 = sync_id s2.
Proof.
  unfold paired, peers_pk, peer_row, peer_sync_keys, sync_id. simpl. intros H1 H2 H. injection H as -> Ht Ho.
  assert (∀ n, "" ≠ NodeId.key n) as Hne.
  { intros n Hn. pose proof (key_contains_slash n) as Hc. by rewrite <- Hn in Hc. }
  destruct (ps_origin s1) as [o1|], (ps_origin s2) as [o2|]; simpl in *.
  - destruct (proj2 H1 ltac:(eauto)) as [t1 Et1], (proj2 H2 ltac:(eauto)) as [t2 Et2].
    rewrite Et1, Et2 in *. simpl in *. congruence.
  - by destruct (Hne o1).
  - by destruct (Hne o2).
  - destruct (ps_topic s1); [by destruct (proj1 H1 ltac:(eauto))|].
    destruct (ps_topic s2); [by destruct (proj1 H2 ltac:(eauto))|]. done.
Qed.

Lemma peer_keys_eq s1 s2 :
  sync_id s1 = sync_id s2 → peers_pk (peer_row s1) = peers_pk (peer_row s2).
Proof.
  unfold sync_id, peers_pk, peer_row, peer_sync_keys. simpl. intros H. injection H as -> Ht Ho.
  f_equal; [f_equal|].
  - destruct (ps_topic s1), (ps_topic s2); simplify_eq/=; congruence.
  - destruct (ps_origin s1), (ps_origin s2); simplify_eq/=; congruence.
Qed.

Lemma NoDup_key_unique {R K} (key : R → K) (t : list R) x y :
  NoDup (key <$> t) → x ∈ t → y ∈ t → key x = key y → x = y.
Proof.
  induction t as [|z t IH]; csimpl; [by intros _ ?%elem_of_nil|].
  intros [Hz Hnd]%NoDup_cons [->|Hx]%elem_of_cons [->|Hy]%elem_of_cons Hk; [done| | |by apply IH].
  - destruct Hz. rewrite Hk. by apply list_elem_of_fmap_2.
  - destruct Hz. rewrite <- Hk. by apply list_elem_of_fmap_2.
Qed.

Lemma select_peer_rows a d s :
  sqlite_rep a d → paired s →
  select_peer (ps_peer s) (peer_sync_keys s).1 (peer_sync_keys s).2 d
  = option_list (peer_row <$> a_sync a !! sync_id s).
Proof.
  intros Hrep Hp. unfold select_peer.
  set (P := λ r, pr_peer r = ps_peer s ∧ pr_topic_key r = (peer_sync_keys s).1 ∧
                 pr_origin_key r = (peer_sync_keys s).2).
  assert (∀ r, P r ↔ peers_pk r = peers_pk (peer_row s)) as HP.
  { intros r. unfold P, peers_pk. simpl. split; [by intros (-> & -> & ->) | by intros [= -> -> ->]]. }
  assert (∀ r, r ∈ filter P (peer_sync_states d) ↔
               r ∈ option_list (peer_row <$> a_sync a !! sync_id s)) as Hel.
  { intros r. rewrite list_elem_of_filter, HP, (sr_sync _ _ Hrep). split.
    - intros (Hk & s' & Hs' & ->). apply peer_keys_inj in Hk; [|by apply (wf_sync _ (sr_wf _ _ Hrep)) in Hs' as []|done].
      rewrite <- Hk, Hs'. by left.
    - destruct (a_sync a !! sync_id s) as [s'|] eqn:Hs'; [|by intros ?%elem_of_nil].
      intros ->%list_elem_of_singleton.
      destruct (wf_sync _ (sr_wf _ _ Hrep) _ _ Hs') as [Hid _].
      split; [by apply peer_keys_eq|]. exists s'. by rewrite Hid. }
  assert (NoDup (filter P (peer_sync_states d))) as Hnd.
  { apply NoDup_filter. eapply NoDup_fmap_1. apply (sr_sync_pk _ _ Hrep). }
  assert (filter P (peer_sync_states d) ≡ₚ option_list (peer_row <$> a_sync a !! sync_id s)) as Hperm.
  { apply NoDup_Permutation; [done| |done]. destruct (a_sync a !! _); [apply NoDup_singleton | constructor]. }
  destruct (a_sync a !! sync_id s); simpl in *.
  - by apply Permutation_singleton_r in Hperm.
  - by apply Permutation_nil_r in Hperm.
Qed.

Lemma sync_rep a d s r :
  sqlite_rep a d → paired s → r = peer_row s →
  sqlite_rep (set_sync (sync_id s) s a)
    (set_peer_sync_states (upsert (same_key peers_pk)
       (λ new old, mkPeerRow (pr_peer old) (pr_topic_key old) (pr_origin_key old)
                     (pr_state_json new)) r (peer_sync_states d)) d).
Proof.
  intros [Hwf Hheads Hmsgs Htombs Hseqs Hmax Hqueues Hatt Hsync Hpk] Hp ->.
  split; simpl; try done; [by apply wf_set_sync| |].
  - intros r. rewrite upsert_elem by (intros [] Hx; unfold peers_pk in Hx; simpl in *; by simplify_eq).
    rewrite Hsync. split.
    + intros [[(s' & Hs' & ->) Hne]| ->]; [|exists s; by rewrite lookup_insert_eq].
      exists s'. split; [|done]. rewrite lookup_insert_ne; [done|]. intros Heq. destruct Hne.
      by apply peer_keys_eq.
    + intros (s' & Hs' & ->). rewrite lookup_insert in Hs'. case_decide as Hid; [by simplify_eq; right|].
      left. split; [by exists s'|]. intros Hk. destruct Hid. symmetry.
      apply peer_keys_inj; [|done|done]. by apply (wf_sync _ Hwf) in Hs' as [].
  - apply upsert_NoDup; [by intros x Hx|done].
Qed.
End rep.
