(* ===== verification/SqliteRefine.v ===== *)
(** * SqliteRefine: the SQLite backend implements the store specification

    Every operation refines the specification up to the limits of the backend:
    INTEGER columns are signed, ids are unique over all logs (and over all
    queues), and names are validated again when a row is read. *)

From Stdlib Require Import String NArith ZArith Lia Sorting.Sorted.
From stdpp Require Import base strings list gmap sorting.
From S2P Require Import Prelude Strings Core Json Spec SpecFacts History Sql SqliteStore SqliteRep.

(** ** Limits *)

Definition over (n : N) : Prop := (i64_max < Z.of_N n)%Z.

(** A clock that reads beyond [i64::MAX] milliseconds. *)
Definition clock_over (e : Env) : Prop :=
  ∃ now, ticks e now ∧ over now.

Definition append_limit (e : Env) (a : AbsStore) (k : log_key) (used : Prop) : Prop :=
  over (log_head (log_of a k) + 1)%N ∨ used ∨ clock_over e.

Definition sqlite_limited (e : Env) (A : Type) (op : StoreOp A) (a : AbsStore) : Prop :=
  match op with
  | OpAppend m => append_limit e a (key_of (nm_topic m) (nm_origin m)) (id_used a (nm_id m))
  | OpFetch q => over (fq_from_head_id q) ∨ Exists (λ m, ¬ message_ok m) (fetch_spec q a)
  | OpListHeads => ∃ k m, m ∈ log_of a k ∧ ¬ valid_part (topic_str (sm_topic m))
  | OpPutReplicated m =>
      over (sm_head_id m) ∨
      match log_of a (msg_key m) !! (N.to_nat (sm_head_id m) - 1)%nat with
      | Some existing => ¬ message_ok existing
      | None => over (sm_created_at_ms m) ∨ id_used a (sm_id m)
      end
  | OpTombstone _ _ _ to => over to ∨ clock_over e
  | OpTombstoneMarker _ _ _ to mt mo =>
      over to ∨ append_limit e a (key_of mt mo) (∃ t, id_used a (mkMessageId (uuid e t)))
  | OpEnqueue m =>
      over (seq_of a (queue_str (nf_queue m)) + 1)%N ∨ fifo_id_used a (nf_id m) ∨ clock_over e
  | OpPeek q | OpAck q _ | OpReject q _ =>
      ∃ m, head (queue_of a (queue_str q)) = Some m ∧ ¬ fifo_ok m
  | OpGetHead _ _ | OpRecord _ | OpListSync => False
  end.

Section refine.
Context {SX : SqliteTexts} {JN : Json NodeId} {JNL : JsonLaws NodeId}.
Context {JH : Json (gmap string string)} {JHL : JsonLaws (gmap string string)}.
Context {JT : Json TombstoneRange} {JTL : JsonLaws TombstoneRange}.
Context {JP : Json PeerSyncState} {JPL : JsonLaws PeerSyncState}.
Context (e : Env).

Implicit Types (a : AbsStore) (d : Database) (s : SqliteStore).

(** ** Engine calls

    [on_err X Q s]: any error is admitted once [X] explains it. *)
Definition on_err {S A} (X : Prop) (Q : result MsgbusError A → S → Prop) (s : S) : Prop :=
  ∀ x, X → Q (Err x) s.

Lemma wp_now_i64 {S} (Q : result MsgbusError N → S → Prop) (s : S) :
  (∀ n, ticks e n → ¬ over n ∨ clock_over e → Q (Ok n) s) → wp e now_ms Q s.
Proof.
  intros HQ. apply wp_now_ms. intros n Hn. apply HQ; [done|].
  destruct (Z.le_gt_cases (Z.of_N n) i64_max); [left; unfold over; lia|]. right. by exists n.
Qed.

Lemma wp_prepare (Q : result MsgbusError unit → Database → Prop) d :
  Q (Ok tt) d → on_err (has_fault e) Q d → wp e prepare Q d.
Proof. intros HQ Hf. apply wp_io; [done | intros msg ?; by apply Hf]. Qed.

Lemma wp_query_row {R A} (sel : Database → list R) (f : R → result string A)
    (Q : result MsgbusError (option A) → Database → Prop) d :
  match sel d with
  | [] => Q (Ok None) d
  | r :: _ => match f r with Ok x => Q (Ok (Some x)) d | Err x => Q (Err (storage_err x)) d end
  end → on_err (has_fault e) Q d → wp e (query_row sel f) Q d.
Proof.
  intros HQ Hf. unfold query_row. apply wp_bind, wp_io; [|intros msg ?; by apply Hf].
  apply wp_bind, wp_get_state. destruct (sel d) as [|r rows]; [by apply wp_ret|].
  apply wp_bind, wp_of_result. destruct (f r); simpl; [by apply wp_ret|done].
Qed.

Lemma wp_execute (stmt : Database → result string (N * Database))
    (Q : result MsgbusError N → Database → Prop) d :
  match stmt d with Ok (n, d') => Q (Ok n) d' | Err x => Q (Err (storage_err x)) d end →
  on_err (has_fault e) Q d → wp e (execute stmt) Q d.
Proof.
  intros HQ Hf. unfold execute. apply wp_bind, wp_io; [|intros msg ?; by apply Hf].
  apply wp_bind, wp_get_state. destruct (stmt d) as [[n d']|x]; [|by apply wp_throw].
  by apply wp_bind, wp_put_state, wp_ret.
Qed.

(** Collecting rows that are each either readable or not. *)
Lemma wp_query_all {R X A} (sel : Database → list R) (f : R → result string A)
    (row : X → R) (out : X → A) (ok : X → Prop) (l : list X)
    (Q : result MsgbusError (list A) → Database → Prop) d :
  sel d = row <$> l →
  (∀ x, x ∈ l → (ok x ∧ f (row x) = Ok (out x)) ∨ (¬ ok x ∧ ∃ y, f (row x) = Err y)) →
  Q (Ok (out <$> l)) d → on_err (has_fault e ∨ Exists (λ x, ¬ ok x) l) Q d →
  wp e (query_all sel f) Q d.
Proof.
  intros Hsel Hrow HQ Hf. unfold query_all.
  apply wp_bind, wp_io; [|intros msg ?; apply Hf; by left].
  apply wp_bind, wp_get_state. rewrite Hsel. apply wp_bind.
  apply (wp_for_each e _ _ _ (λ rows acc d', d' = d ∧ ∃ dn rest,
           l = dn ++ rest ∧ rows = row <$> rest ∧ acc = out <$> dn)).
  - split; [done|]. by exists [], l.
  - intros r rows acc d' (-> & dn & rest & Hl & Hr & ->).
    destruct rest as [|x rest]; [done|]. csimpl in Hr. injection Hr as -> ->.
    apply wp_bind, wp_io; [|intros msg ?; apply Hf; by left]. apply wp_bind, wp_of_result.
    assert (x ∈ l) as Hx by (rewrite Hl; set_solver).
    destruct (Hrow x Hx) as [[_ ->]|[Hno [y ->]]]; simpl.
    + apply wp_ret. split; [done|]. exists (dn ++ [x]), rest.
      by rewrite <- app_assoc, fmap_app.
    + apply Hf. right. apply Exists_exists. eauto.
  - intros acc d' (-> & dn & rest & Hl & Hr & ->). destruct rest; [|done].
    rewrite app_nil_r in Hl. subst dn.
    apply wp_bind, wp_io; [|intros msg ?; apply Hf; by left]. by apply wp_ret.
Qed.

(** ** Transactions *)

Lemma wp_connection (Q : result MsgbusError unit → SqliteStore → Prop) s :
  Q (Ok tt) s → on_err (has_fault e) Q s → wp e connection Q s.
Proof. intros HQ Hf. apply wp_io; [done | intros msg ?; by apply Hf]. Qed.

Lemma wp_transaction (Q : result MsgbusError unit → SqliteStore → Prop) s :
  Q (Ok tt) (mkSqlite (conn s) (conn s)) → on_err (has_fault e) Q s → wp e transaction Q s.
Proof.
  intros HQ Hf. unfold transaction. apply wp_bind, wp_io; [|intros msg ?; by apply Hf].
  by apply wp_modify.
Qed.

Lemma wp_sqlite_commit (Q : result MsgbusError unit → SqliteStore → Prop) s :
  Q (Ok tt) (mkSqlite (tx s) (tx s)) → on_err (has_fault e) Q s → wp e commit Q s.
Proof.
  intros HQ Hf. unfold commit. apply wp_bind, wp_io; [|intros msg ?; by apply Hf].
  by apply wp_modify.
Qed.

Definition sqlite_db_rep a s : Prop := sqlite_rep a (conn s).

Definition sqlite_post {A} (op : StoreOp A) a (r : Result A) s : Prop :=
  match r with
  | Ok x => ∃ a', spec_op e op a (Ok x) a' ∧ sqlite_db_rep a' s
  | Err x => sqlite_db_rep a s ∧ (has_fault e ∨ sqlite_limited e A op a ∨ spec_op e op a (Err x) a)
  end.

(** Before the commit any explained error is admitted: the connection still
    holds the old tables. *)
Lemma sqlite_post_err {A} (op : StoreOp A) a s :
  sqlite_db_rep a s → on_err (has_fault e ∨ sqlite_limited e A op a) (sqlite_post op a) s.
Proof. intros Hrep x [?|?]; (split; [done|]); [by left | by right; left]. Qed.

Lemma sqlite_post_fault {A} (op : StoreOp A) a s :
  sqlite_db_rep a s → on_err (has_fault e) (sqlite_post op a) s.
Proof. intros Hrep x ?. apply sqlite_post_err; [done|by left]. Qed.

(** ** Reading heads and tombstones *)

Lemma wp_query_head a d t o (Q : result MsgbusError (option N) → Database → Prop) :
  (∀ k, by_key heads_pk k (heads d) = head_rows k (log_of a k)) →
  Q (Ok (if (log_head (log_of a (t, o)) =? 0)%N then None
         else Some (log_head (log_of a (t, o))))) d →
  on_err (has_fault e) Q d → wp e (query_head t o) Q d.
Proof.
  intros Hheads HQ Hf. unfold query_head. apply wp_bind, wp_query_row; [|done].
  assert (select_head t o d = head_rows (t, o) (log_of a (t, o))) as ->.
  { rewrite <- Hheads. apply list_filter_iff. intros r. unfold heads_pk. naive_solver. }
  rewrite <- (head_rows_value (t, o)) in HQ. by destruct (head_rows _ _); apply wp_of_result.
Qed.

Lemma wp_sqlite_markers a d m (Q : result MsgbusError StoredMessage → Database → Prop) :
  tombs_rep a (tombstones d) → Q (Ok (mark a m)) d →
  on_err (has_fault e ∨ over (sm_head_id m)) Q d → wp e (apply_tombstone_markers m) Q d.
Proof.
  intros Htombs HQ Hf. unfold apply_tombstone_markers. destruct (sm_deleted m) eqn:Hdel.
  { apply wp_ret. by rewrite mark_of_deleted in HQ. }
  apply wp_bind, wp_of_result.
  destruct (Z.le_gt_cases (Z.of_N (sm_head_id m)) i64_max) as [Hle|Hgt].
  2: { destruct (u64_to_i64_over _ Hgt) as [x ->]. apply Hf. by right. }
  rewrite u64_to_i64_fits by done. apply wp_bind, wp_query_row.
  2: { intros x ?. apply Hf. by left. }
  pose proof (select_tombstone_covered a d (msg_key m) (sm_head_id m) Htombs) as Hcov.
  change (topic_str (sm_topic m)) with (msg_key m).1.
  change (NodeId.key (sm_origin m)) with (msg_key m).2.
  unfold mark in HQ. destruct (select_tombstone _ _ _ d) as [|r rows]; apply wp_ret.
  - destruct (covered _ _); [|done]. by destruct (proj1 Hcov eq_refl).
  - by rewrite (proj2 Hcov ltac:(done)) in HQ.
Qed.

(** ** Appending *)

Lemma set_log_wf_append now m a :
  let k := key_of (nm_topic m) (nm_origin m) in
  wf a → ¬ over (log_head (log_of a k) + 1)%N →
  sm_head_id (append_spec now m a).1 = (log_head (log_of a k) + 1)%N ∧
  msg_key (append_spec now m a).1 = k ∧
  (append_spec now m a).2 = set_log k (log_of a k ++ [(append_spec now m a).1]) a.
Proof.
  intros k Hwf Hov. unfold append_spec. fold k. cbn [fst snd].
  assert (u64_saturating_add (log_head (log_of a k)) 1 = log_head (log_of a k) + 1)%N as ->.
  { apply u64_saturating_succ. unfold over, i64_max, u64_max in *. lia. }
  rewrite mark_head, mark_key, log_put_snoc. done.
Qed.

Lemma wp_append_in_tx a d m (Q : result MsgbusError StoredMessage → Database → Prop) :
  sqlite_rep a d →
  (∀ now d', ticks e now → sqlite_rep (append_spec now m a).2 d' →
     Q (Ok (append_spec now m a).1) d') →
  (∀ d', on_err (has_fault e ∨ append_limit e a (key_of (nm_topic m) (nm_origin m))
                                  (id_used a (nm_id m))) Q d') →
  wp e (append_message_in_tx m) Q d.
Proof.
  intros Hrep HQ Hf. pose proof (sr_wf _ _ Hrep) as Hwf. unfold append_message_in_tx.
  assert (∀ d', on_err (has_fault e) Q d') as Hf' by (intros d' x ?; apply Hf; by left).
  set (k := key_of (nm_topic m) (nm_origin m)) in *.
  change (topic_str (nm_topic m)) with k.1. change (NodeId.key (nm_origin m)) with k.2.
  apply wp_bind, (wp_query_head a); [apply Hrep| |apply Hf']. rewrite <- surjective_pairing, head_default.
  destruct (decide (over (log_head (log_of a k) + 1)%N)) as [Hov|Hov].
  { apply wp_bind, wp_of_result.
    destruct (u64_to_i64_over (u64_saturating_add (log_head (log_of a k)) 1)) as [x ->].
    - unfold over, u64_saturating_add, u64_max, i64_max in *. lia.
    - apply Hf. right. by left. }
  assert (u64_saturating_add (log_head (log_of a k)) 1 = log_head (log_of a k) + 1)%N as Hnext.
  { apply u64_saturating_succ. unfold over, i64_max, u64_max in *. lia. }
  rewrite Hnext, u64_to_i64_fits by (unfold over in Hov; lia). apply wp_bind, wp_of_result.
  apply wp_bind, wp_execute; [|apply Hf']. cbn [upsert_head].
  apply wp_bind, wp_now_i64. intros now Hnow Hclock.
  destruct (set_log_wf_append now m a Hwf Hov) as (Hmh & Hmk & Ha'). fold k in Hmh, Hmk, Ha'.
  specialize (HQ now). unfold append_spec in HQ, Hmh, Hmk, Ha'. fold k in HQ, Hmh, Hmk, Ha'.
  cbn [fst snd] in HQ, Hmh, Hmk, Ha'. rewrite Hnext in HQ, Hmh, Hmk, Ha'.
  set (m0 := mkStoredMessage _ _ _ _ _ _ now false) in *.
  apply wp_bind, (wp_sqlite_markers a); [apply Hrep| |].
  2: { intros x [?|?]; [by apply Hf'|done]. }
  apply wp_bind, wp_of_result.
  destruct (message_params_ok (mark a m0)) as [[Hc ->]|[Hc [x ->]]];
    [rewrite Hmh; unfold over in Hov; lia| |].
  2: { apply Hf. right. right. right. destruct Hclock as [Hno|?]; [|done]. destruct Hno.
       unfold mark in Hc. by destruct (covered _ _). }
  apply wp_bind, wp_execute; [|apply Hf']. unfold insert_message, insert_into. cbn [messages set_heads].
  destruct (decide (Exists _ _)) as [He|He].
  { apply Hf. right. right. left.
    assert (sm_id (mark a m0) = nm_id m) as <- by (unfold mark; by destruct (covered _ _)).
    by apply (next_clash a d k). }
  apply wp_ret, HQ; [done|]. rewrite Ha'.
  pose proof (append_rep a d k (mark a m0) Hrep Hmk) as Happ. cbv zeta in Happ.
  assert (log_head (log_of a k ++ [mark a m0]) = log_head (log_of a k) + 1)%N as Hlen.
  { unfold log_head. rewrite length_app. simpl. lia. }
  rewrite Hlen in Happ. apply Happ. rewrite <- Ha'.
  pose proof (append_wf now m a Hwf) as Hw. unfold append_spec in Hw. fold k in Hw.
  rewrite Hnext in Hw. exact Hw.
Qed.

(** ** Tombstoning *)

Lemma mark_range_wf a k from to : wf a → wf (set_log k (mark_range from to <$> log_of a k) a).
Proof.
  intros Hwf. apply wf_set_log; [done| |].
  - intros i m. rewrite list_lookup_fmap. intros (m0 & Hm0 & ->)%fmap_Some.
    destruct (wf_entry _ Hwf _ _ _ Hm0) as [Hh Hk]. unfold mark_range.
    destruct (in_range _ _ _); (split; [done|split; [done|]]); [done|].
    apply (wf_tomb _ Hwf). apply list_elem_of_lookup. eauto.
  - unfold log_head. rewrite length_fmap. apply Hwf.
Qed.

(** What [UPDATE ... AND deleted = FALSE] selects of a stored message. *)
Lemma range_row k from to m :
  msg_key m = k →
  (mr_topic (message_row m) = k.1 ∧ mr_origin_key (message_row m) = k.2 ∧
   (Z.of_N from ≤ mr_head_id (message_row m))%Z ∧ (mr_head_id (message_row m) ≤ Z.of_N to)%Z ∧
   mr_deleted (message_row m) = 0%Z) ↔ newly_deleted from to m = true.
Proof.
  intros <-. unfold newly_deleted. rewrite andb_true_iff, in_range_iff, negb_true_iff. simpl.
  split; [intros (_ & _ & ? & ? & Hd); split; [lia|by destruct (sm_deleted m)]|].
  intros [? ->]. split; [done|]. split; [done|]. simpl. lia.
Qed.

Lemma range_update_rep a d k from to :
  sqlite_rep a d →
  let P := λ r, mr_topic r = k.1 ∧ mr_origin_key r = k.2 ∧ (Z.of_N from ≤ mr_head_id r)%Z ∧
             (mr_head_id r ≤ Z.of_N to)%Z ∧ mr_deleted r = 0%Z in
  count_where P (messages d) = (tombstone_spec k from to a).1 ∧
  sqlite_rep (set_log k (mark_range from to <$> log_of a k) a)
    (set_messages (update_where P mark_row (messages d)) d).
Proof.
  intros Hrep P. pose proof (sr_wf _ _ Hrep) as Hwf.
  assert (∀ m, m ∈ log_of a k → P (message_row m) ↔ newly_deleted from to m = true) as HP.
  { intros m (i & Hi)%list_elem_of_lookup. apply range_row.
    by destruct (wf_entry _ Hwf _ _ _ Hi). }
  split.
  - unfold count_where, tombstone_spec. cbn [fst]. f_equal.
    rewrite (filter_by_key log_of_row P P k).
    2: { intros r. unfold P, log_of_row. destruct k. naive_solver. }
    pose proof (sr_messages _ _ Hrep k) as Hp. apply (filter_Permutation P) in Hp.
    rewrite (fmap_filter _ P (λ m, newly_deleted from to m = true)) in Hp by exact HP.
    apply Permutation_length in Hp. by rewrite length_fmap in Hp.
  - apply mark_rep; [done|by apply mark_range_wf| |].
    + intros r (Ht & Ho & _). unfold log_of_row. rewrite Ht, Ho. by destruct k.
    + intros m Hm. pose proof (HP m Hm) as HPm. unfold newly_deleted in HPm. unfold mark_range.
      destruct (decide (P (message_row m))) as [Hy|Hn].
      * apply HPm, andb_true_iff in Hy as [-> _]. done.
      * destruct (in_range _ _ _); [|done]. destruct (sm_deleted m) eqn:Hd; [by rewrite set_deleted_id|].
        destruct Hn. by apply HPm.
Qed.

Lemma set_tombs_rep a d k ts t :
  sqlite_rep a d → wf (set_tombs k ts a) → tombs_rep (set_tombs k ts a) t →
  sqlite_rep (set_tombs k ts a) (set_tombstones t d).
Proof. intros [Hwf Hheads Hmsgs Htombs Hseqs Hmax Hqueues Hatt Hsync Hpk] Hwf' Ht. by split. Qed.

Lemma id_used_tombstone k from to a i :
  id_used (tombstone_spec k from to a).2 i → id_used a i.
Proof.
  intros (k' & m & Hm & Hi). unfold tombstone_spec in Hm. cbn [snd] in Hm.
  rewrite log_of_set_tombs, log_of_set_log in Hm. case_decide; [subst|by exists k', m].
  apply list_elem_of_fmap in Hm as (m0 & -> & Hm0). exists k', m0. split; [done|].
  unfold mark_range. by case_match.
Qed.

Lemma wp_tombstone_in_tx a d t o from to now (Q : result MsgbusError N → Database → Prop) :
  sqlite_rep a d → is_u64 from → is_u64 to → (from ≤ to)%N → ¬ over now ∨ clock_over e →
  (∀ d', sqlite_rep (tombstone_spec (key_of t o) from to a).2 d' →
     Q (Ok (tombstone_spec (key_of t o) from to a).1) d') →
  (∀ d', on_err (has_fault e ∨ over to ∨ clock_over e) Q d') →
  wp e (tombstone_range_in_tx t o from to now) Q d.
Proof.
  intros Hrep Huf Hut Hft Hclock HQ Hf. unfold tombstone_range_in_tx.
  assert (∀ d', on_err (has_fault e) Q d') as Hf' by (intros d' x ?; apply Hf; by left).
  set (k := key_of t o) in *. change (topic_str t) with k.1. change (NodeId.key o) with k.2.
  destruct (decide (over to)) as [Hov|Hov].
  { apply wp_bind, wp_of_result. destruct (u64_to_i64 from); simpl; [|apply Hf; right; by left].
    apply wp_bind, wp_of_result. destruct (u64_to_i64_over to Hov) as [x ->].
    apply Hf. right. by left. }
  unfold over in Hov. rewrite (u64_to_i64_fits from), (u64_to_i64_fits to) by lia.
  apply wp_bind, wp_of_result, wp_bind, wp_of_result, wp_bind, wp_execute; [|apply Hf'].
  destruct (range_update_rep a d k from to Hrep) as [Hcount Hrep1]. cbv zeta in Hcount, Hrep1.
  unfold update_deleted_range. cbv zeta. rewrite Hcount.
  apply wp_bind, wp_of_result, wp_bind, wp_of_result, wp_bind, wp_of_result. cbn [tr_created_at_ms].
  destruct (decide (over now)) as [Hon|Hon].
  { destruct (u64_to_i64_over now Hon) as [x ->]. apply Hf. right. right.
    by destruct Hclock. }
  rewrite u64_to_i64_fits by (unfold over in Hon; lia).
  rewrite encode_json_ok. apply wp_bind, wp_of_result, wp_bind, wp_execute; [|apply Hf'].
  apply wp_ret, HQ. unfold tombstone_spec. cbn [snd].
  rewrite <- (tombs_of_set_log k (mark_range from to <$> log_of a k) a k).
  apply set_tombs_rep; [done| |].
  - apply (tombstone_wf k from to a (sr_wf _ _ Hrep) Huf Hut).
  - apply tombs_insert; [|done|lia]. apply (sr_tombs _ _ Hrep1).
Qed.

(** ** Operations on logs *)

Ltac begin_tx :=
  apply wp_bind, wp_connection; [|by apply sqlite_post_fault];
  apply wp_bind, wp_transaction; [|by apply sqlite_post_fault].

Lemma sqlite_append_refines a s m :
  sqlite_db_rep a s → wp e (sqlite_append_message m) (sqlite_post (OpAppend m) a) s.
Proof.
  intros Hrep. unfold sqlite_append_message. begin_tx.
  apply wp_bind, wp_zoom, (wp_append_in_tx a);
    [done| |intros d; exact (sqlite_post_err (OpAppend m) a (mkSqlite (conn s) d) Hrep)].
  intros now d' Hnow Hrep'. apply wp_bind, wp_sqlite_commit; [|by apply sqlite_post_fault].
  apply wp_ret. eexists. split; [|done]. by exists now.
Qed.

Lemma sqlite_fetch_refines a s q :
  sqlite_db_rep a s → wp e (sqlite_fetch_messages q) (sqlite_post (OpFetch q) a) s.
Proof.
  intros Hrep. unfold sqlite_fetch_messages.
  apply wp_bind, wp_connection; [|by apply sqlite_post_fault]. apply wp_zoom.
  apply wp_bind, wp_prepare; [|by apply sqlite_post_fault]. apply wp_bind, wp_of_result.
  destruct (decide (over (fq_from_head_id q))) as [Hov|Hov].
  { destruct (u64_to_i64_over _ Hov) as [x ->]. apply sqlite_post_err; [done|]. right. by left. }
  rewrite u64_to_i64_fits by (unfold over in Hov; lia).
  apply (wp_query_all _ _ message_row id message_ok (fetch_spec q a)).
  - by apply select_messages_rows.
  - intros m _. apply row_to_message_read.
  - rewrite list_fmap_id. by exists a.
  - intros x [?|?]; apply sqlite_post_err; [done|by left|done|]. right. by right.
Qed.

Lemma sqlite_get_head_refines a s t o :
  sqlite_db_rep a s → wp e (sqlite_get_head t o) (sqlite_post (OpGetHead t o) a) s.
Proof.
  intros Hrep. unfold sqlite_get_head.
  apply wp_bind, wp_connection; [|by apply sqlite_post_fault].
  apply wp_zoom, (wp_query_head a); [apply Hrep| |by apply sqlite_post_fault].
  by exists a.
Qed.

(** The joined rows are the last entries of the logs that have any. *)
Definition joined_row (m : StoredMessage) : HeadRow * MessageRow :=
  (mkHeadRow (msg_key m).1 (msg_key m).2 (Z.of_N (sm_head_id m)), message_row m).

Definition last_entries a : list StoredMessage :=
  omap (λ kl : log_key * list StoredMessage, last kl.2) (map_to_list (a_logs a)).

Lemma heads_spec_last a :
  wf a → heads_spec a = (λ m, mkTopicHead (sm_topic m) (sm_origin m) (sm_head_id m)) <$> last_entries a.
Proof.
  intros Hwf. unfold heads_spec, last_entries.
  assert (∀ kl, kl ∈ map_to_list (a_logs a) → ∀ m, last kl.2 = Some m →
            sm_head_id m = log_head kl.2) as Hh.
  { intros [k l] Hin%elem_of_map_to_list m Hm. simpl in *. rewrite last_lookup in Hm.
    pose proof (lookup_lt_Some _ _ _ Hm). rewrite <- (log_of_lookup a k l Hin) in Hm at 2.
    destruct (wf_entry _ Hwf _ _ _ Hm) as [-> _]. unfold log_head. lia. }
  revert Hh. induction (map_to_list (a_logs a)) as [|[k l] kls IH]; intros Hh; [done|]. csimpl.
  rewrite IH by (intros kl Hkl; apply Hh; by right).
  destruct (last l) as [m|] eqn:Hm; [|done]. csimpl. by rewrite (Hh (k, l) ltac:(by left) m Hm).
Qed.

Lemma elem_of_last_entries a m :
  wf a → m ∈ last_entries a ↔ last (log_of a (msg_key m)) = Some m.
Proof.
  intros Hwf. unfold last_entries. rewrite list_elem_of_omap. split.
  - intros ([k l] & Hin%elem_of_map_to_list & Hm). simpl in *.
    rewrite <- (log_of_lookup a k l Hin) in Hm. by rewrite (last_key a k m Hwf Hm).
  - intros Hm. exists (msg_key m, log_of a (msg_key m)). split; [|done].
    apply elem_of_map_to_list. unfold log_of in *. by destruct (a_logs a !! msg_key m).
Qed.

Lemma last_entries_NoDup a : wf a → NoDup (last_entries a).
Proof.
  intros Hwf. pose proof (heads_spec_nodup a Hwf) as Hnd. rewrite heads_spec_last in Hnd by done.
  by apply NoDup_fmap_1 in Hnd.
Qed.

(** Every head row belongs to the last entry of its log. *)
Lemma heads_of_entries a d :
  sqlite_rep a d →
  ∃ ms, heads d = (λ m, (joined_row m).1) <$> ms ∧ ms ≡ₚ last_entries a.
Proof.
  intros Hrep. pose proof (sr_wf _ _ Hrep) as Hwf.
  assert (∀ h, h ∈ heads d → ∃ m, h = (joined_row m).1 ∧ last (log_of a (msg_key m)) = Some m) as Hrow.
  { intros h Hh. apply (by_key_own heads_pk) in Hh. rewrite (sr_heads _ _ Hrep) in Hh.
    unfold head_rows in Hh. destruct (N.eqb_spec (log_head (log_of a (heads_pk h))) 0) as [|Hnz];
      [by apply elem_of_nil in Hh|]. apply list_elem_of_singleton in Hh.
    destruct (last (log_of a (heads_pk h))) as [m|] eqn:Hm;
      [|apply last_None in Hm; by rewrite Hm in Hnz].
    pose proof (last_key a _ m Hwf Hm) as Hk. exists m. rewrite Hk. split; [|done].
    unfold joined_row. rewrite Hk. cbn [fst]. rewrite Hh at 1. f_equal. f_equal.
    rewrite last_lookup in Hm. pose proof (lookup_lt_Some _ _ _ Hm).
    destruct (wf_entry _ Hwf _ _ _ Hm) as [-> _]. unfold log_head. lia. }
  assert (∃ ms, heads d = (λ m, (joined_row m).1) <$> ms ∧
                Forall (λ m, last (log_of a (msg_key m)) = Some m) ms) as (ms & Hms & Hlast).
  { revert Hrow. clear. induction (heads d) as [|h hs IH]; intros Hrow; [by exists []|].
    destruct IH as (ms & -> & Hms); [intros h' Hh'; apply Hrow; by right|].
    destruct (Hrow h ltac:(by left)) as (m & -> & Hm). exists (m :: ms). split; [done|by constructor]. }
  exists ms. split; [done|]. apply NoDup_Permutation; [|by apply last_entries_NoDup|].
  - assert (NoDup (heads_pk <$> heads d)) as Hnd.
    { apply by_key_NoDup. intros k. rewrite (sr_heads _ _ Hrep). unfold head_rows. case_match; simpl; lia. }
    rewrite Hms, <- list_fmap_compose in Hnd. by apply NoDup_fmap_1 in Hnd.
  - intros m. rewrite elem_of_last_entries by done. split.
    + rewrite Forall_forall in Hlast. apply Hlast.
    + intros Hm. assert (by_key heads_pk (msg_key m) (heads d) ≠ []) as Hne.
      { rewrite (sr_heads _ _ Hrep). unfold head_rows, log_head.
        destruct (log_of a (msg_key m)); [done|]. done. }
      destruct (by_key heads_pk (msg_key m) (heads d)) as [|h rows] eqn:Hb; [done|].
      assert (h ∈ by_key heads_pk (msg_key m) (heads d)) as [Hk Hin]%by_key_elem by (rewrite Hb; left).
      rewrite Hms in Hin. apply list_elem_of_fmap in Hin as (m' & -> & Hin).
      rewrite Forall_forall in Hlast. pose proof (Hlast m' Hin) as Hm'.
      pose proof (eq_trans (surjective_pairing (msg_key m')) Hk) as Heq.
      rewrite Heq, Hm in Hm'. by injection Hm' as <-.
Qed.

Lemma select_heads_rows a d :
  sqlite_rep a d → ∃ ms, select_heads d = joined_row <$> ms ∧ ms ≡ₚ last_entries a.
Proof.
  intros Hrep. destruct (heads_of_entries a d Hrep) as (ms & Hms & Hperm).
  assert (∀ m, m ∈ ms → last (log_of a (msg_key m)) = Some m) as Hlast.
  { intros m Hm. apply elem_of_last_entries; [apply Hrep|]. by rewrite <- Hperm. }
  assert ((h ← heads d;
           m ← filter (λ m, mr_topic m = h_topic h ∧ mr_origin_key m = h_origin_key h ∧
                            mr_head_id m = h_head_id h) (messages d); [(h, m)])
          = joined_row <$> ms) as Hjoin.
  { rewrite Hms. clear Hms Hperm. induction ms as [|m ms IH]; [done|].
    rewrite !fmap_cons, bind_cons, IH by (intros m' ?; apply Hlast; by right).
    assert (filter (λ r, mr_topic r = (msg_key m).1 ∧ mr_origin_key r = (msg_key m).2 ∧
              mr_head_id r = Z.of_N (sm_head_id m)) (messages d) = [message_row m]) as Hf.
    { pose proof (Hlast m ltac:(by left)) as Hm. rewrite last_lookup in Hm.
      destruct (wf_entry _ (sr_wf _ _ Hrep) _ _ _ Hm) as [Hh _].
      pose proof (select_message_rows a d (msg_key m) (sm_head_id m) Hrep ltac:(lia)) as Hsel.
      unfold select_message in Hsel. rewrite Hsel, Hh.
      replace (N.to_nat (N.of_nat (S (pred (length (log_of a (msg_key m)))))) - 1)%nat
        with (pred (length (log_of a (msg_key m)))) by lia. by rewrite Hm. }
    cbn [joined_row fst h_topic h_origin_key h_head_id]. by rewrite Hf. }
  unfold select_heads. rewrite Hjoin.
  destruct (Permutation_map_inv joined_row (l1 := order_by heads_le (joined_row <$> ms)) ms)
    as (ms' & Heq & Hp'); [apply merge_sort_Permutation|].
  exists ms'. split; [exact Heq|]. by rewrite <- Hp'.
Qed.

Lemma sqlite_list_heads_refines a s :
  sqlite_db_rep a s → wp e sqlite_list_heads (sqlite_post OpListHeads a) s.
Proof.
  intros Hrep. unfold sqlite_list_heads.
  apply wp_bind, wp_connection; [|by apply sqlite_post_fault]. apply wp_zoom.
  apply wp_bind, wp_prepare; [|by apply sqlite_post_fault].
  destruct (select_heads_rows a (conn s) Hrep) as (ms & Hsel & Hperm).
  apply (wp_query_all _ _ joined_row (λ m, mkTopicHead (sm_topic m) (sm_origin m) (sm_head_id m))
           (λ m, valid_part (topic_str (sm_topic m))) ms); [done| | |].
  - intros m _. unfold row_to_head. cbn. rewrite i64_to_u64_of_N. cbn.
    destruct (topic_read (sm_topic m)) as [[? ->]|[? [x ->]]]; cbn; [left|right; eauto].
    by rewrite decode_str_of.
  - exists a. split; [|done]. split; [done|]. eexists. split; [done|].
    rewrite heads_spec_last by apply Hrep. by rewrite Hperm.
  - intros x [?|Hex]; apply sqlite_post_err; [done|by left|done|]. right.
    apply Exists_exists in Hex as (m & Hm & Hno). rewrite Hperm in Hm.
    apply elem_of_last_entries in Hm; [|apply Hrep]. exists (msg_key m), m. split; [|done].
    rewrite last_lookup in Hm. by eapply list_elem_of_lookup_2.
Qed.

(** Marking one entry is replacing it by its deleted copy. *)
Lemma mark_one a k i ex :
  wf a → log_of a k !! i = Some ex →
  log_put (sm_head_id ex) (set_deleted true ex) (log_of a k)
  = mark_range (sm_head_id ex) (sm_head_id ex) <$> log_of a k.
Proof.
  intros Hwf Hex. destruct (wf_entry _ Hwf _ _ _ Hex) as [Hh _]. pose proof (lookup_lt_Some _ _ _ Hex).
  apply list_eq. intros j. rewrite log_put_lookup by (unfold log_head; lia).
  rewrite list_lookup_fmap. unfold mark_range, in_range. case_decide as Hj.
  - replace j with i by lia. rewrite Hex. simpl. by rewrite N.leb_refl.
  - destruct (log_of a k !! j) as [m|] eqn:Hm; [|done]. simpl. destruct (wf_entry _ Hwf _ _ _ Hm) as [Hhm _].
    destruct (N.leb_spec (sm_head_id ex) (sm_head_id m)), (N.leb_spec (sm_head_id m) (sm_head_id ex));
      simpl; try done. lia.
Qed.

Lemma update_deleted_rep a d k i ex :
  sqlite_rep a d → log_of a k !! i = Some ex →
  sqlite_rep (set_log k (log_put (sm_head_id ex) (set_deleted true ex) (log_of a k)) a)
    (set_messages (update_where (λ r, mr_topic r = k.1 ∧ mr_origin_key r = k.2 ∧
                     mr_head_id r = Z.of_N (sm_head_id ex)) mark_row (messages d)) d).
Proof.
  intros Hrep Hex. pose proof (sr_wf _ _ Hrep) as Hwf. rewrite (mark_one a k i ex Hwf Hex).
  apply mark_rep; [done|by apply mark_range_wf| |].
  - intros r (Ht & Ho & _). unfold log_of_row. rewrite Ht, Ho. by destruct k.
  - intros m (j & Hj)%list_elem_of_lookup. destruct (wf_entry _ Hwf _ _ _ Hj) as [_ Hk].
    unfold mark_range, in_range. subst k. cbn [mr_topic mr_origin_key mr_head_id message_row].
    case_decide as Hd.
    + destruct Hd as (_ & _ & Hd). apply N2Z.inj in Hd. by rewrite Hd, N.leb_refl.
    + destruct (N.leb_spec (sm_head_id ex) (sm_head_id m)), (N.leb_spec (sm_head_id m) (sm_head_id ex));
        simpl; try done. destruct Hd. split; [done|]. split; [done|]. lia.
Qed.

(** ** Replicated messages *)

Lemma sqlite_same_iff l r :
  same_message_except_deleted l r = same_message_except_deleted_spec l r.
Proof.
  unfold same_message_except_deleted, same_message_except_deleted_spec.
  apply eq_true_iff_eq. rewrite !andb_true_iff, !bool_decide_eq_true.
  unfold set_deleted. split; [naive_solver congruence|]. intros [=]. naive_solver.
Qed.

Lemma mark_fields a m :
  sm_head_id (mark a m) = sm_head_id m ∧ msg_key (mark a m) = msg_key m ∧
  sm_id (mark a m) = sm_id m ∧ sm_created_at_ms (mark a m) = sm_created_at_ms m.
Proof. unfold mark. by case_match. Qed.

(** The entry exists: nothing, a deletion, or a conflict. *)
Lemma put_existing a s m ex :
  let m' := mark a m in
  let k := msg_key m in
  sqlite_db_rep a s → sm_head_id m ≠ 0%N → ¬ over (sm_head_id m) →
  log_of a k !! (N.to_nat (sm_head_id m) - 1)%nat = Some ex →
  wp e (if bool_decide (ex = m') then mret AlreadyPresent
        else if same_message_except_deleted ex m' && sm_deleted m' then
          head_id ← of_result (u64_to_i64 (sm_head_id m));
          in_tx (execute (update_deleted k.1 k.2 head_id));;
          commit;;
          mret Inserted
        else throw (Conflict ("message conflict at " +:+ location m +:+ " head_id="
                                +:+ fmt_u64 (sm_head_id m))))
    (sqlite_post (OpPutReplicated m) a) (mkSqlite (conn s) (conn s)).
Proof.
  intros m' k Hrep Hnz Hov Hex. pose proof (sr_wf _ _ Hrep) as Hwf.
  assert (∀ d, on_err (has_fault e) (sqlite_post (OpPutReplicated m) a) (mkSqlite (conn s) d)) as Hf
    by (intros d; by apply sqlite_post_fault).
  unfold sqlite_post in *. cbn [spec_op] in *. unfold put_replicated_spec in *.
  rewrite (proj2 (N.eqb_neq _ _) Hnz) in *. fold m' k in Hf |- *. rewrite Hex in *.
  case_bool_decide as Heq; [apply wp_ret; by exists a|].
  rewrite <- sqlite_same_iff in *. destruct (_ && _) eqn:Hsame.
  2: { apply wp_throw. split; [done|]. right. by right. }
  rewrite sqlite_same_iff in Hsame. apply andb_true_iff in Hsame as [Hsame%bool_decide_eq_true Hd].
  assert (m' = set_deleted true ex) as Hm' by (by rewrite Hsame, set_deleted_id).
  assert (sm_head_id ex = sm_head_id m) as Hh.
  { destruct (wf_entry _ Hwf _ _ _ Hex) as [-> _]. lia. }
  rewrite u64_to_i64_fits by (unfold over in Hov; lia). apply wp_bind, wp_of_result.
  apply wp_bind, wp_zoom, wp_execute; [|apply Hf]. unfold update_deleted. cbv zeta.
  apply wp_bind, wp_sqlite_commit; [|apply Hf]. apply wp_ret. eexists. split; [done|].
  rewrite Hm', <- Hh. by eapply update_deleted_rep.
Qed.

(** The entry is new: a gap, or the next entry. *)
Lemma put_new a s m :
  let m' := mark a m in
  let k := msg_key m in
  let current := log_head (log_of a k) in
  sqlite_db_rep a s → sm_head_id m ≠ 0%N → ¬ over (sm_head_id m) →
  log_of a k !! (N.to_nat (sm_head_id m) - 1)%nat = None →
  wp e (if (u64_saturating_add current 1 <? sm_head_id m)%N
        then throw (InvalidArgument ("replicated message would create a gap at " +:+ location m
                      +:+ " local_head=" +:+ fmt_u64 current
                      +:+ " incoming_head=" +:+ fmt_u64 (sm_head_id m)))
        else
          row ← of_result (message_params m');
          in_tx (execute (insert_message row));;
          (if (current <? sm_head_id m)%N then
             head_id ← of_result (u64_to_i64 (sm_head_id m));
             in_tx (execute (upsert_head (mkHeadRow k.1 k.2 head_id)));;
             mret tt
           else mret tt);;
          commit;;
          mret Inserted)
    (sqlite_post (OpPutReplicated m) a) (mkSqlite (conn s) (conn s)).
Proof.
  intros m' k current Hrep Hnz Hov Hex. pose proof (sr_wf _ _ Hrep) as Hwf.
  destruct (mark_fields a m) as (Hmh & Hmk & Hmi & Hmc). fold m' k in Hmh, Hmk, Hmi, Hmc.
  assert (∀ d, on_err (has_fault e) (sqlite_post (OpPutReplicated m) a) (mkSqlite (conn s) d)) as Hf
    by (intros d; by apply sqlite_post_fault).
  assert (∀ d, on_err (over (sm_created_at_ms m) ∨ id_used a (sm_id m))
            (sqlite_post (OpPutReplicated m) a) (mkSqlite (conn s) d)) as Hl.
  { intros d x Hx. apply sqlite_post_err; [done|]. right. simpl. fold k. rewrite Hex. by right. }
  assert (∀ r a', (if (u64_saturating_add current 1 <? sm_head_id m)%N
      then r = Err (InvalidArgument ("replicated message would create a gap at " +:+ location m
                 +:+ " local_head=" +:+ fmt_u64 current
                 +:+ " incoming_head=" +:+ fmt_u64 (sm_head_id m))) ∧ a' = a
      else r = Ok Inserted ∧ a' = set_log k (log_put (sm_head_id m) m' (log_of a k)) a) →
    spec_op e (OpPutReplicated m) a r a') as Hspec.
  { intros r a' H. cbn [spec_op]. unfold put_replicated_spec. rewrite (proj2 (N.eqb_neq _ _) Hnz).
    fold m' k. rewrite Hex. fold current. by destruct (_ <? _)%N, H as [-> ->]. }
  destruct (N.ltb_spec (u64_saturating_add current 1) (sm_head_id m)) as [Hgap|Hok].
  { apply wp_throw. split; [done|]. right. right. by apply Hspec. }
  assert (sm_head_id m = current + 1)%N as Hnext.
  { apply lookup_ge_None in Hex. unfold current, log_head, u64_saturating_add in *. lia. }
  apply wp_bind, wp_of_result.
  destruct (message_params_ok m') as [[_ ->]|[Hc [x ->]]];
    [rewrite Hmh; unfold over in Hov; lia| |apply Hl; left; by rewrite <- Hmc].
  apply wp_bind, wp_zoom, wp_execute; [|apply Hf]. unfold insert_message, insert_into. cbn [tx].
  destruct (decide (Exists _ _)) as [He|He].
  { apply Hl. right. rewrite <- Hmi. apply (next_clash a (conn s) k); [done..|by rewrite Hmh|done]. }
  rewrite (proj2 (N.ltb_lt current (sm_head_id m))) by lia.
  rewrite u64_to_i64_fits by (unfold over in Hov; lia).
  apply wp_bind, wp_bind, wp_of_result, wp_bind, wp_zoom, wp_execute; [|apply Hf].
  apply wp_ret, wp_bind, wp_sqlite_commit; [|apply Hf]. apply wp_ret. eexists. split; [by apply Hspec|].
  assert (log_put (sm_head_id m) m' (log_of a k) = log_of a k ++ [m']) as ->
    by (rewrite Hnext; apply log_put_snoc).
  assert (sm_head_id m = log_head (log_of a k ++ [m'])) as ->.
  { rewrite Hnext. unfold current, log_head. rewrite length_app. simpl. lia. }
  refine (append_rep a (conn s) k m' Hrep Hmk _). rewrite <- (log_put_snoc m' (log_of a k)).
  apply wf_log_put; [done|unfold current in *; lia| |by rewrite Hmh|done|].
  - unfold over, is_u64, u64_max, i64_max, current in *. lia.
  - fold current. rewrite <- Hnext. intros Hc. by apply mark_deleted.
Qed.

Lemma sqlite_put_refines a s m :
  sqlite_db_rep a s →
  wp e (sqlite_put_replicated_message m) (sqlite_post (OpPutReplicated m) a) s.
Proof.
  intros Hrep. unfold sqlite_put_replicated_message.
  destruct (N.eqb_spec (sm_head_id m) 0) as [Hz|Hnz].
  { apply wp_throw. split; [done|]. right. right. cbn [spec_op]. unfold put_replicated_spec. by rewrite Hz. }
  begin_tx. apply wp_bind, wp_zoom, (wp_sqlite_markers a); [apply Hrep| |].
  2: { intros x [?|?]; apply sqlite_post_err; [done|by left|done|]. right. by left. }
  destruct (mark_fields a m) as (Hmh & Hmk & _ & _). set (m' := mark a m) in *.
  assert (location m' = location m) as Hloc.
  { unfold location. injection Hmk as H1 H2. by rewrite H1, H2. }
  apply wp_bind, wp_of_result. rewrite Hmh.
  destruct (decide (over (sm_head_id m))) as [Hov|Hov].
  { destruct (u64_to_i64_over _ Hov) as [x ->]. apply sqlite_post_err; [done|]. right. by left. }
  rewrite u64_to_i64_fits by (unfold over in Hov; lia).
  fold (location m'). rewrite Hloc.
  change (topic_str (sm_topic m')) with (msg_key m').1.
  change (NodeId.key (sm_origin m')) with (msg_key m').2. rewrite Hmk.
  apply wp_bind, wp_zoom, wp_query_row; [|by apply sqlite_post_fault].
  cbn [tx]. rewrite (select_message_rows a) by done.
  destruct (log_of a (msg_key m) !! _) as [ex|] eqn:Hex.
  - simpl. destruct (row_to_message_read ex) as [[_ ->]|[Hno [x ->]]].
    + pose proof (put_existing a s m ex Hrep Hnz Hov Hex) as H.
      rewrite u64_to_i64_fits in H by (unfold over in Hov; lia). exact H.
    + split; [done|]. right. left. right. by rewrite Hex.
  - apply wp_bind, wp_zoom, (wp_query_head a); [apply Hrep| |by apply sqlite_post_fault].
    rewrite <- surjective_pairing, head_default. pose proof (put_new a s m Hrep Hnz Hov Hex) as H.
    cbv zeta in H. rewrite u64_to_i64_fits in H by (unfold over in Hov; lia). exact H.
Qed.

Lemma sqlite_tombstone_refines a s t o from to :
  sqlite_db_rep a s → is_u64 from → is_u64 to →
  wp e (sqlite_tombstone_range t o from to) (sqlite_post (OpTombstone t o from to) a) s.
Proof.
  intros Hrep Hf Ht. unfold sqlite_tombstone_range.
  destruct (N.ltb_spec to from) as [Hlt|Hle].
  { apply wp_throw. split; [done|]. right. right. cbn [spec_op]. by rewrite (proj2 (N.ltb_lt to from)). }
  begin_tx. apply wp_bind, wp_now_i64. intros now Hnow Hclock.
  apply wp_bind, wp_zoom, (wp_tombstone_in_tx a); [done..| |].
  2: { intros d. exact (sqlite_post_err (OpTombstone t o from to) a (mkSqlite (conn s) d) Hrep). }
  intros d' Hrep'. apply wp_bind, wp_sqlite_commit; [|by apply sqlite_post_fault].
  apply wp_ret. eexists. split; [|exact Hrep']. cbn [spec_op]. by rewrite (proj2 (N.ltb_ge to from)).
Qed.

Lemma sqlite_marker_refines a s t o from to mt mo :
  sqlite_db_rep a s → is_u64 from → is_u64 to →
  wp e (sqlite_tombstone_range_with_marker t o from to mt mo)
    (sqlite_post (OpTombstoneMarker t o from to mt mo) a) s.
Proof.
  intros Hrep Hf Ht. unfold sqlite_tombstone_range_with_marker.
  destruct (N.ltb_spec to from) as [Hlt|Hle].
  { apply wp_throw. split; [done|]. right. right. cbn [spec_op]. by rewrite (proj2 (N.ltb_lt to from)). }
  begin_tx. apply wp_bind, wp_now_i64. intros now Hnow Hclock.
  apply wp_bind, wp_zoom, (wp_tombstone_in_tx a); [done..| |].
  2: { intros d x Hx. apply sqlite_post_err; [done|]. destruct Hx as [?|[?|?]]; [by left|right; by left|].
       right. right. right. by right. }
  intros d' Hrep'. rewrite encode_ok. apply wp_bind, wp_of_result.
  unfold NewMessage_new. apply wp_bind, wp_bind, wp_MessageId_new. intros u. apply wp_ret.
  apply wp_bind, wp_zoom, (wp_append_in_tx (tombstone_spec (key_of t o) from to a).2); [done| |].
  2: { intros d x Hx. apply sqlite_post_err; [done|]. destruct Hx as [?|Hx]; [by left|]. right. right.
       destruct Hx as [Hx|[Hx|Hx]]; [left|right; left|right; by right].
       - by rewrite tombstone_head in Hx.
       - exists u. by apply id_used_tombstone in Hx. }
  intros now' d2 Hnow' Hrep2. apply wp_bind, wp_sqlite_commit; [|by apply sqlite_post_fault].
  apply wp_ret. eexists. split; [|exact Hrep2]. cbn [spec_op]. rewrite (proj2 (N.ltb_ge to from)) by done.
  exists now, now', u. done.
Qed.

(** ** Operations on queues *)

Lemma enqueue_spec_next now m a :
  let q := queue_str (nf_queue m) in
  let st := mkStoredFifoMessage (nf_id m) (nf_queue m) (nf_topic m) (nf_source m) (nf_target m)
              (nf_payload m) (nf_headers m) now (seq_of a q + 1) 0 in
  wf a → ¬ over (seq_of a q + 1)%N →
  u64_saturating_add (seq_of a q) 1 = (seq_of a q + 1)%N ∧
  enqueue_spec now m a = (st, set_queue q (seq_of a q + 1)%N (queue_of a q ++ [st]) a).
Proof.
  intros q st Hwf Hov.
  assert (u64_saturating_add (seq_of a q) 1 = seq_of a q + 1)%N as Hnext.
  { apply u64_saturating_succ. unfold over, i64_max, u64_max in *. lia. }
  split; [done|]. unfold enqueue_spec. fold q. rewrite Hnext. fold st. do 2 f_equal.
  f_equal. apply filter_all. intros x Hx. destruct (wf_queue_entry _ Hwf _ _ Hx). lia.
Qed.

(** The second half of [enqueue_fifo], once the number is known. *)
Lemma enqueue_insert a s m now :
  let q := queue_str (nf_queue m) in
  let st := mkStoredFifoMessage (nf_id m) (nf_queue m) (nf_topic m) (nf_source m) (nf_target m)
              (nf_payload m) (nf_headers m) now (seq_of a q + 1) 0 in
  sqlite_db_rep a s → ticks e now → ¬ over now ∨ clock_over e → ¬ over (seq_of a q + 1)%N →
  wp e (row ← of_result (fifo_params st);
        in_tx (execute (insert_fifo row));;
        commit;;
        mret st) (sqlite_post (OpEnqueue m) a)
    (mkSqlite (conn s) (set_fifo_sequences (upsert (same_key sq_queue)
       (λ new old, mkSequenceRow (sq_queue old) (sq_sequence new))
       (mkSequenceRow q (Z.of_N (seq_of a q + 1))) (fifo_sequences (conn s))) (conn s))).
Proof.
  intros q st Hrep Hnow Hclock Hov. pose proof (sr_wf _ _ Hrep) as Hwf. apply wp_bind, wp_of_result.
  assert (∀ d, on_err (has_fault e ∨ sqlite_limited e _ (OpEnqueue m) a)
            (sqlite_post (OpEnqueue m) a) (mkSqlite (conn s) d)) as Hf
    by (intros d; by apply sqlite_post_err).
  destruct (fifo_params_ok st) as [[_ ->]|[Hc [x ->]]]; [unfold over in Hov; simpl; lia| |].
  2: { apply Hf. right. right. right. by destruct Hclock as [Hno|?]; [destruct Hno|]. }
  apply wp_bind, wp_zoom, wp_execute; [|by apply sqlite_post_fault].
  unfold insert_fifo, insert_into. cbn [tx fifo_messages set_fifo_sequences].
  destruct (decide (Exists _ _)) as [He|He].
  { apply Hf. right. right. left. apply (fifo_next_clash a (conn s) st); [done|simpl; fold q; lia|done]. }
  apply wp_bind, wp_sqlite_commit; [|by apply sqlite_post_fault].
  destruct (enqueue_spec_next now m a Hwf Hov) as [_ Heq]. fold q in Heq. fold st in Heq.
  pose proof (enqueue_wf now m a Hwf) as Hwf'. rewrite Heq in Hwf'.
  apply wp_ret. exists (set_queue q (seq_of a q + 1)%N (queue_of a q ++ [st]) a).
  split; [exists now; by rewrite Heq|].
  refine (queue_rep a (conn s) q _ _ _ _ Hrep Hwf' _ _ _ _ _).
  - unfold over in Hov. lia.
  - intros q'. by apply seqs_upsert, Hrep.
  - rewrite by_key_snoc, decide_True by done. rewrite fmap_app. by rewrite (sr_queues _ _ Hrep q).
  - intros q' Hne. rewrite by_key_snoc, decide_False; [apply app_nil_r|]. intros <-. by apply Hne.
  - intros x [Hx|Hx]%elem_of_app; [by apply (sr_attempts _ _ Hrep q)|].
    by apply list_elem_of_singleton in Hx as ->.
Qed.

Lemma sqlite_enqueue_refines a s m :
  sqlite_db_rep a s → wp e (sqlite_enqueue_fifo m) (sqlite_post (OpEnqueue m) a) s.
Proof.
  intros Hrep. pose proof (sr_wf _ _ Hrep) as Hwf. unfold sqlite_enqueue_fifo. begin_tx.
  set (q := queue_str (nf_queue m)). apply wp_bind, wp_zoom, wp_query_row; [|by apply sqlite_post_fault].
  cbn [tx]. pose proof (sr_seqs _ _ Hrep q) as Hseq.
  change (select_sequence q (conn s)) with (by_key sq_queue q (fifo_sequences (conn s))).
  assert (∀ o : option Z, default 0%Z o = Z.of_N (seq_of a q) →
    ∃ o', transpose (i64_to_u64 <$> o) = Ok o' ∧ default 0%N o' = seq_of a q) as Hcur.
  { intros [z|] Hz; simpl in *; [subst z; rewrite i64_to_u64_of_N|]; eexists; split; [done..|simpl; lia]. }
  destruct (by_key sq_queue q _) as [|r rows]; destruct (Hcur _ Hseq) as (o' & Ho & Ho');
    change (sq_sequence <$> head (r :: rows)) with (Some (sq_sequence r)) in Ho ||
    change (sq_sequence <$> head (@nil SequenceRow)) with (@None Z) in Ho;
    rewrite Ho; apply wp_bind, wp_of_result; rewrite Ho'; apply wp_bind, wp_of_result;
    (destruct (decide (over (seq_of a q + 1)%N)) as [Hov|Hov];
      [destruct (u64_to_i64_over (u64_saturating_add (seq_of a q) 1)) as [x ->];
        [unfold over, u64_saturating_add, u64_max, i64_max in *; lia|];
        apply sqlite_post_err; [done|]; right; by left|]);
    destruct (enqueue_spec_next 0 m a Hwf Hov) as [Hnext _]; fold q in Hnext;
    rewrite Hnext, u64_to_i64_fits by (unfold over in Hov; lia);
    (apply wp_bind, wp_zoom, wp_execute; [|by apply sqlite_post_fault]);
    apply wp_bind, wp_now_i64; intros now Hnow Hclock; by apply enqueue_insert.
Qed.

Lemma wp_front a d q (Q : result MsgbusError (option StoredFifoMessage) → Database → Prop) :
  sqlite_rep a d → Q (Ok (head (queue_of a q))) d →
  on_err (has_fault e ∨ ∃ m, head (queue_of a q) = Some m ∧ ¬ fifo_ok m) Q d →
  wp e (query_row (select_front q) row_to_fifo) Q d.
Proof.
  intros Hrep HQ Hf. apply wp_query_row; [|intros x ?; apply Hf; by left].
  rewrite (select_front_rows a) by done. destruct (queue_of a q) as [|m l] eqn:Hq; simpl in *; [done|].
  destruct (row_to_fifo_read m) as [[_ ->]|[Hno [x ->]]]; [|done|apply Hf; right; eauto].
  apply (sr_attempts _ _ Hrep q). rewrite Hq. by left.
Qed.

Lemma sqlite_peek_refines a s q :
  sqlite_db_rep a s → wp e (sqlite_peek_fifo q) (sqlite_post (OpPeek q) a) s.
Proof.
  intros Hrep. unfold sqlite_peek_fifo.
  apply wp_bind, wp_connection; [|by apply sqlite_post_fault].
  apply wp_zoom, (wp_front a); [done| |exact (sqlite_post_err (OpPeek q) a s Hrep)].
  by exists a.
Qed.

Definition sqlite_front_spec (action : FifoFrontAction)
    : string → MessageId → AbsStore → bool * AbsStore :=
  match action with Ack => ack_spec | Reject => reject_spec end.

(** The rows of a queue other than its front are not touched by a statement on
    the front's number. *)
Lemma front_delete_rep a d q m l :
  sqlite_rep a d → queue_of a q = m :: l →
  sqlite_rep (set_queue q (seq_of a q) l a)
    (set_fifo_messages (delete_where (λ r, fr_queue r = q ∧ fr_sequence r = Z.of_N (sf_sequence m))
                          (fifo_messages d)) d).
Proof.
  intros Hrep Hq. pose proof (sr_wf _ _ Hrep) as Hwf.
  pose proof (wf_queue_sorted _ Hwf q) as Hs. rewrite Hq in Hs. inversion Hs as [|?? _ Hlt]; subst.
  refine (queue_rep a d q _ l _ _ Hrep (queue_tail_wf q m l a Hwf Hq) (sr_seq_max _ _ Hrep q) _ _ _ _).
  - intros q'. by apply seqs_same, Hrep.
  - rewrite by_key_delete. unfold delete_where. rewrite (sr_queues _ _ Hrep q), Hq.
    rewrite (fmap_filter fifo_row _ (λ x, sf_sequence x ≠ sf_sequence m)).
    + rewrite filter_cons_False by (intros H; by apply H). rewrite filter_all; [done|].
      intros x Hx. rewrite Forall_forall in Hlt. apply Hlt in Hx. unfold seq_lt in Hx. lia.
    + intros x Hx. rewrite <- Hq in Hx. destruct (wf_queue_entry _ Hwf q x Hx) as [_ Hqx]. simpl.
      split; [intros H Heq; apply H; split; [done|lia] | intros H [_ Heq]; lia].
  - intros q' Hne. rewrite by_key_delete. unfold delete_where. apply filter_all.
    intros r [Hr _]%by_key_elem [Hr' _]. congruence.
  - intros x Hx. apply (sr_attempts _ _ Hrep q). rewrite Hq. by right.
Qed.

Lemma front_attempts_rep a d q m l n :
  sqlite_rep a d → queue_of a q = m :: l → is_u32 n →
  sqlite_rep (set_queue q (seq_of a q) (set_attempts n m :: l) a)
    (set_fifo_messages (update_where (λ r, fr_queue r = q ∧ fr_sequence r = Z.of_N (sf_sequence m))
                          (set_row_attempts (Z.of_N n)) (fifo_messages d)) d).
Proof.
  intros Hrep Hq Hn. pose proof (sr_wf _ _ Hrep) as Hwf.
  pose proof (wf_queue_sorted _ Hwf q) as Hs. rewrite Hq in Hs. inversion Hs as [|?? _ Hlt]; subst.
  refine (queue_rep a d q _ (set_attempts n m :: l) _ _ Hrep _ (sr_seq_max _ _ Hrep q) _ _ _ _).
  - by eapply queue_head_wf.
  - intros q'. by apply seqs_same, Hrep.
  - rewrite by_key_update by done. unfold update_where. rewrite (sr_queues _ _ Hrep q), Hq. csimpl.
    destruct (wf_queue_entry _ Hwf q m) as [_ Hqm]; [rewrite Hq; by left|].
    rewrite decide_True by (split; [exact Hqm|done]). apply perm_skip.
    rewrite <- list_fmap_compose. erewrite list_fmap_ext; [done|].
    intros i x Hx. simpl. rewrite decide_False; [done|]. intros [_ Hseq].
    rewrite Forall_forall in Hlt. specialize (Hlt x ltac:(by eapply list_elem_of_lookup_2)).
    unfold seq_lt in Hlt. lia.
  - intros q' Hne. rewrite by_key_update by done. unfold update_where.
    rewrite (list_fmap_ext _ id); [by rewrite list_fmap_id|].
    intros i r Hr. apply list_elem_of_lookup_2, by_key_elem in Hr as [Hr _].
    rewrite decide_False; [done|]. intros [? _]. congruence.
  - intros x [->|Hx]%elem_of_cons; [done|]. apply (sr_attempts _ _ Hrep q). rewrite Hq. by right.
Qed.

Lemma sqlite_update_front a s q i action :
  sqlite_db_rep a s →
  wp e (update_fifo_front q i action) (λ r s',
    match r with
    | Ok x => x = (sqlite_front_spec action (queue_str q) i a).1 ∧
              sqlite_db_rep (sqlite_front_spec action (queue_str q) i a).2 s'
    | Err x => sqlite_db_rep a s' ∧
        (has_fault e ∨ ∃ m, head (queue_of a (queue_str q)) = Some m ∧ ¬ fifo_ok m)
    end) s.
Proof.
  intros Hrep. pose proof (sr_wf _ _ Hrep) as Hwf. unfold update_fifo_front.
  set (qs := queue_str q). set (Q := λ (r : Result bool) s', _).
  assert (∀ d, on_err (has_fault e) Q (mkSqlite (conn s) d)) as Hf by (intros d x ?; by split; [|left]).
  apply wp_bind, wp_connection; [|intros x ?; by split; [|left]].
  apply wp_bind, wp_transaction; [|intros x ?; by split; [|left]].
  apply wp_bind, wp_zoom, (wp_front a); [done| |intros x ?; by split].
  assert (∀ d acc a', sqlite_rep a' d → (acc, a') = sqlite_front_spec action qs i a →
    wp e (commit;; mret acc) Q (mkSqlite (conn s) d)) as Hfin.
  { intros d acc a' Hd Hspec. apply wp_bind, wp_sqlite_commit; [|apply Hf].
    apply wp_ret. unfold Q. by rewrite <- Hspec. }
  destruct (queue_of a qs) as [|m l] eqn:Hq; cbn [head].
  { apply wp_bind, wp_ret, (Hfin _ _ a); [done|].
    destruct action; cbn; unfold ack_spec, reject_spec; by rewrite Hq. }
  case_bool_decide as Hid.
  2: { apply wp_bind, wp_ret, (Hfin _ _ a); [done|].
       destruct action; cbn; unfold ack_spec, reject_spec; by rewrite Hq, bool_decide_eq_false_2. }
  assert (u64_to_i64 (sf_sequence m) = Ok (Z.of_N (sf_sequence m))) as Hi.
  { apply u64_to_i64_fits. pose proof (sr_seq_max _ _ Hrep qs).
    destruct (wf_queue_entry _ Hwf qs m); [rewrite Hq; by left|]. lia. }
  apply wp_bind, wp_bind. destruct action; cbn [sf_sequence set_attempts]; rewrite Hi;
    apply wp_bind, wp_of_result; (apply wp_bind, wp_zoom, wp_execute; [|apply Hf]);
    apply wp_ret, wp_ret.
  - eapply Hfin; [by apply front_delete_rep|]. cbn. unfold ack_spec.
    by rewrite Hq, bool_decide_eq_true_2.
  - eapply Hfin; [apply (front_attempts_rep a (conn s) qs m l (u32_saturating_add (sf_attempts m) 1)); [done|done|]|].
    + unfold is_u32, u32_saturating_add. lia.
    + cbn. unfold reject_spec. by rewrite Hq, bool_decide_eq_true_2.
Qed.

Lemma sqlite_ack_refines a s q i :
  sqlite_db_rep a s → wp e (sqlite_ack_fifo q i) (sqlite_post (OpAck q i) a) s.
Proof.
  intros Hrep. eapply wp_mono; [by apply (sqlite_update_front a _ q i Ack)|].
  intros [x|x] s'; simpl; [intros [-> ?]; eauto | intros [? [?|?]]; eauto].
Qed.

Lemma sqlite_reject_refines a s q i :
  sqlite_db_rep a s → wp e (sqlite_reject_fifo q i) (sqlite_post (OpReject q i) a) s.
Proof.
  intros Hrep. eapply wp_mono; [by apply (sqlite_update_front a _ q i Reject)|].
  intros [x|x] s'; simpl; [intros [-> ?]; eauto | intros [? [?|?]]; eauto].
Qed.

(** ** Sync states *)

Lemma sqlite_record_refines a s st :
  sqlite_db_rep a s → paired st →
  wp e (sqlite_record_peer_sync_state st) (sqlite_post (OpRecord st) a) s.
Proof.
  intros Hrep Hp. unfold sqlite_record_peer_sync_state. begin_tx.
  destruct (peer_sync_keys st) as [tk ok] eqn:Hkeys.
  assert (∀ d, on_err (has_fault e) (sqlite_post (OpRecord st) a) (mkSqlite (conn s) d)) as Hf
    by (intros d; by apply sqlite_post_fault).
  apply wp_bind, wp_zoom, wp_query_row; [|apply Hf]. cbn [tx].
  pose proof (select_peer_rows a (conn s) st Hrep Hp) as Hsel. rewrite Hkeys in Hsel. simpl in Hsel.
  rewrite Hsel.
  set (F := λ prev : option PeerSyncState,
    match ps_last_error st with
    | Some _ =>
        match prev with
        | Some previous =>
            (if (ps_last_success_at_ms st =? 0)%N
             then ps_last_success_at_ms previous else ps_last_success_at_ms st,
             u32_saturating_add (ps_consecutive_failures previous) 1)
        | None => (ps_last_success_at_ms st, 1%N)
        end
    | None => (ps_last_success_at_ms st, 0%N)
    end).
  assert (mkPeerSyncState (ps_peer st) (ps_topic st) (ps_origin st) (ps_local_head st)
    (ps_remote_head st) (ps_last_synced_head st) (ps_last_attempt_at_ms st)
    (F (a_sync a !! sync_id st)).1 (F (a_sync a !! sync_id st)).2 (ps_last_error st)
    = record_spec st a) as Hst.
  { unfold record_spec, F. by destruct (ps_last_error st), (a_sync a !! sync_id st). }
  assert (∀ o, transpose (decode_json <$> o) = Ok (a_sync a !! sync_id st) →
    wp e (previous ← of_result (transpose (decode_json <$> o));
          let '(last_success, failures) := F previous in
          let state := mkPeerSyncState (ps_peer st) (ps_topic st) (ps_origin st) (ps_local_head st)
            (ps_remote_head st) (ps_last_synced_head st) (ps_last_attempt_at_ms st) last_success
            failures (ps_last_error st) in
          state_json ← of_result (encode_json state);
          in_tx (execute (upsert_peer (mkPeerRow (ps_peer state) tk ok state_json)));;
          commit) (sqlite_post (OpRecord st) a) (mkSqlite (conn s) (conn s))) as Hgo.
  { intros o ->. apply wp_bind, wp_of_result. destruct (F _) as [x y]. simpl in Hst. cbv zeta.
    rewrite Hst, encode_json_ok. apply wp_bind, wp_of_result.
    apply wp_bind, wp_zoom, wp_execute; [|apply Hf]. apply wp_sqlite_commit; [|apply Hf].
    exists (set_sync (sync_id st) (record_spec st a) a). split; [done|].
    apply (sync_rep a (conn s) (record_spec st a)); [done|done|].
    unfold peer_row. change (peer_sync_keys (record_spec st a)) with (peer_sync_keys st).
    by rewrite Hkeys. }
  destruct (a_sync a !! sync_id st) as [prev|]; apply Hgo; simpl; [by rewrite decode_str_of | done].
Qed.

Lemma sqlite_list_sync_refines a s :
  sqlite_db_rep a s → wp e sqlite_list_peer_sync_states (sqlite_post OpListSync a) s.
Proof.
  intros Hrep. pose proof (sr_wf _ _ Hrep) as Hwf. unfold sqlite_list_peer_sync_states.
  apply wp_bind, wp_connection; [|by apply sqlite_post_fault]. apply wp_zoom.
  apply wp_bind, wp_prepare; [|by apply sqlite_post_fault].
  assert (peer_sync_states (conn s) ≡ₚ peer_row <$> (map_to_list (a_sync a)).*2) as Hperm.
  { apply NoDup_Permutation.
    - eapply NoDup_fmap_1. apply (sr_sync_pk _ _ Hrep).
    - apply (NoDup_fmap_2_strong peer_row); [|by apply sync_states_NoDup].
      intros x y _ _ Hxy. injection Hxy as _ _ _ Hxy. pose proof (decode_str_of x) as Hx.
      rewrite Hxy, decode_str_of in Hx. by injection Hx.
    - intros r. rewrite (sr_sync _ _ Hrep), list_elem_of_fmap. setoid_rewrite list_elem_of_fmap. split.
      + intros (st & Hst & ->). exists st. split; [done|]. exists (sync_id st, st).
        split; [done|]. by apply elem_of_map_to_list.
      + intros (st & -> & [k st'] & -> & Hin%elem_of_map_to_list). simpl.
        exists st'. split; [|done]. by destruct (wf_sync _ Hwf _ _ Hin) as [-> _]. }
  destruct (Permutation_map_inv peer_row (l1 := select_peers (conn s)) (map_to_list (a_sync a)).*2)
    as (l & Hsel & Hl); [etrans; [apply merge_sort_Permutation | exact Hperm]|].
  apply (wp_query_all _ _ peer_row id (λ _, True) l); [exact Hsel| | |].
  - intros st _. left. split; [done|]. simpl. by rewrite decode_str_of.
  - rewrite list_fmap_id. exists a. split; [|done]. split; [done|]. by exists l.
  - intros x [?|Hx]; [by apply sqlite_post_fault|].
    apply Exists_exists in Hx as (y & _ & Hy). by destruct Hy.
Qed.
End refine.
