(* ===== verification/Sqlite.v ===== *)
(** * Sqlite: theorems about the SQLite backend

    The backend discharges the store contract up to its limits; its schema is an
    invariant of every operation; and failures change nothing. *)

From Stdlib Require Import String NArith ZArith Lia Sorting.Sorted.
From stdpp Require Import base strings list gmap sorting.
From S2P Require Import Prelude Strings Core Json Concrete Spec SpecFacts History Sql SqliteStore SqliteRep SqliteRefine.

Section sqlite_refinement.
Context {SX : SqliteTexts} {JN : Json NodeId} {JNL : JsonLaws NodeId}.
Context {JH : Json (gmap string string)} {JHL : JsonLaws (gmap string string)}.
Context {JT : Json TombstoneRange} {JTL : JsonLaws TombstoneRange}.
Context {JP : Json PeerSyncState} {JPL : JsonLaws PeerSyncState}.

Lemma sqlite_refines_op {A} (op : StoreOp A) :
  refines_op (DB := SqliteStore) sqlite_db_rep sqlite_limited op.
Proof.
  intros e a s Hty Hrep. destruct op; simpl in Hty.
  - by apply sqlite_append_refines.
  - by apply sqlite_fetch_refines.
  - by apply sqlite_get_head_refines.
  - by apply sqlite_list_heads_refines.
  - by apply sqlite_put_refines.
  - destruct Hty. by apply sqlite_tombstone_refines.
  - destruct Hty. by apply sqlite_marker_refines.
  - by apply sqlite_enqueue_refines.
  - by apply sqlite_peek_refines.
  - by apply sqlite_ack_refines.
  - by apply sqlite_reject_refines.
  - by apply sqlite_record_refines.
  - by apply sqlite_list_sync_refines.
Qed.

#[export] Instance sqlite_refinement : StoreRefinement SqliteStore := {|
  rep := sqlite_db_rep;
  limited := sqlite_limited;
  rep_wf := λ a s H, sr_wf a (conn s) H;
  store_refines := @sqlite_refines_op;
|}.
End sqlite_refinement.

(** ** The schema *)

Definition is_i64 (z : Z) : Prop := (0 ≤ z ≤ i64_max)%Z.

(** Primary keys and unique indexes hold, and every INTEGER is a non-negative
    [i64]; an attempt counter is a [u32] and a deletion flag 0 or 1. *)
Record schema_ok (d : Database) : Prop := {
  so_heads : NoDup (heads_pk <$> heads d);
  so_messages : NoDup (messages_pk <$> messages d);
  so_message_ids : NoDup (mr_id <$> messages d);
  so_tombstones : NoDup (tombstones_pk <$> tombstones d);
  so_sequences : NoDup (sq_queue <$> fifo_sequences d);
  so_fifo : NoDup (fifo_pk <$> fifo_messages d);
  so_fifo_ids : NoDup (fr_id <$> fifo_messages d);
  so_peers : NoDup (peers_pk <$> peer_sync_states d);
  so_head_int : Forall (λ r, is_i64 (h_head_id r)) (heads d);
  so_message_int : Forall (λ r, is_i64 (mr_head_id r) ∧ is_i64 (mr_created_at_ms r) ∧
                             (mr_deleted r = 0%Z ∨ mr_deleted r = 1%Z)) (messages d);
  so_tombstone_int : Forall (λ r, is_i64 (tb_from_head_id r) ∧ is_i64 (tb_to_head_id r) ∧
                               is_i64 (tb_created_at_ms r)) (tombstones d);
  so_sequence_int : Forall (λ r, is_i64 (sq_sequence r)) (fifo_sequences d);
  so_fifo_int : Forall (λ r, is_i64 (fr_sequence r) ∧ is_i64 (fr_created_at_ms r) ∧
                          (0 ≤ fr_attempts r ≤ Z.of_N u32_max)%Z) (fifo_messages d);
}.

Lemma schema_empty : schema_ok empty_database.
Proof. split; constructor. Qed.

Lemma u64_to_i64_int n z : u64_to_i64 n = Ok z → is_i64 z.
Proof. intros [-> ?]%u64_to_i64_iff. unfold is_i64. lia. Qed.

(** Inserting a row that does not clash keeps keys apart. *)
Lemma NoDup_snoc_key {R K} (key : R → K) (t : list R) r :
  NoDup (key <$> t) → ¬ Exists (λ x, key r = key x) t → NoDup (key <$> t ++ [r]).
Proof.
  intros Hnd He. rewrite fmap_app. apply NoDup_app. split; [done|]. split; [|apply NoDup_singleton].
  intros k (x & -> & Hx)%list_elem_of_fmap Hk%list_elem_of_singleton. apply He, Exists_exists.
  exists x. by split.
Qed.

Lemma NoDup_fmap_same {R K} (key : R → K) (f : R → R) (t : list R) :
  (∀ x, key (f x) = key x) → NoDup (key <$> t) → NoDup (key <$> (f <$> t)).
Proof.
  intros Hf. rewrite <- list_fmap_compose.
  rewrite (list_fmap_ext (key ∘ f) key t); [done|]. intros; apply Hf.
Qed.

Lemma NoDup_key_filter {R K} (key : R → K) (P : R → Prop) `{!∀ x, Decision (P x)} (t : list R) :
  NoDup (key <$> t) → NoDup (key <$> filter P t).
Proof.
  induction t as [|x t IH]; [done|]. rewrite fmap_cons, filter_cons. intros [Hx Hnd]%NoDup_cons.
  case_decide; [|by apply IH]. rewrite fmap_cons. constructor; [|by apply IH].
  intros (y & Hy & Hin)%list_elem_of_fmap. destruct Hx. rewrite Hy.
  apply list_elem_of_filter in Hin as [_ Hin]. by apply list_elem_of_fmap_2.
Qed.

Lemma Exists_key {R K} `{!EqDecision K} (key : R → K) (C : relation R) r t :
  (∀ x y, key x = key y → C x y) → ¬ Exists (C r) t → ¬ Exists (λ x, key r = key x) t.
Proof. intros HC He. rewrite !Exists_exists in *. naive_solver. Qed.

Lemma Forall_update {R} (P : R → Prop) (Q : R → Prop) `{!∀ x, Decision (Q x)} f t :
  Forall P t → (∀ x, P x → P (f x)) → Forall P (update_where Q f t).
Proof.
  intros HP Hf. apply Forall_fmap. eapply Forall_impl; [exact HP|]. intros x Hx. simpl.
  case_decide; auto.
Qed.

Lemma Forall_filter_sub {R} (P Q : R → Prop) `{!∀ x, Decision (Q x)} t :
  Forall P t → Forall P (filter Q t).
Proof. rewrite !Forall_forall. intros Ht x [_ Hx]%list_elem_of_filter. by apply Ht. Qed.

Lemma Forall_snoc_2 {R} (P : R → Prop) t r : Forall P t → P r → Forall P (t ++ [r]).
Proof. intros. apply Forall_app. split; [done|]. by constructor. Qed.

Lemma Forall_upsert {R} (P : R → Prop) (C : relation R) `{!RelDecision C} set r t :
  Forall P t → P r → (∀ x, P x → P (set r x)) → Forall P (upsert C set r t).
Proof.
  intros Ht Hr Hset. unfold upsert. case_decide; [|by apply Forall_snoc_2].
  apply Forall_fmap. eapply Forall_impl; [exact Ht|]. intros x Hx. simpl. case_decide; auto.
Qed.

(** *** Statements keep the schema *)

Definition keeps_schema (stmt : Database → result string (N * Database)) : Prop :=
  ∀ d n d', schema_ok d → stmt d = Ok (n, d') → schema_ok d'.

Lemma upsert_head_schema r : is_i64 (h_head_id r) → keeps_schema (upsert_head r).
Proof.
  intros Hr d n d' [] [= <- <-]. split; simpl; try done.
  - apply upsert_NoDup; [by intros x Hx|done].
  - by apply Forall_upsert.
Qed.

Definition message_int (r : MessageRow) : Prop :=
  is_i64 (mr_head_id r) ∧ is_i64 (mr_created_at_ms r) ∧ (mr_deleted r = 0%Z ∨ mr_deleted r = 1%Z).

Lemma insert_message_schema `{!SqliteTexts} r : message_int r → keeps_schema (insert_message r).
Proof.
  intros Hr d n d' Hd. unfold insert_message, insert_into. case_decide as He; [done|].
  intros [= <- <-]. destruct Hd. split; simpl; try done.
  - apply NoDup_snoc_key; [done|]. apply (Exists_key _ messages_clash); [|done]. intros x y ?. by left.
  - apply NoDup_snoc_key; [done|]. apply (Exists_key _ messages_clash); [|done]. intros x y ?. by right.
  - by apply Forall_snoc_2.
Qed.

Lemma mark_rows_schema (P : MessageRow → Prop) `{!∀ x, Decision (P x)} n :
  keeps_schema (λ d, Ok (n, set_messages (update_where P mark_row (messages d)) d)).
Proof.
  intros d n' d' [] [= <- <-]. split; simpl; try done.
  - apply NoDup_fmap_same; [|done]. intros x. by case_decide.
  - apply NoDup_fmap_same; [|done]. intros x. by case_decide.
  - apply Forall_update; [done|]. intros x (? & ? & _). split; [done|]. split; [done|]. by right.
Qed.

Lemma update_deleted_schema t o h : keeps_schema (update_deleted t o h).
Proof. intros d n d' Hd H. by eapply (mark_rows_schema _ _ d). Qed.

Lemma update_deleted_range_schema t o from to : keeps_schema (update_deleted_range t o from to).
Proof. intros d n d' Hd H. by eapply (mark_rows_schema _ _ d). Qed.

Lemma insert_tombstone_schema r :
  is_i64 (tb_from_head_id r) → is_i64 (tb_to_head_id r) → is_i64 (tb_created_at_ms r) →
  keeps_schema (insert_tombstone r).
Proof.
  intros H1 H2 H3 d n d' [] [= <- <-]. unfold insert_or_ignore. split; simpl; try done;
    case_decide as He; try done; [by apply NoDup_snoc_key | by apply Forall_snoc_2].
Qed.

Lemma upsert_sequence_schema r : is_i64 (sq_sequence r) → keeps_schema (upsert_sequence r).
Proof.
  intros Hr d n d' [] [= <- <-]. split; simpl; try done.
  - apply upsert_NoDup; [by intros x Hx|done].
  - by apply Forall_upsert.
Qed.

Definition fifo_int (r : FifoRow) : Prop :=
  is_i64 (fr_sequence r) ∧ is_i64 (fr_created_at_ms r) ∧ (0 ≤ fr_attempts r ≤ Z.of_N u32_max)%Z.

Lemma insert_fifo_schema `{!SqliteTexts} r : fifo_int r → keeps_schema (insert_fifo r).
Proof.
  intros Hr d n d' Hd. unfold insert_fifo, insert_into. case_decide as He; [done|].
  intros [= <- <-]. destruct Hd. split; simpl; try done.
  - apply NoDup_snoc_key; [done|]. apply (Exists_key _ fifo_clash); [|done]. intros x y ?. by left.
  - apply NoDup_snoc_key; [done|]. apply (Exists_key _ fifo_clash); [|done]. intros x y ?. by right.
  - by apply Forall_snoc_2.
Qed.

Lemma delete_fifo_schema q z : keeps_schema (delete_fifo q z).
Proof.
  intros d n d' [] [= <- <-]. split; simpl; try done; unfold delete_where.
  - by apply NoDup_key_filter.
  - by apply NoDup_key_filter.
  - by apply Forall_filter_sub.
Qed.

Lemma update_attempts_schema q z k :
  (0 ≤ k ≤ Z.of_N u32_max)%Z → keeps_schema (update_attempts q z k).
Proof.
  intros Hk d n d' [] [= <- <-]. split; simpl; try done.
  - apply NoDup_fmap_same; [|done]. intros x. by case_decide.
  - apply NoDup_fmap_same; [|done]. intros x. by case_decide.
  - apply Forall_update; [done|]. intros x (? & ? & _). done.
Qed.

Lemma upsert_peer_schema r : keeps_schema (upsert_peer r).
Proof.
  intros d n d' [] [= <- <-]. split; simpl; try done.
  apply upsert_NoDup; [by intros x Hx|done].
Qed.

#[export] Hint Resolve upsert_head_schema insert_message_schema update_deleted_schema
  update_deleted_range_schema insert_tombstone_schema upsert_sequence_schema insert_fifo_schema
  delete_fifo_schema update_attempts_schema upsert_peer_schema u64_to_i64_int : frames.

(** *** Operations keep the schema, and failures change nothing *)

Section sqlite_frames.
Context {SX : SqliteTexts} {JN : Json NodeId} {JH : Json (gmap string string)}.
Context {JT : Json TombstoneRange} {JP : Json PeerSyncState}.

Lemma execute_preserves stmt : keeps_schema stmt → preserves schema_ok (execute stmt).
Proof.
  intros Hs e d Hd. unfold execute. apply wp_bind, wp_io; [|done]. apply wp_bind, wp_get_state.
  destruct (stmt d) as [[n d']|x] eqn:Hst; [|by apply wp_throw].
  apply wp_bind, wp_put_state, wp_ret. by eapply Hs.
Qed.

Lemma query_row_preserves {R A} (sel : Database → list R) (f : R → result string A) I :
  preserves I (query_row sel f).
Proof.
  unfold query_row. apply preserves_bind; [auto with frames|intros _].
  apply preserves_bind; [auto with frames|intros d]. case_match; [auto with frames|].
  apply preserves_bind; auto with frames.
Qed.

Lemma query_all_preserves {R A} (sel : Database → list R) (f : R → result string A) I :
  preserves I (query_all sel f).
Proof.
  unfold query_all. apply preserves_bind; [auto with frames|intros _].
  apply preserves_bind; [auto with frames|intros d]. apply preserves_bind.
  - apply preserves_for_each. intros x a. do 2 (apply preserves_bind; [auto with frames|intros ?]). auto with frames.
  - intros out. apply preserves_bind; auto with frames.
Qed.

(** Both the database and the transaction in progress. *)
Definition schema_store (s : SqliteStore) : Prop := schema_ok (conn s) ∧ schema_ok (tx s).

Lemma in_tx_preserves {A} (m : M MsgbusError Database A) :
  preserves schema_ok m → preserves schema_store (in_tx m).
Proof.
  intros Hm e s [Hc Ht] t. unfold in_tx, zoom. specialize (Hm e (tx s) Ht t).
  destruct (m e t (tx s)) as [[r t'] d]. by split.
Qed.

Lemma in_conn_preserves {A} (m : M MsgbusError Database A) :
  preserves schema_ok m → preserves schema_store (in_conn m).
Proof.
  intros Hm e s [Hc Ht] t. unfold in_conn, zoom. specialize (Hm e (conn s) Hc t).
  destruct (m e t (conn s)) as [[r t'] d]. by split.
Qed.

Lemma transaction_preserves : preserves schema_store transaction.
Proof. intros e s [Hc Ht]. unfold transaction. wp_run; by split. Qed.
Lemma commit_preserves : preserves schema_store commit.
Proof. intros e s [Hc Ht]. unfold commit. wp_run; by split. Qed.
Lemma connection_preserves : preserves schema_store connection.
Proof. apply preserves_io. Qed.
Lemma prepare_preserves : preserves schema_ok prepare.
Proof. apply preserves_io. Qed.

Hint Resolve execute_preserves query_row_preserves query_all_preserves in_tx_preserves
  in_conn_preserves transaction_preserves commit_preserves connection_preserves prepare_preserves
  : frames.

Ltac preserves_run :=
  repeat first
    [ solve [auto 6 with frames]
    | solve [eauto 7 with frames]
    | apply in_conn_preserves | apply in_tx_preserves
    | apply preserves_bind_result; intros ? ?
    | apply preserves_bind; [solve [preserves_run] | intros ?]
    | case_match ].

Lemma query_head_preserves t o : preserves schema_ok (query_head t o).
Proof. unfold query_head. preserves_run. Qed.

Lemma markers_preserves m : preserves schema_ok (apply_tombstone_markers m).
Proof. unfold apply_tombstone_markers. preserves_run. Qed.

Lemma message_params_int m r : message_params m = Ok r → message_int r.
Proof.
  unfold message_params. intros H. do 4 (apply result_bind_ok in H as (? & ? & H)).
  injection H as <-. unfold message_int. simpl. split; [by eapply u64_to_i64_int|].
  split; [by eapply u64_to_i64_int|]. destruct (sm_deleted m); [by right | by left].
Qed.

Lemma fifo_params_int m r : is_u32 (sf_attempts m) → fifo_params m = Ok r → fifo_int r.
Proof.
  unfold fifo_params. intros Hu H. do 5 (apply result_bind_ok in H as (? & ? & H)).
  injection H as <-. unfold fifo_int. simpl. split; [by eapply u64_to_i64_int|].
  split; [by eapply u64_to_i64_int|]. unfold is_u32, u32_max in *. lia.
Qed.

Hint Resolve query_head_preserves markers_preserves message_params_int : frames.

Lemma append_preserves m : preserves schema_ok (append_message_in_tx m).
Proof. unfold append_message_in_tx. preserves_run. Qed.

Lemma tombstone_preserves t o from to now :
  preserves schema_ok (tombstone_range_in_tx t o from to now).
Proof. unfold tombstone_range_in_tx. preserves_run. Qed.

Hint Resolve append_preserves tombstone_preserves : frames.

Lemma put_preserves m : preserves schema_store (sqlite_put_replicated_message m).
Proof.
  unfold sqlite_put_replicated_message. preserves_run.
Qed.

Lemma enqueue_preserves m : preserves schema_store (sqlite_enqueue_fifo m).
Proof.
  unfold sqlite_enqueue_fifo. preserves_run. apply preserves_bind; [|intros ?; preserves_run].
  apply in_tx_preserves, execute_preserves, insert_fifo_schema.
  eapply fifo_params_int; [|eassumption]. done.
Qed.

Lemma front_preserves q i action : preserves schema_store (update_fifo_front q i action).
Proof.
  unfold update_fifo_front. preserves_run. apply preserves_bind; [|intros ?; preserves_run].
  assert (∀ n, 0 ≤ Z.of_N (u32_saturating_add n 1) ≤ Z.of_N u32_max)%Z as Hn
    by (intros n; unfold u32_saturating_add; lia).
  cbn [sf_attempts sf_sequence set_attempts]. preserves_run.
Qed.

Lemma record_preserves st : preserves schema_store (sqlite_record_peer_sync_state st).
Proof.
  unfold sqlite_record_peer_sync_state. preserves_run.
Qed.

Lemma sqlite_preserves {A} (op : StoreOp A) : preserves schema_store (run_op (DB := SqliteStore) op).
Proof.
  destruct op; simpl; [..|apply put_preserves| | |apply enqueue_preserves| |apply front_preserves
    |apply front_preserves|apply record_preserves| ].
  - unfold sqlite_append_message. preserves_run.
  - unfold sqlite_fetch_messages. preserves_run.
  - unfold sqlite_get_head. preserves_run.
  - unfold sqlite_list_heads. preserves_run.
  - unfold sqlite_tombstone_range. preserves_run.
  - unfold sqlite_tombstone_range_with_marker. preserves_run.
  - unfold sqlite_peek_fifo. preserves_run.
  - unfold sqlite_list_peer_sync_states. preserves_run.
Qed.

Lemma keeps_query_row {R A} (sel : Database → list R) (f : R → result string A) :
  keeps id (query_row sel f).
Proof.
  intros e d. unfold query_row. apply wp_bind, wp_io; [|done]. apply wp_bind, wp_get_state.
  case_match; [by apply wp_ret|]. apply wp_bind, wp_of_result. by destruct (f _); [apply wp_ret|].
Qed.

Lemma keeps_query_all {R A} (sel : Database → list R) (f : R → result string A) :
  keeps id (query_all sel f).
Proof.
  intros e d. eapply wp_mono; [apply (query_all_preserves sel f (λ d', d' = d)); done|]. done.
Qed.

Lemma keeps_query_head t o : keeps id (query_head t o).
Proof. unfold query_head. auto using keeps_query_row with frames. Qed.

Lemma keeps_in_conn {A} (m : M MsgbusError Database A) : keeps id m → keeps conn (in_conn m).
Proof.
  intros Hm e s t. unfold in_conn, zoom. specialize (Hm e (conn s) t).
  by destruct (m e t (conn s)) as [[r t'] d].
Qed.
Lemma keeps_in_tx {A} (m : M MsgbusError Database A) : keeps conn (in_tx m).
Proof. by apply keeps_zoom. Qed.
Lemma keeps_transaction : keeps conn transaction.
Proof. intros e s. unfold transaction. wp_run; done. Qed.
Lemma keeps_connection : keeps conn connection.
Proof. apply keeps_io. Qed.
Lemma keeps_prepare : keeps id prepare.
Proof. apply keeps_io. Qed.
Lemma sqlite_atomic_commit : atomic conn commit.
Proof. intros e s. unfold commit. wp_run; done. Qed.
Lemma sqlite_atomic_commit_ret {A} (x : A) : atomic conn (commit;; mret x).
Proof. intros e s. unfold commit. wp_run; done. Qed.

Hint Resolve keeps_query_row keeps_query_all keeps_query_head keeps_in_conn keeps_in_tx
  keeps_transaction keeps_connection keeps_prepare sqlite_atomic_commit sqlite_atomic_commit_ret
  : frames.

Lemma sqlite_atomic {A} (op : StoreOp A) : atomic conn (run_op (DB := SqliteStore) op).
Proof.
  destruct op; simpl.
  - unfold sqlite_append_message. atomic_run.
  - unfold sqlite_fetch_messages. atomic_run.
  - unfold sqlite_get_head. atomic_run.
  - unfold sqlite_list_heads. atomic_run.
  - unfold sqlite_put_replicated_message. case_match; atomic_run.
    repeat (case_match || atomic_run).
  - unfold sqlite_tombstone_range. case_match; atomic_run.
  - unfold sqlite_tombstone_range_with_marker. case_match; atomic_run.
  - unfold sqlite_enqueue_fifo. atomic_run.
  - unfold sqlite_peek_fifo. atomic_run.
  - unfold sqlite_ack_fifo, update_fifo_front. atomic_run.
    apply atomic_bind; [|intros ?; atomic_run]. repeat case_match; auto 8 with frames.
  - unfold sqlite_reject_fifo, update_fifo_front. atomic_run.
    apply atomic_bind; [|intros ?; atomic_run]. repeat case_match; auto 8 with frames.
  - unfold sqlite_record_peer_sync_state. atomic_run. case_match. atomic_run.
  - unfold sqlite_list_peer_sync_states. atomic_run.
Qed.
(** ** Arguments beyond [i64] *)

(** The first argument the operation refuses because it does not fit. *)
Definition oversized {A} (op : StoreOp A) : option N :=
  match op with
  | OpFetch q => guard (over (fq_from_head_id q));; Some (fq_from_head_id q)
  | OpPutReplicated m => guard (over (sm_head_id m));; Some (sm_head_id m)
  | OpTombstone _ _ from to | OpTombstoneMarker _ _ from to _ _ =>
      if decide (to < from)%N then None
      else if decide (over from) then Some from else guard (over to);; Some to
  | _ => None
  end.

Definition exceeds (n : N) : MsgbusError := InvalidArgument (fmt_u64 n +:+ " exceeds i64").

Lemma over_exceeds n : over n → u64_to_i64 n = Err (exceeds n).
Proof.
  unfold over, u64_to_i64. intros Hn. by rewrite (proj2 (Z.leb_gt _ _)) by lia.
Qed.

Lemma tombstone_exceeds e t o from to now d n (Q : result MsgbusError N → Database → Prop) :
  (if decide (over from) then Some from else guard (over to);; Some to) = Some n →
  Q (Err (exceeds n)) d → wp e (tombstone_range_in_tx t o from to now) Q d.
Proof.
  intros Hn HQ. unfold tombstone_range_in_tx. apply wp_bind, wp_of_result. case_decide as Hf.
  - injection Hn as <-. by rewrite over_exceeds.
  - case_guard as Ht; [|done]. injection Hn as <-.
    rewrite u64_to_i64_fits by (unfold over in Hf; lia). apply wp_bind, wp_of_result. by rewrite over_exceeds.
Qed.

Lemma sqlite_exceeds {A} (op : StoreOp A) e n (s : SqliteStore) :
  no_faults e → oversized op = Some n →
  wp e (run_op op) (λ r s', r = Err (exceeds n) ∧ conn s' = conn s) s.
Proof.
  intros Hnf Hn. pose proof (no_faults_has_fault e Hnf) as Hno.
  destruct op; simpl in Hn |- *; try done.
  - unfold sqlite_fetch_messages. case_guard as Ho; [|done]. injection Hn as <-.
    apply wp_bind, wp_connection; [|by intros x ?]. apply wp_zoom, wp_bind, wp_prepare; [|by intros x ?].
    apply wp_bind, wp_of_result. by rewrite over_exceeds.
  - unfold sqlite_put_replicated_message. case_guard as Ho; [|done]. injection Hn as <-.
    rewrite (proj2 (N.eqb_neq _ _)) by (unfold over, i64_max in Ho; lia).
    apply wp_bind, wp_connection; [|by intros x ?]. apply wp_bind, wp_transaction; [|by intros x ?].
    apply wp_bind, wp_zoom. unfold apply_tombstone_markers. destruct (sm_deleted m).
    + apply wp_ret, wp_bind, wp_of_result. by rewrite over_exceeds.
    + apply wp_bind, wp_of_result. by rewrite over_exceeds.
  - unfold sqlite_tombstone_range. destruct (decide (to < from)%N) as [|Hle]; [done|].
    rewrite (proj2 (N.ltb_ge _ _)) by lia.
    apply wp_bind, wp_connection; [|by intros x ?]. apply wp_bind, wp_transaction; [|by intros x ?].
    apply wp_bind, wp_now_ms. intros now _. apply wp_bind, wp_zoom. by eapply tombstone_exceeds.
  - unfold sqlite_tombstone_range_with_marker. destruct (decide (to < from)%N) as [|Hle]; [done|].
    rewrite (proj2 (N.ltb_ge _ _)) by lia.
    apply wp_bind, wp_connection; [|by intros x ?]. apply wp_bind, wp_transaction; [|by intros x ?].
    apply wp_bind, wp_now_ms. intros now _. apply wp_bind, wp_zoom. by eapply tombstone_exceeds.
Qed.
End sqlite_frames.

(** ** The properties *)

(** C2: in every environment, each of the thirteen operations of the SQLite
    store refines the abstract store: it ends, whatever engine calls fail, with
    the answer and the state the specification gives, or with an error and the
    represented state unchanged; and an error is one the specification gives
    unless an engine call failed or the operation met a limit of the backend
    ([sqlite_limited]: signed integers, unique ids, names validated on
    reading). *)
Theorem sqlite_refines `{!SqliteTexts} `{JNL : JsonLaws NodeId}
    `{JHL : JsonLaws (gmap string string)} `{JTL : JsonLaws TombstoneRange}
    `{JPL : JsonLaws PeerSyncState} {A} (op : StoreOp A) e a (s : SqliteStore) :
  op_typed op → sqlite_db_rep a s →
  wp e (run_op op) (λ r s',
    match r with
    | Ok x => ∃ a', spec_op e op a (Ok x) a' ∧ sqlite_db_rep a' s' ∧ wf a'
    | Err x => sqlite_db_rep a s' ∧
        (has_fault e ∨ sqlite_limited e A op a ∨ spec_op e op a (Err x) a)
    end) s.
Proof.
  intros Hty Hrep. eapply wp_mono; [by apply sqlite_refines_op|].
  intros [x|x] s'; [|done].
  intros (a' & Hs & Hrep'). exists a'. split; [done|]. split; [done | apply Hrep'].
Qed.

#[export] Instance sqlite_texts : SqliteTexts := {|
  constraint_failed := λ t, "UNIQUE constraint failed: " +:+ t;
  conversion_failed := λ x, "Conversion error: " +:+ x;
  out_of_range := λ z, "Integer out of range: " +:+ fmt_i64 z;
|}.

Definition sqlite0 : SqliteStore := mkSqlite empty_database empty_database.
Definition append0 : StoreOp StoredMessage :=
  OpAppend (mkNewMessage (mkMessageId "m1") topic_events node_a [] ∅).

Lemma sqlite_refines_witness :
  wp env0 (run_op append0) (λ r s',
    match r with
    | Ok x => ∃ a', spec_op env0 append0 abs_empty (Ok x) a' ∧ sqlite_db_rep a' s' ∧ wf a'
    | Err x => sqlite_db_rep abs_empty s' ∧
        (has_fault env0 ∨ sqlite_limited env0 _ append0 abs_empty ∨
         spec_op env0 append0 abs_empty (Err x) abs_empty)
    end) sqlite0.
Proof. apply sqlite_refines; [done | apply sqlite_empty_rep]. Defined.

(** C26: the schema is an invariant of the SQLite store: whatever operations run,
    with whatever arguments, environments and failures, primary keys and the
    unique indexes on ids hold, every stored number and time is a non-negative
    [i64], attempt counters are [u32] and deletion flags 0 or 1. *)
Theorem sqlite_schema `{!SqliteTexts, !Json NodeId, !Json (gmap string string),
    !Json TombstoneRange, !Json PeerSyncState} calls t (s : SqliteStore) :
  schema_ok (conn s) → schema_ok (tx s) → schema_ok (conn (run_calls t calls s).2).
Proof.
  intros Hc Ht. assert (schema_store s) as Hs by by split. clear Hc Ht. revert t s Hs.
  induction calls as [|[A op e] calls IH]; intros t s Hs; [apply Hs|]. simpl.
  pose proof (sqlite_preserves op e s Hs t) as Hstep.
  destruct (run_op op e t s) as [[r t'] s']. by apply IH.
Qed.

Lemma sqlite_schema_witness :
  schema_ok (conn (run_calls 0 [mkCall _ append0 env0; mkCall _ append0 env0;
    mkCall _ (OpTombstone topic_events node_a 0 u64_max) env_faulty] sqlite0).2).
Proof. apply sqlite_schema; apply schema_empty. Defined.

(** A SQLite operation that returns an error leaves the database as it was,
    whichever engine call fails and whatever the tables hold. *)
Theorem sqlite_error_atomic `{!SqliteTexts, !Json NodeId, !Json (gmap string string),
    !Json TombstoneRange, !Json PeerSyncState} {A} (op : StoreOp A) e (s : SqliteStore) :
  wp e (run_op op) (λ r s', is_ok r = false → conn s' = conn s) s.
Proof. apply sqlite_atomic. Qed.

(** C27: numbers beyond [i64::MAX], which the wire and the other backend allow,
    are refused: reading from such a number, replicating an entry with it or
    deleting a range that begins or ends there fails, without an engine failure
    and whatever the database holds, with exactly the error
    "<number> exceeds i64", and changes nothing. *)
Theorem sqlite_exceeds_i64 `{!SqliteTexts, !Json NodeId, !Json (gmap string string),
    !Json TombstoneRange, !Json PeerSyncState} {A} (op : StoreOp A) e n (s : SqliteStore) :
  no_faults e → oversized op = Some n →
  wp e (run_op op) (λ r s',
    r = Err (InvalidArgument (fmt_u64 n +:+ " exceeds i64")) ∧ conn s' = conn s) s.
Proof. apply sqlite_exceeds. Qed.

Lemma sqlite_exceeds_i64_witness :
  wp env0 (run_op (OpTombstone topic_events node_a 1 u64_max)) (λ r s',
    r = Err (InvalidArgument (fmt_u64 u64_max +:+ " exceeds i64")) ∧ conn s' = conn sqlite0) sqlite0.
Proof. apply sqlite_exceeds_i64; [apply env0_no_faults | reflexivity]. Defined.
