(* ===== verification/Agreement.v ===== *)
(** * Agreement: two stores that meet the contract are interchangeable

    [reference_op] runs an operation on the abstract state, at one reading of
    the clock and one fresh id.  A store that discharges [StoreRefinement]
    answers as the reference does as long as nothing fails and no limit is met,
    so two such stores cannot be told apart by a client. *)

From Stdlib Require Import String NArith ZArith Lia.
From stdpp Require Import base strings list gmap.
From S2P Require Import Prelude Strings Core Json Spec SpecFacts History.

(** During a call the clock shows one time and the generator gives one id. *)
Definition frozen (e : Env) : Prop := ∀ t, clock e t = clock e 0%nat ∧ uuid e t = uuid e 0%nat.

Definition env_now (e : Env) : N := clock_ms (clock e 0%nat).
Definition env_id (e : Env) : MessageId := mkMessageId (uuid e 0%nat).

Lemma frozen_now e now : frozen e → ticks e now → now = env_now e.
Proof. intros Hf [t ->]. unfold env_now. by destruct (Hf t) as [-> _]. Qed.

Lemma frozen_id e t : frozen e → mkMessageId (uuid e t) = env_id e.
Proof. intros Hf. unfold env_id. by destruct (Hf t) as [_ ->]. Qed.

Definition ok_fst {A} (p : A * AbsStore) : Result A * AbsStore := (Ok p.1, p.2).

Section reference.
Context `{!Json TombstoneRange}.

Definition reference_op (e : Env) {A} (op : StoreOp A) (a : AbsStore) : Result A * AbsStore :=
  match op in StoreOp A return Result A * AbsStore with
  | OpAppend m => ok_fst (append_spec (env_now e) m a)
  | OpFetch q => (Ok (fetch_spec q a), a)
  | OpGetHead t o => (Ok (head_spec t o a), a)
  | OpListHeads => (Ok (heads_spec a), a)
  | OpPutReplicated m => put_replicated_spec m a
  | OpTombstone t o from to =>
      if (to <? from)%N then (Err bad_range, a)
      else ok_fst (tombstone_spec (key_of t o) from to a)
  | OpTombstoneMarker t o from to mt mo =>
      if (to <? from)%N then (Err bad_range, a)
      else ok_fst (marker_spec (env_id e) (env_now e) (env_now e) t o from to mt mo a)
  | OpEnqueue m => ok_fst (enqueue_spec (env_now e) m a)
  | OpPeek q => (Ok (head (queue_of a (queue_str q))), a)
  | OpAck q i => ok_fst (ack_spec (queue_str q) i a)
  | OpReject q i => ok_fst (reject_spec (queue_str q) i a)
  | OpRecord s => (Ok tt, set_sync (sync_id s) (record_spec s a) a)
  | OpListSync => (Ok (map_to_list (a_sync a)).*2, a)
  end.

(** Two answers to the same operation: equal, where listings that promise no
    order may be permuted. *)
Definition same_listing {A} (r1 r2 : Result (list A)) : Prop :=
  match r1, r2 with
  | Ok l1, Ok l2 => l1 ≡ₚ l2
  | Err x, Err y => x = y
  | _, _ => False
  end.

Definition same_answer {A} (op : StoreOp A) : Result A → Result A → Prop :=
  match op in StoreOp A return Result A → Result A → Prop with
  | OpListHeads => same_listing
  | OpListSync => same_listing
  | _ => eq
  end.

#[export] Instance same_listing_equivalence A : Equivalence (@same_listing A).
Proof.
  split.
  - intros [l|x]; simpl; done.
  - intros [l|x] [l'|x']; simpl; by try apply Permutation_sym.
  - intros [l|x] [l'|x'] [l''|x'']; simpl; try done; [apply Permutation_trans | congruence].
Qed.

#[export] Instance same_answer_equivalence {A} (op : StoreOp A) : Equivalence (same_answer op).
Proof. destruct op; simpl; apply _. Qed.

(** The specification leaves no choice but the time, the id and the order of
    listings. *)
Lemma spec_op_reference e {A} (op : StoreOp A) a r a' :
  frozen e → spec_op e op a r a' →
  same_answer op r (reference_op e op a).1 ∧ a' = (reference_op e op a).2.
Proof.
  intros Hf. destruct op; cbn [spec_op same_answer reference_op ok_fst fst snd]; intros Hs.
  - destruct Hs as (now & Hnow & -> & ->). by rewrite (frozen_now e now).
  - by destruct Hs as [-> ->].
  - by destruct Hs as [-> ->].
  - by destruct Hs as [-> (l & -> & Hl)].
  - by rewrite <- Hs.
  - by destruct (to <? from)%N; destruct Hs as [-> ->].
  - destruct (to <? from)%N; [by destruct Hs as [-> ->]|].
    destruct Hs as (now & now' & n & Hnow & Hnow' & -> & ->).
    by rewrite (frozen_id e n), (frozen_now e now), (frozen_now e now').
  - destruct Hs as (now & Hnow & -> & ->). by rewrite (frozen_now e now).
  - by destruct Hs as [-> ->].
  - by destruct Hs as [-> ->].
  - by destruct Hs as [-> ->].
  - by destruct Hs as [-> ->].
  - by destruct Hs as [-> (l & -> & Hl)].
Qed.
End reference.

(** ** One store against the reference *)

Section store.
Context {DB : Type} {ST : MsgbusStore DB} {JT : Json TombstoneRange} {SR : StoreRefinement DB}.

Lemma store_reference e {A} (op : StoreOp A) a db :
  op_typed op → no_faults e → frozen e → ¬ limited e A op a → rep a db →
  wp e (run_op op) (λ r db',
    same_answer op r (reference_op e op a).1 ∧ rep (reference_op e op a).2 db') db.
Proof.
  intros Hty Hnf Hfr Hlim Hrep. eapply wp_mono; [by apply store_refines|]. intros [x|x] db'.
  - intros (a' & Hs & Hrep'). by destruct (spec_op_reference e op a _ a' Hfr Hs) as [? <-].
  - intros [Hrep' [H|[H|Hs]]]; [by destruct (no_faults_has_fault e)|done|].
    by destruct (spec_op_reference e op a _ a Hfr Hs) as [? <-].
Qed.
End store.

(** ** Two stores in lock step *)

Section lockstep.
Context {DB1 DB2 : Type} {ST1 : MsgbusStore DB1} {ST2 : MsgbusStore DB2} {JT : Json TombstoneRange}.
Context {SR1 : StoreRefinement DB1} {SR2 : StoreRefinement DB2}.

(** The same calls on both stores: each pair of answers agrees with the
    reference, and at the end both stores represent its state. *)
Fixpoint agree (calls : list Call) (t1 t2 : nat) (a : AbsStore) (db1 : DB1) (db2 : DB2) : Prop :=
  match calls with
  | [] => rep a db1 ∧ rep a db2
  | c :: calls' =>
      let '(r1, t1', db1') := run_op (call_op c) (call_env c) t1 db1 in
      let '(r2, t2', db2') := run_op (call_op c) (call_env c) t2 db2 in
      let ref := reference_op (call_env c) (call_op c) a in
      same_answer (call_op c) r1 r2 ∧ same_answer (call_op c) r1 ref.1 ∧
      agree calls' t1' t2' ref.2 db1' db2'
  end.

(** No call meets a limit of either store. *)
Fixpoint within_limits (calls : list Call) (a : AbsStore) : Prop :=
  match calls with
  | [] => True
  | c :: calls' =>
      ¬ limited (DB := DB1) (call_env c) _ (call_op c) a ∧
      ¬ limited (DB := DB2) (call_env c) _ (call_op c) a ∧
      within_limits calls' (reference_op (call_env c) (call_op c) a).2
  end.

Definition call_quiet (c : Call) : Prop :=
  op_typed (call_op c) ∧ no_faults (call_env c) ∧ frozen (call_env c).

Lemma stores_agree calls t1 t2 a db1 db2 :
  Forall call_quiet calls → within_limits calls a → rep a db1 → rep a db2 →
  agree calls t1 t2 a db1 db2.
Proof.
  intros Hq. revert t1 t2 a db1 db2.
  induction Hq as [|[A op e] calls (Hty & Hnf & Hfr) _ IH]; intros t1 t2 a db1 db2; [done|].
  simpl in *. intros (Hl1 & Hl2 & Hlim) Hrep1 Hrep2.
  pose proof (store_reference e op a db1 Hty Hnf Hfr Hl1 Hrep1 t1) as H1.
  pose proof (store_reference e op a db2 Hty Hnf Hfr Hl2 Hrep2 t2) as H2.
  destruct (run_op op e t1 db1) as [[r1 t1'] db1'], (run_op op e t2 db2) as [[r2 t2'] db2'].
  destruct H1 as [Ha1 Hrep1'], H2 as [Ha2 Hrep2'].
  split; [by rewrite Ha1, Ha2|]. split; [done|]. by apply IH.
Qed.
End lockstep.
