(* ===== verification/Proto.v ===== *)
(** * Proto: wire messages and their conversions

    The request and response records of [proto/msgbus/v1/msgbus.proto] (prost
    generates the Rust structs: a sub-message is an [option], a map field a
    finite map) and the conversions of [crates/msgbus-server/src/lib.rs] between
    them and the core types. *)

From Stdlib Require Import Ascii String NArith ZArith Lia.
From stdpp Require Import base strings list gmap.
From S2P Require Import Prelude Strings Core.

(** The [tonic::Status] constructors the server uses. *)
Inductive Status : Type :=
| invalid_argument (msg : string)
| not_found (msg : string)
| failed_precondition (msg : string)
| internal (msg : string)
| permission_denied (msg : string)
| unavailable (msg : string).

#[export] Instance Status_eq_dec : EqDecision Status.
Proof. solve_decision. Defined.

Definition status_from_error (error : MsgbusError) : Status :=
  match error with
  | InvalidArgument message => invalid_argument message
  | NotFound message => not_found message
  | Conflict message => failed_precondition message
  | Storage message | Serialization message => internal message
  end.

(** ** Wire records *)

Record ProtoNodeId := mkProtoNodeId {
  p_tenant_id : string;
  p_bl_name : string;
  p_device_id : string;
}.

Record MessageEnvelope := mkEnvelope {
  me_id : string;
  me_topic : string;
  me_origin : option ProtoNodeId;
  me_head_id : N;
  me_payload : bytes;
  me_headers : gmap string string;
  me_created_at_ms : N;
  me_deleted : bool;
}.

Record PublishRequest := mkPublishRequest {
  pr_topic : string;
  pr_origin : option ProtoNodeId;
  pr_payload : bytes;
  pr_headers : gmap string string;
}.

Record FetchRequest := mkFetchRequest {
  fr_topic : string;
  fr_origin : option ProtoNodeId;
  fr_from_head_id : N;
  fr_limit : N;
}.

(** [PublishResponse], [FetchResponse] and [SubscribeResponse] all hold one
    optional envelope. *)
Record MessageResponse := mkMessageResponse { mr_message : option MessageEnvelope }.

Record SubscribeRequest := mkSubscribeRequest {
  sr_topic : string;
  sr_origin : option ProtoNodeId;
  sr_from_head_id : N;
  sr_replay_limit : N;
}.

Record GetHeadRequest := mkGetHeadRequest {
  gh_topic : string;
  gh_origin : option ProtoNodeId;
}.

Record GetHeadResponse := mkGetHeadResponse { gr_head_id : N; gr_found : bool }.

Record ProtoTopicHead := mkProtoTopicHead {
  pth_topic : string;
  pth_origin : option ProtoNodeId;
  pth_head_id : N;
}.

Record ProtoPeerSyncState := mkProtoPeerSyncState {
  pps_peer : string;
  pps_topic : string;
  pps_origin : option ProtoNodeId;
  pps_local_head : N;
  pps_remote_head : N;
  pps_last_synced_head : N;
  pps_last_attempt_at_ms : N;
  pps_last_success_at_ms : N;
  pps_consecutive_failures : N;
  pps_last_error : string;
}.

Record DeleteRangeRequest := mkDeleteRangeRequest {
  dr_topic : string;
  dr_origin : option ProtoNodeId;
  dr_from_head_id : N;
  dr_to_head_id : N;
}.

Record FifoMessage := mkFifoMessage {
  fm_id : string;
  fm_queue : string;
  fm_topic : string;
  fm_source : option ProtoNodeId;
  fm_target : option ProtoNodeId;
  fm_payload : bytes;
  fm_headers : gmap string string;
  fm_created_at_ms : N;
  fm_sequence : N;
  fm_attempts : N;
}.

Record EnqueueFifoRequest := mkEnqueueFifoRequest {
  er_queue : string;
  er_topic : string;
  er_source : option ProtoNodeId;
  er_target : option ProtoNodeId;
  er_payload : bytes;
  er_headers : gmap string string;
}.

(** [AckFifoRequest] and [RejectFifoRequest] have the same two fields. *)
Record FifoIdRequest := mkFifoIdRequest { fi_queue : string; fi_message_id : string }.

Record HealthResponse := mkHealthResponse { hr_status : string; hr_node : option ProtoNodeId }.

Record ReadyResponse := mkReadyResponse {
  rr_ready : bool;
  rr_status : string;
  rr_error : string;
  rr_node : option ProtoNodeId;
}.

(** ** Conversions *)

Abbreviation SResult := (result Status).

Definition core_node (value : ProtoNodeId) : SResult NodeId :=
  if is_empty (p_tenant_id value) && is_empty (p_bl_name value) && is_empty (p_device_id value)
  then Ok (mkNodeId "" "" "")
  else map_err status_from_error
         (NodeId.new (p_tenant_id value) (p_bl_name value) (p_device_id value)).

Definition proto_node (value : NodeId) : ProtoNodeId :=
  mkProtoNodeId (tenant_id value) (bl_name value) (device_id value).

(** A [BTreeMap] collected into a [HashMap] holds the same bindings. *)
Definition map_headers (value : gmap string string) : gmap string string := value.

Definition proto_message (value : StoredMessage) : MessageEnvelope :=
  mkEnvelope (message_id_str (sm_id value)) (topic_str (sm_topic value))
    (Some (proto_node (sm_origin value))) (sm_head_id value) (sm_payload value)
    (map_headers (sm_headers value)) (sm_created_at_ms value) (sm_deleted value).

Definition core_message (value : MessageEnvelope) : SResult StoredMessage :=
  origin ← transpose (core_node <$> me_origin value);
  origin ← ok_or (invalid_argument "message origin is required") origin;
  if (me_head_id value =? 0)%N
  then Err (invalid_argument "message head_id must be greater than zero")
  else
    id ← map_err status_from_error (MessageId_from_string (me_id value));
    topic ← map_err status_from_error (Topic_new (me_topic value));
    Ok (mkStoredMessage id topic origin (me_head_id value) (me_payload value)
          (me_headers value) (me_created_at_ms value) (me_deleted value)).

Definition proto_topic_head (value : TopicHead) : ProtoTopicHead :=
  mkProtoTopicHead (topic_str (th_topic value)) (Some (proto_node (th_origin value)))
    (th_head_id value).

Definition core_topic_head (value : ProtoTopicHead) : SResult TopicHead :=
  origin ← transpose (core_node <$> pth_origin value);
  origin ← ok_or (invalid_argument "topic head origin is required") origin;
  topic ← map_err status_from_error (Topic_new (pth_topic value));
  Ok (mkTopicHead topic origin (pth_head_id value)).

Definition proto_peer_sync_state (value : PeerSyncState) : ProtoPeerSyncState :=
  mkProtoPeerSyncState (ps_peer value) (from_option topic_str "" (ps_topic value))
    (proto_node <$> ps_origin value) (ps_local_head value) (ps_remote_head value)
    (ps_last_synced_head value) (ps_last_attempt_at_ms value) (ps_last_success_at_ms value)
    (ps_consecutive_failures value) (default "" (ps_last_error value)).

Definition proto_fifo (value : StoredFifoMessage) : FifoMessage :=
  mkFifoMessage (message_id_str (sf_id value)) (queue_str (sf_queue value))
    (topic_str (sf_topic value)) (Some (proto_node (sf_source value)))
    (Some (proto_node (sf_target value))) (sf_payload value) (map_headers (sf_headers value))
    (sf_created_at_ms value) (sf_sequence value) (sf_attempts value).

(** ** What the conversions accept *)

Definition empty_node : NodeId := mkNodeId "" "" "".

(** The identities [core_node] returns: valid ones, and the empty one. *)
Definition wire_node (n : NodeId) : Prop := n = empty_node ∨ NodeId_valid n.

Lemma valid_part_nonempty v : valid_part v → is_empty v = false.
Proof.
  intros [Hv _]. apply is_empty_false. intros ->. apply Hv. constructor.
Qed.

Lemma core_node_ok p n : core_node p = Ok n ↔ p = proto_node n ∧ wire_node n.
Proof.
  unfold core_node, wire_node, proto_node. destruct p as [a b c]. simpl. split.
  - destruct (is_empty a && is_empty b && is_empty c) eqn:He.
    + apply andb_true_iff in He as [[Ha Hb]%andb_true_iff Hc].
      apply is_empty_true in Ha, Hb, Hc. intros [= <-]. subst. by split; [|left].
    + destruct (NodeId.new a b c) as [m|] eqn:Hm; simpl; [|done].
      intros [= <-]. apply NodeId_new_ok in Hm as [-> ?]. auto.
  - intros [[= -> -> ->] [->|Hv]]; [done|]. pose proof Hv as (Ht & _ & _).
    rewrite (valid_part_nonempty _ Ht). simpl.
    destruct n as [x y z]. simpl in *.
    by rewrite (proj2 (NodeId_new_ok x y z (mkNodeId x y z))).
Qed.

Lemma map_err_ok {E F A} (f : E → F) (r : result E A) a : map_err f r = Ok a ↔ r = Ok a.
Proof. destruct r; naive_solver. Qed.

Lemma core_origin_ok x (o : option ProtoNodeId) n :
  (origin ← transpose (core_node <$> o); ok_or x origin) = Ok n ↔
  o = Some (proto_node n) ∧ wire_node n.
Proof.
  destruct o as [p|]; simpl; [|naive_solver].
  pose proof (core_node_ok p n). destruct (core_node p); cbn; naive_solver.
Qed.

(** A message that may travel: what [core_message] can return. *)
Definition wire_message (m : StoredMessage) : Prop :=
  wire_node (sm_origin m) ∧ sm_head_id m ≠ 0%N ∧ valid_part (topic_str (sm_topic m)) ∧
  valid_part (message_id_str (sm_id m)).

Lemma core_message_iff v m : core_message v = Ok m ↔ v = proto_message m ∧ wire_message m.
Proof.
  unfold core_message, wire_message. destruct v as [i tp o h pl hd ca de]. simpl.
  assert (∀ (k : NodeId → SResult StoredMessage),
    (origin ← transpose (core_node <$> o);
     origin ← ok_or (invalid_argument "message origin is required") origin; k origin)
    = ((origin ← transpose (core_node <$> o);
        ok_or (invalid_argument "message origin is required") origin) ≫= k)) as Hassoc.
  { intros k. by destruct (transpose _). }
  rewrite Hassoc, result_bind_ok. setoid_rewrite core_origin_ok. split.
  - intros (n & [-> Hn] & Hm). destruct (N.eqb_spec h 0); [done|].
    apply result_bind_ok in Hm as (id & Hid%map_err_ok & Hm).
    apply result_bind_ok in Hm as (t & Ht%map_err_ok & Hm).
    apply MessageId_from_string_ok in Hid as [? ->]. apply Topic_new_ok in Ht as [? ->].
    injection Hm as <-. split; [done|]. auto.
  - intros [Heq (Hn & Hh & Ht & Hid)]. unfold proto_message, map_headers in Heq.
    destruct m as [[i'] [t'] n' h' pl' hd' ca' de']. simpl in *.
    clear Hassoc. injection Heq as -> -> -> -> -> -> -> ->. exists n'. split; [done|]. destruct (N.eqb_spec h' 0); [done|].
    by rewrite (proj2 (MessageId_from_string_ok i' _) (conj Hid eq_refl)); cbn;
      rewrite (proj2 (Topic_new_ok t' _) (conj Ht eq_refl)).
Qed.
