(* ===== verification/Server.v ===== *)
(** * Server: the gRPC service

    Models [crates/msgbus-server/src/lib.rs]: the thirteen request handlers of
    [MsgbusGrpcService], delete markers, and the replay of delete markers at
    start-up.  The service state is the store and the sequence of messages sent
    on the broadcast channel so far; the node identity never changes and is a
    parameter.  [Subscribe] takes over where the [subscribe] handler spawns its
    task. *)

From Stdlib Require Import Ascii String NArith ZArith Lia.
From stdpp Require Import base strings list gmap.
From S2P Require Import Prelude Strings Core Json Spec History Proto.

Definition DEFAULT_REPLAY_LIMIT : N := 100.
Definition DELETE_TOPIC : string := "$msgbus.delete".

Record MsgbusGrpcService (DB : Type) := mkService {
  store : DB;
  published : list StoredMessage;
}.
Arguments mkService {DB} _ _.
Arguments store {DB} _.
Arguments published {DB} _.

(** [MsgbusGrpcService::new]: a fresh channel. *)
Definition service_new {DB} (db : DB) : MsgbusGrpcService DB := mkService db [].

(** ** Pure helpers *)

Definition ensure_application_topic (topic : Topic) : SResult unit :=
  if bool_decide (topic_str topic = DELETE_TOPIC)
  then Err (permission_denied "$msgbus.delete is reserved for delete markers")
  else Ok tt.

Definition fifo_ack_parts (request : FifoIdRequest) : SResult (QueueName * MessageId) :=
  queue ← map_err status_from_error (QueueName_new (fi_queue request));
  id ← map_err status_from_error (MessageId_from_string (fi_message_id request));
  Ok (queue, id).

Definition reject_fifo_parts (request : FifoIdRequest) : SResult (QueueName * MessageId) :=
  queue ← map_err status_from_error (QueueName_new (fi_queue request));
  id ← map_err status_from_error (MessageId_from_string (fi_message_id request));
  Ok (queue, id).

Definition request_origin (node : NodeId) (origin : option ProtoNodeId) : SResult NodeId :=
  match origin with
  | Some origin =>
      n ← core_node origin;
      if NodeId.is_empty n then Ok node else Ok n
  | None => Ok node
  end.

Definition owned_origin (node : NodeId) (origin : option ProtoNodeId) : SResult NodeId :=
  origin ← request_origin node origin;
  if bool_decide (origin = node) then Ok origin
  else Err (permission_denied "writes must use the local daemon origin").

Section server.
Context {DB : Type} {ST : MsgbusStore DB} {JT : Json TombstoneRange}.

(** [apply_control_message] on a bare store. *)
Definition apply_control_message (message : StoredMessage) : M Status DB unit :=
  if negb (bool_decide (topic_str (sm_topic message) = DELETE_TOPIC)) || sm_deleted message
  then mret tt
  else
    tombstone ← of_result (map_err (λ err, invalid_argument ("invalid tombstone payload: " +:+ err))
                             (from_slice (sm_payload message)));
    if negb (bool_decide (sm_origin message = tr_origin tombstone))
    then throw (permission_denied "delete marker origin must match tombstone origin")
    else
      map_err_m status_from_error
        (tombstone_range (tr_topic tombstone) (tr_origin tombstone)
           (tr_from_head_id tombstone) (tr_to_head_id tombstone));;
      mret tt.

(** The inner loop of [replay_control_messages] over one page: the next number
    to fetch from. *)
Definition replay_page (messages : list StoredMessage) (from_head_id : N) : M Status DB N :=
  for_each messages (λ message _,
    apply_control_message message;;
    mret (Continue (u64_saturating_add (sm_head_id message) 1))) from_head_id.

(** The [while] loop over one control log; [None] when the fuel runs out. *)
Fixpoint replay_log (fuel : nat) (head : TopicHead) (from_head_id : N)
    : M Status DB (option unit) :=
  match fuel with
  | O => mret None
  | S fuel' =>
      if (from_head_id <=? th_head_id head)%N then
        messages ← map_err_m status_from_error
          (fetch_messages (mkFetchQuery (th_topic head) (th_origin head) from_head_id 1000));
        match messages with
        | [] => mret (Some tt)
        | _ =>
            next ← replay_page messages from_head_id;
            replay_log fuel' head next
        end
      else mret (Some tt)
  end.

Fixpoint replay_logs (fuel : nat) (heads : list TopicHead) : M Status DB (option unit) :=
  match heads with
  | [] => mret (Some tt)
  | head :: heads' =>
      r ← replay_log fuel head 1;
      match r with
      | None => mret None
      | Some _ => replay_logs fuel heads'
      end
  end.

Definition replay_control_messages (fuel : nat) : M Status DB (option unit) :=
  heads ← map_err_m status_from_error list_heads;
  replay_logs fuel (filter (λ head, topic_str (th_topic head) = DELETE_TOPIC) heads).

(** ** Handlers *)

Context (node : NodeId).

Abbreviation Handler := (M Status (MsgbusGrpcService DB)).

(** [self.store.op(..).await.map_err(status_from_error)?] *)
Definition on_store {A} (m : M MsgbusError DB A) : Handler A :=
  map_err_m status_from_error (zoom store (λ db s, mkService db (published s)) m).

(** [let _ = self.published.send(message)]: a send without receivers is ignored. *)
Definition send (message : StoredMessage) : Handler unit :=
  modify (λ s, mkService (store s) (published s ++ [message])).

Definition core {A} (r : Result A) : Handler A := of_result (map_err status_from_error r).

Definition publish (request : PublishRequest) : Handler MessageResponse :=
  topic ← core (Topic_new (pr_topic request));
  of_result (ensure_application_topic topic);;
  origin ← of_result (owned_origin node (pr_origin request));
  message ← NewMessage_new topic origin (pr_payload request) (pr_headers request);
  stored ← on_store (append_message message);
  send stored;;
  mret (mkMessageResponse (Some (proto_message stored))).

Definition fetch (request : FetchRequest) : Handler (list MessageResponse) :=
  topic ← core (Topic_new (fr_topic request));
  origin ← of_result (request_origin node (fr_origin request));
  messages ← on_store (fetch_messages
    (mkFetchQuery topic origin (N.max (fr_from_head_id request) 1) (fr_limit request)));
  mret ((λ message, mkMessageResponse (Some (proto_message message))) <$> messages).

(** The handler up to the spawn: what the task starts with, and the position
    of its receiver in the channel. *)
Record SubscribeStart := mkSubscribeStart {
  ss_topic : Topic;
  ss_origin : NodeId;
  ss_from_head_id : HeadId;
  ss_replay : list StoredMessage;
  ss_live_from : nat;
}.

Definition subscribe (request : SubscribeRequest) : Handler SubscribeStart :=
  topic ← core (Topic_new (sr_topic request));
  origin ← of_result (request_origin node (sr_origin request));
  let from_head_id := N.max (sr_from_head_id request) 1 in
  let replay_limit :=
    if (sr_replay_limit request =? 0)%N then DEFAULT_REPLAY_LIMIT
    else sr_replay_limit request in
  s ← get_state;
  let live_rx := length (published s) in
  replay ← on_store (fetch_messages (mkFetchQuery topic origin from_head_id replay_limit));
  mret (mkSubscribeStart topic origin from_head_id replay live_rx).

Definition handle_get_head (request : GetHeadRequest) : Handler GetHeadResponse :=
  topic ← core (Topic_new (gh_topic request));
  origin ← of_result (request_origin node (gh_origin request));
  head ← on_store (get_head topic origin);
  mret (mkGetHeadResponse (default 0%N head) (bool_decide (is_Some head))).

Definition handle_list_heads : Handler (list ProtoTopicHead) :=
  heads ← on_store list_heads;
  mret (proto_topic_head <$> heads).

Definition handle_list_peer_sync_states : Handler (list ProtoPeerSyncState) :=
  states ← on_store list_peer_sync_states;
  mret (proto_peer_sync_state <$> states).

Definition delete_range (request : DeleteRangeRequest) : Handler N :=
  topic ← core (Topic_new (dr_topic request));
  of_result (ensure_application_topic topic);;
  origin ← of_result (owned_origin node (dr_origin request));
  delete_topic ← core (Topic_new DELETE_TOPIC);
  r ← on_store (tombstone_range_with_marker topic origin (dr_from_head_id request)
                  (dr_to_head_id request) delete_topic node);
  let '(deleted_count, control) := r in
  send control;;
  mret deleted_count.

Definition handle_enqueue_fifo (request : EnqueueFifoRequest) : Handler (option FifoMessage) :=
  queue ← core (QueueName_new (er_queue request));
  topic ← core (Topic_new (er_topic request));
  of_result (ensure_application_topic topic);;
  source ← of_result (owned_origin node (er_source request));
  target ← of_result (transpose (core_node <$> er_target request));
  target ← of_result (ok_or (invalid_argument "target is required") target);
  message ← NewFifoMessage_new queue topic source target (er_payload request) (er_headers request);
  stored ← on_store (enqueue_fifo message);
  mret (Some (proto_fifo stored)).

Definition handle_peek_fifo (request_queue : string) : Handler (option FifoMessage) :=
  queue ← core (QueueName_new request_queue);
  message ← on_store (peek_fifo queue);
  message ← of_result (ok_or (not_found "fifo queue is empty") message);
  mret (Some (proto_fifo message)).

Definition handle_ack_fifo (request : FifoIdRequest) : Handler bool :=
  parts ← of_result (fifo_ack_parts request);
  on_store (ack_fifo parts.1 parts.2).

Definition handle_reject_fifo (request : FifoIdRequest) : Handler bool :=
  parts ← of_result (reject_fifo_parts request);
  on_store (reject_fifo parts.1 parts.2).

Definition health : Handler HealthResponse :=
  mret (mkHealthResponse "SERVING" (Some (proto_node node))).

Definition ready : Handler ReadyResponse :=
  r ← try (zoom store (λ db s, mkService db (published s)) list_heads);
  mret (match r with
        | Ok _ => mkReadyResponse true "READY" "" (Some (proto_node node))
        | Err err => mkReadyResponse false "NOT_READY" (error_to_string err)
                       (Some (proto_node node))
        end).
End server.
