(* ===== verification/ServerProps.v ===== *)
(** * ServerProps: what the gRPC service guarantees over any store

    Everything here is proved against [StoreRefinement], so it holds for every
    backend that discharges the contract.  First the effect of a request on the
    abstract store and the channel (only the node's own logs change, the control
    log holds only valid delete markers), then the replay of delete markers at
    start-up. *)

From Stdlib Require Import Ascii String NArith ZArith Lia.
From stdpp Require Import base strings list gmap.
From S2P Require Import Prelude Strings Core Json Spec History Proto Server.

(** ** Requests *)

Inductive Request : Type :=
| RPublish (r : PublishRequest)
| RFetch (r : FetchRequest)
| RSubscribe (r : SubscribeRequest)
| RGetHead (r : GetHeadRequest)
| RListHeads
| RListPeerSyncStates
| RDeleteRange (r : DeleteRangeRequest)
| REnqueueFifo (r : EnqueueFifoRequest)
| RPeekFifo (queue : string)
| RAckFifo (r : FifoIdRequest)
| RRejectFifo (r : FifoIdRequest)
| RHealth
| RReady.

(** The numeric fields are in their wire range. *)
Definition request_typed (r : Request) : Prop :=
  match r with
  | RFetch r => is_u64 (fr_from_head_id r) ∧ is_u32 (fr_limit r)
  | RSubscribe r => is_u64 (sr_from_head_id r) ∧ is_u32 (sr_replay_limit r)
  | RDeleteRange r => is_u64 (dr_from_head_id r) ∧ is_u64 (dr_to_head_id r)
  | _ => True
  end.

Section handle.
Context {DB : Type} {ST : MsgbusStore DB}.

(** The service answers a request; here only its effect matters. *)
Definition handle (node : NodeId) (r : Request) : M Status (MsgbusGrpcService DB) unit :=
  match r with
  | RPublish r => publish node r;; mret tt
  | RFetch r => fetch node r;; mret tt
  | RSubscribe r => subscribe node r;; mret tt
  | RGetHead r => handle_get_head node r;; mret tt
  | RListHeads => handle_list_heads;; mret tt
  | RListPeerSyncStates => handle_list_peer_sync_states;; mret tt
  | RDeleteRange r => delete_range node r;; mret tt
  | REnqueueFifo r => handle_enqueue_fifo node r;; mret tt
  | RPeekFifo q => handle_peek_fifo q;; mret tt
  | RAckFifo r => handle_ack_fifo r;; mret tt
  | RRejectFifo r => handle_reject_fifo r;; mret tt
  | RHealth => health node;; mret tt
  | RReady => ready node;; mret tt
  end.

Fixpoint serve_all (node : NodeId) (t : nat) (rs : list (Env * Request))
    (s : MsgbusGrpcService DB) : nat * MsgbusGrpcService DB :=
  match rs with
  | [] => (t, s)
  | (e, r) :: rs' => let '(_, t', s') := handle node r e t s in serve_all node t' rs' s'
  end.
End handle.

Lemma elem_of_log_put h m l x : x ∈ log_put h m l → x = m ∨ x ∈ l.
Proof.
  unfold log_put. intros [Hx|[->|Hx]%elem_of_cons]%elem_of_app; [right| |right].
  - by eapply elem_of_take in Hx as (i & Hi & _); apply list_elem_of_lookup_2 in Hi.
  - by left.
  - by apply list_elem_of_lookup in Hx as (i & Hi); rewrite lookup_drop in Hi;
      apply list_elem_of_lookup_2 in Hi.
Qed.

(** ** Delete markers *)

Section markers.
Context {JT : Json TombstoneRange}.

(** A control entry that start-up can apply: a decodable range, in order, of
    its own origin, that does not delete markers. *)
Definition marker_ok (m : StoredMessage) : Prop :=
  ∃ tr, from_slice (sm_payload m) = Ok tr ∧ sm_origin m = tr_origin tr ∧
        (tr_from_head_id tr ≤ tr_to_head_id tr)%N ∧ topic_str (tr_topic tr) ≠ DELETE_TOPIC ∧
        is_u64 (tr_from_head_id tr) ∧ is_u64 (tr_to_head_id tr).

Definition control_ok (node : NodeId) (a : AbsStore) : Prop :=
  ∀ m, m ∈ log_of a (DELETE_TOPIC, NodeId.key node) → marker_ok m.

(** The numbers a payload decodes to are in range, as the fields are [u64]. *)
Definition marker_typed (m : StoredMessage) : Prop :=
  ∀ tr, from_slice (sm_payload m) = Ok tr → is_u64 (tr_from_head_id tr) ∧ is_u64 (tr_to_head_id tr).

Definition markers_typed (a : AbsStore) : Prop :=
  ∀ o m, m ∈ log_of a (DELETE_TOPIC, o) → marker_typed m.

Lemma marker_ok_typed m : marker_ok m → marker_typed m.
Proof.
  intros (tr & Htr & _ & _ & _ & ? & ?) tr' Htr'.
  assert (tr' = tr) as -> by congruence. done.
Qed.

Lemma mark_typed a m : marker_typed m → marker_typed (mark a m).
Proof. intros H. unfold mark. case_match; exact H. Qed.

Lemma log_put_typed k h m a :
  (k.1 = DELETE_TOPIC → marker_typed m) → markers_typed a →
  markers_typed (set_log k (log_put h (mark a m) (log_of a k)) a).
Proof.
  intros Hm Ha o x. rewrite log_of_set_log. case_decide as Hk; [subst k|apply Ha].
  intros [->|Hx]%elem_of_log_put; [by apply mark_typed, Hm | by apply (Ha o)].
Qed.

Lemma tombstone_typed k from to a : markers_typed a → markers_typed (tombstone_spec k from to a).2.
Proof.
  intros Ha o m. unfold tombstone_spec. cbn [snd]. rewrite log_of_set_tombs, log_of_set_log.
  case_decide as Hk; [subst k|apply Ha]. intros (m0 & -> & Hm0)%list_elem_of_fmap.
  unfold mark_range. case_match; exact (Ha o m0 Hm0).
Qed.
End markers.

(** What a request of a client may do to the store of node [node]. *)
Record local_step `{!Json TombstoneRange} (node : NodeId) (a a' : AbsStore) : Prop := {
  (** logs and tombstones of other origins are untouched *)
  ls_foreign : ∀ k, k.2 ≠ NodeId.key node → log_of a' k = log_of a k ∧ tombs_of a' k = tombs_of a k;
  (** markers stay valid *)
  ls_control : control_ok node a → control_ok node a';
  (** the control log is never under a tombstone it was not under before *)
  ls_control_tombs : tombs_of a' (DELETE_TOPIC, NodeId.key node)
                     = tombs_of a (DELETE_TOPIC, NodeId.key node);
  (** sync states are untouched *)
  ls_sync : a_sync a' = a_sync a;
  (** new markers carry numbers in range *)
  ls_typed : markers_typed a → markers_typed a';
}.

Lemma log_put_elem h m l : m ∈ log_put h m l.
Proof. unfold log_put. apply elem_of_app. right. left. Qed.

Lemma owned_origin_ok node o n : owned_origin node o = Ok n → n = node.
Proof.
  unfold owned_origin. intros (n' & _ & H)%result_bind_ok. case_bool_decide; congruence.
Qed.

Lemma ensure_application_topic_ok t : ensure_application_topic t = Ok tt → topic_str t ≠ DELETE_TOPIC.
Proof. unfold ensure_application_topic. by case_bool_decide. Qed.

Section local_steps.
Context {JT : Json TombstoneRange} {JTL : JsonLaws TombstoneRange}.
Context (node : NodeId).

#[export] Instance local_step_preorder : PreOrder (local_step node).
Proof.
  split; [by split|]. intros a1 a2 a3 [F1 C1 T1 S1 Y1] [F2 C2 T2 S2 Y2]. split; [|auto|congruence|congruence|auto].
  intros k Hk. destruct (F1 k Hk), (F2 k Hk). split; congruence.
Qed.

Lemma local_step_queue q n l a : local_step node a (set_queue q n l a).
Proof. by split. Qed.

Lemma append_local_step now m a :
  nm_origin m = node →
  (topic_str (nm_topic m) = DELETE_TOPIC → ∀ h c d, marker_ok (mkStoredMessage (nm_id m) (nm_topic m)
     (nm_origin m) h (nm_payload m) (nm_headers m) c d)) →
  local_step node a (append_spec now m a).2.
Proof.
  intros Ho Hm. unfold append_spec. cbn [snd]. split; [| |done|done|].
  - intros k Hk. rewrite log_of_set_log, tombs_of_set_log. rewrite decide_False; [done|].
    intros <-. apply Hk. simpl. by rewrite Ho.
  - intros Hc x. rewrite log_of_set_log. case_decide as Hk; [|apply Hc].
    intros [->|Hx]%elem_of_log_put; [|by apply Hc; rewrite <- Hk].
    injection Hk as Ht _. unfold mark. case_match; by apply Hm.
  - apply log_put_typed. intros Ht. by apply marker_ok_typed, Hm.
Qed.

Lemma tombstone_local_step t from to a :
  topic_str t ≠ DELETE_TOPIC → local_step node a (tombstone_spec (key_of t node) from to a).2.
Proof.
  intros Ht. split; [| | |done|apply tombstone_typed]; unfold tombstone_spec; cbn [snd].
  - intros k Hk. rewrite log_of_set_tombs, tombs_of_set_tombs, log_of_set_log.
    rewrite !decide_False; [done|intros <-; by apply Hk..].
  - intros Hc x. rewrite log_of_set_tombs, log_of_set_log, decide_False; [apply Hc|].
    intros [= ?]; done.
  - rewrite tombs_of_set_tombs, decide_False; [done|]. by intros [= ?].
Qed.

Lemma marker_local_step id now now' t from to dt a :
  topic_str t ≠ DELETE_TOPIC → (from ≤ to)%N → is_u64 from → is_u64 to →
  local_step node a (marker_spec id now now' t node from to dt node a).2.
Proof.
  intros Ht Hft Hf Hto. unfold marker_spec. cbn [snd].
  etrans; [by apply (tombstone_local_step t from to)|]. apply append_local_step; [done|].
  intros _ h c d. exists (mkTombstoneRange t node from to now). simpl.
  split; [|done]. pose proof (decode_enc_of (mkTombstoneRange t node from to now)) as Hd.
  unfold decode in Hd. by apply map_err_ok in Hd.
Qed.
End local_steps.

Lemma marker_grow `{!Json TombstoneRange} id now now' t o from to dt dn a k :
  wf a → is_u64 from → is_u64 to →
  (log_head (log_of (marker_spec id now now' t o from to dt dn a).2 k) ≤ log_head (log_of a k) + 1)%N.
Proof.
  intros Hwf Hf Hto. unfold marker_spec. cbn [snd].
  etrans; [by apply append_grow, tombstone_wf|]. rewrite tombstone_head. lia.
Qed.

(** ** One request *)

Section requests.
Context {DB : Type} {ST : MsgbusStore DB} {JT : Json TombstoneRange}
        {JTL : JsonLaws TombstoneRange} {SR : StoreRefinement DB}.
Context (node : NodeId) (e : Env).

Implicit Types (a : AbsStore) (s : MsgbusGrpcService DB).

(** The effect of a request: a local step of the store, and on the channel
    only messages that are in the store; an error has no effect. *)
Definition served {A} a s (r : SResult A) s' : Prop :=
  ∃ a' new, rep a' (store s') ∧ local_step node a a' ∧
    published s' = published s ++ new ∧ Forall (λ m, m ∈ log_of a' (msg_key m)) new ∧
    (is_ok r = false → a' = a ∧ new = []) ∧ kept a a' ∧
    ∀ k, (log_head (log_of a' k) ≤ log_head (log_of a k) + 1)%N.

Lemma served_quiet {A} a s s' (r : SResult A) :
  rep a (store s') → published s' = published s → served a s r s'.
Proof.
  intros Hr Hp. exists a, []. rewrite app_nil_r. do 6 (split; [done|]). intros k. lia.
Qed.

Lemma wp_core {A} (r : Result A) (Q : SResult A → MsgbusGrpcService DB → Prop) s :
  (∀ x, r = Ok x → Q (Ok x) s) → (∀ x, r = Err x → Q (Err (status_from_error x)) s) →
  wp e (core r) Q s.
Proof. intros Hok Herr. apply wp_of_result. destruct r; simpl; auto. Qed.

(** A store call inside a handler. *)
Lemma wp_on_store {A} (op : StoreOp A) (Q : SResult A → MsgbusGrpcService DB → Prop) a s :
  op_typed op → rep a (store s) →
  (∀ x a' db', spec_op e op a (Ok x) a' → rep a' db' → Q (Ok x) (mkService db' (published s))) →
  (∀ x db', rep a db' → has_fault e ∨ limited e A op a ∨ spec_op e op a (Err x) a →
     Q (Err (status_from_error x)) (mkService db' (published s))) →
  wp e (on_store (run_op op)) Q s.
Proof.
  intros Hty Hrep Hok Herr. unfold on_store. apply wp_map_err, wp_zoom.
  eapply wp_mono; [by apply (store_refines A op e a)|].
  intros [x|x] db'; simpl.
  - intros (a' & ? & ?). eauto.
  - intros [? ?]. eauto.
Qed.

(** A handler that only reads: [k] after one reading store call. *)
Lemma wp_on_store_read {A B} (op : StoreOp A) (k : A → M Status (MsgbusGrpcService DB) B) a s :
  (∀ x a', spec_op e op a (Ok x) a' → a' = a) →
  op_typed op → rep a (store s) →
  (∀ x db', spec_op e op a (Ok x) a → rep a db' →
     wp e (k x) (served a s) (mkService db' (published s))) →
  wp e (on_store (run_op op) ≫= k) (served a s) s.
Proof.
  intros Hread Hty Hrep Hk. apply wp_bind, (wp_on_store op _ a); [done|done| |].
  - intros x a' db' Hs Hrep'. pose proof (Hread _ _ Hs) as ->. by apply Hk.
  - intros x db' Hrep' _. by apply served_quiet.
Qed.

Lemma publish_served r a s :
  rep a (store s) → wp e (publish node r) (served a s) s.
Proof.
  intros Hrep. unfold publish.
  apply wp_bind, wp_core; [intros topic Ht | intros; by apply served_quiet].
  apply wp_bind, wp_of_result. destruct (ensure_application_topic topic) as [[]|] eqn:Happ;
    [|by apply served_quiet]. apply ensure_application_topic_ok in Happ.
  apply wp_bind, wp_of_result. destruct (owned_origin node (pr_origin r)) as [o|] eqn:Ho;
    [|by apply served_quiet]. apply owned_origin_ok in Ho as ->.
  unfold NewMessage_new, MessageId_new. wp_run.
  apply (wp_on_store (OpAppend _) _ a); [done|done| |intros; by apply served_quiet].
  intros x a' db' (now & _ & [= ->] & ->) Hrep'. wp_run.
  eexists _, [_]. split; [exact Hrep'|]. split; [by apply append_local_step|].
  split; [done|]. split; [|split; [done|]; split; [apply append_kept|intros k; apply append_grow]; by eapply rep_wf].
  constructor; [|done]. unfold append_spec. cbn [fst snd].
  rewrite mark_key, log_of_set_log, decide_True by done. apply log_put_elem.
Qed.

Lemma delete_range_served r a s :
  is_u64 (dr_from_head_id r) → is_u64 (dr_to_head_id r) →
  rep a (store s) → wp e (delete_range node r) (served a s) s.
Proof.
  intros Hf Hto Hrep. unfold delete_range.
  apply wp_bind, wp_core; [intros topic Ht | intros; by apply served_quiet].
  apply wp_bind, wp_of_result. destruct (ensure_application_topic topic) as [[]|] eqn:Happ;
    [|by apply served_quiet]. apply ensure_application_topic_ok in Happ.
  apply wp_bind, wp_of_result. destruct (owned_origin node (dr_origin r)) as [o|] eqn:Ho;
    [|by apply served_quiet]. apply owned_origin_ok in Ho as ->.
  apply wp_bind, wp_core; [intros dt _ | intros; by apply served_quiet].
  apply wp_bind, (wp_on_store (OpTombstoneMarker _ _ _ _ _ _) _ a);
    [done|done| |intros; by apply served_quiet].
  intros x a' db' Hs Hrep'.
  assert (kept a a') as Hkept by (eapply spec_op_kept; [|by eapply rep_wf|exact Hs]; done).
  cbn [spec_op] in Hs. destruct (N.ltb_spec (dr_to_head_id r) (dr_from_head_id r)); [by destruct Hs|].
  destruct Hs as (now & now' & n & _ & _ & [= ->] & ->).
  wp_run.
  eexists _, [_]. split; [exact Hrep'|]. split; [by apply marker_local_step|].
  split; [done|]. split; [|split; [done|]; split; [done|]; intros k; by apply marker_grow; [eapply rep_wf|..]].
  constructor; [|done]. unfold marker_spec, append_spec.
  cbn [fst snd]. rewrite mark_key, log_of_set_log, decide_True by done. apply log_put_elem.
Qed.

(** The remaining handlers read, or touch queues only. *)
Lemma enqueue_served r a s :
  rep a (store s) → wp e (handle_enqueue_fifo node r) (served a s) s.
Proof.
  intros Hrep. unfold handle_enqueue_fifo.
  apply wp_bind, wp_core; [intros queue _ | intros; by apply served_quiet].
  apply wp_bind, wp_core; [intros topic _ | intros; by apply served_quiet].
  apply wp_bind, wp_of_result. destruct (ensure_application_topic topic); [|by apply served_quiet].
  apply wp_bind, wp_of_result. destruct (owned_origin node _); [|by apply served_quiet].
  apply wp_bind, wp_of_result. destruct (transpose _); [|by apply served_quiet].
  apply wp_bind, wp_of_result. destruct (ok_or _ _); [|by apply served_quiet].
  unfold NewFifoMessage_new, MessageId_new. wp_run.
  apply (wp_on_store (OpEnqueue _) _ a); [done|done| |intros; by apply served_quiet].
  intros x a' db' (now & _ & [= ->] & ->) Hrep'. wp_run.
  eexists _, []. rewrite app_nil_r. split; [exact Hrep'|].
  split; [apply local_step_queue|]. do 3 (split; [done|]).
  split; [by apply store_le_kept|]. intros k. apply queue_grow.
Qed.

Lemma fifo_front_served (op : StoreOp bool) a s :
  op_typed op → (∀ x a', spec_op e op a (Ok x) a' → local_step node a a') →
  rep a (store s) → wp e (on_store (run_op op)) (served a s) s.
Proof.
  intros Hty Hstep Hrep. apply (wp_on_store op _ a); [done|done| |intros; by apply served_quiet].
  intros x a' db' Hs Hrep'. exists a', []. rewrite app_nil_r. split; [done|].
  split; [by eapply Hstep|]. do 3 (split; [done|]).
  split; [eapply spec_op_kept; [done|by eapply rep_wf|done]|]. intros k.
  eapply spec_op_grow; [done|by eapply rep_wf|done].
Qed.

Lemma ack_step q i a : local_step node a (ack_spec q i a).2.
Proof.
  unfold ack_spec. destruct (queue_of a q); [done|].
  case_bool_decide; [apply local_step_queue | done].
Qed.

Lemma reject_step q i a : local_step node a (reject_spec q i a).2.
Proof.
  unfold reject_spec. destruct (queue_of a q); [done|].
  case_bool_decide; [apply local_step_queue | done].
Qed.

Lemma ack_served r a s : rep a (store s) → wp e (handle_ack_fifo r) (served a s) s.
Proof.
  intros Hrep. unfold handle_ack_fifo. apply wp_bind, wp_of_result.
  destruct (fifo_ack_parts r) as [[q i]|]; [|by apply served_quiet].
  apply (fifo_front_served (OpAck q i)); [done| |done]. intros x a' [_ ->]. apply ack_step.
Qed.

Lemma reject_served r a s : rep a (store s) → wp e (handle_reject_fifo r) (served a s) s.
Proof.
  intros Hrep. unfold handle_reject_fifo. apply wp_bind, wp_of_result.
  destruct (reject_fifo_parts r) as [[q i]|]; [|by apply served_quiet].
  apply (fifo_front_served (OpReject q i)); [done| |done]. intros x a' [_ ->]. apply reject_step.
Qed.

Lemma max_1_u64 n : is_u64 n → is_u64 (N.max n 1).
Proof. unfold is_u64, u64_max. lia. Qed.

Lemma fetch_served r a s :
  is_u64 (fr_from_head_id r) → is_u32 (fr_limit r) → rep a (store s) →
  wp e (fetch node r) (served a s) s.
Proof.
  intros Hf Hl Hrep. unfold fetch.
  apply wp_bind, wp_core; [intros topic _ | intros; by apply served_quiet].
  apply wp_bind, wp_of_result. destruct (request_origin _ _); [|by apply served_quiet].
  apply (wp_on_store_read (OpFetch _) _ a); [by intros x a' [_ ->]| |done|].
  - by split; [apply max_1_u64|].
  - intros x db' _ Hrep'. apply wp_ret. by apply served_quiet.
Qed.

Lemma subscribe_served r a s :
  is_u64 (sr_from_head_id r) → is_u32 (sr_replay_limit r) → rep a (store s) →
  wp e (subscribe node r) (served a s) s.
Proof.
  intros Hf Hl Hrep. unfold subscribe.
  apply wp_bind, wp_core; [intros topic _ | intros; by apply served_quiet].
  apply wp_bind, wp_of_result. destruct (request_origin _ _); [|by apply served_quiet].
  apply wp_bind, wp_get_state.
  apply (wp_on_store_read (OpFetch _) _ a); [by intros x a' [_ ->]| |done|].
  - split; [by apply max_1_u64|]. simpl. by case_match.
  - intros x db' _ Hrep'. apply wp_ret. by apply served_quiet.
Qed.

Lemma get_head_served r a s : rep a (store s) → wp e (handle_get_head node r) (served a s) s.
Proof.
  intros Hrep. unfold handle_get_head.
  apply wp_bind, wp_core; [intros topic _ | intros; by apply served_quiet].
  apply wp_bind, wp_of_result. destruct (request_origin _ _) as [o|]; [|by apply served_quiet].
  apply (wp_on_store_read (OpGetHead topic o) _ a); [by intros x a' [_ ->]|done|done|].
  intros x db' _ Hrep'. apply wp_ret. by apply served_quiet.
Qed.

Lemma peek_served q a s : rep a (store s) → wp e (handle_peek_fifo q) (served a s) s.
Proof.
  intros Hrep. unfold handle_peek_fifo.
  apply wp_bind, wp_core; [intros queue _ | intros; by apply served_quiet].
  apply (wp_on_store_read (OpPeek queue) _ a); [by intros x a' [_ ->]|done|done|].
  intros x db' _ Hrep'. apply wp_bind, wp_of_result.
  destruct x; [apply wp_ret|]; by apply served_quiet.
Qed.

Lemma ready_served a s : rep a (store s) → wp e (ready node) (served a s) s.
Proof.
  intros Hrep. unfold ready. apply wp_bind, wp_try, wp_zoom.
  eapply wp_mono; [by apply (store_refines _ OpListHeads e a)|].
  intros [x|x] db'; simpl; [intros (a' & [-> _] & Hrep')|intros [Hrep' _]];
    apply wp_ret; by apply served_quiet.
Qed.

Lemma served_discard {A} (m : M Status (MsgbusGrpcService DB) A) a s :
  wp e m (served a s) s → wp e (m;; mret tt) (served a s) s.
Proof.
  intros Hm. apply wp_bind. eapply wp_mono; [exact Hm|].
  intros [x|x] s' Hs; [|done]. apply wp_ret. exact Hs.
Qed.

Lemma handle_served r a s :
  request_typed r → rep a (store s) → wp e (handle node r) (served a s) s.
Proof.
  intros Hty Hrep. destruct r; apply served_discard; simpl in Hty.
  - by apply publish_served.
  - destruct Hty. by apply fetch_served.
  - destruct Hty. by apply subscribe_served.
  - by apply get_head_served.
  - apply (wp_on_store_read OpListHeads _ a); [by intros x a' [-> _]|done|done|].
    intros x db' _ Hrep'. apply wp_ret. by apply served_quiet.
  - apply (wp_on_store_read OpListSync _ a); [by intros x a' [-> _]|done|done|].
    intros x db' _ Hrep'. apply wp_ret. by apply served_quiet.
  - destruct Hty. by apply delete_range_served.
  - by apply enqueue_served.
  - by apply peek_served.
  - by apply ack_served.
  - by apply reject_served.
  - apply wp_ret. by apply served_quiet.
  - by apply ready_served.
Qed.
End requests.
