(* ===== verification/Replay.v ===== *)
(** * Replay: delete markers at start-up

    [replay_control_messages] walks every control log page by page and applies
    each marker.  Over any store that meets the contract it terminates, and
    afterwards every marker's range is a tombstone of the store; a marker that
    cannot be applied makes it fail. *)

From Stdlib Require Import Ascii String NArith ZArith Lia.
From stdpp Require Import base strings list gmap.
From S2P Require Import Prelude Strings Core Json Spec History Proto Server ServerProps.

(** ** Pages of a log *)

(** Entries numbered from [n + 1] on: those from [from] on are a suffix. *)
Lemma filter_from_drop (l : list StoredMessage) (n : nat) (from : N) :
  (∀ i m, l !! i = Some m → sm_head_id m = N.of_nat (n + S i)) →
  filter (λ m, (from ≤ sm_head_id m)%N) l = drop (N.to_nat from - S n) l.
Proof.
  revert n. induction l as [|m l IH]; intros n Hl; [by rewrite drop_nil|].
  pose proof (Hl 0%nat m eq_refl) as Hm.
  assert (filter (λ m, (from ≤ sm_head_id m)%N) l = drop (N.to_nat from - S (S n)) l) as IH'.
  { apply IH. intros i x Hi. rewrite (Hl (S i) x Hi). lia. }
  rewrite filter_cons, IH'. case_decide as Hle.
  - replace (N.to_nat from - S (S n))%nat with 0%nat by lia.
    by replace (N.to_nat from - S n)%nat with 0%nat by lia.
  - by replace (N.to_nat from - S n)%nat with (S (N.to_nat from - S (S n))) by lia.
Qed.

Lemma fetch_spec_page q a :
  wf a → fetch_spec q a =
    take (page_limit (fq_limit q))
      (drop (N.to_nat (fq_from_head_id q) - 1) (log_of a (key_of (fq_topic q) (fq_origin q)))).
Proof.
  intros Hwf. unfold fetch_spec. f_equal. apply (filter_from_drop _ 0). intros i m Hm.
  by apply (wf_entry _ Hwf) in Hm as [-> _].
Qed.

Lemma page_limit_pos n : (0 < page_limit n)%nat.
Proof. unfold page_limit. destruct (N.eqb_spec n 0); lia. Qed.

(** The page from an existing entry on: non-empty, inside the log, and its last
    entry says where the next page starts. *)
Lemma page_bounds a k from lim :
  let l := log_of a k in
  let page := take (page_limit lim) (drop (N.to_nat from - 1) l) in
  wf a → (1 ≤ from ≤ log_head l)%N →
  page ≠ [] ∧ (from + N.of_nat (length page) ≤ log_head l + 1)%N ∧
  ∃ m, last page = Some m ∧ (sm_head_id m + 1 = from + N.of_nat (length page))%N.
Proof.
  intros l page Hwf [H1 Hle]. assert (0 < length page ≤ length l - (N.to_nat from - 1))%nat as Hlen.
  { unfold page. rewrite length_take, length_drop. pose proof (page_limit_pos lim).
    unfold log_head in Hle. lia. }
  split; [by intros Hnil; rewrite Hnil in Hlen; simpl in Hlen; lia|].
  split; [unfold log_head in *; lia|]. destruct (last page) as [m|] eqn:Hlast.
  2: { apply last_None in Hlast. rewrite Hlast in Hlen. simpl in Hlen. lia. }
  exists m. split; [done|]. rewrite last_lookup in Hlast. unfold page in Hlast at 2.
  apply lookup_take_Some in Hlast as [Hlast _]. rewrite lookup_drop in Hlast.
  apply (wf_entry _ Hwf) in Hlast as [-> _]. lia.
Qed.

Lemma page_split (lim : N) (rest : list StoredMessage) :
  let page := take (page_limit lim) rest in rest = page ++ drop (length page) rest.
Proof.
  intros page. unfold page.
  by rewrite <- (take_length_take (page_limit lim) rest) at 1; rewrite take_drop.
Qed.

Lemma elem_of_page (lim n : nat) (l : list StoredMessage) m : m ∈ take lim (drop n l) → m ∈ l.
Proof.
  intros (i & Hi & _)%elem_of_take. rewrite lookup_drop in Hi. by eapply list_elem_of_lookup_2.
Qed.

Section replay.
Context {DB : Type} {ST : MsgbusStore DB} {JT : Json TombstoneRange} {SR : StoreRefinement DB}.
Context (e : Env).

Implicit Types (a : AbsStore) (db : DB).

(** Replay leaves the control logs alone and only deletes in the rest. *)
Definition control_same a a' : Prop :=
  (store_le a a' ∧ ∀ k, length (log_of a' k) = length (log_of a k)) ∧
  ∀ o, log_of a' (DELETE_TOPIC, o) = log_of a (DELETE_TOPIC, o).

#[export] Instance control_same_preorder : PreOrder control_same.
Proof.
  split; [done|]. intros a1 a2 a3 [[L1 N1] C1] [[L2 N2] C2]. split; [|intros o; by rewrite C2].
  split; [by etrans | intros k; by rewrite N2].
Qed.

(** The range of a marker is a tombstone of the log it names. *)
Definition applied a (m : StoredMessage) : Prop :=
  sm_deleted m = false → marker_ok m ∧ ∀ tr, from_slice (sm_payload m) = Ok tr →
  (tr_from_head_id tr, tr_to_head_id tr) ∈ tombs_of a (key_of (tr_topic tr) (tr_origin tr)).

(** An entry of a control log.  Decoded numbers are in range, as the field
    types are [u64], and a marker does not name the control topic. *)
Definition control_message (m : StoredMessage) : Prop :=
  topic_str (sm_topic m) = DELETE_TOPIC ∧
  (sm_deleted m = false → ∀ tr, from_slice (sm_payload m) = Ok tr →
     topic_str (tr_topic tr) ≠ DELETE_TOPIC ∧
     is_u64 (tr_from_head_id tr) ∧ is_u64 (tr_to_head_id tr)).

(** The store calls start-up makes in a state: the heads, pages of control logs,
    and the deletions the live markers ask for. *)
Inductive replay_call a : ∀ A, StoreOp A → Prop :=
| ReplayHeads : replay_call a _ OpListHeads
| ReplayPage t o from lim :
    topic_str t = DELETE_TOPIC → (1 ≤ from ≤ log_head (log_of a (key_of t o)))%N →
    replay_call a _ (OpFetch (mkFetchQuery t o from lim))
| ReplayDelete o m tr :
    m ∈ log_of a (DELETE_TOPIC, o) → sm_deleted m = false → from_slice (sm_payload m) = Ok tr →
    replay_call a _ (OpTombstone (tr_topic tr) (tr_origin tr) (tr_from_head_id tr) (tr_to_head_id tr)).

(** Why such a call may fail other than by the specification. *)
Definition excuse a : Prop :=
  has_fault e ∨ ∃ A (op : StoreOp A) a', control_same a a' ∧ replay_call a' A op ∧ limited e A op a'.

Lemma excuse_mono a a' : control_same a a' → excuse a' → excuse a.
Proof.
  intros Hs [?|(A & op & a1 & Hs1 & Hcall & Hl)]; [by left|right].
  exists A, op, a1. split; [by etrans|done].
Qed.

(** So every entry found later was there before, up to its deletion flag. *)
Lemma control_same_entry a a' k m' :
  control_same a a' → m' ∈ log_of a' k →
  ∃ m, m ∈ log_of a k ∧ set_deleted true m = set_deleted true m'.
Proof.
  intros [[Hle Hlen] _] (i & Hi)%list_elem_of_lookup. pose proof (lookup_lt_Some _ _ _ Hi) as Hlt.
  rewrite Hlen in Hlt. apply lookup_lt_is_Some in Hlt as [m Hm]. exists m.
  split; [by eapply list_elem_of_lookup_2|]. destruct (proj1 (Hle k) i m Hm) as (m1 & Hm1 & [He _]).
  congruence.
Qed.

(** A live entry start-up cannot apply. *)
Definition bad_marker (m : StoredMessage) : Prop := sm_deleted m = false ∧ ¬ marker_ok m.

Lemma applied_mono a a' m : control_same a a' → applied a m → applied a' m.
Proof.
  intros [[Hle _] _] Ha Hd. destruct (Ha Hd) as [? Htr]. split; [done|].
  intros tr Hs. apply Hle. by apply Htr.
Qed.

Lemma tombstone_length k from to a k' :
  length (log_of (tombstone_spec k from to a).2 k') = length (log_of a k').
Proof. pose proof (tombstone_head k from to a k') as H. unfold log_head in H. lia. Qed.

Lemma tombstone_control t o from to a :
  topic_str t ≠ DELETE_TOPIC → control_same a (tombstone_spec (key_of t o) from to a).2.
Proof.
  intros Ht. split; [split; [apply tombstone_le|intros k; apply tombstone_length]|]. intros o'. unfold tombstone_spec. cbn [snd].
  rewrite log_of_set_tombs, log_of_set_log, decide_False; [done|]. by intros [= ?].
Qed.

Lemma apply_control_ok m a db :
  rep a db → control_message m → m ∈ log_of a (msg_key m) →
  wp e (apply_control_message m) (λ r db', match r with
    | Ok _ => ∃ a', rep a' db' ∧ control_same a a' ∧ applied a' m
    | Err _ => excuse a ∨ bad_marker m
    end) db.
Proof.
  intros Hrep [Htopic Hm] Hin. unfold apply_control_message. rewrite bool_decide_true by done. simpl.
  destruct (sm_deleted m) eqn:Hd; simpl.
  { apply wp_ret. exists a. split; [done|]. split; [done|]. unfold applied. by rewrite Hd. }
  unfold bad_marker, marker_ok.
  destruct (from_slice (sm_payload m)) as [tr|x] eqn:Htr; apply wp_bind, wp_of_result; simpl;
    [|right; split; [done|]; by intros (? & ? & _)].
  destruct (Hm eq_refl tr eq_refl) as (Ht & Hu1 & Hu2).
  case_bool_decide as Ho; simpl;
    [|apply wp_throw; right; split; [done|]; by intros (tr' & [= <-] & ? & _)].
  apply wp_bind, wp_map_err.
  eapply wp_mono; [by apply (store_refines _ (OpTombstone (tr_topic tr) (tr_origin tr)
    (tr_from_head_id tr) (tr_to_head_id tr)) e a)|].
  cbn [spec_op]. destruct (N.ltb_spec (tr_to_head_id tr) (tr_from_head_id tr)) as [Hlt|Hle].
  - intros [x|x] db'; simpl; [by intros (? & [? _] & _)|]. intros _. right. split; [done|].
    intros (tr' & [= <-] & _ & Hle & _). lia.
  - intros [x|x] db'; [|simpl; intros [_ [?|[?|[? _]]]]; [by left; left| |done]].
    2: { left. right. do 3 eexists. split; [done|]. split; [|done]. eapply ReplayDelete; [|done..].
         rewrite <- Htopic. exact Hin. }
    intros (a' & [_ ->] & Hrep'). apply wp_ret. eexists. split; [done|].
    split; [by apply tombstone_control|]. intros _. split; [by exists tr|].
    intros tr' [= <-]%(eq_trans (eq_sym Htr)).
    unfold tombstone_spec. cbn [snd]. rewrite tombs_of_set_tombs, decide_True by done. set_solver.
Qed.

Lemma replay_page_ok ms from a db :
  rep a db → Forall control_message ms → (∀ m, m ∈ ms → m ∈ log_of a (msg_key m)) →
  wp e (replay_page ms from) (λ r db', match r with
    | Ok next => ∃ a', rep a' db' ∧ control_same a a' ∧ Forall (applied a') ms ∧
        next = from_option (λ m, u64_saturating_add (sm_head_id m) 1) from (last ms)
    | Err _ => excuse a ∨ Exists bad_marker ms
    end) db.
Proof.
  intros Hrep Hms Hlog. unfold replay_page.
  apply (wp_for_each e _ _ _ (λ l next db', ∃ a' dn, rep a' db' ∧ control_same a a' ∧
           ms = dn ++ l ∧ Forall (applied a') dn ∧
           next = from_option (λ m, u64_saturating_add (sm_head_id m) 1) from (last dn))).
  - exists a, []. by repeat split.
  - intros m l next db' (a' & dn & Hrep' & Hsame & Heq & Happ & ->).
    assert (m ∈ ms) as Hin by (rewrite Heq; set_solver).
    apply wp_bind. eapply wp_mono; [apply (apply_control_ok m a' _ Hrep')|].
    { rewrite Forall_forall in Hms. by apply Hms. }
    { rewrite Forall_forall in Hms. destruct (Hms m Hin) as [Htm _]. specialize (Hlog m Hin).
      unfold msg_key, key_of in *. rewrite Htm in *. by destruct Hsame as [_ ->]. }
    intros [[]|x] db''; [|intros [?|?]; [left; by eapply excuse_mono | right; apply Exists_exists; eauto]]. intros (a'' & Hrep'' & Hsame'' & Hm'').
    apply wp_ret. exists a'', (dn ++ [m]). split; [done|]. split; [by etrans|].
    split; [by rewrite <- app_assoc|]. split; [|by rewrite last_snoc].
    apply Forall_app. split; [|by constructor]. eapply Forall_impl; [exact Happ|].
    intros y Hy. by eapply applied_mono.
  - intros next db' (a' & dn & Hrep' & Hsame & -> & Happ & ->). rewrite app_nil_r in *.
    by exists a'.
Qed.

(** One control log: every entry from [from] on is applied; fuel above the
    number of entries left is enough. *)
Lemma replay_log_ok fuel head from a db :
  let l := log_of a (key_of (th_topic head) (th_origin head)) in
  rep a db → topic_str (th_topic head) = DELETE_TOPIC → Forall control_message l →
  th_head_id head = log_head l → (log_head l < u64_max)%N →
  (1 ≤ from ≤ log_head l + 1)%N → (length l + 1 < fuel + N.to_nat from)%nat →
  wp e (replay_log fuel head from) (λ r db', match r with
    | Ok o => o = Some tt ∧ ∃ a', rep a' db' ∧ control_same a a' ∧
                Forall (applied a') (drop (N.to_nat from - 1) l)
    | Err _ => excuse a ∨ Exists bad_marker l
    end) db.
Proof.
  revert from a db. induction fuel as [|fuel IH]; intros from a db l Hrep Ht Hl Hh Hmax Hfrom Hfuel.
  { unfold log_head in Hfrom. lia. }
  cbn [replay_log]. rewrite Hh. destruct (N.leb_spec from (log_head l)) as [Hle|Hgt].
  2: { apply wp_ret. split; [done|]. exists a. split; [done|]. split; [done|].
       rewrite drop_ge; [constructor|]. unfold log_head in Hgt. lia. }
  apply wp_bind, wp_map_err.
  eapply wp_mono; [apply (store_refines _ (OpFetch (mkFetchQuery (th_topic head)
    (th_origin head) from 1000)) e a)|]; [split; unfold is_u64; simpl; [lia|done]|done|].
  intros [page|x] db'; cbn [spec_op];
    [|simpl; intros [_ [?|[?|[? _]]]]; [by left; left| |done]].
  2: { left. right. do 3 eexists. split; [done|]. split; [|done]. apply ReplayPage; [done|]. fold l. lia. }
  intros (a0 & [[= ->] ->] & Hrep'). simpl.
  rewrite fetch_spec_page by (by eapply rep_wf). cbn [fq_topic fq_origin fq_from_head_id fq_limit].
  fold l. set (rest := drop (N.to_nat from - 1) l). set (page := take _ rest).
  destruct (page_bounds a (key_of (th_topic head) (th_origin head)) from 1000)
    as (Hne & Hnext & m & Hlast & Hmh); [by eapply rep_wf|fold l; lia|].
  fold l rest page in Hne, Hnext, Hlast, Hmh.
  replace (match page with [] => _ | _ => _ end) with
    (next ← replay_page page from; replay_log fuel head next) by (by destruct page).
  apply wp_bind. eapply wp_mono; [apply (replay_page_ok page from a db' Hrep')|].
  { apply Forall_take, Forall_drop, Hl. }
  { intros y Hy. assert (y ∈ l) as Hyl by (by eapply elem_of_page).
    apply list_elem_of_lookup in Hyl as (i & Hi). pose proof Hi as Hk.
    apply (wf_entry _ (rep_wf _ _ Hrep)) in Hk as [_ ->]. by eapply list_elem_of_lookup_2. }
  intros [next|x] db''.
  2: { intros [?|Hbad]; [by left|right]. apply Exists_exists in Hbad as (y & Hy & ?).
       apply Exists_exists. exists y. split; [by eapply elem_of_page|done]. }
  intros (a1 & Hrep1 & Hsame1 & Happ1 & ->). rewrite Hlast. simpl.
  assert (length page ≠ 0)%nat by (by destruct page).
  rewrite u64_saturating_succ, Hmh by lia.
  assert (log_of a1 (key_of (th_topic head) (th_origin head)) = l) as Hl1.
  { unfold key_of. rewrite Ht. destruct Hsame1 as [_ ->]. unfold l, key_of. by rewrite Ht. }
  eapply wp_mono; [apply IH; rewrite ?Hl1; done || lia|]. rewrite Hl1.
  intros [o|x] db3; [|intros [?|?]; [left; by eapply excuse_mono|by right]]. intros (-> & a2 & Hrep2 & Hsame2 & Happ2). split; [done|].
  exists a2. split; [done|]. split; [by etrans|].
  assert (drop (length page) rest = drop (N.to_nat (from + N.of_nat (length page)) - 1) l) as Hdrop.
  { unfold rest at 1. rewrite drop_drop. f_equal. lia. }
  rewrite (page_split 1000 rest : rest = page ++ drop (length page) rest), Hdrop.
  apply Forall_app. split; [|done]. eapply Forall_impl; [exact Happ1|].
  intros y Hy. by eapply applied_mono.
Qed.

Lemma replay_logs_ok fuel heads a db :
  rep a db →
  Forall (λ head, let l := log_of a (key_of (th_topic head) (th_origin head)) in
    topic_str (th_topic head) = DELETE_TOPIC ∧ Forall control_message l ∧
    th_head_id head = log_head l ∧ (log_head l < u64_max)%N ∧ (length l < fuel)%nat) heads →
  wp e (replay_logs fuel heads) (λ r db', match r with
    | Ok o => o = Some tt ∧ ∃ a', rep a' db' ∧ control_same a a' ∧
        Forall (λ head, Forall (applied a') (log_of a (key_of (th_topic head) (th_origin head)))) heads
    | Err _ => excuse a ∨ ∃ head, head ∈ heads ∧
        Exists bad_marker (log_of a (key_of (th_topic head) (th_origin head)))
    end) db.
Proof.
  revert a db. induction heads as [|head heads IH]; intros a db Hrep Hheads; simpl.
  { apply wp_ret. split; [done|]. exists a. by repeat split. }
  apply Forall_cons_1 in Hheads as [(Ht & Hl & Hh & Hmax & Hfuel) Hheads].
  apply wp_bind. eapply wp_mono; [apply (replay_log_ok fuel head 1 a); [done..|lia|simpl; lia]|].
  intros [o|x] db'; [|intros [?|?]; [by left | right; exists head; split; [left|done]]].
  intros (-> & a1 & Hrep1 & Hsame1 & Happ1). simpl in Happ1.
  eapply wp_mono; [apply (IH a1 db' Hrep1)|].
  { eapply Forall_impl; [exact Hheads|]. intros h. unfold key_of. intros (-> & Hrest).
    destruct Hsame1 as [_ ->]. done. }
  intros [o|x] db''.
  2: { intros [?|(h & Hin & Hbad)]; [left; by eapply excuse_mono|right]. exists h. split; [by right|].
       rewrite Forall_forall in Hheads. specialize (Hheads h Hin) as (Hth & _).
       unfold key_of in *. rewrite Hth in *. destruct Hsame1 as [_ Hc]. by rewrite Hc in Hbad. }
  intros (-> & a2 & Hrep2 & Hsame2 & Happ2). split; [done|].
  exists a2. split; [done|]. split; [by etrans|]. constructor.
  - eapply Forall_impl; [exact Happ1|]. intros y Hy. by eapply applied_mono.
  - apply Forall_forall. intros h Hin. rewrite Forall_forall in Happ2, Hheads.
    specialize (Happ2 h Hin). specialize (Hheads h Hin) as (Hth & _).
    unfold key_of in *. rewrite Hth in *. destruct Hsame1 as [_ Hc]. by rewrite Hc in Happ2.
Qed.

Lemma heads_spec_elem a h :
  wf a → h ∈ heads_spec a →
  ∃ k m, last (log_of a k) = Some m ∧ m ∈ log_of a k ∧ key_of (th_topic h) (th_origin h) = k ∧
    th_head_id h = log_head (log_of a k).
Proof.
  intros Hwf. unfold heads_spec. rewrite list_elem_of_omap. intros ([k l] & Hin & Hh).
  apply elem_of_map_to_list in Hin. simpl in Hh.
  destruct (last l) as [m|] eqn:Hlast; [|done]. simpl in Hh. injection Hh as <-.
  assert (log_of a k = l) as Hlk by (unfold log_of; by rewrite Hin).
  pose proof Hlast as Hi. rewrite last_lookup in Hi. rewrite <- Hlk in Hi.
  exists k, m. rewrite Hlk. split; [done|]. split; [rewrite <- Hlk; by eapply list_elem_of_lookup_2|].
  simpl. by destruct (wf_entry _ Hwf _ _ _ Hi) as [_ <-].
Qed.

Lemma heads_spec_complete a k :
  wf a → log_of a k ≠ [] → ∃ h, h ∈ heads_spec a ∧ key_of (th_topic h) (th_origin h) = k.
Proof.
  intros Hwf Hne. destruct (last (log_of a k)) as [m|] eqn:Hlast; [|by apply last_None in Hlast].
  pose proof Hlast as Hi. rewrite last_lookup in Hi. apply (wf_entry _ Hwf) in Hi as [_ Hk].
  exists (mkTopicHead (sm_topic m) (sm_origin m) (log_head (log_of a k))). split; [|done].
  unfold heads_spec. rewrite list_elem_of_omap. exists (k, log_of a k). simpl.
  rewrite Hlast. simpl. split; [|done]. apply elem_of_map_to_list.
  unfold log_of in *. by destruct (a_logs a !! k).
Qed.

(** ** Safety of the replay

    Whatever the control logs hold and whatever fails, start-up loses nothing. *)

Definition replay_kept a db : Prop := ∃ a', rep a' db ∧ store_le a a' ∧ markers_typed a'.

Lemma apply_control_kept m a db :
  replay_kept a db → marker_typed m → wp e (apply_control_message m) (λ _, replay_kept a) db.
Proof.
  intros (a1 & Hrep & Hle & Hty) Hm. unfold apply_control_message.
  assert (∀ db', rep a1 db' → replay_kept a db') as Hdone by (intros db' ?; by exists a1).
  destruct (_ || _); [by apply wp_ret, Hdone|]. apply wp_bind, wp_of_result.
  destruct (from_slice (sm_payload m)) as [tr|x] eqn:Htr; simpl; [|by apply Hdone].
  destruct (Hm tr Htr). case_bool_decide; simpl; [|by apply wp_throw, Hdone].
  apply wp_bind, wp_map_err. eapply wp_mono; [by apply (store_refines _ (OpTombstone (tr_topic tr)
    (tr_origin tr) (tr_from_head_id tr) (tr_to_head_id tr)) e a1)|].
  intros [x|x] db'; cbn [spec_op]; [|intros [? _]; by apply Hdone].
  intros (a2 & Hs & Hrep2). apply wp_ret. exists a2. split; [done|].
  destruct (_ <? _)%N; destruct Hs as [_ ->]; [done|].
  split; [etrans; [exact Hle|apply tombstone_le] | by apply tombstone_typed].
Qed.

Lemma replay_page_kept ms from a db :
  replay_kept a db → (∀ m, m ∈ ms → marker_typed m) → is_u64 from →
  wp e (replay_page ms from) (λ r db', replay_kept a db' ∧ ∀ next, r = Ok next → is_u64 next) db.
Proof.
  intros Ha Hms Hu. unfold replay_page.
  apply (wp_for_each e _ _ _ (λ l next db', replay_kept a db' ∧ is_u64 next ∧
           ∀ m, m ∈ l → marker_typed m)).
  - done.
  - intros m l next db' (Ha' & _ & Hl). apply wp_bind.
    eapply wp_mono; [apply (apply_control_kept m a); [done|apply Hl; left]|].
    intros [[]|x] db'' Ha''; [|done]. apply wp_ret. split; [done|].
    split; [apply u64_saturating_add_bound|]. intros y Hy. apply Hl. by right.
  - intros next db' (? & ? & _). split; [done|]. by intros n [= <-].
Qed.

Lemma replay_log_kept fuel head from a db :
  replay_kept a db → topic_str (th_topic head) = DELETE_TOPIC → is_u64 from →
  wp e (replay_log fuel head from) (λ _, replay_kept a) db.
Proof.
  intros Ha Ht. revert from db Ha. induction fuel as [|fuel IH]; intros from db Ha Hu; cbn [replay_log].
  { by apply wp_ret. }
  destruct (_ <=? _)%N; [|by apply wp_ret]. destruct Ha as (a1 & Hrep & Hle & Hty).
  apply wp_bind, wp_map_err. eapply wp_mono; [by apply (store_refines _ (OpFetch (mkFetchQuery
    (th_topic head) (th_origin head) from 1000)) e a1)|].
  intros [page|x] db'; [|intros [? _]; by exists a1]. intros (a2 & [[= ->] ->] & Hrep2). simpl.
  assert (replay_kept a db') as Ha' by (by exists a1).
  set (page := fetch_spec _ a1). assert (∀ m, m ∈ page → marker_typed m) as Hpage.
  { intros m (i & Hi & _)%elem_of_take. apply list_elem_of_lookup_2, list_elem_of_filter in Hi as [_ Hi].
    unfold key_of in Hi. cbn [fq_topic fq_origin] in Hi. rewrite Ht in Hi. by apply (Hty _ m Hi). }
  destruct page as [|m ms]; [by apply wp_ret|]. apply wp_bind.
  eapply wp_mono; [by apply (replay_page_kept (m :: ms) from a)|].
  intros [next|x] db'' [Ha'' Hnext]; [|done]. by apply IH; [|apply Hnext].
Qed.

Lemma replay_control_kept fuel a db :
  rep a db → markers_typed a → wp e (replay_control_messages fuel) (λ _, replay_kept a) db.
Proof.
  intros Hrep Hty. unfold replay_control_messages. apply wp_bind, wp_map_err.
  eapply wp_mono; [by apply (store_refines _ OpListHeads e a)|].
  intros [heads|x] db'; [|intros [? _]; by exists a]. intros (a0 & [-> _] & Hrep'). simpl.
  assert (Forall (λ h, topic_str (th_topic h) = DELETE_TOPIC)
    (filter (λ h, topic_str (th_topic h) = DELETE_TOPIC) heads)) as Hh.
  { apply Forall_forall. by intros h [? _]%list_elem_of_filter. }
  assert (replay_kept a db') as Ha by (by exists a). clear Hrep'.
  revert db' Ha. induction Hh as [|h hs Ht _ IH]; intros db1 Ha; cbn [replay_logs]; [by apply wp_ret|].
  apply wp_bind. eapply wp_mono; [by apply (replay_log_kept fuel h 1 a)|].
  intros [[[]|]|x] db2 Ha2; [by apply IH|by apply wp_ret|done].
Qed.
End replay.
