(* ===== verification/ServerClaims.v ===== *)
(** * ServerClaims: the properties of the gRPC service

    Stated for any store that discharges the contract, with witnesses that run
    the service over the redb backend. *)

From Stdlib Require Import Ascii String NArith ZArith Lia.
From stdpp Require Import base strings list gmap.
From S2P Require Import Prelude Strings Core Table RedbKeys Json Concrete Spec History RedbStore RedbRep RedbRefine Redb Proto Server ServerProps Replay.

(** ** Who may write *)

(** The origins a write may carry: none, the empty one, or the node's own. *)
Definition own_origin (node : NodeId) (o : option ProtoNodeId) : Prop :=
  o = None ∨ o = Some (proto_node empty_node) ∨ o = Some (proto_node node).

Lemma is_empty_node n : NodeId.is_empty n = true ↔ n = empty_node.
Proof.
  unfold NodeId.is_empty, empty_node. rewrite !andb_true_iff, !is_empty_true.
  destruct n; simpl. naive_solver.
Qed.

Lemma owned_origin_iff node o :
  NodeId_valid node → owned_origin node o = Ok node ↔ own_origin node o.
Proof.
  intros Hv. unfold owned_origin, request_origin, own_origin.
  destruct o as [p|]; [|cbn; rewrite bool_decide_true by done; naive_solver].
  assert (node ≠ empty_node) as Hne.
  { intros ->. destruct Hv as (Ht & _). by apply valid_part_nonempty in Ht. }
  rewrite result_bind_ok. split.
  - intros (n & (n0 & [-> Hw]%core_node_ok & Hn)%result_bind_ok & Ho). right.
    destruct (NodeId.is_empty n0) eqn:He; [left; by apply is_empty_node in He as ->|right].
    injection Hn as ->. case_bool_decide; [by subst | done].
  - intros [H|[[= ->]|[= ->]]]; [done|exists node..]; (split; [|by rewrite bool_decide_true]).
    + done.
    + apply result_bind_ok. exists node. split; [apply core_node_ok; by split; [|right]|].
      destruct (NodeId.is_empty node) eqn:He; [by apply is_empty_node in He | done].
Qed.

(** The requests [publish] accepts. *)
Definition publishable (node : NodeId) (r : PublishRequest) : Prop :=
  valid_part (pr_topic r) ∧ pr_topic r ≠ DELETE_TOPIC ∧ own_origin node (pr_origin r).

Definition is_refusal (x : Status) : Prop :=
  match x with invalid_argument _ | permission_denied _ => True | _ => False end.

Lemma validate_part_refusal name v x :
  validate_part name v = Err x → is_refusal (status_from_error x).
Proof. by intros [[_ ->]|(_ & _ & ->)]%validate_part_err. Qed.

Lemma newtype_refusal {A} (f : string → A) name v x :
  (validate_part name v;; Ok (f v) : Result A) = Err x → is_refusal (status_from_error x).
Proof.
  destruct (validate_part name v) as [[]|y] eqn:Hv; [done|]. cbn. intros [= ->].
  by eapply validate_part_refusal.
Qed.

Lemma NodeId_new_refusal a b c y :
  NodeId.new a b c = Err y → is_refusal (status_from_error y).
Proof.
  unfold NodeId.new, NodeId.validate. simpl.
  destruct (validate_part "tenant_id" a) as [[]|z] eqn:Ha; cbn;
    [|intros [= ->]; by eapply validate_part_refusal].
  destruct (validate_part "bl_name" b) as [[]|z] eqn:Hb; cbn;
    [|intros [= ->]; by eapply validate_part_refusal].
  destruct (validate_part "device_id" c) as [[]|z] eqn:Hc; cbn;
    [done|intros [= ->]; by eapply validate_part_refusal].
Qed.

Lemma core_node_refusal p x : core_node p = Err x → is_refusal x.
Proof.
  unfold core_node. destruct (_ && _); [done|].
  destruct (NodeId.new _ _ _) as [n|y] eqn:Hn; cbn; [done|]. intros [= <-].
  by eapply NodeId_new_refusal.
Qed.

Lemma owned_origin_refusal node o x : owned_origin node o = Err x → is_refusal x.
Proof.
  unfold owned_origin. destruct (request_origin node o) as [n|y] eqn:Hr; cbn.
  - destruct (bool_decide (n = node)); [done|]. by intros [= <-].
  - intros [= ->]. unfold request_origin in Hr. destruct o as [p|]; [|done].
    destruct (core_node p) as [n|y] eqn:Hc; cbn in Hr.
    + by destruct (NodeId.is_empty n).
    + injection Hr as ->. by eapply core_node_refusal.
Qed.

(** C17: [publish] accepts exactly the requests with a valid topic other than the
    control topic and with no origin, the empty one or the node's own; it then
    stores the message as the next entry of the node's log of that topic, sends
    exactly that message on the channel and answers with it.  Any other request
    is refused as an invalid argument or as not permitted, and nothing changes.
    When the store fails, neither the stored logs nor the channel change. *)
Theorem publish_correct {DB} `{SR : StoreRefinement DB} `{!JsonLaws TombstoneRange}
    node e r a (s : MsgbusGrpcService DB) :
  NodeId_valid node → rep a (store s) →
  wp e (publish node r) (λ res s',
    let new n := mkNewMessage (mkMessageId (uuid e n)) (mkTopic (pr_topic r)) node
                   (pr_payload r) (pr_headers r) in
    match res with
    | Ok resp => publishable node r ∧ ∃ n now stored,
        let m := new n in
        ticks e now ∧ stored = (append_spec now m a).1 ∧ rep (append_spec now m a).2 (store s') ∧
        published s' = published s ++ [stored] ∧
        resp = mkMessageResponse (Some (proto_message stored))
    | Err x => rep a (store s') ∧ published s' = published s ∧
        ((¬ publishable node r ∧ is_refusal x ∧ s' = s) ∨
         (publishable node r ∧ (has_fault e ∨ ∃ n, limited e _ (OpAppend (new n)) a)))
    end) s.
Proof.
  intros Hnode Hrep. unfold publish.
  apply wp_bind, wp_core.
  2: { intros x Hx. split; [done|]. split; [done|]. left. split; [|split; [|done]].
       - intros (Hv & _). by rewrite (proj2 (Topic_new_ok _ _) (conj Hv eq_refl)) in Hx.
       - by eapply newtype_refusal in Hx. }
  intros topic [Hv ->]%Topic_new_ok. apply wp_bind, wp_of_result. unfold ensure_application_topic.
  case_bool_decide as Hd; simpl in Hd.
  { split; [done|]. split; [done|]. left. by split; [intros (_ & ? & _)|]. }
  apply wp_bind, wp_of_result. destruct (owned_origin node (pr_origin r)) as [o|x] eqn:Ho.
  2: { split; [done|]. split; [done|]. left.
       split; [intros (_ & _ & ?%owned_origin_iff); congruence|]. split; [|done].
       by eapply owned_origin_refusal. }
  pose proof (owned_origin_ok _ _ _ Ho) as ->.
  assert (publishable node r) as Hpub by (by split; [|split; [|apply owned_origin_iff]]).
  unfold NewMessage_new. apply wp_bind, wp_bind, wp_MessageId_new. intros n. apply wp_ret, wp_bind.
  apply (wp_on_store e (OpAppend _) _ a); [done|done| |].
  - intros x a' db' (now & Hnow & [= ->] & ->) Hrep'. wp_run. split; [done|].
    eexists n, now, _. split; [done|]. split; [|split; [exact Hrep'|by split]]. reflexivity.
  - intros x db' Hrep' Hex. split; [done|]. split; [done|]. right. split; [done|].
    destruct Hex as [?|[?|(? & _ & ? & _)]]; [by left | right; eauto | done].
Qed.

Definition service0 : MsgbusGrpcService (RedbStore GTable) := service_new empty_db.
Definition publish0 : PublishRequest := mkPublishRequest "events" None [Byte.x01] ∅.

Lemma node_a_valid : NodeId_valid node_a.
Proof. apply validate_ok. reflexivity. Qed.

Lemma publish_correct_witness :
  wp env0 (publish node_a publish0) (λ res s',
    let new n := mkNewMessage (mkMessageId (uuid env0 n)) topic_events node_a [Byte.x01] ∅ in
    match res with
    | Ok resp => publishable node_a publish0 ∧ ∃ n now stored,
        let m := new n in
        ticks env0 now ∧ stored = (append_spec now m abs_empty).1 ∧ rep (append_spec now m abs_empty).2 (store s') ∧
        published s' = [] ++ [stored] ∧
        resp = mkMessageResponse (Some (proto_message stored))
    | Err x => rep abs_empty (store s') ∧ published s' = [] ∧
        ((¬ publishable node_a publish0 ∧ is_refusal x ∧ s' = service0) ∨
         (publishable node_a publish0 ∧ (has_fault env0 ∨ ∃ n, limited env0 _ (OpAppend (new n)) abs_empty)))
    end) service0.
Proof.
  apply (publish_correct (SR := redb_refinement) node_a env0 publish0 abs_empty service0).
  - apply node_a_valid.
  - apply empty_rep.
Defined.

(** The deletions [delete_range] accepts. *)
Record deletable (node : NodeId) (r : DeleteRangeRequest) : Prop := {
  dl_topic : valid_part (dr_topic r);
  dl_application : dr_topic r ≠ DELETE_TOPIC;
  dl_origin : own_origin node (dr_origin r);
  dl_range : (dr_from_head_id r ≤ dr_to_head_id r)%N;
  dl_u64 : is_u64 (dr_to_head_id r);
}.

(** Such a deletion is done, and its marker announced. *)
Lemma delete_range_ok {DB} `{SR : StoreRefinement DB} node e r a (s : MsgbusGrpcService DB)
    (Q : SResult N → MsgbusGrpcService DB → Prop) :
  let t := mkTopic (dr_topic r) in
  let op := OpTombstoneMarker t node (dr_from_head_id r) (dr_to_head_id r) (mkTopic DELETE_TOPIC) node in
  no_faults e → NodeId_valid node → deletable node r → rep a (store s) → ¬ limited e _ op a →
  (∀ n now now' db', ticks e now → ticks e now' →
     let p := marker_spec (mkMessageId (uuid e n)) now now' t node (dr_from_head_id r) (dr_to_head_id r)
                (mkTopic DELETE_TOPIC) node a in
     rep p.2 db' → Q (Ok p.1.1) (mkService db' (published s ++ [p.1.2]))) →
  wp e (delete_range node r) Q s.
Proof.
  intros t op Hnf Hnode [Hv Happ Ho Hft Hu] Hrep Hlim HQ. unfold delete_range.
  rewrite (proj2 (Topic_new_ok _ t) (conj Hv eq_refl)). apply wp_bind, wp_of_result. cbn [map_err].
  apply wp_bind, wp_of_result. unfold ensure_application_topic. rewrite bool_decide_false by done.
  apply wp_bind, wp_of_result. rewrite (proj2 (owned_origin_iff _ _ Hnode) Ho).
  apply wp_bind, wp_of_result.
  replace (Topic_new DELETE_TOPIC) with (Ok (mkTopic DELETE_TOPIC) : Result Topic) by (by vm_compute).
  cbn [map_err]. apply wp_bind, (wp_on_store e op _ a); [unfold op, is_u64 in *; cbn [op_typed]; unfold is_u64; lia|done| |].
  - intros x a' db' Hs Hrep'. cbn [spec_op op] in Hs. rewrite (proj2 (N.ltb_ge _ _)) in Hs by done.
    destruct Hs as (now & now' & n & Hn & Hn' & [= ->] & ->). specialize (HQ n now now' db' Hn Hn' Hrep').
    apply wp_bind. unfold send. apply wp_modify, wp_ret. exact HQ.
  - intros x db' _ [Hf|[Hl|Hs]]; [by destruct (no_faults_has_fault e)|done|].
    cbn [spec_op op] in Hs. rewrite (proj2 (N.ltb_ge _ _)) in Hs by done.
    by destruct Hs as (? & ? & ? & _ & _ & ? & _).
Qed.

Lemma from_slice_enc `{JTL : JsonLaws TombstoneRange} (tr : TombstoneRange) : from_slice (enc_of tr) = Ok tr.
Proof.
  pose proof (decode_enc_of tr) as H. unfold decode in H. destruct (from_slice (enc_of tr)); [|done].
  by injection H as ->.
Qed.

(** The marker a deletion appends to the control log, which no tombstone covers. *)
Lemma marker_entry `{JTL : JsonLaws TombstoneRange} id now now' t node from to a :
  let k := key_of (mkTopic DELETE_TOPIC) node in
  let p := marker_spec id now now' t node from to (mkTopic DELETE_TOPIC) node a in
  let c := mkStoredMessage id (mkTopic DELETE_TOPIC) node (log_head (log_of a k) + 1)
             (enc_of (mkTombstoneRange t node from to now)) ∅ now' false in
  topic_str t ≠ DELETE_TOPIC → (log_head (log_of a k) < u64_max)%N →
  (∀ h, covered (tombs_of a k) h = false) →
  p.1.2 = c ∧ log_of p.2 k = log_of a k ++ [c].
Proof.
  intros k p c Ht Hmax Hcov. unfold p, marker_spec, append_spec, marker_message. cbn [fst snd nm_topic
    nm_origin nm_id nm_payload nm_headers]. fold k. rewrite tombstone_head, u64_saturating_succ by done.
  fold c. assert (mark (tombstone_spec (key_of t node) from to a).2 c = c) as ->.
  { unfold mark. change (msg_key c) with k. unfold tombstone_spec. cbn [snd].
    rewrite tombs_of_set_tombs, decide_False; [|intros [= ?]; congruence].
    change (tombs_of (set_log _ _ a) k) with (tombs_of a k). by rewrite Hcov. }
  split; [done|]. rewrite log_of_set_log, decide_True by done.
  assert (log_of (tombstone_spec (key_of t node) from to a).2 k = log_of a k) as ->.
  { unfold tombstone_spec. cbn [snd]. rewrite log_of_set_tombs, log_of_set_log, decide_False; [done|].
    intros [= ?]; congruence. }
  apply log_put_snoc.
Qed.

(** ** Any sequence of requests *)

Lemma serve_all_local {DB} `{SR : StoreRefinement DB} `{!JsonLaws TombstoneRange}
    node rs t a (s : MsgbusGrpcService DB) :
  Forall (λ er : Env * Request, request_typed er.2) rs → rep a (store s) →
  let s' := (serve_all node t rs s).2 in
  ∃ a', rep a' (store s') ∧ local_step node a a' ∧ published s `prefix_of` published s' ∧
    ∀ k, (log_head (log_of a' k) ≤ log_head (log_of a k) + N.of_nat (length rs))%N.
Proof.
  intros Hrs. revert t a s. induction Hrs as [|[e r] rs Hr _ IH]; intros t a s Hrep; simpl.
  { exists a. split; [done|]. split; [done|]. split; [done|]. intros k. lia. }
  pose proof (handle_served node e r a s Hr Hrep t) as Hs.
  destruct (handle node r e t s) as [[res t'] s1].
  destruct Hs as (a1 & new & Hrep1 & Hstep1 & Hpub1 & _ & _ & _ & Hg1).
  destruct (IH t' a1 s1 Hrep1) as (a2 & Hrep2 & Hstep2 & Hpub2 & Hg2).
  exists a2. split; [done|]. split; [by etrans|]. split.
  - etrans; [|exact Hpub2]. rewrite Hpub1. by apply prefix_app_r.
  - intros k. specialize (Hg1 k). specialize (Hg2 k). lia.
Qed.

(** C18: whatever sequence of requests clients send, in any environments and with
    any store failures, the service only ever changes logs and tombstones of its
    own origin, never a sync state, keeps every entry of its control log a valid
    delete marker and never puts the control log under a tombstone; messages
    already sent on the channel stay a prefix of the channel. *)
Theorem requests_stay_local {DB} `{SR : StoreRefinement DB} `{!JsonLaws TombstoneRange}
    node rs t a (s : MsgbusGrpcService DB) :
  Forall (λ er : Env * Request, request_typed er.2) rs → rep a (store s) →
  let s' := (serve_all node t rs s).2 in
  ∃ a', rep a' (store s') ∧ wf a' ∧ published s `prefix_of` published s' ∧
    (∀ k, k.2 ≠ NodeId.key node → log_of a' k = log_of a k ∧ tombs_of a' k = tombs_of a k) ∧
    (control_ok node a → control_ok node a') ∧
    tombs_of a' (DELETE_TOPIC, NodeId.key node) = tombs_of a (DELETE_TOPIC, NodeId.key node) ∧
    a_sync a' = a_sync a.
Proof.
  intros Hrs Hrep. destruct (serve_all_local node rs t a s Hrs Hrep) as (a' & Hrep' & Hs & Hp & _).
  exists a'. split; [done|]. split; [by eapply rep_wf|]. split; [done|]. by destruct Hs.
Qed.

Definition delete0 : DeleteRangeRequest := mkDeleteRangeRequest "events" None 1 5.
Definition requests0 : list (Env * Request) :=
  [(env0, RPublish publish0); (env_faulty, RPublish publish0); (env0, RDeleteRange delete0)].

Lemma requests0_typed : Forall (λ er : Env * Request, request_typed er.2) requests0.
Proof. by repeat constructor. Qed.

Lemma requests_stay_local_witness :
  let s' := (serve_all node_a 0 requests0 service0).2 in
  ∃ a', rep (StoreRefinement := redb_refinement) a' (store s') ∧ wf a' ∧
    published service0 `prefix_of` published s' ∧
    (∀ k, k.2 ≠ NodeId.key node_a → log_of a' k = log_of abs_empty k ∧
       tombs_of a' k = tombs_of abs_empty k) ∧
    (control_ok node_a abs_empty → control_ok node_a a') ∧
    tombs_of a' (DELETE_TOPIC, NodeId.key node_a) = tombs_of abs_empty (DELETE_TOPIC, NodeId.key node_a) ∧
    a_sync a' = a_sync abs_empty.
Proof.
  apply (requests_stay_local (SR := redb_refinement) node_a requests0 0 abs_empty service0).
  - apply requests0_typed.
  - apply empty_rep.
Defined.

(** ** Start-up *)

Lemma replay_outcome {DB} `{SR : StoreRefinement DB} e fuel a (db : DB) :
  rep a db →
  (∀ o, Forall control_message (log_of a (DELETE_TOPIC, o)) ∧
        (log_head (log_of a (DELETE_TOPIC, o)) < u64_max)%N ∧
        (length (log_of a (DELETE_TOPIC, o)) < fuel)%nat) →
  wp e (replay_control_messages fuel) (λ r db', match r with
    | Ok o => o = Some tt ∧ ∃ a', rep a' db' ∧ control_same a a' ∧
        ∀ o m, m ∈ log_of a (DELETE_TOPIC, o) → applied a' m
    | Err _ => excuse e a ∨ ∃ o, Exists bad_marker (log_of a (DELETE_TOPIC, o))
    end) db.
Proof.
  intros Hrep Hctl. unfold replay_control_messages. apply wp_bind, wp_map_err.
  eapply wp_mono; [by apply (store_refines _ OpListHeads e a)|].
  intros [heads|x] db'; [|simpl; intros [_ [?|[?|(_ & ? & ? & _)]]]; [by left; left| |done]].
  2: { left. right. do 3 eexists. split; [done|]. split; [constructor|done]. }
  intros (a0 & (-> & l & [= <-] & Hperm) & Hrep'). simpl.
  pose proof (rep_wf _ _ Hrep) as Hwf.
  eapply wp_mono; [apply (replay_logs_ok e fuel _ a db' Hrep')|].
  { apply Forall_forall. intros h [Ht Hh]%list_elem_of_filter. rewrite Hperm in Hh.
    apply heads_spec_elem in Hh as (k & m & _ & _ & Hk & Hid); [|done]. rewrite Hk, Hid.
    unfold key_of in Hk. rewrite Ht in Hk. subst k. destruct (Hctl (NodeId.key (th_origin h))) as (? & ? & ?).
    done. }
  intros [o|x] db''.
  - intros (-> & a' & Hrep2 & Hsame & Happ). split; [done|]. exists a'. split; [done|]. split; [done|].
    intros o m Hm. destruct (heads_spec_complete a (DELETE_TOPIC, o)) as (h & Hin & Hk);
      [done|intros Hnil; rewrite Hnil in Hm; by apply not_elem_of_nil in Hm|].
    rewrite Forall_forall in Happ. specialize (Happ h). rewrite Hk, Forall_forall in Happ.
    apply Happ; [|done]. apply list_elem_of_filter. rewrite Hperm. split; [|done].
    by injection Hk.
  - intros [?|(h & [Ht _]%list_elem_of_filter & Hbad)]; [by left|right].
    exists (NodeId.key (th_origin h)). unfold key_of in Hbad. by rewrite Ht in Hbad.
Qed.

(** C19: start-up on a store whose live control entries are all valid markers,
    where no call it makes (the heads, a page of a control log, the deletion of a
    live marker) fails or meets a limit of the store, terminates and succeeds:
    fuel above the length of the longest control log is enough, and afterwards
    every marker's range is recorded as a tombstone of the log it names, the
    control logs are unchanged and all other logs only gained deletions. *)
Theorem replay_applies_markers {DB} `{SR : StoreRefinement DB} e fuel a (db : DB) :
  no_faults e → (∀ A op a', control_same a a' → replay_call a' A op → ¬ limited e A op a') →
  rep a db →
  (∀ o, Forall control_message (log_of a (DELETE_TOPIC, o)) ∧
        Forall (λ m, ¬ bad_marker m) (log_of a (DELETE_TOPIC, o)) ∧
        (log_head (log_of a (DELETE_TOPIC, o)) < u64_max)%N ∧
        (length (log_of a (DELETE_TOPIC, o)) < fuel)%nat) →
  wp e (replay_control_messages fuel) (λ r db', r = Ok (Some tt) ∧
    ∃ a', rep a' db' ∧ control_same a a' ∧ ∀ o m, m ∈ log_of a (DELETE_TOPIC, o) → applied a' m) db.
Proof.
  intros Hnf Hlim Hrep Hctl. eapply wp_mono; [apply (replay_outcome e fuel a); [done|]|].
  { intros o. destruct (Hctl o) as (? & _ & ? & ?). done. }
  intros [o|x] db'; [by intros [-> ?]|]. intros [[Hf|(A & op & a1 & Hs & Hcall & H)]|(o & Hbad)]; exfalso.
  - by eapply no_faults_has_fault.
  - by eapply Hlim.
  - destruct (Hctl o) as (_ & Hok & _). apply Exists_exists in Hbad as (m & Hm & ?).
    rewrite Forall_forall in Hok. by apply (Hok m Hm).
Qed.

(** One live control entry that is not a valid marker (one a peer sent with
    an undecodable payload, a reversed range or the range of another origin) makes
    start-up fail, on any store and with any amount of fuel above the length of
    the logs; since the entry stays, every later start fails as well. *)
Theorem replay_blocked_by_bad_marker {DB} `{SR : StoreRefinement DB} e fuel a (db : DB) o :
  rep a db →
  (∀ o, Forall control_message (log_of a (DELETE_TOPIC, o)) ∧
        (log_head (log_of a (DELETE_TOPIC, o)) < u64_max)%N ∧
        (length (log_of a (DELETE_TOPIC, o)) < fuel)%nat) →
  Exists bad_marker (log_of a (DELETE_TOPIC, o)) →
  wp e (replay_control_messages fuel) (λ r _, is_ok r = false) db.
Proof.
  intros Hrep Hctl Hbad. eapply wp_mono; [by apply (replay_outcome e fuel a)|].
  intros [r|x] db'; [|done]. intros (_ & a' & _ & _ & Happ). exfalso.
  apply Exists_exists in Hbad as (m & Hm & [Hd Hno]). by destruct (Happ _ _ Hm Hd) as [? _].
Qed.

(** The control logs after local requests on an empty store: valid markers only. *)
Lemma requests_control {DB} `{SR : StoreRefinement DB} `{!JsonLaws TombstoneRange}
    node rs t (s : MsgbusGrpcService DB) :
  Forall (λ er : Env * Request, request_typed er.2) rs → rep abs_empty (store s) →
  ∃ a, rep a (store (serve_all node t rs s).2) ∧
    ∀ o, Forall control_message (log_of a (DELETE_TOPIC, o)) ∧
         Forall (λ m, ¬ bad_marker m) (log_of a (DELETE_TOPIC, o)) ∧
         (length (log_of a (DELETE_TOPIC, o)) ≤ length rs)%nat.
Proof.
  intros Hrs Hrep. destruct (serve_all_local node rs t _ s Hrs Hrep) as (a & Hrep' & Hs & _ & Hg).
  exists a. split; [done|]. intros o. pose proof (rep_wf _ _ Hrep') as Hwf.
  assert (Forall (λ m, topic_str (sm_topic m) = DELETE_TOPIC ∧ marker_ok m)
            (log_of a (DELETE_TOPIC, o))) as Hall.
  { apply Forall_forall. intros m Hm. destruct (decide (o = NodeId.key node)) as [->|Hne].
    - split; [|apply (ls_control _ _ _ Hs); [|done]; by intros ? ?%not_elem_of_nil]. apply list_elem_of_lookup in Hm as (i & Hi).
      apply (wf_entry _ Hwf) in Hi as [_ Hk]. by injection Hk.
    - destruct (ls_foreign _ _ _ Hs (DELETE_TOPIC, o) Hne) as [Hl _]. rewrite Hl in Hm.
      by apply not_elem_of_nil in Hm. }
  split; [|split].
  - eapply Forall_impl; [exact Hall|]. intros m [Ht (tr & Htr & _ & _ & ? & ? & ?)].
    split; [done|]. intros _ tr' Htr'. assert (tr' = tr) as -> by congruence. done.
  - eapply Forall_impl; [exact Hall|]. intros m [_ Hok] [_ Hno]. by apply Hno.
  - specialize (Hg (DELETE_TOPIC, o)). unfold log_head in Hg.
    change (log_of abs_empty (DELETE_TOPIC, o)) with (@nil StoredMessage) in Hg. simpl in Hg. lia.
Qed.

(** C20: local clients cannot keep the daemon from starting again: after any
    sequence of requests to a service over an empty store, with any failures on
    the way, start-up over a store that neither fails nor hits a limit
    succeeds. *)
Theorem restart_after_requests {DB} `{SR : StoreRefinement DB} `{!JsonLaws TombstoneRange}
    node rs t e fuel (s : MsgbusGrpcService DB) :
  no_faults e →
  (∀ A op a a', rep a (store (serve_all node t rs s).2) → control_same a a' →
     replay_call a' A op → ¬ limited e A op a') →
  Forall (λ er : Env * Request, request_typed er.2) rs → rep abs_empty (store s) →
  (N.of_nat (length rs) < u64_max)%N → (length rs < fuel)%nat →
  wp e (replay_control_messages fuel) (λ r _, r = Ok (Some tt)) (store (serve_all node t rs s).2).
Proof.
  intros Hnf Hlim Hrs Hrep Hmax Hfuel.
  destruct (requests_control node rs t s Hrs Hrep) as (a & Hrep' & Hctl).
  eapply wp_mono; [apply (replay_outcome e fuel a); [done|]|].
  { intros o. destruct (Hctl o) as (? & _ & ?). unfold log_head. split; [done|]. lia. }
  intros [o|x] db'; [by intros [-> _]|]. intros [[Hf|(A & op & a1 & Hs & Hcall & H)]|(o & Hbad)]; exfalso.
  - by eapply no_faults_has_fault.
  - by eapply Hlim.
  - destruct (Hctl o) as (_ & Hok & _). apply Exists_exists in Hbad as (m & Hm & ?).
    rewrite Forall_forall in Hok. by apply (Hok m Hm).
Qed.

Lemma redb_unlimited e A (op : StoreOp A) a :
  ¬ limited (StoreRefinement := redb_refinement (T := GTable)) e A op a.
Proof. intros H. exact H. Qed.

Lemma restart_after_requests_witness :
  wp env0 (replay_control_messages 4) (λ r _, r = Ok (Some tt))
    (store (serve_all node_a 0 requests0 service0).2).
Proof.
  apply (restart_after_requests (SR := redb_refinement) node_a requests0 0 env0 4 service0).
  - apply env0_no_faults.
  - intros. apply redb_unlimited.
  - apply requests0_typed.
  - apply empty_rep.
  - reflexivity.
  - simpl. lia.
Defined.

Lemma replay_applies_markers_witness :
  ∃ a, rep (StoreRefinement := redb_refinement) a (store (serve_all node_a 0 requests0 service0).2) ∧
    wp env0 (replay_control_messages 4) (λ r db', r = Ok (Some tt) ∧
      ∃ a', rep (StoreRefinement := redb_refinement) a' db' ∧ control_same a a' ∧
        ∀ o m, m ∈ log_of a (DELETE_TOPIC, o) → applied a' m)
      (store (serve_all node_a 0 requests0 service0).2).
Proof.
  destruct (requests_control (SR := redb_refinement) node_a requests0 0 service0) as (a & Hrep & Hctl);
    [apply requests0_typed | apply empty_rep |].
  exists a. split; [exact Hrep|].
  apply (replay_applies_markers (SR := redb_refinement) env0 4 a);
    [apply env0_no_faults | intros; apply redb_unlimited | exact Hrep|].
  intros o. destruct (Hctl o) as (H1 & H2 & H3). unfold log_head. simpl in H3.
  split; [done|]. split; [done|]. unfold u64_max. lia.
Defined.

(** A control entry as a faulty peer may send it: an empty payload. *)
Definition bad_message : StoredMessage :=
  mkStoredMessage (mkMessageId "m1") (mkTopic DELETE_TOPIC) node_b 1 [] ∅ 0 false.
Definition bad_store : RedbStore GTable :=
  (redb_put_replicated_message bad_message env0 0 empty_db).2.

(** The first replicated entry of a log, over the empty redb store. *)
Lemma put_first_rep m :
  sm_head_id m = 1%N → is_u64 (sm_created_at_ms m) →
  redb_db_rep (set_log (msg_key m) [m] abs_empty)
    (redb_put_replicated_message (T := GTable) m env0 0 empty_db).2.
Proof.
  intros Hh Hc. assert (op_typed (OpPutReplicated m)) as Hty by (split; [by rewrite Hh|done]).
  pose proof (redb_answers (T := GTable) _ env0 _ empty_db env0_no_faults Hty empty_rep 0) as H.
  cbn [run_op] in H. change (put_replicated_message m)
    with (redb_put_replicated_message (T := GTable) m) in H.
  destruct (redb_put_replicated_message m env0 0 empty_db) as [[r t] db].
  destruct H as (a' & Hs & Hrep). cbn [spec_op] in Hs. unfold put_replicated_spec in Hs.
  rewrite Hh in Hs. injection Hs as _ ->. exact Hrep.
Qed.

Lemma bad_store_rep :
  redb_db_rep (set_log (msg_key bad_message) [bad_message] abs_empty) bad_store.
Proof. by apply put_first_rep. Qed.

Lemma replay_blocked_by_bad_marker_witness :
  wp env0 (replay_control_messages 2) (λ r _, is_ok r = false) bad_store.
Proof.
  apply (replay_blocked_by_bad_marker (SR := redb_refinement) env0 2
    (set_log (msg_key bad_message) [bad_message] abs_empty) bad_store (NodeId.key node_b)).
  - apply bad_store_rep.
  - intros o. rewrite log_of_set_log. case_decide; [|by split; [apply Forall_nil|split; [|apply Nat.lt_0_succ]]].
    split; [|by split; [|simpl; lia]]. constructor; [|constructor].
    split; [done|]. intros _ tr Htr. discriminate Htr.
  - apply Exists_cons_hd. split; [done|]. by intros (tr & Htr & _).
Defined.

(** ** Wire messages *)

(** C28: [core_message] accepts exactly the envelopes of messages with a number,
    a valid topic and identifier and an origin that is valid or empty, and
    returns the very message [proto_message] makes that envelope from: encoding
    loses nothing, decoding adds nothing, and every other envelope is refused. *)
Theorem envelope_roundtrip v m : core_message v = Ok m ↔ v = proto_message m ∧ wire_message m.
Proof. apply core_message_iff. Qed.

(** An envelope whose origin has three empty parts passes the check that an
    origin is present, and yields a message whose origin validation rejects. *)
Theorem empty_origin_accepted :
  ∃ v m, core_message v = Ok m ∧ sm_origin m = empty_node ∧ is_ok (NodeId.validate empty_node) = false.
Proof.
  exists (mkEnvelope "m" "t" (Some (mkProtoNodeId "" "" "")) 1 [] ∅ 0 false).
  eexists. by split; [vm_compute|].
Qed.
