(* ===== verification/Sync.v ===== *)
(** * Sync: pulling logs from peers

    Models [crates/msgbus-server/src/sync.rs].  The remote side is a parameter:
    a [PeerClient] answers [health], [list_heads] and [fetch] in any way, and may
    answer the same call differently every time (the answers are indexed by the
    counter of external calls).  So are the endpoint and TLS layers.  Errors are
    [Box<dyn Error>], of which only the text is ever used. *)

From Stdlib Require Import Ascii String NArith ZArith Lia.
From stdpp Require Import base strings list gmap.
From S2P Require Import Prelude Strings Core Json Spec Proto Server.

(** ** Configuration *)

Record PeerSpec := mkPeerSpec {
  endpoint : string;
  expected_node : option NodeId;
}.

Definition PeerSpec_parse (value : string) : Result PeerSpec :=
  if is_empty (trim value) then Err (InvalidArgument "peer is empty")
  else
    match rsplit_once "=" value with
    | Some (ep, node_key) =>
        if is_empty (trim ep) then Err (InvalidArgument "peer endpoint is empty")
        else
          node ← NodeId.from_key node_key;
          Ok (mkPeerSpec ep (Some node))
    | None => Ok (mkPeerSpec value None)
    end.

Record PeerClientTlsConfig := mkPeerTls {
  ca_cert : option string;
  cert : option string;
  key : option string;
  domain_name : option string;
}.

Definition tls_is_enabled (c : PeerClientTlsConfig) : bool :=
  bool_decide (is_Some (ca_cert c)) || bool_decide (is_Some (cert c))
  || bool_decide (is_Some (key c)) || bool_decide (is_Some (domain_name c)).

Record PeerSyncConfig := mkPeerSyncConfig {
  local_node : NodeId;
  peers : list PeerSpec;
  interval_ms : N;
  batch_limit : N;
  tls : option PeerClientTlsConfig;
}.

Definition sync_disabled (local_node : NodeId) : PeerSyncConfig :=
  mkPeerSyncConfig local_node [] 1000 100 None.

Definition sync_is_enabled (c : PeerSyncConfig) : bool := negb (bool_decide (peers c = [])).

(** ** The remote side *)

(** A response stream, read with [message().await]: it ends, after some items, or
    it goes on for ever.  A failed item is the last one its reader looks at. *)
Inductive Stream (A : Type) : Type :=
| Ends (items : list A)
| Endless (item : nat → A).
Arguments Ends {A} items.
Arguments Endless {A} item.

Record PeerClient := mkPeerClient {
  rpc_health : nat → result string (option ProtoNodeId);
  rpc_list_heads : nat → result string (list ProtoTopicHead);
  (** a call fails, or opens a stream of responses and failures *)
  rpc_fetch : nat → FetchRequest → result string (Stream (result string MessageResponse));
}.

(** The transport: parsing an endpoint, reading a file, applying a TLS
    configuration (with the file contents read), connecting. *)
Record Transport := mkTransport {
  endpoint_from_shared : string → result string unit;
  read_file : nat → string → result string bytes;
  apply_tls : option bytes → option (bytes * bytes) → option string → result string unit;
  connect : nat → string → result string PeerClient;
}.

Section sync.
Context {DB : Type} {ST : MsgbusStore DB} {JT : Json TombstoneRange}.

(** The [Display] text of a [tonic::Status]. *)
Context (status_text : Status → string) (net : Transport).

Abbreviation Sync := (M string (MsgbusGrpcService DB)).

(** [while let Some(..) = stream.message().await? { .. }]: [None] when the fuel
    runs out, which an endless stream brings about unless an item fails. *)
Definition for_stream {X A} (fuel : nat) (stream : Stream X) (body : X → A → Sync (flow A)) (acc : A)
    : Sync (option A) :=
  match stream with
  | Ends items => acc ← for_each items body acc; mret (Some acc)
  | Endless item => for_each (item <$> seq 0 fuel) body acc;; mret None
  end.

Definition rpc {A} (f : nat → result string A) : Sync A := λ _ t s, (f t, S t, s).

(** [store.op(..).await?], [map_err(status_box)?] *)
Definition db_call {A} (m : M MsgbusError DB A) : Sync A :=
  map_err_m error_to_string (zoom store (λ db s, mkService db (published s)) m).
Definition status_box {A} (r : SResult A) : Sync A := of_result (map_err status_text r).

Definition record_peer_sync_success (peer : PeerSpec) (topic : option Topic) (origin : option NodeId)
    (local_head remote_head last_synced_head : N) : Sync unit :=
  attempt ← now_ms;
  success ← now_ms;
  db_call (record_peer_sync_state (mkPeerSyncState (endpoint peer) topic origin local_head
    remote_head last_synced_head attempt success 0 None)).

Definition record_peer_sync_failure (peer : PeerSpec) (topic : option Topic) (origin : option NodeId)
    (local_head remote_head : N) (error : string) : Sync unit :=
  attempt ← now_ms;
  db_call (record_peer_sync_state (mkPeerSyncState (endpoint peer) topic origin local_head
    remote_head local_head attempt 0 0 (Some error))).

Definition apply_control (message : StoredMessage) : Sync unit :=
  map_err_m status_text (zoom store (λ db s, mkService db (published s))
    (apply_control_message message)).

Definition publish_replicated (message : StoredMessage) : Sync unit :=
  modify (λ s, mkService (store s) (published s ++ [message])).

(** One item of the fetch stream: the body of the inner [while let]. *)
Definition sync_item (peer : PeerSpec) (head : TopicHead)
    (item : result string MessageResponse) (acc : N * N) : Sync (flow (N * N)) :=
  response ← of_result item;
  match mr_message response with
  | None => mret (Continue acc)
  | Some message =>
      message ← status_box (core_message message);
      if negb (bool_decide (sm_topic message = th_topic head))
         || negb (bool_decide (sm_origin message = th_origin head))
      then throw ("peer " +:+ endpoint peer +:+ " returned mismatched message for topic="
                    +:+ topic_str (th_topic head) +:+ " origin=" +:+ NodeId.key (th_origin head))
      else
        r ← db_call (put_replicated_message message);
        match r with
        | Inserted => apply_control message;; publish_replicated message
        | AlreadyPresent => apply_control message
        end;;
        let '(local_head, fetched) := acc in
        mret (Continue (N.max local_head (sm_head_id message), u32_saturating_add fetched 1))
  end.

(** The outer [while] loop: the local head it ends with, [None] when the fuel
    runs out. *)
Fixpoint sync_loop (fuel : nat) (client : PeerClient) (peer : PeerSpec) (head : TopicHead)
    (batch_limit local_head : N) : Sync (option N) :=
  if (local_head <? th_head_id head)%N then
    match fuel with
    | O => mret None
    | S fuel' =>
        let request := mkFetchRequest (topic_str (th_topic head))
          (Some (mkProtoNodeId (tenant_id (th_origin head)) (bl_name (th_origin head))
                   (device_id (th_origin head))))
          (u64_saturating_add local_head 1) (N.max batch_limit 1) in
        stream ← rpc (λ t, rpc_fetch client t request);
        acc ← for_stream fuel stream (sync_item peer head) (local_head, 0%N);
        match acc with
        | None => mret None
        | Some (local_head', fetched) =>
            record_peer_sync_success peer (Some (th_topic head)) (Some (th_origin head)) local_head'
              (th_head_id head) local_head';;
            if (fetched =? 0)%N || (local_head' =? local_head)%N then mret (Some local_head')
            else sync_loop fuel' client peer head batch_limit local_head'
        end
    end
  else mret (Some local_head).

Definition sync_head (fuel : nat) (client : PeerClient) (peer : PeerSpec) (head : TopicHead)
    (batch_limit : N) : Sync (option unit) :=
  h ← db_call (get_head (th_topic head) (th_origin head));
  r ← sync_loop fuel client peer head batch_limit (default 0%N h);
  match r with
  | None => mret None
  | Some local_head =>
      (if (th_head_id head <=? local_head)%N
       then record_peer_sync_success peer (Some (th_topic head)) (Some (th_origin head)) local_head
              (th_head_id head) local_head
       else mret tt);;
      mret (Some tt)
  end.

Definition connect_peer (peer : PeerSpec) (tls : option PeerClientTlsConfig) : Sync PeerClient :=
  of_result (endpoint_from_shared net (endpoint peer));;
  match (c ← tls; guard (tls_is_enabled c = true);; Some c) with
  | Some tls =>
      ca ← match ca_cert tls with
           | Some path => b ← rpc (λ t, read_file net t path); mret (Some b)
           | None => mret None
           end;
      identity ← match cert tls, key tls with
                 | Some cert, Some key =>
                     c ← rpc (λ t, read_file net t cert);
                     k ← rpc (λ t, read_file net t key);
                     mret (Some (c, k))
                 | None, None => mret None
                 | _, _ => throw "peer TLS cert and key must be configured together"
                 end;
      of_result (apply_tls net ca identity (domain_name tls))
  | None => mret tt
  end;;
  rpc (λ t, connect net t (endpoint peer)).

Definition verify_peer_identity (client : PeerClient) (local_node : NodeId) (peer : PeerSpec)
    : Sync unit :=
  node ← rpc (rpc_health client);
  remote ← status_box (transpose (core_node <$> node));
  remote_node ← of_result (ok_or ("peer " +:+ endpoint peer +:+ " health response has no node") remote);
  if bool_decide (remote_node = local_node)
  then throw ("peer " +:+ endpoint peer +:+ " reports the local node identity")
  else
    match expected_node peer with
    | Some expected =>
        if negb (bool_decide (remote_node = expected))
        then throw ("peer " +:+ endpoint peer +:+ " identity mismatch: expected "
                      +:+ NodeId.key expected +:+ ", got " +:+ NodeId.key remote_node)
        else mret tt
    | None => mret tt
    end.

(** The [for head in heads] loop of [sync_peer]. *)
Fixpoint sync_heads (fuel : nat) (client : PeerClient) (peer : PeerSpec) (batch_limit : N)
    (heads : list ProtoTopicHead) : Sync (option unit) :=
  match heads with
  | [] => mret (Some tt)
  | head :: heads' =>
      head ← status_box (core_topic_head head);
      r ← try (sync_head fuel client peer head batch_limit);
      match r with
      | Err err =>
          h ← db_call (get_head (th_topic head) (th_origin head));
          record_peer_sync_failure peer (Some (th_topic head)) (Some (th_origin head))
            (default 0%N h) (th_head_id head) err;;
          throw err
      | Ok None => mret None
      | Ok (Some _) => sync_heads fuel client peer batch_limit heads'
      end
  end.

Definition sync_peer (fuel : nat) (local_node : NodeId) (peer : PeerSpec) (batch_limit : N)
    (tls : option PeerClientTlsConfig) : Sync (option unit) :=
  client ← connect_peer peer tls;
  verify_peer_identity client local_node peer;;
  heads ← rpc (rpc_list_heads client);
  r ← sync_heads fuel client peer batch_limit heads;
  match r with
  | None => mret None
  | Some _ => record_peer_sync_success peer None None 0 0 0;; mret (Some tt)
  end.

(** The peers in turn; a failure is recorded (a failure to record it is only
    logged) and the first one is returned at the end. *)
Fixpoint sync_peers (fuel : nat) (config : PeerSyncConfig) (ps : list PeerSpec)
    (first_error : option string) : Sync (option (option string)) :=
  match ps with
  | [] => mret (Some first_error)
  | peer :: ps' =>
      r ← try (E := string) (sync_peer fuel (local_node config) peer (batch_limit config) (tls config));
      match r with
      | Ok None => mret None
      | Ok (Some _) => sync_peers fuel config ps' first_error
      | Err error =>
          _ ← try (E := string) (record_peer_sync_failure peer None None 0 0 error);
          sync_peers fuel config ps'
            (match first_error with None => Some error | Some _ => first_error end)
      end
  end.

Definition sync_once (fuel : nat) (config : PeerSyncConfig) : Sync (option unit) :=
  r ← sync_peers fuel config (peers config) None;
  match r with
  | None => mret None
  | Some None => mret (Some tt)
  | Some (Some error) => throw error
  end.

(** ** The background task

    What the [select!] of [spawn_peer_sync_with_shutdown] takes next: a tick of
    the interval, a new value on the shutdown channel, or that its sender is
    gone. *)
Inductive SyncEvent : Type :=
| Tick
| ShutdownChanged (value : bool)
| ShutdownClosed.

(** The loop: the number of passes made and the state it ends in; a failed pass
    is only logged. *)
Fixpoint sync_task (fuel : nat) (config : PeerSyncConfig) (t : nat) (evs : list (Env * SyncEvent))
    (s : MsgbusGrpcService DB) : nat * MsgbusGrpcService DB :=
  match evs with
  | [] => (O, s)
  | (e, Tick) :: evs' =>
      let '(_, t', s') := sync_once fuel config e t s in
      let '(n, s'') := sync_task fuel config t' evs' s' in (S n, s'')
  | (_, ShutdownChanged value) :: evs' => if value then (O, s) else sync_task fuel config t evs' s
  | (_, ShutdownClosed) :: _ => (O, s)
  end.

(** [spawn_peer_sync] drops the sender of the shutdown channel when it returns,
    so the shutdown branch is ready from the start with [ShutdownClosed]: each
    turn of the loop takes it or a tick. *)
Definition spawn_peer_sync (fuel : nat) (config : PeerSyncConfig) (t : nat)
    (turns : list (Env * bool)) (s : MsgbusGrpcService DB) : nat * MsgbusGrpcService DB :=
  sync_task fuel config t
    ((λ eb : Env * bool, (eb.1, if eb.2 then Tick else ShutdownClosed)) <$> turns) s.
End sync.
