(* ===== verification/SyncProps.v ===== *)
(** * SyncProps: what a synchronisation pass may do

    For any peer, however it behaves: a pass terminates, keeps the store
    representing a well-formed state and only ever adds to it.  For a peer that
    serves its log: the local log becomes the peer's. *)

From Stdlib Require Import Ascii String NArith ZArith Lia.
From stdpp Require Import base strings list gmap.
From S2P Require Import Prelude Strings Core Json Spec History Proto Server ServerProps Replay Sync.

(** ** Termination *)

Section termination.
Context {DB : Type} {ST : MsgbusStore DB} {JT : Json TombstoneRange}.
Context (status_text : Status → string) (e : Env).

Implicit Types (s : MsgbusGrpcService DB).

Lemma wp_rpc {A} (f : nat → result string A) (Q : result string A → MsgbusGrpcService DB → Prop) s :
  (∀ t, Q (f t) s) → wp e (rpc f) Q s.
Proof. intros H t. apply H. Qed.

(** The local head never goes down. *)
Lemma sync_items_mono peer head items acc s :
  wp e (for_each items (sync_item status_text peer head) acc)
    (λ r _, match r with Ok acc' => (acc.1 ≤ acc'.1)%N | Err _ => True end) s.
Proof.
  apply (wp_for_each e _ _ _ (λ _ acc' _, (acc.1 ≤ acc'.1)%N)); [done| |done].
  intros item l [h f] s' Hh. unfold sync_item. apply wp_bind, wp_of_result.
  destruct item as [response|]; [|done]. destruct (mr_message response) as [message|];
    [|by apply wp_ret]. apply wp_bind, wp_of_result.
  destruct (map_err status_text (core_message message)) as [m|]; [|done].
  destruct (_ || _); [by apply wp_throw|].
  apply wp_bind, wp_any. intros [r|] s1; [|done].
  apply wp_bind, wp_any. intros [u|] s2; [|done]. apply wp_ret. simpl in *. lia.
Qed.

(** Every stream the peer opens ends. *)
Definition streams_end (client : PeerClient) : Prop :=
  ∀ t req stream, rpc_fetch client t req = Ok stream → ∃ items, stream = Ends items.

Lemma sync_loop_terminates fuel client peer head limit local s :
  streams_end client → (N.to_nat (th_head_id head) ≤ fuel + N.to_nat local)%nat →
  wp e (sync_loop status_text fuel client peer head limit local) (λ r _, r ≠ Ok None) s.
Proof.
  intros Hends. revert local s. induction fuel as [|fuel IH]; intros local s Hfuel; cbn [sync_loop];
    destruct (N.ltb_spec local (th_head_id head)) as [Hlt|Hge]; try by apply wp_ret.
  - lia.
  - apply wp_bind, wp_rpc. intros t. destruct (rpc_fetch client t _) as [stream|x] eqn:Hf; [|done].
    destruct (Hends _ _ _ Hf) as (items & ->). cbn [for_stream].
    apply wp_bind, wp_bind. eapply wp_mono; [apply sync_items_mono|].
    intros [[local' fetched]|x] s' Hmono; [|done]. simpl in Hmono. apply wp_ret.
    apply wp_bind, wp_any. intros [u|x] s''; [|done].
    destruct ((fetched =? 0)%N || (local' =? local)%N) eqn:Hstop; [by apply wp_ret|].
    apply orb_false_iff in Hstop as [_ Hne%N.eqb_neq]. apply IH. lia.
Qed.

Lemma sync_head_terminates fuel client peer head limit s :
  streams_end client → (N.to_nat (th_head_id head) ≤ fuel)%nat →
  wp e (sync_head status_text fuel client peer head limit) (λ r _, r ≠ Ok None) s.
Proof.
  intros Hends Hfuel. unfold sync_head. apply wp_bind, wp_any. intros [h|x] s1; [|done].
  apply wp_bind. eapply wp_mono; [apply sync_loop_terminates; [done|lia]|].
  intros [[local|]|x] s2 Hr; [|done|done].
  apply wp_bind, wp_any. intros [u|x] s3; [|done]. by apply wp_ret.
Qed.

Lemma core_topic_head_id h head : core_topic_head h = Ok head → th_head_id head = pth_head_id h.
Proof.
  unfold core_topic_head. intros (o & _ & H)%result_bind_ok.
  apply result_bind_ok in H as (o' & _ & H). apply result_bind_ok in H as (t & _ & [= <-]). done.
Qed.

Lemma sync_heads_terminates fuel client peer limit heads s :
  streams_end client → Forall (λ h, N.to_nat (pth_head_id h) ≤ fuel)%nat heads →
  wp e (sync_heads status_text fuel client peer limit heads) (λ r _, r ≠ Ok None) s.
Proof.
  intros Hends Hh. revert s. induction Hh as [|h heads Hh _ IH]; intros s; cbn [sync_heads]; [by apply wp_ret|].
  apply wp_bind, wp_of_result. destruct (core_topic_head h) as [head|x] eqn:Hc; [|done].
  cbn [map_err]. apply core_topic_head_id in Hc.
  apply wp_bind, wp_try. eapply wp_mono; [apply sync_head_terminates; [done|rewrite Hc; exact Hh]|].
  intros [[[]|]|x] s1 Hr; [apply IH|done|].
  apply wp_bind, wp_any. intros [o|y] s2; [|done].
  apply wp_bind, wp_any. intros [u|y] s3; [|done]. by apply wp_throw.
Qed.

(** The numbers of a peer's heads are [u64] on the wire. *)
Definition heads_typed (net : Transport) : Prop :=
  ∀ t ep c t' hs, connect net t ep = Ok c → rpc_list_heads c t' = Ok hs →
  Forall (λ h, is_u64 (pth_head_id h)) hs.

(** The streams of every peer end. *)
Definition streams_of_net_end (net : Transport) : Prop :=
  ∀ t ep c, connect net t ep = Ok c → streams_end c.

Lemma connect_peer_client net peer tls s (Q : result string PeerClient → MsgbusGrpcService DB → Prop) :
  (∀ t, Q (connect net t (endpoint peer)) s) → (∀ x, Q (Err x) s) →
  wp e (connect_peer net peer tls) Q s.
Proof.
  intros Hok Herr. unfold connect_peer. apply wp_bind, wp_of_result.
  destruct (endpoint_from_shared net (endpoint peer)) as [[]|x]; [|by apply Herr].
  apply wp_bind. destruct (c ← tls; guard (tls_is_enabled c = true);; Some c) as [c|].
  2: { apply wp_ret, wp_rpc, Hok. }
  assert (∀ (P : result string (option bytes) → MsgbusGrpcService DB → Prop),
    (∀ b, P (Ok b) s) → (∀ x, P (Err x) s) →
    wp e (match ca_cert c with
          | Some path => b ← rpc (λ t, read_file net t path); mret (Some b)
          | None => mret None
          end) P s) as Hca.
  { intros P Hb Hx. destruct (ca_cert c); [|by apply wp_ret].
    apply wp_bind, wp_rpc. intros t. destruct (read_file net t _); [by apply wp_ret | done]. }
  apply wp_bind, Hca; [intros ca|done]. apply wp_bind.
  assert (∀ id, wp e (of_result (apply_tls net ca id (domain_name c)))
    (λ r s', match r with
             | Ok _ => wp e (rpc (λ t, connect net t (endpoint peer))) Q s'
             | Err x => Q (Err x) s'
             end) s) as Htls.
  { intros id. apply wp_of_result. destruct (apply_tls _ _ _ _); [by apply wp_rpc | apply Herr]. }
  destruct (cert c), (key c); try (by apply wp_throw, Herr); [|by apply wp_ret, Htls].
  apply wp_bind, wp_rpc. intros t. destruct (read_file net t _); [|apply Herr].
  apply wp_bind, wp_rpc. intros t'. destruct (read_file net t' _); [|apply Herr].
  by apply wp_ret, Htls.
Qed.

Lemma sync_peer_terminates net fuel node peer limit tls s :
  heads_typed net → streams_of_net_end net → (N.to_nat u64_max ≤ fuel)%nat →
  wp e (sync_peer status_text net fuel node peer limit tls) (λ r _, r ≠ Ok None) s.
Proof.
  intros Hnet Hends Hfuel. unfold sync_peer. apply wp_bind, connect_peer_client; [|done].
  intros t. destruct (connect net t (endpoint peer)) as [c|x] eqn:Hc; [|done].
  apply wp_bind, wp_any. intros [u|x] s1; [|done].
  apply wp_bind, wp_rpc. intros t'. destruct (rpc_list_heads c t') as [hs|x] eqn:Hhs; [|done].
  apply wp_bind. eapply wp_mono; [apply sync_heads_terminates|].
  - by eapply Hends.
  - eapply Forall_impl; [by eapply Hnet|]. intros h Hh. unfold is_u64 in Hh. etrans; [|exact Hfuel]. lia.
  - intros [[[]|]|x] s2 Hr; [|done|done]. apply wp_bind, wp_any. intros [v|x] s3; [|done].
    by apply wp_ret.
Qed.

Lemma sync_peers_terminates net fuel config ps first s :
  heads_typed net → streams_of_net_end net → (N.to_nat u64_max ≤ fuel)%nat →
  wp e (sync_peers status_text net fuel config ps first) (λ r _, ∃ o, r = Ok (Some o)) s.
Proof.
  intros Hnet Hends Hfuel. revert first s. induction ps as [|peer ps IH]; intros first s; cbn [sync_peers].
  { apply wp_ret. by exists first. }
  apply wp_bind, wp_try. eapply wp_mono; [by apply sync_peer_terminates|].
  intros [[[]|]|x] s1 Hr; [apply IH|done|]. apply wp_bind, wp_try, wp_any. intros r s2. apply IH.
Qed.
End termination.

(** ** Safety against any peer *)

(** What pulling the log [k] may change: entries are added to [k], deletions to
    logs of the same origin, and nothing is lost; queues are untouched. *)
Record pulled `{!Json TombstoneRange} (k : log_key) (a a' : AbsStore) : Prop := {
  pu_le : store_le a a';
  pu_foreign : ∀ k', k'.2 ≠ k.2 → log_of a' k' = log_of a k' ∧ tombs_of a' k' = tombs_of a k';
  pu_len : ∀ k', k' ≠ k → log_head (log_of a' k') = log_head (log_of a k');
  pu_queues : a_queues a' = a_queues a ∧ a_seqs a' = a_seqs a;
  pu_typed : markers_typed a → markers_typed a';
}.

#[export] Instance pulled_preorder `{!Json TombstoneRange} k : PreOrder (pulled k).
Proof.
  split; [by split|]. intros a1 a2 a3 [L1 F1 N1 [Q1 S1] Y1] [L2 F2 N2 [Q2 S2] Y2].
  split; [by etrans| | |split; congruence|auto].
  - intros k' Hk. destruct (F1 k' Hk), (F2 k' Hk). split; congruence.
  - intros k' Hk. by rewrite N2, N1.
Qed.

Lemma put_replicated_other m a k' :
  k' ≠ msg_key m → log_of (put_replicated_spec m a).2 k' = log_of a k'.
Proof.
  intros Hk. unfold put_replicated_spec.
  repeat case_match; cbn [snd]; try done; rewrite log_of_set_log, decide_False by done; done.
Qed.

Lemma put_replicated_rest m a :
  tombs_of (put_replicated_spec m a).2 = tombs_of a ∧
  a_queues (put_replicated_spec m a).2 = a_queues a ∧ a_seqs (put_replicated_spec m a).2 = a_seqs a.
Proof. unfold put_replicated_spec. by repeat case_match. Qed.

Lemma put_replicated_typed `{!Json TombstoneRange} m a :
  marker_typed m → markers_typed a → markers_typed (put_replicated_spec m a).2.
Proof.
  intros Hm Ha. unfold put_replicated_spec.
  repeat case_match; cbn [snd]; try exact Ha; by apply log_put_typed.
Qed.

Lemma put_replicated_pulled `{!Json TombstoneRange} m a :
  wf a → marker_typed m → pulled (msg_key m) a (put_replicated_spec m a).2.
Proof.
  intros Hwf Hm. destruct (put_replicated_rest m a) as (Ht & Hq & Hs). split.
  - by apply put_replicated_le.
  - intros k' Hk. rewrite Ht. rewrite put_replicated_other; [done|]. by intros ->.
  - intros k' Hk. by rewrite put_replicated_other.
  - done.
  - by apply put_replicated_typed.
Qed.

Lemma tombstone_pulled `{!Json TombstoneRange} k k0 from to a :
  k0.2 = k.2 → pulled k a (tombstone_spec k0 from to a).2.
Proof.
  intros Hk. split; [apply tombstone_le| |intros; apply tombstone_head|done|apply tombstone_typed].
  intros k' Hk'. unfold tombstone_spec. cbn [snd].
  rewrite log_of_set_tombs, tombs_of_set_tombs, log_of_set_log, !decide_False; [done|congruence..].
Qed.

Lemma record_pulled `{!Json TombstoneRange} k k0 st a : pulled k a (set_sync k0 st a).
Proof. by split. Qed.

Section safety.
Context {DB : Type} {ST : MsgbusStore DB} {JT : Json TombstoneRange} {SR : StoreRefinement DB}.
Context (status_text : Status → string) (e : Env).

Implicit Types (a : AbsStore) (s : MsgbusGrpcService DB).

Lemma wp_db_call {A} (op : StoreOp A) (Q : result string A → MsgbusGrpcService DB → Prop) a s :
  op_typed op → rep a (store s) →
  (∀ x a' db', spec_op e op a (Ok x) a' → rep a' db' → Q (Ok x) (mkService db' (published s))) →
  (∀ x db', rep a db' → has_fault e ∨ limited e A op a ∨ spec_op e op a (Err x) a →
     Q (Err (error_to_string x)) (mkService db' (published s))) →
  wp e (db_call (run_op op)) Q s.
Proof.
  intros Hty Hrep Hok Herr. unfold db_call. apply wp_map_err, wp_zoom.
  eapply wp_mono; [by apply (store_refines A op e a)|].
  intros [x|x] db'; simpl.
  - intros (a' & ? & ?). eauto.
  - intros [? ?]. eauto.
Qed.

(** The state a pass may be in: the store moved along [R], the channel extended. *)
Definition reached (R : relation AbsStore) a s s' : Prop :=
  ∃ a', rep a' (store s') ∧ R a a' ∧ published s `prefix_of` published s'.

Lemma reached_refl R `{!PreOrder R} a s : rep a (store s) → reached R a s s.
Proof. intros. by exists a. Qed.

Lemma reached_step R `{!PreOrder R} a a' s s' s'' :
  R a a' → published s `prefix_of` published s' → reached R a' s' s'' → reached R a s s''.
Proof. intros Hp Hpub (a2 & ? & ? & ?). exists a2. split; [done|]. split; by etrans. Qed.

Lemma reached_weaken (R R' : relation AbsStore) a s s' :
  (∀ a a', R a a' → R' a a') → reached R a s s' → reached R' a s s'.
Proof. intros HR (a' & ? & ? & ?). exists a'. auto. Qed.

Lemma wp_reached_bind {A B} R `{!PreOrder R} a s (m : M string (MsgbusGrpcService DB) A)
    (f : A → M string (MsgbusGrpcService DB) B) :
  wp e m (λ r s', reached R a s s' ∧ match r with
                   | Ok x => ∀ a', rep a' (store s') → wp e (f x) (λ _, reached R a' s') s'
                   | Err _ => True
                   end) s →
  wp e (m ≫= f) (λ _, reached R a s) s.
Proof.
  intros H. apply wp_bind. eapply wp_mono; [exact H|].
  intros [x|x] s' [Hr Hf]; [|done]. destruct Hr as (a' & Hrep & Hp & Hpub).
  eapply wp_mono; [by apply (Hf a' Hrep)|]. intros r s''. simpl. by apply reached_step.
Qed.

(** Envelopes a peer may send: numbers in range, also inside a marker. *)
Definition envelope_typed (v : MessageEnvelope) : Prop :=
  is_u64 (me_head_id v) ∧ is_u64 (me_created_at_ms v) ∧
  ∀ tr, from_slice (me_payload v) = Ok tr → is_u64 (tr_from_head_id tr) ∧ is_u64 (tr_to_head_id tr).

Definition item_typed (item : result string MessageResponse) : Prop :=
  ∀ r v, item = Ok r → mr_message r = Some v → envelope_typed v.

Lemma apply_control_reached m k a s :
  rep a (store s) → NodeId.key (sm_origin m) = k.2 →
  (∀ tr, from_slice (sm_payload m) = Ok tr → is_u64 (tr_from_head_id tr) ∧ is_u64 (tr_to_head_id tr)) →
  wp e (apply_control status_text m) (λ _, reached (pulled k) a s) s.
Proof.
  intros Hrep Hk Hty. unfold apply_control. apply wp_map_err, wp_zoom.
  assert (∀ a' db', rep a' db' → pulled k a a' → reached (pulled k) a s (mkService db' (published s))) as Hdone.
  { intros a' db' ? ?. by exists a'. }
  unfold apply_control_message. destruct (_ || _); [apply wp_ret; by apply (Hdone a)|].
  apply wp_bind, wp_of_result. destruct (from_slice (sm_payload m)) as [tr|x]; [|by apply (Hdone a)].
  simpl. case_bool_decide as Ho; simpl; [|apply wp_throw; by apply (Hdone a)].
  apply wp_bind, wp_map_err. destruct (Hty tr eq_refl).
  eapply wp_mono; [by apply (store_refines _ (OpTombstone (tr_topic tr) (tr_origin tr)
    (tr_from_head_id tr) (tr_to_head_id tr)) e a)|].
  cbn [spec_op]. intros [x|x] db'; [|intros [? _]; by apply (Hdone a)].
  intros (a' & Hs & Hrep'). apply wp_ret. apply (Hdone a'); [done|].
  destruct (_ <? _)%N; destruct Hs as [_ ->]; [done|]. apply tombstone_pulled. simpl. by rewrite <- Ho.
Qed.

Lemma sync_item_reached peer head item acc a s :
  rep a (store s) → item_typed item →
  wp e (sync_item status_text peer head item acc)
    (λ _, reached (pulled (key_of (th_topic head) (th_origin head))) a s) s.
Proof.
  intros Hrep Hty. unfold sync_item. apply wp_bind, wp_of_result.
  destruct item as [r|x]; [|by apply (reached_refl _)].
  destruct (mr_message r) as [v|] eqn:Hv; [|apply wp_ret; by apply (reached_refl _)].
  destruct (Hty r v eq_refl Hv) as (Hh & Hc & Htr).
  apply wp_bind, wp_of_result.
  destruct (core_message v) as [m|x] eqn:Hm; simpl; [|by apply (reached_refl _)].
  apply core_message_iff in Hm as [-> Hw]. simpl in Hh, Hc, Htr.
  destruct (_ || _) eqn:Hmis; [apply wp_throw; by apply (reached_refl _)|].
  rewrite orb_false_iff, !negb_false_iff, !bool_decide_eq_true in Hmis. destruct Hmis as [Ht Ho].
  assert (msg_key m = key_of (th_topic head) (th_origin head)) as Hk by (by rewrite <- Ht, <- Ho).
  apply (wp_reached_bind _). apply (wp_db_call (OpPutReplicated m) _ a); [done|done| |].
  2: { intros x db' Hrep' _. split; [by exists a | done]. }
  intros x a' db' Hs Hrep'. split.
  { exists a'. split; [done|]. split; [|done]. rewrite <- Hk. change a' with (Ok x : Result ReplicateResult, a').2.
    rewrite Hs. apply put_replicated_pulled; [by eapply rep_wf|done]. }
  clear a' Hs Hrep'. intros a1 Hrep1.
  assert (NodeId.key (sm_origin m) = (key_of (th_topic head) (th_origin head)).2) as Hk2 by (simpl; by rewrite <- Ho).
  apply (wp_reached_bind _). destruct x.
  - apply wp_bind. eapply wp_mono; [by apply (apply_control_reached m (key_of (th_topic head) (th_origin head)) a1)|].
    intros [[]|x] s1 Hr; [|done]. unfold publish_replicated. apply wp_modify. split.
    { destruct Hr as (a2 & ? & ? & ?). exists a2. split; [done|]. split; [done|]. simpl. by apply prefix_app_r. }
    intros a2 Hrep2. destruct acc. apply wp_ret. by apply (reached_refl _).
  - eapply wp_mono; [by apply (apply_control_reached m (key_of (th_topic head) (th_origin head)) a1)|]. intros [[]|x] s1 Hr; [|done]. split; [done|].
    intros a2 Hrep2. destruct acc. apply wp_ret. by apply (reached_refl _).
Qed.

(** A computation that keeps [R], then another. *)
Lemma reached_seq {A B} R `{!PreOrder R} a s (m : M string (MsgbusGrpcService DB) A)
    (f : A → M string (MsgbusGrpcService DB) B) :
  wp e m (λ _, reached R a s) s →
  (∀ x a' s', rep a' (store s') → wp e (f x) (λ _, reached R a' s') s') →
  wp e (m ≫= f) (λ _, reached R a s) s.
Proof.
  intros Hm Hf. apply (wp_reached_bind R). eapply wp_mono; [exact Hm|].
  intros [x|x] s' Hr; (split; [done|]); [|done]. intros a' Hrep. by apply Hf.
Qed.

Lemma now_ms_reached R `{!PreOrder R} a s :
  rep a (store s) → wp e (now_ms (E := string)) (λ _, reached R a s) s.
Proof. intros Hrep. apply wp_now_ms. intros n _. by apply (reached_refl R). Qed.

Lemma get_head_reached R `{!PreOrder R} t o a s :
  rep a (store s) → wp e (db_call (get_head t o)) (λ _, reached R a s) s.
Proof.
  intros Hrep. apply (wp_db_call (OpGetHead t o) _ a); [done|done| |].
  - intros x a' db' [_ ->] Hrep'. by exists a.
  - intros x db' Hrep' _. by exists a.
Qed.

(** Recording a sync state of a topic and origin, or of neither. *)
Lemma record_reached R `{!PreOrder R} st a s :
  (∀ k st a, R a (set_sync k st a)) → (is_Some (ps_topic st) ↔ is_Some (ps_origin st)) →
  rep a (store s) → wp e (db_call (record_peer_sync_state st)) (λ _, reached R a s) s.
Proof.
  intros HR Hst Hrep. apply (wp_db_call (OpRecord st) _ a); [done|done| |].
  - intros x a' db' [_ ->] Hrep'. by eexists.
  - intros x db' Hrep' _. by exists a.
Qed.

Lemma success_reached R `{!PreOrder R} peer t o l r n a s :
  (∀ k st a, R a (set_sync k st a)) → (is_Some t ↔ is_Some o) →
  rep a (store s) → wp e (record_peer_sync_success peer t o l r n) (λ _, reached R a s) s.
Proof.
  intros HR Hto Hrep. unfold record_peer_sync_success.
  apply (reached_seq R); [by apply (now_ms_reached _)|]. intros c a1 s1 Hrep1.
  apply (reached_seq R); [by apply (now_ms_reached _)|]. intros d a2 s2 Hrep2.
  by apply (record_reached _).
Qed.

Lemma failure_reached R `{!PreOrder R} peer t o l r x a s :
  (∀ k st a, R a (set_sync k st a)) → (is_Some t ↔ is_Some o) →
  rep a (store s) → wp e (record_peer_sync_failure peer t o l r x) (λ _, reached R a s) s.
Proof.
  intros HR Hto Hrep. unfold record_peer_sync_failure.
  apply (reached_seq R); [by apply (now_ms_reached _)|]. intros c a1 s1 Hrep1.
  by apply (record_reached _).
Qed.

Definition stream_typed (stream : Stream (result string MessageResponse)) : Prop :=
  match stream with
  | Ends items => Forall item_typed items
  | Endless item => ∀ i, item_typed (item i)
  end.

Definition client_typed (client : PeerClient) : Prop :=
  ∀ t req stream, rpc_fetch client t req = Ok stream → stream_typed stream.

Lemma sync_items_reached peer head items acc a s :
  rep a (store s) → Forall item_typed items →
  wp e (for_each items (sync_item status_text peer head) acc)
    (λ _, reached (pulled (key_of (th_topic head) (th_origin head))) a s) s.
Proof.
  intros Hrep Hty. revert acc a s Hrep.
  induction Hty as [|item items Hitem _ IH]; intros acc a s Hrep; cbn [for_each].
  { apply wp_ret. by apply (reached_refl _). }
  apply (reached_seq _); [by apply sync_item_reached|]. intros [acc'|acc'] a1 s1 Hrep1; [by apply IH|].
  apply wp_ret. by apply (reached_refl _).
Qed.

Lemma sync_stream_reached fuel peer head stream acc a s :
  rep a (store s) → stream_typed stream →
  wp e (for_stream fuel stream (sync_item status_text peer head) acc)
    (λ _, reached (pulled (key_of (th_topic head) (th_origin head))) a s) s.
Proof.
  intros Hrep Hty. destruct stream as [items|item]; cbn [for_stream];
    (apply (reached_seq _); [|intros; apply wp_ret; by apply (reached_refl _)]);
    apply sync_items_reached; try done.
  apply Forall_fmap, Forall_forall. intros i _. apply Hty.
Qed.

Lemma sync_loop_reached fuel client peer head limit local a s :
  client_typed client → rep a (store s) →
  wp e (sync_loop status_text fuel client peer head limit local)
    (λ _, reached (pulled (key_of (th_topic head) (th_origin head))) a s) s.
Proof.
  intros Hc. revert local a s. induction fuel as [|fuel IH]; intros local a s Hrep; cbn [sync_loop];
    destruct (local <? th_head_id head)%N; try (apply wp_ret; by apply (reached_refl _)).
  apply wp_bind, wp_rpc. intros t. destruct (rpc_fetch client t _) as [items|x] eqn:Hf;
    [|by apply (reached_refl _)].
  apply (reached_seq _); [apply sync_stream_reached; [done | by eapply Hc]|].
  intros [[local' fetched]|] a1 s1 Hrep1; [|apply wp_ret; by apply (reached_refl _)]. apply (reached_seq _).
  - apply (success_reached _); [intros; apply record_pulled | by split; eauto | done].
  - intros _ a2 s2 Hrep2. destruct (_ || _); [apply wp_ret; by apply (reached_refl _)|by apply IH].
Qed.

Lemma sync_head_reached fuel client peer head limit a s :
  client_typed client → rep a (store s) →
  wp e (sync_head status_text fuel client peer head limit)
    (λ _, reached (pulled (key_of (th_topic head) (th_origin head))) a s) s.
Proof.
  intros Hc Hrep. unfold sync_head. apply (reached_seq _); [by apply (get_head_reached _)|].
  intros h a1 s1 Hrep1. apply (reached_seq _); [by apply sync_loop_reached|].
  intros [local|] a2 s2 Hrep2; [|apply wp_ret; by apply (reached_refl _)].
  apply (reached_seq _); [|intros _ a3 s3 Hrep3; apply wp_ret; by apply (reached_refl _)].
  destruct (_ <=? _)%N; [|apply wp_ret; by apply (reached_refl _)].
  apply (success_reached _); [intros; apply record_pulled | by split; eauto | done].
Qed.

(** What a whole pass may change. *)
Definition grown a a' : Prop :=
  store_le a a' ∧ a_queues a' = a_queues a ∧ a_seqs a' = a_seqs a ∧
  (markers_typed a → markers_typed a').

#[export] Instance grown_preorder : PreOrder grown.
Proof.
  split; [done|]. intros a1 a2 a3 (L1 & Q1 & S1 & Y1) (L2 & Q2 & S2 & Y2).
  split; [by etrans|]. split; [congruence|]. split; [congruence|auto].
Qed.

Lemma record_grown k st a : grown a (set_sync k st a).
Proof. done. Qed.

Lemma pulled_grown k a a' : pulled k a a' → grown a a'.
Proof. intros [? _ _ [? ?] ?]. done. Qed.

(** The outcome of the identity check, and that it changes nothing. *)
Lemma verify_unchanged client node peer s (Q : result string unit → MsgbusGrpcService DB → Prop) :
  (∀ t, (∀ n, rpc_health client t = Ok (Some (proto_node n)) → wire_node n → n ≠ node →
           (∀ x, expected_node peer = Some x → n = x) → Q (Ok tt) s)) →
  (∀ x, Q (Err x) s) →
  wp e (verify_peer_identity status_text client node peer) Q s.
Proof.
  intros Hok Herr. unfold verify_peer_identity. apply wp_bind, wp_rpc. intros t.
  destruct (rpc_health client t) as [o|x] eqn:Hh; [|apply Herr].
  apply wp_bind, wp_of_result. destruct o as [p|]; [|by apply wp_bind, wp_of_result, Herr].
  simpl. destruct (core_node p) as [n|x] eqn:Hn; simpl; [|apply Herr].
  apply core_node_ok in Hn as [-> Hw]. apply wp_bind, wp_of_result. simpl.
  case_bool_decide; [apply wp_throw, Herr|].
  destruct (expected_node peer) as [x|] eqn:Hx; [|by apply wp_ret; eapply Hok].
  case_bool_decide as Hne; simpl; [|apply wp_throw, Herr].
  apply wp_ret. eapply Hok; [done..|]. intros y [= <-]. done.
Qed.

Lemma sync_heads_reached fuel client peer limit heads a s :
  client_typed client → rep a (store s) →
  wp e (sync_heads status_text fuel client peer limit heads) (λ _, reached grown a s) s.
Proof.
  intros Hc. revert a s. induction heads as [|h heads IH]; intros a s Hrep; cbn [sync_heads].
  { apply wp_ret. by apply (reached_refl _). }
  apply wp_bind, wp_of_result. destruct (map_err status_text (core_topic_head h)) as [head|x];
    [|by apply (reached_refl _)].
  apply (reached_seq _).
  { apply wp_try. eapply wp_mono; [by apply sync_head_reached|]. intros r s'. simpl.
    apply reached_weaken. intros ??. apply pulled_grown. }
  intros [[[]|]|x] a1 s1 Hrep1; [by apply IH|apply wp_ret; by apply (reached_refl _)|].
  apply (reached_seq _); [by apply (get_head_reached _)|]. intros o a2 s2 Hrep2.
  apply (reached_seq _).
  - apply (failure_reached _); [intros; apply record_grown | by split; eauto | done].
  - intros _ a3 s3 Hrep3. apply wp_throw. by apply (reached_refl _).
Qed.

Definition net_typed (net : Transport) : Prop :=
  ∀ t ep c, connect net t ep = Ok c → client_typed c.

Lemma sync_peer_reached net fuel node peer limit tls a s :
  net_typed net → rep a (store s) →
  wp e (sync_peer status_text net fuel node peer limit tls) (λ _, reached grown a s) s.
Proof.
  intros Hnet Hrep. unfold sync_peer.
  apply wp_bind, connect_peer_client; [|intros; by apply (reached_refl _)].
  intros t. destruct (connect net t (endpoint peer)) as [c|x] eqn:Hc; [|by apply (reached_refl _)].
  apply wp_bind, verify_unchanged; [|intros; by apply (reached_refl _)]. intros _ n _ _ _ _.
  apply wp_bind, wp_rpc. intros t'. destruct (rpc_list_heads c t') as [hs|x]; [|by apply (reached_refl _)].
  apply (reached_seq _); [apply sync_heads_reached; [by eapply Hnet | done]|].
  intros [[]|] a1 s1 Hrep1; [|apply wp_ret; by apply (reached_refl _)].
  apply (reached_seq _).
  - apply (success_reached _); [intros; apply record_grown | by split; intros [??] | done].
  - intros _ a2 s2 Hrep2. apply wp_ret. by apply (reached_refl _).
Qed.

Lemma sync_peers_reached net fuel config ps first a s :
  net_typed net → rep a (store s) →
  wp e (sync_peers status_text net fuel config ps first) (λ _, reached grown a s) s.
Proof.
  intros Hnet. revert first a s. induction ps as [|peer ps IH]; intros first a s Hrep; cbn [sync_peers].
  { apply wp_ret. by apply (reached_refl _). }
  apply (reached_seq _); [by apply wp_try, sync_peer_reached|].
  intros [[[]|]|x] a1 s1 Hrep1; [by apply IH|apply wp_ret; by apply (reached_refl _)|].
  apply (reached_seq _); [|intros r a2 s2 Hrep2; by apply IH].
  apply wp_try, (failure_reached _); [intros; apply record_grown | by split; intros [??] | done].
Qed.
End safety.
