(* ===== verification/Converge.v ===== *)
(** * Converge: pulling from a peer that serves its log

    When a peer serves a log page by page as the [fetch] handler does, a pull of
    that log ends with the peer's entries appended to the local log, announced
    on the channel in order, and the position recorded. *)

From Stdlib Require Import Ascii String NArith ZArith Lia.
From stdpp Require Import base strings list gmap.
From S2P Require Import Prelude Strings Core Json Spec History Proto Server ServerProps Replay Sync SyncProps.

(** ** The peer's log *)

(** A log of the topic and origin of [head], as it can travel. *)
Record remote_log (head : TopicHead) (l : list StoredMessage) : Prop := {
  rl_number : ∀ i m, l !! i = Some m → sm_head_id m = N.of_nat (S i);
  rl_topic : Forall (λ m, sm_topic m = th_topic head ∧ sm_origin m = th_origin head) l;
  rl_wire : Forall wire_message l;
  rl_time : Forall (λ m, is_u64 (sm_created_at_ms m)) l;
  rl_head : th_head_id head = log_head l;
  rl_u64 : is_u64 (log_head l);
}.

Definition page_response (m : StoredMessage) : result string MessageResponse :=
  Ok (mkMessageResponse (Some (proto_message m))).

(** The peer answers [fetch] with the page of its log the request names. *)
Definition serves (client : PeerClient) (head : TopicHead) (l : list StoredMessage) : Prop :=
  ∀ t req, fr_topic req = topic_str (th_topic head) →
    fr_origin req = Some (proto_node (th_origin head)) → (1 ≤ fr_from_head_id req)%N →
    (fr_from_head_id req ≤ log_head l)%N → is_u32 (fr_limit req) →
    rpc_fetch client t req =
      Ok (Ends (page_response <$> take (page_limit (fr_limit req))
                                    (drop (N.to_nat (fr_from_head_id req) - 1) l))).

Section converge.
Context {DB : Type} {ST : MsgbusStore DB} {JT : Json TombstoneRange} {SR : StoreRefinement DB}.
Context (status_text : Status → string) (e : Env).
Context (Hnf : no_faults e).

Implicit Types (a : AbsStore) (s : MsgbusGrpcService DB).

(** Without a fault, and short of the store's limits, a call answers as specified. *)
Lemma wp_db_ok {A} (op : StoreOp A) (Q : result string A → MsgbusGrpcService DB → Prop) a s :
  op_typed op → ¬ limited e A op a → rep a (store s) →
  (∀ r a' db', spec_op e op a r a' → rep a' db' →
     Q (map_err error_to_string r) (mkService db' (published s))) →
  wp e (db_call (run_op op)) Q s.
Proof.
  intros Hty Hlim Hrep HQ. apply (wp_db_call e op _ a); [done|done| |].
  - intros x a' db' Hs Hrep'. by apply (HQ (Ok x) a').
  - intros x db' Hrep' [Hf|[Hl|Hs]]; [by destruct (no_faults_has_fault e)|done|].
    by apply (HQ (Err x) a).
Qed.

(** Replicating the entry just past the end appends it. *)
Lemma put_next m a :
  wf a → sm_head_id m = (log_head (log_of a (msg_key m)) + 1)%N → is_u64 (sm_head_id m) →
  put_replicated_spec m a =
    (Ok Inserted, set_log (msg_key m) (log_of a (msg_key m) ++ [mark a m]) a).
Proof.
  intros Hwf Hh Hu. unfold put_replicated_spec.
  destruct (N.eqb_spec (sm_head_id m) 0); [lia|].
  rewrite (proj2 (lookup_ge_None _ _)) by (unfold log_head in Hh; lia).
  rewrite u64_saturating_succ by (unfold is_u64 in Hu; lia). rewrite <- Hh, N.ltb_irrefl.
  by rewrite Hh, log_put_snoc.
Qed.

Section pull.
Context (peer : PeerSpec) (head : TopicHead) (l : list StoredMessage).
Context (Hl : remote_log head l) (Happ : topic_str (th_topic head) ≠ DELETE_TOPIC).

Let k := key_of (th_topic head) (th_origin head).

(** After pulling [ms] onto [a]: the log is longer, all else is as before. *)
Record caught_up (ms : list StoredMessage) a a' : Prop := {
  pl_log : log_of a' k = log_of a k ++ (mark a <$> ms);
  pl_logs : ∀ k', k' ≠ k → log_of a' k' = log_of a k';
  pl_tombs : ∀ k', tombs_of a' k' = tombs_of a k';
}.

Definition extended (ms : list StoredMessage) a s s' : Prop :=
  published s' = published s ++ ms ∧ ∃ a', rep a' (store s') ∧ caught_up ms a a'.

Lemma caught_up_mark ms a a' m : caught_up ms a a' → mark a' m = mark a m.
Proof. intros [_ _ Ht]. unfold mark. by rewrite Ht. Qed.

Lemma caught_up_nil a a' :
  (∀ k', log_of a' k' = log_of a k') → (∀ k', tombs_of a' k' = tombs_of a k') → caught_up [] a a'.
Proof. intros Hl0 Ht. split; [by rewrite Hl0, app_nil_r | by intros | done]. Qed.

Lemma caught_up_app ms1 ms2 a a1 a2 : caught_up ms1 a a1 → caught_up ms2 a1 a2 → caught_up (ms1 ++ ms2) a a2.
Proof.
  intros H1 H2. split.
  - rewrite (pl_log _ _ _ H2), (pl_log _ _ _ H1), fmap_app, app_assoc. f_equal.
    apply list_fmap_ext. intros i m _. by eapply caught_up_mark.
  - intros k' Hk. by rewrite (pl_logs _ _ _ H2), (pl_logs _ _ _ H1).
  - intros k'. by rewrite (pl_tombs _ _ _ H2), (pl_tombs _ _ _ H1).
Qed.

Lemma caught_up_length ms a a' : caught_up ms a a' → length (log_of a' k) = (length (log_of a k) + length ms)%nat.
Proof. intros [-> _ _]. by rewrite length_app, length_fmap. Qed.

(** The store calls a pull makes in a state. *)
Inductive pull_call a : ∀ A, StoreOp A → Prop :=
| PullHead : pull_call a _ (OpGetHead (th_topic head) (th_origin head))
| PullPut m : l !! length (log_of a k) = Some m → pull_call a _ (OpPutReplicated m)
| PullRecord st : pull_call a _ (OpRecord st).

(** None of them meets a limit, from [a] on. *)
Definition roomy a : Prop :=
  ∀ A op a' n, caught_up (take n (drop (length (log_of a k)) l)) a a' → pull_call a' A op →
    ¬ limited e A op a'.

Lemma roomy_now a A op : roomy a → pull_call a A op → ¬ limited e A op a.
Proof. intros H. apply (H A op a 0%nat). by apply caught_up_nil. Qed.

Lemma roomy_caught_up ms rest a a1 :
  drop (length (log_of a k)) l = ms ++ rest → caught_up ms a a1 → roomy a → roomy a1.
Proof.
  intros Hd Hp Hr A op a' n Hp' Hcall. apply (Hr A op a' (length ms + n)%nat); [|done].
  rewrite (caught_up_length _ _ _ Hp), <- drop_drop, Hd, drop_app_length in Hp'.
  rewrite Hd, take_app_add. by eapply caught_up_app.
Qed.

Lemma remote_entry i m :
  l !! i = Some m →
  msg_key m = k ∧ sm_topic m = th_topic head ∧ sm_origin m = th_origin head ∧
  sm_head_id m = N.of_nat (S i) ∧ is_u64 (sm_head_id m) ∧ is_u64 (sm_created_at_ms m) ∧ wire_message m.
Proof.
  intros Hi. pose proof (rl_number _ _ Hl _ _ Hi) as Hh. pose proof (lookup_lt_Some _ _ _ Hi).
  pose proof (Forall_lookup_1 _ _ _ _ (rl_topic _ _ Hl) Hi) as [Ht Ho].
  pose proof (Forall_lookup_1 _ _ _ _ (rl_wire _ _ Hl) Hi).
  pose proof (Forall_lookup_1 _ _ _ _ (rl_time _ _ Hl) Hi).
  pose proof (rl_u64 _ _ Hl) as Hu. unfold is_u64, log_head in *.
  unfold msg_key. rewrite Ht, Ho. do 6 (split; [done || lia|]). done.
Qed.

Lemma sync_item_next m rest a s n f :
  rep a (store s) → roomy a → drop (length (log_of a k)) l = m :: rest → n = log_head (log_of a k) →
  wp e (sync_item status_text peer head (page_response m) (n, f))
    (λ r s', r = Ok (Continue ((n + 1)%N, u32_saturating_add f 1)) ∧ extended [m] a s s') s.
Proof.
  intros Hrep Hroom Hdrop ->. pose proof (rep_wf _ _ Hrep) as Hwf.
  assert (l !! length (log_of a k) = Some m) as Hi.
  { rewrite <- (Nat.add_0_r (length _)), <- lookup_drop, Hdrop. done. }
  destruct (remote_entry _ _ Hi) as (Hk & Ht & Ho & Hh & Hu & Hc & Hw).
  unfold sync_item, page_response. apply wp_bind, wp_of_result. cbn [mr_message].
  apply wp_bind, wp_of_result. rewrite (proj2 (core_message_iff _ _) (conj eq_refl Hw)). cbn [map_err].
  rewrite !bool_decide_true by done. cbn [negb orb].
  assert (sm_head_id m = (log_head (log_of a (msg_key m)) + 1)%N) as Hnext.
  { rewrite Hk, Hh. unfold log_head. lia. }
  apply wp_bind, (wp_db_ok (OpPutReplicated m) _ a); [done|by apply roomy_now; [|constructor]|done|].
  cbn [spec_op]. intros r a' db' Hs Hrep'. rewrite put_next in Hs by done. injection Hs as -> ->.
  cbn [map_err]. rewrite Hk in Hrep'.
  apply wp_bind, wp_bind. unfold apply_control, apply_control_message. apply wp_map_err, wp_zoom.
  rewrite bool_decide_false by (by rewrite Ht). apply wp_ret. cbn [map_err].
  apply wp_modify. apply wp_ret. split.
  { do 2 f_equal. f_equal. rewrite Hnext, Hk. lia. }
  split; [done|]. eexists. split; [exact Hrep'|]. split; [| |done].
  - by rewrite log_of_set_log, decide_True.
  - intros k' Hk'. by rewrite log_of_set_log, decide_False.
Qed.

Lemma extended_app ms1 ms2 a a1 s s1 s2 :
  published s1 = published s ++ ms1 → caught_up ms1 a a1 →
  extended ms2 a1 s1 s2 → extended (ms1 ++ ms2) a s s2.
Proof.
  intros Hpub Hp [Hpub2 (a2 & Hrep2 & Hp2)]. split; [by rewrite Hpub2, Hpub, app_assoc|].
  exists a2. split; [done|]. by eapply caught_up_app.
Qed.

Definition fetched_after (f : N) (ms : list StoredMessage) : N :=
  fold_left (λ f _, u32_saturating_add f 1) ms f.

Lemma sync_page ms rest a s n f :
  rep a (store s) → roomy a → drop (length (log_of a k)) l = ms ++ rest → n = log_head (log_of a k) →
  wp e (for_each (page_response <$> ms) (sync_item status_text peer head) (n, f))
    (λ r s', r = Ok ((n + N.of_nat (length ms))%N, fetched_after f ms) ∧ extended ms a s s') s.
Proof.
  revert a s n f. induction ms as [|m ms IH]; intros a s n f Hrep Hroom Hdrop Hn.
  { cbn. apply wp_ret. rewrite N.add_0_r. split; [done|]. split; [by rewrite app_nil_r|].
    exists a. split; [done|]. by apply caught_up_nil. }
  rewrite fmap_cons. cbn [for_each]. apply wp_bind.
  eapply wp_mono; [by apply (sync_item_next m (ms ++ rest) a)|].
  intros r s1 (-> & Hpub1 & a1 & Hrep1 & Hp1). pose proof (caught_up_length _ _ _ Hp1) as Hlen.
  eapply wp_mono; [apply (IH a1 s1); [done| | |]|].
  - by eapply (roomy_caught_up [m] (ms ++ rest)).
  - by rewrite Hlen, <- drop_drop, Hdrop.
  - rewrite Hn. unfold log_head. rewrite Hlen. simpl. lia.
  - intros r s2 [-> Hex]. split; [simpl; do 2 f_equal; lia|]. by apply (extended_app [m] ms a a1 s s1).
Qed.

Lemma fetched_after_nonzero m ms f : fetched_after f (m :: ms) ≠ 0%N.
Proof.
  unfold fetched_after. simpl.
  assert (0 < u32_saturating_add f 1)%N as Hpos by (unfold u32_saturating_add, u32_max; lia).
  revert Hpos. generalize (u32_saturating_add f 1).
  induction ms as [|x ms IH]; intros g Hg; simpl; [lia|]. apply IH. unfold u32_saturating_add, u32_max. lia.
Qed.

(** Recording a success. *)
Definition recorded (t : option Topic) (o : option NodeId) (local remote synced : N) a' : Prop :=
  ∃ st, a_sync a' !! (endpoint peer, topic_str <$> t, NodeId.key <$> o) = Some st ∧
    ps_local_head st = local ∧ ps_remote_head st = remote ∧ ps_last_synced_head st = synced ∧
    ps_consecutive_failures st = 0%N ∧ ps_last_error st = None.

Lemma success_ok t o local remote synced a s :
  rep a (store s) → roomy a → (is_Some t ↔ is_Some o) →
  wp e (record_peer_sync_success peer t o local remote synced) (λ r s', r = Ok tt ∧
    published s' = published s ∧
    ∃ a', rep a' (store s') ∧ (∀ k, log_of a' k = log_of a k) ∧ (∀ k, tombs_of a' k = tombs_of a k) ∧
      recorded t o local remote synced a') s.
Proof.
  intros Hrep Hroom Hto. unfold record_peer_sync_success.
  apply wp_bind, wp_now_ms. intros c _. apply wp_bind, wp_now_ms. intros d _.
  apply (wp_db_ok (OpRecord _) _ a); [done|by apply roomy_now; [|constructor]|done|]. intros r a' db' [-> ->] Hrep'.
  split; [done|]. split; [done|]. eexists. split; [exact Hrep'|]. split; [done|]. split; [done|].
  eexists. split; [apply lookup_insert_eq|]. done.
Qed.

Context (client : PeerClient) (Hserves : serves client head l).

Lemma sync_loop_ok fuel limit a s :
  rep a (store s) → roomy a → (length (log_of a k) ≤ length l)%nat →
  (length l ≤ fuel + length (log_of a k))%nat → is_u32 limit →
  wp e (sync_loop status_text fuel client peer head limit (log_head (log_of a k)))
    (λ r s', r = Ok (Some (log_head l)) ∧ extended (drop (length (log_of a k)) l) a s s') s.
Proof.
  revert a s. induction fuel as [|fuel IH]; intros a s Hrep Hroom Hle Hfuel Hlimit; cbn [sync_loop];
    rewrite (rl_head _ _ Hl); destruct (N.ltb_spec (log_head (log_of a k)) (log_head l)) as [Hlt|Hge];
    try (unfold log_head in *; lia);
    try (apply wp_ret; split; [do 2 f_equal; unfold log_head in *; lia|];
         rewrite drop_ge by (unfold log_head in *; lia); split; [by rewrite app_nil_r|];
         exists a; split; [done|by apply caught_up_nil]).
  apply wp_bind, wp_rpc. intros t. rewrite Hserves; [|done|done| | |].
  2: { cbn [fr_from_head_id]. unfold u64_saturating_add, u64_max. lia. }
  2: { cbn [fr_from_head_id]. unfold u64_saturating_add. lia. }
  2: { cbn [fr_limit]. unfold is_u32, u32_max in *. lia. }
  cbn [fr_limit fr_from_head_id]. pose proof (rl_u64 _ _ Hl) as Hu. unfold is_u64 in Hu.
  rewrite u64_saturating_succ by lia.
  replace (N.to_nat (log_head (log_of a k) + 1) - 1)%nat with (length (log_of a k))
    by (unfold log_head; lia).
  set (rest := drop (length (log_of a k)) l). set (page := take _ rest).
  pose proof (page_split (N.max limit 1) rest : rest = page ++ drop (length page) rest) as Hsplit.
  assert (0 < length page ≤ length l - length (log_of a k))%nat as Hpos.
  { unfold page, rest. rewrite length_take, length_drop. pose proof (page_limit_pos (N.max limit 1)).
    unfold log_head in Hlt. lia. }
  cbn [for_stream]. apply wp_bind, wp_bind.
  eapply wp_mono; [by apply (sync_page page (drop (length page) rest) a)|].
  intros r s1 (-> & Hpub1 & a1 & Hrep1 & Hp1). apply wp_ret.
  assert (roomy a1) as Hroom1 by (by eapply roomy_caught_up).
  apply wp_bind. eapply wp_mono; [apply (success_ok _ _ _ _ _ a1); [done|done|by split; eauto]|].
  intros r s2 (-> & Hpub2 & a2 & Hrep2 & Hlog2 & Htomb2 & _).
  assert ((fetched_after 0 page =? 0)%N = false) as ->.
  { apply N.eqb_neq. destruct page; [simpl in Hpos; lia | apply fetched_after_nonzero]. }
  rewrite (proj2 (N.eqb_neq _ _)) by lia. cbn [orb].
  assert (caught_up page a a2) as Hp2.
  { rewrite <- (app_nil_r page). eapply caught_up_app; [exact Hp1|]. by apply caught_up_nil. }
  pose proof (caught_up_length _ _ _ Hp2) as Hlen.
  replace (log_head (log_of a k) + N.of_nat (length page))%N with (log_head (log_of a2 k))
    by (unfold log_head; lia).
  eapply wp_mono; [apply (IH a2 s2); [done|by eapply roomy_caught_up|lia|lia|done]|].
  intros r s3 [-> Hex]. split; [done|]. rewrite Hsplit.
  apply (extended_app page _ a a2 s s2); [by rewrite Hpub2|done|].
  unfold rest. by rewrite drop_drop, <- Hlen.
Qed.

Lemma sync_head_ok fuel limit a s :
  rep a (store s) → roomy a → (length (log_of a k) ≤ length l)%nat → (length l ≤ fuel)%nat →
  is_u32 limit →
  wp e (sync_head status_text fuel client peer head limit)
    (λ r s', let missing := drop (length (log_of a k)) l in
       r = Ok (Some tt) ∧ published s' = published s ++ missing ∧
       ∃ a', rep a' (store s') ∧ caught_up missing a a' ∧
         recorded (Some (th_topic head)) (Some (th_origin head)) (log_head l) (log_head l) (log_head l) a') s.
Proof.
  intros Hrep Hroom Hle Hfuel Hlimit. unfold sync_head.
  apply wp_bind, (wp_db_ok (OpGetHead (th_topic head) (th_origin head)) _ a);
    [done|by apply roomy_now; [|constructor]|done|].
  intros r a' db' [-> ->] Hrep'. cbn [map_err].
  assert (default 0%N (head_spec (th_topic head) (th_origin head) a) = log_head (log_of a k)) as ->.
  { unfold head_spec. fold k. destruct (N.eqb_spec (log_head (log_of a k)) 0); simpl; lia. }
  apply wp_bind. eapply wp_mono; [apply (sync_loop_ok fuel limit a); [done|done|done|lia|done]|].
  intros r s1 (-> & Hpub1 & a1 & Hrep1 & Hp1). cbn iota.
  rewrite (rl_head _ _ Hl), (proj2 (N.leb_le _ _)) by lia.
  assert (roomy a1) as Hroom1 by (eapply (roomy_caught_up _ []); [by rewrite app_nil_r|done..]).
  apply wp_bind. eapply wp_mono; [apply (success_ok _ _ _ _ _ a1); [done|done|by split; eauto]|].
  intros r s2 (-> & Hpub2 & a2 & Hrep2 & Hlog2 & Htomb2 & Hrec). apply wp_ret.
  split; [done|]. split; [by rewrite Hpub2|]. exists a2. split; [done|]. split; [|done].
  rewrite <- (app_nil_r (drop _ l)). eapply caught_up_app; [exact Hp1|]. by apply caught_up_nil.
Qed.
End pull.
End converge.

(** ** A control entry that cannot be applied *)

Section stuck.
Context {DB : Type} {ST : MsgbusStore DB} {JT : Json TombstoneRange} {SR : StoreRefinement DB}.
Context (status_text : Status → string) (e : Env) (Hnf : no_faults e).

Implicit Types (a : AbsStore) (s : MsgbusGrpcService DB).

(** Applying the marker [m] to a store in state [a] fails and changes nothing. *)
Definition refused (m : StoredMessage) a : Prop :=
  ∀ s, rep a (store s) → wp e (apply_control status_text m) (λ r s', is_ok r = false ∧
    published s' = published s ∧ rep a (store s')) s.

Lemma bad_marker_refused m a : control_message m → bad_marker m → refused m a.
Proof.
  intros [Ht Hty] [Hd Hbad] s Hrep. unfold apply_control. apply wp_map_err, wp_zoom.
  unfold apply_control_message. rewrite bool_decide_true by done. rewrite Hd. cbn [negb orb].
  apply wp_bind, wp_of_result. destruct (from_slice (sm_payload m)) as [tr|x] eqn:Htr; cbn [map_err]; [|done].
  destruct (Hty Hd tr eq_refl) as (Hnd & Hu1 & Hu2).
  case_bool_decide as Ho; cbn [negb]; [|by apply wp_throw].
  apply wp_bind, wp_map_err. eapply wp_mono; [by apply (store_refines _ (OpTombstone (tr_topic tr)
    (tr_origin tr) (tr_from_head_id tr) (tr_to_head_id tr)) e a)|].
  cbn [spec_op]. destruct (N.ltb_spec (tr_to_head_id tr) (tr_from_head_id tr)) as [Hlt|Hle].
  - intros [x|x] db'; [by intros (? & [? _] & _)|]. by intros [? _].
  - destruct Hbad. by exists tr.
Qed.

Context (client : PeerClient) (peer : PeerSpec) (head : TopicHead).
Let k := key_of (th_topic head) (th_origin head).

(** The peer's page from the number of [m] on starts with [m]. *)
Definition offers (m : StoredMessage) : Prop :=
  ∀ t req, fr_topic req = topic_str (th_topic head) → fr_origin req = Some (proto_node (th_origin head)) →
    fr_from_head_id req = sm_head_id m → is_u32 (fr_limit req) →
    ∃ rest, rpc_fetch client t req = Ok (Ends (page_response m :: rest)).

(** The next entry of the log [head], as it may travel. *)
Record next_entry a (m : StoredMessage) : Prop := {
  ne_topic : sm_topic m = th_topic head;
  ne_origin : sm_origin m = th_origin head;
  ne_wire : wire_message m;
  ne_time : is_u64 (sm_created_at_ms m);
  ne_number : sm_head_id m = (log_head (log_of a k) + 1)%N;
  ne_u64 : is_u64 (sm_head_id m);
}.

Lemma next_entry_key a m : next_entry a m → msg_key m = k.
Proof. intros [Ht Ho _ _ _ _]. unfold msg_key. by rewrite Ht, Ho. Qed.

(** [m] stored as the next entry. *)
Definition with_entry (m : StoredMessage) a : AbsStore := set_log k (log_of a k ++ [mark a m]) a.

(** The store call of a replicated message, and what is left of its item. *)
Lemma sync_item_stored m acc a s (Q : result string (flow (N * N)) → MsgbusGrpcService DB → Prop) :
  rep a (store s) → next_entry a m → ¬ limited e _ (OpPutReplicated m) a →
  (∀ db', rep (with_entry m a) db' →
     wp e (apply_control status_text m;; publish_replicated m) (λ r s', match r with
       | Ok _ => Q (Ok (Continue (N.max acc.1 (sm_head_id m), u32_saturating_add acc.2 1))) s'
       | Err x => Q (Err x) s'
       end) (mkService db' (published s))) →
  wp e (sync_item status_text peer head (page_response m) acc) Q s.
Proof.
  intros Hrep Hn Hlim HQ. pose proof (next_entry_key _ _ Hn) as Hk. destruct Hn as [Ht Ho Hw Hc Hh Hu].
  unfold sync_item, page_response. apply wp_bind, wp_of_result. cbn [mr_message].
  apply wp_bind, wp_of_result. rewrite (proj2 (core_message_iff _ _) (conj eq_refl Hw)). cbn [map_err].
  rewrite !bool_decide_true by done. cbn [negb orb].
  apply wp_bind, (wp_db_ok e Hnf (OpPutReplicated m) _ a); [done..|].
  cbn [spec_op]. intros r a' db' Hs Hrep'.
  rewrite put_next in Hs by (rewrite ?Hk; try done; by eapply rep_wf). injection Hs as -> ->.
  cbn [map_err]. rewrite Hk in Hrep'. apply wp_bind. eapply wp_mono; [by apply (HQ db' Hrep')|].
  intros [[]|x] s'; [|done]. destruct acc. by apply wp_ret.
Qed.

Lemma get_head_ok a s (Q : result string (option HeadId) → MsgbusGrpcService DB → Prop) :
  rep a (store s) → ¬ limited e _ (OpGetHead (th_topic head) (th_origin head)) a →
  (∀ h db', default 0%N h = log_head (log_of a k) → rep a db' → Q (Ok h) (mkService db' (published s))) →
  wp e (db_call (get_head (th_topic head) (th_origin head))) Q s.
Proof.
  intros Hrep Hlim HQ. apply (wp_db_ok e Hnf (OpGetHead (th_topic head) (th_origin head)) _ a); [done..|].
  intros r a' db' [-> ->] Hrep'. apply HQ; [|done]. unfold head_spec. fold k.
  destruct (N.eqb_spec (log_head (log_of a k)) 0); simpl; lia.
Qed.

(** The pull of a log whose next entry is refused ends with the entry stored. *)
Lemma pull_stuck fuel limit m a s :
  rep a (store s) → next_entry a m → (sm_head_id m ≤ th_head_id head)%N → offers m →
  ¬ limited e _ (OpGetHead (th_topic head) (th_origin head)) a →
  ¬ limited e _ (OpPutReplicated m) a → refused m (with_entry m a) → is_u32 limit →
  wp e (sync_head status_text (S fuel) client peer head limit) (λ r s', is_ok r = false ∧
    published s' = published s ∧ rep (with_entry m a) (store s')) s.
Proof.
  intros Hrep Hn Hle Hoff Hlim1 Hlim2 Href Hlimit. unfold sync_head.
  apply wp_bind, (get_head_ok a); [done..|]. intros h db1 Hh Hrep1.
  pose proof (ne_number _ _ Hn) as Hnum. pose proof (ne_u64 _ _ Hn) as Hu.
  apply wp_bind. cbn [sync_loop]. rewrite Hh, (proj2 (N.ltb_lt _ _)) by lia.
  apply wp_bind, wp_rpc. intros t. edestruct (Hoff t) as (rest & ->); [done|done| | |].
  { cbn [fr_from_head_id]. rewrite u64_saturating_succ; unfold is_u64 in *; lia. }
  { cbn [fr_limit]. unfold is_u32, u32_max in *. lia. }
  cbn [for_stream for_each]. apply wp_bind, wp_bind, wp_bind.
  apply (sync_item_stored m _ a); [done..|]. intros db2 Hrep2.
  apply wp_bind. eapply wp_mono; [by apply Href|]. intros [[]|x] s2 (Hx & Hp & Hrep3); done.
Qed.

(** Recording a success changes neither logs nor tombstones. *)
Lemma record_success_ok t o local remote synced a s :
  (∀ st, ¬ limited e _ (OpRecord st) a) → rep a (store s) → (is_Some t ↔ is_Some o) →
  wp e (record_peer_sync_success peer t o local remote synced) (λ r s', r = Ok tt ∧
    published s' = published s ∧ ∃ a', rep a' (store s') ∧ (∀ k, log_of a' k = log_of a k) ∧
      (∀ k, tombs_of a' k = tombs_of a k) ∧ recorded peer t o local remote synced a') s.
Proof.
  intros Hlim Hrep Hto. unfold record_peer_sync_success.
  apply wp_bind, wp_now_ms. intros c _. apply wp_bind, wp_now_ms. intros d _.
  apply (wp_db_ok e Hnf (OpRecord _) _ a); [done|apply Hlim|done|]. intros r a' db' [-> ->] Hrep'.
  split; [done|]. split; [done|]. eexists. split; [exact Hrep'|]. split; [done|]. split; [done|].
  eexists. split; [apply lookup_insert_eq|]. done.
Qed.

(** A pull that finds the log as long as announced fetches nothing. *)
Lemma pull_nothing fuel limit a s :
  rep a (store s) → (th_head_id head ≤ log_head (log_of a k))%N →
  ¬ limited e _ (OpGetHead (th_topic head) (th_origin head)) a → (∀ st, ¬ limited e _ (OpRecord st) a) →
  wp e (sync_head status_text fuel client peer head limit) (λ r s', r = Ok (Some tt) ∧
    published s' = published s ∧ ∃ a', rep a' (store s') ∧ (∀ k, log_of a' k = log_of a k) ∧
      (∀ k, tombs_of a' k = tombs_of a k)) s.
Proof.
  intros Hrep Hle Hlim1 Hlim2. unfold sync_head.
  apply wp_bind, (get_head_ok a); [done..|]. intros h db1 Hh Hrep1. apply wp_bind.
  assert (sync_loop (DB := DB) status_text fuel client peer head limit (default 0%N h)
    = mret (Some (default 0%N h))) as ->.
  { destruct fuel; cbn [sync_loop]; by rewrite (proj2 (N.ltb_ge _ _)) by lia. }
  apply wp_ret. rewrite (proj2 (N.leb_le _ _)) by lia. apply wp_bind.
  eapply wp_mono; [apply (record_success_ok _ _ _ _ _ a); [done|done|by split; eauto]|].
  intros r s2 (-> & Hp & a2 & Hrep2 & Hl2 & Ht2 & _). apply wp_ret. split; [done|]. split; [done|]. by exists a2.
Qed.
End stuck.

(** ** A peer that is a service of this program *)

Section service_peer.
Context {DB : Type} {ST : MsgbusStore DB} {JT : Json TombstoneRange} {SR : StoreRefinement DB}.
Context (status_text : Status → string).

Definition map_ok {E A B} (f : A → B) (r : result E A) : result E B :=
  match r with Ok a => Ok (f a) | Err x => Err x end.

(** What a client of the service [s] of [node] sees while its state is [s]. *)
Definition answer {A} (m : M Status (MsgbusGrpcService DB) A) (e : Env) (s : MsgbusGrpcService DB)
    (t : nat) : result string A :=
  map_err status_text (m e t s).1.1.

Definition service_client (node : NodeId) (e : Env) (s : MsgbusGrpcService DB) : PeerClient :=
  mkPeerClient
    (λ t, map_ok hr_node (answer (health node) e s t))
    (answer handle_list_heads e s)
    (λ t req, map_ok (λ l : list MessageResponse, Ends (Ok <$> l)) (answer (fetch node req) e s t)).

(** The pages of a log can be read without meeting a limit of the store. *)
Definition readable e b head : Prop :=
  ∀ from lim, (1 ≤ from ≤ log_head (log_of b (key_of (th_topic head) (th_origin head))))%N →
    ¬ limited e _ (OpFetch (mkFetchQuery (th_topic head) (th_origin head) from lim)) b.

Lemma service_serves node e s b head :
  no_faults e → readable e b head → rep b (store s) →
  valid_part (topic_str (th_topic head)) → NodeId_valid (th_origin head) →
  serves (service_client node e s) head (log_of b (key_of (th_topic head) (th_origin head))).
Proof.
  intros Hnf Hlim Hrep Ht Ho t req Htopic Horigin H1 Hu Hl. cbn [rpc_fetch service_client].
  assert (wp e (fetch node req) (λ r _, r = Ok ((λ m, mkMessageResponse (Some (proto_message m))) <$>
    take (page_limit (fr_limit req)) (drop (N.to_nat (fr_from_head_id req) - 1)
      (log_of b (key_of (th_topic head) (th_origin head)))))) s) as Hw.
  { unfold fetch. rewrite Htopic, Horigin. apply wp_bind, wp_of_result.
    rewrite (proj2 (Topic_new_ok _ _) (conj Ht eq_refl)). cbn [map_err].
    apply wp_bind, wp_of_result. unfold request_origin.
    rewrite (proj2 (core_node_ok _ _) (conj eq_refl (or_intror Ho))). cbn.
    assert (NodeId.is_empty (th_origin head) = false) as ->.
    { destruct Ho as (Hten & _). unfold NodeId.is_empty. by rewrite (valid_part_nonempty _ Hten). }
    rewrite N.max_l by lia. apply wp_bind.
    assert (is_u64 (fr_from_head_id req)) as Hu64.
    { pose proof (wf_len _ (rep_wf _ _ Hrep) (key_of (th_topic head) (th_origin head))) as Hw.
      unfold is_u64 in *. lia. }
    apply (wp_on_store e (OpFetch _) _ b); [done|done| |].
    - intros x a' db' [[= ->] ->] Hrep'. apply wp_ret.
      rewrite fetch_spec_page by (by eapply rep_wf). cbn. by destruct (th_topic head).
    - intros x db' _ [Hf|[Hb|[? _]]]; [by destruct (no_faults_has_fault e)| |done].
      destruct (Hlim (fr_from_head_id req) (fr_limit req)); [done|]. by destruct (th_topic head). }
  specialize (Hw t). unfold answer. destruct (fetch node req e t s) as [[r t'] s']. cbn in *. subst r.
  cbn. do 2 f_equal. rewrite <- list_fmap_compose. done.
Qed.
End service_peer.
