(* ===== verification/SyncClaims.v ===== *)
(** * SyncClaims: the properties of peer synchronisation

    Stated for any store that meets the contract and any transport, with
    witnesses that run two nodes over the redb backend. *)

From Stdlib Require Import Ascii String NArith ZArith Lia.
From stdpp Require Import base strings list gmap.
From S2P Require Import Prelude Strings Core Table RedbKeys Json Concrete Spec History RedbStore RedbRep RedbRefine Redb Proto Server ServerProps Replay ServerClaims Sync SyncProps Converge.

(** ** Samples: a transport that reaches one node *)

Definition status_text0 (x : Status) : string :=
  match x with
  | invalid_argument m | not_found m | failed_precondition m | internal m
  | permission_denied m | unavailable m => m
  end.

Definition silent_client : PeerClient :=
  mkPeerClient (λ _, Ok (Some (proto_node node_b))) (λ _, Ok []) (λ _ _, Ok (Ends [])).
Definition silent_net : Transport :=
  mkTransport (λ _, Ok tt) (λ _ _, Err "no file") (λ _ _ _, Ok tt) (λ _ _, Ok silent_client).

Definition peer_b : PeerSpec := mkPeerSpec "http://b" (Some node_b).
Definition config_a : PeerSyncConfig := mkPeerSyncConfig node_a [peer_b] 1000 1 None.
Definition head_b : TopicHead := mkTopicHead topic_events node_b 2.

Definition message_b : StoredMessage :=
  mkStoredMessage (mkMessageId "b1") topic_events node_b 1 [Byte.x02] ∅ 7 false.
Definition head_b1 : TopicHead := mkTopicHead topic_events node_b 1.
Definition remote_b : MsgbusGrpcService (RedbStore GTable) :=
  service_new (redb_put_replicated_message message_b env0 0 empty_db).2.

Lemma valid_events : valid_part (topic_str topic_events).
Proof. apply (validate_part_ok "topic"). reflexivity. Qed.

Lemma node_b_valid : NodeId_valid node_b.
Proof. apply validate_ok. reflexivity. Qed.

Lemma message_b_log :
  log_of (set_log (msg_key message_b) [message_b] abs_empty) (key_of topic_events node_b) = [message_b].
Proof. rewrite log_of_set_log. by rewrite decide_True. Qed.

Lemma message_b_remote : remote_log head_b1 [message_b].
Proof.
  split; [|by repeat constructor| |by repeat constructor|done|done].
  - intros [|i] m; [by intros [= <-]|done].
  - constructor; [|done]. split; [right; apply node_b_valid|]. split; [done|].
    split; [apply valid_events|]. apply (validate_part_ok "id"). reflexivity.
Qed.

(** A peer whose every stream gives one message and then breaks. *)
Definition chatty_client : PeerClient :=
  mkPeerClient (λ _, Ok (Some (proto_node node_b))) (λ _, Ok [proto_topic_head head_b1])
    (λ _ _, Ok (Ends [page_response message_b; Err "stream broken"])).
Definition chatty_net : Transport :=
  mkTransport (λ _, Ok tt) (λ _ _, Err "no file") (λ _ _ _, Ok tt) (λ _ _, Ok chatty_client).

Lemma chatty_typed : client_typed chatty_client.
Proof.
  intros t req stream [= <-]. constructor; [|by constructor]. intros r v [= <-] [= <-].
  split; [done|]. split; [done|]. intros tr Htr. discriminate Htr.
Qed.


(** C12: a synchronisation pass terminates when every stream its peers open
    ends, whatever the peers answer and even over a store that breaks its
    contract: each round of the pull loop raises the local head or ends the loop,
    so the fuel [u64::MAX] is never used up.  That the streams end is needed, see
    [PassClaims.sync_once_endless]. *)
Theorem sync_once_terminates {DB} `{!MsgbusStore DB, !Json TombstoneRange} status_text net e fuel config
    (s : MsgbusGrpcService DB) :
  heads_typed net → streams_of_net_end net → (N.to_nat u64_max ≤ fuel)%nat →
  wp e (sync_once status_text net fuel config) (λ r _, r ≠ Ok None) s.
Proof.
  intros Hnet Hends Hfuel. unfold sync_once. apply wp_bind.
  eapply wp_mono; [by apply sync_peers_terminates|].
  intros r s' [[x|] ->]; [by apply wp_throw | by apply wp_ret].
Qed.

Lemma chatty_heads_typed : heads_typed chatty_net.
Proof. intros t ep c t' hs [= <-] [= <-]. by repeat constructor. Qed.

Lemma chatty_streams_end : streams_of_net_end chatty_net.
Proof. intros t ep c [= <-] t' req stream [= <-]. by eexists. Qed.

Lemma sync_once_terminates_witness :
  wp env0 (sync_once status_text0 chatty_net (N.to_nat u64_max) config_a) (λ r _, r ≠ Ok None) service0.
Proof.
  apply sync_once_terminates; [apply chatty_heads_typed | apply chatty_streams_end | apply Nat.le_refl].
Defined.

(** C11: no peer can damage the store: whatever the peers of a pass send, and
    whatever fails, the pass leaves a well-formed store in which every log entry
    is still at its number with its content, deletions and tombstones have only
    been added and queues are unchanged; the channel is only extended. *)
Theorem sync_once_safe {DB} `{SR : StoreRefinement DB} status_text net e fuel config a
    (s : MsgbusGrpcService DB) :
  net_typed net → rep a (store s) →
  wp e (sync_once status_text net fuel config) (λ _ s', ∃ a', rep a' (store s') ∧ wf a' ∧
    store_le a a' ∧ a_queues a' = a_queues a ∧ a_seqs a' = a_seqs a ∧
    published s `prefix_of` published s') s.
Proof.
  intros Hnet Hrep.
  assert (∀ s', reached grown a s s' → ∃ a', rep a' (store s') ∧ wf a' ∧ store_le a a' ∧
    a_queues a' = a_queues a ∧ a_seqs a' = a_seqs a ∧ published s `prefix_of` published s') as Hend.
  { intros s' (a' & Hrep' & (Hle & Hq & Hs & _) & Hp). exists a'. split; [done|]. by split; [eapply rep_wf|]. }
  unfold sync_once. apply wp_bind. eapply wp_mono; [by apply (sync_peers_reached status_text e net)|].
  intros [[[x|]|]|x] s' Hr; [apply wp_throw|apply wp_ret|apply wp_ret|]; by apply Hend.
Qed.

Lemma chatty_net_typed : net_typed chatty_net.
Proof. intros t ep c [= <-]. apply chatty_typed. Qed.

Lemma sync_once_safe_witness :
  wp env0 (sync_once status_text0 chatty_net 1 config_a) (λ _ s', ∃ a',
    rep (StoreRefinement := redb_refinement) a' (store s') ∧ wf a' ∧ store_le abs_empty a' ∧
    a_queues a' = a_queues abs_empty ∧ a_seqs a' = a_seqs abs_empty ∧
    published service0 `prefix_of` published s') service0.
Proof.
  apply (sync_once_safe (SR := redb_refinement)); [apply chatty_net_typed | apply empty_rep].
Defined.

(** C13: a pull of one log stays inside its origin: whatever the peer sends for
    the log of a topic and origin, only that log grows, only logs of the same
    origin gain deletions, and every log and tombstone of any other origin is
    unchanged. *)
Theorem sync_head_scope {DB} `{SR : StoreRefinement DB} status_text e fuel client peer head limit a
    (s : MsgbusGrpcService DB) :
  client_typed client → rep a (store s) →
  wp e (sync_head status_text fuel client peer head limit) (λ _ s', ∃ a', rep a' (store s') ∧
    (∀ k, k.2 ≠ NodeId.key (th_origin head) → log_of a' k = log_of a k ∧ tombs_of a' k = tombs_of a k) ∧
    (∀ k, k ≠ key_of (th_topic head) (th_origin head) →
       log_head (log_of a' k) = log_head (log_of a k))) s.
Proof.
  intros Hc Hrep. eapply wp_mono; [by apply (sync_head_reached status_text e fuel client peer head limit a)|].
  intros r s' (a' & Hrep' & Hp & _). exists a'. split; [done|]. by destruct Hp.
Qed.

Lemma sync_head_scope_witness :
  wp env0 (sync_head status_text0 5 chatty_client peer_b head_b1 10) (λ _ s', ∃ a',
    rep (StoreRefinement := redb_refinement) a' (store s') ∧
    (∀ k, k.2 ≠ NodeId.key node_b → log_of a' k = log_of abs_empty k ∧
       tombs_of a' k = tombs_of abs_empty k) ∧
    (∀ k, k ≠ key_of topic_events node_b →
       log_head (log_of a' k) = log_head (log_of abs_empty k))) service0.
Proof.
  apply (sync_head_scope (SR := redb_refinement) status_text0 env0 5 chatty_client peer_b head_b1 10);
    [apply chatty_typed | apply empty_rep].
Defined.

(** Two nodes converge.  A node that pulls a log from a node serving it
    through its own [fetch] handler, over stores of any kind whose calls do not
    fail or meet a limit, ends the pull successfully with the remote entries it
    lacked appended to its own log, in order and with only their deletion flag
    raised where a local tombstone covers them; every other log and all
    tombstones stay as they were; it announces exactly those entries on its
    channel, in order, and records the remote head as synchronised.  Fuel for the
    length of the remote log is enough. *)
Theorem replicate_between_nodes {DB DB'} `{SR : StoreRefinement DB} `{!MsgbusStore DB'}
    {SR' : StoreRefinement DB'} status_text e e' fuel node' peer head limit a b
    (s : MsgbusGrpcService DB) (s' : MsgbusGrpcService DB') :
  let k := key_of (th_topic head) (th_origin head) in
  no_faults e → roomy (SR := SR) e head (log_of b k) a → rep a (store s) →
  no_faults e' → readable (SR := SR') e' b head → rep b (store s') →
  valid_part (topic_str (th_topic head)) → NodeId_valid (th_origin head) →
  topic_str (th_topic head) ≠ DELETE_TOPIC → remote_log head (log_of b k) →
  (length (log_of a k) ≤ length (log_of b k))%nat → (length (log_of b k) ≤ fuel)%nat → is_u32 limit →
  wp e (sync_head status_text fuel (service_client status_text node' e' s') peer head limit)
    (λ r s1, let missing := drop (length (log_of a k)) (log_of b k) in
       r = Ok (Some tt) ∧ published s1 = published s ++ missing ∧
       ∃ a', rep a' (store s1) ∧ caught_up head missing a a' ∧
         recorded peer (Some (th_topic head)) (Some (th_origin head)) (log_head (log_of b k))
           (log_head (log_of b k)) (log_head (log_of b k)) a') s.
Proof.
  intros k Hnf Hlim Hrep Hnf' Hlim' Hrep' Ht Ho Happ Hl Hle Hfuel Hlimit.
  apply (sync_head_ok status_text e Hnf peer head (log_of b k) Hl Happ); [|done..].
  by apply service_serves.
Qed.

Lemma replicate_between_nodes_witness :
  wp env0 (sync_head status_text0 1 (service_client status_text0 node_b env0 remote_b) peer_b head_b1 10)
    (λ r s1, r = Ok (Some tt) ∧ published s1 = published service0 ++ [message_b] ∧
       ∃ a', rep (StoreRefinement := redb_refinement) a' (store s1) ∧
         caught_up head_b1 [message_b] abs_empty a' ∧
         recorded peer_b (Some topic_events) (Some node_b) 1 1 1 a') service0.
Proof.
  pose proof (replicate_between_nodes (SR := redb_refinement) (SR' := redb_refinement) status_text0 env0
    env0 1 node_b peer_b head_b1 10 abs_empty (set_log (msg_key message_b) [message_b] abs_empty)
    service0 remote_b) as H.
  cbv zeta in H. cbn [th_topic th_origin head_b1] in H. rewrite message_b_log in H.
  apply H; [apply env0_no_faults | intros A op a' n _ _; apply redb_unlimited | apply empty_rep
    | apply env0_no_faults | intros from lim _; apply redb_unlimited | by apply put_first_rep | apply valid_events | apply node_b_valid | done
    | apply message_b_remote | apply Nat.le_0_l | apply Nat.le_refl | done].
Defined.

(** C29: a peer is only pulled from after its identity is checked: when the node
    it reports is missing, not valid, the local node itself or not the pinned
    one, [sync_peer] fails and neither the store nor the channel changes. *)
Theorem sync_peer_identity_gate {DB} `{!MsgbusStore DB, !Json TombstoneRange} status_text net e fuel
    node peer limit tls (s : MsgbusGrpcService DB) :
  (∀ t c, connect net t (endpoint peer) = Ok c → ∀ t' n,
     rpc_health c t' = Ok (Some (proto_node n)) → wire_node n →
     n = node ∨ ∃ x, expected_node peer = Some x ∧ n ≠ x) →
  wp e (sync_peer status_text net fuel node peer limit tls) (λ r s', is_ok r = false ∧ s' = s) s.
Proof.
  intros Hbad. unfold sync_peer. apply wp_bind, connect_peer_client; [|done].
  intros t. destruct (connect net t (endpoint peer)) as [c|x] eqn:Hc; [|done].
  apply wp_bind, verify_unchanged; [|done]. intros t' n Hn Hw Hne Hx. exfalso.
  destruct (Hbad t c Hc t' n Hn Hw) as [->|(x & Hxe & Hnx)]; [done|]. by apply Hnx, Hx.
Qed.

Lemma sync_peer_identity_gate_witness :
  wp env0 (sync_peer status_text0 silent_net 5 node_b peer_b 10 None)
    (λ r s', is_ok r = false ∧ s' = service0) service0.
Proof.
  apply sync_peer_identity_gate. intros t c [= <-] t' n Hn _. left.
  destruct n. by injection Hn as <- <- <-.
Defined.

(** C30: [PeerSpec::parse] cuts at the last equals sign: it yields an endpoint
    pinned to [n] exactly for a non-blank endpoint followed by an equals sign and
    the key of the valid, slash-free identity [n] without further equals signs,
    and an unpinned endpoint exactly for non-blank text without an equals sign. *)
Theorem peer_spec_parse v ep o :
  PeerSpec_parse v = Ok (mkPeerSpec ep o) ↔
  match o with
  | Some n => v = ep +:+ "=" +:+ NodeId.key n ∧ contains "=" (NodeId.key n) = false ∧
      NodeId_valid n ∧ slash_free n ∧ trim ep ≠ ""
  | None => v = ep ∧ contains "=" v = false ∧ trim v ≠ ""
  end.
Proof.
  unfold PeerSpec_parse. split.
  - destruct (is_empty (trim v)) eqn:Hv; [done|]. apply is_empty_false in Hv.
    destruct (rsplit_once "=" v) as [[l r]|] eqn:Hr.
    + apply rsplit_once_some in Hr as [-> Hr]. destruct (is_empty (trim l)) eqn:Hl; [done|].
      apply is_empty_false in Hl. intros (n & Hn & [= <- <-])%result_bind_ok.
      apply from_key_ok in Hn as (-> & ? & ?). done.
    + intros [= <- <-]. split; [done|]. split; [|done].
      by apply rsplit_once_none_inv.
  - destruct o as [n|].
    + intros (-> & Hc & Hv & Hs & Hep).
      assert (is_empty (trim (ep +:+ "=" +:+ NodeId.key n)) = false) as ->.
      { apply is_empty_false. rewrite trim_empty. intros Hall. apply Hep. apply trim_empty.
        change (ep +:+ "=" +:+ NodeId.key n) with (ep +:+ String "=" (NodeId.key n)) in Hall.
        rewrite chars_app in Hall by done. by apply Forall_app in Hall as [? _]. }
      change (ep +:+ "=" +:+ NodeId.key n) with (ep +:+ String "=" (NodeId.key n)).
      rewrite rsplit_once_app by done. rewrite (proj2 (is_empty_false _)) by done.
      by rewrite (proj2 (from_key_ok _ n)).
    + intros (-> & Hc & Hv). rewrite (proj2 (is_empty_false _)) by done. by rewrite rsplit_once_none.
Qed.

(** ** Two nodes, executed *)

(** A transport that reaches the service [s] of node [b]. *)
Definition net_to (s : MsgbusGrpcService (RedbStore GTable)) : Transport :=
  mkTransport (λ _, Ok tt) (λ _ _, Err "no file") (λ _ _ _, Ok tt)
    (λ _ _, Ok (service_client status_text0 node_b env0 s)).

(** C37: synchronisation stores a message under a known tombstone as deleted but
    announces it as received.  Over any store, when the next entry of an
    application log arrives from a peer as not deleted and its number is covered
    by a local tombstone, the entry is accepted and appended marked deleted, so
    every later read returns it deleted, while the message sent on the channel,
    and with it what live subscribers receive, is not. *)
Theorem sync_announces_unmarked {DB} `{SR : StoreRefinement DB} status_text e peer head m acc a
    (s : MsgbusGrpcService DB) :
  let k := key_of (th_topic head) (th_origin head) in
  no_faults e → rep a (store s) → next_entry head a m → topic_str (th_topic head) ≠ DELETE_TOPIC →
  sm_deleted m = false → covered (tombs_of a k) (sm_head_id m) = true →
  ¬ limited e _ (OpPutReplicated m) a →
  wp e (sync_item status_text peer head (page_response m) acc) (λ r s', is_ok r = true ∧
    ∃ a', rep a' (store s') ∧ log_of a' k = log_of a k ++ [set_deleted true m] ∧
      (∀ m', m' ∈ log_of a' k → sm_head_id m' = sm_head_id m → sm_deleted m' = true) ∧
      published s' = published s ++ [m] ∧ me_deleted (proto_message m) = false) s.
Proof.
  intros k Hnf Hrep Hn Happ Hlive Hcov Hlim. pose proof (next_entry_key _ _ _ Hn) as Hk. fold k in Hk.
  apply (sync_item_stored status_text e Hnf peer head m acc a); [done..|]. intros db' Hrep'.
  unfold apply_control, apply_control_message. apply wp_bind, wp_map_err, wp_zoom.
  rewrite bool_decide_false by (by rewrite (ne_topic _ _ _ Hn)). apply wp_ret. cbn [map_err].
  apply wp_modify. split; [done|]. eexists. split; [exact Hrep'|].
  assert (log_of (with_entry head m a) k = log_of a k ++ [set_deleted true m]) as Hl.
  { unfold with_entry. rewrite log_of_set_log, decide_True by done. do 2 f_equal. unfold mark.
    by rewrite Hk, Hcov. }
  split; [done|]. split; [|done]. rewrite Hl. intros m' [Hm'|Hm']%elem_of_app Hid.
  - exfalso. apply list_elem_of_lookup in Hm' as (i & Hi). pose proof (lookup_lt_Some _ _ _ Hi) as Hlt.
    apply (wf_entry _ (rep_wf _ _ Hrep)) in Hi as [Hi _]. pose proof (ne_number _ _ _ Hn) as Hnum.
    unfold log_head in Hnum. fold k in Hnum. lia.
  - by apply list_elem_of_singleton in Hm' as ->.
Qed.

(** The local store knows that entries 1 to 5 of [b]'s log are deleted. *)
Definition local_tombstoned : MsgbusGrpcService (RedbStore GTable) :=
  service_new (redb_tombstone_range topic_events node_b 1 5 env0 0 empty_db).2.
Definition abs_tombstoned : AbsStore := (tombstone_spec (key_of topic_events node_b) 1 5 abs_empty).2.

Lemma local_tombstoned_rep : redb_db_rep abs_tombstoned (store local_tombstoned).
Proof.
  pose proof (redb_answers (T := GTable) (OpTombstone topic_events node_b 1 5) env0 _ empty_db
    env0_no_faults ltac:(done) empty_rep 0) as H. cbn [run_op] in H.
  change (tombstone_range topic_events node_b 1 5)
    with (redb_tombstone_range (T := GTable) topic_events node_b 1 5) in H.
  unfold local_tombstoned. cbn [store service_new].
  destruct (redb_tombstone_range topic_events node_b 1 5 env0 0 empty_db) as [[r t] db].
  destruct H as (a' & [_ ->] & Hrep). exact Hrep.
Qed.

Lemma sync_announces_unmarked_witness :
  wp env0 (sync_item status_text0 peer_b head_b1 (page_response message_b) (0%N, 0%N)) (λ r s', is_ok r = true ∧
    ∃ a', rep (StoreRefinement := redb_refinement) a' (store s') ∧
      log_of a' (key_of topic_events node_b) =
        log_of abs_tombstoned (key_of topic_events node_b) ++ [set_deleted true message_b] ∧
      (∀ m', m' ∈ log_of a' (key_of topic_events node_b) → sm_head_id m' = 1%N → sm_deleted m' = true) ∧
      published s' = published local_tombstoned ++ [message_b] ∧
      me_deleted (proto_message message_b) = false) local_tombstoned.
Proof.
  apply (sync_announces_unmarked (SR := redb_refinement) status_text0 env0 peer_b head_b1 message_b
    (0%N, 0%N) abs_tombstoned local_tombstoned);
    [apply env0_no_faults | apply local_tombstoned_rep | | done | done | by vm_compute | apply redb_unlimited].
  split; try done. apply (Forall_inv (rl_wire _ _ message_b_remote)).
Defined.

(** C35: a control entry that cannot be applied is stored before it is checked,
    and from then on keeps the node from starting.  Over any store: when the next
    entry a peer offers for a control log is a live marker that is undecodable,
    reversed or of another origin, the pull fails without announcing anything,
    but the entry stays in the log; the next pull of the same head succeeds
    without looking at it again; and the start-up that follows fails, with any
    fuel above the length of the control logs. *)
Theorem sync_keeps_bad_marker {DB} `{SR : StoreRefinement DB} status_text e e1 e2 fuel fuel1 fuel2 client
    peer head limit m a (s : MsgbusGrpcService DB) :
  let k := key_of (th_topic head) (th_origin head) in
  no_faults e → no_faults e1 → rep a (store s) →
  next_entry head a m → offers client head m → th_head_id head = sm_head_id m →
  control_message m → bad_marker m → covered (tombs_of a k) (sm_head_id m) = false →
  ¬ limited e _ (OpPutReplicated m) a →
  (∀ e a', ¬ limited (DB := DB) e _ (OpGetHead (th_topic head) (th_origin head)) a') →
  (∀ e st a', ¬ limited (DB := DB) e _ (OpRecord st) a') →
  (∀ o, Forall control_message (log_of a (DELETE_TOPIC, o)) ∧
        (log_head (log_of a (DELETE_TOPIC, o)) + 1 < u64_max)%N ∧
        (length (log_of a (DELETE_TOPIC, o)) + 1 < fuel2)%nat) → is_u32 limit →
  wp e (sync_head status_text (S fuel) client peer head limit) (λ r s1, is_ok r = false ∧
    published s1 = published s ∧
    (∃ a1, rep a1 (store s1) ∧ log_of a1 k = log_of a k ++ [m]) ∧
    wp e1 (sync_head status_text fuel1 client peer head limit) (λ r1 s2, r1 = Ok (Some tt) ∧
      wp e2 (replay_control_messages fuel2) (λ r2 _, is_ok r2 = false) (store s2)) s1) s.
Proof.
  intros k Hnf Hnf1 Hrep Hn Hoff Hhead Hctl Hbad Hcov Hput Hlget Hlrec Hall Hlimit.
  pose proof (next_entry_key _ _ _ Hn) as Hk. fold k in Hk. destruct (Hctl) as [Ht _].
  assert (k = (DELETE_TOPIC, NodeId.key (th_origin head))) as Hkd.
  { unfold k, key_of. by rewrite <- (ne_topic _ _ _ Hn), Ht. }
  assert (log_of (with_entry head m a) k = log_of a k ++ [m]) as Hl.
  { unfold with_entry. rewrite log_of_set_log, decide_True by done. do 2 f_equal. unfold mark.
    by rewrite Hk, Hcov. }
  eapply wp_mono; [apply (pull_stuck status_text e Hnf client peer head fuel limit m a);
    try done; [by rewrite Hhead | by apply bad_marker_refused]|].
  intros r s1 (Hr & Hp & Hrep1). split; [done|]. split; [done|]. split; [by eexists|].
  eapply wp_mono; [apply (pull_nothing status_text e1 Hnf1 client peer head fuel1 limit (with_entry head m a));
    [done| |apply Hlget|intros; apply Hlrec]|].
  { fold k. rewrite Hl, Hhead, (ne_number _ _ _ Hn). fold k. unfold log_head. rewrite length_app. simpl. lia. }
  intros r1 s2 (-> & _ & a2 & Hrep2 & Hl2 & _). split; [done|].
  eapply wp_mono; [apply (replay_outcome e2 fuel2 a2 (store s2) Hrep2)|].
  - intros o. rewrite Hl2. destruct (Hall o) as (Hc & Hmax & Hf).
    destruct (decide ((DELETE_TOPIC, o) = k)) as [Ho|Ho].
    + rewrite Ho, Hl. rewrite Ho in Hc, Hmax, Hf. unfold log_head in *. rewrite length_app. simpl.
      split; [apply Forall_app; by split; [|constructor]|]. lia.
    + unfold with_entry. rewrite log_of_set_log, decide_False by done. split; [done|]. lia.
  - intros [o|x] db'; [|done]. intros (_ & a3 & _ & _ & Happ). exfalso.
    destruct Hbad as [Hd Hno]. apply Hno, (Happ (NodeId.key (th_origin head)) m); [|done].
    rewrite Hl2, <- Hkd, Hl. set_solver.
Qed.

Definition control_head_b : TopicHead := mkTopicHead (mkTopic DELETE_TOPIC) node_b 1.
Definition bad_client : PeerClient :=
  mkPeerClient (λ _, Ok (Some (proto_node node_b))) (λ _, Ok [proto_topic_head control_head_b])
    (λ _ _, Ok (Ends [page_response bad_message])).

Lemma bad_message_wire : wire_message bad_message.
Proof.
  split; [right; apply node_b_valid|]. split; [done|].
  split; [apply (validate_part_ok "topic"); reflexivity | apply (validate_part_ok "id"); reflexivity].
Qed.

Lemma sync_keeps_bad_marker_witness :
  wp env0 (sync_head status_text0 1 bad_client peer_b control_head_b 10) (λ r s1, is_ok r = false ∧
    published s1 = published service0 ∧
    (∃ a1, rep (StoreRefinement := redb_refinement) a1 (store s1) ∧
       log_of a1 (key_of (mkTopic DELETE_TOPIC) node_b) =
         log_of abs_empty (key_of (mkTopic DELETE_TOPIC) node_b) ++ [bad_message]) ∧
    wp env0 (sync_head status_text0 1 bad_client peer_b control_head_b 10) (λ r1 s2, r1 = Ok (Some tt) ∧
      wp env0 (replay_control_messages 2) (λ r2 _, is_ok r2 = false) (store s2)) s1) service0.
Proof.
  apply (sync_keeps_bad_marker (SR := redb_refinement) status_text0 env0 env0 env0 0 1 2 bad_client peer_b
    control_head_b 10 bad_message abs_empty service0);
    [apply env0_no_faults | apply env0_no_faults | apply empty_rep | | | done | | | done
    | apply redb_unlimited | intros; apply redb_unlimited | intros; apply redb_unlimited | | done].
  - split; try done. apply bad_message_wire.
  - intros t req _ _ _ _. by exists [].
  - split; [done|]. intros _ tr Htr. discriminate Htr.
  - split; [done|]. by intros (tr & Htr & _).
  - intros o. split; [constructor|]. split; [done|]. apply Nat.ltb_lt. reflexivity.
Defined.

(** C38: the task [spawn_peer_sync] starts does not keep running: it makes
    exactly as many passes as it happens to take ticks before it first looks at
    the shutdown channel, whose sender is already gone, and none afterwards,
    although nobody asked it to stop. *)
Theorem spawn_peer_sync_stops {DB} `{!MsgbusStore DB, !Json TombstoneRange} status_text net fuel config t
    ticks e turns (s : MsgbusGrpcService DB) :
  Forall (λ eb : Env * bool, eb.2 = true) ticks →
  (spawn_peer_sync status_text net fuel config t (ticks ++ (e, false) :: turns) s).1 = length ticks ∧
  spawn_peer_sync status_text net fuel config t (ticks ++ (e, false) :: turns) s =
  spawn_peer_sync status_text net fuel config t ticks s.
Proof.
  intros Ht. unfold spawn_peer_sync. revert t s.
  induction Ht as [|[e' b] ticks Hb _ IH]; intros t s; [done|]. simpl in Hb. subst b. simpl.
  destruct (sync_once status_text net fuel config e' t s) as [[r t'] s'].
  destruct (IH t' s') as [Hn Heq]. rewrite fmap_app in *. simpl in *. rewrite Heq in *.
  destruct (sync_task _ _ _ _ _ _ _) as [n s'']. simpl in *. by rewrite Hn.
Qed.

Lemma spawn_peer_sync_stops_witness :
  (spawn_peer_sync status_text0 silent_net 1 config_a 0 ([(env0, true)] ++ (env0, false) :: [(env0, true)])
     service0).1 = 1%nat ∧
  spawn_peer_sync status_text0 silent_net 1 config_a 0 ([(env0, true)] ++ (env0, false) :: [(env0, true)])
    service0 = spawn_peer_sync status_text0 silent_net 1 config_a 0 [(env0, true)] service0.
Proof.
  apply (spawn_peer_sync_stops status_text0 silent_net 1 config_a 0 [(env0, true)] env0 [(env0, true)]).
  by repeat constructor.
Defined.
