(* ===== verification/Pass.v ===== *)
(** * Pass: a whole synchronisation pass between two nodes

    [Converge] follows the pull of one application log.  Here the peer is a node
    that answers [health], [list_heads] and [fetch] with its own handlers, and
    the pass pulls every log the peer has, control logs included, whose delete
    markers are applied as they arrive. *)

From Stdlib Require Import Ascii String NArith ZArith Lia.
From stdpp Require Import base strings list gmap.
From S2P Require Import Prelude Strings Core Json Spec History Proto Server ServerProps Replay Sync SyncProps Converge.

(** ** What a pull adds *)

(** After pulling [ms] onto the log [k]: they follow the old entries, up to
    deletion; nothing is lost, no other log grows, and the markers among them are
    applied. *)
Record gained `{!Json TombstoneRange} (k : log_key) (ms : list StoredMessage) (a a' : AbsStore) : Prop := {
  ga_le : store_le a a';
  ga_len : length (log_of a' k) = (length (log_of a k) + length ms)%nat;
  ga_other : ∀ k', k' ≠ k → length (log_of a' k') = length (log_of a k');
  ga_new : ∀ i m, ms !! i = Some m →
    ∃ m', log_of a' k !! (length (log_of a k) + i)%nat = Some m' ∧ entry_le m m';
  ga_marks : ∀ m, m ∈ ms → topic_str (sm_topic m) = DELETE_TOPIC → applied a' m;
}.

Lemma applied_le `{!Json TombstoneRange} a a' m : store_le a a' → applied a m → applied a' m.
Proof.
  intros Hle Ha Hd. destruct (Ha Hd) as [? Htr]. split; [done|]. intros tr Hs. by apply Hle, Htr.
Qed.

Section gained.
Context {JT : Json TombstoneRange}.

Lemma gained_nil k a a' :
  store_le a a' → (∀ k', length (log_of a' k') = length (log_of a k')) → gained k [] a a'.
Proof. intros Hle Hlen. split; [done|simpl; by rewrite Hlen|auto|done|by intros m ?%elem_of_nil]. Qed.

Lemma gained_app k ms1 ms2 a a1 a2 :
  gained k ms1 a a1 → gained k ms2 a1 a2 → gained k (ms1 ++ ms2) a a2.
Proof.
  intros [L1 N1 O1 W1 K1] [L2 N2 O2 W2 K2]. split.
  - by etrans.
  - rewrite N2, N1, length_app. lia.
  - intros k' Hk. by rewrite O2, O1.
  - intros i m [Hi|[Hlen Hi]]%lookup_app_Some.
    + destruct (W1 i m Hi) as (m1 & Hm1 & He1). destruct (proj1 (L2 k) _ _ Hm1) as (m2 & Hm2 & He2).
      exists m2. split; [done | by etrans].
    + destruct (W2 _ m Hi) as (m2 & Hm2 & He2). exists m2. split; [|done].
      rewrite <- Hm2. f_equal. lia.
  - intros m [Hm|Hm]%elem_of_app Hd; [by eapply applied_le; [|by apply K1] | by apply K2].
Qed.
End gained.

(** ** Deletions and their markers *)

(** A live entry of a control log of [a] deletes number [n] of the log [k]. *)
Definition marked_by `{!Json TombstoneRange} (a : AbsStore) (k : log_key) (n : N) : Prop :=
  ∃ o c tr, c ∈ log_of a (DELETE_TOPIC, o) ∧ sm_deleted c = false ∧ from_slice (sm_payload c) = Ok tr ∧
    key_of (tr_topic tr) (tr_origin tr) = k ∧ (tr_from_head_id tr ≤ n ≤ tr_to_head_id tr)%N.

Definition deleted_at (a : AbsStore) (k : log_key) (n : N) : Prop :=
  ∃ m, m ∈ log_of a k ∧ sm_head_id m = n ∧ sm_deleted m = true.

Lemma deleted_at_set_log k l a k' n :
  deleted_at (set_log k l a) k' n ↔
  if decide (k = k') then ∃ m, m ∈ l ∧ sm_head_id m = n ∧ sm_deleted m = true else deleted_at a k' n.
Proof. unfold deleted_at. rewrite log_of_set_log. by case_decide. Qed.

(** What a tombstone adds. *)
Lemma tombstone_deleted k from to a k' n :
  deleted_at (tombstone_spec k from to a).2 k' n →
  deleted_at a k' n ∨ (k' = k ∧ (from ≤ n ≤ to)%N).
Proof.
  intros (m & Hm & Hn & Hd). unfold tombstone_spec in Hm. cbn [snd] in Hm.
  rewrite log_of_set_tombs, log_of_set_log in Hm. case_decide as Hk; [subst k'|left; by exists m].
  apply list_elem_of_fmap in Hm as (m0 & -> & Hm0). rewrite mark_range_head in Hn. unfold mark_range in Hd.
  destruct (in_range from to (sm_head_id m0)) eqn:Hr; [right|left; by exists m0].
  apply in_range_iff in Hr. by rewrite Hn in Hr.
Qed.

Lemma tombstone_covered k from to a k' n :
  covered (tombs_of (tombstone_spec k from to a).2 k') n = true →
  covered (tombs_of a k') n = true ∨ (k' = k ∧ (from ≤ n ≤ to)%N).
Proof.
  unfold tombstone_spec. cbn [snd]. rewrite tombs_of_set_tombs, !covered_iff.
  case_decide as Hk; [subst k'|by left].
  intros (f & t & [Hin|Hin]%elem_of_union & Hr); [right|left; by exists f, t].
  apply elem_of_singleton in Hin. by simplify_eq.
Qed.

(** ** The remote node *)

(** Logs as they can travel: of one topic and origin each, with valid names and
    times in range; live control entries are valid markers. *)
Record servable `{!Json TombstoneRange} (b : AbsStore) : Prop := {
  sv_uniform : ∀ k m m', m ∈ log_of b k → m' ∈ log_of b k → sm_origin m = sm_origin m';
  sv_wire : ∀ k m, m ∈ log_of b k →
    wire_message m ∧ NodeId_valid (sm_origin m) ∧ is_u64 (sm_created_at_ms m);
  sv_marker : ∀ o m, m ∈ log_of b (DELETE_TOPIC, o) → sm_deleted m = false → marker_ok m;
}.

Lemma topic_eq (t t' : Topic) : topic_str t = topic_str t' → t = t'.
Proof. destruct t, t'. simpl. by intros ->. Qed.

Lemma servable_remote `{!Json TombstoneRange} b h :
  wf b → servable b → h ∈ heads_spec b →
  remote_log h (log_of b (key_of (th_topic h) (th_origin h))) ∧
  valid_part (topic_str (th_topic h)) ∧ NodeId_valid (th_origin h).
Proof.
  intros Hwf Hsv Hh. unfold heads_spec in Hh. apply list_elem_of_omap in Hh as ([k l] & Hin & Hh).
  apply elem_of_map_to_list in Hin. simpl in Hh. destruct (last l) as [m|] eqn:Hlast; [|done].
  simpl in Hh. injection Hh as <-. cbn [th_topic th_origin th_head_id].
  assert (log_of b k = l) as Hlk by (unfold log_of; by rewrite Hin).
  rewrite last_lookup in Hlast. rewrite <- Hlk in Hlast.
  pose proof (wf_entry _ Hwf _ _ _ Hlast) as [_ Hk]. apply list_elem_of_lookup_2 in Hlast as Hm.
  change (key_of (sm_topic m) (sm_origin m)) with (msg_key m). rewrite Hk.
  destruct (sv_wire _ Hsv k m Hm) as (Hw & Ho & _). split; [|split; [apply Hw|done]].
  split; cbn [th_topic th_origin th_head_id].
  - intros i x Hx. by apply (wf_entry _ Hwf k).
  - apply Forall_forall. intros x Hx. split; [|by eapply sv_uniform].
    apply list_elem_of_lookup in Hx as (i & Hi). apply (wf_entry _ Hwf) in Hi as [_ Hkx].
    apply topic_eq. rewrite <- Hk in Hkx. by injection Hkx.
  - apply Forall_forall. intros x Hx. by apply (sv_wire _ Hsv k).
  - apply Forall_forall. intros x Hx. by apply (sv_wire _ Hsv k).
  - by rewrite Hlk.
  - apply (wf_len _ Hwf).
Qed.

Lemma core_topic_head_proto h :
  valid_part (topic_str (th_topic h)) → NodeId_valid (th_origin h) →
  core_topic_head (proto_topic_head h) = Ok h.
Proof.
  intros Ht Ho. unfold core_topic_head, proto_topic_head. cbn [pth_origin pth_topic pth_head_id fmap option_fmap option_map].
  rewrite (proj2 (core_node_ok _ _) (conj eq_refl (or_intror Ho))). cbn.
  rewrite (proj2 (Topic_new_ok _ _) (conj Ht eq_refl)). by destruct h as [[t] o n].
Qed.

Section pass.
Context {DB : Type} {ST : MsgbusStore DB} {JT : Json TombstoneRange} {SR : StoreRefinement DB}.
Context (status_text : Status → string) (e : Env) (Hnf : no_faults e).
Context (a0 b : AbsStore) (Hwfb : wf b) (Hsv : servable b).

Implicit Types (a : AbsStore) (s : MsgbusGrpcService DB).

(** The store calls of a pass in a state. *)
Inductive pass_call a : ∀ A, StoreOp A → Prop :=
| PassHead t o : pass_call a _ (OpGetHead t o)
| PassPut k m : log_of b k !! length (log_of a k) = Some m → pass_call a _ (OpPutReplicated m)
| PassDelete o m tr : m ∈ log_of b (DELETE_TOPIC, o) → sm_deleted m = false →
    from_slice (sm_payload m) = Ok tr →
    pass_call a _ (OpTombstone (tr_topic tr) (tr_origin tr) (tr_from_head_id tr) (tr_to_head_id tr))
| PassRecord st : pass_call a _ (OpRecord st).

(** The states a pass goes through: nothing of [a0] is lost, every entry is one
    of [a0] or [b], and every deletion and tombstone is one of [a0], a deletion of
    [b], or asked for by a marker of [b]. *)
Record between a : Prop := {
  bt_le : store_le a0 a;
  bt_len : ∀ k, (length (log_of a k) ≤ Nat.max (length (log_of a0 k)) (length (log_of b k)))%nat;
  bt_entry : ∀ k i m', log_of a k !! i = Some m' →
    ∃ m, (log_of a0 k !! i = Some m ∨ log_of b k !! i = Some m) ∧ entry_le m m';
  bt_deleted : ∀ k n, deleted_at a k n →
    deleted_at a0 k n ∨ covered (tombs_of a0 k) n = true ∨ deleted_at b k n ∨ marked_by b k n;
  bt_tombs : ∀ k n, covered (tombs_of a k) n = true → covered (tombs_of a0 k) n = true ∨ marked_by b k n;
}.

Lemma between_refl : between a0.
Proof. split; [done|lia| |tauto|tauto]. intros k i m Hm. exists m. by split; [left|]. Qed.

Context (Hlim : ∀ A op a, between a → pass_call a A op → ¬ limited e A op a).

Lemma between_same a a' :
  between a → (∀ k', log_of a' k' = log_of a k') → (∀ k', tombs_of a' k' = tombs_of a k') → between a'.
Proof.
  intros [L N E D T] Hl Ht. split.
  - intros k'. rewrite Hl, Ht. apply L.
  - intros k'. rewrite Hl. apply N.
  - intros k' i m. rewrite Hl. apply E.
  - intros k' n (m & Hm & H). rewrite Hl in Hm. apply D. by exists m.
  - intros k' n. rewrite Ht. apply T.
Qed.

(** Recording a success changes no log. *)
Lemma success_same peer t o local remote synced a s :
  rep a (store s) → between a → (is_Some t ↔ is_Some o) →
  wp e (record_peer_sync_success peer t o local remote synced) (λ r s', r = Ok tt ∧
    published s' = published s ∧ ∃ a', rep a' (store s') ∧ store_le a a' ∧
      (∀ k, length (log_of a' k) = length (log_of a k)) ∧ between a' ∧
      recorded peer t o local remote synced a') s.
Proof.
  intros Hrep Hbt Hto. unfold record_peer_sync_success.
  apply wp_bind, wp_now_ms. intros c _. apply wp_bind, wp_now_ms. intros d _.
  apply (wp_db_ok e Hnf (OpRecord _) _ a); [done|by apply Hlim; [|constructor]|done|].
  intros r a' db' [-> ->] Hrep'. split; [done|]. split; [done|]. eexists. split; [exact Hrep'|].
  split; [done|]. split; [done|]. split; [by eapply between_same|].
  eexists. split; [apply lookup_insert_eq|]. done.
Qed.

Section pull.
Context (peer : PeerSpec) (head : TopicHead).
Let k := key_of (th_topic head) (th_origin head).
Context (Hl : remote_log head (log_of b k)).

(** Applying a marker of the peer. *)
Lemma between_marker o m tr a :
  between a → m ∈ log_of b (DELETE_TOPIC, o) → sm_deleted m = false → from_slice (sm_payload m) = Ok tr →
  between (tombstone_spec (key_of (tr_topic tr) (tr_origin tr)) (tr_from_head_id tr) (tr_to_head_id tr) a).2.
Proof.
  intros [L N E D T] Hm Hd Htr.
  assert (∀ n, (tr_from_head_id tr ≤ n ≤ tr_to_head_id tr)%N →
    marked_by b (key_of (tr_topic tr) (tr_origin tr)) n) as Hby by (intros n Hn; by exists o, m, tr).
  split.
  - etrans; [exact L|apply tombstone_le].
  - intros k'. by rewrite tombstone_length.
  - intros k' i m' Hm'. destruct (lookup_lt_is_Some_2 (log_of a k') i) as [m1 Hm1].
    { apply lookup_lt_Some in Hm'. by rewrite tombstone_length in Hm'. }
    destruct (E k' i m1 Hm1) as (m0 & Hm0 & He). exists m0. split; [done|].
    destruct (proj1 (tombstone_le (key_of (tr_topic tr) (tr_origin tr)) (tr_from_head_id tr)
      (tr_to_head_id tr) a k') i m1 Hm1) as (m2 & Hm2 & He2). assert (m2 = m') as -> by congruence. by etrans.
  - intros k' n [?|[-> ?]]%tombstone_deleted; auto.
  - intros k' n [?|[-> ?]]%tombstone_covered; auto.
Qed.

(** The marker of a pulled entry, if it is one, is applied. *)
Lemma apply_pulled m a s :
  rep a (store s) → between a → m ∈ log_of b k →
  wp e (apply_control status_text m) (λ r s', r = Ok tt ∧ published s' = published s ∧
    ∃ a', rep a' (store s') ∧ store_le a a' ∧ (∀ k', length (log_of a' k') = length (log_of a k')) ∧
      between a' ∧ (topic_str (sm_topic m) = DELETE_TOPIC → applied a' m)) s.
Proof.
  intros Hrep Hbt Hm. unfold apply_control. apply wp_map_err, wp_zoom. unfold apply_control_message.
  destruct (bool_decide (topic_str (sm_topic m) = DELETE_TOPIC)) eqn:Ht; cbn [negb orb].
  2: { apply bool_decide_eq_false in Ht. apply wp_ret. split; [done|]. split; [done|]. by exists a. }
  apply bool_decide_eq_true in Ht. destruct (sm_deleted m) eqn:Hd; cbn [orb].
  { apply wp_ret. split; [done|]. split; [done|]. exists a. do 4 (split; [done|]). unfold applied. by rewrite Hd. }
  assert (k = (DELETE_TOPIC, NodeId.key (th_origin head))) as Hk.
  { apply list_elem_of_lookup in Hm as (i & Hi). apply (wf_entry _ Hwfb) in Hi as [_ Hk].
    unfold k, key_of in *. unfold msg_key, key_of in Hk. rewrite Ht in Hk. congruence. }
  rewrite Hk in Hm. pose proof (sv_marker _ Hsv _ _ Hm Hd) as Hok.
  pose proof Hok as (tr & Htr & Ho & Hft & Hnd & Hu1 & Hu2). rewrite Htr. cbn [map_err].
  apply wp_bind, wp_of_result. rewrite bool_decide_true by done. cbn [negb].
  apply wp_bind, wp_map_err.
  eapply wp_mono; [by apply (store_refines _ (OpTombstone (tr_topic tr) (tr_origin tr)
    (tr_from_head_id tr) (tr_to_head_id tr)) e a)|].
  cbn [spec_op]. rewrite (proj2 (N.ltb_ge _ _)) by done. intros [x|x] db'.
  - intros (a' & [_ ->] & Hrep'). apply wp_ret. split; [done|]. split; [done|]. eexists. split; [exact Hrep'|].
    split; [apply tombstone_le|]. split; [intros k'; apply tombstone_length|].
    split; [by eapply between_marker|]. intros _ _. split; [done|].
    intros tr' Htr'. assert (tr' = tr) as -> by congruence.
    unfold tombstone_spec. cbn [snd]. rewrite tombs_of_set_tombs, decide_True by done. set_solver.
  - intros [_ [Hf|[Hb|[? _]]]]; [by destruct (no_faults_has_fault e)| |done].
    exfalso. apply (Hlim _ _ _ Hbt (PassDelete a _ m tr Hm Hd Htr) Hb).
Qed.

(** Storing the next entry of the peer. *)
Lemma between_put m a :
  wf a → between a → log_of b k !! length (log_of a k) = Some m → msg_key m = k →
  between (set_log k (log_of a k ++ [mark a m]) a).
Proof.
  intros Hwf [L N E D T] Hi Hk. split.
  - etrans; [exact L|]. apply store_le_set_log, log_le_app.
  - intros k'. rewrite log_of_set_log. case_decide; [subst k'|done].
    rewrite length_app. simpl. apply lookup_lt_Some in Hi. lia.
  - intros k' i m'. rewrite log_of_set_log. case_decide; [subst k'|apply E].
    intros [Hm'|[Hlen Hm']]%lookup_app_Some; [by apply E|].
    apply list_lookup_singleton_Some in Hm' as [Hz <-]. exists m. split; [right|apply mark_le].
    rewrite <- Hi. f_equal. lia.
  - intros k' n. rewrite deleted_at_set_log. case_decide; [subst k'|apply D].
    intros (m' & [Hm'|Hm']%elem_of_app & Hn & Hd); [apply D; by exists m'|].
    apply list_elem_of_singleton in Hm' as ->. rewrite mark_head in Hn. unfold mark in Hd.
    rewrite Hk, Hn in Hd. destruct (covered (tombs_of a k) n) eqn:Hc.
    + destruct (T k n Hc); tauto.
    + right. right. left. exists m. split; [by eapply list_elem_of_lookup_2|done].
  - exact T.
Qed.

Lemma item_gain m a s n f :
  rep a (store s) → between a → log_of b k !! length (log_of a k) = Some m → n = log_head (log_of a k) →
  wp e (sync_item status_text peer head (page_response m) (n, f))
    (λ r s', r = Ok (Continue ((n + 1)%N, u32_saturating_add f 1)) ∧
       published s' = published s ++ [m] ∧ ∃ a', rep a' (store s') ∧ gained k [m] a a' ∧ between a') s.
Proof.
  intros Hrep Hbt Hi ->. pose proof (rep_wf _ _ Hrep) as Hwf.
  destruct (remote_entry head _ Hl _ _ Hi) as (Hk & Ht & Ho & Hh & Hu & Hc & Hw). fold k in Hk.
  unfold sync_item, page_response. apply wp_bind, wp_of_result. cbn [mr_message].
  apply wp_bind, wp_of_result. rewrite (proj2 (core_message_iff _ _) (conj eq_refl Hw)). cbn [map_err].
  rewrite !bool_decide_true by done. cbn [negb orb].
  assert (sm_head_id m = (log_head (log_of a (msg_key m)) + 1)%N) as Hnext.
  { rewrite Hk, Hh. unfold log_head. lia. }
  apply wp_bind, (wp_db_ok e Hnf (OpPutReplicated m) _ a); [done|by apply Hlim; [|econstructor]|done|].
  cbn [spec_op]. intros r a1 db' Hs Hrep'. rewrite put_next in Hs by done. injection Hs as -> ->.
  cbn [map_err]. rewrite Hk in Hrep'. set (a1 := set_log k (log_of a k ++ [mark a m]) a) in *.
  assert (store_le a a1) as Hle1 by (apply store_le_set_log, log_le_app).
  assert (∀ k', log_of a1 k' = if decide (k = k') then log_of a k ++ [mark a m] else log_of a k') as Hlog1
    by (intros k'; apply log_of_set_log).
  assert (between a1) as Hbt1 by (by apply between_put).
  set (finish := λ (r : result string unit) s', r = Ok tt ∧ published s' = published s ++ [m] ∧
    ∃ a', rep a' (store s') ∧ gained k [m] a a' ∧ between a').
  apply wp_bind. eapply (wp_mono _ _ finish).
  2: { intros r s' (-> & Hpub & a' & Hrep2 & Hg). apply wp_ret. split; [|by split; [|exists a']].
       do 2 f_equal. f_equal. rewrite Hnext, Hk. lia. }
  apply wp_bind. eapply wp_mono; [apply (apply_pulled m a1); [done|done|by eapply list_elem_of_lookup_2]|].
  intros r s1 (-> & Hpub1 & a2 & Hrep2 & Hle2 & Hlen2 & Hbt2 & Happ). apply wp_modify. split; [done|].
  split; [simpl; by rewrite Hpub1|]. exists a2. split; [done|]. split; [|done]. split.
  - by etrans.
  - rewrite Hlen2, Hlog1, decide_True, length_app by done. done.
  - intros k' Hne. by rewrite Hlen2, Hlog1, decide_False.
  - intros [|i] x; [|done]. intros [= <-]. rewrite Nat.add_0_r.
    destruct (proj1 (Hle2 k) (length (log_of a k)) (mark a m)) as (m' & Hm' & He).
    + rewrite Hlog1, decide_True by done. by rewrite lookup_app_r, Nat.sub_diag by lia.
    + exists m'. split; [done|]. etrans; [apply mark_le|done].
  - by intros x ->%list_elem_of_singleton.
Qed.

Lemma page_gain ms rest a s n f :
  rep a (store s) → between a → drop (length (log_of a k)) (log_of b k) = ms ++ rest →
  n = log_head (log_of a k) →
  wp e (for_each (page_response <$> ms) (sync_item status_text peer head) (n, f))
    (λ r s', r = Ok ((n + N.of_nat (length ms))%N, fetched_after f ms) ∧
       published s' = published s ++ ms ∧ ∃ a', rep a' (store s') ∧ gained k ms a a' ∧ between a') s.
Proof.
  revert a s n f. induction ms as [|m ms IH]; intros a s n f Hrep Hbt Hdrop Hn.
  { cbn. apply wp_ret. rewrite N.add_0_r. split; [done|]. split; [by rewrite app_nil_r|].
    exists a. split; [done|]. split; [by apply gained_nil|done]. }
  rewrite fmap_cons. cbn [for_each]. apply wp_bind.
  assert (log_of b k !! length (log_of a k) = Some m) as Hi.
  { rewrite <- (Nat.add_0_r (length _)), <- lookup_drop, Hdrop. done. }
  eapply wp_mono; [by apply (item_gain m a)|].
  intros r s1 (-> & Hpub1 & a1 & Hrep1 & Hg1 & Hbt1).
  pose proof (ga_len _ _ _ _ Hg1) as Hlen. simpl in Hlen.
  eapply wp_mono; [apply (IH a1 s1); [done|done| |]|].
  - by rewrite Hlen, <- drop_drop, Hdrop.
  - rewrite Hn. unfold log_head. rewrite Hlen. lia.
  - intros r s2 (-> & Hpub2 & a2 & Hrep2 & Hg2 & Hbt2). split; [simpl; do 2 f_equal; lia|].
    split; [by rewrite Hpub2, Hpub1, <- app_assoc|]. exists a2. split; [done|]. split; [|done].
    by apply (gained_app k [m] ms a a1 a2).
Qed.

Context (client : PeerClient) (Hserves : serves client head (log_of b k)).

Lemma loop_gain fuel limit a s :
  rep a (store s) → between a → (length (log_of b k) ≤ fuel + length (log_of a k))%nat → is_u32 limit →
  let missing := drop (length (log_of a k)) (log_of b k) in
  wp e (sync_loop status_text fuel client peer head limit (log_head (log_of a k)))
    (λ r s', r = Ok (Some (N.max (log_head (log_of a k)) (log_head (log_of b k)))) ∧
       published s' = published s ++ missing ∧
       ∃ a', rep a' (store s') ∧ gained k missing a a' ∧ between a') s.
Proof.
  revert a s. induction fuel as [|fuel IH]; intros a s Hrep Hbt Hfuel Hlimit missing; cbn [sync_loop];
    rewrite (rl_head _ _ Hl);
    destruct (N.ltb_spec (log_head (log_of a k)) (log_head (log_of b k))) as [Hlt|Hge];
    try (unfold log_head in *; lia);
    try (apply wp_ret; split; [do 2 f_equal; unfold log_head in *; lia|];
         unfold missing; rewrite drop_ge by (unfold log_head in *; lia); split; [by rewrite app_nil_r|];
         exists a; split; [done|split; [by apply gained_nil|done]]).
  apply wp_bind, wp_rpc. intros t. rewrite Hserves; [|done|done| | |].
  2: { cbn [fr_from_head_id]. unfold u64_saturating_add, u64_max. lia. }
  2: { cbn [fr_from_head_id]. unfold u64_saturating_add. lia. }
  2: { cbn [fr_limit]. unfold is_u32, u32_max in *. lia. }
  cbn [fr_limit fr_from_head_id]. pose proof (rl_u64 _ _ Hl) as Hu. unfold is_u64 in Hu.
  rewrite u64_saturating_succ by lia.
  replace (N.to_nat (log_head (log_of a k) + 1) - 1)%nat with (length (log_of a k))
    by (unfold log_head; lia).
  fold missing. set (page := take _ missing).
  pose proof (page_split (N.max limit 1) missing : missing = page ++ drop (length page) missing) as Hsplit.
  assert (0 < length page ≤ length (log_of b k) - length (log_of a k))%nat as Hpos.
  { unfold page, missing. rewrite length_take, length_drop. pose proof (page_limit_pos (N.max limit 1)).
    unfold log_head in Hlt. lia. }
  cbn [for_stream]. apply wp_bind, wp_bind.
  eapply wp_mono; [by apply (page_gain page (drop (length page) missing) a)|].
  intros r s1 (-> & Hpub1 & a1 & Hrep1 & Hg1 & Hbt1). apply wp_ret.
  apply wp_bind. eapply wp_mono; [apply (success_same _ _ _ _ _ _ a1); [done|done|by split; eauto]|].
  intros r s2 (-> & Hpub2 & a2 & Hrep2 & Hle2 & Hlen2 & Hbt2 & _).
  pose proof (gained_nil k a1 a2 Hle2 Hlen2) as Hg2.
  assert ((fetched_after 0 page =? 0)%N = false) as ->.
  { apply N.eqb_neq. destruct page; [simpl in Hpos; lia | apply fetched_after_nonzero]. }
  rewrite (proj2 (N.eqb_neq _ _)) by lia. cbn [orb].
  pose proof (gained_app _ _ _ _ _ _ Hg1 Hg2) as Hg. rewrite app_nil_r in Hg.
  pose proof (ga_len _ _ _ _ Hg) as Hlen.
  replace (log_head (log_of a k) + N.of_nat (length page))%N with (log_head (log_of a2 k))
    by (unfold log_head; lia).
  eapply wp_mono; [apply (IH a2 s2); [done|done|lia|done]|].
  intros r s3 (-> & Hpub3 & a3 & Hrep3 & Hg3 & Hbt3). split; [do 2 f_equal; unfold log_head in *; lia|].
  rewrite Hlen, <- drop_drop in Hpub3, Hg3. fold missing in Hpub3, Hg3.
  split; [by rewrite Hpub3, Hpub2, Hpub1, <- app_assoc, <- Hsplit|]. exists a3. split; [done|]. split; [|done].
  rewrite Hsplit. by eapply gained_app.
Qed.

Lemma head_gain fuel limit a s :
  rep a (store s) → between a → (length (log_of b k) ≤ fuel)%nat → is_u32 limit →
  let missing := drop (length (log_of a k)) (log_of b k) in
  wp e (sync_head status_text fuel client peer head limit)
    (λ r s', r = Ok (Some tt) ∧ published s' = published s ++ missing ∧
       ∃ a', rep a' (store s') ∧ gained k missing a a' ∧ between a') s.
Proof.
  intros Hrep Hbt Hfuel Hlimit missing. unfold sync_head.
  apply wp_bind, (wp_db_ok e Hnf (OpGetHead (th_topic head) (th_origin head)) _ a);
    [done|by apply Hlim; [|constructor]|done|].
  intros r a' db' [-> ->] Hrep'. cbn [map_err].
  assert (default 0%N (head_spec (th_topic head) (th_origin head) a) = log_head (log_of a k)) as ->.
  { unfold head_spec. fold k. destruct (N.eqb_spec (log_head (log_of a k)) 0); simpl; lia. }
  apply wp_bind. eapply wp_mono; [apply (loop_gain fuel limit a); [done|done|lia|done]|].
  intros r s1 (-> & Hpub1 & a1 & Hrep1 & Hg1 & Hbt1). cbn iota.
  rewrite (rl_head _ _ Hl), (proj2 (N.leb_le _ _)) by lia.
  apply wp_bind. eapply wp_mono; [apply (success_same _ _ _ _ _ _ a1); [done|done|by split; eauto]|].
  intros r s2 (-> & Hpub2 & a2 & Hrep2 & Hle2 & Hlen2 & Hbt2 & _).
  pose proof (gained_nil k a1 a2 Hle2 Hlen2) as Hg2. apply wp_ret.
  split; [done|]. split; [by rewrite Hpub2|]. exists a2. split; [done|]. split; [|done].
  rewrite <- (app_nil_r missing). by eapply gained_app.
Qed.
End pull.

(** ** All logs of the peer *)

(** The logs [ks] of the peer have been pulled. *)
Record synced (ks : list log_key) a a' (new : list StoredMessage) : Prop := {
  sy_le : store_le a a';
  sy_in : ∀ k, k ∈ ks →
    length (log_of a' k) = Nat.max (length (log_of a k)) (length (log_of b k));
  sy_out : ∀ k, k ∉ ks → length (log_of a' k) = length (log_of a k);
  sy_new : ∀ k i m, k ∈ ks → log_of b k !! i = Some m → (length (log_of a k) ≤ i)%nat →
    m ∈ new ∧ (topic_str (sm_topic m) = DELETE_TOPIC → applied a' m) ∧
    ∃ m', log_of a' k !! i = Some m' ∧ entry_le m m';
}.

Lemma synced_same a a' : store_le a a' → (∀ k, length (log_of a' k) = length (log_of a k)) → synced [] a a' [].
Proof. intros Hle Hlen. split; [done|by intros k ?%elem_of_nil|auto|by intros k i m ?%elem_of_nil]. Qed.

Lemma synced_more ks k a a1 a2 new :
  synced ks a a1 new → gained k (drop (length (log_of a1 k)) (log_of b k)) a1 a2 →
  synced (k :: ks) a a2 (new ++ drop (length (log_of a1 k)) (log_of b k)).
Proof.
  intros [L1 I1 O1 N1] [L2 G2 O2 N2 K2].
  assert (length (log_of a1 k) = length (log_of a k) ∨
          length (log_of a1 k) = Nat.max (length (log_of a k)) (length (log_of b k))) as Hk.
  { destruct (decide (k ∈ ks)); [right; by apply I1 | left; by apply O1]. }
  rewrite length_drop in G2.
  split.
  - by etrans.
  - intros k' [->|Hin]%elem_of_cons; [destruct Hk; lia|].
    destruct (decide (k' = k)) as [->|Hne]; [destruct Hk; lia|]. rewrite O2 by done. by apply I1.
  - intros k' [Hne Hout]%not_elem_of_cons. rewrite O2 by done. by apply O1.
  - intros k' i m Hin Hm Hi. destruct (decide (k' ∈ ks ∧ i < length (log_of a1 k'))) as [[Hks Hlt]|Hnew].
    + destruct (N1 k' i m Hks Hm Hi) as (Hin' & Hap & m' & Hm' & He). split; [set_solver|].
      split; [intros; eapply applied_le; [|by apply Hap]; done|].
      destruct (proj1 (L2 k') _ _ Hm') as (m2 & Hm2 & He2). exists m2. split; [done|by etrans].
    + assert (k' = k) as ->.
      { destruct (decide (k' = k)); [done|]. exfalso. apply Hnew.
        assert (k' ∈ ks) as Hks by set_solver. split; [done|].
        rewrite (I1 _ Hks). apply lookup_lt_Some in Hm. lia. }
      assert (length (log_of a1 k) ≤ i)%nat as Hi1.
      { destruct (decide (k ∈ ks)) as [Hks|Hks]; [|by rewrite O1].
        destruct (decide (i < length (log_of a1 k))%nat); [|lia]. by destruct Hnew. }
      assert (drop (length (log_of a1 k)) (log_of b k) !! (i - length (log_of a1 k))%nat = Some m) as Hd.
      { rewrite lookup_drop, <- Hm. f_equal. lia. }
      split; [apply elem_of_app; right; by eapply list_elem_of_lookup_2|].
      split; [apply K2; by eapply list_elem_of_lookup_2|].
      destruct (N2 _ _ Hd) as (m' & Hm' & He). exists m'. split; [|done]. rewrite <- Hm'. f_equal. lia.
Qed.

Definition head_log (h : TopicHead) : log_key := key_of (th_topic h) (th_origin h).

Lemma heads_synced peer client fuel limit l a s :
  (∀ h, h ∈ heads_spec b → serves client h (log_of b (head_log h))) →
  Forall (λ h, h ∈ heads_spec b) l → (∀ k, length (log_of b k) ≤ fuel)%nat → is_u32 limit →
  rep a (store s) → between a →
  wp e (sync_heads status_text fuel client peer limit (proto_topic_head <$> l))
    (λ r s', r = Ok (Some tt) ∧ ∃ ks a' new, rep a' (store s') ∧ between a' ∧
       (∀ k, k ∈ ks ↔ k ∈ head_log <$> l) ∧ synced ks a a' new ∧
       published s' = published s ++ new) s.
Proof.
  intros Hserves Hl Hfuel Hlimit Hrep Hbt.
  assert (∀ ks0 new0 a1 s1, rep a1 (store s1) → between a1 → synced ks0 a a1 new0 →
    published s1 = published s ++ new0 →
    wp e (sync_heads status_text fuel client peer limit (proto_topic_head <$> l))
      (λ r s', r = Ok (Some tt) ∧ ∃ ks a' new, rep a' (store s') ∧ between a' ∧
         (∀ k, k ∈ ks ↔ k ∈ ks0 ∨ k ∈ head_log <$> l) ∧ synced ks a a' new ∧
         published s' = published s ++ new) s1) as Hgen.
  { clear Hrep Hbt. induction Hl as [|h l Hh _ IH]; intros ks0 new0 a1 s1 Hrep Hbt Hsy Hpub.
    { apply wp_ret. split; [done|]. exists ks0, a1, new0. split; [done|]. split; [done|].
      split; [|done]. intros k. rewrite elem_of_nil. tauto. }
    destruct (servable_remote b h Hwfb Hsv Hh) as (Hr & Ht & Ho).
    rewrite fmap_cons. cbn [sync_heads]. apply wp_bind, wp_of_result.
    rewrite core_topic_head_proto by done. cbn [map_err]. apply wp_bind, wp_try.
    eapply wp_mono; [by apply (head_gain peer h Hr client (Hserves h Hh) fuel limit a1)|].
    intros r s2 (-> & Hpub2 & a2 & Hrep2 & Hg2 & Hbt2).
    pose proof (synced_more _ _ _ _ _ _ Hsy Hg2) as Hsy2.
    eapply wp_mono; [apply (IH _ _ a2 s2 Hrep2 Hbt2 Hsy2); by rewrite Hpub2, Hpub, <- app_assoc|].
    intros r s3 (-> & ks & a3 & new & ? & ? & Hks & ? & ?). split; [done|]. exists ks, a3, new.
    split; [done|]. split; [done|]. split; [|done]. intros k'.
    rewrite Hks, fmap_cons, !elem_of_cons. tauto. }
  eapply wp_mono; [apply (Hgen [] [] a s); [done|done|by apply synced_same|by rewrite app_nil_r]|].
  intros r s' (-> & ks & a' & new & ? & ? & Hks & ? & ?). split; [done|]. exists ks, a', new.
  split; [done|]. split; [done|]. split; [|done]. intros k'. rewrite Hks, elem_of_nil. tauto.
Qed.
End pass.
