(* ===== verification/PassClaims.v ===== *)
(** * PassClaims: two nodes that synchronise hold the same logs *)

From Stdlib Require Import Ascii String NArith ZArith Lia.
From stdpp Require Import base strings list gmap.
From S2P Require Import Prelude Strings Core Table RedbKeys Json Concrete Spec SpecFacts History RedbStore RedbRep RedbRefine Redb SqliteStore SqliteRep SqliteRefine Sqlite Agreement Proto Server ServerProps Replay ServerClaims Sync SyncProps Converge SyncClaims Pass.

(** ** A peer that is reached without TLS *)

Definition connects (net : Transport) (peer : PeerSpec) (client : PeerClient) : Prop :=
  endpoint_from_shared net (endpoint peer) = Ok tt ∧ ∀ t, connect net t (endpoint peer) = Ok client.

(** The identity the peer reports is accepted. *)
Definition accepted (node node' : NodeId) (peer : PeerSpec) : Prop :=
  NodeId_valid node' ∧ node' ≠ node ∧ (expected_node peer = None ∨ expected_node peer = Some node').

Section peer.
Context {DB DB' : Type} {ST : MsgbusStore DB} {ST' : MsgbusStore DB'} {JT : Json TombstoneRange}
        {SR : StoreRefinement DB} {SR' : StoreRefinement DB'}.
Context (status_text : Status → string).

(** The reads of the peer's store meet no limit. *)
Definition serving_ok (e' : Env) (b : AbsStore) : Prop :=
  ¬ limited (DB := DB') e' _ OpListHeads b ∧
  ∀ head, readable (SR := SR') e' b head.

Lemma service_lists node' e' (s' : MsgbusGrpcService DB') b t :
  no_faults e' → serving_ok e' b → rep b (store s') →
  ∃ l, rpc_list_heads (service_client status_text node' e' s') t = Ok (proto_topic_head <$> l) ∧
    l ≡ₚ heads_spec b.
Proof.
  intros Hnf [Hlim _] Hrep. cbn [rpc_list_heads service_client].
  assert (wp e' handle_list_heads (λ r _, ∃ l, r = Ok (proto_topic_head <$> l) ∧ l ≡ₚ heads_spec b) s') as Hw.
  { unfold handle_list_heads. apply wp_bind, (wp_on_store e' OpListHeads _ b); [done|done| |].
    - intros x a' db' (-> & l & [= ->] & Hl) Hrep'. apply wp_ret. by exists l.
    - intros x db' _ [Hf|[Hb|(_ & ? & ? & _)]]; [by destruct (no_faults_has_fault e')|done|done]. }
  specialize (Hw t). unfold answer. destruct (handle_list_heads e' t s') as [[r t'] s1]. cbn in *.
  destruct Hw as (l & -> & Hl). by exists l.
Qed.

Lemma connect_ok net peer client e (s : MsgbusGrpcService DB)
    (Q : result string PeerClient → MsgbusGrpcService DB → Prop) :
  connects net peer client → Q (Ok client) s → wp e (connect_peer net peer None) Q s.
Proof.
  intros [He Hc] HQ. unfold connect_peer. rewrite He. apply wp_bind, wp_of_result.
  apply wp_bind, wp_ret. apply wp_rpc. intros t. by rewrite Hc.
Qed.

Lemma verify_ok node node' client peer e (s : MsgbusGrpcService DB)
    (Q : result string unit → MsgbusGrpcService DB → Prop) :
  (∀ t, rpc_health client t = Ok (Some (proto_node node'))) → accepted node node' peer → Q (Ok tt) s →
  wp e (verify_peer_identity status_text client node peer) Q s.
Proof.
  intros Hh (Hv & Hne & Hx) HQ. unfold verify_peer_identity. apply wp_bind, wp_rpc. intros t. rewrite Hh. cbn.
  apply wp_bind, wp_of_result.
  rewrite (proj2 (core_node_ok _ _) (conj eq_refl (or_intror Hv))). cbn.
  apply wp_bind, wp_of_result. cbn. rewrite bool_decide_false by done.
  destruct Hx as [->| ->]; [by apply wp_ret|]. rewrite bool_decide_true by done. by apply wp_ret.
Qed.

(** The whole pass against one peer. *)
Lemma peer_synced net e e' fuel node node' peer limit a b (s : MsgbusGrpcService DB)
    (s' : MsgbusGrpcService DB') :
  no_faults e → no_faults e' → rep a (store s) → rep b (store s') → servable b →
  connects net peer (service_client status_text node' e' s') → accepted node node' peer →
  serving_ok e' b →
  (∀ A op a', between a b a' → pass_call b a' A op → ¬ limited (DB := DB) e A op a') →
  (∀ k, length (log_of b k) ≤ fuel)%nat → is_u32 limit →
  wp e (sync_peer status_text net fuel node peer limit None) (λ r s1, r = Ok (Some tt) ∧
    ∃ a' new, rep a' (store s1) ∧ between a b a' ∧
      (∀ k, length (log_of a' k) = Nat.max (length (log_of a k)) (length (log_of b k))) ∧
      (∀ k i m, log_of b k !! i = Some m → (length (log_of a k) ≤ i)%nat →
         m ∈ new ∧ (topic_str (sm_topic m) = DELETE_TOPIC → applied a' m) ∧
         ∃ m', log_of a' k !! i = Some m' ∧ entry_le m m') ∧
      published s1 = published s ++ new ∧ recorded peer None None 0 0 0 a') s.
Proof.
  intros Hnf Hnf' Hrep Hrep' Hsv Hcon Hacc Hserve Hlim Hfuel Hlimit.
  pose proof (rep_wf _ _ Hrep') as Hwfb. unfold sync_peer.
  apply wp_bind, (connect_ok net peer _ e s _ Hcon), wp_bind, (verify_ok node node' _ peer e s); [done|done|].
  apply wp_bind, wp_rpc. intros t.
  destruct (service_lists node' e' s' b t Hnf' Hserve Hrep') as (l & -> & Hl).
  pose proof (between_refl a b) as Hbt.
  apply wp_bind. eapply wp_mono; [apply (heads_synced (DB := DB) status_text e Hnf a b Hwfb Hsv Hlim peer _ fuel limit l a)|].
  - intros h Hh. destruct (servable_remote b h Hwfb Hsv Hh) as (_ & Ht & Ho).
    apply service_serves; [done|apply Hserve|done..].
  - apply Forall_forall. intros h. by rewrite Hl.
  - done.
  - done.
  - done.
  - done.
  - intros r s1 (-> & ks & a1 & new & Hrep1 & Hbt1 & Hks & Hsy & Hpub).
    apply wp_bind. eapply wp_mono;
      [apply (success_same (DB := DB) e Hnf a b Hlim peer _ _ _ _ _ a1); [done|done|by split; intros [??]]|].
    intros r s2 (-> & Hpub2 & a2 & Hrep2 & Hle2 & Hlen & Hbt2 & Hrec). apply wp_ret. split; [done|].
    exists a2, new. split; [done|].
    split; [done|]. split; [|split; [|split; [by rewrite Hpub2|done]]].
    + intros k. rewrite Hlen. destruct (decide (k ∈ ks)) as [Hin|Hout]; [by apply (sy_in _ _ _ _ _ Hsy)|].
      rewrite (sy_out _ _ _ _ _ Hsy) by done.
      destruct (decide (log_of b k = [])) as [->|Hne]; [simpl; lia|]. exfalso. apply Hout, Hks.
      destruct (heads_spec_complete b k Hwfb Hne) as (h & Hh & <-). apply list_elem_of_fmap. exists h.
      split; [done|]. by rewrite Hl.
    + intros k i m Hm Hi. assert (k ∈ ks) as Hin.
      { apply Hks. destruct (heads_spec_complete b k Hwfb) as (h & Hh & <-);
          [by intros Hnil; rewrite Hnil in Hm|]. apply list_elem_of_fmap. exists h.
        split; [done|]. by rewrite Hl. }
      destruct (sy_new _ _ _ _ _ Hsy k i m Hin Hm Hi) as (? & Hap & m' & Hm' & He). split; [done|].
      split; [intros Hd; eapply applied_le; [done|by apply Hap]|].
      destruct (proj1 (Hle2 k) _ _ Hm') as (m2 & Hm2 & He2). exists m2. split; [done|by etrans].
Qed.
End peer.

(** ** Contents *)

(** Entries up to their deletion flag. *)
Definition content (l : list StoredMessage) : list StoredMessage := set_deleted true <$> l.

Definition longer (l l' : list StoredMessage) : list StoredMessage :=
  if decide (length l < length l')%nat then l' else l.

(** Where both stores have an entry, it is the same one. *)
Definition consistent (a b : AbsStore) : Prop :=
  ∀ k i m m', log_of a k !! i = Some m → log_of b k !! i = Some m' → set_deleted true m = set_deleted true m'.

(** [a'] holds what [a] or [b] holds: the longer of the two logs, deleted where
    [a] or [b] has it deleted, where a tombstone of [a] covers it, or where a marker
    of [b] says so; and the markers [a] lacked are applied. *)
Record joined `{!Json TombstoneRange} (a b a' : AbsStore) : Prop := {
  jo_le : store_le a a';
  jo_len : ∀ k, length (log_of a' k) = Nat.max (length (log_of a k)) (length (log_of b k));
  jo_new : ∀ k i m, log_of b k !! i = Some m → (length (log_of a k) ≤ i)%nat →
    ∃ m', log_of a' k !! i = Some m' ∧ entry_le m m';
  jo_deleted : ∀ k n, deleted_at a' k n →
    deleted_at a k n ∨ covered (tombs_of a k) n = true ∨ deleted_at b k n ∨ marked_by b k n;
  jo_tombs : ∀ k n, covered (tombs_of a' k) n = true → covered (tombs_of a k) n = true ∨ marked_by b k n;
  jo_applied : ∀ k i m, log_of b k !! i = Some m → (length (log_of a k) ≤ i)%nat →
    topic_str (sm_topic m) = DELETE_TOPIC → applied a' m;
}.

Lemma joined_source `{!Json TombstoneRange} a b a' k i m' :
  joined a b a' → log_of a' k !! i = Some m' →
  ∃ m, (log_of a k !! i = Some m ∨ log_of b k !! i = Some m) ∧ entry_le m m'.
Proof.
  intros [Hle Hlen Hnew _ _ _] Hm'. destruct (log_of a k !! i) as [m|] eqn:Ha.
  - exists m. split; [by left|]. destruct (proj1 (Hle k) i m Ha) as (m1 & Hm1 & He). congruence.
  - apply lookup_ge_None in Ha. pose proof (lookup_lt_Some _ _ _ Hm') as Hlt. rewrite Hlen in Hlt.
    destruct (lookup_lt_is_Some_2 (log_of b k) i) as [m Hm]; [lia|]. exists m. split; [by right|].
    destruct (Hnew k i m Hm Ha) as (m1 & Hm1 & He). congruence.
Qed.

Lemma content_lookup l i : content l !! i = set_deleted true <$> l !! i.
Proof. apply list_lookup_fmap. Qed.

Lemma joined_content `{!Json TombstoneRange} a b a' k :
  joined a b a' → consistent a b → content (log_of a' k) = content (longer (log_of a k) (log_of b k)).
Proof.
  intros Hj Hc. apply list_eq. intros i. rewrite !content_lookup.
  destruct (log_of a' k !! i) as [m'|] eqn:Hm'.
  - destruct (joined_source _ _ _ _ _ _ Hj Hm') as (m & Hm & [He _]). cbn. rewrite <- He.
    pose proof (lookup_lt_Some _ _ _ Hm') as Hlt. rewrite (jo_len _ _ _ Hj) in Hlt. unfold longer.
    case_decide as Hl.
    + destruct (lookup_lt_is_Some_2 (log_of b k) i) as [x Hx]; [lia|]. rewrite Hx. cbn. f_equal.
      destruct Hm as [Hm|Hm]; [by eapply Hc|congruence].
    + destruct (lookup_lt_is_Some_2 (log_of a k) i) as [x Hx]; [lia|]. rewrite Hx. cbn. f_equal.
      destruct Hm as [Hm|Hm]; [congruence|symmetry; by eapply Hc].
  - apply lookup_ge_None in Hm'. rewrite (jo_len _ _ _ Hj) in Hm'.
    rewrite (proj2 (lookup_ge_None _ _)); [done|]. unfold longer. case_decide; lia.
Qed.

Lemma entry_le_fields m m' :
  entry_le m m' → sm_id m' = sm_id m ∧ sm_topic m' = sm_topic m ∧ sm_origin m' = sm_origin m ∧
    sm_head_id m' = sm_head_id m ∧ sm_payload m' = sm_payload m ∧
    sm_created_at_ms m' = sm_created_at_ms m ∧ (sm_deleted m' = false → sm_deleted m = false).
Proof.
  destruct m, m'. intros [He Hd]. unfold set_deleted in He. cbn in *. injection He as -> -> -> -> -> -> ->.
  repeat (split; [done|]). intros ->. by destruct sm_deleted; [specialize (Hd eq_refl)|].
Qed.

Lemma joined_servable `{!Json TombstoneRange} a b a' :
  joined a b a' → consistent a b → servable a → servable b → servable a'.
Proof.
  intros Hj Hc Ha Hb.
  assert (∀ k m', m' ∈ log_of a' k → ∃ m, (m ∈ log_of a k ∨ m ∈ log_of b k) ∧ entry_le m m') as Hsrc.
  { intros k m' (i & Hi)%list_elem_of_lookup. destruct (joined_source _ _ _ _ _ _ Hj Hi) as (m & Hm & He).
    exists m. split; [|done]. destruct Hm as [Hm|Hm]; [left|right]; by eapply list_elem_of_lookup_2. }
  assert (∀ k x y, x ∈ log_of a k → y ∈ log_of b k → sm_origin x = sm_origin y) as Hcross.
  { intros k x y Hx Hy. destruct (log_of a k) as [|x0 la] eqn:Hla; [by apply elem_of_nil in Hx|].
    destruct (log_of b k) as [|y0 lb] eqn:Hlb; [by apply elem_of_nil in Hy|].
    assert (set_deleted true x0 = set_deleted true y0) as H0.
    { apply (Hc k 0%nat); [by rewrite Hla|by rewrite Hlb]. }
    rewrite (sv_uniform _ Ha k x x0) by (rewrite Hla; set_solver).
    rewrite (sv_uniform _ Hb k y y0) by (rewrite Hlb; set_solver).
    by apply (f_equal sm_origin) in H0. }
  split.
  - intros k x y (x0 & Hx & Hex)%Hsrc (y0 & Hy & Hey)%Hsrc.
    apply entry_le_fields in Hex as (_ & _ & -> & _). apply entry_le_fields in Hey as (_ & _ & -> & _).
    destruct Hx as [Hx|Hx], Hy as [Hy|Hy]; [by eapply (sv_uniform _ Ha)|by eapply Hcross
      |symmetry; by eapply Hcross|by eapply (sv_uniform _ Hb)].
  - intros k x (x0 & Hx & Hex)%Hsrc.
    assert (wire_message x0 ∧ NodeId_valid (sm_origin x0) ∧ is_u64 (sm_created_at_ms x0)) as (Hw & Ho & Hu)
      by (destruct Hx as [Hx|Hx]; [by eapply (sv_wire _ Ha)|by eapply (sv_wire _ Hb)]).
    apply entry_le_fields in Hex as (Hi & Ht & Hox & Hh & _ & Hux & _).
    unfold wire_message in *. by rewrite Hi, Ht, Hh, Hox, Hux.
  - intros o x (x0 & Hx & Hex)%Hsrc Hd. apply entry_le_fields in Hex as (_ & _ & Ho & _ & Hp & _ & Hd0).
    assert (marker_ok x0) as (tr & H) by (destruct Hx as [Hx|Hx];
      [by eapply (sv_marker _ Ha), Hd0|by eapply (sv_marker _ Hb), Hd0]).
    exists tr. by rewrite Ho, Hp.
Qed.

(** ** Deletions explained by markers *)

Section explained.
Context {JT : Json TombstoneRange}.

(** A pass that ends in a state between [a] and [b] with all of [b] pulled. *)
Lemma between_joined a b a' (new : list StoredMessage) :
  between a b a' →
  (∀ k, length (log_of a' k) = Nat.max (length (log_of a k)) (length (log_of b k))) →
  (∀ k i m, log_of b k !! i = Some m → (length (log_of a k) ≤ i)%nat →
     m ∈ new ∧ (topic_str (sm_topic m) = DELETE_TOPIC → applied a' m) ∧
     ∃ m', log_of a' k !! i = Some m' ∧ entry_le m m') →
  joined a b a'.
Proof.
  intros [L _ _ D T] Hlen Hnew. split; [done|done| |done|done|].
  - intros k i m Hm Hi. by destruct (Hnew k i m Hm Hi) as (_ & _ & ?).
  - intros k i m Hm Hi. by destruct (Hnew k i m Hm Hi) as (_ & ? & _).
Qed.

(** Between passes a node's deletions and tombstones are those its live control
    entries ask for, and each of these is applied. *)
Record explained (a : AbsStore) : Prop := {
  ex_deleted : ∀ k n, deleted_at a k n → marked_by a k n;
  ex_tombs : ∀ k n, covered (tombs_of a k) n = true → marked_by a k n;
  ex_applied : ∀ o c, c ∈ log_of a (DELETE_TOPIC, o) → applied a c;
}.

(** So an entry is deleted exactly when a marker says so. *)
Lemma explained_flag a k m :
  wf a → explained a → m ∈ log_of a k → sm_deleted m = true ↔ marked_by a k (sm_head_id m).
Proof.
  intros Hwf Hex Hm. split; [intros Hd; apply (ex_deleted _ Hex); by exists m|].
  intros (o & c & tr & Hc & Hd & Htr & Hk & Hr). apply (wf_tomb _ Hwf k m Hm), covered_iff.
  destruct (ex_applied _ Hex o c Hc Hd) as [_ Hap]. exists (tr_from_head_id tr), (tr_to_head_id tr).
  split; [|done]. rewrite <- Hk. by apply Hap.
Qed.

(** No marker names a control log, so control entries are never deleted. *)
Lemma control_unmarked a o n : servable a → ¬ marked_by a (DELETE_TOPIC, o) n.
Proof.
  intros Hsv (o' & c & tr & Hc & Hd & Htr & Hk & _).
  destruct (sv_marker _ Hsv o' c Hc Hd) as (tr' & Htr' & _ & _ & Hne & _).
  assert (tr' = tr) as -> by congruence. by injection Hk.
Qed.

Lemma same_entry m c :
  set_deleted true m = set_deleted true c → sm_deleted m = sm_deleted c → m = c.
Proof. destruct m, c. unfold set_deleted. cbn. intros [=] ->. by subst. Qed.

Lemma same_marker a m c :
  set_deleted true m = set_deleted true c → sm_deleted m = false → applied a m → applied a c.
Proof.
  intros He Hm Ha _. destruct (Ha Hm) as [Hok Htr]. unfold marker_ok in *.
  assert (sm_payload c = sm_payload m ∧ sm_origin c = sm_origin m) as [-> ->]; [|done].
  destruct m, c. unfold set_deleted in He. cbn in *. by injection He as -> -> -> -> -> -> ->.
Qed.

Context (a b a' : AbsStore) (Hj : joined a b a') (Hc : consistent a b).
Context (Hsa : servable a) (Hsb : servable b) (Hea : explained a) (Heb : explained b).

Lemma joined_control_live o c : c ∈ log_of a' (DELETE_TOPIC, o) → sm_deleted c = false.
Proof.
  intros Hin. destruct (sm_deleted c) eqn:Hd; [exfalso|done].
  destruct (jo_deleted _ _ _ Hj (DELETE_TOPIC, o) (sm_head_id c)) as [H|[H|[H|H]]]; [by exists c|..].
  - by apply (ex_deleted _ Hea), control_unmarked in H.
  - by apply (ex_tombs _ Hea), control_unmarked in H.
  - by apply (ex_deleted _ Heb), control_unmarked in H.
  - by apply control_unmarked in H.
Qed.

(** Every entry of either store is in the joined one. *)
Lemma joined_has k i m :
  log_of a k !! i = Some m ∨ log_of b k !! i = Some m →
  ∃ m', log_of a' k !! i = Some m' ∧ set_deleted true m = set_deleted true m'.
Proof.
  intros Hm. destruct (lookup_lt_is_Some_2 (log_of a' k) i) as [m' Hm'].
  { rewrite (jo_len _ _ _ Hj). destruct Hm as [Hm|Hm]; apply lookup_lt_Some in Hm; lia. }
  exists m'. split; [done|]. destruct (joined_source _ _ _ _ _ _ Hj Hm') as (m0 & Hm0 & [<- _]).
  destruct Hm as [Hm|Hm], Hm0 as [Hm0|Hm0]; [congruence|by eapply Hc|symmetry; by eapply Hc|congruence].
Qed.

Lemma joined_marked k n : marked_by a' k n ↔ marked_by a k n ∨ marked_by b k n.
Proof.
  assert (∀ m c : StoredMessage, set_deleted true m = set_deleted true c → sm_payload c = sm_payload m) as Hpay.
  { intros m c He. by apply (f_equal sm_payload) in He. }
  split.
  - intros (o & c & tr & Hin & Hd & Htr & Hr). apply list_elem_of_lookup in Hin as (i & Hi).
    destruct (joined_source _ _ _ _ _ _ Hj Hi) as (m & Hm & He).
    pose proof (entry_le_fields _ _ He) as (_ & _ & _ & _ & Hp & _ & Hdm). rewrite Hp in Htr.
    destruct Hm as [Hm|Hm]; apply list_elem_of_lookup_2 in Hm; [left|right]; exists o, m, tr; auto.
  - intros H. assert (∃ o i c tr, (log_of a (DELETE_TOPIC, o) !! i = Some c ∨ log_of b (DELETE_TOPIC, o) !! i = Some c) ∧
      from_slice (sm_payload c) = Ok tr ∧ key_of (tr_topic tr) (tr_origin tr) = k ∧
      (tr_from_head_id tr ≤ n ≤ tr_to_head_id tr)%N) as (o & i & c & tr & Hin & Htr & Hr).
    { destruct H as [H|H]; destruct H as (o & c & tr & (i & Hi)%list_elem_of_lookup & _ & H);
        exists o, i, c, tr; auto. }
    destruct (joined_has _ _ _ Hin) as (c' & Hc' & He). apply list_elem_of_lookup_2 in Hc'.
    exists o, c', tr. split; [done|]. split; [by eapply joined_control_live|].
    by rewrite (Hpay _ _ He).
Qed.

Lemma joined_applied o c : wf b → c ∈ log_of a' (DELETE_TOPIC, o) → applied a' c.
Proof.
  intros Hwf Hin. apply list_elem_of_lookup in Hin as Hi. destruct Hi as (i & Hi).
  pose proof (joined_control_live o c Hin) as Hd.
  destruct (joined_source _ _ _ _ _ _ Hj Hi) as (m & Hm & He).
  assert (sm_deleted m = false) as Hdm by (by apply (entry_le_fields _ _ He)). destruct He as [He _].
  destruct (log_of a (DELETE_TOPIC, o) !! i) as [m0|] eqn:Hm0.
  - assert (set_deleted true m0 = set_deleted true c) as He0.
    { rewrite <- He. destruct Hm as [Hm|Hm]; [congruence|by eapply Hc]. }
    apply list_elem_of_lookup_2 in Hm0. apply (same_marker a' m0); [done| |].
    + destruct (sm_deleted m0) eqn:Hd0; [exfalso|done].
      apply (control_unmarked a o (sm_head_id m0) Hsa), (ex_deleted _ Hea). by exists m0.
    + eapply applied_le; [apply (jo_le _ _ _ Hj)|]. by apply (ex_applied _ Hea o).
  - destruct Hm as [?|Hm]; [done|]. apply (same_marker a' m); [done|done|].
    apply (jo_applied _ _ _ Hj _ _ _ Hm); [by apply lookup_ge_None|].
    apply (wf_entry _ Hwf) in Hm as [_ Hk]. by injection Hk.
Qed.

Lemma joined_explained : wf b → explained a'.
Proof.
  intros Hwf. split.
  - intros k n Hn. apply joined_marked. destruct (jo_deleted _ _ _ Hj k n Hn) as [H|[H|[H|H]]].
    + left. by apply (ex_deleted _ Hea).
    + left. by apply (ex_tombs _ Hea).
    + right. by apply (ex_deleted _ Heb).
    + by right.
  - intros k n Hn. apply joined_marked. destruct (jo_tombs _ _ _ Hj k n Hn) as [H|H]; [|by right].
    left. by apply (ex_tombs _ Hea).
  - intros o c. by apply joined_applied.
Qed.
End explained.

Lemma joined_consistent `{!Json TombstoneRange} a b a1 : joined a b a1 → consistent a b → consistent b a1.
Proof.
  intros Hj Hc k i m m' Hm Hm'. destruct (joined_source _ _ _ _ _ _ Hj Hm') as (m0 & Hm0 & [He _]).
  rewrite <- He. destruct Hm0 as [Hm0|Hm0]; [symmetry; by eapply Hc|congruence].
Qed.

(** ** The properties *)

(** C7: one pass makes a node catch up with a peer.  When the peer is a node
    that serves a store through its own handlers, its identity is accepted and no
    store call fails or meets a limit, [sync_peer] succeeds; fuel for the longest
    remote log is enough.  Afterwards the local store has lost nothing and every
    log has the length of the longer of the two; each entry that was missing is
    in place, deleted if the peer or a local tombstone had it deleted, and was
    announced on the channel; each delete marker among them is applied as a
    tombstone; and the success is recorded. *)
Theorem sync_pass_converges {DB DB'} `{SR : StoreRefinement DB} `{!MsgbusStore DB'}
    {SR' : StoreRefinement DB'} status_text net e e' fuel node node' peer limit a b
    (s : MsgbusGrpcService DB) (s' : MsgbusGrpcService DB') :
  no_faults e → no_faults e' → rep a (store s) → rep b (store s') → servable b →
  connects net peer (service_client status_text node' e' s') → accepted node node' peer →
  serving_ok (SR' := SR') e' b →
  (∀ A op a', between a b a' → pass_call b a' A op → ¬ limited (DB := DB) e A op a') →
  (∀ k, length (log_of b k) ≤ fuel)%nat → is_u32 limit →
  wp e (sync_peer status_text net fuel node peer limit None) (λ r s1, r = Ok (Some tt) ∧
    ∃ a', rep a' (store s1) ∧ joined a b a' ∧
      published s `prefix_of` published s1 ∧
      (∀ k i m, log_of b k !! i = Some m → (length (log_of a k) ≤ i)%nat →
         m ∈ drop (length (published s)) (published s1) ∧
         (topic_str (sm_topic m) = DELETE_TOPIC → applied a' m)) ∧
      recorded peer None None 0 0 0 a') s.
Proof.
  intros Hnf Hnf' Hrep Hrep' Hsv Hcon Hacc Hserve Hlim Hfuel Hlimit.
  eapply wp_mono; [by apply (peer_synced (SR := SR) (SR' := SR') status_text net e e' fuel node node' peer limit a b s s')|].
  intros r s1 (-> & a' & new & Hrep1 & Hbt & Hlen & Hnew & Hpub & Hrec). split; [done|]. exists a'.
  split; [done|]. split.
  - by eapply between_joined.
  - split; [by rewrite Hpub; eexists|]. split; [|done]. intros k i m Hm Hi.
    destruct (Hnew k i m Hm Hi) as (? & ? & _). by rewrite Hpub, drop_app_length.
Qed.

Lemma node_b_accepted : accepted node_a node_b peer_b.
Proof. split; [apply node_b_valid|]. split; [done|]. by right. Qed.

Definition abs_b : AbsStore := set_log (msg_key message_b) [message_b] abs_empty.

Lemma log_of_b k : log_of abs_b k = if decide (msg_key message_b = k) then [message_b] else [].
Proof. unfold abs_b. rewrite log_of_set_log. by case_decide. Qed.

Lemma servable_b : servable abs_b.
Proof.
  assert (∀ k m, m ∈ log_of abs_b k → m = message_b ∧ k = msg_key message_b) as Hm.
  { intros k m. rewrite log_of_b. case_decide; [|by intros ?%elem_of_nil]. by intros ->%list_elem_of_singleton. }
  split.
  - intros k m m' [-> _]%Hm [-> _]%Hm. done.
  - intros k m [-> _]%Hm. split; [|split; [apply node_b_valid|done]].
    apply (Forall_inv (rl_wire _ _ message_b_remote)).
  - intros o m [_ Hk]%Hm. done.
Qed.

Lemma sync_pass_converges_witness :
  wp env0 (sync_peer status_text0 (net_to remote_b) 1 node_a peer_b 10 None) (λ r s1, r = Ok (Some tt) ∧
    ∃ a', rep (StoreRefinement := redb_refinement) a' (store s1) ∧ joined abs_empty abs_b a' ∧
      published service0 `prefix_of` published s1 ∧
      (∀ k i m, log_of abs_b k !! i = Some m → (length (log_of abs_empty k) ≤ i)%nat →
         m ∈ drop (length (published service0)) (published s1) ∧
         (topic_str (sm_topic m) = DELETE_TOPIC → applied a' m)) ∧
      recorded peer_b None None 0 0 0 a') service0.
Proof.
  apply (sync_pass_converges (SR := redb_refinement) (SR' := redb_refinement) status_text0 (net_to remote_b)
    env0 env0 1 node_a node_b peer_b 10 abs_empty abs_b service0 remote_b);
    [apply env0_no_faults | apply env0_no_faults | apply empty_rep | by apply put_first_rep
    | apply servable_b | done | apply node_b_accepted
    | split; [apply redb_unlimited | intros h from lim _; apply redb_unlimited]
    | intros A op a' _ _; apply redb_unlimited | | done].
  intros k. rewrite log_of_b. case_decide; simpl; lia.
Defined.

(** Two stores joined into each other hold the same logs. *)
Lemma joined_same `{!Json TombstoneRange} a b a1 b1 k :
  joined a b a1 → joined b a1 b1 → consistent a b → servable a → servable b → explained a → explained b →
  wf a → wf b → wf a1 → wf b1 →
  log_of a1 k = log_of b1 k ∧ content (log_of a1 k) = content (longer (log_of a k) (log_of b k)) ∧
  ∀ m, m ∈ log_of a1 k →
    sm_deleted m = true ↔ marked_by a k (sm_head_id m) ∨ marked_by b k (sm_head_id m).
Proof.
  intros Hj Hj1 Hc Hsa Hsb Hea Heb Hwa Hwb Hwa1 Hwb1.
  pose proof (joined_servable a b a1 Hj Hc Hsa Hsb) as Hsa1.
  pose proof (joined_explained a b a1 Hj Hc Hsa Hsb Hea Heb Hwb) as Hea1.
  pose proof (joined_consistent a b a1 Hj Hc) as Hc1.
  pose proof (joined_explained b a1 b1 Hj1 Hc1 Hsb Hsa1 Heb Hea1 Hwa1) as Heb1.
  assert (∀ n, marked_by a1 k n ↔ marked_by a k n ∨ marked_by b k n) as Hm
    by (intros n; by apply joined_marked).
  assert (∀ n, marked_by b1 k n ↔ marked_by a1 k n) as Hm1.
  { intros n. rewrite (joined_marked b a1 b1 Hj1 Hc1 Hsb Hsa1 Heb Hea1), !Hm. tauto. }
  split; [|split; [by apply joined_content|]].
  2: { intros m Hin. rewrite <- Hm. by apply explained_flag. }
  apply list_eq. intros i. destruct (log_of a1 k !! i) as [m|] eqn:Hi.
  - destruct (joined_has b a1 b1 Hj1 Hc1 k i m) as (m' & Hm' & He); [by right|]. rewrite Hm'. f_equal.
    apply same_entry; [done|]. apply eq_bool_prop_intro. rewrite !Is_true_true.
    rewrite (explained_flag a1 k m), (explained_flag b1 k m') by (done || by eapply list_elem_of_lookup_2).
    rewrite Hm1. apply (f_equal sm_head_id) in He. cbn in He. by rewrite He.
  - symmetry. apply lookup_ge_None. apply lookup_ge_None in Hi. rewrite (jo_len _ _ _ Hj1).
    rewrite (jo_len _ _ _ Hj) in *. lia.
Qed.

(** C8: two nodes that pull from each other converge.  Let two nodes, each with
    its own backend, hold stores that agree wherever both have an entry and whose
    deletions are those their live markers ask for, and let no store call of the
    two passes fail or meet a limit.  After one pass of the first node against the
    second and one of the second against the first, both passes have succeeded
    and every log, of whatever topic and origin, is the same on both nodes,
    deletion flags included: it has the entries of the longer of the two logs
    they started with, deleted exactly where a live marker of either node says
    so. *)
Theorem two_nodes_converge {DB DB'} `{SR : StoreRefinement DB} `{!MsgbusStore DB'}
    {SR' : StoreRefinement DB'} status_text net net' e e' fuel node node' peer peer' limit a b
    (s : MsgbusGrpcService DB) (s' : MsgbusGrpcService DB') :
  no_faults e → no_faults e' → rep a (store s) → rep b (store s') →
  servable a → servable b → explained a → explained b → consistent a b →
  serving_ok (SR' := SR') e' b →
  (∀ A op a', between a b a' → pass_call b a' A op → ¬ limited (DB := DB) e A op a') →
  (∀ a1, joined a b a1 → serving_ok (SR' := SR) e a1 ∧
     ∀ A op b', between b a1 b' → pass_call a1 b' A op → ¬ limited (DB := DB') e' A op b') →
  connects net peer (service_client status_text node' e' s') →
  (∀ s1, connects (net' s1) peer' (service_client status_text node e s1)) →
  accepted node node' peer → accepted node' node peer' →
  (∀ k, length (log_of a k) ≤ fuel ∧ length (log_of b k) ≤ fuel)%nat → is_u32 limit →
  wp e (sync_peer status_text net fuel node peer limit None) (λ r s1, r = Ok (Some tt) ∧
    wp e' (sync_peer status_text (net' s1) fuel node' peer' limit None) (λ r' s2, r' = Ok (Some tt) ∧
      ∃ a1 b1, rep a1 (store s1) ∧ rep b1 (store s2) ∧
        ∀ k, log_of a1 k = log_of b1 k ∧
             content (log_of a1 k) = content (longer (log_of a k) (log_of b k)) ∧
             ∀ m, m ∈ log_of a1 k →
               sm_deleted m = true ↔ marked_by a k (sm_head_id m) ∨ marked_by b k (sm_head_id m)) s') s.
Proof.
  intros Hnf Hnf' Hrep Hrep' Hsa Hsb Hea Heb Hc Hserve Hlim Hlim' Hcon Hcon' Hacc Hacc' Hfuel Hlimit.
  eapply wp_mono; [apply (peer_synced (SR := SR) (SR' := SR') status_text net e e' fuel node node' peer limit a b s s');
    try done; intros k; apply Hfuel|].
  intros r s1 (-> & a1 & new & Hrep1 & Hbt & Hlen & Hnew & _). split; [done|].
  assert (joined a b a1) as Hj by (by eapply between_joined).
  destruct (Hlim' a1 Hj) as [Hserve' Hlim2].
  eapply wp_mono; [apply (peer_synced (SR := SR') (SR' := SR) status_text (net' s1) e' e fuel node' node peer'
    limit b a1 s' s1); try done; [by eapply joined_servable|]|].
  { intros k. rewrite Hlen. destruct (Hfuel k). lia. }
  intros r s2 (-> & b1 & new1 & Hrep2 & Hbt1 & Hlen1 & Hnew1 & _). split; [done|].
  exists a1, b1. split; [done|]. split; [done|]. intros k.
  apply joined_same; try done;
    [by eapply between_joined|exact (rep_wf _ _ Hrep)|exact (rep_wf _ _ Hrep')|exact (rep_wf _ _ Hrep1)|exact (rep_wf _ _ Hrep2)].
Qed.

(** ** Two nodes with different backends

    A redb node that published one message, and a SQLite node that published one
    and deleted it: its store holds the deleted entry, its marker and the
    tombstone. *)

Definition peer_a : PeerSpec := mkPeerSpec "http://a" None.
Definition net_to_a (s : MsgbusGrpcService (RedbStore GTable)) : Transport :=
  mkTransport (λ _, Ok tt) (λ _ _, Err "no file") (λ _ _ _, Ok tt)
    (λ _ _, Ok (service_client status_text0 node_a env0 s)).

Definition message_a : StoredMessage :=
  mkStoredMessage (mkMessageId "a1") topic_events node_a 1 [Byte.x01] ∅ 5 false.
Definition abs_a : AbsStore := set_log (msg_key message_a) [message_a] abs_empty.
Definition service_a : MsgbusGrpcService (RedbStore GTable) :=
  service_new (redb_put_replicated_message message_a env0 0 empty_db).2.

Definition env_b : Env := mkEnv (λ _, Some 9%N) (λ _, "id") (λ _, None).
Definition delete_b : StoreOp (N * StoredMessage) :=
  OpTombstoneMarker topic_events node_b 1 1 (mkTopic DELETE_TOPIC) node_b.
Definition sqlite_b : SqliteStore :=
  (run_op delete_b env_b 1 (sqlite_put_replicated_message message_b env_b 0 sqlite0).2).2.
Definition deleted_b : MsgbusGrpcService SqliteStore := service_new sqlite_b.
Definition abs_deleted_b : AbsStore :=
  (marker_spec (mkMessageId "id") 9 9 topic_events node_b 1 1 (mkTopic DELETE_TOPIC) node_b abs_b).2.
Definition range_b : TombstoneRange := mkTombstoneRange topic_events node_b 1 1 9.
Definition marker_b : StoredMessage :=
  mkStoredMessage (mkMessageId "id") (mkTopic DELETE_TOPIC) node_b 1 (enc_of range_b) ∅ 9 false.
Definition net_to_b : Transport :=
  mkTransport (λ _, Ok tt) (λ _ _, Err "no file") (λ _ _ _, Ok tt)
    (λ _ _, Ok (service_client status_text0 node_b env_b deleted_b)).

Lemma env_b_clock : ¬ clock_over env_b.
Proof. intros (n & [t ->] & Hov). done. Qed.

Lemma sqlite_next {A} (op : StoreOp A) t a (s : SqliteStore) :
  op_typed op → ¬ sqlite_limited env_b A op a → sqlite_db_rep a s →
  sqlite_db_rep (reference_op env_b op a).2 (run_op op env_b t s).2.
Proof.
  intros Hty Hlim Hrep. pose proof (store_reference (SR := sqlite_refinement) env_b op a s Hty
    ltac:(done) ltac:(done) Hlim Hrep t) as H.
  destruct (run_op op env_b t s) as [[r t'] s']. exact (proj2 H).
Qed.

Lemma abs_b_ids k m : m ∈ log_of abs_b k → m = message_b ∧ k = msg_key message_b.
Proof.
  rewrite log_of_b. case_decide; [|by intros ?%elem_of_nil]. by intros ->%list_elem_of_singleton.
Qed.

Lemma sqlite_b_rep : sqlite_db_rep abs_deleted_b sqlite_b.
Proof.
  apply (sqlite_next delete_b 1 abs_b); [done| |].
  - intros [H|[H|[(t & k & m & [-> _]%abs_b_ids & H)|H]]]; [discriminate|discriminate|discriminate|].
    by apply env_b_clock in H.
  - apply (sqlite_next (OpPutReplicated message_b) 0 abs_empty); [done| |apply sqlite_empty_rep].
    intros [H|[H|(k & m & Hm%elem_of_nil & _)]]; [discriminate|discriminate|done].
Qed.

Lemma deleted_b_log k m :
  m ∈ log_of abs_deleted_b k ↔
  (m = set_deleted true message_b ∧ k = msg_key message_b) ∨ (m = marker_b ∧ k = msg_key marker_b).
Proof.
  destruct (marker_entry (mkMessageId "id") 9 9 topic_events node_b 1 1 abs_b) as [_ Hc]; [done|done|done|].
  fold abs_deleted_b range_b in Hc. destruct (decide (k = msg_key marker_b)) as [->|Hk].
  { change (log_of abs_deleted_b (msg_key marker_b) = [marker_b]) in Hc. rewrite Hc, list_elem_of_singleton.
    split; [by right|]. by intros [[_ ?]|[-> _]]. }
  assert (log_of abs_deleted_b k = if decide (msg_key message_b = k) then [set_deleted true message_b] else []) as ->.
  { unfold abs_deleted_b, marker_spec, append_spec. cbn [snd]. rewrite log_of_set_log, decide_False by done.
    unfold tombstone_spec. cbn [snd]. rewrite log_of_set_tombs, log_of_set_log, log_of_b.
    change (key_of topic_events node_b) with (msg_key message_b). rewrite (log_of_b k). case_decide; [|done].
    by rewrite decide_True. }
  case_decide; [rewrite list_elem_of_singleton|rewrite elem_of_nil]; naive_solver.
Qed.

Lemma deleted_b_len k : (length (log_of abs_deleted_b k) ≤ 1)%nat.
Proof.
  unfold abs_deleted_b, marker_spec. cbn [snd].
  destruct (decide (k = msg_key marker_b)) as [->|Hk]; [vm_compute; lia|].
  unfold append_spec. cbn [snd]. rewrite log_of_set_log, decide_False by done. rewrite tombstone_length, log_of_b.
  case_decide; simpl; lia.
Qed.

Lemma deleted_b_tombs k n : covered (tombs_of abs_deleted_b k) n = true → k = msg_key message_b ∧ n = 1%N.
Proof.
  unfold abs_deleted_b, marker_spec, append_spec. cbn [snd]. rewrite tombs_of_set_log.
  intros [H|[-> H]]%tombstone_covered; [|split; [done|lia]].
  apply covered_iff in H as (f & t & H & _). change (tombs_of abs_b k) with (∅ : gset (N * N)) in H. set_solver.
Qed.

Lemma abs_a_log k m : m ∈ log_of abs_a k ↔ m = message_a ∧ k = msg_key message_a.
Proof.
  unfold abs_a. rewrite log_of_set_log. case_decide; [rewrite list_elem_of_singleton|];
    [naive_solver|]. change (log_of abs_empty k) with (@nil StoredMessage). rewrite elem_of_nil. naive_solver.
Qed.

Lemma wire_sample m :
  NodeId_valid (sm_origin m) → sm_head_id m = 1%N → is_ok (validate_part "" (topic_str (sm_topic m))) = true →
  is_ok (validate_part "" (message_id_str (sm_id m))) = true → wire_message m.
Proof.
  intros Ho Hh Ht Hi. split; [by right|]. split; [by rewrite Hh|].
  split; apply (validate_part_ok ""); [by destruct (validate_part "" (topic_str _)) as [[]|]|].
  by destruct (validate_part "" (message_id_str _)) as [[]|].
Qed.

Lemma marker_b_ok : marker_ok marker_b.
Proof. exists range_b. split; [apply from_slice_enc|]. done. Qed.

Lemma servable_a : servable abs_a.
Proof.
  split.
  - intros k m m' [-> _]%abs_a_log [-> _]%abs_a_log. done.
  - intros k m [-> _]%abs_a_log. split; [by apply wire_sample; [apply node_a_valid|..]|].
    split; [apply node_a_valid|done].
  - intros o m [_ Hk]%abs_a_log. done.
Qed.

Lemma servable_deleted_b : servable abs_deleted_b.
Proof.
  split.
  - intros k m m' [[-> Hk]|[-> Hk]]%deleted_b_log [[-> Hk']|[-> Hk']]%deleted_b_log; congruence || done.
  - intros k m [[-> _]|[-> _]]%deleted_b_log; (split; [by apply wire_sample; [apply node_b_valid|..]|]);
      (split; [apply node_b_valid|done]).
  - intros o m [[-> Hk]|[-> _]]%deleted_b_log _; [done|apply marker_b_ok].
Qed.

Lemma explained_a : explained abs_a.
Proof.
  split.
  - intros k n (m & [-> _]%abs_a_log & _ & Hd). done.
  - intros k n (f & t & H & _)%covered_iff. change (tombs_of abs_a k) with (∅ : gset (N * N)) in H. set_solver.
  - intros o c [_ Hk]%abs_a_log. done.
Qed.

Lemma explained_deleted_b : explained abs_deleted_b.
Proof.
  assert (marked_by abs_deleted_b (msg_key message_b) 1) as Hm.
  { exists (NodeId.key node_b), marker_b, range_b. split; [apply deleted_b_log; by right|].
    split; [done|]. split; [apply from_slice_enc|]. split; [done|]. cbn. lia. }
  split.
  - intros k n (m & [[-> ->]|[-> _]]%deleted_b_log & <- & Hd); [exact Hm|done].
  - intros k n [-> ->]%deleted_b_tombs. exact Hm.
  - intros o c [[_ Hk]|[-> _]]%deleted_b_log; [done|]. intros _. split; [apply marker_b_ok|].
    intros tr Htr. change (sm_payload marker_b) with (enc_of range_b) in Htr.
    rewrite from_slice_enc in Htr. injection Htr as <-.
    assert (tombs_of abs_deleted_b (key_of topic_events node_b) =
      {[ (1%N, 1%N) ]} ∪ tombs_of abs_b (key_of topic_events node_b)) as Ht.
    { unfold abs_deleted_b, marker_spec, append_spec, tombstone_spec. cbn [snd].
      rewrite tombs_of_set_log, tombs_of_set_tombs. by rewrite decide_True. }
    cbn [tr_topic tr_origin range_b]. rewrite Ht. set_solver.
Qed.

(** The reads the SQLite node serves. *)
Lemma serving_deleted_b : serving_ok (SR' := sqlite_refinement) env_b abs_deleted_b.
Proof.
  split.
  - intros (k & m & Hm & Hno). apply Hno, (sv_wire _ servable_deleted_b k m Hm).
  - intros head from lim Hfrom [Hov|Hex].
    + pose proof (deleted_b_len (key_of (th_topic head) (th_origin head))). unfold over, i64_max, log_head in *.
      cbn in Hov. lia.
    + apply Exists_exists in Hex as (m & (i & Hm & _)%elem_of_take & Hno).
      apply list_elem_of_lookup_2, list_elem_of_filter in Hm as [_ Hm].
      destruct (sv_wire _ servable_deleted_b _ m Hm) as [(_ & _ & ? & ?) _]. by apply Hno.
Qed.

(** The store calls of the SQLite node's pass. *)
Lemma pass_deleted_b a1 b' A (op : StoreOp A) :
  joined abs_a abs_deleted_b a1 → between abs_deleted_b a1 b' → pass_call a1 b' A op →
  ¬ sqlite_limited env_b A op b'.
Proof.
  intros Hj Hbt Hcall.
  assert (∀ k i m, log_of a1 k !! i = Some m → (log_of abs_a k !! i = Some message_a ∧ sm_id m = sm_id message_a ∧
      sm_head_id m = 1%N ∧ sm_created_at_ms m = 5%N ∧ msg_key m = k) ∨
    ∃ m0, log_of abs_deleted_b k !! i = Some m0 ∧ set_deleted true m0 = set_deleted true m) as Hsrc.
  { intros k i m Hm. destruct (joined_source _ _ _ _ _ _ Hj Hm) as (m0 & [Hm0|Hm0] & He).
    - left. pose proof (list_elem_of_lookup_2 _ _ _ Hm0) as [-> ->]%abs_a_log.
      apply entry_le_fields in He as (-> & Ht & Ho & -> & _ & -> & _). unfold msg_key. by rewrite Ht, Ho.
    - right. exists m0. split; [done|]. apply He. }
  destruct Hcall as [|k m Hm|o m tr Hm Hd Htr|]; [intros []| | |intros []].
  - destruct (Hsrc k _ m Hm) as [(Ha & Hid & Hh & Ht & Hk)|(m0 & Hm0 & _)].
    2: { apply lookup_lt_Some in Hm0. 
         pose proof (proj1 (store_le_kept _ _ (bt_le _ _ _ Hbt)) k) as Hk. unfold log_head in Hk. lia. }
    simpl. rewrite Hk, Hh, Ht, Hid. intros [H|H]; [discriminate|].
    pose proof (list_elem_of_lookup_2 _ _ _ Ha) as [_ ->]%abs_a_log.
    assert (log_of b' (msg_key message_a) = []) as Hnil.
    { pose proof (lookup_lt_Some _ _ _ Ha) as Hlt. unfold abs_a in Hlt.
      rewrite log_of_set_log, decide_True in Hlt by done. apply length_zero_iff_nil. simpl in Hlt. lia. }
    rewrite Hnil in H. destruct H as [H|(k' & m' & (i & Hi)%list_elem_of_lookup & Hid')]; [discriminate|].
    destruct (bt_entry _ _ _ Hbt k' i m' Hi) as (x & Hx & He). apply entry_le_fields in He as (He & _).
    rewrite Hid' in He.
    assert (∀ y, log_of abs_deleted_b k' !! i = Some y → sm_id y ≠ sm_id message_a) as Hno.
    { intros y Hy. by apply list_elem_of_lookup_2, deleted_b_log in Hy as [[-> _]|[-> _]]. }
    destruct Hx as [Hx|Hx]; [by apply (Hno x)|]. destruct (Hsrc k' i x Hx) as [(Hk' & _)|(y & Hy & Hey)].
    + apply list_elem_of_lookup_2, abs_a_log in Hk' as [_ ->]. by rewrite Hnil in Hi.
    + apply (Hno y Hy). rewrite He. by apply (f_equal sm_id) in Hey.
  - apply list_elem_of_lookup in Hm as (i & Hi). destruct (Hsrc _ _ _ Hi) as [(Ha & _)|(m0 & Hm0 & He)].
    { by apply list_elem_of_lookup_2, abs_a_log in Ha as [_ ?]. }
    apply list_elem_of_lookup_2, deleted_b_log in Hm0 as [[_ ?]|[-> _]]; [done|].
    apply (f_equal sm_payload) in He. change (enc_of range_b = sm_payload m) in He.
    rewrite <- He, from_slice_enc in Htr. injection Htr as <-.
    intros [H|H]; [discriminate|by apply env_b_clock in H].
Qed.

Lemma two_nodes_converge_witness :
  wp env0 (sync_peer status_text0 net_to_b 1 node_a peer_b 10 None) (λ r s1, r = Ok (Some tt) ∧
    wp env_b (sync_peer status_text0 (net_to_a s1) 1 node_b peer_a 10 None) (λ r' s2, r' = Ok (Some tt) ∧
      ∃ a1 b1, rep (StoreRefinement := redb_refinement) a1 (store s1) ∧
        rep (StoreRefinement := sqlite_refinement) b1 (store s2) ∧
        ∀ k, log_of a1 k = log_of b1 k ∧
             content (log_of a1 k) = content (longer (log_of abs_a k) (log_of abs_deleted_b k)) ∧
             ∀ m, m ∈ log_of a1 k → sm_deleted m = true ↔
               marked_by abs_a k (sm_head_id m) ∨ marked_by abs_deleted_b k (sm_head_id m)) deleted_b) service_a.
Proof.
  apply (two_nodes_converge (SR := redb_refinement) (SR' := sqlite_refinement) status_text0 net_to_b
    net_to_a env0 env_b 1 node_a node_b peer_b peer_a 10 abs_a abs_deleted_b service_a deleted_b);
    [ apply env0_no_faults | intros t; reflexivity | apply put_first_rep; [reflexivity|by vm_compute]
    | apply sqlite_b_rep | apply servable_a | apply servable_deleted_b | apply explained_a
    | apply explained_deleted_b | | apply serving_deleted_b | intros; apply redb_unlimited | | | | | | | ].
  - intros k i m m' Hm%list_elem_of_lookup_2 Hm'%list_elem_of_lookup_2.
    apply abs_a_log in Hm as [-> ->]. apply deleted_b_log in Hm' as [[_ ?]|[_ ?]]; discriminate.
  - intros a1 Hj. split; [split; [apply redb_unlimited|intros h from lim _; apply redb_unlimited]|].
    intros A op b' Hbt Hcall. by apply (pass_deleted_b a1).
  - split; [reflexivity|]. intros t. reflexivity.
  - intros s1. split; [reflexivity|]. intros t. reflexivity.
  - apply node_b_accepted.
  - split; [apply node_a_valid|]. split; [discriminate|by left].
  - intros k. split; [|apply deleted_b_len]. unfold abs_a. rewrite log_of_set_log.
    case_decide; [apply Nat.le_refl|apply Nat.le_0_l].
  - by vm_compute.
Defined.

(** ** A peer that never ends its stream *)






