(* ===== verification/Subscribe.v ===== *)
(** * Subscribe: the subscription task

    Models the task [MsgbusGrpcService::subscribe] spawns
    ([crates/msgbus-server/src/lib.rs]): first the replay page, then the live
    channel, filtered and deduplicated by head number.  The task runs
    concurrently with the rest of the service, so it is a state machine driven
    by events.  The broadcast channel is tokio's: every receiver has its own
    position and is told that it lagged when more than the capacity is unread;
    the text of that error is a parameter. *)

From Stdlib Require Import Ascii String NArith ZArith Lia Sorting.Sorted.
From stdpp Require Import base strings list gmap.
From S2P Require Import Prelude Strings Core Spec Proto Server Replay.

(** [broadcast::channel(1024)] *)
Definition CHANNEL_CAPACITY : nat := 1024.

Record Task := mkTask {
  task_topic : Topic;
  task_origin : NodeId;
  last_sent : N;
  replay : list StoredMessage;
  live : nat;
  sent : list (SResult MessageResponse);
  running : bool;
}.

(** [SendersDropped] is a turn of the task once every sender is gone: the
    receiver still hands out what is unread and reports [Closed] only then. *)
Inductive Event : Type :=
| Published (m : StoredMessage)
| TaskRuns
| ReceiverDropped
| SendersDropped.

Record Sys := mkSys { channel : list StoredMessage; task : Task }.

Definition response (m : StoredMessage) : SResult MessageResponse :=
  Ok (mkMessageResponse (Some (proto_message m))).

Definition task_start (s : SubscribeStart) : Task :=
  mkTask (ss_topic s) (ss_origin s) (u64_saturating_sub (ss_from_head_id s) 1) (ss_replay s)
    (ss_live_from s) [] true.

Definition stop (t : Task) : Task :=
  mkTask (task_topic t) (task_origin t) (last_sent t) (replay t) (live t) (sent t) false.

(** [message.topic == topic && message.origin == origin] *)
Definition matching (t : Topic) (o : NodeId) (m : StoredMessage) : bool :=
  bool_decide (sm_topic m = t) && bool_decide (sm_origin m = o).

Section subscribe.
Context (lag_text : nat → string).

(** One iteration of the task while the client listens: the [for] loop over
    the replay, then the [while] loop over the channel. *)
Definition task_step (channel : list StoredMessage) (t : Task) : Task :=
  if negb (running t) then t
  else
    match replay t with
    | message :: rest =>
        mkTask (task_topic t) (task_origin t) (N.max (last_sent t) (sm_head_id message)) rest
          (live t) (sent t ++ [response message]) true
    | [] =>
        let unread := (length channel - live t)%nat in
        if (CHANNEL_CAPACITY <? unread)%nat
        then mkTask (task_topic t) (task_origin t) (last_sent t) [] (live t)
               (sent t ++ [Err (unavailable ("subscription lagged: "
                                  +:+ lag_text (unread - CHANNEL_CAPACITY)))]) false
        else
          match channel !! live t with
          | None => t
          | Some message =>
              if matching (task_topic t) (task_origin t) message
                 && (last_sent t <? sm_head_id message)%N
              then mkTask (task_topic t) (task_origin t) (sm_head_id message) [] (S (live t))
                     (sent t ++ [response message]) true
              else mkTask (task_topic t) (task_origin t) (last_sent t) [] (S (live t))
                     (sent t) true
          end
    end.

(** The replay is sent and no message is unread. *)
Definition drained (channel : list StoredMessage) (t : Task) : bool :=
  bool_decide (replay t = []) && bool_decide (length channel ≤ live t)%nat.

Definition sys_step (s : Sys) (ev : Event) : Sys :=
  match ev with
  | Published m => mkSys (channel s ++ [m]) (task s)
  | TaskRuns => mkSys (channel s) (task_step (channel s) (task s))
  | ReceiverDropped => mkSys (channel s) (stop (task s))
  | SendersDropped =>
      mkSys (channel s) (if drained (channel s) (task s) then stop (task s)
                         else task_step (channel s) (task s))
  end.

Definition sys_run (s : Sys) (evs : list Event) : Sys := fold_left sys_step evs s.

(** ** What the client has received *)

Definition ok_sent (l : list (SResult MessageResponse)) : list MessageEnvelope :=
  omap (λ r, match r with Ok x => mr_message x | Err _ => None end) l.

Definition env_lt (x y : MessageEnvelope) : Prop := (me_head_id x < me_head_id y)%N.

Lemma ok_sent_app l l' : ok_sent (l ++ l') = ok_sent l ++ ok_sent l'.
Proof. apply omap_app. Qed.

Lemma ok_sent_response m : ok_sent [response m] = [proto_message m].
Proof. done. Qed.

(** The invariant of a task that started at [from]: what was sent is strictly
    increasing, from [from] on and at most [last_sent]; what is left of the
    replay is strictly increasing and beyond. *)
Record task_inv (from : N) (t : Task) : Prop := {
  ti_from : Forall (λ x, (from ≤ me_head_id x)%N) (ok_sent (sent t));
  ti_last : (from ≤ last_sent t + 1)%N;
  ti_sorted : StronglySorted env_lt (ok_sent (sent t));
  ti_bound : Forall (λ x, (me_head_id x ≤ last_sent t)%N) (ok_sent (sent t));
  ti_replay : StronglySorted (λ x y, (sm_head_id x < sm_head_id y)%N) (replay t);
  ti_fresh : Forall (λ m, (last_sent t < sm_head_id m)%N) (replay t);
  ti_key : Forall (λ x, me_topic x = topic_str (task_topic t) ∧
             option_map (λ o, NodeId.key (mkNodeId (p_tenant_id o) (p_bl_name o) (p_device_id o)))
               (me_origin x) = Some (NodeId.key (task_origin t))) (ok_sent (sent t));
  ti_replay_key : Forall (λ m, msg_key m = key_of (task_topic t) (task_origin t)) (replay t);
}.

Lemma sorted_snoc l (x : MessageEnvelope) n :
  StronglySorted env_lt l → Forall (λ y, (me_head_id y ≤ n)%N) l → (n < me_head_id x)%N →
  StronglySorted env_lt (l ++ [x]).
Proof.
  induction 1 as [|y l Hs IH Hy]; intros Hb Hx; simpl; [by repeat constructor|].
  apply Forall_cons_1 in Hb as [Hby Hb]. constructor; [by apply IH|].
  apply Forall_app. split; [done|]. constructor; [unfold env_lt; lia | done].
Qed.

Lemma proto_message_key m t o :
  msg_key m = key_of t o →
  me_topic (proto_message m) = topic_str t ∧
  option_map (λ o, NodeId.key (mkNodeId (p_tenant_id o) (p_bl_name o) (p_device_id o)))
    (me_origin (proto_message m)) = Some (NodeId.key o).
Proof. intros H. injection H as Ht Ho. simpl. rewrite Ht, <- Ho. done. Qed.

Lemma task_inv_send from t m rest n :
  task_inv from t → (last_sent t < sm_head_id m)%N → msg_key m = key_of (task_topic t) (task_origin t) →
  StronglySorted (λ x y, (sm_head_id x < sm_head_id y)%N) (m :: rest) →
  Forall (λ m, msg_key m = key_of (task_topic t) (task_origin t)) rest →
  task_inv from (mkTask (task_topic t) (task_origin t) (sm_head_id m) rest n
              (sent t ++ [response m]) true).
Proof.
  intros [Hfr Hl Hs Hb Hr Hf Hk Hrk] Hlt Hkey Hrest Hkeys. inversion Hrest as [|?? Hrest' Hall]; subst.
  split; simpl; rewrite ?ok_sent_app, ?ok_sent_response.
  - apply Forall_app. split; [done|]. constructor; [simpl; lia | done].
  - lia.
  - by apply (sorted_snoc _ _ (last_sent t)).
  - apply Forall_app. split; [|by repeat constructor; simpl; lia].
    eapply Forall_impl; [exact Hb|]. simpl. intros. lia.
  - done.
  - eapply Forall_impl; [exact Hall|]. done.
  - apply Forall_app. split; [done|]. constructor; [|done]. by apply proto_message_key.
  - done.
Qed.

Lemma task_step_inv from ch t : task_inv from t → task_inv from (task_step ch t).
Proof.
  intros Hinv. unfold task_step. destruct (running t); simpl; [|done].
  pose proof Hinv as [Hfr Hl Hs Hb Hr Hf Hk Hrk].
  destruct (replay t) as [|m rest] eqn:Hreplay.
  - destruct (_ <? _)%nat.
    { split; simpl; rewrite ?ok_sent_app; simpl; rewrite ?app_nil_r; done. }
    destruct (ch !! live t) as [m|]; [|done].
    destruct (matching _ _ m && _) eqn:Hm; [|by split].
    apply andb_true_iff in Hm as [Hmatch Hlt%N.ltb_lt].
    unfold matching in Hmatch. rewrite andb_true_iff, !bool_decide_eq_true in Hmatch.
    apply task_inv_send; [done|done| |by repeat constructor|done].
    destruct Hmatch as [<- <-]. done.
  - apply Forall_cons_1 in Hf as [Hlt Hf]. apply Forall_cons_1 in Hrk as [Hkm Hkr].
    rewrite N.max_r by lia. by apply task_inv_send.
Qed.

Lemma sys_run_inv from s evs :
  task_inv from (task s) → task_inv from (task (sys_run s evs)).
Proof.
  revert s. induction evs as [|ev evs IH]; intros s Hs; [done|]. simpl. apply IH.
  destruct ev; simpl; [done|by apply task_step_inv|by destruct Hs|].
  destruct (drained _ _); [by destruct Hs|by apply task_step_inv].
Qed.

Lemma sys_run_names s evs :
  task_topic (task (sys_run s evs)) = task_topic (task s) ∧
  task_origin (task (sys_run s evs)) = task_origin (task s).
Proof.
  revert s. induction evs as [|ev evs IH]; intros s; [done|]. simpl.
  destruct (IH (sys_step s ev)) as [-> ->].
  destruct ev; simpl; try destruct (drained _ _); try done; unfold task_step; by repeat case_match.
Qed.

(** ** What the task delivers while it runs *)

(** The live filter as a function: the messages beyond [last], each beyond the
    one before. *)
Fixpoint fresh (last : N) (l : list StoredMessage) : list StoredMessage :=
  match l with
  | [] => []
  | m :: l' => if (last <? sm_head_id m)%N then m :: fresh (sm_head_id m) l' else fresh last l'
  end.

Fixpoint fresh_last (last : N) (l : list StoredMessage) : N :=
  match l with
  | [] => last
  | m :: l' => if (last <? sm_head_id m)%N then fresh_last (sm_head_id m) l' else fresh_last last l'
  end.

Lemma fresh_snoc last l m :
  fresh last (l ++ [m]) =
    fresh last l ++ (if (fresh_last last l <? sm_head_id m)%N then [m] else []) ∧
  fresh_last last (l ++ [m]) =
    (if (fresh_last last l <? sm_head_id m)%N then sm_head_id m else fresh_last last l).
Proof.
  revert last. induction l as [|x l IH]; intros last; simpl; [by destruct (_ <? _)%N|].
  destruct (last <? sm_head_id x)%N; [|apply IH].
  destruct (IH (sm_head_id x)) as [-> ->]. done.
Qed.

Definition st_match (st : SubscribeStart) (m : StoredMessage) : Prop :=
  matching (ss_topic st) (ss_origin st) m = true.
#[export] Instance st_match_dec st m : Decision (st_match st m).
Proof. unfold st_match. apply _. Defined.

Definition heads_max (n : N) (l : list StoredMessage) : N :=
  fold_left (λ n m, N.max n (sm_head_id m)) l n.

(** While the task runs: it has sent a prefix of the replay, and once the
    replay is done, the fresh part of the matching messages read so far. *)
Record progress (st : SubscribeStart) (ch : list StoredMessage) (t : Task) : Prop := {
  pg_topic : task_topic t = ss_topic st;
  pg_origin : task_origin t = ss_origin st;
  pg_live : (ss_live_from st ≤ live t)%nat;
  pg_sent : ∃ dn, ss_replay st = dn ++ replay t ∧
    let base := heads_max (u64_saturating_sub (ss_from_head_id st) 1) dn in
    let read := filter (st_match st) (take (live t - ss_live_from st) (drop (ss_live_from st) ch)) in
    (replay t ≠ [] → live t = ss_live_from st) ∧
    sent t = response <$> (dn ++ fresh base read) ∧ last_sent t = fresh_last base read;
}.

Lemma heads_max_snoc n l m : heads_max n (l ++ [m]) = N.max (heads_max n l) (sm_head_id m).
Proof. unfold heads_max. by rewrite fold_left_app. Qed.

Lemma read_published n k (ch : list StoredMessage) m :
  (n + k ≤ length ch)%nat → take k (drop n (ch ++ [m])) = take k (drop n ch).
Proof.
  intros Hle. rewrite drop_app_le by lia. rewrite take_app_le; [done|]. rewrite length_drop. lia.
Qed.

Lemma task_step_progress st ch t :
  progress st ch t → running (task_step ch t) = true → progress st ch (task_step ch t).
Proof.
  intros [Ht Ho Hl (dn & Hdn & Hlive & Hsent & Hlast)]. unfold task_step.
  destruct (running t) eqn:Hrun; simpl; [|congruence].
  rewrite Ht, Ho. destruct (replay t) as [|m rest] eqn:Hrep.
  - destruct (_ <? _)%nat; [done|]. destruct (ch !! live t) as [m|] eqn:Hm.
    2: { intros _. split; [done..|]. exists dn. by rewrite Hrep. }
    assert (take (S (live t) - ss_live_from st) (drop (ss_live_from st) ch) =
            take (live t - ss_live_from st) (drop (ss_live_from st) ch) ++ [m]) as Htake.
    { rewrite Nat.sub_succ_l by done. apply take_S_r. rewrite lookup_drop, <- Hm. f_equal. lia. }
    destruct (matching _ _ m && _) eqn:Hmatch; intros _; (split; simpl; [done|done|lia|]);
      exists dn; (split; [done|]); simpl; (split; [done|]); rewrite Htake, filter_app.
    + apply andb_true_iff in Hmatch as [Hmt Hlt]. rewrite (filter_cons_True _ m) by done.
      destruct (fresh_snoc (heads_max (u64_saturating_sub (ss_from_head_id st) 1) dn)
        (filter (st_match st) (take (live t - ss_live_from st) (drop (ss_live_from st) ch))) m)
        as [Hf1 Hf2].
      rewrite filter_nil, Hf1, Hf2, <- Hlast, Hlt.
      rewrite Hsent, !fmap_app, <- app_assoc. done.
    + destruct (matching (ss_topic st) (ss_origin st) m) eqn:Hmt.
      * rewrite (filter_cons_True (st_match st) m) by done. rewrite filter_nil.
        destruct (fresh_snoc (heads_max (u64_saturating_sub (ss_from_head_id st) 1) dn)
          (filter (st_match st) (take (live t - ss_live_from st) (drop (ss_live_from st) ch))) m)
          as [Hf1 Hf2].
        rewrite Hf1, Hf2, <- Hlast. simpl in Hmatch. rewrite Hmatch, app_nil_r. done.
      * rewrite (filter_cons_False (st_match st) m); [|unfold st_match; by rewrite Hmt].
        rewrite filter_nil, app_nil_r. done.
  - intros _. specialize (Hlive ltac:(done)). split; simpl; [done|done|done|].
    exists (dn ++ [m]). rewrite <- app_assoc. split; [done|].
    rewrite Hlive, Nat.sub_diag in *. simpl in *. split; [done|]. rewrite heads_max_snoc.
    split; [|by rewrite Hlast]. rewrite Hsent, !fmap_app, !app_nil_r. done.
Qed.

Lemma task_step_live ch t : (live t ≤ length ch)%nat → (live (task_step ch t) ≤ length ch)%nat.
Proof.
  intros Hl. unfold task_step. destruct (running t); simpl; [|done].
  destruct (replay t); [|done]. destruct (_ <? _)%nat; [done|].
  destruct (ch !! live t) as [m|] eqn:Hm; [|done]. apply lookup_lt_Some in Hm.
  by destruct (_ && _).
Qed.

Lemma task_step_stopped ch t : running t = false → task_step ch t = t.
Proof. intros Hr. unfold task_step. by rewrite Hr. Qed.

Lemma sys_run_stopped s evs : running (task s) = false → running (task (sys_run s evs)) = false.
Proof.
  revert s. induction evs as [|ev evs IH]; intros s Hs; [done|]. simpl. apply IH.
  destruct ev; simpl; try destruct (drained _ _); try done; by rewrite task_step_stopped.
Qed.

Lemma sys_run_progress st s evs :
  progress st (channel s) (task s) → (live (task s) ≤ length (channel s))%nat →
  running (task (sys_run s evs)) = true →
  progress st (channel (sys_run s evs)) (task (sys_run s evs)).
Proof.
  revert s. induction evs as [|ev evs IH]; intros s Hp Hl Hrun; [done|]. simpl in *.
  destruct (running (task (sys_step s ev))) eqn:Hr.
  2: { by rewrite sys_run_stopped in Hrun. }
  apply IH; [| |done]; destruct ev; simpl in *; try destruct (drained _ _); try done.
  - destruct Hp as [Ht Ho Hle (dn & Hdn & Hlive & Hsent)]. split; [done..|]. exists dn.
    split; [done|]. split; [done|]. by rewrite read_published by lia.
  - by apply task_step_progress.
  - by apply task_step_progress.
  - rewrite length_app. lia.
  - by apply task_step_live.
  - by apply task_step_live.
Qed.

Lemma start_progress st ch : progress st ch (task_start st).
Proof.
  split; [done..|]. exists []. split; [done|]. simpl. rewrite Nat.sub_diag. done.
Qed.

(** ** Numbers of consecutive entries *)

Definition nseq (start len : nat) : list N := N.of_nat <$> seq start len.

Lemma fresh_nseq l j k x :
  sm_head_id <$> l = nseq (S j) k →
  sm_head_id <$> fresh (N.of_nat x) l
    = nseq (Nat.max (S j) (S x)) (S j + k - Nat.max (S j) (S x)).
Proof.
  revert j k x. induction l as [|m l IH]; intros j k x Hl.
  - destruct k; [|done]. by replace (S j + 0 - Nat.max (S j) (S x))%nat with 0%nat by lia.
  - destruct k as [|k]; [done|]. unfold nseq in Hl. csimpl in Hl. injection Hl as Hm Hl.
    simpl. rewrite Hm. destruct (N.ltb_spec (N.of_nat x) (N.of_nat (S j))) as [Hlt|Hge].
    + rewrite fmap_cons, Hm, (IH (S j) k (S j) Hl). rewrite Nat.max_id, Nat.max_l by lia.
      replace (j + S k - j)%nat with (S k) by lia.
      replace (S (S j) + k - S (S j))%nat with k by lia. done.
    + rewrite (IH (S j) k x Hl).
      replace (Nat.max (S (S j)) (S x)) with (Nat.max (S j) (S x)) by lia. f_equal. lia.
Qed.

Lemma heads_max_nseq l from k :
  sm_head_id <$> l = nseq from k → (1 ≤ from)%nat →
  heads_max (N.of_nat (from - 1)) l = N.of_nat (from + k - 1).
Proof.
  revert from k. induction l as [|m l IH]; intros from k Hl Hfrom.
  - destruct k; [|done]. unfold heads_max. simpl. f_equal. lia.
  - destruct k as [|k]; [done|]. unfold nseq in Hl. csimpl in Hl. injection Hl as Hm Hl.
    unfold heads_max. simpl. rewrite Hm. rewrite N.max_r by lia.
    replace (N.of_nat from) with (N.of_nat (S from - 1)) by lia.
    fold (heads_max (N.of_nat (S from - 1)) l). rewrite (IH (S from) k Hl) by lia. f_equal. lia.
Qed.

Lemma ok_sent_responses l : me_head_id <$> ok_sent (response <$> l) = sm_head_id <$> l.
Proof. induction l as [|m l IH]; [done|]. csimpl. by rewrite IH. Qed.

Lemma nseq_app a k1 k2 : nseq a k1 ++ nseq (a + k1) k2 = nseq a (k1 + k2).
Proof. unfold nseq. by rewrite seq_app, fmap_app. Qed.

(** A task that has read the whole channel has sent the numbers from [from] to
    [n], when the replay covers the log up to [n0] and the channel goes on in
    order from somewhere at or before that. *)
Lemma drained_heads st ch evs from n0 j n :
  let s := sys_run (mkSys ch (task_start st)) evs in
  (ss_live_from st ≤ length ch)%nat → (1 ≤ from)%nat → ss_from_head_id st = N.of_nat from →
  sm_head_id <$> ss_replay st = nseq from (n0 + 1 - from) →
  sm_head_id <$> filter (st_match st) (drop (ss_live_from st) (channel s)) = nseq (S j) (n - j) →
  (j ≤ n0 ≤ n)%nat →
  running (task s) = true → replay (task s) = [] → live (task s) = length (channel s) →
  me_head_id <$> ok_sent (sent (task s)) = nseq from (n + 1 - from).
Proof.
  intros s Hch Hfrom Hst Hreplay Hlive Hj Hrun Hdone Hall.
  destruct (sys_run_progress st (mkSys ch (task_start st)) evs) as [Ht Ho Hle (dn & Hdn & _ & Hsent & _)];
    [apply start_progress|done|done|].
  fold s in Hle, Hdn, Hsent. rewrite Hdone, app_nil_r in Hdn. subst dn.
  rewrite Hsent, ok_sent_responses, fmap_app, Hreplay.
  rewrite take_ge by (rewrite length_drop; lia).
  unfold u64_saturating_sub. rewrite Hst.
  replace (N.of_nat from - 1)%N with (N.of_nat (from - 1)) by lia.
  rewrite (heads_max_nseq _ from _ Hreplay Hfrom), (fresh_nseq _ j (n - j)) by done.
  destruct (decide (from ≤ n0 + 1)%nat) as [Hf|Hf].
  - replace (n + 1 - from)%nat with ((n0 + 1 - from) + (n - n0))%nat by lia.
    rewrite <- nseq_app. f_equal. f_equal; lia.
  - replace (n0 + 1 - from)%nat with 0%nat by lia. simpl. f_equal; lia.
Qed.
End subscribe.
