(* ===== verification/SubscribeClaims.v ===== *)
(** * SubscribeClaims: the properties of subscriptions

    The [subscribe] handler over any store that meets the contract, together
    with its task under any interleaving of publications, task steps and
    disconnections. *)

From Stdlib Require Import Ascii String NArith ZArith Lia Sorting.Sorted.
From stdpp Require Import base strings list gmap.
From S2P Require Import Prelude Strings Core Table RedbKeys Json Concrete Spec History RedbStore RedbRep RedbRefine Redb Proto Server ServerProps Replay ServerClaims Subscribe.

(** ** The replay page *)

Lemma log_numbers a k : wf a → sm_head_id <$> log_of a k = nseq 1 (length (log_of a k)).
Proof.
  intros Hwf. apply list_eq. intros i. unfold nseq. rewrite !list_lookup_fmap.
  destruct (log_of a k !! i) as [m|] eqn:Hm.
  - pose proof (lookup_lt_Some _ _ _ Hm). rewrite lookup_seq_lt by done. simpl.
    by destruct (wf_entry _ Hwf _ _ _ Hm) as [-> _].
  - apply lookup_ge_None in Hm. by rewrite lookup_seq_ge by done.
Qed.

Lemma take_nseq n a k : take n (nseq a k) = nseq a (Nat.min n k).
Proof. unfold nseq. by rewrite <- fmap_take, take_seq. Qed.

Lemma drop_nseq n a k : drop n (nseq a k) = nseq (a + n) (k - n).
Proof. unfold nseq. by rewrite <- fmap_drop, drop_seq. Qed.

Lemma fetch_numbers q a :
  wf a → (1 ≤ fq_from_head_id q)%N →
  sm_head_id <$> fetch_spec q a =
    nseq (N.to_nat (fq_from_head_id q))
      (Nat.min (page_limit (fq_limit q))
         (length (log_of a (key_of (fq_topic q) (fq_origin q))) + 1
          - N.to_nat (fq_from_head_id q))).
Proof.
  intros Hwf Hfrom. rewrite fetch_spec_page by done.
  rewrite fmap_take, fmap_drop, log_numbers, drop_nseq, take_nseq by done. f_equal; lia.
Qed.

Lemma nseq_sorted (l : list StoredMessage) a k :
  sm_head_id <$> l = nseq a k →
  StronglySorted (λ x y, (sm_head_id x < sm_head_id y)%N) l ∧
  Forall (λ m, (N.of_nat a ≤ sm_head_id m)%N) l.
Proof.
  revert a k. induction l as [|m l IH]; intros a k Hl; [by repeat constructor|].
  destruct k as [|k]; [done|]. unfold nseq in Hl. csimpl in Hl. injection Hl as Hm Hl.
  destruct (IH (S a) k Hl) as [Hs Hf]. split; constructor; [done| |lia|].
  - eapply Forall_impl; [exact Hf|]. simpl. intros. lia.
  - eapply Forall_impl; [exact Hf|]. simpl. intros. lia.
Qed.

Section handler.
Context {DB : Type} {ST : MsgbusStore DB} {JT : Json TombstoneRange} {SR : StoreRefinement DB}.

(** How the handler starts a task: from a page of the log, its receiver at the
    current end of the channel. *)
Definition started (node : NodeId) (r : SubscribeRequest) (a : AbsStore) (ch : list StoredMessage)
    (st : SubscribeStart) : Prop :=
  Topic_new (sr_topic r) = Ok (ss_topic st) ∧
  request_origin node (sr_origin r) = Ok (ss_origin st) ∧
  ss_from_head_id st = N.max (sr_from_head_id r) 1 ∧
  ss_replay st = fetch_spec (mkFetchQuery (ss_topic st) (ss_origin st) (ss_from_head_id st)
    (if (sr_replay_limit r =? 0)%N then DEFAULT_REPLAY_LIMIT else sr_replay_limit r)) a ∧
  ss_live_from st = length ch.

Lemma subscribe_starts node e r a (s : MsgbusGrpcService DB) :
  request_typed (RSubscribe r) → rep a (store s) →
  wp e (subscribe node r) (λ res s', published s' = published s ∧ rep a (store s') ∧
    match res with
    | Ok st => started node r a (published s) st
    | Err _ => True
    end) s.
Proof.
  intros [Hf Hl] Hrep. unfold subscribe.
  apply wp_bind, wp_core; [intros topic Ht | done].
  apply wp_bind, wp_of_result. destruct (request_origin _ _) as [o|] eqn:Ho; [|done].
  apply wp_bind, wp_get_state. apply wp_bind.
  apply (wp_on_store e (OpFetch _) _ a); [|done| |done].
  - split; [by apply max_1_u64|]. simpl. by case_match.
  - intros x a' db' [[= ->] ->] Hrep'. apply wp_ret. by split.
Qed.

Lemma started_inv node r a ch st :
  wf a → started node r a ch st → task_inv (ss_from_head_id st) (task_start st).
Proof.
  intros Hwf (_ & _ & Hfrom & Hreplay & _).
  assert (1 ≤ ss_from_head_id st)%N as H1 by lia.
  pose proof Hreplay as Hr. apply (f_equal (fmap sm_head_id)) in Hr.
  rewrite fetch_numbers in Hr by done. apply nseq_sorted in Hr as [Hs Hall].
  split; simpl; try (by constructor); try done.
  - unfold u64_saturating_sub. lia.
  - eapply Forall_impl; [exact Hall|]. unfold u64_saturating_sub. simpl. intros. lia.
  - rewrite Hreplay. apply Forall_forall. intros m Hm. apply fetch_spec_key in Hm; [|done].
    apply list_elem_of_lookup in Hm as (i & Hi). by apply (wf_entry _ Hwf) in Hi as [_ ?].
Qed.
End handler.

(** ** The properties *)

(** The node whose log a request asks for: the one it names, and the local one
    when it names none or the empty one. *)
Definition requested_origin (node : NodeId) (o : option ProtoNodeId) : NodeId :=
  match o with
  | None | Some (mkProtoNodeId "" "" "") => node
  | Some p => mkNodeId (p_tenant_id p) (p_bl_name p) (p_device_id p)
  end.

Lemma request_origin_requested node o n : request_origin node o = Ok n → n = requested_origin node o.
Proof.
  unfold request_origin, requested_origin. destruct o as [p|]; [|by intros [= ->]].
  intros (n0 & [-> Hw]%core_node_ok & Hn)%result_bind_ok.
  destruct (NodeId.is_empty n0) eqn:He; injection Hn as <-.
  - by apply is_empty_node in He as ->.
  - destruct n0 as [[|c1 s1] [|c2 s2] [|c3 s3]]; done.
Qed.

(** C10: whatever is published while a subscription runs and however the task,
    the publishers and the client interleave, the client receives messages of
    the topic and of the origin log its request asks for only (the local node's
    when it names none), from the requested number on, in strictly increasing
    number order: nothing is repeated between the replay and the live stream, and
    nothing goes backwards. *)
Theorem subscription_ordered {DB} `{SR : StoreRefinement DB} lag_text node e r a
    (s : MsgbusGrpcService DB) :
  request_typed (RSubscribe r) → rep a (store s) →
  wp e (subscribe node r) (λ res s',
    match res with
    | Ok st => ∀ evs,
        let out := ok_sent (sent (task (sys_run lag_text (mkSys (published s') (task_start st)) evs))) in
        StronglySorted env_lt out ∧
        Forall (λ x, (N.max (sr_from_head_id r) 1 ≤ me_head_id x)%N ∧ me_topic x = sr_topic r ∧
          ∃ o, me_origin x = Some (proto_node o) ∧
            NodeId.key o = NodeId.key (requested_origin node (sr_origin r))) out
    | Err _ => True
    end) s.
Proof.
  intros Hty Hrep. eapply wp_mono; [by apply (subscribe_starts node e r a)|].
  intros [st|x] s' (Hpub & _ & Hst); [|done]. intros evs out.
  pose proof (started_inv _ _ _ _ _ (rep_wf _ _ Hrep) Hst) as Hinv.
  apply (sys_run_inv lag_text _ (mkSys (published s') (task_start st)) evs) in Hinv.
  pose proof (sys_run_names lag_text (mkSys (published s') (task_start st)) evs) as [Hnt Hno].
  destruct Hst as ([_ Ht]%Topic_new_ok & Ho%request_origin_requested & <- & _). destruct Hinv as [Hfr _ Hs _ _ _ Hk _].
  split; [exact Hs|]. fold out in Hfr, Hk. rewrite Forall_forall in *. intros x Hx.
  split; [by apply Hfr|]. destruct (Hk x Hx) as [Htx Hox]. rewrite Hnt in Htx. rewrite Hno in Hox.
  simpl in Htx, Hox. split; [by rewrite Htx, Ht|].
  destruct (me_origin x) as [[p1 p2 p3]|]; [|done]. simpl in Hox. injection Hox as Hox.
  rewrite <- Ho. by exists (mkNodeId p1 p2 p3).
Qed.

Definition subscribe0 : SubscribeRequest := mkSubscribeRequest "events" None 1 10.
Definition lag0 (n : nat) : string := fmt_u64 (N.of_nat n).

(** The log of another node. *)
Definition subscribe_b : SubscribeRequest := mkSubscribeRequest "events" (Some (proto_node node_b)) 1 10.

Lemma subscription_ordered_witness :
  wp env0 (subscribe node_a subscribe_b) (λ res s',
    match res with
    | Ok st => ∀ evs,
        let out := ok_sent (sent (task (sys_run lag0 (mkSys (published s') (task_start st)) evs))) in
        StronglySorted env_lt out ∧
        Forall (λ x, (N.max 1 1 ≤ me_head_id x)%N ∧ me_topic x = "events" ∧
          ∃ o, me_origin x = Some (proto_node o) ∧ NodeId.key o = NodeId.key node_b) out
    | Err _ => True
    end) service0.
Proof.
  apply (subscription_ordered (SR := redb_refinement) lag0 node_a env0 subscribe_b abs_empty service0);
    [by vm_compute | apply empty_rep].
Defined.

(** A subscription has no gaps, seen from its channel.  When the replay page is not cut short by
    the replay limit and the matching messages sent on the channel since the
    subscription carry consecutive numbers up to [n], starting no later than the
    entry after the log's head at subscription time, then once a task that is
    still running has read the whole channel, the client has received exactly
    the numbers from the requested one to [n], each once and in order. *)
Theorem subscription_gap_free {DB} `{SR : StoreRefinement DB} lag_text node e r a
    (s : MsgbusGrpcService DB) :
  request_typed (RSubscribe r) → rep a (store s) →
  wp e (subscribe node r) (λ res s',
    match res with
    | Ok st => ∀ evs j n,
        let n0 := length (log_of a (key_of (ss_topic st) (ss_origin st))) in
        let from := N.to_nat (N.max (sr_from_head_id r) 1) in
        let limit := if (sr_replay_limit r =? 0)%N then DEFAULT_REPLAY_LIMIT else sr_replay_limit r in
        let sys := sys_run lag_text (mkSys (published s') (task_start st)) evs in
        (n0 + 1 - from ≤ page_limit limit)%nat →
        sm_head_id <$> filter (st_match st) (drop (length (published s)) (channel sys))
          = nseq (S j) (n - j) → (j ≤ n0 ≤ n)%nat →
        running (task sys) = true → replay (task sys) = [] →
        live (task sys) = length (channel sys) →
        me_head_id <$> ok_sent (sent (task sys)) = nseq from (n + 1 - from)
    | Err _ => True
    end) s.
Proof.
  intros Hty Hrep. eapply wp_mono; [by apply (subscribe_starts node e r a)|].
  intros [st|x] s' (Hpub & _ & Hst); [|done].
  intros evs j n n0 from limit sys Hcut Hch Hj Hrun Hdone Hall. subst sys.
  rewrite Hpub in Hch, Hrun, Hdone, Hall |- *.
  destruct Hst as (_ & _ & Hfrom & Hreplay & Hlive).
  apply (drained_heads lag_text st (published s) evs from n0 j n); [lia|unfold from; lia| | | |done..].
  - rewrite Hfrom. unfold from. lia.
  - rewrite Hreplay, fetch_numbers; [|by eapply rep_wf|simpl; lia].
    cbn [fq_from_head_id fq_limit fq_topic fq_origin]. rewrite Hfrom. fold from limit n0. f_equal. lia.
  - rewrite Hlive. exact Hch.
Qed.

Definition start0 : SubscribeStart := mkSubscribeStart topic_events node_a 1 [] 0.
Definition message1 : StoredMessage :=
  mkStoredMessage (mkMessageId "m1") topic_events node_a 1 [] ∅ 0 false.

Lemma subscribe0_starts : subscribe node_a subscribe0 env0 0 service0 = (Ok start0, 3%nat, service0).
Proof. vm_compute. reflexivity. Qed.

Lemma subscription_gap_free_witness :
  me_head_id <$> ok_sent (sent (task (sys_run lag0 (mkSys [] (task_start start0))
                                        [Published message1; TaskRuns]))) = nseq 1 1.
Proof.
  pose proof (subscription_gap_free (SR := redb_refinement) lag0 node_a env0 subscribe0 abs_empty
    service0 ltac:(by vm_compute) empty_rep 0) as H.
  rewrite subscribe0_starts in H.
  apply (H [Published message1; TaskRuns] 0%nat 1%nat); [by apply Nat.leb_le|reflexivity|
    by split; apply Nat.leb_le|reflexivity|reflexivity|reflexivity].
Defined.

(** C34: a replay longer than the replay limit is cut, and the live stream does
    not fill the gap.  Over any store, let a subscription start from number [from]
    of a log of [n0] entries, more than the replay page holds, and let the
    matching messages sent on the channel since then be numbered [n0 + 1] to [n],
    at least one.  Once a task that still runs has read the whole channel, the
    client has received the page and then the entries from [n0 + 1] on, without
    any error: none of the numbers between the end of the page and [n0] is ever
    delivered, though each is an entry of the log. *)
Theorem subscription_replay_gap {DB} `{SR : StoreRefinement DB} lag_text node e r a
    (s : MsgbusGrpcService DB) :
  request_typed (RSubscribe r) → rep a (store s) →
  wp e (subscribe node r) (λ res s',
    match res with
    | Ok st => ∀ evs n,
        let n0 := length (log_of a (key_of (ss_topic st) (ss_origin st))) in
        let from := N.to_nat (N.max (sr_from_head_id r) 1) in
        let limit := page_limit (if (sr_replay_limit r =? 0)%N then DEFAULT_REPLAY_LIMIT else sr_replay_limit r) in
        let sys := sys_run lag_text (mkSys (published s') (task_start st)) evs in
        let received := me_head_id <$> ok_sent (sent (task sys)) in
        (limit < n0 + 1 - from)%nat → (n0 < n)%nat →
        sm_head_id <$> filter (st_match st) (drop (length (published s)) (channel sys))
          = nseq (S n0) (n - n0) →
        running (task sys) = true → replay (task sys) = [] →
        live (task sys) = length (channel sys) →
        received = nseq from limit ++ nseq (S n0) (n - n0) ∧
        length (sent (task sys)) = length received ∧
        ∀ i, (from + limit ≤ i ≤ n0)%nat → (N.of_nat i ∉ received) ∧
          ∃ m, m ∈ log_of a (key_of (ss_topic st) (ss_origin st)) ∧ sm_head_id m = N.of_nat i
    | Err _ => True
    end) s.
Proof.
  intros Hty Hrep. eapply wp_mono; [by apply (subscribe_starts node e r a)|].
  intros [st|x] s' (Hpub & _ & Hst); [|done].
  intros evs n n0 from limit sys received Hcut Hn Hch Hrun Hdone Hall.
  destruct Hst as (_ & _ & Hfrom & Hreplay & Hlive). pose proof (rep_wf _ _ Hrep) as Hwf.
  assert (sm_head_id <$> ss_replay st = nseq from limit) as Hpage.
  { rewrite Hreplay, fetch_numbers; [|done|simpl; lia].
    cbn [fq_from_head_id fq_limit fq_topic fq_origin]. rewrite Hfrom. fold from limit n0. f_equal. lia. }
  destruct (sys_run_progress lag_text st (mkSys (published s') (task_start st)) evs)
    as [_ _ Hle (dn & Hdn & _ & Hsent & _)]; [apply start_progress|simpl; rewrite Hlive, Hpub; done|done|].
  fold sys in Hle, Hdn, Hsent. rewrite Hdone, app_nil_r in Hdn. subst dn.
  rewrite take_ge in Hsent by (rewrite length_drop; lia). rewrite Hlive in Hsent.
  assert (received = nseq from limit ++ nseq (S n0) (n - n0)) as Hrec.
  { unfold received. rewrite Hsent, ok_sent_responses, fmap_app, Hpage. f_equal.
    unfold u64_saturating_sub. replace (ss_from_head_id st - 1)%N with (N.of_nat (from - 1)) by (unfold from; lia).
    rewrite (heads_max_nseq _ from _ Hpage), (fresh_nseq _ n0 (n - n0)) by (done || unfold from; lia).
    f_equal; lia. }
  split; [done|]. split.
  { unfold received. rewrite Hsent, ok_sent_responses. by rewrite !length_fmap. }
  intros i [Hi1 Hi2]. split.
  - rewrite Hrec. unfold nseq. intros [(j & Hj & Hin)%list_elem_of_fmap|(j & Hj & Hin)%list_elem_of_fmap]%elem_of_app;
      apply elem_of_seq in Hin; lia.
  - destruct (lookup_lt_is_Some_2 (log_of a (key_of (ss_topic st) (ss_origin st))) (i - 1)) as [m Hm];
      [fold n0; unfold from in *; lia|].
    exists m. split; [by eapply list_elem_of_lookup_2|]. apply (wf_entry _ Hwf) in Hm as [-> _].
    f_equal. unfold from in *. lia.
Qed.

(** Two entries in the log of [node_a], a page of one. *)
Definition entry_a (n : N) : StoredMessage :=
  mkStoredMessage (mkMessageId ("m" +:+ fmt_u64 n)) topic_events node_a n [] ∅ 0 false.
Definition abs_two : AbsStore :=
  (put_replicated_spec (entry_a 2) (put_replicated_spec (entry_a 1) abs_empty).2).2.
Definition service_two : MsgbusGrpcService (RedbStore GTable) :=
  service_new (redb_put_replicated_message (entry_a 2) env0 1
                 (redb_put_replicated_message (entry_a 1) env0 0 empty_db).2).2.
Definition subscribe_one : SubscribeRequest := mkSubscribeRequest "events" None 1 1.

Lemma put_next_rep m t a db :
  op_typed (OpPutReplicated m) → redb_db_rep a db →
  redb_db_rep (put_replicated_spec m a).2 (redb_put_replicated_message (T := GTable) m env0 t db).2.
Proof.
  intros Hty Hrep. pose proof (redb_answers (T := GTable) _ env0 _ db env0_no_faults Hty Hrep t) as Hw.
  cbn [run_op] in Hw. change (put_replicated_message m)
    with (redb_put_replicated_message (T := GTable) m) in Hw.
  destruct (redb_put_replicated_message m env0 t db) as [[r t'] db'].
  destruct Hw as (a' & Hs & Hrep'). cbn [spec_op] in Hs. by rewrite <- Hs.
Qed.

Lemma service_two_rep : redb_db_rep abs_two (store service_two).
Proof. apply put_next_rep; [done|]. apply put_next_rep; [done|apply empty_rep]. Qed.

Definition start_one : SubscribeStart := mkSubscribeStart topic_events node_a 1 [entry_a 1] 0.

Lemma subscribe_one_starts :
  (subscribe node_a subscribe_one env0 0 service_two).1.1 = Ok start_one ∧
  published (subscribe node_a subscribe_one env0 0 service_two).2 = [].
Proof. by split; vm_compute. Qed.

Lemma subscription_replay_gap_witness :
  let sys := sys_run lag0 (mkSys [] (task_start start_one)) [TaskRuns; Published (entry_a 3); TaskRuns] in
  let received := me_head_id <$> ok_sent (sent (task sys)) in
  received = nseq 1 1 ++ nseq 3 1 ∧ length (sent (task sys)) = length received ∧
  ∀ i, (1 + 1 ≤ i ≤ 2)%nat → (N.of_nat i ∉ received) ∧
    ∃ m, m ∈ log_of abs_two (key_of topic_events node_a) ∧ sm_head_id m = N.of_nat i.
Proof.
  pose proof (subscription_replay_gap (SR := redb_refinement) lag0 node_a env0 subscribe_one abs_two
    service_two ltac:(by vm_compute) service_two_rep 0) as Hw.
  destruct subscribe_one_starts as [Hst Hpub].
  destruct (subscribe node_a subscribe_one env0 0 service_two) as [[res t] s']. cbn [fst snd] in Hst, Hpub.
  rewrite Hst, Hpub in Hw.
  apply (Hw [TaskRuns; Published (entry_a 3); TaskRuns] 3%nat);
    [by apply Nat.ltb_lt | by apply Nat.ltb_lt | reflexivity..].
Defined.
