(* ===== verification/Programs.v ===== *)
(** * Programs: handlers as sequences of atomic actions

    The handlers of [Server] and the loop body of [Sync] run to completion.  In
    the daemon they run side by side, on the threads of one runtime, and share
    the store and the channel; what is atomic is one store call (a transaction,
    or a call under the connection's mutex), one send on the channel and the
    creation of one receiver.  Here each handler is a program of such actions,
    and running a program without interruption is proved to be the handler, so
    that [Concurrent] can interleave them. *)

From Stdlib Require Import Ascii String NArith ZArith Lia.
From stdpp Require Import base strings list gmap.
From S2P Require Import Prelude Strings Core Json Spec Proto Server ServerProps Sync.

(** ** Answers *)

Inductive Response : Type :=
| RespPublish (r : MessageResponse)
| RespFetch (l : list MessageResponse)
| RespSubscribe (st : SubscribeStart)
| RespHead (r : GetHeadResponse)
| RespHeads (l : list ProtoTopicHead)
| RespSyncStates (l : list ProtoPeerSyncState)
| RespDeleted (n : N)
| RespFifo (m : option FifoMessage)
| RespAccepted (b : bool)
| RespHealth (r : HealthResponse)
| RespReady (r : ReadyResponse).

(** What [wrap] makes of the answer of a handler. *)
Definition fmap_m {E S A B} (wrap : A → B) (m : M E S A) : M E S B := x ← m; mret (wrap x).

(** The service: which handler answers a request. *)
Definition respond {DB} `{!MsgbusStore DB} (node : NodeId) (r : Request)
    : M Status (MsgbusGrpcService DB) Response :=
  match r with
  | RPublish r => fmap_m RespPublish (publish node r)
  | RFetch r => fmap_m RespFetch (fetch node r)
  | RSubscribe r => fmap_m RespSubscribe (subscribe node r)
  | RGetHead r => fmap_m RespHead (handle_get_head node r)
  | RListHeads => fmap_m RespHeads handle_list_heads
  | RListPeerSyncStates => fmap_m RespSyncStates handle_list_peer_sync_states
  | RDeleteRange r => fmap_m RespDeleted (delete_range node r)
  | REnqueueFifo r => fmap_m RespFifo (handle_enqueue_fifo node r)
  | RPeekFifo q => fmap_m RespFifo (handle_peek_fifo q)
  | RAckFifo r => fmap_m RespAccepted (handle_ack_fifo r)
  | RRejectFifo r => fmap_m RespAccepted (handle_reject_fifo r)
  | RHealth => fmap_m RespHealth (health node)
  | RReady => fmap_m RespReady (ready node)
  end.

(** ** Programs *)

Inductive Prog (E A : Type) : Type :=
| Done (r : result E A)
| Await {B : Type} (op : StoreOp B) (k : Result B → Prog E A)
| Emit (m : StoredMessage) (p : Prog E A)
| Fresh (k : string → Prog E A)
| Listen (k : nat → Prog E A).
Arguments Done {E A} r.
Arguments Await {E A B} op k.
Arguments Emit {E A} m p.
Arguments Fresh {E A} k.
Arguments Listen {E A} k.

#[export] Instance Prog_ret E : MRet (Prog E) := λ A x, Done (Ok x).

Fixpoint prog_bind {E A B} (f : A → Prog E B) (p : Prog E A) : Prog E B :=
  match p with
  | Done (Ok x) => f x
  | Done (Err x) => Done (Err x)
  | Await op k => Await op (λ r, prog_bind f (k r))
  | Emit m p => Emit m (prog_bind f p)
  | Fresh k => Fresh (λ u, prog_bind f (k u))
  | Listen k => Listen (λ n, prog_bind f (k n))
  end.
#[export] Instance Prog_bind E : MBind (Prog E) := λ A B f p, prog_bind f p.

(** The service handlers use [?] on [Status], the pull loop on boxed errors. *)
Definition p_store {B} (op : StoreOp B) : Prog Status B :=
  Await op (λ r, Done (map_err status_from_error r)).
Definition p_send (m : StoredMessage) : Prog Status unit := Emit m (mret tt).
Definition p_core {A} (r : Result A) : Prog Status A := Done (map_err status_from_error r).

(** [NewMessage::new] and [NewFifoMessage::new] draw the identifier. *)
Definition p_new_message (topic : Topic) (origin : NodeId) (payload : bytes)
    (headers : gmap string string) : Prog Status NewMessage :=
  Fresh (λ u, mret (mkNewMessage (mkMessageId u) topic origin payload headers)).
Definition p_new_fifo (queue : QueueName) (topic : Topic) (source target : NodeId) (payload : bytes)
    (headers : gmap string string) : Prog Status NewFifoMessage :=
  Fresh (λ u, mret (mkNewFifoMessage (mkMessageId u) queue topic source target payload headers)).

Section programs.
Context {JT : Json TombstoneRange}.
Context (node : NodeId).

Definition publish_prog (request : PublishRequest) : Prog Status MessageResponse :=
  topic ← p_core (Topic_new (pr_topic request));
  Done (ensure_application_topic topic);;
  origin ← Done (owned_origin node (pr_origin request));
  message ← p_new_message topic origin (pr_payload request) (pr_headers request);
  stored ← p_store (OpAppend message);
  p_send stored;;
  mret (mkMessageResponse (Some (proto_message stored))).

Definition fetch_prog (request : FetchRequest) : Prog Status (list MessageResponse) :=
  topic ← p_core (Topic_new (fr_topic request));
  origin ← Done (request_origin node (fr_origin request));
  messages ← p_store (OpFetch
    (mkFetchQuery topic origin (N.max (fr_from_head_id request) 1) (fr_limit request)));
  mret ((λ message, mkMessageResponse (Some (proto_message message))) <$> (messages : list StoredMessage)).

(** The receiver is created before the replay is read. *)
Definition subscribe_prog (request : SubscribeRequest) : Prog Status SubscribeStart :=
  topic ← p_core (Topic_new (sr_topic request));
  origin ← Done (request_origin node (sr_origin request));
  let from_head_id := N.max (sr_from_head_id request) 1 in
  let replay_limit :=
    if (sr_replay_limit request =? 0)%N then DEFAULT_REPLAY_LIMIT
    else sr_replay_limit request in
  live_rx ← Listen (λ n, mret n);
  replay ← p_store (OpFetch (mkFetchQuery topic origin from_head_id replay_limit));
  mret (mkSubscribeStart topic origin from_head_id replay live_rx).

Definition get_head_prog (request : GetHeadRequest) : Prog Status GetHeadResponse :=
  topic ← p_core (Topic_new (gh_topic request));
  origin ← Done (request_origin node (gh_origin request));
  head ← p_store (OpGetHead topic origin);
  mret (mkGetHeadResponse (default 0%N head) (bool_decide (is_Some head))).

Definition list_heads_prog : Prog Status (list ProtoTopicHead) :=
  heads ← p_store OpListHeads;
  mret (proto_topic_head <$> (heads : list TopicHead)).

Definition list_peer_sync_states_prog : Prog Status (list ProtoPeerSyncState) :=
  states ← p_store OpListSync;
  mret (proto_peer_sync_state <$> (states : list PeerSyncState)).

Definition delete_range_prog (request : DeleteRangeRequest) : Prog Status N :=
  topic ← p_core (Topic_new (dr_topic request));
  Done (ensure_application_topic topic);;
  origin ← Done (owned_origin node (dr_origin request));
  delete_topic ← p_core (Topic_new DELETE_TOPIC);
  r ← p_store (OpTombstoneMarker topic origin (dr_from_head_id request)
                 (dr_to_head_id request) delete_topic node);
  p_send r.2;;
  mret r.1.

Definition enqueue_fifo_prog (request : EnqueueFifoRequest) : Prog Status (option FifoMessage) :=
  queue ← p_core (QueueName_new (er_queue request));
  topic ← p_core (Topic_new (er_topic request));
  Done (ensure_application_topic topic);;
  source ← Done (owned_origin node (er_source request));
  target ← Done (transpose (core_node <$> er_target request));
  target ← Done (ok_or (invalid_argument "target is required") target);
  message ← p_new_fifo queue topic source target (er_payload request) (er_headers request);
  stored ← p_store (OpEnqueue message);
  mret (Some (proto_fifo stored)).

Definition peek_fifo_prog (request_queue : string) : Prog Status (option FifoMessage) :=
  queue ← p_core (QueueName_new request_queue);
  message ← p_store (OpPeek queue);
  message ← Done (ok_or (not_found "fifo queue is empty") message);
  mret (Some (proto_fifo message)).

Definition ack_fifo_prog (request : FifoIdRequest) : Prog Status bool :=
  parts ← Done (fifo_ack_parts request);
  p_store (OpAck parts.1 parts.2).

Definition reject_fifo_prog (request : FifoIdRequest) : Prog Status bool :=
  parts ← Done (reject_fifo_parts request);
  p_store (OpReject parts.1 parts.2).

Definition ready_prog : Prog Status ReadyResponse :=
  Await OpListHeads (λ r, mret
    match r with
    | Ok _ => mkReadyResponse true "READY" "" (Some (proto_node node))
    | Err err => mkReadyResponse false "NOT_READY" (error_to_string err) (Some (proto_node node))
    end).

Definition fmap_p {E A B} (wrap : A → B) (p : Prog E A) : Prog E B := x ← p; mret (wrap x).

Definition request_prog (r : Request) : Prog Status Response :=
  match r with
  | RPublish r => fmap_p RespPublish (publish_prog r)
  | RFetch r => fmap_p RespFetch (fetch_prog r)
  | RSubscribe r => fmap_p RespSubscribe (subscribe_prog r)
  | RGetHead r => fmap_p RespHead (get_head_prog r)
  | RListHeads => fmap_p RespHeads list_heads_prog
  | RListPeerSyncStates => fmap_p RespSyncStates list_peer_sync_states_prog
  | RDeleteRange r => fmap_p RespDeleted (delete_range_prog r)
  | REnqueueFifo r => fmap_p RespFifo (enqueue_fifo_prog r)
  | RPeekFifo q => fmap_p RespFifo (peek_fifo_prog q)
  | RAckFifo r => fmap_p RespAccepted (ack_fifo_prog r)
  | RRejectFifo r => fmap_p RespAccepted (reject_fifo_prog r)
  | RHealth => mret (RespHealth (mkHealthResponse "SERVING" (Some (proto_node node))))
  | RReady => fmap_p RespReady ready_prog
  end.
End programs.

(** The pull loop: one message of a peer. *)
Section pull.
Context {JT : Json TombstoneRange} (status_text : Status → string).

Definition p_db {B} (op : StoreOp B) : Prog string B :=
  Await op (λ r, Done (map_err error_to_string r)).

Definition apply_control_prog (message : StoredMessage) : Prog string unit :=
  if negb (bool_decide (topic_str (sm_topic message) = DELETE_TOPIC)) || sm_deleted message
  then mret tt
  else
    tombstone ← Done (map_err (λ err, status_text (invalid_argument ("invalid tombstone payload: " +:+ err)))
                        (from_slice (sm_payload message)));
    if negb (bool_decide (sm_origin message = tr_origin tombstone))
    then Done (Err (status_text (permission_denied "delete marker origin must match tombstone origin")))
    else
      Await (OpTombstone (tr_topic tombstone) (tr_origin tombstone)
               (tr_from_head_id tombstone) (tr_to_head_id tombstone))
        (λ r, Done (map_err (λ x, status_text (status_from_error x)) r));;
      mret tt.

Definition item_prog (peer : PeerSpec) (head : TopicHead) (item : result string MessageResponse)
    (acc : N * N) : Prog string (flow (N * N)) :=
  response ← Done item;
  match mr_message response with
  | None => mret (Continue acc)
  | Some message =>
      message ← Done (map_err status_text (core_message message));
      if negb (bool_decide (sm_topic message = th_topic head))
         || negb (bool_decide (sm_origin message = th_origin head))
      then Done (Err ("peer " +:+ endpoint peer +:+ " returned mismatched message for topic="
                        +:+ topic_str (th_topic head) +:+ " origin=" +:+ NodeId.key (th_origin head)))
      else
        r ← p_db (OpPutReplicated message);
        match r with
        | Inserted => apply_control_prog message;; Emit message (mret tt)
        | AlreadyPresent => apply_control_prog message
        end;;
        let '(local_head, fetched) := acc in
        mret (Continue (N.max local_head (sm_head_id message), u32_saturating_add fetched 1))
  end.
End pull.

(** ** Running a program without interruption *)

Section exec.
Context {DB : Type} {ST : MsgbusStore DB} {E : Type}.

(** One store call of a handler: its result, whatever it is. *)
Definition store_call {B} (op : StoreOp B) : M E (MsgbusGrpcService DB) (Result B) :=
  try (zoom store (λ db s, mkService db (published s)) (run_op op)).

Definition emit (m : StoredMessage) (s : MsgbusGrpcService DB) : MsgbusGrpcService DB :=
  mkService (store s) (published s ++ [m]).

Fixpoint exec {A} (p : Prog E A) : M E (MsgbusGrpcService DB) A :=
  match p with
  | Done r => of_result r
  | Await op k => r ← store_call op; exec (k r)
  | Emit m p => modify (emit m);; exec p
  | Fresh k => u ← fresh_uuid; exec (k u)
  | Listen k => s ← get_state; exec (k (length (published s)))
  end.

Lemma exec_bind {A B} (f : A → Prog E B) (p : Prog E A) e t s :
  exec (p ≫= f) e t s = (exec p ≫= λ x, exec (f x)) e t s.
Proof.
  revert t s. induction p as [[x|x]|C op k IH|m p IH|k IH|k IH]; intros t s; try done.
  - cbn. unfold mbind, M_bind. destruct (store_call op e t s) as [[[r|x] t'] s']; [|done]. apply IH.
  - cbn. unfold mbind, M_bind. cbn. apply IH.
  - cbn. unfold mbind, M_bind. cbn. apply IH.
  - cbn. unfold mbind, M_bind. cbn. apply IH.
Qed.

Lemma exec_fmap {A B} (f : A → B) (p : Prog E A) e t s :
  exec (fmap_p f p) e t s = fmap_m f (exec p) e t s.
Proof. unfold fmap_p. by rewrite exec_bind. Qed.

Lemma bind_cong {S A B} (m1 m2 : M E S A) (f1 f2 : A → M E S B) e t s :
  m1 e t s = m2 e t s → (∀ x t s, f1 x e t s = f2 x e t s) →
  (m1 ≫= f1) e t s = (m2 ≫= f2) e t s.
Proof. intros Hm Hf. unfold mbind, M_bind. rewrite Hm. by destruct (m2 e t s) as [[[x|x] t'] s']. Qed.
End exec.

Lemma exec_store {DB} `{!MsgbusStore DB} {B} (op : StoreOp B) e t (s : MsgbusGrpcService DB) :
  exec (p_store op) e t s = on_store (run_op op) e t s.
Proof.
  unfold p_store, on_store. cbn. unfold store_call, map_err_m, try, mbind, M_bind.
  by destruct (zoom _ _ _ e t s) as [[r t'] s'].
Qed.

Lemma exec_db {DB} `{!MsgbusStore DB} {B} (op : StoreOp B) e t (s : MsgbusGrpcService DB) :
  exec (p_db op) e t s = db_call (run_op op) e t s.
Proof.
  unfold p_db, db_call. cbn. unfold store_call, map_err_m, try, mbind, M_bind.
  by destruct (zoom _ _ _ e t s) as [[r t'] s'].
Qed.

(** A program and a handler agree step by step. *)
Ltac exec_run :=
  repeat first
    [ done
    | rewrite exec_store; done
    | rewrite exec_db; done
    | rewrite exec_bind
    | apply bind_cong; [|intros ???]
    | case_match ].

Section handlers.
Context {DB : Type} {ST : MsgbusStore DB} {JT : Json TombstoneRange}.
Context (node : NodeId) (e : Env).

Implicit Types (t : nat) (s : MsgbusGrpcService DB).

Lemma exec_publish r t s : exec (publish_prog node r) e t s = publish node r e t s.
Proof. unfold publish_prog, publish. exec_run. Qed.

Lemma exec_fetch r t s : exec (fetch_prog node r) e t s = fetch node r e t s.
Proof. unfold fetch_prog, fetch. exec_run. Qed.

Lemma exec_subscribe r t s : exec (subscribe_prog node r) e t s = subscribe node r e t s.
Proof.
  unfold subscribe_prog, subscribe. do 2 (rewrite exec_bind; apply bind_cong; [done|intros ???]).
  unfold mbind at 1. cbn -[mbind]. apply bind_cong; [done|intros ???]. exec_run.
Qed.

Lemma exec_get_head r t s : exec (get_head_prog node r) e t s = handle_get_head node r e t s.
Proof. unfold get_head_prog, handle_get_head. exec_run. Qed.

Lemma exec_delete_range r t s : exec (delete_range_prog node r) e t s = delete_range node r e t s.
Proof.
  unfold delete_range_prog, delete_range. exec_run.
Qed.

Lemma exec_enqueue r t s : exec (enqueue_fifo_prog node r) e t s = handle_enqueue_fifo node r e t s.
Proof. unfold enqueue_fifo_prog, handle_enqueue_fifo. exec_run. Qed.

Lemma exec_peek q t s : exec (peek_fifo_prog q) e t s = handle_peek_fifo q e t s.
Proof. unfold peek_fifo_prog, handle_peek_fifo. exec_run. Qed.

Lemma exec_ack r t s : exec (ack_fifo_prog r) e t s = handle_ack_fifo r e t s.
Proof. unfold ack_fifo_prog, handle_ack_fifo. exec_run. Qed.

Lemma exec_reject r t s : exec (reject_fifo_prog r) e t s = handle_reject_fifo r e t s.
Proof. unfold reject_fifo_prog, handle_reject_fifo. exec_run. Qed.

Lemma exec_ready t s : exec (ready_prog node) e t s = ready node e t s.
Proof. unfold ready_prog, ready. cbn. exec_run. Qed.

Lemma exec_request r t s : exec (request_prog node r) e t s = respond node r e t s.
Proof.
  destruct r; cbn [request_prog respond]; rewrite ?exec_fmap; try done;
    (apply bind_cong; [|done]); cbn beta;
    first [ apply exec_publish | apply exec_fetch | apply exec_subscribe | apply exec_get_head
          | apply exec_delete_range | apply exec_enqueue | apply exec_peek | apply exec_ack
          | apply exec_reject | apply exec_ready
          | unfold list_heads_prog, list_peer_sync_states_prog; exec_run ].
Qed.

Context (status_text : Status → string).

Lemma exec_apply_control m t s :
  exec (apply_control_prog status_text m) e t s = apply_control status_text m e t s.
Proof.
  unfold apply_control_prog, apply_control, apply_control_message. destruct s as [db ch].
  destruct (_ || _); [done|].
  unfold map_err_m, zoom, mbind, M_bind. cbn. destruct (from_slice (sm_payload m)) as [tr|x]; [|done].
  cbn. destruct (bool_decide _); [|done]. cbn.
  unfold store_call, map_err_m, try, zoom, mbind, M_bind. cbn.
  by destruct (tombstone_range _ _ _ _ e t db) as [[[r|x] t'] s'].
Qed.

Lemma exec_item peer head item acc t s :
  exec (item_prog status_text peer head item acc) e t s = sync_item status_text peer head item acc e t s.
Proof.
  unfold item_prog, sync_item. rewrite exec_bind. apply bind_cong; [done|intros r t1 s1].
  destruct (mr_message r) as [v|]; [|done]. rewrite exec_bind. apply bind_cong; [done|intros m t2 s2].
  destruct (_ || _); [done|]. rewrite exec_bind. apply bind_cong; [by rewrite exec_db|intros x t3 s3].
  rewrite exec_bind. apply bind_cong; [|by destruct acc]. destruct x; [|apply exec_apply_control].
  rewrite exec_bind. apply bind_cong; [apply exec_apply_control|done].
Qed.

(** [handle] is [respond] with the answer left out. *)
Lemma handle_respond r t s : handle node r e t s = (respond node r ≫= λ _, mret tt) e t s.
Proof.
  destruct r; unfold handle, respond, fmap_m, mbind, M_bind;
    match goal with |- context [match ?m e t s with _ => _ end] => destruct (m e t s) as [[[x|x] t'] s'] end;
    done.
Qed.
End handlers.
