(* ===== verification/Concurrent.v ===== *)
(** * Concurrent: the service under any interleaving

    Requests, the messages a peer sends and subscription tasks run side by side
    over one store and one channel.  A [World] holds the service and the threads
    in flight; an event starts a thread, lets one make its next atomic action,
    or hangs up a subscriber.  No store call suspends, so a handler that has
    started is never dropped half way.  The runtime may choose any order, so
    every theorem is about all event sequences.

    The main result is that the service is linearisable: whatever the
    interleaving, the answers and the store are those of serving the requests one
    at a time, each at the moment of its store call. *)

From Stdlib Require Import Ascii String NArith ZArith Lia Sorting.Sorted.
From stdpp Require Import base strings list gmap.
From S2P Require Import Prelude Strings Core Json Spec History Proto Server ServerProps Sync SyncProps Subscribe Programs.

(** ** Worlds *)

Inductive Thread : Type :=
| Handling (r : Request) (p : Prog Status Response)
| Pulling (p : Prog string (flow (N * N)))
| Streaming (r : SubscribeRequest) (st : SubscribeStart) (t : Task).

Inductive WorldEvent : Type :=
| Arrive (r : Request)
| PeerItem (peer : PeerSpec) (head : TopicHead) (item : result string MessageResponse) (acc : N * N)
| Turn (e : Env) (i : nat)
| HangUp (i : nat).

Record World (DB : Type) := mkWorld {
  w_time : nat;
  w_service : MsgbusGrpcService DB;
  w_threads : list Thread;
}.
Arguments mkWorld {DB} _ _ _.
Arguments w_time {DB} _.
Arguments w_service {DB} _.
Arguments w_threads {DB} _.

Definition world_new {DB} (t : nat) (db : DB) : World DB := mkWorld t (service_new db) [].

Section worlds.
Context {DB : Type} {ST : MsgbusStore DB} {JT : Json TombstoneRange}.
Context (status_text : Status → string) (lag_text : nat → string) (node : NodeId).

(** The next atomic action of a program. *)
Definition step {E A} (p : Prog E A) (e : Env) (t : nat) (s : MsgbusGrpcService DB)
    : Prog E A * nat * MsgbusGrpcService DB :=
  match p with
  | Done r => (Done r, t, s)
  | Await op k =>
      let '(r, t', db') := run_op op e t (store s) in (k r, t', mkService db' (published s))
  | Emit m p => (p, t, emit m s)
  | Fresh k => (k (uuid e t), S t, s)
  | Listen k => (k (length (published s)), t, s)
  end.

(** A [subscribe] handler that is done has spawned its task. *)
Definition spawned (r : Request) (p : Prog Status Response)
    : option (SubscribeRequest * SubscribeStart) :=
  match r, p with
  | RSubscribe r, Done (Ok (RespSubscribe st)) => Some (r, st)
  | _, _ => None
  end.

(** The turn of a thread. *)
Definition resume (th : Thread) (e : Env) (t : nat) (s : MsgbusGrpcService DB)
    : Thread * nat * MsgbusGrpcService DB :=
  match th with
  | Handling r p =>
      match spawned r p with
      | Some (r, st) => (Streaming r st (task_start st), t, s)
      | None => let '(p', t', s') := step p e t s in (Handling r p', t', s')
      end
  | Pulling p => let '(p', t', s') := step p e t s in (Pulling p', t', s')
  | Streaming r st task => (Streaming r st (task_step lag_text (published s) task), t, s)
  end.

Definition hang_up (th : Thread) : Thread :=
  match th with
  | Streaming r st task => Streaming r st (stop task)
  | th => th
  end.

Definition world_step (w : World DB) (ev : WorldEvent) : World DB :=
  match ev with
  | Arrive r => mkWorld (w_time w) (w_service w) (w_threads w ++ [Handling r (request_prog node r)])
  | PeerItem peer head item acc =>
      mkWorld (w_time w) (w_service w)
        (w_threads w ++ [Pulling (item_prog status_text peer head item acc)])
  | Turn e i =>
      match w_threads w !! i with
      | Some th =>
          let '(th', t', s') := resume th e (w_time w) (w_service w) in
          mkWorld t' s' (<[i := th']> (w_threads w))
      | None => w
      end
  | HangUp i => mkWorld (w_time w) (w_service w) (alter hang_up i (w_threads w))
  end.

Definition world_run (w : World DB) (evs : list WorldEvent) : World DB := fold_left world_step evs w.

(** Running the actions one after another is running the program. *)
Lemma exec_step {E A} (p : Prog E A) e t s :
  exec p e t s = let '(p', t', s') := step p e t s in exec p' e t' s'.
Proof.
  destruct p; try done. cbn. unfold store_call, try, zoom, mbind, M_bind.
  by destruct (run_op op e t (store s)) as [[r t'] db'].
Qed.
End worlds.

(** Numbers on the wire are in range. *)
Definition event_typed `{!Json TombstoneRange} (ev : WorldEvent) : Prop :=
  match ev with
  | Arrive r => request_typed r
  | PeerItem _ _ item _ => item_typed item
  | _ => True
  end.

(** ** Sequential behaviour over the abstract store *)

Section sequential.
Context {DB : Type} {ST : MsgbusStore DB} {JT : Json TombstoneRange} {SR : StoreRefinement DB}.
Context (node : NodeId).

(** What a store call may return and leave, as the contract says. *)
Definition outcome (e : Env) {B} (op : StoreOp B) (a : AbsStore) (x : Result B) (a' : AbsStore) : Prop :=
  match x with
  | Ok y => spec_op e op a (Ok y) a'
  | Err y => a' = a ∧ (has_fault e ∨ limited e B op a ∨ spec_op e op a (Err y) a)
  end.

(** A program run without interruption over the abstract store: its result, the
    state it leaves and what it announces. *)
Fixpoint spec_run (e : Env) {E A} (p : Prog E A) (a : AbsStore) (r : result E A) (a' : AbsStore)
    (out : list StoredMessage) : Prop :=
  match p with
  | Done r' => r = r' ∧ a' = a ∧ out = []
  | Await op k => ∃ x a1, outcome e op a x a1 ∧ spec_run e (k x) a1 r a' out
  | Emit m p => ∃ out', out = m :: out' ∧ spec_run e p a r a' out'
  | Fresh k => ∃ u, spec_run e (k u) a r a' out
  | Listen k => ∃ n, spec_run e (k n) a r a' out
  end.

(** A history: requests served whole, and the store calls of the pull loop. *)
Inductive Entry : Type :=
| Served (i : nat) (e : Env) (r : Request) (res : SResult Response) (out : list StoredMessage)
| Replicated (e : Env) {B : Type} (op : StoreOp B) (x : Result B).

Definition entry_step (x : Entry) (a a' : AbsStore) : Prop :=
  match x with
  | Served i e r res out => request_typed r ∧ spec_run e (request_prog node r) a res a' out
  | Replicated e op x => op_typed op ∧ outcome e op a x a'
  end.

Inductive history : AbsStore → list Entry → AbsStore → Prop :=
| HistNil a : history a [] a
| HistSnoc a l a1 x a2 : history a l a1 → entry_step x a1 a2 → history a (l ++ [x]) a2.

Definition served_index (x : Entry) : option nat :=
  match x with Served i _ _ _ _ => Some i | Replicated _ _ _ => None end.

Lemma store_outcome {B} (op : StoreOp B) e t a db :
  op_typed op → rep a db →
  let '(x, _, db') := run_op op e t db in ∃ a', outcome e op a x a' ∧ rep a' db'.
Proof.
  intros Hty Hrep. pose proof (store_refines B op e a db Hty Hrep t) as H.
  destruct (run_op op e t db) as [[[y|y] t'] db']; [done|]. destruct H as [? ?]. by exists a.
Qed.

Lemma outcome_kept {B} (op : StoreOp B) e a x a' :
  op_typed op → wf a → outcome e op a x a' → kept a a' ∧ wf a'.
Proof.
  intros Hty Hwf. destruct x; simpl.
  - intros Hs. split; [by eapply spec_op_kept | by eapply spec_op_wf].
  - by intros [-> _].
Qed.
End sequential.

(** ** Requests make one store call *)

(** The actions left are sends: the result, and what is sent. *)
Fixpoint settled {E A} (p : Prog E A) : option (result E A * list StoredMessage) :=
  match p with
  | Done r => Some (r, [])
  | Emit m p => '(r, out) ← settled p; Some (r, m :: out)
  | _ => None
  end.

(** At most one store call, of numbers in range. *)
Fixpoint one_call {E A} (p : Prog E A) : Prop :=
  match p with
  | Done _ => True
  | Await op k => op_typed op ∧ ∀ x, is_Some (settled (k x))
  | Emit _ p => is_Some (settled p)
  | Fresh k => ∀ u, settled (k u) = None ∧ one_call (k u)
  | Listen k => ∀ n, settled (k n) = None ∧ one_call (k n)
  end.

(** The message a replication has inserted. *)
Definition inserted {B} (op : StoreOp B) : Result B → option StoredMessage :=
  match op in StoreOp B return Result B → option StoredMessage with
  | OpPutReplicated m => λ x, match x with Ok Inserted => Some m | _ => None end
  | _ => λ _, None
  end.

(** A program of the pull loop sends only what it knows to be inserted. *)
Fixpoint pull_ok {E A} (known : StoredMessage → Prop) (p : Prog E A) : Prop :=
  match p with
  | Done _ => True
  | Await op k => op_typed op ∧ ∀ x, pull_ok (λ m, known m ∨ inserted op x = Some m) (k x)
  | Emit m p => known m ∧ pull_ok known p
  | Fresh k => ∀ u, pull_ok known (k u)
  | Listen k => ∀ n, pull_ok known (k n)
  end.

Lemma pull_ok_mono {E A} (p : Prog E A) (known known' : StoredMessage → Prop) :
  (∀ m, known m → known' m) → pull_ok known p → pull_ok known' p.
Proof.
  revert known known'. induction p as [r|B op k IH|m p IH|k IH|k IH]; intros known known' Hk; simpl.
  - done.
  - intros [? Hp]. split; [done|]. intros x. eapply IH; [|apply Hp]. simpl. intros m [?|?]; auto.
  - intros [? ?]. split; [auto | by eapply IH].
  - intros Hp u. eapply IH; [done | apply Hp].
  - intros Hp u. eapply IH; [done | apply Hp].
Qed.

(** Case analysis on what a request program validates. *)
Ltac prog_cases :=
  unfold fmap_p, p_core, p_store, p_send, mbind, Prog_bind;
  cbn -[Topic_new QueueName_new DELETE_TOPIC];
  repeat (match goal with
          | |- context [prog_bind _ (match ?x with _ => _ end)] => destruct x eqn:?
          end; cbn -[Topic_new QueueName_new DELETE_TOPIC]).

Lemma request_one_call node r : request_typed r → one_call (request_prog node r).
Proof.
  intros Hty.
  assert (∀ {B C D} (f : B → SResult C) (g : C → D) (x : Result B), is_Some (settled
    (prog_bind (λ y, mret (g y) : Prog Status D) (prog_bind (λ y, Done (f y))
       (Done (map_err status_from_error x)))))) as Hread.
  { intros B C D f g [y|y]; simpl; [destruct (f y)|]; simpl; eauto. }
  destruct r; cbn [request_prog request_typed] in *; try done.
  - unfold publish_prog. prog_cases; [|done..]. intros u. split; [done|]. split; [done|].
    intros [x|x]; simpl; eauto.
  - unfold fetch_prog. prog_cases; [|done..]. destruct Hty as [Hf Hl].
    split; [by split; [apply max_1_u64|]|]. intros x. apply (Hread _ _ _ (λ y, Ok _)).
  - unfold subscribe_prog. prog_cases; [|done..]. destruct Hty as [Hf Hl]. intros n.
    split; [done|]. split; [split; [by apply max_1_u64|simpl; by case_match]|].
    intros x. apply (Hread _ _ _ (λ y, Ok _)).
  - unfold get_head_prog. prog_cases; [|done..]. split; [done|]. intros x. apply (Hread _ _ _ (λ y, Ok _)).
  - split; [done|]. intros x. apply (Hread _ _ _ (λ y, Ok _)).
  - split; [done|]. intros x. apply (Hread _ _ _ (λ y, Ok _)).
  - unfold delete_range_prog. prog_cases; [|done..]. split; [done|].
    intros [x|x]; simpl; eauto.
  - unfold enqueue_fifo_prog. prog_cases; [|done..]. intros u. split; [done|]. split; [done|].
    intros x. apply (Hread _ _ _ (λ y, Ok _)).
  - unfold peek_fifo_prog. prog_cases; [|done..]. split; [done|].
    intros [[m|]|x]; simpl; eauto.
  - unfold ack_fifo_prog. prog_cases; [|done..]. split; [done|]. intros [x|x]; simpl; eauto.
  - unfold reject_fifo_prog. prog_cases; [|done..]. split; [done|]. intros [x|x]; simpl; eauto.

Qed.

Lemma pull_ok_bind {E A B} (p : Prog E A) (f : A → Prog E B) (known : StoredMessage → Prop) :
  pull_ok known p → (∀ x, pull_ok known (f x)) → pull_ok known (prog_bind f p).
Proof.
  revert known. induction p as [[x|x]|C op k IH|m p IH|k IH|k IH]; intros known Hp Hf; simpl in *;
    [done|done| | |by eauto..].
  - destruct Hp as [? Hp]. split; [done|]. intros x. apply IH; [done|]. intros y.
    eapply pull_ok_mono; [|apply Hf]. by left.
  - destruct Hp. by eauto.
Qed.

Lemma item_pull_ok `{!Json TombstoneRange} status_text peer head item acc :
  item_typed item → pull_ok (λ _, False) (item_prog status_text peer head item acc).
Proof.
  intros Hty. unfold item_prog. destruct item as [r|x]; [|done].
  unfold mbind, Prog_bind. cbn. destruct (mr_message r) as [v|] eqn:Hv; [|done].
  destruct (Hty r v eq_refl Hv) as (Hh & Hc & Htr).
  destruct (core_message v) as [m|x] eqn:Hm; cbn; [|done].
  apply core_message_iff in Hm as [-> Hw]. simpl in Hh, Hc, Htr.
  destruct (_ || _); [done|]. cbn. split; [done|].
  assert (∀ known : StoredMessage → Prop, pull_ok known (apply_control_prog status_text m)) as Hctl.
  { intros known. unfold apply_control_prog. destruct (_ || _); [done|].
    unfold mbind, Prog_bind. cbn. destruct (from_slice (sm_payload m)) as [tr|x]; [|done]. cbn.
    destruct (bool_decide _); [|done]. cbn. split; [by apply Htr|]. by intros [y|y]. }
  intros [[]|y]; cbn; [| |done].
  - apply pull_ok_bind; [|by intros _; destruct acc].
    apply pull_ok_bind; [done|]. intros _. split; [by right|done].
  - apply pull_ok_bind; [done|]. intros _. by destruct acc.
Qed.

(** ** Linearisation *)

(** A history announces what its requests send and its replications insert. *)
Definition announces (m : StoredMessage) (x : Entry) : Prop :=
  match x with
  | Served _ _ _ _ out => m ∈ out
  | Replicated _ op x => inserted op x = Some m
  end.
Definition announced (l : list Entry) (m : StoredMessage) : Prop := Exists (announces m) l.

Lemma announced_app l l' m : announced l m → announced (l ++ l') m.
Proof. unfold announced. rewrite Exists_app. by left. Qed.

Lemma announced_last l x m : announces m x → announced (l ++ [x]) m.
Proof. unfold announced. rewrite Exists_app. right. by constructor. Qed.

Section linearise.
Context {DB : Type} {ST : MsgbusStore DB} {JT : Json TombstoneRange} {SR : StoreRefinement DB}.
Context (status_text : Status → string) (lag_text : nat → string) (node : NodeId).

Implicit Types (w : World DB) (l : list Entry).

(** Where thread [i] stands: its request is served in the history from its
    store call on, with the answer it will give. *)
Definition thread_history l (ch : list StoredMessage) (i : nat) (th : Thread) : Prop :=
  match th with
  | Handling r p =>
      match settled p with
      | Some (res, pend) => ∃ e out, Served i e r res out ∈ l ∧
          (∀ m, m ∈ out → m ∈ ch ∨ m ∈ pend) ∧ (∀ m, m ∈ pend → m ∈ out)
      | None => (i ∉ omap served_index l) ∧ one_call p ∧ request_typed r ∧
          ∀ e a res a' out, spec_run e p a res a' out → spec_run e (request_prog node r) a res a' out
      end
  | Pulling p => pull_ok (announced l) p
  | Streaming r st _ => ∃ e out, Served i e (RSubscribe r) (Ok (RespSubscribe st)) out ∈ l ∧
      ∀ m, m ∈ out → m ∈ ch
  end.

Record linearised (a : AbsStore) l w : Prop := {
  ln_state : ∃ a', history node a l a' ∧ rep a' (store (w_service w));
  ln_threads : ∀ i th, w_threads w !! i = Some th → thread_history l (published (w_service w)) i th;
  ln_once : NoDup (omap served_index l);
  ln_index : (Forall (λ i, i < length (w_threads w)) (omap served_index l))%nat;
  ln_channel : Forall (announced l) (published (w_service w));
}.

Lemma linearised_new a db t : rep a db → linearised a [] (world_new t db).
Proof. intros Hrep. split; [exists a; split; [constructor|done]|done|constructor|constructor|constructor]. Qed.

(** The other threads do not notice an addition to the history. *)
Lemma thread_history_app l xs ch ch' i th :
  i ∉ omap served_index xs → ch `prefix_of` ch' →
  thread_history l ch i th → thread_history (l ++ xs) ch' i th.
Proof.
  intros Hx [tl ->]. destruct th as [r p|p|r st t]; simpl.
  - destruct (settled p) as [[res pend]|].
    + intros (e & out & Hin & Hout & Hpend). exists e, out. split; [set_solver|].
      split; [|done]. intros m Hm. destruct (Hout m Hm); set_solver.
    + intros (Hi & ? & ? & ?). split; [|done]. rewrite omap_app. set_solver.
  - apply pull_ok_mono. intros m. apply announced_app.
  - intros (e & out & Hin & Hout). exists e, out. split; [set_solver|]. intros m Hm.
    specialize (Hout m Hm). set_solver.
Qed.

Lemma linearised_update a l xs w s' t' i th th' :
  linearised a l w → w_threads w !! i = Some th →
  published (w_service w) `prefix_of` published s' →
  (∃ a', history node a (l ++ xs) a' ∧ rep a' (store s')) →
  thread_history (l ++ xs) (published s') i th' →
  (∀ j, j ∈ omap served_index xs → j = i) → NoDup (omap served_index (l ++ xs)) →
  Forall (announced (l ++ xs)) (published s') →
  linearised a (l ++ xs) (mkWorld t' s' (<[i := th']> (w_threads w))).
Proof.
  intros [Hst Hth Hnd Hix Hch] Hi Hpub Hst' Hth' Hxs Hnd' Hch'. split; simpl; [done| |done| |done].
  - intros j th0. destruct (decide (i = j)) as [<-|Hne].
    + rewrite list_lookup_insert_eq by (by eapply lookup_lt_Some). by intros [= <-].
    + rewrite list_lookup_insert_ne by done. intros Hj.
      apply (thread_history_app l xs (published (w_service w))); [|done|by apply Hth].
      intros Hin. by apply Hne, eq_sym, Hxs.
  - rewrite length_insert, omap_app, Forall_app. split; [done|]. apply Forall_forall.
    intros j ->%Hxs. by eapply lookup_lt_Some.
Qed.

Lemma settled_spec {E A} (p : Prog E A) res out :
  settled p = Some (res, out) → ∀ e a, spec_run e p a res a out.
Proof.
  revert res out. induction p as [r|B op k IH|m p IH|k IH|k IH]; intros res out; simpl; try done.
  - by intros [= -> <-].
  - destruct (settled p) as [[res' out']|]; [|done]. intros [= -> <-] e a.
    exists out'. split; [done | by apply IH].
Qed.

(** The turn of a handler. *)
Lemma linearised_handling a l w e i r p :
  linearised a l w → w_threads w !! i = Some (Handling r p) →
  let '(p', t', s') := step p e (w_time w) (w_service w) in
  ∃ xs, linearised a (l ++ xs) (mkWorld t' s' (<[i := Handling r p']> (w_threads w))).
Proof.
  intros Hln Hi. pose proof (ln_threads _ _ _ Hln _ _ Hi) as Hth.
  pose proof Hln as [(a1 & Hist & Hrep) _ Hnd _ Hch].
  destruct p as [res|B op k|m p|k|k]; cbn [step].
  - exists []. eapply linearised_update; rewrite ?app_nil_r; eauto; set_solver.
  - destruct Hth as (Hfresh & [Hty Hk] & Hrt & Hfit).
    pose proof (store_outcome op e (w_time w) a1 (store (w_service w)) Hty Hrep) as Hout.
    destruct (run_op op e (w_time w) (store (w_service w))) as [[x t'] db'].
    destruct Hout as (a2 & Hout & Hrep2). destruct (Hk x) as [[res out] Hset].
    exists [Served i e r res out]. eapply linearised_update; eauto; simpl.
    + exists a2. split; [|done]. econstructor; [exact Hist|]. split; [done|]. apply Hfit.
      exists x, a2. split; [done | by apply settled_spec].
    + rewrite Hset. exists e, out. split; [set_solver|]. split; [by right|done].
    + set_solver.
    + rewrite omap_app. simpl. apply NoDup_app. split; [done|]. split; [set_solver|]. apply NoDup_singleton.
    + eapply Forall_impl; [exact Hch|]. intros m. apply announced_app.
  - exists []. cbn in Hth. destruct (settled p) as [[res pend]|] eqn:Hset; cbn in Hth.
    2: { destruct Hth as (_ & [? ?] & _). congruence. }
    destruct Hth as (e' & out & Hin & Hout & Hpend).
    eapply linearised_update; rewrite ?app_nil_r; eauto; simpl.
    + by apply prefix_app_r.
    + rewrite Hset. exists e', out. split; [done|]. split; [|set_solver]. intros m' Hm'.
      destruct (Hout m' Hm'); set_solver.
    + set_solver.
    + apply Forall_app. split; [done|]. constructor; [|done]. apply Exists_exists.
      eexists. split; [exact Hin|]. simpl. set_solver.
  - exists []. destruct Hth as (Hfresh & Hk & Hrt & Hfit). destruct (Hk (uuid e (w_time w))) as [Hset Hone].
    eapply linearised_update; rewrite ?app_nil_r; eauto; simpl; [|set_solver].
    rewrite Hset. do 3 (split; [done|]). intros e' a' res a2 out Hs. apply Hfit. by eexists.
  - exists []. destruct Hth as (Hfresh & Hk & Hrt & Hfit).
    destruct (Hk (length (published (w_service w)))) as [Hset Hone].
    eapply linearised_update; rewrite ?app_nil_r; eauto; simpl; [|set_solver].
    rewrite Hset. do 3 (split; [done|]). intros e' a' res a2 out Hs. apply Hfit. by eexists.
Qed.

(** The turn of the pull loop. *)
Lemma linearised_pulling a l w e i p :
  linearised a l w → w_threads w !! i = Some (Pulling p) →
  let '(p', t', s') := step p e (w_time w) (w_service w) in
  ∃ xs, linearised a (l ++ xs) (mkWorld t' s' (<[i := Pulling p']> (w_threads w))).
Proof.
  intros Hln Hi. pose proof (ln_threads _ _ _ Hln _ _ Hi) as Hth. simpl in Hth.
  pose proof Hln as [(a1 & Hist & Hrep) _ Hnd _ Hch].
  destruct p as [res|B op k|m p|k|k]; cbn [step pull_ok] in *;
    try (exists []; eapply linearised_update; rewrite ?app_nil_r; eauto; try set_solver; simpl; by eauto).
  - destruct Hth as [Hty Hk].
    pose proof (store_outcome op e (w_time w) a1 (store (w_service w)) Hty Hrep) as Hout.
    destruct (run_op op e (w_time w) (store (w_service w))) as [[x t'] db'].
    destruct Hout as (a2 & Hout & Hrep2). exists [Replicated e op x].
    eapply linearised_update; eauto; simpl.
    + exists a2. split; [|done]. econstructor; [exact Hist|]. done.
    + eapply pull_ok_mono; [|apply Hk]. intros m [Hm|Hm]; [by apply announced_app|by apply announced_last].
    + set_solver.
    + by rewrite omap_app, app_nil_r.
    + eapply Forall_impl; [exact Hch|]. intros m. apply announced_app.
  - exists []. destruct Hth as [Hm Hp]. eapply linearised_update; rewrite ?app_nil_r; eauto; simpl.
    + by apply prefix_app_r.
    + set_solver.
    + apply Forall_app. split; [done|]. by constructor.
Qed.
(** A new thread. *)
Lemma linearised_spawn a l xs w th :
  linearised a l w →
  (∃ a', history node a (l ++ xs) a' ∧ rep a' (store (w_service w))) →
  thread_history (l ++ xs) (published (w_service w)) (length (w_threads w)) th →
  (∀ j, j ∈ omap served_index xs → j = length (w_threads w)) → NoDup (omap served_index xs) →
  linearised a (l ++ xs) (mkWorld (w_time w) (w_service w) (w_threads w ++ [th])).
Proof.
  intros [Hst Hth Hnd Hix Hch] Hst' Hth' Hxs Hnd'. split; simpl; [done| | | |].
  - intros j th0 [Hj|[Hlen Hj]]%lookup_app_Some.
    + apply (thread_history_app l xs (published (w_service w))); [|done|by apply Hth].
      intros ->%Hxs. apply lookup_lt_Some in Hj. lia.
    + apply list_lookup_singleton_Some in Hj as [Hj <-].
      by replace j with (length (w_threads w)) by lia.
  - rewrite omap_app. apply NoDup_app. split; [done|]. split; [|done]. intros j Hj ->%Hxs.
    rewrite Forall_forall in Hix. specialize (Hix _ Hj). simpl in Hix. lia.
  - rewrite length_app, omap_app, Forall_app. simpl. split.
    + eapply Forall_impl; [exact Hix|]. simpl. lia.
    + apply Forall_forall. intros j ->%Hxs. lia.
  - eapply Forall_impl; [exact Hch|]. intros m. apply announced_app.
Qed.

Definition quiet_env : Env := mkEnv (λ _, None) (λ _, "") (λ _, None).

Lemma spawned_some r p r' st :
  spawned r p = Some (r', st) → r = RSubscribe r' ∧ p = Done (Ok (RespSubscribe st)).
Proof. unfold spawned. intros H. repeat case_match; by simplify_eq. Qed.

Lemma linearised_step a l w ev :
  linearised a l w → event_typed ev →
  ∃ xs, linearised a (l ++ xs) (world_step status_text lag_text node w ev).
Proof.
  intros Hln Hty. pose proof Hln as [(a1 & Hist & Hrep) Hths Hnd Hix Hch].
  destruct ev as [r|peer head item acc|e i|i]; cbn [world_step].
  - destruct (settled (request_prog node r)) as [[res out]|] eqn:Hset.
    + exists [Served (length (w_threads w)) quiet_env r res out].
      apply linearised_spawn; [done| | | |apply NoDup_singleton].
      * exists a1. split; [|done]. econstructor; [exact Hist|]. split; [done|]. by apply settled_spec.
      * simpl. rewrite Hset. exists quiet_env, out. split; [set_solver|]. split; [by right|done].
      * simpl. set_solver.
    + exists []. apply linearised_spawn; rewrite ?app_nil_r; [done|by eexists| |set_solver|constructor].
      simpl. rewrite Hset. split; [|split; [by apply request_one_call|done]].
      intros Hin. rewrite Forall_forall in Hix. specialize (Hix _ Hin). simpl in Hix. lia.
  - exists []. apply linearised_spawn; rewrite ?app_nil_r; [done|by eexists| |set_solver|constructor].
    simpl. eapply pull_ok_mono; [|by apply item_pull_ok]. done.
  - destruct (w_threads w !! i) as [th|] eqn:Hi; [|exists []; by rewrite app_nil_r].
    destruct th as [r p|p|r st t].
    + cbn [resume]. destruct (spawned r p) as [[r' st]|] eqn:Hsp.
      2: { pose proof (linearised_handling a l w e i r p Hln Hi) as Hstep.
           by destruct (step p e (w_time w) (w_service w)) as [[p' t'] s']. }
      apply spawned_some in Hsp as [-> ->].
      exists []. eapply linearised_update; rewrite ?app_nil_r; eauto; [|set_solver].
      destruct (Hths _ _ Hi) as (e' & out & Hin & Hout & _). exists e', out. split; [done|].
      intros m Hm. destruct (Hout m Hm); [done|set_solver].
    + pose proof (linearised_pulling a l w e i p Hln Hi) as Hstep. cbn [resume].
      by destruct (step p e (w_time w) (w_service w)) as [[p' t'] s'].
    + exists []. eapply linearised_update; rewrite ?app_nil_r; eauto; [|set_solver]. exact (Hths _ _ Hi).
  - exists []. rewrite app_nil_r. split; simpl; [by eexists| |done| |done].
    + intros j th. rewrite list_lookup_alter. case_decide; [subst j|apply Hths].
      intros (th0 & Hth0 & ->)%fmap_Some. specialize (Hths _ _ Hth0). by destruct th0.
    + by rewrite length_alter.
Qed.

Lemma linearised_run a l w evs :
  linearised a l w → Forall event_typed evs →
  ∃ xs, linearised a (l ++ xs) (world_run status_text lag_text node w evs).
Proof.
  intros Hln Hty. revert l w Hln. induction Hty as [|ev evs Hev _ IH]; intros l w Hln.
  { exists []. by rewrite app_nil_r. }
  destruct (linearised_step a l w ev Hln Hev) as [xs Hln1]. destruct (IH _ _ Hln1) as [ys Hln2].
  exists (xs ++ ys). by rewrite app_assoc.
Qed.
End linearise.

(** ** What every history guarantees *)

Section histories.
Context {DB : Type} {ST : MsgbusStore DB} {JT : Json TombstoneRange} {SR : StoreRefinement DB}.
Context (node : NodeId).

Fixpoint calls_typed {E A} (p : Prog E A) : Prop :=
  match p with
  | Done _ => True
  | Await op k => op_typed op ∧ ∀ x, calls_typed (k x)
  | Emit _ p => calls_typed p
  | Fresh k => ∀ u, calls_typed (k u)
  | Listen k => ∀ n, calls_typed (k n)
  end.

Lemma settled_typed {E A} (p : Prog E A) : is_Some (settled p) → calls_typed p.
Proof.
  induction p as [r|B op k IH|m p IH|k IH|k IH]; simpl; try by intros [??].
  intros [x Hx]. apply IH. by destruct (settled p).
Qed.

Lemma one_call_typed {E A} (p : Prog E A) : one_call p → calls_typed p.
Proof.
  induction p as [r|B op k IH|m p IH|k IH|k IH]; simpl; [done| | | |].
  - intros [? Hk]. split; [done|]. intros x. by apply settled_typed.
  - apply settled_typed.
  - intros Hk u. by apply IH, Hk.
  - intros Hk n. by apply IH, Hk.
Qed.

Lemma spec_run_kept {E A} (p : Prog E A) e a r a' out :
  calls_typed p → wf a → spec_run e p a r a' out → kept a a' ∧ wf a'.
Proof.
  revert a r a' out. induction p as [r0|B op k IH|m p IH|k IH|k IH]; intros a r a' out; simpl.
  - by intros _ Hwf (_ & -> & _).
  - intros [Hty Hk] Hwf (x & a1 & Ho & Hs). destruct (outcome_kept op e a x a1 Hty Hwf Ho) as [K1 W1].
    destruct (IH x a1 r a' out (Hk x) W1 Hs) as [K2 W2]. split; [by etrans|done].
  - intros Hk Hwf (out' & _ & Hs). by eapply IH.
  - intros Hk Hwf (u & Hs). by eapply IH.
  - intros Hk Hwf (n & Hs). by eapply IH.
Qed.

Lemma entry_kept x a a' : wf a → entry_step node x a a' → kept a a' ∧ wf a'.
Proof.
  intros Hwf. destruct x as [i e r res out|e B op x]; simpl.
  - intros [Hty Hs]. eapply spec_run_kept; [|done|done]. by apply one_call_typed, request_one_call.
  - intros [Hty Ho]. by eapply outcome_kept.
Qed.

Lemma history_kept a l a' : wf a → history node a l a' → kept a a' ∧ wf a'.
Proof.
  intros Hwf. induction 1 as [a|a l a1 x a2 _ IH Hx]; [done|].
  destruct (IH Hwf) as [K1 W1]. destruct (entry_kept x a1 a2 W1 Hx) as [K2 W2]. split; [by etrans|done].
Qed.
Lemma history_entry a l a' x :
  history node a l a' → x ∈ l → ∃ a1 a2, entry_step node x a1 a2.
Proof.
  induction 1 as [a|a l a1 y a2 _ IH Hy]; [by intros ?%elem_of_nil|].
  intros [Hx|Hx%list_elem_of_singleton]%elem_of_app; [by apply IH|]. subst. eauto.
Qed.

(** An entry of the store, up to a later deletion. *)
Definition logged (a : AbsStore) (m : StoredMessage) : Prop :=
  ∃ m', log_of a (msg_key m) !! (N.to_nat (sm_head_id m) - 1)%nat = Some m' ∧ entry_le m m'.

Lemma elem_logged a m : wf a → m ∈ log_of a (msg_key m) → logged a m.
Proof.
  intros Hwf (i & Hi)%list_elem_of_lookup. destruct (wf_entry _ Hwf _ _ _ Hi) as [Hh _].
  exists m. split; [|done]. rewrite Hh. rewrite <- Hi. f_equal. lia.
Qed.

Lemma logged_kept a a' m : kept a a' → has_room a' → logged a m → logged a' m.
Proof.
  intros [_ Hle] Hroom (m1 & Hm1 & He). destruct (proj1 (Hle Hroom _) _ _ Hm1) as (m2 & Hm2 & He2).
  exists m2. split; [done | by etrans].
Qed.

Lemma logged_bound a m : wf a → logged a m → (sm_head_id m ≤ log_head (log_of a (msg_key m)))%N.
Proof. intros Hwf (m' & Hm' & _). apply lookup_lt_Some in Hm'. unfold log_head. lia. Qed.

Lemma has_room_kept a a' : kept a a' → has_room a' → has_room a.
Proof. intros [Hle _] Hroom k. specialize (Hle k). specialize (Hroom k). lia. Qed.

(** What a publication does, and what is announced in general. *)
Definition published_as (r : PublishRequest) (m : StoredMessage) (res : SResult Response) : Prop :=
  res = Ok (RespPublish (mkMessageResponse (Some (proto_message m)))) ∧
  msg_key m = (pr_topic r, NodeId.key node) ∧ sm_origin m = node ∧
  sm_payload m = pr_payload r ∧ sm_headers m = pr_headers r.

Lemma publish_run e r a res a' out :
  spec_run e (request_prog node (RPublish r)) a res a' out →
  (is_ok res = false ∧ a' = a ∧ out = []) ∨
  ∃ m, published_as r m res ∧ out = [m] ∧ m ∈ log_of a' (msg_key m) ∧
    sm_head_id m = u64_saturating_add (log_head (log_of a (msg_key m))) 1.
Proof.
  unfold request_prog, publish_prog, fmap_p, p_core, p_store, mbind, Prog_bind.
  destruct (Topic_new (pr_topic r)) as [t|x] eqn:Ht; [|by intros (-> & -> & ->); left].
  apply Topic_new_ok in Ht as [_ Ht]. cbn.
  destruct (ensure_application_topic t); [|by intros (-> & -> & ->); left]. cbn.
  destruct (owned_origin node (pr_origin r)) as [o|x] eqn:Horig; [|by intros (-> & -> & ->); left].
  apply owned_origin_ok in Horig as ->. cbn. intros (u & [m|y] & a1 & Ho & Hs); cbn in Ho, Hs.
  2: { destruct Hs as (-> & -> & ->). destruct Ho as [-> _]. by left. }
  destruct Hs as (out' & -> & -> & -> & ->). right. exists m.
  destruct Ho as (now & _ & [= Hm] & ->).
  assert (msg_key m = key_of t node) as Hk by (rewrite Hm; apply mark_key).
  split; [|split; [done|split]].
  - split; [done|]. split; [rewrite Hk; unfold key_of; by rewrite Ht|]. rewrite Hm. unfold mark. by case_match.
  - rewrite Hk, log_of_set_log, decide_True by done. rewrite Hm. apply log_put_elem.
  - rewrite Hk, Hm. by rewrite mark_head.
Qed.

Lemma delete_run e r a res a' out m :
  spec_run e (request_prog node (RDeleteRange r)) a res a' out → m ∈ out → m ∈ log_of a' (msg_key m).
Proof.
  cbn [request_prog]. unfold delete_range_prog. prog_cases; try (by intros (_ & _ & ->) ?%elem_of_nil).
  intros ([[n c]|y] & a'' & Ho & Hs); cbn in Ho, Hs; [|by destruct Hs as (_ & _ & ->); intros ?%elem_of_nil].
  destruct Hs as (out' & -> & _ & -> & ->). intros ->%list_elem_of_singleton.
  destruct (_ <? _)%N; [by destruct Ho|]. destruct Ho as (now & now' & u & _ & _ & [= _ Hc] & ->).
  cbn in Hc. rewrite Hc. unfold marker_spec, append_spec. cbn [fst snd].
  rewrite mark_key, log_of_set_log, decide_True by done. apply log_put_elem.
Qed.

(** The other requests announce nothing. *)
Fixpoint silent {E A} (p : Prog E A) : Prop :=
  match p with
  | Done _ => True
  | Await op k => ∀ x, silent (k x)
  | Emit _ _ => False
  | Fresh k => ∀ u, silent (k u)
  | Listen k => ∀ n, silent (k n)
  end.

Lemma silent_bind {E A B} (p : Prog E A) (f : A → Prog E B) :
  silent p → (∀ x, silent (f x)) → silent (p ≫= f).
Proof.
  intros Hp Hf. induction p as [[x|x]|C op k IH|m p IH|k IH|k IH]; cbn in *; try done; intros x; by apply IH.
Qed.

Lemma silent_run {E A} (p : Prog E A) e a res a' out :
  silent p → spec_run e p a res a' out → out = [].
Proof.
  revert a. induction p as [r|B op k IH|m p IH|k IH|k IH]; intros a Hp; cbn.
  - by intros (_ & _ & ->).
  - intros (x & a1 & _ & Hs). by eapply IH.
  - done.
  - intros (u & Hs). by eapply IH.
  - intros (n & Hs). by eapply IH.
Qed.

Lemma request_silent r :
  match r with RPublish _ | RDeleteRange _ => False | _ => True end → silent (request_prog node r).
Proof.
  intros Hr. destruct r; try done; cbn [request_prog]; repeat (apply silent_bind; [|intros ?]); done.
Qed.

Lemma put_inserted m a a' :
  (Ok Inserted, a') = put_replicated_spec m a →
  a' = set_log (msg_key m) (log_put (sm_head_id m) (mark a m) (log_of a (msg_key m))) a.
Proof. unfold put_replicated_spec. intros H. repeat case_match; by simplify_eq. Qed.

Lemma entry_logged x a a' m :
  wf a → entry_step node x a a' → announces m x → logged a' m.
Proof.
  intros Hwf Hx Hm. pose proof (entry_kept x a a' Hwf Hx) as [_ Hwf'].
  destruct x as [i e r res out|e B op x]; simpl in Hx, Hm.
  - destruct Hx as [_ Hs]. destruct r; try (by apply silent_run in Hs as ->; [apply elem_of_nil in Hm|apply request_silent]).
    + destruct (publish_run _ _ _ _ _ _ Hs) as [(_ & _ & ->)|(m' & _ & -> & Hin & _)]; [by apply elem_of_nil in Hm|].
      apply list_elem_of_singleton in Hm as ->. by apply elem_logged.
    + apply elem_logged; [done|]. by eapply delete_run.
  - destruct Hx as [Hty Ho]. destruct op; try done. cbn in Hm, Ho, Hty.
    destruct x as [[]|]; try done. injection Hm as <-.
    apply put_inserted in Ho as ->.
    destruct (elem_logged _ (mark a m0) Hwf') as (m' & Hm' & He).
    + rewrite mark_key, log_of_set_log, decide_True by done. apply log_put_elem.
    + exists m'. rewrite mark_key, mark_head in Hm'. split; [done|]. etrans; [apply mark_le|done].
Qed.

Lemma history_logged a l a' m :
  wf a → history node a l a' → has_room a' → announced l m → logged a' m.
Proof.
  intros Hwf Hist. unfold announced.
  induction Hist as [a|a l a1 x a2 Hist IH Hx]; intros Hroom; [by intros H; inversion H|].
  destruct (history_kept a l a1 Hwf Hist) as [_ Hwf1].
  destruct (entry_kept x a1 a2 Hwf1 Hx) as [K2 Hwf2].
  intros [Hm|Hm]%Exists_app.
  - eapply logged_kept; [done|done|]. apply IH; [done|by eapply has_room_kept|done].
  - apply Exists_cons in Hm as [Hm|Hm%Exists_nil]; [|done]. by apply (entry_logged x a1).
Qed.

(** Two publications never get the same number of a log. *)
Definition publish_entry (i : nat) (m : StoredMessage) (x : Entry) : Prop :=
  match x with Served j _ (RPublish _) _ out => j = i ∧ out = [m] | _ => False end.

Lemma publish_entry_last x a a' i m :
  has_room a → entry_step node x a a' → publish_entry i m x →
  announces m x ∧ sm_head_id m = (log_head (log_of a (msg_key m)) + 1)%N.
Proof.
  intros Hroom Hx Hp. destruct x as [j e [] res out|]; try done. destruct Hp as [-> ->], Hx as [_ Hs].
  apply publish_run in Hs as [(_ & _ & ?)|(m' & _ & [= <-] & _ & Hh)]; [done|].
  split; [set_solver|]. rewrite Hh. by apply u64_saturating_succ.
Qed.

Lemma publish_entry_announces x i m : publish_entry i m x → announces m x.
Proof. destruct x as [j e [] res out|]; try done. intros [_ ->]. set_solver. Qed.

Lemma history_unique a l a' i j m m' :
  wf a → history node a l a' → has_room a' → NoDup (omap served_index l) →
  Exists (publish_entry i m) l → Exists (publish_entry j m') l → i ≠ j →
  (msg_key m, sm_head_id m) ≠ (msg_key m', sm_head_id m').
Proof.
  intros Hwf Hist. revert i j m m'.
  induction Hist as [a|a l a1 x a2 Hist IH Hx]; intros i j m m' Hroom Hnd; [by intros H; inversion H|].
  destruct (history_kept a l a1 Hwf Hist) as [_ Hwf1].
  destruct (entry_kept x a1 a2 Hwf1 Hx) as [K2 Hwf2]. pose proof (has_room_kept _ _ K2 Hroom) as Hroom1.
  rewrite omap_app in Hnd. apply NoDup_app in Hnd as (Hnd & _ & _).
  assert (∀ i m, Exists (publish_entry i m) l → (sm_head_id m ≤ log_head (log_of a1 (msg_key m)))%N) as Hold.
  { intros i' m0 H0. apply logged_bound; [done|]. eapply history_logged; [exact Hwf|done|done|].
    eapply Exists_impl; [exact H0|]. intros y. apply publish_entry_announces. }
  assert (∀ i m, Exists (publish_entry i m) [x] → publish_entry i m x) as Hsing.
  { intros i' m0 [Hm0|Hm0%Exists_nil]%Exists_cons; done. }
  rewrite !Exists_app. intros [Hi|Hi%Hsing] [Hj|Hj%Hsing] Hne.
  - by eapply IH.
  - destruct (publish_entry_last _ _ _ _ _ Hroom1 Hx Hj) as [_ Hh]. specialize (Hold _ _ Hi).
    intros [Hk Hn]%pair_eq. rewrite Hk in Hold. lia.
  - destruct (publish_entry_last _ _ _ _ _ Hroom1 Hx Hi) as [_ Hh]. specialize (Hold _ _ Hj).
    intros [Hk Hn]%pair_eq. rewrite <- Hk in Hold. lia.
  - destruct x as [n e [] res out|]; try done. destruct Hi as [-> _], Hj as [-> _]. done.
Qed.
End histories.
