(* ===== verification/Delivery.v ===== *)
(** * Delivery: what concurrent subscribers receive

    A handler stores a message and then sends it; in between it is in flight.
    As long as at most one message of a log is in flight at any time, the
    channel carries the numbers of that log in order, whatever else runs, and a
    subscriber that keeps up receives every entry once, also those published
    while its own [subscribe] call was under way. *)

From Stdlib Require Import Ascii String NArith ZArith Lia Sorting.Sorted.
From stdpp Require Import base strings list gmap.
From S2P Require Import Prelude Strings Core Json Spec History Proto Server ServerProps Replay Sync SyncProps Subscribe SubscribeClaims Programs Concurrent.

(** ** Numbers that never jump *)

(** No number is more than one above the largest so far. *)
Fixpoint chain (n : N) (l : list N) : Prop :=
  match l with
  | [] => True
  | x :: l' => (x ≤ n + 1)%N ∧ chain (N.max n x) l'
  end.

Definition tip (n : N) (l : list N) : N := fold_left N.max l n.

Lemma tip_app n l l' : tip n (l ++ l') = tip (tip n l) l'.
Proof. apply fold_left_app. Qed.

Lemma tip_cons n x l : tip n (x :: l) = tip (N.max n x) l.
Proof. done. Qed.

Lemma chain_app n l l' : chain n (l ++ l') ↔ chain n l ∧ chain (tip n l) l'.
Proof.
  revert n. induction l as [|x l IH]; intros n; simpl; [naive_solver|]. rewrite IH. unfold tip. simpl. naive_solver.
Qed.

Lemma tip_ge n l : (n ≤ tip n l)%N.
Proof.
  revert n. induction l as [|x l IH]; intros n; [done|]. unfold tip in *. simpl.
  specialize (IH (N.max n x)). lia.
Qed.

(** The live filter turns them into consecutive numbers. *)
Lemma fresh_chain (l : list StoredMessage) n x :
  chain n (sm_head_id <$> l) → (n ≤ N.of_nat x)%N →
  sm_head_id <$> fresh (N.of_nat x) l =
    nseq (S x) (N.to_nat (tip n (sm_head_id <$> l)) - x).
Proof.
  revert n x. induction l as [|m l IH]; intros n x.
  { intros _ Hn. unfold tip. simpl. by replace (N.to_nat n - x)%nat with 0%nat by lia. }
  rewrite fmap_cons, tip_cons. cbn [chain fresh]. intros [Hm Hl] Hn.
  destruct (N.ltb_spec (N.of_nat x) (sm_head_id m)) as [Hlt|Hge].
  - assert (sm_head_id m = N.of_nat (S x)) as Hx by lia. rewrite fmap_cons, Hx in *.
    rewrite (IH (N.max n (N.of_nat (S x))) (S x)); [|done|lia].
    pose proof (tip_ge (N.max n (N.of_nat (S x))) (sm_head_id <$> l)).
    replace (N.to_nat (tip (N.max n (N.of_nat (S x))) (sm_head_id <$> l)) - x)%nat
      with (S (N.to_nat (tip (N.max n (N.of_nat (S x))) (sm_head_id <$> l)) - S x)) by lia.
    done.
  - by apply IH; [|lia].
Qed.

(** ** Messages in flight *)

Definition of_key (k : log_key) (m : StoredMessage) : list StoredMessage :=
  if decide (msg_key m = k) then [m] else [].

Definition pending (k : log_key) {E A} (p : Prog E A) : list StoredMessage :=
  match p with Emit m _ => of_key k m | _ => [] end.

Definition thread_pending (k : log_key) (th : Thread) : list StoredMessage :=
  match th with
  | Handling _ p => pending k p
  | Pulling p => pending k p
  | Streaming _ _ _ => []
  end.

Definition in_flight (k : log_key) (ths : list Thread) : list StoredMessage :=
  ths ≫= thread_pending k.

(** At most one message of the log is stored and not yet sent. *)
Definition calm {DB} (k : log_key) (w : World DB) : Prop := (length (in_flight k (w_threads w)) ≤ 1)%nat.

Definition written (k : log_key) {B} (op : StoreOp B) : Result B → list StoredMessage :=
  match op in StoreOp B return Result B → list StoredMessage with
  | OpAppend _ => λ x, match x with Ok m => of_key k m | Err _ => [] end
  | OpTombstoneMarker _ _ _ _ _ _ => λ x, match x with Ok y => of_key k y.2 | Err _ => [] end
  | OpPutReplicated m => λ x, match x with Ok Inserted => of_key k m | _ => [] end
  | _ => λ _, []
  end.

(** A program sends what it has written to the log right after the write, and
    nothing else of that log. *)
Fixpoint tame (k : log_key) {E A} (p : Prog E A) : Prop :=
  match p with
  | Done _ => True
  | Await op c => ∀ x, pending k (c x) = written k op x ∧ tame k (c x)
  | Emit _ p => pending k p = [] ∧ tame k p
  | Fresh c => ∀ u, pending k (c u) = [] ∧ tame k (c u)
  | Listen c => ∀ n, pending k (c n) = [] ∧ tame k (c n)
  end.

Lemma of_key_spec k m : of_key k m = [m] ∧ msg_key m = k ∨ of_key k m = [] ∧ msg_key m ≠ k.
Proof. unfold of_key. case_decide; auto. Qed.


Lemma pending_map k {E A B} (f : A → Prog E B) (p : Prog E A) :
  (∀ x, pending k (f x) = []) → pending k (prog_bind f p) = pending k p.
Proof. intros Hf. by destruct p as [[]|?|?|?|?]; simpl. Qed.

(** Steps that follow the last send of the log may be anything quiet. *)
Lemma tame_bind k {E A B} (f : A → Prog E B) (p : Prog E A) :
  tame k p → (∀ x, pending k (f x) = [] ∧ tame k (f x)) → tame k (prog_bind f p).
Proof.
  intros Hp Hf. induction p as [[x|x]|C op c IH|m p IH|c IH|c IH]; cbn [prog_bind tame] in *;
    rewrite ?pending_map by apply Hf.
  - apply Hf.
  - done.
  - intros x. destruct (Hp x). rewrite pending_map by apply Hf. auto.
  - destruct Hp. auto.
  - intros u. destruct (Hp u). rewrite pending_map by apply Hf. auto.
  - intros u. destruct (Hp u). rewrite pending_map by apply Hf. auto.
Qed.

Lemma request_tame k node r :
  pending k (request_prog node r) = [] ∧ tame k (request_prog node r).
Proof.
  destruct r; cbn [request_prog].
  - unfold publish_prog. prog_cases; try done. split; [done|]. intros u. split; [done|].
    by intros [m|x].
  - unfold fetch_prog. prog_cases; try done. split; [done|]. by intros [x|x].
  - unfold subscribe_prog. prog_cases; try done. split; [done|]. intros n. split; [done|]. by intros [x|x].
  - unfold get_head_prog. prog_cases; try done. split; [done|]. by intros [x|x].
  - split; [done|]. by intros [x|x].
  - split; [done|]. by intros [x|x].
  - unfold delete_range_prog. prog_cases; try done. split; [done|]. by intros [x|x].
  - unfold enqueue_fifo_prog. prog_cases; try done. split; [done|]. intros n. split; [done|]. by intros [x|x].
  - unfold peek_fifo_prog. prog_cases; try done. split; [done|]. by intros [[x|]|x].
  - unfold ack_fifo_prog. prog_cases; try done. split; [done|]. by intros [x|x].
  - unfold reject_fifo_prog. prog_cases; try done. split; [done|]. by intros [x|x].
  - done.
  - split; [done|]. by intros [x|x].
Qed.

Lemma item_tame `{!Json TombstoneRange} k status_text peer head item acc :
  k.1 ≠ DELETE_TOPIC →
  pending k (item_prog status_text peer head item acc) = [] ∧
  tame k (item_prog status_text peer head item acc).
Proof.
  intros Hk. unfold item_prog. destruct item as [r|x]; [|done].
  unfold mbind, Prog_bind. cbn. destruct (mr_message r) as [v|]; [|done].
  destruct (core_message v) as [m|x]; cbn; [|done].
  destruct (_ || _); [done|]. cbn. split; [done|].
  assert (tame k (apply_control_prog status_text m) ∧
    pending k (apply_control_prog status_text m) = []) as [Hctl Hpend].
  { unfold apply_control_prog. destruct (_ || _); [done|].
    unfold mbind, Prog_bind. cbn. destruct (from_slice (sm_payload m)) as [tr|x]; [|done]. cbn.
    destruct (bool_decide _); [|done]. cbn. split; [|done]. by intros [y|y]. }
  intros [[]|y]; cbn -[apply_control_prog]; [| |done].
  - destruct (decide (topic_str (sm_topic m) = DELETE_TOPIC)) as [Hd|Hd].
    + assert (of_key k m = []) as Hm.
      { destruct (of_key_spec k m) as [[_ <-]|[? _]]; [|done]. by destruct Hk. }
      rewrite pending_map by (by intros _; destruct acc). rewrite pending_map by (intros _; exact Hm).
      rewrite Hm. split; [done|]. apply tame_bind; [|by intros _; destruct acc].
      apply tame_bind; [done|]. intros _. cbn. by rewrite Hm.
    + unfold apply_control_prog. rewrite bool_decide_false by done. cbn. by destruct acc.
  - rewrite pending_map by (by intros _; destruct acc). split; [done|].
    apply tame_bind; [done|]. by intros _; destruct acc.
Qed.

Lemma pull_ok_typed {E A} known (p : Prog E A) : pull_ok known p → calls_typed p.
Proof.
  revert known. induction p as [r|B op c IH|m p IH|c IH|c IH]; intros known; cbn.
  - done.
  - intros [? Hc]. split; [done|]. intros x. by eapply IH.
  - intros [_ ?]. by eapply IH.
  - intros Hc u. by eapply IH.
  - intros Hc u. by eapply IH.
Qed.

Lemma step_prefix {DB} `{!MsgbusStore DB} {E A} (p : Prog E A) e t (s : MsgbusGrpcService DB) :
  published s `prefix_of` published (step p e t s).2.
Proof.
  destruct p; cbn; [done| |by apply prefix_app_r|done|done].
  by destruct (run_op op e t (store s)) as [[x t'] db'].
Qed.

(** ** The effect of a store call on a log's length *)

Lemma put_inserted_bound m a a' :
  (Ok Inserted, a') = put_replicated_spec m a →
  (1 ≤ sm_head_id m ≤ log_head (log_of a (msg_key m)) + 1)%N.
Proof.
  unfold put_replicated_spec. destruct (N.eqb_spec (sm_head_id m) 0); [done|].
  destruct (_ !! _) as [ex|] eqn:Hl.
  - apply lookup_lt_Some in Hl. intros _. unfold log_head. lia.
  - destruct (N.ltb_spec (u64_saturating_add (log_head (log_of a (msg_key m))) 1) (sm_head_id m));
      [done|]. intros _. unfold u64_saturating_add in *. lia.
Qed.

Lemma written_log `{SR : StoreRefinement DB} k {B} (op : StoreOp B) e a x a' :
  op_typed op → wf a → outcome e op a x a' →
  match written k op x with
  | [] => log_head (log_of a' k) = log_head (log_of a k)
  | m :: l => l = [] ∧ (sm_head_id m ≤ log_head (log_of a k) + 1)%N ∧
      log_head (log_of a' k) = N.max (log_head (log_of a k)) (sm_head_id m)
  end.
Proof.
  intros Hty Hwf. destruct x as [y|y]; cbn [outcome].
  2: { intros [-> _]. by destruct op. }
  assert (∀ now m a0, wf a0 → match of_key k (append_spec now m a0).1 with
    | [] => log_head (log_of (append_spec now m a0).2 k) = log_head (log_of a0 k)
    | m' :: l => l = [] ∧ (sm_head_id m' ≤ log_head (log_of a0 k) + 1)%N ∧
        log_head (log_of (append_spec now m a0).2 k) = N.max (log_head (log_of a0 k)) (sm_head_id m')
    end) as Happend.
  { intros now m a0 Hwf0. unfold append_spec. cbn [fst snd]. set (k0 := key_of (nm_topic m) (nm_origin m)).
    destruct (next_head_bounds (log_of a0 k0)) as [Hb _]; [by apply Hwf0|].
    rewrite log_of_set_log.
    destruct (of_key_spec k (mark a0 (mkStoredMessage (nm_id m) (nm_topic m) (nm_origin m)
      (u64_saturating_add (log_head (log_of a0 k0)) 1) (nm_payload m) (nm_headers m) now false)))
      as [[-> Hk]|[-> Hk]]; rewrite mark_key in Hk; change (msg_key _) with k0 in Hk.
    - subst k. rewrite mark_head, decide_True by done. cbn [sm_head_id].
      rewrite log_put_length by done. split; [done|]. split; lia.
    - by rewrite decide_False. }
  destruct op; cbn [spec_op written op_typed] in *.
  - intros (now & _ & [= ->] & ->). by apply Happend.
  - by intros [_ ->].
  - by intros [_ ->].
  - by intros [-> _].
  - destruct y; cbn.
    + intros Hs. pose proof (put_inserted_bound _ _ _ Hs) as Hb. apply put_inserted in Hs as ->.
      rewrite log_of_set_log. destruct (of_key_spec k m) as [[-> Hk]|[-> Hk]].
      * rewrite decide_True by done. subst k. rewrite log_put_length by lia. split; [done|]. split; [lia|done].
      * by rewrite decide_False.
    + unfold put_replicated_spec. intros Hs. repeat case_match; by simplify_eq.
  - intros Hs. destruct (_ <? _)%N; destruct Hs as [_ ->]; [done|apply tombstone_head].
  - destruct (_ <? _)%N; [by intros [? _]|]. intros (now & now' & n & _ & _ & [= ->] & ->).
    pose proof (Happend now' (marker_message (mkMessageId (uuid e n)) now t o from to mt mo)
      (tombstone_spec (key_of t o) from to a).2) as H.
    rewrite tombstone_head in H. apply H. destruct Hty. by apply tombstone_wf.
  - by intros (now & _ & _ & ->).
  - by intros [_ ->].
  - intros [_ ->]. unfold ack_spec. destruct (queue_of a _); [done|]. by case_bool_decide.
  - intros [_ ->]. unfold reject_spec. destruct (queue_of a _); [done|]. by case_bool_decide.
  - by intros [_ ->].
  - by intros [-> _].
Qed.

(** ** The channel of a calm log *)

Section delivery.
Context {DB : Type} {ST : MsgbusStore DB} {JT : Json TombstoneRange} {SR : StoreRefinement DB}.
Context (status_text : Status → string) (lag_text : nat → string) (node : NodeId).
Context (k : log_key) (L0 : N).

Implicit Types (w : World DB) (s : MsgbusGrpcService DB) (ch : list StoredMessage).

Definition on_log ch : list StoredMessage := filter (λ m, msg_key m = k) ch.

Lemma on_log_snoc ch m : on_log (ch ++ [m]) = on_log ch ++ of_key k m.
Proof. unfold on_log, of_key. rewrite filter_app, filter_cons, filter_nil. by case_decide. Qed.

(** The numbers sent so far and in flight reach the head of the log. *)
Definition in_order (a : AbsStore) ch (flight : list StoredMessage) : Prop :=
  let nums := sm_head_id <$> (on_log ch ++ flight) in
  chain L0 nums ∧ tip L0 nums = log_head (log_of a k).

(** One action of a program, the other messages in flight being [pre] and [post]. *)
Lemma step_in_order {E A} (p : Prog E A) e t a s pre post :
  rep a (store s) → calls_typed p → tame k p →
  in_order a (published s) (pre ++ pending k p ++ post) →
  let '(p', t', s') := step p e t s in
  (length (pre ++ pending k p' ++ post) ≤ 1)%nat →
  (length (pre ++ pending k p ++ post) ≤ 1)%nat →
  calls_typed p' ∧ tame k p' ∧ ∃ a', rep a' (store s') ∧ kept a a' ∧
    in_order a' (published s') (pre ++ pending k p' ++ post).
Proof.
  intros Hrep Hty Htame Hord. destruct p as [r|B op c|m p|c|c]; cbn [step].
  - intros _ _. split; [done|]. split; [done|]. by exists a.
  - destruct Hty as [Hty Hcty]. pose proof (store_outcome op e t a (store s) Hty Hrep) as Hout.
    destruct (run_op op e t (store s)) as [[x t'] db']. destruct Hout as (a' & Hout & Hrep').
    intros Hlen _. destruct (Htame x) as [Hpend Htame']. split; [done|]. split; [done|].
    pose proof (rep_wf _ _ Hrep) as Hwf.
    exists a'. split; [done|]. split; [by eapply outcome_kept|].
    pose proof (written_log k op e a x a' Hty Hwf Hout) as Hw. rewrite <- Hpend in Hw.
    cbn [pending app] in Hord. destruct (pending k (c x)) as [|m l].
    + unfold in_order in *. cbn [app]. by rewrite Hw.
    + destruct Hw as (-> & Hle & Hhead). rewrite !length_app in Hlen. cbn in Hlen.
      destruct pre; [|simpl in Hlen; lia]. destruct post; [|simpl in Hlen; lia].
      unfold in_order in *. cbn [app published] in *. rewrite app_nil_r in Hord.
      rewrite fmap_app. destruct Hord as [Hc Ht]. rewrite chain_app, tip_app, Ht. cbn. done.
  - intros Hlen' Hlen. destruct Htame as [Hpend Htame]. split; [done|]. split; [done|]. exists a.
    split; [done|]. split; [done|]. rewrite Hpend in *. cbn [pending app] in *. unfold in_order in *. cbn [emit published].
    rewrite on_log_snoc. destruct (of_key_spec k m) as [[Hm _]|[Hm _]]; rewrite Hm in *.
    + rewrite !length_app in Hlen. cbn in Hlen. destruct pre; [|simpl in Hlen; lia].
      destruct post; [|simpl in Hlen; lia]. cbn [app] in *. by rewrite app_nil_r.
    + by rewrite app_nil_r.
  - intros _ _. destruct (Htame (uuid e t)) as [Hp Ht]. split; [done|]. split; [done|].
    exists a. split; [done|]. split; [done|]. by rewrite Hp.
  - intros _ _. destruct (Htame (length (published s))) as [Hp Ht]. split; [done|]. split; [done|].
    exists a. split; [done|]. split; [done|]. by rewrite Hp.
Qed.

(** ** Subscriptions to the log *)

Definition replay_limit (r : SubscribeRequest) : N :=
  if (sr_replay_limit r =? 0)%N then DEFAULT_REPLAY_LIMIT else sr_replay_limit r.

(** What a subscription to the log starts with: its receiver was created before
    its replay was read. *)
Definition well_started (a : AbsStore) ch (r : SubscribeRequest) (st : SubscribeStart) : Prop :=
  (ss_live_from st ≤ length ch)%nat ∧
  (key_of (ss_topic st) (ss_origin st) = k → ∃ n0 : nat,
    ss_from_head_id st = N.max (sr_from_head_id r) 1 ∧
    (tip L0 (sm_head_id <$> on_log (take (ss_live_from st) ch)) ≤ N.of_nat n0)%N ∧
    (N.of_nat n0 ≤ log_head (log_of a k))%N ∧
    sm_head_id <$> ss_replay st =
      nseq (N.to_nat (ss_from_head_id st))
        (Nat.min (page_limit (replay_limit r)) (n0 + 1 - N.to_nat (ss_from_head_id st)))).

(** The stages of a [subscribe] handler. *)
Definition subscribe_await (r : SubscribeRequest) (t : Topic) (o : NodeId) (n : nat)
    (c : Result (list StoredMessage) → Prog Status Response) : Prop :=
  ∀ x, c x = match x with
             | Ok l => Done (Ok (RespSubscribe (mkSubscribeStart t o (N.max (sr_from_head_id r) 1) l n)))
             | Err y => Done (Err (status_from_error y))
             end.

Definition subscribe_query (r : SubscribeRequest) (t : Topic) (o : NodeId) : FetchQuery :=
  mkFetchQuery t o (N.max (sr_from_head_id r) 1) (replay_limit r).

Inductive subscribe_stage (a : AbsStore) ch (r : SubscribeRequest) : Prog Status Response → Prop :=
| SubFailed x : subscribe_stage a ch r (Done (Err x))
| SubListen t o c : (∀ n, subscribe_await r t o n (c n)) →
    subscribe_stage a ch r (Listen (λ n, Await (OpFetch (subscribe_query r t o)) (c n)))
| SubFetch t o n c : (n ≤ length ch)%nat → subscribe_await r t o n c →
    subscribe_stage a ch r (Await (OpFetch (subscribe_query r t o)) c)
| SubDone st : well_started a ch r st → subscribe_stage a ch r (Done (Ok (RespSubscribe st))).

Lemma subscribe_stage_start a ch r : subscribe_stage a ch r (request_prog node (RSubscribe r)).
Proof.
  unfold request_prog, subscribe_prog, fmap_p, p_core, p_store, mbind, Prog_bind.
  destruct (Topic_new (sr_topic r)) as [t|x]; [|constructor]. cbn.
  destruct (request_origin node (sr_origin r)) as [o|x]; [|constructor]. cbn.
  apply SubListen. by intros n [l|y].
Qed.

Lemma well_started_mono a a' ch ch' r st :
  kept a a' → ch `prefix_of` ch' → well_started a ch r st → well_started a' ch' r st.
Proof.
  intros [Hk _] [tl ->] [Hl Hst]. split; [rewrite length_app; lia|]. intros Hkey.
  destruct (Hst Hkey) as (n0 & Hf & Ht & Hn & Hr). exists n0.
  split; [done|]. rewrite take_app_le by done.
  split; [done|]. split; [|done]. specialize (Hk k). lia.
Qed.

Lemma subscribe_stage_mono a a' ch ch' r p :
  kept a a' → ch `prefix_of` ch' → subscribe_stage a ch r p → subscribe_stage a' ch' r p.
Proof.
  intros Hk Hch [x|t o c Hc|t o n c Hn Hc|st Hst]; [constructor|by constructor| |].
  - apply (SubFetch _ _ _ t o n); [|done]. apply prefix_length in Hch. lia.
  - constructor. by eapply well_started_mono.
Qed.

(** The turn of a [subscribe] handler: only the store's handle may change. *)
Lemma subscribe_step a s flight r p e t :
  rep a (store s) → request_typed (RSubscribe r) → in_order a (published s) flight →
  subscribe_stage a (published s) r p → 
  let '(p', t', s') := step p e t s in
  rep a (store s') ∧ published s' = published s ∧ pending k p' = [] ∧
  subscribe_stage a (published s) r p'.
Proof.
  intros Hrep [Hf Hl] Hord [x|tp o c Hc|tp o n c Hn Hc|st Hst]; cbn [step].
  - split; [done|]. split; [done|]. split; [done|constructor].
  - split; [done|]. split; [done|]. split; [done|]. by apply (SubFetch _ _ _ tp o (length (published s))).
  - assert (op_typed (OpFetch (subscribe_query r tp o))) as Hty.
    { split; [by apply max_1_u64|]. simpl. unfold replay_limit. by case_match. }
    pose proof (store_outcome _ e t a (store s) Hty Hrep) as Hout.
    destruct (run_op _ e t (store s)) as [[x t'] db']. destruct Hout as (a' & Hout & Hrep').
    rewrite Hc. destruct x as [l|y]; cbn in Hout.
    2: { destruct Hout as [-> _]. split; [done|]. split; [done|]. split; [done|constructor]. }
    destruct Hout as [[= ->] ->]. split; [done|]. split; [done|]. split; [done|]. constructor.
    split; [done|]. cbn [ss_topic ss_origin]. intros Hkey. exists (length (log_of a k)). split; [done|].
    destruct Hord as [_ Ht]. split; [|split; [done|]].
    + change (N.of_nat (length (log_of a k))) with (log_head (log_of a k)). rewrite <- Ht.
      rewrite <- (take_drop n (published s)) at 2. unfold on_log.
      rewrite filter_app, !fmap_app, <- app_assoc, tip_app. cbn [ss_live_from]. apply tip_ge.
    + cbn [ss_replay ss_from_head_id]. rewrite fetch_numbers; [|by eapply rep_wf|simpl; lia].
      cbn [fq_from_head_id fq_limit fq_topic fq_origin subscribe_query]. by rewrite Hkey.
  - split; [done|]. split; [done|]. split; [done|by constructor].
Qed.

(** ** Worlds *)

Definition thread_ok (a : AbsStore) ch (th : Thread) : Prop :=
  match th with
  | Handling (RSubscribe r) p => request_typed (RSubscribe r) ∧ subscribe_stage a ch r p
  | Handling _ p => calls_typed p ∧ tame k p
  | Pulling p => calls_typed p ∧ tame k p
  | Streaming r st task =>
      well_started a ch r st ∧ (live task ≤ length ch)%nat ∧
      (running task = true → progress st ch task)
  end.

Definition delivering w : Prop :=
  ∃ a, rep a (store (w_service w)) ∧
    in_order a (published (w_service w)) (in_flight k (w_threads w)) ∧
    Forall (thread_ok a (published (w_service w))) (w_threads w).

Lemma progress_prefix st ch ch' t :
  (live t ≤ length ch)%nat → ch `prefix_of` ch' → progress st ch t → progress st ch' t.
Proof.
  intros Hl [tl ->] [Ht Ho Hle (dn & Hdn & Hlive & Hsent)]. split; [done..|]. exists dn.
  split; [done|]. split; [done|].
  rewrite drop_app_le by lia. rewrite take_app_le; [done|]. rewrite length_drop. lia.
Qed.

Lemma thread_ok_mono a a' ch ch' th :
  kept a a' → ch `prefix_of` ch' → thread_ok a ch th → thread_ok a' ch' th.
Proof.
  intros Hk Hch. destruct th as [[] p|p|r st t]; try done; simpl.
  - intros [? ?]. split; [done|]. by eapply subscribe_stage_mono.
  - intros (Hst & Hl & Hp). split; [by eapply well_started_mono|].
    split; [apply prefix_length in Hch; lia|]. intros Hr. eapply progress_prefix; [done|done|auto].
Qed.

Lemma in_flight_split ths i th th' :
  ths !! i = Some th →
  in_flight k ths = in_flight k (take i ths) ++ thread_pending k th ++ in_flight k (drop (S i) ths) ∧
  in_flight k (<[i := th']> ths) =
    in_flight k (take i ths) ++ thread_pending k th' ++ in_flight k (drop (S i) ths).
Proof.
  intros Hi. unfold in_flight. split.
  - rewrite <- (take_drop_middle ths i th Hi) at 1. by rewrite bind_app.
  - rewrite insert_take_drop by (by eapply lookup_lt_Some). by rewrite bind_app.
Qed.

Lemma in_flight_hang_up ths i : in_flight k (alter hang_up i ths) = in_flight k ths.
Proof.
  unfold in_flight. revert i. induction ths as [|th ths IH]; intros [|i]; cbn; [done|done|by destruct th|].
  f_equal. apply IH.
Qed.

(** Thread [i] makes a step to [th'] and the service to [s']. *)
Lemma delivering_update w t' s' i th th' a a' :
  w_threads w !! i = Some th → kept a a' →
  published (w_service w) `prefix_of` published s' → rep a' (store s') →
  Forall (thread_ok a (published (w_service w))) (w_threads w) →
  in_order a' (published s') (in_flight k (<[i := th']> (w_threads w))) →
  thread_ok a' (published s') th' →
  delivering (mkWorld t' s' (<[i := th']> (w_threads w))).
Proof.
  intros Hi Hk Hch Hrep Hths Hord Hth. exists a'. split; [done|]. split; [done|].
  apply Forall_insert; [|done]. eapply Forall_impl; [exact Hths|]. intros x. by apply thread_ok_mono.
Qed.

(** The turn of a handler or of the pull loop that is not a subscription. *)
Lemma delivering_prog w i th {E A} (wrap : Prog E A → Thread) (p : Prog E A) e a :
  w_threads w !! i = Some th → th = wrap p →
  (∀ q, thread_pending k (wrap q) = pending k q) →
  (∀ a ch q, calls_typed q → tame k q → thread_ok a ch (wrap q)) →
  calls_typed p → tame k p → calm k w → rep a (store (w_service w)) →
  in_order a (published (w_service w)) (in_flight k (w_threads w)) →
  Forall (thread_ok a (published (w_service w))) (w_threads w) →
  let '(p', t', s') := step p e (w_time w) (w_service w) in
  let w' := mkWorld t' s' (<[i := wrap p']> (w_threads w)) in
  calm k w' → delivering w'.
Proof.
  intros Hi -> Hpend Hok Hty Htame Hcalm Hrep Hord Hths.
  destruct (in_flight_split _ _ _ (wrap p) Hi) as [Hsplit _]. rewrite Hpend in Hsplit.
  rewrite Hsplit in Hord. unfold calm in Hcalm. rewrite Hsplit in Hcalm.
  pose proof (step_in_order p e (w_time w) a (w_service w) _ _ Hrep Hty Htame Hord) as Hstep.
  pose proof (step_prefix p e (w_time w) (w_service w)) as Hch.
  destruct (step p e (w_time w) (w_service w)) as [[p' t'] s']. cbn in Hch.
  destruct (in_flight_split _ _ _ (wrap p') Hi) as [_ Hsplit']. rewrite Hpend in Hsplit'.
  intros w' Hcalm'. unfold calm, w' in Hcalm'. cbn [w_threads] in Hcalm'. rewrite Hsplit' in Hcalm'.
  destruct (Hstep Hcalm' Hcalm) as (Hty' & Htame' & a' & Hrep' & Hkept & Hord').
  eapply (delivering_update w t' s' i _ _ a a'); eauto. by rewrite Hsplit'.
Qed.

(** The turn of a [subscribe] handler. *)
Lemma delivering_subscribe w e i r p a :
  w_threads w !! i = Some (Handling (RSubscribe r) p) → rep a (store (w_service w)) →
  in_order a (published (w_service w)) (in_flight k (w_threads w)) →
  Forall (thread_ok a (published (w_service w))) (w_threads w) →
  let '(th', t', s') := resume lag_text (Handling (RSubscribe r) p) e (w_time w) (w_service w) in
  delivering (mkWorld t' s' (<[i := th']> (w_threads w))).
Proof.
  intros Hi Hrep Hord Hths. destruct (Forall_lookup_1 _ _ _ _ Hths Hi) as [Hty Hstage].
  assert (thread_pending k (Handling (RSubscribe r) p) = []) as Hnone by (by destruct Hstage).
  cbn [resume]. destruct (spawned (RSubscribe r) p) as [[r' st]|] eqn:Hsp.
  - apply spawned_some in Hsp as [[= <-] ->].
    destruct (in_flight_split _ _ _ (Streaming r st (task_start st)) Hi) as [Hf Hf'].
    rewrite Hnone in Hf. cbn [thread_pending] in Hf'. inversion Hstage as [| | |st' Hst]; subst.
    apply (delivering_update w _ _ i _ _ a a Hi); [done..|by rewrite Hf', <- Hf|].
    split; [done|]. split; [apply Hst|]. intros _. apply start_progress.
  - pose proof (subscribe_step a (w_service w) _ r p e (w_time w) Hrep Hty Hord Hstage) as Hstep.
    destruct (step p e (w_time w) (w_service w)) as [[p' t'] s'].
    destruct Hstep as (Hrep' & Hpub & Hpend & Hstage').
    destruct (in_flight_split _ _ _ (Handling (RSubscribe r) p') Hi) as [Hf Hf'].
    rewrite Hnone in Hf. cbn [thread_pending] in Hf'. rewrite Hpend in Hf'.
    apply (delivering_update w _ _ i _ _ a a Hi); rewrite ?Hpub; [done..|by rewrite Hf', <- Hf|done].
Qed.

Lemma delivering_turn w e i :
  delivering w → calm k w → let w' := world_step status_text lag_text node w (Turn e i) in
  calm k w' → delivering w'.
Proof.
  intros (a & Hrep & Hord & Hths) Hcalm. cbn [world_step].
  destruct (w_threads w !! i) as [th|] eqn:Hi; [|by exists a].
  pose proof (Forall_lookup_1 _ _ _ _ Hths Hi) as Hth. destruct th as [r p|p|r st t].
  - assert (match r with RSubscribe _ => False | _ => True end → calls_typed p ∧ tame k p →
      spawned r p = None → (∀ a ch q, calls_typed q → tame k q → thread_ok a ch (Handling r q)) →
      let w' := let '(p', t', s') := step p e (w_time w) (w_service w) in
                mkWorld t' s' (<[i := Handling r p']> (w_threads w)) in
      calm k w' → delivering w') as Hother.
    { intros _ [Hty Htame] _ Hok.
      pose proof (delivering_prog w i _ (Handling r) p e a Hi eq_refl (λ _, eq_refl) Hok Hty Htame
        Hcalm Hrep Hord Hths) as H.
      by destruct (step p e (w_time w) (w_service w)) as [[p' t'] s']. }
    destruct r; try (specialize (Hother I Hth eq_refl ltac:(done)); cbn [resume spawned];
      by destruct (step p e (w_time w) (w_service w)) as [[p' t'] s']).
    intros _. pose proof (delivering_subscribe w e i r p a Hi Hrep Hord Hths) as H.
    by destruct (resume lag_text (Handling (RSubscribe r) p) e (w_time w) (w_service w)) as [[th' t'] s'].
  - destruct Hth as [Hty Htame].
    pose proof (delivering_prog w i _ Pulling p e a Hi eq_refl (λ _, eq_refl) ltac:(done) Hty Htame
      Hcalm Hrep Hord Hths) as H.
    cbn [resume]. by destruct (step p e (w_time w) (w_service w)) as [[p' t'] s'].
  - intros _. destruct Hth as (Hst & Hl & Hp). cbn [resume]. set (task' := task_step lag_text (published (w_service w)) t).
    destruct (in_flight_split _ _ _ (Streaming r st task') Hi) as [Hf Hf'].
    change (thread_pending k (Streaming r st t)) with (thread_pending k (Streaming r st task')) in Hf.
    apply (delivering_update w _ _ i _ _ a a Hi); [done..|by rewrite Hf', <- Hf|].
    split; [done|]. split; [by apply task_step_live|]. intros Hr.
    destruct (running t) eqn:Hrun.
    + apply task_step_progress; [by apply Hp | exact Hr].
    + unfold task' in Hr. rewrite task_step_stopped in Hr by done. congruence.
Qed.

Lemma delivering_spawn w th :
  delivering w → thread_pending k th = [] →
  (∀ a, thread_ok a (published (w_service w)) th) →
  delivering (mkWorld (w_time w) (w_service w) (w_threads w ++ [th])).
Proof.
  intros (a & Hrep & Hord & Hths) Hp Hok. exists a. split; [done|]. cbn.
  unfold in_flight in *. rewrite bind_app. cbn. rewrite Hp, !app_nil_r. split; [done|].
  apply Forall_app. by repeat constructor.
Qed.

Context (Happ : k.1 ≠ DELETE_TOPIC).

Lemma delivering_step w ev :
  delivering w → event_typed ev → calm k w →
  calm k (world_step status_text lag_text node w ev) →
  delivering (world_step status_text lag_text node w ev).
Proof.
  intros Hd Hty Hcalm Hcalm'. destruct ev as [r|peer head item acc|e i|i].
  - destruct (request_tame k node r) as [Hp Ht]. apply delivering_spawn; [done|done|].
    intros a. pose proof (one_call_typed _ (request_one_call node r Hty)) as Hc.
    destruct r; try (by split). split; [done|]. apply subscribe_stage_start.
  - destruct (item_tame k status_text peer head item acc Happ) as [Hp Ht].
    apply delivering_spawn; [done|done|]. intros a. split; [|done].
    eapply pull_ok_typed. by apply item_pull_ok.
  - by apply delivering_turn.
  - destruct Hd as (a & Hrep & Hord & Hths). exists a. split; [done|].
    cbn [world_step w_service w_threads]. split.
    + by rewrite in_flight_hang_up.
    + apply Forall_alter; [done|]. intros th Hi Hok.
      destruct th as [| |r st t]; try done. destruct Hok as (? & ? & ?). by split.
Qed.

(** [P] holds at every moment of a run. *)
Fixpoint always (P : World DB → Prop) w (evs : list WorldEvent) : Prop :=
  P w ∧ match evs with
        | [] => True
        | ev :: evs' => always P (world_step status_text lag_text node w ev) evs'
        end.

Lemma always_now P w evs : always P w evs → P w.
Proof. destruct evs; by intros [? _]. Qed.

Lemma delivering_run w evs :
  delivering w → Forall event_typed evs → always (calm k) w evs →
  delivering (world_run status_text lag_text node w evs).
Proof.
  intros Hd Hty. revert w Hd. induction Hty as [|ev evs Hev _ IH]; intros w Hd; [done|].
  intros [Hcalm Hrest]. apply IH; [|done]. apply delivering_step; [done|done|done|].
  by eapply always_now.
Qed.

Lemma delivering_new t a db :
  rep a db → L0 = log_head (log_of a k) → delivering (world_new t db).
Proof. intros Hrep ->. exists a. split; [done|]. split; [|constructor]. done. Qed.

Lemma matching_on_log st l :
  key_of (ss_topic st) (ss_origin st) = k →
  Forall (λ m, msg_key m = k → sm_origin m = ss_origin st) l →
  filter (st_match st) l = on_log l.
Proof.
  intros Hkey Hl. unfold on_log. induction Hl as [|m l Hm _ IH]; [done|]. rewrite !filter_cons, IH.
  assert (st_match st m ↔ msg_key m = k) as Hiff.
  { unfold st_match, matching. rewrite andb_true_iff, !bool_decide_eq_true. split.
    - intros [Ht Ho]. by rewrite <- Hkey, <- Ht, <- Ho.
    - intros Hk. split; [|by apply Hm]. rewrite <- Hkey in Hk. injection Hk as Ht _.
      destruct (sm_topic m), (ss_topic st). simpl in Ht. by subst. }
  by rewrite (decide_ext _ _ _ _ Hiff).
Qed.

(** A subscriber that has read the whole channel has received every entry. *)
Lemma delivered w i r st task a :
  rep a (store (w_service w)) → in_order a (published (w_service w)) [] →
  thread_ok a (published (w_service w)) (Streaming r st task) →
  w_threads w !! i = Some (Streaming r st task) →
  key_of (ss_topic st) (ss_origin st) = k →
  Forall (λ m, msg_key m = k → sm_origin m = ss_origin st) (published (w_service w)) →
  (length (ss_replay st) < page_limit (replay_limit r))%nat →
  running task = true → replay task = [] → live task = length (published (w_service w)) →
  let from := N.to_nat (N.max (sr_from_head_id r) 1) in
  me_head_id <$> ok_sent (sent task) = nseq from (length (log_of a k) + 1 - from).
Proof.
  intros Hrep [Hchain Htip] ([Hlf Hst] & Hl & Hp) Hi Hkey Horig Hcut Hrun Hdone Hall from.
  destruct (Hst Hkey) as (n0 & Hfrom & Ht0 & Hn0 & Hreplay). destruct (Hp Hrun) as [_ _ Hle (dn & Hdn & _ & Hsent & _)].
  rewrite Hdone, app_nil_r in Hdn. subst dn.
  rewrite Hsent, ok_sent_responses, fmap_app, take_ge by (rewrite length_drop; lia).
  rewrite (matching_on_log st) by (done || by apply Forall_drop).
  assert (1 ≤ from)%nat as H1 by (unfold from; lia).
  rewrite Hfrom in *. fold from in Hreplay.
  assert (length (ss_replay st) = Nat.min (page_limit (replay_limit r)) (n0 + 1 - from)) as Hlen.
  { rewrite <- (length_fmap sm_head_id), Hreplay. unfold nseq. by rewrite length_fmap, length_seq. }
  rewrite Nat.min_r in Hreplay by lia.
  unfold u64_saturating_sub. replace (N.max (sr_from_head_id r) 1 - 1)%N with (N.of_nat (from - 1)) by (unfold from; lia).
  rewrite (heads_max_nseq _ from _ Hreplay H1), Hreplay.
  rewrite app_nil_r in Hchain, Htip. rewrite <- (take_drop (ss_live_from st) (published (w_service w))) in Hchain, Htip.
  unfold on_log in *. rewrite filter_app, fmap_app in Hchain, Htip.
  apply chain_app in Hchain as [_ Hchain]. rewrite tip_app in Htip.
  rewrite (fresh_chain _ _ _ Hchain) by lia. rewrite Htip.
  unfold log_head in *. rewrite Nat2N.id.
  destruct (decide (from ≤ n0 + 1)%nat) as [Hf|Hf].
  - replace (length (log_of a k) + 1 - from)%nat
      with ((n0 + 1 - from) + (length (log_of a k) - n0))%nat by lia.
    rewrite <- nseq_app. f_equal. f_equal; lia.
  - replace (n0 + 1 - from)%nat with 0%nat by lia. simpl. f_equal; lia.
Qed.
End delivery.
