(* ===== verification/ConcurrentClaims.v ===== *)
(** * ConcurrentClaims: the properties of the concurrent service

    Any number of requests, peer messages and subscribers, interleaved in any
    way, over any store that meets the contract. *)

From Stdlib Require Import Ascii String NArith ZArith Lia Sorting.Sorted.
From stdpp Require Import base strings list gmap.
From S2P Require Import Prelude Strings Core Table RedbKeys Json Concrete Spec History RedbStore RedbRep RedbRefine Redb Proto Server ServerProps Replay ServerClaims Sync SyncProps Converge SyncClaims Subscribe SubscribeClaims Programs Concurrent Delivery.

(** C3: the service is linearisable.  However the handlers of any requests, the
    messages of peers and the subscribers' tasks interleave, there is a sequence
    of whole requests and store calls of the pull loop, explained one after
    another by the store's specification, that leads to the state the store
    represents; every answered request is in it exactly once with the answer it
    gave, a request is in it from its store call on, and what it announces is on
    the channel or about to be sent.  As the run goes on the sequence is only
    extended, so it respects the order of requests that do not overlap. *)
Theorem service_linearisable {DB} `{SR : StoreRefinement DB} status_text lag_text node t a (db : DB)
    evs evs' :
  rep a db → Forall event_typed (evs ++ evs') →
  let w := world_run status_text lag_text node (world_new t db) evs in
  ∃ l l', linearised node a l w ∧
    linearised node a (l ++ l') (world_run status_text lag_text node w evs').
Proof.
  intros Hrep [Hty Hty']%Forall_app w.
  destruct (linearised_run status_text lag_text node a [] (world_new t db) evs) as [l Hl];
    [by apply linearised_new | done|].
  destruct (linearised_run status_text lag_text node a l w evs') as [l' Hl']; [done|done|]. by exists l, l'.
Qed.

(** Two publications and a subscriber. *)
Definition turns (l : list nat) : list WorldEvent := Turn env0 <$> l.

Definition requests2 : list WorldEvent :=
  [Arrive (RSubscribe subscribe0); Arrive (RPublish publish0); Arrive (RPublish publish0)].

(** One after the other, and overlapping with the sends swapped. *)
Definition in_turn : list WorldEvent := requests2 ++ turns [0; 1; 1; 0; 1; 2; 2; 2; 0; 0; 0; 0; 1; 2].
Definition swapped : list WorldEvent := requests2 ++ turns [0; 0; 0; 1; 1; 2; 2; 2; 1; 0; 0; 0; 0].

Lemma in_turn_typed : Forall event_typed in_turn.
Proof. repeat (constructor; [by vm_compute|]). constructor. Qed.

Lemma swapped_typed : Forall event_typed swapped.
Proof. repeat (constructor; [by vm_compute|]). constructor. Qed.

Lemma service_linearisable_witness :
  ∃ l l', linearised (SR := redb_refinement) node_a abs_empty l
      (world_run status_text0 lag0 node_a (world_new 0 empty_db) in_turn) ∧
    linearised (SR := redb_refinement) node_a abs_empty (l ++ l')
      (world_run status_text0 lag0 node_a
         (world_run status_text0 lag0 node_a (world_new 0 empty_db) in_turn) swapped).
Proof.
  apply (service_linearisable (SR := redb_refinement) status_text0 lag0 node_a 0 abs_empty empty_db
    in_turn swapped); [apply empty_rep|]. apply Forall_app_2; [apply in_turn_typed|apply swapped_typed].
Defined.

(** ** Acknowledged publications *)

Definition acknowledged {DB} (w : World DB) (i : nat) (r : PublishRequest) (v : MessageEnvelope) : Prop :=
  w_threads w !! i = Some (Handling (RPublish r) (Done (Ok (RespPublish (mkMessageResponse (Some v)))))).

Lemma acknowledged_entry {DB} `{SR : StoreRefinement DB} node a l a' (w : World DB) i r v :
  wf a → linearised node a l w → history node a l a' → acknowledged w i r v →
  ∃ m, v = proto_message m ∧ published_as node r m (Ok (RespPublish (mkMessageResponse (Some v)))) ∧
    Exists (publish_entry i m) l ∧ m ∈ published (w_service w).
Proof.
  intros Hwf Hln Hist Hack. destruct (ln_threads _ _ _ _ Hln _ _ Hack) as (e & out & Hin & Hout & _).
  destruct (history_entry node a l a' _ Hist Hin) as (a1 & a2 & _ & Hs).
  apply publish_run in Hs as [(Hok & _)|(m & Hm & -> & _ & _)]; [done|].
  exists m. destruct Hm as [[= ->] Hm]. split; [done|]. split; [by split|]. split.
  - apply Exists_exists. eexists. split; [exact Hin|]. by split.
  - destruct (Hout m) as [?|?%elem_of_nil]; [set_solver|done|done].
Qed.

(** C9: an acknowledged publication is durable, announced and has its number to
    itself.  After any interleaving the store holds everything it held before,
    every message on the channel is in its log (a later deletion may have marked
    it), and, short of a log with [u64::MAX] entries, the answer to a [publish]
    names the entry of the local log of its topic that carries the request's
    payload and headers; the message is on the channel; and no two publications
    that were acknowledged name the same entry. *)
Theorem concurrent_publish {DB} `{SR : StoreRefinement DB} status_text lag_text node t a (db : DB) evs :
  rep a db → Forall event_typed evs →
  let w := world_run status_text lag_text node (world_new t db) evs in
  ∃ a', rep a' (store (w_service w)) ∧ kept a a' ∧
    (has_room a' →
       Forall (logged a') (published (w_service w)) ∧
       (∀ i r v, acknowledged w i r v → ∃ m, v = proto_message m ∧ logged a' m ∧
          msg_key m = (pr_topic r, NodeId.key node) ∧ sm_payload m = pr_payload r ∧
          sm_headers m = pr_headers r ∧ m ∈ published (w_service w)) ∧
       (∀ i j r r' v v', i ≠ j → acknowledged w i r v → acknowledged w j r' v' →
          (me_topic v, me_head_id v) ≠ (me_topic v', me_head_id v'))).
Proof.
  intros Hrep Hty w. pose proof (rep_wf _ _ Hrep) as Hwf.
  destruct (linearised_run status_text lag_text node a [] (world_new t db) evs) as [l Hln];
    [by apply linearised_new | done|]. fold w in Hln. cbn [app] in Hln.
  pose proof (ln_state _ _ _ _ Hln) as (a' & Hist & Hrep'). exists a'. split; [done|].
  destruct (history_kept node a l a' Hwf Hist) as [Hkept Hwf']. split; [done|]. intros Hroom.
  split; [|split].
  - eapply Forall_impl; [exact (ln_channel _ _ _ _ Hln)|]. intros m. by apply (history_logged node a l a').
  - intros i r v Hack. destruct (acknowledged_entry node a l a' w i r v Hwf Hln Hist Hack)
      as (m & -> & (_ & Hk & _ & Hp & Hh) & Hex & Hpub). exists m. split; [done|]. split; [|done].
    apply (history_logged node a l a'); [done..|]. eapply Exists_impl; [exact Hex|]. intros x. apply publish_entry_announces.
  - intros i j r r' v v' Hne Hi Hj.
    destruct (acknowledged_entry node a l a' w i r v Hwf Hln Hist Hi) as (m & -> & (_ & Hk & _) & Hex & _).
    destruct (acknowledged_entry node a l a' w j r' v' Hwf Hln Hist Hj) as (m' & -> & (_ & Hk' & _) & Hex' & _).
    pose proof (history_unique node a l a' i j m m' Hwf Hist Hroom (ln_once _ _ _ _ Hln) Hex Hex' Hne) as Hu.
    intros [Ht Hn]%pair_eq. apply Hu. cbn in Ht, Hn. f_equal; [|done].
    rewrite Hk, Hk'. f_equal. unfold msg_key, key_of in Hk, Hk'. injection Hk as <- _. by injection Hk' as <- _.
Qed.

Lemma concurrent_publish_witness :
  let w := world_run status_text0 lag0 node_a (world_new 0 empty_db) swapped in
  ∃ a', rep (StoreRefinement := redb_refinement) a' (store (w_service w)) ∧ kept abs_empty a' ∧
    (has_room a' →
       Forall (logged a') (published (w_service w)) ∧
       (∀ i r v, acknowledged w i r v → ∃ m, v = proto_message m ∧ logged a' m ∧
          msg_key m = (pr_topic r, NodeId.key node_a) ∧ sm_payload m = pr_payload r ∧
          sm_headers m = pr_headers r ∧ m ∈ published (w_service w)) ∧
       (∀ i j r r' v v', i ≠ j → acknowledged w i r v → acknowledged w j r' v' →
          (me_topic v, me_head_id v) ≠ (me_topic v', me_head_id v'))).
Proof.
  apply (concurrent_publish (SR := redb_refinement) status_text0 lag0 node_a 0 abs_empty empty_db swapped);
    [apply empty_rep | apply swapped_typed].
Defined.

(** ** Subscribers *)

(** C6: a subscriber that keeps up misses nothing.  Let [k] be the log of an
    application topic, and suppose that at every moment of the run at most one
    message of it is stored and not yet sent (its publications do not overlap)
    and that its messages carry the subscriber's origin.  Whatever else runs, and
    whenever the subscription started, also between the steps of a publication:
    when nothing of the log is in flight, a task whose replay page was not full,
    that still runs and has read the whole channel has sent exactly the numbers
    from the requested one to the head of the log, each once and in order. *)
Theorem concurrent_gap_free {DB} `{SR : StoreRefinement DB} status_text lag_text node t a (db : DB)
    evs i r st task :
  let w := world_run status_text lag_text node (world_new t db) evs in
  let k := key_of (ss_topic st) (ss_origin st) in
  let from := N.to_nat (N.max (sr_from_head_id r) 1) in
  rep a db → Forall event_typed evs → k.1 ≠ DELETE_TOPIC →
  always status_text lag_text node (calm k) (world_new t db) evs →
  w_threads w !! i = Some (Streaming r st task) → in_flight k (w_threads w) = [] →
  Forall (λ m, msg_key m = k → sm_origin m = ss_origin st) (published (w_service w)) →
  (length (ss_replay st) < page_limit (replay_limit r))%nat →
  running task = true → replay task = [] → live task = length (published (w_service w)) →
  ∃ a', rep a' (store (w_service w)) ∧
    me_head_id <$> ok_sent (sent task) = nseq from (length (log_of a' k) + 1 - from).
Proof.
  intros w k from Hrep Hty Happ Hcalm Hi Hfl Horig Hcut Hrun Hdone Hall.
  destruct (delivering_run status_text lag_text node k (log_head (log_of a k)) Happ (world_new t db) evs)
    as (a' & Hrep' & Hord & Hths); [by eapply delivering_new|done|done|]. fold w in Hrep', Hord, Hths.
  exists a'. split; [done|]. rewrite Hfl in Hord.
  apply (delivered k _ Happ w i r st task a' Hrep' Hord); try done. by apply (Forall_lookup_1 _ _ i _ Hths).
Qed.

(** The subscriber of the run above, as it is at the end. *)
Definition view_of {DB} (w : World DB) (i : nat) : option (SubscribeRequest * SubscribeStart * Task) :=
  match w_threads w !! i with
  | Some (Streaming r st task) => Some (r, st, task)
  | _ => None
  end.

Lemma view_of_lookup {DB} (w : World DB) i r st task :
  view_of w i = Some (r, st, task) → w_threads w !! i = Some (Streaming r st task).
Proof. unfold view_of. intros H. repeat case_match; by simplify_eq. Qed.

Definition start_in_turn : SubscribeStart :=
  Eval vm_compute in
    match view_of (world_run status_text0 lag0 node_a (world_new 0 empty_db) in_turn) 0 with
    | Some (_, st, _) => st
    | None => start0
    end.

Definition task_in_turn : Task :=
  Eval vm_compute in
    match view_of (world_run status_text0 lag0 node_a (world_new 0 empty_db) in_turn) 0 with
    | Some (_, _, task) => task
    | None => task_start start0
    end.

Lemma view_in_turn :
  view_of (world_run status_text0 lag0 node_a (world_new 0 empty_db) in_turn) 0
    = Some (subscribe0, start_in_turn, task_in_turn).
Proof. vm_compute. reflexivity. Qed.

Lemma channel_in_turn :
  sm_origin <$> published (w_service (world_run status_text0 lag0 node_a (world_new 0 empty_db) in_turn))
    = [node_a; node_a].
Proof. vm_compute. reflexivity. Qed.

Lemma in_turn_calm :
  always status_text0 lag0 node_a (calm (key_of topic_events node_a)) (world_new 0 empty_db) in_turn.
Proof. unfold in_turn, requests2, turns. cbn [app fmap list_fmap]. 
  repeat (split; [apply Nat.leb_le; vm_compute; reflexivity|]). exact I. Qed.

Lemma concurrent_gap_free_witness :
  let w := world_run status_text0 lag0 node_a (world_new 0 empty_db) in_turn in
  ∃ a', rep (StoreRefinement := redb_refinement) a' (store (w_service w)) ∧
    me_head_id <$> ok_sent (sent task_in_turn) =
      nseq 1 (length (log_of a' (key_of topic_events node_a)) + 1 - 1).
Proof.
  apply (concurrent_gap_free (SR := redb_refinement) status_text0 lag0 node_a 0 abs_empty empty_db
    in_turn 0 subscribe0 start_in_turn task_in_turn);
    [apply empty_rep | apply in_turn_typed | done | apply in_turn_calm
    | apply view_of_lookup, view_in_turn | vm_compute; reflexivity | | by apply Nat.ltb_lt
    | reflexivity | reflexivity | vm_compute; reflexivity].
  apply Forall_forall. intros m Hm _. apply (list_elem_of_fmap_2 sm_origin) in Hm.
  rewrite channel_in_turn in Hm. set_solver.
Defined.

(** ** Publications that overtake each other *)

Section race.
Context {DB : Type} {ST : MsgbusStore DB} {JT : Json TombstoneRange} {SR : StoreRefinement DB}.
Context (status_text : Status → string) (lag_text : nat → string) (node : NodeId) (Hnode : NodeId_valid node).

Implicit Types (a : AbsStore) (w : World DB).

Definition new_message (r : PublishRequest) (u : string) : NewMessage :=
  mkNewMessage (mkMessageId u) (mkTopic (pr_topic r)) node (pr_payload r) (pr_headers r).

Lemma publish_accepted r :
  publishable node r → ∃ k, request_prog node (RPublish r) = Fresh (λ u, Await (OpAppend (new_message r u)) k) ∧
    ∀ m, k (Ok m) = Emit m (Done (Ok (RespPublish (mkMessageResponse (Some (proto_message m)))))).
Proof.
  intros (Hv & Hd & Ho). cbn [request_prog]. unfold publish_prog, p_core, ensure_application_topic.
  rewrite (proj2 (Topic_new_ok _ (mkTopic (pr_topic r))) (conj Hv eq_refl)). cbn.
  rewrite bool_decide_false by done. cbn. rewrite (proj2 (owned_origin_iff _ _ Hnode) Ho). cbn.
  eexists. split; [reflexivity|]. done.
Qed.

Lemma subscribe_accepted r :
  valid_part (sr_topic r) → own_origin node (sr_origin r) →
  ∃ k, request_prog node (RSubscribe r) = Listen (λ n, Await (OpFetch (mkFetchQuery (mkTopic (sr_topic r)) node
         (N.max (sr_from_head_id r) 1) (replay_limit r))) (k n)) ∧
    ∀ n l, k n (Ok l) = Done (Ok (RespSubscribe (mkSubscribeStart (mkTopic (sr_topic r)) node
      (N.max (sr_from_head_id r) 1) l n))).
Proof.
  intros Hv Ho. cbn [request_prog]. unfold subscribe_prog, p_core.
  rewrite (proj2 (Topic_new_ok _ (mkTopic (sr_topic r))) (conj Hv eq_refl)). cbn.
  apply (owned_origin_iff _ _ Hnode) in Ho. unfold owned_origin in Ho.
  apply result_bind_ok in Ho as (o & -> & Ho). assert (o = node) as -> by (by case_bool_decide).
  cbn. eexists. split; [reflexivity|]. done.
Qed.

(** A store call that the specification never refuses, within the limits. *)
Lemma call_ok {A} (op : StoreOp A) e a db t :
  no_faults e → op_typed op → ¬ limited e A op a → (∀ x, ¬ spec_op e op a (Err x) a) → rep a db →
  ∃ x t' db' a', run_op op e t db = (Ok x, t', db') ∧ spec_op e op a (Ok x) a' ∧ rep a' db'.
Proof.
  intros Hnf Hty Hlim Herr Hrep. pose proof (store_refines A op e a db Hty Hrep t) as H.
  destruct (run_op op e t db) as [[[x|x] t'] db'].
  - destruct H as (a' & ? & ?). by exists x, t', db', a'.
  - destruct H as [_ [Hf|[Hl|Hs]]]; [by destruct (no_faults_has_fault e)|done|by destruct (Herr x)].
Qed.

(** The subscriber starts, both requests draw their identifiers and store their
    entries in turn, the second one sends first, and the subscriber reads. *)
Definition overtaken (e : Env) (sub : SubscribeRequest) (r1 r2 : PublishRequest) : list WorldEvent :=
  [Arrive (RSubscribe sub); Arrive (RPublish r1); Arrive (RPublish r2)] ++
  (Turn e <$> [0; 0; 0; 1; 2; 1; 2; 2; 1; 0; 0]).

(** One event of a run. *)
Lemma run_cons w ev evs :
  world_run status_text lag_text node w (ev :: evs) =
  world_run status_text lag_text node (world_step status_text lag_text node w ev) evs.
Proof. done. Qed.

Lemma run_turn w e i evs :
  world_run status_text lag_text node w (Turn e i :: evs) =
  world_run status_text lag_text node
    match w_threads w !! i with
    | Some th => let '(th', t', s') := resume lag_text th e (w_time w) (w_service w) in
                 mkWorld t' s' (<[i := th']> (w_threads w))
    | None => w
    end evs.
Proof. done. Qed.

(** The two entries the requests store, one after the other. *)
Lemma two_appends a r1 r2 u1 u2 now1 now2 :
  let k := key_of (mkTopic (pr_topic r1)) node in
  let p1 := append_spec now1 (new_message r1 u1) a in
  let p2 := append_spec now2 (new_message r2 u2) p1.2 in
  pr_topic r2 = pr_topic r1 → (log_head (log_of a k) + 2 ≤ u64_max)%N →
  log_of p2.2 k = log_of a k ++ [p1.1; p2.1] ∧
  sm_head_id p1.1 = (log_head (log_of a k) + 1)%N ∧ sm_head_id p2.1 = (log_head (log_of a k) + 2)%N ∧
  sm_topic p2.1 = mkTopic (pr_topic r1) ∧ sm_origin p2.1 = node.
Proof.
  intros k p1 p2 Ht Hmax.
  assert (log_of p1.2 k = log_of a k ++ [p1.1]) as Hl1.
  { unfold p1, append_spec. cbn [fst snd nm_topic nm_origin new_message]. fold k.
    rewrite log_of_set_log, decide_True, u64_saturating_succ, log_put_snoc by (done || lia). done. }
  assert (log_head (log_of p1.2 k) = log_head (log_of a k) + 1)%N as Hh1.
  { rewrite Hl1. unfold log_head. rewrite length_app. simpl. lia. }
  split; [|split; [|split; [|split]]].
  - unfold p2, append_spec. cbn [fst snd nm_topic nm_origin new_message]. rewrite Ht. fold k.
    rewrite log_of_set_log, decide_True, u64_saturating_succ, log_put_snoc by (done || lia).
    by rewrite Hl1, <- app_assoc.
  - unfold p1, append_spec. cbn [fst nm_topic nm_origin new_message]. fold k.
    rewrite mark_head, u64_saturating_succ by lia. done.
  - unfold p2, append_spec. cbn [fst nm_topic nm_origin new_message]. rewrite Ht. fold k.
    rewrite mark_head, u64_saturating_succ by lia. cbn [sm_head_id]. lia.
  - unfold p2, append_spec, mark. cbn [fst nm_topic nm_origin new_message]. rewrite Ht. by case_match.
  - unfold p2, append_spec, mark. cbn [fst nm_topic nm_origin new_message]. by case_match.
Qed.
(** Evaluate one turn of a world whose threads are given. *)
Ltac turn := cbn [resume spawned step lookup list_lookup insert list_insert w_time w_service w_threads
  store published service_new emit length app].

(** The schedule, step by step, from the results of its three store calls. *)
Lemma overtaken_run e sub r1 r2 t (db : DB) t1 db1 t2 db2 t3 db3 m1 m2 q st k0 k1 k2 :
  request_prog node (RSubscribe sub) = Listen (λ n, Await (OpFetch q) (k0 n)) →
  request_prog node (RPublish r1) = Fresh (λ u, Await (OpAppend (new_message r1 u)) k1) →
  request_prog node (RPublish r2) = Fresh (λ u, Await (OpAppend (new_message r2 u)) k2) →
  run_op (OpFetch q) e t db = (Ok [], t1, db1) →
  run_op (OpAppend (new_message r1 (uuid e t1))) e (S (S t1)) db1 = (Ok m1, t2, db2) →
  run_op (OpAppend (new_message r2 (uuid e (S t1)))) e t2 db2 = (Ok m2, t3, db3) →
  k0 0%nat (Ok []) = Done (Ok (RespSubscribe st)) →
  (∀ m, k1 (Ok m) = Emit m (Done (Ok (RespPublish (mkMessageResponse (Some (proto_message m))))))) →
  (∀ m, k2 (Ok m) = Emit m (Done (Ok (RespPublish (mkMessageResponse (Some (proto_message m))))))) →
  world_run status_text lag_text node (world_new t db) (overtaken e sub r1 r2) =
    mkWorld t3 (mkService db3 [m2; m1])
      [Streaming sub st (task_step lag_text [m2; m1] (task_step lag_text [m2; m1] (task_start st)));
       Handling (RPublish r1) (Done (Ok (RespPublish (mkMessageResponse (Some (proto_message m1))))));
       Handling (RPublish r2) (Done (Ok (RespPublish (mkMessageResponse (Some (proto_message m2))))))].
Proof.
  intros Hr0 Hr1 Hr2 Hc0 Hc1 Hc2 Hk0 Hk1 Hk2. unfold overtaken. cbn [app fmap list_fmap].
  do 3 (rewrite run_cons; cbn [world_step w_time w_service w_threads world_new app]). rewrite Hr0, Hr1, Hr2.
  do 2 (rewrite run_turn; turn). rewrite Hc0. turn. rewrite Hk0.
  do 4 (rewrite run_turn; turn). rewrite Hc1. turn. rewrite run_turn. turn. rewrite Hc2. turn. rewrite Hk2.
  rewrite run_turn. turn. rewrite Hk1. do 3 (rewrite run_turn; turn). reflexivity.
Qed.

(** The subscriber forwards the message that came first and drops the other. *)
Lemma overtaken_reader st m1 m2 :
  ss_replay st = [] → ss_live_from st = 0%nat → (ss_from_head_id st ≤ sm_head_id m1)%N →
  (1 ≤ ss_from_head_id st)%N → (sm_head_id m1 < sm_head_id m2)%N → matching (ss_topic st) (ss_origin st) m2 = true →
  task_step lag_text [m2; m1] (task_step lag_text [m2; m1] (task_start st)) =
    mkTask (ss_topic st) (ss_origin st) (sm_head_id m2) [] 2 [response m2] true.
Proof.
  intros Hr Hl Hf1 Hf Hlt Hm. unfold task_start. rewrite Hr, Hl. unfold task_step at 2.
  cbn [running negb replay live length task_topic task_origin last_sent sent lookup list_lookup].
  change (CHANNEL_CAPACITY <? 2 - 0)%nat with false. cbn iota. rewrite Hm. cbn [andb].
  rewrite (proj2 (N.ltb_lt _ _)) by (unfold u64_saturating_sub; lia).
  unfold task_step. cbn [running negb replay live length task_topic task_origin last_sent sent lookup list_lookup app].
  change (CHANNEL_CAPACITY <? 2 - 1)%nat with false. cbn iota.
  rewrite (proj2 (N.ltb_ge _ _)), andb_false_r by lia. reflexivity.
Qed.
End race.

(** C33: the order of the channel matters, and concurrent publications do not
    keep it.  Over any store and for any two publications to one topic, and a
    subscriber that starts after the last entry of that log, there is a schedule
    ([overtaken]) in which both requests are acknowledged and stored as the next
    two entries, the second is sent first, and the subscriber, which has read the
    whole channel, still runs and has seen no error, has received the second
    entry only: the first one is never delivered to it. *)
Theorem subscription_race {DB} `{SR : StoreRefinement DB} status_text lag_text node t a (db : DB) e sub r1 r2 :
  let k := key_of (mkTopic (pr_topic r1)) node in
  NodeId_valid node → no_faults e → rep a db →
  publishable node r1 → publishable node r2 → pr_topic r2 = pr_topic r1 →
  sr_topic sub = pr_topic r1 → own_origin node (sr_origin sub) → request_typed (RSubscribe sub) →
  sr_from_head_id sub = (log_head (log_of a k) + 1)%N → (log_head (log_of a k) + 2 ≤ u64_max)%N →
  (∀ q, ¬ limited e _ (OpFetch q) a) → (∀ n, ¬ limited e _ (OpAppend (new_message node r1 (uuid e n))) a) →
  (∀ n now, ¬ limited e _ (OpAppend (new_message node r2 (uuid e (S n))))
                (append_spec now (new_message node r1 (uuid e n)) a).2) →
  let w := world_run status_text lag_text node (world_new t db) (overtaken e sub r1 r2) in
  ∃ m1 m2 st task a', rep a' (store (w_service w)) ∧ log_of a' k = log_of a k ++ [m1; m2] ∧
    acknowledged w 1 r1 (proto_message m1) ∧ acknowledged w 2 r2 (proto_message m2) ∧
    published (w_service w) = [m2; m1] ∧ w_threads w !! 0%nat = Some (Streaming sub st task) ∧
    running task = true ∧ replay task = [] ∧ live task = length (published (w_service w)) ∧
    sent task = [response m2].
Proof.
  intros k Hnode Hnf Hrep Hp1 Hp2 Htop Hsub Horig Hty Hfrom Hmax Hlf Hl1 Hl2 w.
  pose proof (rep_wf _ _ Hrep) as Hwf.
  destruct (publish_accepted node Hnode r1 Hp1) as (k1 & Hr1 & Hk1).
  destruct (publish_accepted node Hnode r2 Hp2) as (k2 & Hr2 & Hk2).
  destruct (subscribe_accepted node Hnode sub) as (k0 & Hr0 & Hk0); [rewrite Hsub; apply Hp1|done|].
  set (q := mkFetchQuery _ _ _ _) in Hr0.
  destruct (call_ok (OpFetch q) e a db t Hnf) as (l & t1 & db1 & a1 & Hc0 & Hs0 & Hrep1);
    [destruct Hty; split; [by apply max_1_u64|cbn; unfold replay_limit; by case_match]|apply Hlf
    |by intros x [? _]|done|].
  destruct Hs0 as [[= ->] ->].
  destruct (call_ok (OpAppend (new_message node r1 (uuid e t1))) e a db1 (S (S t1)) Hnf)
    as (m1 & t2 & db2 & a2 & Hc1 & Hs1 & Hrep2); [done|apply Hl1|by intros x (? & _ & ? & _)|done|].
  destruct Hs1 as (now1 & _ & Hm1 & ->).
  destruct (call_ok (OpAppend (new_message node r2 (uuid e (S t1)))) e
    (append_spec now1 (new_message node r1 (uuid e t1)) a).2 db2 t2 Hnf)
    as (m2 & t3 & db3 & a3 & Hc2 & Hs2 & Hrep3); [done|apply Hl2|by intros x (? & _ & ? & _)|exact Hrep2|].
  destruct Hs2 as (now2 & _ & Hm2 & ->).
  destruct (two_appends node a r1 r2 (uuid e t1) (uuid e (S t1)) now1 now2)
    as (Hlog & Hn1 & Hn2 & Ht2 & Ho2); [done|done|]. fold k in Hlog, Hn1, Hn2.
  set (p1 := append_spec now1 _ a) in *. set (p2 := append_spec now2 _ p1.2) in *.
  assert (m1 = p1.1) as Hm1' by congruence. assert (m2 = p2.1) as Hm2' by congruence.
  rewrite <- Hm1', <- Hm2' in Hlog. rewrite <- Hm1' in Hn1. rewrite <- Hm2' in Hn2, Ht2, Ho2.
  assert (fetch_spec q a = []) as Hq.
  { rewrite fetch_spec_page by done. cbn [fq_from_head_id fq_limit fq_topic fq_origin q].
    rewrite Hsub, Hfrom. fold k. rewrite drop_ge; [by destruct (page_limit _)|]. unfold log_head. lia. }
  rewrite Hq in Hc0.
  pose proof (overtaken_run status_text lag_text node e sub r1 r2 t db t1 db1 t2 db2 t3 db3 m1 m2 q _ k0 k1 k2
    Hr0 Hr1 Hr2 Hc0 Hc1 Hc2 (Hk0 0%nat []) Hk1 Hk2) as Hw. fold w in Hw.
  rewrite overtaken_reader in Hw; [|done|done|cbn; lia|cbn; lia|lia|].
  2: { unfold matching. cbn. by rewrite Ht2, Ho2, Hsub, !bool_decide_true. }
  rewrite Hw. do 5 eexists. split; [exact Hrep3|]. split; [exact Hlog|]. repeat (split; [reflexivity|]). done.
Qed.

Lemma subscription_race_witness :
  let w := world_run status_text0 lag0 node_a (world_new 0 empty_db) (overtaken env0 subscribe0 publish0 publish0) in
  let k := key_of topic_events node_a in
  ∃ m1 m2 st task a', rep (StoreRefinement := redb_refinement) a' (store (w_service w)) ∧
    log_of a' k = log_of abs_empty k ++ [m1; m2] ∧
    acknowledged w 1 publish0 (proto_message m1) ∧ acknowledged w 2 publish0 (proto_message m2) ∧
    published (w_service w) = [m2; m1] ∧ w_threads w !! 0%nat = Some (Streaming subscribe0 st task) ∧
    running task = true ∧ replay task = [] ∧ live task = length (published (w_service w)) ∧
    sent task = [response m2].
Proof.
  assert (publishable node_a publish0) as Hp.
  { split; [apply valid_events|]. split; [done|]. by left. }
  apply (subscription_race (SR := redb_refinement) status_text0 lag0 node_a 0 abs_empty empty_db env0 subscribe0
    publish0 publish0); [apply node_a_valid | apply env0_no_faults | apply empty_rep | exact Hp | exact Hp | done
    | done | by left | done | done | done | intros; apply redb_unlimited | intros; apply redb_unlimited
    | intros; apply redb_unlimited].
Defined.
