(* ===== verification/Sdk.v ===== *)
(** * Sdk: the Rust client library

    Models [crates/msgbus-sdk-rust/src/lib.rs].  The daemon behind the gRPC
    channel is a parameter, [Daemon]: it has a state of its own, and each call may
    answer in any way and change that state.  [EndToEnd] puts the service of this
    program behind it.  The part of the library with logic of its own is the
    reconnecting subscription. *)

From Stdlib Require Import Ascii String NArith ZArith Lia.
From stdpp Require Import base strings list gmap.
From S2P Require Import Prelude Strings Core Proto Subscribe.

(** ** Errors *)

(** [tonic::Code] *)
Inductive Code : Type :=
| CodeOk | Cancelled | Unknown | CodeInvalidArgument | DeadlineExceeded | CodeNotFound
| AlreadyExists | PermissionDenied | ResourceExhausted | FailedPrecondition | Aborted
| OutOfRange | Unimplemented | CodeInternal | Unavailable | DataLoss | Unauthenticated.

#[export] Instance Code_eq_dec : EqDecision Code.
Proof. solve_decision. Defined.

Record RpcStatus := mkRpcStatus { status_code : Code; status_message : string }.

Inductive SdkError : Type :=
| SdkTransport (msg : string)
| SdkStatus (status : RpcStatus)
| SdkProtocol (msg : string).

Definition retryable_status (code : Code) : bool :=
  match code with
  | Unavailable | DeadlineExceeded | Aborted | Cancelled => true
  | _ => false
  end.

Definition required {A} (value : option A) (message : string) : result SdkError A :=
  ok_or (SdkProtocol message) value.

(** ** The daemon *)

(** A stream of responses is what is received of it: items until one fails, or
    until the server closes it. *)
Abbreviation Items := (list (result RpcStatus MessageResponse)).

Record Daemon (S : Type) := mkDaemon {
  d_health : M RpcStatus S HealthResponse;
  d_ready : M RpcStatus S ReadyResponse;
  d_publish : PublishRequest → M RpcStatus S MessageResponse;
  d_fetch : FetchRequest → M RpcStatus S Items;
  d_subscribe : SubscribeRequest → M RpcStatus S Items;
  d_get_head : GetHeadRequest → M RpcStatus S GetHeadResponse;
  d_list_heads : M RpcStatus S (list ProtoTopicHead);
  d_list_peer_sync_states : M RpcStatus S (list ProtoPeerSyncState);
  d_delete_range : DeleteRangeRequest → M RpcStatus S N;
  d_enqueue_fifo : EnqueueFifoRequest → M RpcStatus S (option FifoMessage);
  d_peek_fifo : string → M RpcStatus S (option FifoMessage);
  d_ack_fifo : FifoIdRequest → M RpcStatus S bool;
  d_reject_fifo : FifoIdRequest → M RpcStatus S bool;
}.
Arguments mkDaemon {S}.
Arguments d_health {S}.
Arguments d_ready {S}.
Arguments d_publish {S}.
Arguments d_fetch {S}.
Arguments d_subscribe {S}.
Arguments d_get_head {S}.
Arguments d_list_heads {S}.
Arguments d_list_peer_sync_states {S}.
Arguments d_delete_range {S}.
Arguments d_enqueue_fifo {S}.
Arguments d_peek_fifo {S}.
Arguments d_ack_fifo {S}.
Arguments d_reject_fifo {S}.

(** ** Connecting *)

Record MsgbusClient (S : Type) := mkClient {
  client : Daemon S;
  default_origin : option ProtoNodeId;
}.
Arguments mkClient {S}.
Arguments client {S}.
Arguments default_origin {S}.

(** [MsgbusServiceClient::connect], of the transport, is a parameter. *)
Definition sdk_connect {S} (transport : string → result string (Daemon S)) (endpoint : string)
    : result SdkError (MsgbusClient S) :=
  client ← map_err SdkTransport (transport endpoint);
  Ok (mkClient client None).

Definition with_default_origin {S} (self : MsgbusClient S) (origin : ProtoNodeId) : MsgbusClient S :=
  mkClient (client self) (Some origin).

Section sdk.
Context {S : Type} (daemon : Daemon S).

(** [self.client.op(..).await?] *)
Definition call {A} (f : M RpcStatus S A) : M SdkError S A := map_err_m SdkStatus f.

(** ** The client: [default_origin] is its only state, and it never changes *)

Section client.
Context (default_origin : option ProtoNodeId).

Abbreviation Client := (M SdkError S).

(** [origin.or_else(|| self.default_origin.clone())] *)
Definition or_default (origin : option ProtoNodeId) : option ProtoNodeId :=
  match origin with Some o => Some o | None => default_origin end.

Definition sdk_health : Client string :=
  response ← call (d_health daemon); mret (hr_status response).

Definition sdk_ready : Client ReadyResponse := call (d_ready daemon).

Definition publish_with_headers (topic : string) (payload : bytes) (headers : gmap string string)
    : Client MessageEnvelope :=
  response ← call (d_publish daemon (mkPublishRequest topic default_origin payload headers));
  of_result (required (mr_message response) "server returned empty publish response").

Definition sdk_publish (topic : string) (payload : bytes) : Client MessageEnvelope :=
  publish_with_headers topic payload ∅.

Definition sdk_fetch (topic : string) (origin : option ProtoNodeId) (from_head_id limit : N)
    : Client (list MessageEnvelope) :=
  stream ← call (d_fetch daemon (mkFetchRequest topic (or_default origin) from_head_id limit));
  for_each stream (λ item messages,
    response ← of_result (map_err SdkStatus item);
    mret (Continue (match mr_message response with
                    | Some message => messages ++ [message]
                    | None => messages
                    end))) [].

Definition sdk_get_head (topic : string) (origin : option ProtoNodeId) : Client GetHeadResponse :=
  call (d_get_head daemon (mkGetHeadRequest topic (or_default origin))).

Definition sdk_list_heads : Client (list ProtoTopicHead) := call (d_list_heads daemon).

Definition sdk_list_peer_sync_states : Client (list ProtoPeerSyncState) :=
  call (d_list_peer_sync_states daemon).

Definition sdk_delete_range (topic : string) (origin : option ProtoNodeId)
    (from_head_id to_head_id : N) : Client N :=
  call (d_delete_range daemon
          (mkDeleteRangeRequest topic (or_default origin) from_head_id to_head_id)).

Definition enqueue_fifo_with_headers (queue topic : string) (target : ProtoNodeId) (payload : bytes)
    (headers : gmap string string) : Client FifoMessage :=
  message ← call (d_enqueue_fifo daemon
    (mkEnqueueFifoRequest queue topic default_origin (Some target) payload headers));
  of_result (required message "server returned empty fifo response").

Definition sdk_enqueue_fifo (queue topic : string) (target : ProtoNodeId) (payload : bytes)
    : Client FifoMessage :=
  enqueue_fifo_with_headers queue topic target payload ∅.

Definition sdk_peek_fifo (queue : string) : Client FifoMessage :=
  message ← call (d_peek_fifo daemon queue);
  of_result (required message "server returned empty fifo response").

Definition sdk_ack_fifo (queue message_id : string) : Client bool :=
  call (d_ack_fifo daemon (mkFifoIdRequest queue message_id)).

Definition sdk_reject_fifo (queue message_id : string) : Client bool :=
  call (d_reject_fifo daemon (mkFifoIdRequest queue message_id)).
End client.

(** ** Subscriptions *)

Record SubscribeOptions := mkSubscribeOptions {
  so_origin : option ProtoNodeId;
  so_from_head_id : N;
  so_replay_limit : N;
  so_reconnect_delay : N;  (* milliseconds *)
}.

(** [SubscribeOptions::default()] and the update of two of its fields. *)
Definition default_options : SubscribeOptions := mkSubscribeOptions None 1 100 250.

Definition options_from (origin : option ProtoNodeId) (from_head_id : N) : SubscribeOptions :=
  mkSubscribeOptions origin from_head_id (so_replay_limit default_options)
    (so_reconnect_delay default_options).

Definition subscribe_with_options (default_origin : option ProtoNodeId) (topic : string)
    (options : SubscribeOptions) : M SdkError S Items :=
  call (d_subscribe daemon (mkSubscribeRequest topic (or_default default_origin (so_origin options))
          (so_from_head_id options) (so_replay_limit options))).

Definition sdk_subscribe (default_origin : option ProtoNodeId) (topic : string)
    (origin : option ProtoNodeId) (from_head_id : N)
    : M SdkError S Items :=
  subscribe_with_options default_origin topic (options_from origin from_head_id).

(** The stream is what is left to receive of it; after the last item the server
    has closed it. *)
Record ResilientSubscription := mkResilient {
  rs_topic : string;
  rs_origin : option ProtoNodeId;
  rs_next_head_id : N;
  rs_replay_limit : N;
  rs_reconnect_delay : N;
  rs_stream : option Items;
}.

Definition subscribe_reconnecting_with_options (default_origin : option ProtoNodeId) (topic : string)
    (options : SubscribeOptions) : ResilientSubscription :=
  mkResilient topic (or_default default_origin (so_origin options))
    (N.max (so_from_head_id options) 1) (so_replay_limit options)
    (so_reconnect_delay options) None.

Definition subscribe_reconnecting (default_origin : option ProtoNodeId) (topic : string)
    (origin : option ProtoNodeId) (from_head_id : N) : ResilientSubscription :=
  subscribe_reconnecting_with_options default_origin topic (options_from origin from_head_id).

(** The subscription together with the daemon it talks to. *)
Abbreviation Sub := (M SdkError (ResilientSubscription * S)).

Definition set_stream (stream : option Items) : Sub unit :=
  modify (λ '(s, d), (mkResilient (rs_topic s) (rs_origin s) (rs_next_head_id s) (rs_replay_limit s)
    (rs_reconnect_delay s) stream, d)).

Definition set_next_head_id (n : N) : Sub unit :=
  modify (λ '(s, d), (mkResilient (rs_topic s) (rs_origin s) n (rs_replay_limit s)
    (rs_reconnect_delay s) (rs_stream s), d)).

Definition get_subscription : Sub ResilientSubscription := s ← get_state; mret s.1.

Definition on_daemon {A} (m : M SdkError S A) : Sub A := zoom snd (λ d s, (s.1, d)) m.

Definition open_stream : Sub unit :=
  s ← get_subscription;
  stream ← on_daemon (call (d_subscribe daemon (mkSubscribeRequest (rs_topic s) (rs_origin s)
    (rs_next_head_id s) (rs_replay_limit s))));
  set_stream (Some stream).

(** [stream.message().await]: the next item, or the end. *)
Definition stream_message : Sub (result RpcStatus (option MessageResponse)) :=
  s ← get_subscription;
  match rs_stream s with
  | None => throw (SdkProtocol "subscription stream was not opened")
  | Some [] => mret (Ok None)
  | Some (Ok response :: rest) => set_stream (Some rest);; mret (Ok (Some response))
  | Some (Err status :: rest) => set_stream (Some rest);; mret (Err status)
  end.

(** The loop of [next_message]; [None] when the fuel runs out.  The pause before a
    retry, [sleep(reconnect_delay)], has no effect on the state. *)
Fixpoint next_message (fuel : nat) : Sub (option MessageEnvelope) :=
  match fuel with
  | O => mret None
  | Datatypes.S fuel' =>
      s ← get_subscription;
      opened ← match rs_stream s with
               | Some _ => mret true
               | None =>
                   r ← try open_stream;
                   match r with
                   | Ok _ => mret true
                   | Err (SdkStatus status) =>
                       if retryable_status (status_code status) then mret false
                       else throw (SdkStatus status)
                   | Err err => throw err
                   end
               end;
      if negb (opened : bool) then next_message fuel'
      else
        item ← stream_message;
        match item with
        | Ok (Some response) =>
            message ← of_result
              (required (mr_message response) "server returned empty subscribe response");
            set_next_head_id (u64_saturating_add (me_head_id message) 1);;
            mret (Some message)
        | Ok None => set_stream None;; next_message fuel'
        | Err status =>
            if retryable_status (status_code status) then set_stream None;; next_message fuel'
            else throw (SdkStatus status)
        end
  end.

(** Receive [k] messages. *)
Fixpoint receive (fuel k : nat) : Sub (option (list MessageEnvelope)) :=
  match k with
  | O => mret (Some [])
  | Datatypes.S k' =>
      m ← next_message fuel;
      match m with
      | None => mret None
      | Some m =>
          l ← receive fuel k';
          mret (cons m <$> l)
      end
  end.
End sdk.
