(* ===== verification/SdkClaims.v ===== *)
(** * SdkClaims: the reconnecting subscription

    Against a daemon whose streams start at the requested number and have no
    gaps, the reconnecting subscription delivers every number once and in order,
    across any number of disconnections. *)

From Stdlib Require Import Ascii String NArith ZArith Lia.
From stdpp Require Import base strings list gmap.
From S2P Require Import Prelude Strings Core Proto Subscribe Sdk.

Definition item (m : MessageEnvelope) : result RpcStatus MessageResponse :=
  Ok (mkMessageResponse (Some m)).

(** How a stream ends: closed by the server, or cut by a retryable error. *)
Definition cut (tail : list (result RpcStatus MessageResponse)) : Prop :=
  tail = [] ∨ ∃ status rest, tail = Err status :: rest ∧ retryable_status (status_code status) = true.

(** Consecutive messages from number [n], each one of [P], then a cut. *)
Definition stream_from (P : MessageEnvelope → Prop) (n : nat)
    (items : list (result RpcStatus MessageResponse)) : Prop :=
  ∃ msgs tail, items = (item <$> msgs) ++ tail ∧ me_head_id <$> msgs = nseq n (length msgs) ∧
    Forall P msgs ∧ cut tail.

(** Asked for a stream, the daemon refuses at most [i] times in a row, each time
    with a retryable status, and then opens a stream with at least one message
    that starts at the requested number, has no gaps and carries messages of [P]
    only. *)
Fixpoint opens {S} (daemon : Daemon S) (I : S → Prop) (P : MessageEnvelope → Prop) (e : Env) (req : SubscribeRequest) (i t : nat)
    (d : S) : Prop :=
  let '(res, t', d') := d_subscribe daemon req e t d in
  match res with
  | Ok items => I d' ∧ ∃ m rest, items = item m :: rest ∧ stream_from P (N.to_nat (sr_from_head_id req)) items
  | Err status => retryable_status (status_code status) = true ∧
      match i with O => False | Datatypes.S i' => opens daemon I P e req i' t' d' end
  end.

(** A daemon in a state of [I] does so for every number up to [last] of a log. *)
Definition responsive {S} (daemon : Daemon S) (I : S → Prop) (P : MessageEnvelope → Prop) (e : Env) (topic : string)
    (origin : option ProtoNodeId) (limit : N) (r last : nat) : Prop :=
  ∀ n t d, (1 ≤ n ≤ last)%nat → I d →
    opens daemon I P e (mkSubscribeRequest topic origin (N.of_nat n) limit) r t d.

Section receive.
Context {S : Type} (daemon : Daemon S) (I : S → Prop) (P : MessageEnvelope → Prop) (e : Env).
Context (topic : string) (origin : option ProtoNodeId) (limit : N) (r last : nat).
Context (Hd : responsive daemon I P e topic origin limit r last) (Hlast : (N.of_nat last < u64_max)%N).

(** The subscription will next return number [n]. *)
Definition expecting (n : nat) (sd : ResilientSubscription * S) : Prop :=
  let s := sd.1 in
  rs_topic s = topic ∧ rs_origin s = origin ∧ rs_replay_limit s = limit ∧
  rs_next_head_id s = N.of_nat n ∧ I sd.2 ∧
  match rs_stream s with None => True | Some items => stream_from P n items end.

Definition with_stream (s : ResilientSubscription) (stream : option Items) : ResilientSubscription :=
  mkResilient (rs_topic s) (rs_origin s) (rs_next_head_id s) (rs_replay_limit s)
    (rs_reconnect_delay s) stream.

Lemma stream_message_eq t s (d : S) (items : Items) :
  rs_stream s = Some items →
  stream_message e t (s, d) =
    match items with
    | [] => (Ok (Ok None), t, (s, d))
    | Ok response :: rest => (Ok (Ok (Some response)), t, (with_stream s (Some rest), d))
    | Err status :: rest => (Ok (Err status), t, (with_stream s (Some rest), d))
    end.
Proof.
  intros Hs. unfold stream_message, get_subscription, mbind, M_bind, get_state. cbn. rewrite Hs.
  by destruct items as [|[]].
Qed.

(** Taking the first message of an open stream. *)
Lemma next_from_stream fuel n s d t m rest :
  expecting n (s, d) → rs_stream s = Some (item m :: rest) → (n ≤ last)%nat →
  let '(res, _, s') := next_message daemon (Datatypes.S fuel) e t (s, d) in
  res = Ok (Some m) ∧ me_head_id m = N.of_nat n ∧ P m ∧ expecting (Datatypes.S n) s'.
Proof.
  intros (Ht & Ho & Hl & Hn & HI & Hstream) Hs Hmax. cbn in Hn, HI, Hstream. rewrite Hs in Hstream.
  destruct Hstream as (msgs & tail & Heq & Hnum & HP & Hcut).
  destruct msgs as [|m' msgs].
  { destruct Hcut as [->|(st & rest' & -> & _)]; done. }
  simpl in Heq. injection Heq as <- ->. unfold nseq in Hnum. csimpl in Hnum. injection Hnum as Hm Hnum.
  apply Forall_cons_1 in HP as [HPm HP].
  cbn [next_message]. unfold get_subscription, mbind, M_bind, get_state. cbn. rewrite Hs. cbn.
  rewrite (stream_message_eq t s d _ Hs). cbn.
  do 3 (split; [done|]). do 3 (split; [done|]). cbn.
  split; [rewrite Hm, u64_saturating_succ by lia; lia|]. split; [done|]. by exists msgs, tail.
Qed.

(** Without a stream: the refusals are survived and the opened stream read. *)
Lemma next_without_stream n s d t i fuel :
  rs_stream s = None → rs_topic s = topic → rs_origin s = origin → rs_replay_limit s = limit →
  rs_next_head_id s = N.of_nat n → (n ≤ last)%nat →
  opens daemon I P e (mkSubscribeRequest topic origin (N.of_nat n) limit) i t d → (i < fuel)%nat →
  let '(res, _, s') := next_message daemon fuel e t (s, d) in
  ∃ m, res = Ok (Some m) ∧ me_head_id m = N.of_nat n ∧ P m ∧ expecting (Datatypes.S n) s'.
Proof.
  intros Hs Ht Ho Hl Hn Hmax. revert t d fuel.
  induction i as [|i IH]; intros t d fuel Hopen Hfuel; (destruct fuel as [|fuel]; [lia|]);
    cbn [opens] in Hopen;
    destruct (d_subscribe daemon _ e t d) as [[res t1] d1] eqn:Hsub; destruct res as [items|st].
  all: try by destruct Hopen.
  all: try (destruct Hopen as (HI & m & rest & -> & Hstream);
    set (s1 := with_stream s (Some (item m :: rest)));
    assert (expecting n (s1, d1)) as Hexp by (do 5 (split; [done|]); cbn in Hstream |- *; by rewrite Nat2N.id in Hstream);
    pose proof (next_from_stream fuel n s1 d1 t1 m rest Hexp eq_refl Hmax) as H;
    assert (next_message daemon (Datatypes.S fuel) e t (s, d) =
            next_message daemon (Datatypes.S fuel) e t1 (s1, d1)) as ->;
    [ cbn [next_message]; unfold get_subscription, mbind, M_bind, get_state; cbn; rewrite Hs;
      unfold try, open_stream, get_subscription, on_daemon, zoom, call, map_err_m, mbind, M_bind, get_state; cbn;
      by rewrite Ht, Ho, Hl, Hn, Hsub
    | destruct (next_message daemon (Datatypes.S fuel) e t1 (s1, d1)) as [[res t'] s']; by exists m ]).
  destruct Hopen as [Hr Hopen].
  assert (next_message daemon (Datatypes.S fuel) e t (s, d) = next_message daemon fuel e t1 (s, d1)) as ->.
  { cbn [next_message]. unfold get_subscription, mbind, M_bind, get_state. cbn. rewrite Hs.
    unfold try, open_stream, get_subscription, on_daemon, zoom, call, map_err_m, mbind, M_bind, get_state. cbn.
    rewrite Ht, Ho, Hl, Hn, Hsub. cbn. by rewrite Hr. }
  apply IH; [done|lia].
Qed.

Lemma next_expected fuel n sd :
  expecting n sd → (1 ≤ n ≤ last)%nat → (r + 1 < fuel)%nat →
  wp e (next_message daemon fuel)
    (λ res s', ∃ m, res = Ok (Some m) ∧ me_head_id m = N.of_nat n ∧ P m ∧ expecting (Datatypes.S n) s') sd.
Proof.
  intros Hexp Hn Hfuel t. destruct sd as [s d]. pose proof Hexp as (Ht & Ho & Hl & Hnext & HI & Hs).
  cbn in Ht, Ho, Hl, Hnext, HI, Hs. destruct (rs_stream s) as [items|] eqn:Hstream.
  2: { apply (next_without_stream n s d t r); try done; [lia|by apply Hd|lia]. }
  destruct fuel as [|fuel]; [lia|]. destruct Hs as (msgs & tail & Heq & Hnum & HP & Hcut).
  destruct msgs as [|m msgs].
  - assert (next_message daemon (Datatypes.S fuel) e t (s, d) =
      next_message daemon fuel e t (with_stream s None, d)) as ->.
    { cbn [next_message]. unfold get_subscription, mbind, M_bind, get_state. cbn. rewrite Hstream. cbn.
      rewrite (stream_message_eq t s d _ Hstream), Heq.
      destruct Hcut as [->|(st & rest & -> & Hr)]; [done|]. cbn. by rewrite Hr. }
    apply (next_without_stream n _ d t r); try done; [lia|by apply Hd|lia].
  - rewrite Heq in Hstream.
    pose proof (next_from_stream fuel n s d t m _ Hexp Hstream ltac:(lia)) as H.
    destruct (next_message daemon (Datatypes.S fuel) e t (s, d)) as [[res t'] s']. by exists m.
Qed.

Lemma receive_expected fuel k n sd :
  expecting n sd → (1 ≤ n)%nat → (n + k ≤ last + 1)%nat → (r + 1 < fuel)%nat →
  wp e (receive daemon fuel k)
    (λ res s', ∃ l, res = Ok (Some l) ∧ me_head_id <$> l = nseq n k ∧ Forall P l ∧ expecting (n + k) s') sd.
Proof.
  revert n sd. induction k as [|k IH]; intros n sd Hs H1 Hmax Hfuel; cbn [receive].
  { apply wp_ret. exists []. by rewrite Nat.add_0_r. }
  apply wp_bind. eapply wp_mono; [apply (next_expected fuel n); [done|lia|done]|].
  intros res s1 (m & -> & Hm & HPm & Hs1). apply wp_bind.
  eapply wp_mono; [apply (IH (Datatypes.S n)); [done|lia|lia|done]|].
  intros res s2 (l & -> & Hl & HPl & Hs2). apply wp_ret. exists (m :: l). split; [done|].
  split; [csimpl; rewrite Hm, Hl; done|]. split; [by constructor|]. by rewrite Nat.add_succ_r.
Qed.
End receive.

(** C25: against a daemon that, asked for any number up to [last] of a log,
    refuses at most [r] times in a row with retryable errors and then opens a
    stream of messages of [P] that starts at that number and has no gaps, the
    reconnecting subscription returns messages of [P] with exactly the numbers
    from the requested one on, each once and in order, however often streams are
    closed or cut; it needs at most [r + 2] rounds per message. *)
Theorem resilient_exactly_once {S} (daemon : Daemon S) I P e r last fuel k default_origin topic options d :
  responsive daemon I P e topic (or_default default_origin (so_origin options)) (so_replay_limit options)
    r last →
  I d → (r + 1 < fuel)%nat → (N.of_nat last < u64_max)%N →
  let from := N.to_nat (N.max (so_from_head_id options) 1) in
  (from + k ≤ last + 1)%nat →
  wp e (receive daemon fuel k)
    (λ res s', ∃ l, res = Ok (Some l) ∧ me_head_id <$> l = nseq from k ∧ Forall P l ∧
       rs_next_head_id s'.1 = N.of_nat (from + k))
    (subscribe_reconnecting_with_options default_origin topic options, d).
Proof.
  intros Hd HI Hfuel Hlast from Hmax.
  eapply wp_mono; [eapply (receive_expected daemon I P e _ _ _ r last Hd Hlast fuel k from); [|unfold from; lia|done|done]|].
  - do 3 (split; [done|]). split; [cbn; unfold from; lia | done].
  - intros res s' (l & -> & Hl & HP & (_ & _ & _ & Hn & _)). by exists l.
Qed.

(** A daemon that drops every stream after one message, and refuses every other
    attempt; its state counts the attempts. *)
Definition flaky : Daemon nat :=
  let refuse {A} : M RpcStatus nat A := throw (mkRpcStatus Unimplemented "") in
  mkDaemon refuse refuse (λ _, refuse) (λ _, refuse)
    (λ req, n ← get_state;
            modify Datatypes.S;;
            if Nat.even n then throw (mkRpcStatus Unavailable "busy")
            else mret [item (mkEnvelope "m" (sr_topic req) (sr_origin req) (sr_from_head_id req) [] ∅ 0 false);
                       Err (mkRpcStatus Unavailable "gone")])
    (λ _, refuse) refuse refuse (λ _, refuse) (λ _, refuse) (λ _, refuse) (λ _, refuse) (λ _, refuse).

Definition flaky_message (m : MessageEnvelope) : Prop := me_id m = "m".

Lemma flaky_responsive e topic origin limit last :
  responsive flaky (λ _, True) flaky_message e topic origin limit 1 last.
Proof.
  assert (∀ req t d, d_subscribe flaky req e t d =
    (if Nat.even d then Err (mkRpcStatus Unavailable "busy")
     else Ok [item (mkEnvelope "m" (sr_topic req) (sr_origin req) (sr_from_head_id req) [] ∅ 0 false);
              Err (mkRpcStatus Unavailable "gone")], t, Datatypes.S d)) as Hsub.
  { intros req t d. cbn. unfold mbind, M_bind. cbn. by destruct (Nat.even d). }
  assert (∀ i n t d, Nat.even d = false →
    opens flaky (λ _, True) flaky_message e (mkSubscribeRequest topic origin (N.of_nat n) limit) i t d) as Hodd.
  { intros i n t d Hd. destruct i; cbn [opens]; rewrite Hsub, Hd; (split; [done|]);
      eexists _, _; (split; [done|]); eexists [_], _; (split; [done|]);
      (split; [cbn; by rewrite Nat2N.id|]); (split; [by repeat constructor|]); right; by eexists _, _. }
  intros n t d Hn _. destruct (Nat.even d) eqn:Hd; [|by apply Hodd].
  cbn [opens]. rewrite Hsub, Hd. split; [done|]. apply (Hodd 0%nat).
  by rewrite Nat.even_succ, <- Nat.negb_even, Hd.
Qed.

Lemma resilient_exactly_once_witness :
  wp (mkEnv (λ _, None) (λ _, "") (λ _, None)) (receive flaky 3 4)
    (λ res s', ∃ l, res = Ok (Some l) ∧ me_head_id <$> l = nseq 7 4 ∧ Forall flaky_message l ∧ rs_next_head_id s'.1 = 11%N)
    (subscribe_reconnecting_with_options None "events" (mkSubscribeOptions None 7 100 250), 0%nat).
Proof.
  apply (resilient_exactly_once flaky (λ _, True) flaky_message (mkEnv (λ _, None) (λ _, "") (λ _, None)) 1 100 3 4 None
    "events" (mkSubscribeOptions None 7 100 250) 0%nat);
    [apply flaky_responsive | done | lia | done | vm_compute; lia].
Defined.
