(* ===== verification/EndToEnd.v ===== *)
(** * EndToEnd: the client library against the service

    [Sdk] leaves the daemon open; here it is the service of [Server] over any
    store that meets the contract, with the subscription task of [Subscribe]
    behind a stream.  Statuses cross the wire as code and text, as tonic sends
    them. *)

From Stdlib Require Import Ascii String NArith ZArith Lia Sorting.Sorted.
From stdpp Require Import base strings list gmap.
From S2P Require Import Prelude Strings Core Table RedbKeys Json Concrete Spec History RedbStore RedbRep RedbRefine Redb Proto Server ServerProps Replay ServerClaims Subscribe SubscribeClaims Sdk SdkClaims.

(** ** The service as a daemon *)

Definition rpc_status (x : Status) : RpcStatus :=
  match x with
  | invalid_argument m => mkRpcStatus CodeInvalidArgument m
  | not_found m => mkRpcStatus CodeNotFound m
  | failed_precondition m => mkRpcStatus FailedPrecondition m
  | internal m => mkRpcStatus CodeInternal m
  | permission_denied m => mkRpcStatus PermissionDenied m
  | unavailable m => mkRpcStatus Unavailable m
  end.

Section daemon.
Context {DB : Type} {ST : MsgbusStore DB} {JT : Json TombstoneRange}.
Context (lag_text : nat → string) (node : NodeId).

(** How long a stream lasts: the turns of its task before the connection breaks
    with [broken], for the stream opened at a given moment. *)
Context (turns : nat → nat) (broken : RpcStatus).

Definition over_wire {S A} (m : M Status S A) : M RpcStatus S A := map_err_m rpc_status m.

Definition served_for (n : nat) (request : SubscribeRequest)
    : M RpcStatus (MsgbusGrpcService DB) Items :=
  st ← over_wire (subscribe node request);
  s ← get_state;
  let task := task (sys_run lag_text (mkSys (published s) (task_start st)) (repeat TaskRuns n)) in
  mret ((map_err rpc_status <$> sent task) ++ [Err broken]).

Definition served_stream (request : SubscribeRequest) : M RpcStatus (MsgbusGrpcService DB) Items :=
  λ e t s, served_for (turns t) request e t s.

Definition service_daemon : Daemon (MsgbusGrpcService DB) :=
  mkDaemon (over_wire (health node)) (over_wire (ready node))
    (λ request, over_wire (publish node request))
    (λ request, l ← over_wire (fetch node request); mret ((λ m, Ok m : result RpcStatus _) <$> (l : list MessageResponse)))
    served_stream
    (λ request, over_wire (handle_get_head node request))
    (over_wire handle_list_heads)
    (over_wire handle_list_peer_sync_states)
    (λ request, over_wire (delete_range node request))
    (λ request, over_wire (handle_enqueue_fifo node request))
    (λ queue, over_wire (handle_peek_fifo queue))
    (λ request, over_wire (handle_ack_fifo request))
    (λ request, over_wire (handle_reject_fifo request)).
End daemon.

(** ** Calls that cannot fail *)

Section calls.
Context {DB : Type} {ST : MsgbusStore DB} {JT : Json TombstoneRange} {SR : StoreRefinement DB}.
Context (lag_text : nat → string) (node : NodeId) (turns : nat → nat) (broken : RpcStatus).
Context (e : Env) (Hnf : no_faults e).

Implicit Types (s : MsgbusGrpcService DB) (a : AbsStore).

Let daemon := service_daemon (DB := DB) lag_text node turns broken.

Lemma wp_fresh_uuid' {E S} (Q : result E string → S → Prop) (s : S) :
  (∀ n, Q (Ok (uuid e n)) s) → wp e fresh_uuid Q s.
Proof. intros H t. apply H. Qed.

(** A store call answers as specified. *)
Lemma wp_store_ok {A} (op : StoreOp A) (Q : SResult A → MsgbusGrpcService DB → Prop) a s :
  op_typed op → ¬ limited e A op a → rep a (store s) →
  (∀ r a' db', spec_op e op a r a' → rep a' db' →
     Q (map_err status_from_error r) (mkService db' (published s))) →
  wp e (on_store (run_op op)) Q s.
Proof.
  intros Hty Hlim Hrep HQ. apply (wp_on_store e op _ a); [done|done| |].
  - intros x a' db' Hs Hrep'. by apply (HQ (Ok x) a').
  - intros x db' Hrep' [Hf|[Hl|Hs]]; [by destruct (no_faults_has_fault e)|done|].
    by apply (HQ (Err x) a).
Qed.

Lemma wp_call {A} (m : M Status (MsgbusGrpcService DB) A)
    (Q : result SdkError A → MsgbusGrpcService DB → Prop) s :
  wp e m (λ r s', Q (map_err SdkStatus (map_err rpc_status r)) s') s → wp e (call (over_wire m)) Q s.
Proof. intros H. by apply wp_map_err, wp_map_err. Qed.

(** The origin the client names, or the node's own when it names none. *)
Definition local_origin (default_origin : option ProtoNodeId) : Prop :=
  default_origin = None ∨ default_origin = Some (proto_node node) ∧ NodeId_valid node.

Lemma local_request_origin o : local_origin o → request_origin node o = Ok node.
Proof.
  intros [->|[-> Hv]]; [done|]. unfold request_origin.
  rewrite (proj2 (core_node_ok _ _) (conj eq_refl (or_intror Hv))). cbn. by case_match.
Qed.

Lemma local_owned_origin o : local_origin o → owned_origin node o = Ok node.
Proof.
  intros Ho. unfold owned_origin. rewrite local_request_origin by done. cbn.
  by rewrite bool_decide_true.
Qed.

Lemma application_topic t :
  valid_part t → t ≠ DELETE_TOPIC →
  Topic_new t = Ok (mkTopic t) ∧ ensure_application_topic (mkTopic t) = Ok tt.
Proof.
  intros Hv Ht. split; [by apply Topic_new_ok|]. unfold ensure_application_topic.
  by rewrite bool_decide_false.
Qed.

Context (o : option ProtoNodeId) (Ho : local_origin o).

(** [publish] through the library. *)
Lemma sdk_publish_ok topic payload headers a s (Q : result SdkError MessageEnvelope → _ → Prop) :
  let k := (topic, NodeId.key node) in
  valid_part topic → topic ≠ DELETE_TOPIC → rep a (store s) →
  (∀ id, ¬ limited e _ (OpAppend (mkNewMessage id (mkTopic topic) node payload headers)) a) →
  (∀ id now db', ticks e now →
     let p := append_spec now (mkNewMessage id (mkTopic topic) node payload headers) a in
     rep p.2 db' → Q (Ok (proto_message p.1)) (mkService db' (published s ++ [p.1]))) →
  wp e (publish_with_headers daemon o topic payload headers) Q s.
Proof.
  intros k Hv Ht Hrep Hlim HQ. unfold publish_with_headers. apply wp_bind, wp_call. cbn [d_publish daemon service_daemon].
  unfold publish. cbn [pr_topic pr_origin pr_payload pr_headers].
  destruct (application_topic topic Hv Ht) as [-> Happ]. apply wp_bind, wp_of_result. cbn [map_err].
  apply wp_bind, wp_of_result. rewrite Happ. apply wp_bind, wp_of_result.
  rewrite local_owned_origin by done. unfold NewMessage_new, MessageId_new. wp_run.
  apply (wp_store_ok (OpAppend _) _ a); [done|done|done|].
  intros r a' db' (now & Hnow & -> & ->) Hrep'. cbn [map_err].
  apply wp_bind. unfold send. apply wp_modify, wp_ret. cbn [map_err]. apply wp_of_result.
  by apply (HQ (mkMessageId u) now).
Qed.

Lemma collect_items (l : list StoredMessage) acc s (Q : result SdkError (list MessageEnvelope) → _ → Prop) :
  Q (Ok (acc ++ (proto_message <$> l))) s →
  wp e (for_each ((λ m, Ok (mkMessageResponse (Some (proto_message m))) : result RpcStatus MessageResponse) <$> l)
          (λ item messages,
             response ← of_result (map_err SdkStatus item);
             mret (Continue (match mr_message response with
                             | Some message => messages ++ [message]
                             | None => messages
                             end))) acc) Q s.
Proof.
  revert acc. induction l as [|m l IH]; intros acc HQ; cbn.
  { apply wp_ret. by rewrite app_nil_r in HQ. }
  apply wp_bind, wp_bind, wp_of_result. cbn. apply wp_ret. apply IH. by rewrite <- app_assoc.
Qed.

(** [fetch] and [get_head]. *)
Lemma sdk_fetch_ok topic from limit a s (Q : result SdkError (list MessageEnvelope) → _ → Prop) :
  let q := mkFetchQuery (mkTopic topic) node (N.max from 1) limit in
  valid_part topic → is_u64 from → is_u32 limit → rep a (store s) → ¬ limited e _ (OpFetch q) a →
  (∀ db', rep a db' → Q (Ok (proto_message <$> fetch_spec q a)) (mkService db' (published s))) →
  wp e (sdk_fetch daemon o topic None from limit) Q s.
Proof.
  intros q Hv Hf Hl Hrep Hlim HQ. unfold sdk_fetch. apply wp_bind.
  cbn [d_fetch daemon service_daemon or_default]. apply wp_map_err, wp_bind, wp_map_err.
  unfold fetch. cbn [fr_topic fr_origin fr_from_head_id fr_limit].
  rewrite (proj2 (Topic_new_ok _ _) (conj Hv eq_refl)). apply wp_bind, wp_of_result. cbn [map_err].
  apply wp_bind, wp_of_result. rewrite local_request_origin by done. apply wp_bind.
  apply (wp_store_ok (OpFetch q) _ a); [by split; [apply max_1_u64|]|done|done|].
  intros r a' db' [-> ->] Hrep'. cbn [map_err]. apply wp_ret. cbn [map_err]. apply wp_ret. cbn [map_err].
  rewrite <- list_fmap_compose. apply collect_items. by apply HQ.
Qed.

Lemma sdk_get_head_ok topic a s (Q : result SdkError GetHeadResponse → _ → Prop) :
  valid_part topic → rep a (store s) → ¬ limited e _ (OpGetHead (mkTopic topic) node) a →
  (∀ db', rep a db' →
     let h := head_spec (mkTopic topic) node a in
     Q (Ok (mkGetHeadResponse (default 0%N h) (bool_decide (is_Some h)))) (mkService db' (published s))) →
  wp e (sdk_get_head daemon o topic None) Q s.
Proof.
  intros Hv Hrep Hlim HQ. unfold sdk_get_head. apply wp_call. cbn [d_get_head daemon service_daemon or_default].
  unfold handle_get_head. cbn [gh_topic gh_origin].
  rewrite (proj2 (Topic_new_ok _ _) (conj Hv eq_refl)). apply wp_bind, wp_of_result. cbn [map_err].
  apply wp_bind, wp_of_result. rewrite local_request_origin by done. apply wp_bind.
  apply (wp_store_ok (OpGetHead _ _) _ a); [done|done|done|].
  intros r a' db' [-> ->] Hrep'. cbn [map_err]. apply wp_ret. by apply HQ.
Qed.

(** [delete_range]. *)
Lemma sdk_delete_range_ok topic from to a s (Q : result SdkError N → _ → Prop) :
  valid_part topic → topic ≠ DELETE_TOPIC → (from ≤ to)%N → is_u64 from → is_u64 to → rep a (store s) →
  ¬ limited e _ (OpTombstoneMarker (mkTopic topic) node from to (mkTopic DELETE_TOPIC) node) a →
  (∀ id now now' db', let p := marker_spec id now now' (mkTopic topic) node from to (mkTopic DELETE_TOPIC) node a in
     rep p.2 db' → Q (Ok p.1.1) (mkService db' (published s ++ [p.1.2]))) →
  wp e (sdk_delete_range daemon o topic None from to) Q s.
Proof.
  intros Hv Ht Hft Hf Hto Hrep Hlim HQ. unfold sdk_delete_range. apply wp_call.
  cbn [d_delete_range daemon service_daemon or_default]. unfold delete_range.
  cbn [dr_topic dr_origin dr_from_head_id dr_to_head_id].
  destruct (application_topic topic Hv Ht) as [-> Happ]. apply wp_bind, wp_of_result. cbn [map_err].
  apply wp_bind, wp_of_result. rewrite Happ. apply wp_bind, wp_of_result.
  rewrite local_owned_origin by done. apply wp_bind, wp_of_result.
  replace (Topic_new DELETE_TOPIC) with (Ok (mkTopic DELETE_TOPIC) : Result Topic) by (by vm_compute).
  cbn [map_err]. apply wp_bind, (wp_store_ok (OpTombstoneMarker _ _ _ _ _ _) _ a); [done|done|done|].
  cbn [spec_op]. rewrite (proj2 (N.ltb_ge _ _)) by done.
  intros r a' db' (now & now' & n & _ & _ & -> & ->) Hrep'. cbn [map_err].
  destruct (marker_spec _ now now' _ _ _ _ _ _ a) as [[c m] a'] eqn:Hp.
  apply wp_bind. unfold send. apply wp_modify, wp_ret. cbn [map_err].
  pose proof (HQ (mkMessageId (uuid e n)) now now' db') as H. rewrite Hp in H. by apply H.
Qed.

(** The queue operations. *)
Lemma sdk_enqueue_ok queue topic target payload headers a s (Q : result SdkError FifoMessage → _ → Prop) :
  valid_part queue → valid_part topic → topic ≠ DELETE_TOPIC → NodeId_valid target → rep a (store s) →
  (∀ id, ¬ limited e _ (OpEnqueue (mkNewFifoMessage id (mkQueueName queue) (mkTopic topic) node target
                                     payload headers)) a) →
  (∀ n now db', ticks e now →
     let p := enqueue_spec now (mkNewFifoMessage (mkMessageId (uuid e n)) (mkQueueName queue) (mkTopic topic)
                node target payload headers) a in
     rep p.2 db' → Q (Ok (proto_fifo p.1)) (mkService db' (published s))) →
  wp e (enqueue_fifo_with_headers daemon o queue topic (proto_node target) payload headers) Q s.
Proof.
  intros Hq Hv Ht Htg Hrep Hlim HQ. unfold enqueue_fifo_with_headers. apply wp_bind, wp_call.
  cbn [d_enqueue_fifo daemon service_daemon]. unfold handle_enqueue_fifo.
  cbn [er_queue er_topic er_source er_target er_payload er_headers].
  rewrite (proj2 (QueueName_new_ok _ _) (conj Hq eq_refl)). apply wp_bind, wp_of_result. cbn [map_err].
  destruct (application_topic topic Hv Ht) as [-> Happ]. apply wp_bind, wp_of_result. cbn [map_err].
  apply wp_bind, wp_of_result. rewrite Happ. apply wp_bind, wp_of_result.
  rewrite local_owned_origin by done. apply wp_bind, wp_of_result. cbn [fmap option_fmap option_map].
  rewrite (proj2 (core_node_ok _ _) (conj eq_refl (or_intror Htg))). cbn [transpose].
  apply wp_bind, wp_of_result. cbn [ok_or]. unfold NewFifoMessage_new, MessageId_new.
  apply wp_bind, wp_bind, wp_bind, wp_fresh_uuid'. intros n. apply wp_ret, wp_ret, wp_bind.
  apply (wp_store_ok (OpEnqueue _) _ a); [done|done|done|].
  intros r a' db' (now & Hnow & -> & ->) Hrep'. cbn [map_err]. apply wp_ret. cbn [map_err].
  apply wp_of_result. by apply (HQ n now).
Qed.

Lemma sdk_peek_ok queue a s (Q : result SdkError FifoMessage → _ → Prop) :
  valid_part queue → rep a (store s) → ¬ limited e _ (OpPeek (mkQueueName queue)) a →
  (∀ db', rep a db' →
     Q (match queue_of a queue with
        | m :: _ => Ok (proto_fifo m)
        | [] => Err (SdkStatus (mkRpcStatus CodeNotFound "fifo queue is empty"))
        end) (mkService db' (published s))) →
  wp e (sdk_peek_fifo daemon queue) Q s.
Proof.
  intros Hq Hrep Hlim HQ. unfold sdk_peek_fifo. apply wp_bind, wp_call.
  cbn [d_peek_fifo daemon service_daemon]. unfold handle_peek_fifo.
  rewrite (proj2 (QueueName_new_ok _ _) (conj Hq eq_refl)). apply wp_bind, wp_of_result. cbn [map_err].
  apply wp_bind, (wp_store_ok (OpPeek _) _ a); [done|done|done|].
  intros r a' db' [-> ->] Hrep'. cbn [map_err queue_str]. apply wp_bind, wp_of_result.
  specialize (HQ db' Hrep'). destruct (queue_of a queue) as [|m l]; cbn; [done|].
  apply wp_ret. cbn [map_err]. by apply wp_of_result.
Qed.

(** [ack_fifo] and [reject_fifo]. *)
Lemma sdk_settle_ok (settle : Daemon (MsgbusGrpcService DB) → string → string → M SdkError (MsgbusGrpcService DB) bool)
    (op : QueueName → MessageId → StoreOp bool) (spec : string → MessageId → AbsStore → bool * AbsStore)
    queue id a s (Q : result SdkError bool → _ → Prop) :
  (settle = sdk_ack_fifo ∧ op = OpAck ∧ spec = ack_spec) ∨
  (settle = sdk_reject_fifo ∧ op = OpReject ∧ spec = reject_spec) →
  valid_part queue → valid_part id → rep a (store s) →
  ¬ limited e _ (op (mkQueueName queue) (mkMessageId id)) a →
  (∀ db', let p := spec queue (mkMessageId id) a in
     rep p.2 db' → Q (Ok p.1) (mkService db' (published s))) →
  wp e (settle daemon queue id) Q s.
Proof.
  intros Hop Hq Hid Hrep Hlim HQ. pose proof (proj2 (QueueName_new_ok _ _) (conj Hq eq_refl)) as Hq'.
  pose proof (proj2 (MessageId_from_string_ok _ _) (conj Hid eq_refl)) as Hid'.
  destruct Hop as [(-> & -> & ->)|(-> & -> & ->)].
  - unfold sdk_ack_fifo. apply wp_call. cbn [d_ack_fifo daemon service_daemon]. unfold handle_ack_fifo, fifo_ack_parts.
    cbn [fi_queue fi_message_id]. rewrite Hq', Hid'. apply wp_bind, wp_of_result. cbn.
    apply (wp_store_ok (OpAck _ _) _ a); [done|done|done|]. intros r a' db' [-> ->] Hrep'. by apply HQ.
  - unfold sdk_reject_fifo. apply wp_call. cbn [d_reject_fifo daemon service_daemon]. unfold handle_reject_fifo, reject_fifo_parts.
    cbn [fi_queue fi_message_id]. rewrite Hq', Hid'. apply wp_bind, wp_of_result. cbn.
    apply (wp_store_ok (OpReject _ _) _ a); [done|done|done|]. intros r a' db' [-> ->] Hrep'. by apply HQ.
Qed.
End calls.

(** ** Sessions *)

Definition env_deleted (v : MessageEnvelope) : MessageEnvelope :=
  mkEnvelope (me_id v) (me_topic v) (me_origin v) (me_head_id v) (me_payload v) (me_headers v)
    (me_created_at_ms v) true.

Section sessions.
Context {DB : Type} {ST : MsgbusStore DB} {JT : Json TombstoneRange} {SR : StoreRefinement DB}.
Context (lag_text : nat → string) (node : NodeId) (turns : nat → nat) (broken : RpcStatus).

Let daemon := service_daemon (DB := DB) lag_text node turns broken.

(** A client publishes, looks, deletes and looks again. *)
Definition log_session (o : option ProtoNodeId) (topic : string) (payload : bytes)
    (headers : gmap string string)
    : M SdkError (MsgbusGrpcService DB)
        (MessageEnvelope * GetHeadResponse * list MessageEnvelope * N * list MessageEnvelope) :=
  v ← publish_with_headers daemon o topic payload headers;
  h ← sdk_get_head daemon o topic None;
  before ← sdk_fetch daemon o topic None (me_head_id v) 1;
  n ← sdk_delete_range daemon o topic None (me_head_id v) (me_head_id v);
  after ← sdk_fetch daemon o topic None (me_head_id v) 1;
  mret (v, h, before, n, after).

(** A producer enqueues, a consumer takes, gives back and takes again. *)
Definition fifo_session (o : option ProtoNodeId) (queue topic : string) (target : NodeId) (payload : bytes)
    (headers : gmap string string)
    : M SdkError (MsgbusGrpcService DB)
        (FifoMessage * FifoMessage * bool * FifoMessage * bool * result SdkError FifoMessage) :=
  m ← enqueue_fifo_with_headers daemon o queue topic (proto_node target) payload headers;
  first ← sdk_peek_fifo daemon queue;
  rejected ← sdk_reject_fifo daemon queue (fm_id first);
  second ← sdk_peek_fifo daemon queue;
  acked ← sdk_ack_fifo daemon queue (fm_id second);
  last ← try (sdk_peek_fifo daemon queue);
  mret (m, first, rejected, second, acked, last).
End sessions.

(** A page that starts at the last entry. *)
Lemma fetch_last a t o n limit :
  wf a → (1 ≤ n)%N → log_head (log_of a (key_of t o)) = n →
  ∃ m, last (log_of a (key_of t o)) = Some m ∧ fetch_spec (mkFetchQuery t o (N.max n 1) limit) a = [m].
Proof.
  intros Hwf H1 Hn. rewrite fetch_spec_page by done. cbn [fq_topic fq_origin fq_from_head_id fq_limit].
  unfold log_head in Hn. destruct (log_of a (key_of t o)) as [|x l] eqn:Hl using rev_ind.
  { simpl in Hn. lia. }
  exists x. rewrite last_snoc. split; [done|].
  rewrite length_app in Hn. simpl in Hn. replace (N.to_nat (N.max n 1) - 1)%nat with (length l) by lia.
  rewrite drop_app_length. pose proof (page_limit_pos limit). by rewrite take_ge by (simpl; lia).
Qed.

Lemma sdk_fetch_last `{SR : StoreRefinement DB} lag_text node turns broken e o topic n limit a (s : MsgbusGrpcService DB) m
    (Q : result SdkError (list MessageEnvelope) → MsgbusGrpcService DB → Prop) :
  let k := (topic, NodeId.key node) in
  no_faults e → (∀ A (op : StoreOp A) x, ¬ limited e A op x) → local_origin node o → valid_part topic →
  rep a (store s) → (1 ≤ n)%N → is_u64 n → is_u32 limit → log_head (log_of a k) = n → last (log_of a k) = Some m →
  (∀ db', rep a db' → Q (Ok [proto_message m]) (mkService db' (published s))) →
  wp e (sdk_fetch (service_daemon lag_text node turns broken) o topic None n limit) Q s.
Proof.
  intros k Hnf Hlim Ho Hv Hrep H1 Hu Hl Hhead Hlast HQ.
  apply (sdk_fetch_ok lag_text node turns broken e Hnf o Ho topic n limit a); try done.
  intros db' Hrep'. destruct (fetch_last a (mkTopic topic) node n limit) as (y & Hy & ->);
    [by eapply rep_wf|done|done|].
  change (key_of (mkTopic topic) node) with k in Hy. assert (y = m) as -> by congruence. by apply HQ.
Qed.

(** Deleting the last entry of a log, when it is live. *)
Lemma delete_last `{!Json TombstoneRange} id now now' t o mt mo a l m :
  let k := key_of t o in let n := log_head (log_of a k) in
  let p := marker_spec id now now' t o n n mt mo a in
  wf a → log_of a k = l ++ [m] → sm_deleted m = false → key_of mt mo ≠ k →
  p.1.1 = 1%N ∧ log_of p.2 k = l ++ [set_deleted true m].
Proof.
  intros k n p Hwf Hl Hd Hk.
  assert (sm_head_id m = n) as Hm.
  { assert (log_of a k !! length l = Some m) as Hi by (by rewrite Hl, lookup_app_r, Nat.sub_diag by lia).
    apply (wf_entry _ Hwf) in Hi as [-> _]. unfold n, log_head. rewrite Hl, length_app. simpl. lia. }
  assert (in_range n n (sm_head_id m) = true) as Hr by (rewrite Hm; apply in_range_iff; lia).
  assert (∀ x, x ∈ l → in_range n n (sm_head_id x) = false) as Hout.
  { intros x (i & Hi)%list_elem_of_lookup. pose proof (lookup_lt_Some _ _ _ Hi).
    assert (log_of a k !! i = Some x) as Hai by (by rewrite Hl, lookup_app_l).
    apply (wf_entry _ Hwf) in Hai as [Hh _]. apply not_true_iff_false. rewrite in_range_iff.
    unfold n, log_head. rewrite Hl, length_app. simpl. lia. }
  split.
  - unfold p, marker_spec, tombstone_spec. cbn [fst]. fold k. rewrite Hl, filter_app, length_app.
    rewrite (filter_cons_True _ m) by (unfold newly_deleted; by rewrite Hr, Hd).
    destruct (filter _ l) as [|x l'] eqn:Hf; [done|]. exfalso.
    assert (x ∈ filter (λ m, newly_deleted n n m = true) l) as Hx by (rewrite Hf; set_solver).
    apply list_elem_of_filter in Hx as [Hdx Hx]. unfold newly_deleted in Hdx. by rewrite Hout in Hdx.
  - assert (log_of p.2 k = mark_range n n <$> log_of a k) as ->.
    { unfold p, marker_spec, append_spec. cbn [snd nm_topic nm_origin marker_message].
      rewrite log_of_set_log, decide_False by done. unfold tombstone_spec. cbn [snd]. fold k.
      by rewrite log_of_set_tombs, log_of_set_log, decide_True. }
    rewrite Hl, fmap_app. cbn. f_equal; [|unfold mark_range; by rewrite Hr].
    transitivity (Datatypes.id <$> l); [|apply list_fmap_id]. apply list_fmap_ext. intros i x Hx. unfold mark_range.
    by rewrite Hout by (by apply list_elem_of_lookup_2 in Hx).
Qed.

(** What an append stores when nothing deletes its number in advance. *)
Lemma append_next id t o payload headers now a :
  let k := key_of t o in let n := (log_head (log_of a k) + 1)%N in
  let m := mkStoredMessage id t o n payload headers now false in
  (n ≤ u64_max)%N → covered (tombs_of a k) n = false →
  append_spec now (mkNewMessage id t o payload headers) a = (m, set_log k (log_of a k ++ [m]) a).
Proof.
  intros k n m Hn Hcov. unfold append_spec. cbn [nm_topic nm_origin nm_id nm_payload nm_headers]. fold k.
  rewrite u64_saturating_succ by (unfold n in *; lia). fold n.
  unfold mark. change (msg_key _) with k. cbn [sm_head_id]. rewrite Hcov. unfold n. by rewrite log_put_snoc.
Qed.

(** The client library against the service.  With a valid application
    topic, the node's own origin, no failing store call and nothing deleting the
    next number in advance, a client that publishes, asks for the head, fetches
    the entry, deletes it and fetches it again sees: its message with its payload
    and headers under the number after the old head; that number as the head; the
    very envelope it was given; one deletion; and the same envelope marked
    deleted. *)
Theorem sdk_log_session {DB} `{SR : StoreRefinement DB} lag_text node turns broken e o topic payload headers a
    (s : MsgbusGrpcService DB) :
  let k := (topic, NodeId.key node) in
  let n := (log_head (log_of a k) + 1)%N in
  no_faults e → (∀ A (op : StoreOp A) x, ¬ limited e A op x) → local_origin node o →
  valid_part topic → topic ≠ DELETE_TOPIC → rep a (store s) →
  (n ≤ u64_max)%N → covered (tombs_of a k) n = false →
  wp e (log_session lag_text node turns broken o topic payload headers) (λ r s', ∃ id now,
    let v := mkEnvelope id topic (Some (proto_node node)) n payload headers now false in
    r = Ok (v, mkGetHeadResponse n true, [v], 1%N, [env_deleted v])) s.
Proof.
  intros k n Hnf Hlim Ho Hv Ht Hrep Hn Hcov. pose proof (rep_wf _ _ Hrep) as Hwf. unfold log_session.
  apply wp_bind, (sdk_publish_ok lag_text node turns broken e Hnf o Ho topic payload headers a); try done.
  intros id now db1 Hnow p Hrep1.
  set (m := mkStoredMessage id (mkTopic topic) node n payload headers now false).
  assert (p = (m, set_log k (log_of a k ++ [m]) a)) as Hp by (by apply append_next).
  rewrite Hp in Hrep1 |- *. clear p Hp. cbn [fst snd] in *. set (a1 := set_log k (log_of a k ++ [m]) a) in *.
  assert (log_of a1 k = log_of a k ++ [m]) as Hlog1 by (unfold a1; by rewrite log_of_set_log, decide_True).
  apply wp_bind, (sdk_get_head_ok lag_text node turns broken e Hnf o Ho topic a1); try done.
  intros db2 Hrep2 h.
  assert (log_head (log_of a1 k) = n) as Hn1 by (rewrite Hlog1; unfold log_head, n, log_head; rewrite length_app; simpl; lia).
  assert (h = Some n) as ->.
  { unfold h, head_spec. change (key_of (mkTopic topic) node) with k. rewrite Hn1.
    destruct (N.eqb_spec n 0); [unfold n in *; lia|done]. }
  cbn [default from_option]. rewrite bool_decide_true by eauto.
  assert (is_u64 n) as Hu by done. assert (1 ≤ n)%N as H1 by (unfold n; lia).
  cbn [me_head_id proto_message sm_head_id m].
  apply wp_bind, (sdk_fetch_last lag_text node turns broken e o topic n 1 a1 _ m); try done;
    [by fold k; rewrite Hlog1, last_snoc|]. intros db3 Hrep3.
  apply wp_bind, (sdk_delete_range_ok lag_text node turns broken e Hnf o Ho topic n n a1); try done.
  intros id' now1 now2 db4 p Hrep4.
  destruct (delete_last id' now1 now2 (mkTopic topic) node (mkTopic DELETE_TOPIC) node a1 (log_of a k) m)
    as (Hc & Hlog2); [by eapply rep_wf|done|done|by intros [= Heq]; apply Ht|].
  change (key_of (mkTopic topic) node) with k in Hc, Hlog2. rewrite Hn1 in Hc, Hlog2. fold p in Hc, Hlog2.
  assert (log_head (log_of p.2 k) = n) as Hh.
  { rewrite Hlog2. unfold log_head, n, log_head. rewrite length_app. simpl. lia. }
  assert (last (log_of p.2 k) = Some (set_deleted true m)) as Hlast by (by rewrite Hlog2, last_snoc).
  rewrite Hc. apply wp_bind, (sdk_fetch_last lag_text node turns broken e o topic n 1 p.2 _ (set_deleted true m)); try done.
  intros db5 Hrep5. apply wp_ret. by exists (message_id_str id), now.
Qed.

(** A connection that breaks. *)
Definition gone : RpcStatus := mkRpcStatus Unavailable "connection reset".

Definition greeting : gmap string string := {["lang" := "en"]}.

Lemma sdk_log_session_witness :
  wp env0 (log_session (DB := RedbStore GTable) lag0 node_a (λ _, 1%nat) gone None "events" [Byte.x01] greeting)
    (λ r s', ∃ id now,
      let v := mkEnvelope id "events" (Some (proto_node node_a)) 1 [Byte.x01] greeting now false in
      r = Ok (v, mkGetHeadResponse 1 true, [v], 1%N, [env_deleted v])) service0.
Proof.
  apply (sdk_log_session (SR := redb_refinement) lag0 node_a (λ _, 1%nat) gone env0 None "events" [Byte.x01]
    greeting abs_empty service0);
    [apply env0_no_faults | intros; apply redb_unlimited | by left | by apply (validate_part_ok "topic") | done
    | apply empty_rep | done | done].
Defined.

(** C24: the queue operations of the client library against the service.  On an
    empty queue, a message that is enqueued is the one peeked; rejecting it puts
    it back with one more attempt; acknowledging it removes it; and the queue is
    then reported empty. *)
Theorem sdk_fifo_session {DB} `{SR : StoreRefinement DB} lag_text node turns broken e o queue topic target
    payload headers a (s : MsgbusGrpcService DB) :
  let n := u64_saturating_add (seq_of a queue) 1 in
  no_faults e → (∀ A (op : StoreOp A) x, ¬ limited e A op x) → (∀ i, valid_part (uuid e i)) →
  local_origin node o → valid_part queue → valid_part topic → topic ≠ DELETE_TOPIC → NodeId_valid target →
  rep a (store s) → queue_of a queue = [] →
  wp e (fifo_session lag_text node turns broken o queue topic target payload headers) (λ r s', ∃ id now,
    let v attempts := mkFifoMessage id queue topic (Some (proto_node node)) (Some (proto_node target))
                        payload headers now n attempts in
    r = Ok (v 0%N, v 0%N, true, v 1%N, true,
            Err (SdkStatus (mkRpcStatus CodeNotFound "fifo queue is empty")))) s.
Proof.
  intros n Hnf Hlim Huuid Ho Hq Hv Ht Htg Hrep Hempty. unfold fifo_session.
  apply wp_bind, (sdk_enqueue_ok lag_text node turns broken e Hnf o Ho queue topic target payload headers a); try done.
  intros i now db1 Hnow p Hrep1.
  set (f attempts := mkStoredFifoMessage (mkMessageId (uuid e i)) (mkQueueName queue) (mkTopic topic) node target
                       payload headers now n attempts).
  assert (p = (f 0%N, set_queue queue n [f 0%N] a)) as ->.
  { unfold p, enqueue_spec. cbn [nf_queue queue_str nf_id nf_topic nf_source nf_target nf_payload nf_headers].
    by rewrite Hempty. }
  cbn [fst snd] in *. set (a1 := set_queue queue n [f 0%N] a) in *.
  assert (queue_of a1 queue = [f 0%N] ∧ seq_of a1 queue = n) as [Hq1 Hs1].
  { unfold a1. by rewrite queue_of_set_queue, seq_of_set_queue, !decide_True. }
  apply wp_bind, (sdk_peek_ok lag_text node turns broken e Hnf queue a1); try done.
  intros db2 Hrep2. rewrite Hq1.
  apply wp_bind, (sdk_settle_ok lag_text node turns broken e Hnf sdk_reject_fifo OpReject reject_spec queue (uuid e i) a1);
    try done; [by right|]. intros db3. unfold reject_spec. rewrite Hq1, Hs1. cbn [sf_id f].
  rewrite bool_decide_true by done. cbn [fst snd]. intros Hrep3.
  set (a2 := set_queue queue n [set_attempts _ (f 0%N)] a1) in *.
  assert (queue_of a2 queue = [f 1%N] ∧ seq_of a2 queue = n) as [Hq2 Hs2].
  { unfold a2. by rewrite queue_of_set_queue, seq_of_set_queue, !decide_True. }
  apply wp_bind, (sdk_peek_ok lag_text node turns broken e Hnf queue a2); try done.
  intros db4 Hrep4. rewrite Hq2.
  apply wp_bind, (sdk_settle_ok lag_text node turns broken e Hnf sdk_ack_fifo OpAck ack_spec queue (uuid e i) a2);
    try done; [by left|]. intros db5. unfold ack_spec. rewrite Hq2, Hs2. cbn [sf_id f].
  rewrite bool_decide_true by done. cbn [fst snd]. intros Hrep5.
  apply wp_bind, wp_try, (sdk_peek_ok lag_text node turns broken e Hnf queue (set_queue queue n [] a2)); try done.
  intros db6 Hrep6. rewrite queue_of_set_queue, decide_True by done. apply wp_ret. by exists (uuid e i), now.
Qed.

Definition env_ids : Env := mkEnv (λ t, Some (N.of_nat t)) (λ _, "id") (λ _, None).

Lemma sdk_fifo_session_witness :
  wp env_ids (fifo_session (DB := RedbStore GTable) lag0 node_a (λ _, 1%nat) gone None "jobs" "events" node_b
                [Byte.x01] greeting) (λ r s', ∃ id now,
    let v attempts := mkFifoMessage id "jobs" "events" (Some (proto_node node_a)) (Some (proto_node node_b))
                        [Byte.x01] greeting now 1 attempts in
    r = Ok (v 0%N, v 0%N, true, v 1%N, true,
            Err (SdkStatus (mkRpcStatus CodeNotFound "fifo queue is empty")))) service0.
Proof.
  apply (sdk_fifo_session (SR := redb_refinement) lag0 node_a (λ _, 1%nat) gone env_ids None "jobs" "events" node_b
    [Byte.x01] greeting abs_empty service0);
    [by intros t | intros; apply redb_unlimited | intros i; by apply (validate_part_ok "message id")
    | by left | by apply (validate_part_ok "queue") | by apply (validate_part_ok "topic") | done
    | by apply validate_ok | apply empty_rep | done].
Defined.

(** ** The reconnecting subscription *)

(** A task whose receiver has nothing to read sends its replay, one message a
    turn. *)
Lemma replay_turns lag_text ch n t :
  running t = true → live t = length ch →
  sent (task (sys_run lag_text (mkSys ch t) (repeat TaskRuns n))) = sent t ++ (response <$> take n (replay t)).
Proof.
  unfold sys_run. revert t. induction n as [|n IH]; intros t Hrun Hlive; [by rewrite app_nil_r|].
  cbn [repeat fold_left sys_step channel task]. destruct (replay t) as [|m rest] eqn:Hreplay.
  - assert (task_step lag_text ch t = t) as ->.
    { unfold task_step. rewrite Hrun, Hreplay, Hlive, Nat.sub_diag. cbn. by rewrite lookup_ge_None_2 by lia. }
    rewrite IH, Hreplay by done. by rewrite take_nil.
  - rewrite IH; unfold task_step; rewrite Hrun, Hreplay; [|done..]. cbn. by rewrite <- app_assoc.
Qed.

Section reconnect.
Context {DB : Type} {ST : MsgbusStore DB} {JT : Json TombstoneRange} {SR : StoreRefinement DB}.
Context (lag_text : nat → string) (node : NodeId) (turns : nat → nat) (broken : RpcStatus).
Context (e : Env) (Hnf : no_faults e) (a : AbsStore) (topic : string) (o : option ProtoNodeId) (origin : NodeId).
Context (Ho : request_origin node o = Ok origin) (Hv : valid_part topic).
Context (Hlim : ∀ A (op : StoreOp A) x, ¬ limited e A op x) (Hturns : ∀ t, (1 ≤ turns t)%nat).

(** The stream the service opens: the requested page, as far as the connection
    lasts. *)
Lemma served_stream_page from limit (s : MsgbusGrpcService DB) (Q : result RpcStatus Items → _ → Prop) :
  let replay := fetch_spec (mkFetchQuery (mkTopic topic) origin (N.max from 1)
                  (if (limit =? 0)%N then DEFAULT_REPLAY_LIMIT else limit)) a in
  is_u64 from → is_u32 limit → rep a (store s) →
  (∀ n db', (1 ≤ n)%nat → rep a db' →
     Q (Ok ((item <$> (proto_message <$> take n replay)) ++ [Err broken])) (mkService db' (published s))) →
  wp e (served_stream lag_text node turns broken (mkSubscribeRequest topic o from limit)) Q s.
Proof.
  intros replay Hf Hl Hrep HQ t. assert (wp e (served_for lag_text node broken (turns t)
    (mkSubscribeRequest topic o from limit)) Q s) as H; [|exact (H t)].
  pose proof (Hturns t) as Hn. revert Hn. generalize (turns t) as n. intros n Hn.
  unfold served_for. apply wp_bind, wp_map_err. unfold subscribe.
  cbn [sr_topic sr_origin sr_from_head_id sr_replay_limit].
  rewrite (proj2 (Topic_new_ok _ _) (conj Hv eq_refl)). apply wp_bind, wp_of_result. cbn [map_err].
  apply wp_bind, wp_of_result. rewrite Ho. apply wp_bind, wp_get_state. apply wp_bind.
  apply (wp_store_ok e Hnf (OpFetch _) _ a); [|done|done|].
  { split; [by apply max_1_u64|]. cbn. by case_match. }
  intros r a' db' [-> ->] Hrep'. cbn [map_err]. apply wp_ret. cbn [map_err].
  apply wp_bind, wp_get_state. apply wp_ret. rewrite replay_turns by done. cbn [app sent task_start replay ss_replay].
  rewrite <- !list_fmap_compose. specialize (HQ n db' Hn Hrep'). by rewrite <- !list_fmap_compose in HQ.
Qed.

(** Asked for any number of the log, the service opens a stream of its entries
    from there. *)
Lemma service_responsive limit :
  let log := log_of a (topic, NodeId.key origin) in
  is_u32 limit → wf a → retryable_status (status_code broken) = true →
  (N.of_nat (length log) ≤ u64_max)%N →
  responsive (service_daemon lag_text node turns broken) (λ s, rep a (store s)) (λ v, v ∈ proto_message <$> log)
    e topic o limit 0 (length log).
Proof.
  intros log Hl Hwf Hretry Hmax n t s Hn Hrep. cbn [opens d_subscribe service_daemon].
  assert (wp e (served_stream lag_text node turns broken (mkSubscribeRequest topic o (N.of_nat n) limit))
    (λ r s', ∃ items, r = Ok items ∧ rep a (store s') ∧ ∃ m rest, items = item m :: rest ∧
       stream_from (λ v, v ∈ proto_message <$> log) n items) s) as H.
  2: { specialize (H t). destruct (served_stream _ _ _ _ _ _ _ _) as [[r t'] s']. destruct H as (items & -> & H).
       cbn [sr_from_head_id]. by rewrite Nat2N.id. }
  apply served_stream_page; [unfold is_u64; lia|done|done|]. intros k db' Hk Hrep'.
  eexists. split; [done|]. split; [done|]. rewrite N.max_l by lia.
  set (limit' := if (limit =? 0)%N then _ else _). set (q := mkFetchQuery _ _ _ limit').
  pose proof (fetch_numbers q a Hwf ltac:(cbn; lia)) as Hnum. cbn [fq_from_head_id fq_limit fq_topic fq_origin q] in Hnum.
  change (key_of (mkTopic topic) origin) with (topic, NodeId.key origin) in Hnum. fold log in Hnum.
  rewrite Nat2N.id in Hnum. pose proof (page_limit_pos limit').
  apply (f_equal (take k)) in Hnum. rewrite <- fmap_take, take_nseq in Hnum.
  destruct (take k (fetch_spec q a)) as [|m rest] eqn:Hpage.
  { apply (f_equal length) in Hnum. unfold nseq in Hnum. rewrite !length_fmap, length_seq in Hnum. simpl in Hnum. lia. }
  eexists _, _. split; [done|]. rewrite <- Hpage in Hnum |- *. exists (proto_message <$> take k (fetch_spec q a)), [Err broken].
  split; [done|]. split; [|split; [|by right; eexists _, _]].
  - rewrite <- list_fmap_compose. etrans; [exact Hnum|]. f_equal.
    apply (f_equal length) in Hnum. unfold nseq in Hnum. rewrite !length_fmap, length_seq in Hnum.
    rewrite length_fmap. by rewrite Hnum.
  - apply Forall_fmap, Forall_take, Forall_forall. intros x Hx. cbn. apply list_elem_of_fmap_2.
    by apply fetch_spec_key in Hx.
Qed.
End reconnect.

(** Numbers identify entries. *)
Lemma entries_by_number a t o l from k :
  let log := log_of a (key_of t o) in
  wf a → Forall (λ v, v ∈ proto_message <$> log) l → me_head_id <$> l = nseq from k → (1 ≤ from)%nat →
  l = proto_message <$> take k (drop (from - 1) log).
Proof.
  intros log Hwf Hall Hnum Hfrom. revert from k Hnum Hfrom. induction Hall as [|v l Hv Hall IH]; intros from k Hnum Hfrom.
  { by destruct k. }
  destruct k as [|k]; [done|]. unfold nseq in Hnum. csimpl in Hnum. injection Hnum as Hn Hnum.
  apply list_elem_of_fmap in Hv as (m & -> & (i & Hi)%list_elem_of_lookup).
  pose proof Hi as [Hh _]%(wf_entry _ Hwf). cbn in Hn. assert (i = from - 1)%nat as -> by lia.
  rewrite (drop_S _ m) by done. csimpl. f_equal. rewrite (IH (S from) k Hnum) by lia.
  by replace (S (from - 1)) with (S from - 1)%nat by lia.
Qed.

(** C22: the reconnecting subscription against the service.  While the log does
    not change, whatever the replay limit and however short the connections last
    (each at least one turn of the task, and lost with a retryable error), the
    client receives exactly the entries of the log from the requested number on,
    as stored, each once and in order, in two rounds per message. *)
Theorem sdk_reconnecting_reads_log {DB} `{SR : StoreRefinement DB} lag_text node turns broken e fuel k
    default_origin topic options origin a (s : MsgbusGrpcService DB) :
  let log := log_of a (topic, NodeId.key origin) in
  let from := N.to_nat (N.max (so_from_head_id options) 1) in
  no_faults e → (∀ A (op : StoreOp A) x, ¬ limited e A op x) →
  request_origin node (or_default default_origin (so_origin options)) = Ok origin → valid_part topic →
  (∀ t, (1 ≤ turns t)%nat) → retryable_status (status_code broken) = true →
  is_u32 (so_replay_limit options) → rep a (store s) →
  (from + k ≤ length log + 1)%nat → (N.of_nat (length log) < u64_max)%N → (1 < fuel)%nat →
  wp e (receive (service_daemon lag_text node turns broken) fuel k)
    (λ r _, r = Ok (Some (proto_message <$> take k (drop (from - 1) log))))
    (subscribe_reconnecting_with_options default_origin topic options, s).
Proof.
  intros log from Hnf Hlim Ho Hv Hturns Hretry Hl Hrep Hk Hmax Hfuel. pose proof (rep_wf _ _ Hrep) as Hwf.
  pose proof (service_responsive lag_text node turns broken e Hnf a topic _ origin Ho Hv Hlim Hturns
    (so_replay_limit options) Hl Hwf Hretry ltac:(fold log; lia)) as Hr.
  eapply wp_mono; [apply (receive_expected _ _ _ _ _ _ _ _ _ Hr Hmax fuel k from); [|unfold from; lia|done|lia]|].
  - do 3 (split; [done|]). split; [cbn; unfold from; lia|done].
  - intros r s' (l & -> & Hnum & Hall & _). do 2 f_equal.
    apply (entries_by_number a (mkTopic topic) origin l from k); [done|done|done|unfold from; lia].
Qed.

(** A daemon whose log has two entries, read with a replay limit of one. *)
Definition entry1 : StoredMessage := mkStoredMessage (mkMessageId "m1") topic_events node_a 1 [Byte.x01] ∅ 7 false.
Definition entry2 : StoredMessage := mkStoredMessage (mkMessageId "m2") topic_events node_a 2 [Byte.x02] ∅ 8 false.
Definition two_entries : AbsStore := set_log (msg_key entry1) [entry1; entry2] abs_empty.
Definition service2 : MsgbusGrpcService (RedbStore GTable) :=
  service_new (redb_put_replicated_message entry2 env0 0 (redb_put_replicated_message entry1 env0 0 empty_db).2).2.

Lemma two_entries_rep : rep (StoreRefinement := redb_refinement) two_entries (store service2).
Proof.
  assert (op_typed (OpPutReplicated entry2)) as Hty by done.
  pose proof (redb_answers (T := GTable) _ env0 _ _ env0_no_faults Hty
    (put_first_rep entry1 eq_refl ltac:(done)) 0) as H.
  cbn [run_op] in H. change (put_replicated_message entry2)
    with (redb_put_replicated_message (T := GTable) entry2) in H.
  unfold service2. cbn [store service_new].
  destruct (redb_put_replicated_message entry2 env0 0 _) as [[r t] db'].
  destruct H as (a' & Hs & Hrep). cbn [spec_op] in Hs.
  assert ((put_replicated_spec entry2 (set_log (msg_key entry1) [entry1] abs_empty)).2 = two_entries) as <-
    by (by vm_compute).
  rewrite <- Hs. exact Hrep.
Qed.

Lemma sdk_reconnecting_reads_log_witness :
  wp env0 (receive (service_daemon lag0 node_a (λ _, 1%nat) gone) 2 2)
    (λ r _, r = Ok (Some [proto_message entry1; proto_message entry2]))
    (subscribe_reconnecting_with_options None "events" (mkSubscribeOptions None 0 1 250), service2).
Proof.
  apply (sdk_reconnecting_reads_log (SR := redb_refinement) lag0 node_a (λ _, 1%nat) gone env0 2 2 None "events"
    (mkSubscribeOptions None 0 1 250) node_a two_entries service2);
    [apply env0_no_faults | intros; apply redb_unlimited | done | by apply (validate_part_ok "topic")
    | intros; apply le_n | done | done | apply two_entries_rep | vm_compute; apply le_n | done | apply le_n].
Defined.
