(* ===== verification/Text.v ===== *)
(** * Text: parsing and lossy decoding

    The standard library's [str::parse::<u64>] and [String::from_utf8_lossy],
    which the probe program uses: the first is the inverse of printing, the
    second the identity on well-formed UTF-8. *)

From Stdlib Require Import Ascii String NArith Lia.
From stdpp Require Import base strings list sets.
From S2P Require Import Prelude Strings Core.

(** ** [str::parse::<u64>] *)

Definition to_digit (c : ascii) : option N :=
  let n := N_of_ascii c in
  if (48 <=? n)%N && (n <=? 57)%N then Some (n - 48)%N else None.

(** The digit loop: [checked_mul(10)], then [checked_add(digit)]. *)
Fixpoint parse_digits (s : string) (acc : N) : option N :=
  match s with
  | EmptyString => Some acc
  | String c s' =>
      d ← to_digit c;
      acc ← (if (acc * 10 <=? u64_max)%N then Some (acc * 10)%N else None);
      acc ← (if (acc + d <=? u64_max)%N then Some (acc + d)%N else None);
      parse_digits s' acc
  end.

(** An optional [+], then at least one digit. *)
Definition parse_u64 (s : string) : option N :=
  match s with
  | EmptyString => None
  | String c s' =>
      if bool_decide (c = "+"%char)
      then if is_empty s' then None else parse_digits s' 0
      else parse_digits s 0
  end.

Lemma parse_digits_bound s acc n : is_u64 acc → parse_digits s acc = Some n → is_u64 n.
Proof.
  revert acc. induction s as [|c s IH]; intros acc Hacc; simpl; [by intros [= <-]|].
  destruct (to_digit c) as [d|]; simpl; [|done].
  destruct (acc * 10 <=? u64_max)%N; simpl; [|done].
  destruct (N.leb_spec (acc * 10 + d) u64_max); simpl; [|done]. by apply IH.
Qed.

Lemma parse_u64_bound s n : parse_u64 s = Some n → is_u64 n.
Proof.
  unfold parse_u64. destruct s as [|c s]; [done|].
  destruct (bool_decide _); [destruct (is_empty s); [done|]|]; by apply parse_digits_bound.
Qed.

Lemma to_digit_digit d : (d < 10)%N → to_digit (digit d) = Some d.
Proof.
  intros Hd. unfold to_digit, digit. rewrite N_ascii_embedding by lia.
  rewrite !(proj2 (N.leb_le _ _)) by lia. simpl. f_equal. lia.
Qed.

Lemma parse_digits_digit d rest acc :
  (d < 10)%N → is_u64 (acc * 10 + d) →
  parse_digits (String (digit d) rest) acc = parse_digits rest (acc * 10 + d).
Proof.
  intros Hd Hu. unfold is_u64 in Hu. cbn [parse_digits]. rewrite to_digit_digit by done.
  cbn [mbind option_bind]. rewrite (proj2 (N.leb_le _ _)) by lia. cbn [mbind option_bind].
  by rewrite (proj2 (N.leb_le _ _)) by lia.
Qed.

(** Reading the digits of [n] in front of [rest] continues from [n]. *)
Lemma parse_digits_dec fuel n rest :
  (n < 10 ^ N.of_nat fuel)%N → is_u64 n → (0 < fuel)%nat →
  parse_digits (dec_go fuel n rest) 0 = parse_digits rest n.
Proof.
  revert n rest. induction fuel as [|fuel IH]; intros n rest Hn Hu Hf; [lia|].
  cbn [dec_go]. pose proof (N.mod_lt n 10 ltac:(lia)) as Hm.
  destruct (N.ltb_spec n 10).
  - rewrite N.mod_small by done. by rewrite parse_digits_digit.
  - rewrite Nat2N.inj_succ, N.pow_succ_r' in Hn. pose proof (N.div_mod n 10 ltac:(lia)) as Hdm.
    assert (n / 10 < 10 ^ N.of_nat fuel)%N by (apply N.Div0.div_lt_upper_bound; lia).
    unfold is_u64 in Hu.
    destruct fuel as [|fuel]; [change (N.of_nat 0) with 0%N in *; rewrite N.pow_0_r in *; lia|].
    assert (n / 10 ≤ n)%N by (apply N.Div0.div_le_upper_bound; lia).
    rewrite IH; [|done|unfold is_u64; lia|lia].
    rewrite parse_digits_digit; [f_equal; lia|done|unfold is_u64; lia].
Qed.

Lemma dec_go_head fuel n rest : (0 < fuel)%nat → ∃ d s, (d < 10)%N ∧ dec_go fuel n rest = String (digit d) s.
Proof.
  revert n rest. induction fuel as [|fuel IH]; intros n rest Hf; [lia|]. cbn [dec_go].
  pose proof (N.mod_lt n 10 ltac:(lia)). destruct (n <? 10)%N; [by eexists _, _|].
  destruct fuel as [|fuel]; [by eexists _, _|]. apply IH. lia.
Qed.

(** Parsing what was printed. *)
Lemma parse_fmt_u64 n : is_u64 n → parse_u64 (fmt_u64 n) = Some n.
Proof.
  intros Hu. assert (parse_digits (fmt_u64 n) 0 = Some n) as H.
  { unfold fmt_u64. rewrite parse_digits_dec; [done|by apply u64_lt_pow20|done|lia]. }
  unfold parse_u64, fmt_u64 in *. destruct (dec_go_head 20 n "" ltac:(lia)) as (d & s & Hd & Heq).
  rewrite Heq in *. rewrite bool_decide_false; [done|]. intros Hp.
  pose proof (to_digit_digit d Hd) as Hdd. by rewrite Hp in Hdd.
Qed.

(** ** [String::from_utf8_lossy] *)

(** [safe_get(source, i)] on what is left of the source *)
Definition safe_get (l : bytes) : N := match l with b :: _ => Byte.to_N b | [] => 0%N end.

Definition is_cont (n : N) : bool := (N.land n 192 =? 128)%N.
Definition byte_in (lo hi n : N) : bool := (lo <=? n)%N && (n <=? hi)%N.

(** [utf8_char_width] *)
Definition utf8_char_width (b : N) : nat :=
  if (b <? 128)%N then 1
  else if byte_in 194 223 b then 2
  else if byte_in 224 239 b then 3
  else if byte_in 240 244 b then 4
  else 0.

(** The second byte of a character of three and of four bytes. *)
Definition second_of_3 (b c : N) : bool :=
  ((b =? 224)%N && byte_in 160 191 c) || (byte_in 225 236 b && byte_in 128 191 c)
  || ((b =? 237)%N && byte_in 128 159 c) || (byte_in 238 239 b && byte_in 128 191 c).
Definition second_of_4 (b c : N) : bool :=
  ((b =? 240)%N && byte_in 144 191 c) || (byte_in 241 243 b && byte_in 128 191 c)
  || ((b =? 244)%N && byte_in 128 143 c).

(** One round of the scanner: how many bytes it inspects, and whether they are a
    character. *)
Definition inspect (source : bytes) : nat * bool :=
  let byte := safe_get source in
  let at_ i := safe_get (drop i source) in
  match utf8_char_width byte with
  | 1 => (1, true)
  | 2 => if is_cont (at_ 1) then (2, true) else (1, false)
  | 3 => if negb (second_of_3 byte (at_ 1)) then (1, false)
         else if is_cont (at_ 2) then (3, true) else (2, false)
  | 4 => if negb (second_of_4 byte (at_ 1)) then (1, false)
         else if negb (is_cont (at_ 2)) then (2, false)
         else if is_cont (at_ 3) then (4, true) else (3, false)
  | _ => (1, false)
  end%nat.

(** [Utf8Chunks::next]: how far the scanner gets, and up to where the source is
    valid.  Every round inspects a byte, so the length of the source is enough
    fuel. *)
Fixpoint scan (fuel : nat) (source : bytes) (valid_up_to : nat) : nat * nat :=
  match fuel, source with
  | S fuel', _ :: _ =>
      let '(k, complete) := inspect source in
      if complete then scan fuel' (drop k source) (valid_up_to + k)
      else (valid_up_to + k, valid_up_to)%nat
  | _, _ => (valid_up_to, valid_up_to)
  end.

(** U+FFFD *)
Definition REPLACEMENT : bytes := [Byte.xef; Byte.xbf; Byte.xbd].

Fixpoint lossy (fuel : nat) (source : bytes) : bytes :=
  match fuel, source with
  | S fuel', _ :: _ =>
      let '(i, valid_up_to) := scan (length source) source 0 in
      take valid_up_to source
      ++ (if (valid_up_to <? i)%nat then REPLACEMENT else [])
      ++ lossy fuel' (drop i source)
  | _, _ => []
  end.

Definition from_utf8_lossy (v : bytes) : string := string_of_list_byte (lossy (length v) v).

(** ** Well-formed UTF-8 *)

(** The byte sequences of one code point (the Unicode standard, table 3-7). *)
Definition utf8_char (c : bytes) : bool :=
  match Byte.to_N <$> c with
  | [a] => byte_in 0 127 a
  | [a; b] => byte_in 194 223 a && byte_in 128 191 b
  | [a; b; c] =>
      (((a =? 224)%N && byte_in 160 191 b) || (byte_in 225 236 a && byte_in 128 191 b)
       || ((a =? 237)%N && byte_in 128 159 b) || (byte_in 238 239 a && byte_in 128 191 b))
      && byte_in 128 191 c
  | [a; b; c; d] =>
      (((a =? 240)%N && byte_in 144 191 b) || (byte_in 241 243 a && byte_in 128 191 b)
       || ((a =? 244)%N && byte_in 128 143 b))
      && byte_in 128 191 c && byte_in 128 191 d
  | _ => false
  end.

Definition utf8 (v : bytes) : Prop := ∃ cs, Forall (λ c, utf8_char c = true) cs ∧ v = concat cs.

Lemma is_cont_byte (b : Byte.byte) : is_cont (Byte.to_N b) = byte_in 128 191 (Byte.to_N b).
Proof. by destruct b. Qed.

Lemma byte_in_iff lo hi n : byte_in lo hi n = true ↔ (lo ≤ n ≤ hi)%N.
Proof. unfold byte_in. by rewrite andb_true_iff, !N.leb_le. Qed.

(** The width is decided by the interval of the first byte. *)
Lemma utf8_width b w lo hi :
  (w, lo, hi) ∈ [(1%nat, 0, 127); (2%nat, 194, 223); (3%nat, 224, 239); (4%nat, 240, 244)]%N →
  (lo ≤ b ≤ hi)%N → utf8_char_width b = w.
Proof.
  intros Hw Hb. unfold utf8_char_width, byte_in.
  repeat (apply elem_of_cons in Hw as [[= -> -> ->]|Hw]); [..|by apply elem_of_nil in Hw].
  all: repeat case_match; rewrite ?andb_true_iff, ?andb_false_iff, ?N.leb_le, ?N.leb_gt, ?N.ltb_lt, ?N.ltb_ge in *; lia.
Qed.

Lemma second_of_3_width b c : second_of_3 b c = true → utf8_char_width b = 3%nat.
Proof.
  unfold second_of_3. rewrite !orb_true_iff, !andb_true_iff, !byte_in_iff, !N.eqb_eq. intros H.
  apply (utf8_width b 3 224 239); [set_solver|lia].
Qed.

Lemma second_of_4_width b c : second_of_4 b c = true → utf8_char_width b = 4%nat.
Proof.
  unfold second_of_4. rewrite !orb_true_iff, !andb_true_iff, !byte_in_iff, !N.eqb_eq. intros H.
  apply (utf8_width b 4 240 244); [set_solver|lia].
Qed.

(** The scanner recognises every character. *)
Lemma inspect_char c rest : utf8_char c = true → inspect (c ++ rest) = (length c, true).
Proof.
  unfold utf8_char, inspect. intros Hc.
  destruct c as [|b0 [|b1 [|b2 [|b3 [|]]]]]; try done;
    cbn -[second_of_3 second_of_4 utf8_char_width byte_in N.eqb] in Hc |- *; rewrite ?is_cont_byte.
  - rewrite (utf8_width _ 1 0 127); [done|set_solver|by apply byte_in_iff].
  - apply andb_true_iff in Hc as [H0 ->]. rewrite (utf8_width _ 2 194 223); [done|set_solver|by apply byte_in_iff].
  - apply andb_true_iff in Hc as [H0 ->]. fold (second_of_3 (Byte.to_N b0) (Byte.to_N b1)) in H0.
    by rewrite (second_of_3_width _ _ H0), H0.
  - rewrite <- andb_assoc in Hc. apply andb_true_iff in Hc as [H0 [-> ->]%andb_true_iff].
    fold (second_of_4 (Byte.to_N b0) (Byte.to_N b1)) in H0. by rewrite (second_of_4_width _ _ H0), H0.
Qed.

Lemma scan_utf8 fuel cs n :
  Forall (λ c, utf8_char c = true) cs → (length (concat cs) ≤ fuel)%nat →
  let k := (n + length (concat cs))%nat in scan fuel (concat cs) n = (k, k).
Proof.
  intros Hcs. revert fuel n. induction Hcs as [|c cs Hc Hcs IH]; intros fuel n Hf; cbn [concat] in *.
  { cbn. rewrite Nat.add_0_r. by destruct fuel. }
  rewrite length_app in Hf |- *. destruct c as [|b c]; [done|]. destruct fuel as [|fuel]; [simpl in Hf; lia|].
  cbn [scan]. change ((b :: c) ++ concat cs) with (b :: c ++ concat cs) at 1. cbv beta iota.
  rewrite (inspect_char (b :: c)) by done. rewrite drop_app_length.
  rewrite IH by (simpl in *; lia). by rewrite Nat.add_assoc.
Qed.

Lemma scan_utf8_eq cs l :
  Forall (λ c, utf8_char c = true) cs → concat cs = l → scan (length l) l 0 = (length l, length l).
Proof. intros Hcs <-. by rewrite scan_utf8. Qed.

(** Lossy decoding of well-formed text is the text. *)
Lemma from_utf8_lossy_utf8 v : utf8 v → from_utf8_lossy v = string_of_list_byte v.
Proof.
  intros (cs & Hcs & ->). unfold from_utf8_lossy. f_equal. destruct (concat cs) as [|b l] eqn:Hl; [done|].
  change (length (b :: l)) with (S (length l)) at 1. cbn [lossy]. rewrite (scan_utf8_eq cs (b :: l)) by done.
  rewrite Nat.ltb_irrefl, firstn_all, drop_all. destruct (length l); by rewrite app_nil_r.
Qed.

Lemma ascii_utf8 (v : bytes) : Forall (λ b, byte_in 0 127 (Byte.to_N b) = true) v → utf8 v.
Proof.
  intros Hv. exists ((λ b, [b]) <$> v). split; [|by induction Hv as [|b v _ _ IH]; csimpl; congruence].
  apply Forall_fmap. eapply Forall_impl; [exact Hv|]. done.
Qed.

(** The example of the library's documentation: a truncated character becomes one
    replacement character. *)
Example lossy_hello_world :
  from_utf8_lossy (list_byte_of_string "Hello " ++ [Byte.xf0; Byte.x90; Byte.x80] ++ list_byte_of_string "World")
  = "Hello " +:+ string_of_list_byte REPLACEMENT +:+ "World".
Proof. reflexivity. Qed.
