(* ===== verification/Probe.v ===== *)
(** * Probe: the command-line clients

    Models the programs of [crates/msgbus-sdk-rust/examples]: [basic.rs], which
    publishes and fetches once, and [probe.rs], driven by environment variables,
    which connects with the client library, performs one action and prints what
    it learns.  The variables and the transport are parameters; the printed lines
    are state. *)

From Stdlib Require Import Ascii String NArith ZArith Lia.
From stdpp Require Import base strings list gmap.
From S2P Require Import Prelude Strings Core Table RedbKeys Json Concrete Spec History RedbStore RedbRep RedbRefine Redb Proto Server ServerProps Replay ServerClaims SubscribeClaims Sdk SdkClaims EndToEnd Text.

(** [Box<dyn Error>]: an error of the library, or a text. *)
Inductive ProbeError : Type :=
| ProbeSdk (err : SdkError)
| ProbeText (msg : string).

Definition fmt_bool (b : bool) : string := if b then "true" else "false".

Section probe.
Context {S : Type} (transport : string → result string (Daemon S)).

(** [std::env::var(name)], [None] when it is an error. *)
Context (var : string → option string).

(** The daemon and the lines printed. *)
Abbreviation Probe := (M ProbeError (S * list string)).

Definition println (line : string) : Probe unit := modify (λ '(d, out), (d, out ++ [line])).

(** [client.op(..).await?] *)
Definition run_client {A} (m : M SdkError S A) : Probe A :=
  zoom fst (λ d s, (d, s.2)) (map_err_m ProbeSdk m).

Definition env_or (name dflt : string) : string := default dflt (var name).

(** [std::env::var(name).ok().and_then(|value| value.parse().ok()).unwrap_or(dflt)] *)
Definition env_u64 (name : string) (dflt : N) : N := default dflt (var name ≫= parse_u64).

Definition origin_path (o : ProtoNodeId) : string :=
  p_tenant_id o +:+ "/" +:+ p_bl_name o +:+ "/" +:+ p_device_id o.

Definition message_line (m : MessageEnvelope) : string :=
  "message head_id=" +:+ fmt_u64 (me_head_id m) +:+ " deleted=" +:+ fmt_bool (me_deleted m)
  +:+ " payload=" +:+ from_utf8_lossy (me_payload m).

Definition head_line (head : ProtoTopicHead) (origin : ProtoNodeId) : string :=
  "head topic=" +:+ pth_topic head +:+ " origin=" +:+ origin_path origin
  +:+ " head_id=" +:+ fmt_u64 (pth_head_id head).

Definition sync_line (state : ProtoPeerSyncState) : string :=
  let origin := default "-" (origin_path <$> pps_origin state) in
  let last_error := if is_empty (pps_last_error state) then "-" else pps_last_error state in
  "sync peer=" +:+ pps_peer state +:+ " topic=" +:+ pps_topic state +:+ " origin=" +:+ origin
  +:+ " local_head=" +:+ fmt_u64 (pps_local_head state)
  +:+ " remote_head=" +:+ fmt_u64 (pps_remote_head state)
  +:+ " last_synced_head=" +:+ fmt_u64 (pps_last_synced_head state)
  +:+ " failures=" +:+ fmt_u64 (pps_consecutive_failures state)
  +:+ " last_error=" +:+ last_error.

Definition probe_origin : ProtoNodeId :=
  mkProtoNodeId (env_or "MSGBUS_ORIGIN_TENANT" "tenant") (env_or "MSGBUS_ORIGIN_BL" "default")
    (env_or "MSGBUS_ORIGIN_DEVICE" "device").

(** One arm of the [match] each. *)
Definition probe_publish (c : MsgbusClient S) (topic payload : string) : Probe unit :=
  message ← run_client (sdk_publish (client c) (default_origin c) topic (list_byte_of_string payload));
  println ("published head_id=" +:+ fmt_u64 (me_head_id message)).

Definition probe_fetch (c : MsgbusClient S) (topic : string) (origin : ProtoNodeId) : Probe unit :=
  messages ← run_client (sdk_fetch (client c) (default_origin c) topic (Some origin) 1 100);
  println ("fetched=" +:+ fmt_u64 (N.of_nat (length messages)));;
  for_each messages (λ message _, println (message_line message);; mret (Continue tt)) tt.

Definition probe_delete (c : MsgbusClient S) (topic : string) (origin : ProtoNodeId) : Probe unit :=
  let from := env_u64 "MSGBUS_FROM_HEAD" 1 in
  let to := env_u64 "MSGBUS_TO_HEAD" from in
  deleted ← run_client (sdk_delete_range (client c) (default_origin c) topic (Some origin) from to);
  println ("deleted=" +:+ fmt_u64 deleted).

Definition probe_list_heads (c : MsgbusClient S) : Probe unit :=
  heads ← run_client (sdk_list_heads (client c));
  for_each heads (λ head _,
    match pth_origin head with
    | None => mret (Continue tt)
    | Some origin => println (head_line head origin);; mret (Continue tt)
    end) tt.

Definition probe_list_sync (c : MsgbusClient S) : Probe unit :=
  states ← run_client (sdk_list_peer_sync_states (client c));
  for_each states (λ state _, println (sync_line state);; mret (Continue tt)) tt.

(** [match action.as_str()] *)
Definition probe_action (action topic payload : string) (origin : ProtoNodeId) (c : MsgbusClient S) : Probe unit :=
  if bool_decide (action = "publish") then probe_publish c topic payload
  else if bool_decide (action = "fetch") then probe_fetch c topic origin
  else if bool_decide (action = "delete") then probe_delete c topic origin
  else if bool_decide (action = "list-heads") then probe_list_heads c
  else if bool_decide (action = "list-sync") then probe_list_sync c
  else throw (ProbeText ("unsupported MSGBUS_ACTION: " +:+ action)).

Definition probe_main : Probe unit :=
  let endpoint := env_or "MSGBUS_ENDPOINT" "http://127.0.0.1:50051" in
  let action := env_or "MSGBUS_ACTION" "list-heads" in
  let topic := env_or "MSGBUS_TOPIC" "demo.events" in
  let payload := env_or "MSGBUS_PAYLOAD" "hello msgbus" in
  let origin := probe_origin in
  c ← of_result (map_err ProbeSdk (sdk_connect transport endpoint));
  probe_action action topic payload origin (with_default_origin c origin).

(** [basic.rs] *)
Definition basic_main : Probe unit :=
  let endpoint := env_or "MSGBUS_ENDPOINT" "http://127.0.0.1:50051" in
  c ← of_result (map_err ProbeSdk (sdk_connect transport endpoint));
  published ← run_client (sdk_publish (client c) (default_origin c) "demo.events"
                            (list_byte_of_string "hello msgbus"));
  println ("published head_id=" +:+ fmt_u64 (me_head_id published));;
  messages ← run_client (sdk_fetch (client c) (default_origin c) "demo.events" (me_origin published)
                           (me_head_id published) 10);
  println ("fetched " +:+ fmt_u64 (N.of_nat (length messages)) +:+ " message(s)").

(** ** Printing *)

Lemma wp_println e line (Q : result ProbeError unit → _ → Prop) d out :
  Q (Ok tt) (d, out ++ [line]) → wp e (println line) Q (d, out).
Proof. intros H t. apply H. Qed.

Lemma wp_run_client {A} e (m : M SdkError S A) (Q : result ProbeError A → _ → Prop) d out :
  wp e m (λ r d', Q (map_err ProbeSdk r) (d', out)) d → wp e (run_client m) Q (d, out).
Proof. intros H. by apply wp_zoom, wp_map_err. Qed.

(** A loop that prints at most one line per element. *)
Lemma wp_print_all {X} e (line : X → option string) (body : X → unit → Probe (flow unit)) l
    (Q : result ProbeError unit → _ → Prop) d out :
  (∀ x, body x tt = match line x with
                    | Some s => println s;; mret (Continue tt)
                    | None => mret (Continue tt)
                    end) →
  Q (Ok tt) (d, out ++ omap line l) → wp e (for_each l body tt) Q (d, out).
Proof.
  intros Hbody. revert out. induction l as [|x l IH]; intros out HQ; cbn.
  { apply wp_ret. by rewrite app_nil_r in HQ. }
  apply wp_bind. rewrite Hbody. cbn in HQ. destruct (line x) as [s|].
  - apply wp_bind, wp_println, wp_ret. apply IH. by rewrite <- app_assoc.
  - apply wp_ret. by apply IH.
Qed.
End probe.

Lemma omap_total {A B} (f : A → B) (l : list A) : omap (λ x, Some (f x)) l = f <$> l.
Proof. induction l as [|x l IH]; [done|]. csimpl. by rewrite IH. Qed.

(** ** Sessions against the service *)

(** The variables with some of them set. *)
Definition with_var (name value : string) (var : string → option string) : string → option string :=
  λ x, if bool_decide (x = name) then Some value else var x.

Section session.
Context {DB : Type} {ST : MsgbusStore DB} {JT : Json TombstoneRange} {SR : StoreRefinement DB}.
Context (lag_text : nat → string) (node : NodeId) (turns : nat → nat) (broken : RpcStatus).
Context (transport : string → result string (Daemon (MsgbusGrpcService DB))).
Context (e : Env) (Hnf : no_faults e) (Hlim : ∀ A (op : StoreOp A) x, ¬ limited e A op x).

Let daemon := service_daemon (DB := DB) lag_text node turns broken.
Let c := mkClient daemon (Some (proto_node node)).

Context (Hnode : NodeId_valid node) (topic : string) (Hv : valid_part topic) (Ht : topic ≠ DELETE_TOPIC).
Let k : log_key := (topic, NodeId.key node).

Implicit Types (a : AbsStore) (s : MsgbusGrpcService DB) (out : list string).

Lemma own_origin : local_origin node (Some (proto_node node)).
Proof. by right. Qed.

Lemma probe_publish_ok payload a s out (Q : result ProbeError unit → _ → Prop) :
  let n := (log_head (log_of a k) + 1)%N in
  rep a (store s) → (n ≤ u64_max)%N → covered (tombs_of a k) n = false →
  (∀ id now db' ch,
     let m := mkStoredMessage id (mkTopic topic) node n (list_byte_of_string payload) ∅ now false in
     rep (set_log k (log_of a k ++ [m]) a) db' →
     Q (Ok tt) (mkService db' ch, out ++ ["published head_id=" +:+ fmt_u64 n])) →
  wp e (probe_publish c topic payload) Q (s, out).
Proof.
  intros n Hrep Hn Hcov HQ. unfold probe_publish, sdk_publish. apply wp_bind, wp_run_client.
  apply (sdk_publish_ok lag_text node turns broken e Hnf _ own_origin topic _ ∅ a); try done.
  intros id now db' Hnow p. unfold p. rewrite (append_next id (mkTopic topic) node) by done. intros Hrep'.
  cbn [map_err]. apply wp_println. by apply (HQ id now).
Qed.

Lemma probe_fetch_ok a s out (Q : result ProbeError unit → _ → Prop) :
  let log := log_of a k in
  rep a (store s) → (length log ≤ 100)%nat →
  (∀ db', rep a db' → Q (Ok tt) (mkService db' (published s),
     out ++ ("fetched=" +:+ fmt_u64 (N.of_nat (length log))) :: (message_line <$> (proto_message <$> log)))) →
  wp e (probe_fetch c topic (proto_node node)) Q (s, out).
Proof.
  intros log Hrep Hlen HQ. unfold probe_fetch. apply wp_bind, wp_run_client.
  change (sdk_fetch (client c) (default_origin c) topic (Some (proto_node node)) 1 100)
    with (sdk_fetch daemon (Some (proto_node node)) topic None 1 100).
  apply (sdk_fetch_ok lag_text node turns broken e Hnf _ own_origin topic 1 100 a); try done.
  intros db' Hrep'. cbn [map_err]. rewrite fetch_spec_page by (by eapply rep_wf).
  cbn [fq_topic fq_origin fq_from_head_id fq_limit]. change (key_of (mkTopic topic) node) with k. fold log.
  rewrite drop_0, take_ge by done. apply wp_bind, wp_println.
  apply (wp_print_all e (λ m, Some (message_line m))); [done|].
  rewrite <- app_assoc, length_fmap. cbn.
  replace (omap (λ m, Some (message_line m)) (proto_message <$> log))
    with (message_line <$> (proto_message <$> log)) by (symmetry; apply omap_total).
  by apply HQ.
Qed.

Lemma probe_delete_last var l m a s out (Q : result ProbeError unit → _ → Prop) :
  rep a (store s) → log_of a k = l ++ [m] → sm_deleted m = false →
  env_u64 var "MSGBUS_FROM_HEAD" 1 = log_head (log_of a k) → var "MSGBUS_TO_HEAD" = None →
  (∀ a' db' ch, log_of a' k = l ++ [set_deleted true m] → rep a' db' →
     Q (Ok tt) (mkService db' ch, out ++ ["deleted=1"])) →
  wp e (probe_delete var c topic (proto_node node)) Q (s, out).
Proof.
  intros Hrep Hlog Hd Hfrom Hto HQ. unfold probe_delete. rewrite Hfrom. unfold env_u64 at 1. rewrite Hto.
  cbn [mbind option_bind default from_option]. apply wp_bind, wp_run_client.
  change (sdk_delete_range (client c) (default_origin c) topic (Some (proto_node node)))
    with (sdk_delete_range daemon (Some (proto_node node)) topic None).
  pose proof (rep_wf _ _ Hrep) as Hwf. assert (is_u64 (log_head (log_of a k))) as Hu by (by apply (wf_len _ Hwf)).
  apply (sdk_delete_range_ok lag_text node turns broken e Hnf _ own_origin topic _ _ a); try done.
  intros id now now' db' p Hrep'.
  destruct (delete_last id now now' (mkTopic topic) node (mkTopic DELETE_TOPIC) node a l m) as [Hc Hl];
    [done|done|done|by intros [= Heq]; apply Ht|]. change (key_of (mkTopic topic) node) with k in Hc, Hl. fold p in Hc, Hl.
  cbn [map_err]. rewrite Hc. apply wp_println. by eapply HQ.
Qed.
End session.

Section main.
Context {DB : Type} {ST : MsgbusStore DB} {JT : Json TombstoneRange} {SR : StoreRefinement DB}.
Context (lag_text : nat → string) (node : NodeId) (turns : nat → nat) (broken : RpcStatus).
Context (transport : string → result string (Daemon (MsgbusGrpcService DB))).

(** Publish, look, delete what was published, look again: four runs of the
    program, the third given the number the first one printed. *)
Definition probe_session (n : N) (var : string → option string)
    : M ProbeError (MsgbusGrpcService DB * list string) unit :=
  probe_main transport (with_var "MSGBUS_ACTION" "publish" var);;
  probe_main transport (with_var "MSGBUS_ACTION" "fetch" var);;
  probe_main transport (with_var "MSGBUS_FROM_HEAD" (fmt_u64 n) (with_var "MSGBUS_ACTION" "delete" var));;
  probe_main transport (with_var "MSGBUS_ACTION" "fetch" var).

Definition own_daemon (var : string → option string) : Prop :=
  transport (env_or var "MSGBUS_ENDPOINT" "http://127.0.0.1:50051") = Ok (service_daemon lag_text node turns broken) ∧
  probe_origin var = proto_node node.

Lemma wp_probe_main e var (Q : result ProbeError unit → _ → Prop) st :
  own_daemon var →
  wp e (probe_action var (env_or var "MSGBUS_ACTION" "list-heads") (env_or var "MSGBUS_TOPIC" "demo.events")
          (env_or var "MSGBUS_PAYLOAD" "hello msgbus") (proto_node node)
          (mkClient (service_daemon lag_text node turns broken) (Some (proto_node node)))) Q st →
  wp e (probe_main transport var) Q st.
Proof.
  intros [Hc Ho] H. unfold probe_main, sdk_connect. rewrite Hc, Ho. apply wp_bind, wp_of_result. exact H.
Qed.

(** C23: the probe program against the service, with the node's own identity in
    its variables.  Publishing prints the number after the head; fetching prints
    the whole log (of at most 100 entries) with the payload as it was given;
    deleting with the printed number reports one deletion; and fetching again
    prints the same lines with the last entry marked deleted. *)
Theorem probe_session_output e var a (s : MsgbusGrpcService DB) out :
  let topic := env_or var "MSGBUS_TOPIC" "demo.events" in
  let payload := env_or var "MSGBUS_PAYLOAD" "hello msgbus" in
  let log := log_of a (topic, NodeId.key node) in
  let n := (log_head log + 1)%N in
  let last deleted := "message head_id=" +:+ fmt_u64 n +:+ " deleted=" +:+ deleted +:+ " payload=" +:+ payload in
  let fetched := ("fetched=" +:+ fmt_u64 n) :: (message_line <$> (proto_message <$> log)) in
  no_faults e → (∀ A (op : StoreOp A) x, ¬ limited e A op x) → own_daemon var → var "MSGBUS_TO_HEAD" = None →
  NodeId_valid node → valid_part topic → topic ≠ DELETE_TOPIC → utf8 (list_byte_of_string payload) →
  rep a (store s) → (length log < 100)%nat → covered (tombs_of a (topic, NodeId.key node)) n = false →
  wp e (probe_session n var) (λ r s', r = Ok tt ∧
    s'.2 = out ++ ["published head_id=" +:+ fmt_u64 n] ++ fetched ++ [last "false"]
             ++ ["deleted=1"] ++ fetched ++ [last "true"]) (s, out).
Proof.
  intros topic payload log n last fetched Hnf Hlim Hown Hto Hnode Hv Ht Hutf Hrep Hlen Hcov. unfold probe_session.
  assert (n ≤ u64_max)%N as Hn by (unfold n, log_head, u64_max; fold log; lia).
  apply wp_bind, wp_probe_main; [done|].
  apply (probe_publish_ok lag_text node turns broken e Hnf Hlim Hnode topic Hv Ht payload a); [done|done|done|].
  intros id now db1 ch1 m Hrep1. fold topic in Hrep1.
  set (a1 := set_log _ _ a) in Hrep1.
  assert (log_of a1 (topic, NodeId.key node) = log ++ [m]) as Hlog1 by (unfold a1; by rewrite log_of_set_log, decide_True).
  assert (∀ d, message_line (proto_message (set_deleted d m)) = last (fmt_bool d)) as Hline.
  { intros d. unfold message_line, last.
    change (me_payload (proto_message (set_deleted d m))) with (list_byte_of_string payload). rewrite from_utf8_lossy_utf8 by done.
    by rewrite string_of_list_byte_of_string. }
  assert (∀ x, N.of_nat (length (log ++ [x])) = n) as Hcount.
  { intros x. rewrite length_app. unfold n, log_head. simpl. lia. }
  apply wp_bind, wp_probe_main; [done|].
  apply (probe_fetch_ok lag_text node turns broken e Hnf Hlim Hnode topic Hv a1); [done|rewrite Hlog1, length_app; simpl; lia|].
  intros db2 Hrep2. rewrite Hlog1, Hcount, !fmap_app.
  change (message_line <$> (proto_message <$> [m])) with [message_line (proto_message (set_deleted false m))].
  rewrite Hline. apply wp_bind, wp_probe_main; [done|].
  apply (probe_delete_last lag_text node turns broken e Hnf Hlim Hnode topic Hv Ht _ log m a1); [done|done|done| |done|].
  { rewrite Hlog1. unfold log_head. rewrite Hcount. unfold env_u64.
    change (with_var _ _ _ "MSGBUS_FROM_HEAD") with (Some (fmt_u64 n)).
    cbn [mbind option_bind]. by rewrite parse_fmt_u64. }
  intros a3 db3 ch3 Hlog3 Hrep3. apply wp_probe_main; [done|].
  apply (probe_fetch_ok lag_text node turns broken e Hnf Hlim Hnode topic Hv a3); [done|rewrite Hlog3, length_app; simpl; lia|].
  intros db4 Hrep4. rewrite Hlog3, Hcount, !fmap_app.
  change (message_line <$> (proto_message <$> [set_deleted true m])) with [message_line (proto_message (set_deleted true m))].
  rewrite Hline. split; [done|]. cbn [snd]. unfold fetched. cbn [fmt_bool]. fold log. fold n.
  rewrite <- !app_assoc. cbn [app]. rewrite <- !app_assoc. reflexivity.
Qed.

(** [list-heads] prints one line for every log that has an entry. *)
Theorem probe_list_heads_output e var a (s : MsgbusGrpcService DB) out :
  no_faults e → (∀ A (op : StoreOp A) x, ¬ limited e A op x) → own_daemon var →
  var "MSGBUS_ACTION" = None → rep a (store s) →
  wp e (probe_main transport var) (λ r s', r = Ok tt ∧ ∃ l, l ≡ₚ heads_spec a ∧
    s'.2 = out ++ ((λ h, head_line (proto_topic_head h) (proto_node (th_origin h))) <$> l)) (s, out).
Proof.
  intros Hnf Hlim Hown Hact Hrep. apply wp_probe_main; [done|]. unfold env_or at 1. rewrite Hact.
  change (probe_action var (default "list-heads" None)) with (probe_action (S := MsgbusGrpcService DB) var "list-heads").
  unfold probe_action. rewrite !bool_decide_false, bool_decide_true by done. unfold probe_list_heads, sdk_list_heads.
  apply wp_bind, wp_run_client, wp_call. cbn [d_list_heads service_daemon client]. unfold handle_list_heads. apply wp_bind.
  apply (wp_store_ok e Hnf OpListHeads _ a); [done|done|done|]. intros r a' db' [-> (l & -> & Hl)] Hrep'. cbn [map_err].
  apply wp_ret. cbn [map_err].
  apply (wp_print_all e (λ head, head_line head <$> pth_origin head)); [intros x; by destruct (pth_origin x)|].
  split; [done|]. exists l. split; [done|]. cbn [snd]. f_equal.
  clear. induction l as [|h l IH]; [done|]. csimpl. by rewrite IH.
Qed.

(** [basic.rs] names no origin: the daemon publishes under its own, answers with
    it, and the fetch of the entry just published returns exactly that one. *)
Theorem basic_output e var a (s : MsgbusGrpcService DB) out :
  let log := log_of a ("demo.events", NodeId.key node) in
  let n := (log_head log + 1)%N in
  no_faults e → (∀ A (op : StoreOp A) x, ¬ limited e A op x) → own_daemon var → NodeId_valid node →
  rep a (store s) → (n ≤ u64_max)%N → covered (tombs_of a ("demo.events", NodeId.key node)) n = false →
  wp e (basic_main transport var) (λ r s', r = Ok tt ∧
    s'.2 = out ++ ["published head_id=" +:+ fmt_u64 n; "fetched 1 message(s)"]) (s, out).
Proof.
  intros log n Hnf Hlim [Hc _] Hnode Hrep Hn Hcov. unfold basic_main, sdk_connect. rewrite Hc.
  assert (valid_part "demo.events") as Hv by (by apply (validate_part_ok "topic")).
  apply wp_bind, wp_of_result. cbn [map_err mbind result_bind client default_origin].
  apply wp_bind, wp_run_client.
  apply (sdk_publish_ok lag_text node turns broken e Hnf None (or_introl eq_refl) "demo.events" _ ∅ a); try done.
  intros id now db1 Hnow p. unfold p. rewrite (append_next id (mkTopic "demo.events") node) by done. intros Hrep1.
  set (m := mkStoredMessage id _ node _ _ ∅ now false) in Hrep1 |- *. cbn [fst snd map_err] in Hrep1 |- *.
  apply wp_bind, wp_println, wp_bind, wp_run_client.
  set (a1 := set_log _ _ a) in Hrep1.
  assert (log_of a1 ("demo.events", NodeId.key node) = log ++ [m]) as Hlog1
    by (unfold a1; by rewrite log_of_set_log, decide_True).
  change (sdk_fetch _ None "demo.events" _ _ 10)
    with (sdk_fetch (service_daemon (DB := DB) lag_text node turns broken) (Some (proto_node node)) "demo.events" None n 10).
  apply (sdk_fetch_last lag_text node turns broken e _ "demo.events" n 10 a1 _ m); try done.
  - by right.
  - unfold n. lia.
  - rewrite Hlog1. unfold log_head, n, log_head. rewrite length_app. simpl. lia.
  - by rewrite Hlog1, last_snoc.
  - intros db' Hrep'. cbn [map_err]. apply wp_println. split; [done|]. cbn [snd]. by rewrite <- app_assoc.
Qed.

(** The runs that fail do so before any effect: an endpoint that refuses the
    connection, and an action the program does not know. *)
Theorem probe_rejects e var (s : MsgbusGrpcService DB) out t :
  let action := env_or var "MSGBUS_ACTION" "list-heads" in
  match transport (env_or var "MSGBUS_ENDPOINT" "http://127.0.0.1:50051") with
  | Err x => probe_main transport var e t (s, out) = (Err (ProbeSdk (SdkTransport x)), t, (s, out))
  | Ok _ => action ∉ ["publish"; "fetch"; "delete"; "list-heads"; "list-sync"] →
      probe_main transport var e t (s, out) =
        (Err (ProbeText ("unsupported MSGBUS_ACTION: " +:+ action)), t, (s, out))
  end.
Proof.
  intros action. unfold probe_main, sdk_connect, mbind, M_bind.
  destruct (transport _) as [d|x]; cbn; [|done]. intros Ha. fold action. unfold probe_action.
  rewrite !bool_decide_false by set_solver. done.
Qed.
End main.

(** ** A run *)

Definition var0 (name : string) : option string := None.
Definition probe_node : NodeId := mkNodeId "tenant" "default" "device".
Definition local_daemon (endpoint : string) : result string (Daemon (MsgbusGrpcService (RedbStore GTable))) :=
  if bool_decide (endpoint = "http://127.0.0.1:50051")
  then Ok (service_daemon lag0 probe_node (λ _, 1%nat) gone) else Err "connection refused".

Lemma probe_session_output_witness :
  wp env0 (probe_session local_daemon 1 var0) (λ r s', r = Ok tt ∧
    s'.2 = ["published head_id=1"; "fetched=1"; "message head_id=1 deleted=false payload=hello msgbus";
            "deleted=1"; "fetched=1"; "message head_id=1 deleted=true payload=hello msgbus"]) (service0, []).
Proof.
  apply (probe_session_output (SR := redb_refinement) lag0 probe_node (λ _, 1%nat) gone local_daemon env0 var0
    abs_empty service0 []);
    [apply env0_no_faults | intros; apply redb_unlimited | done | done | by apply validate_ok
    | by apply (validate_part_ok "topic") | done | apply ascii_utf8; by repeat constructor
    | apply empty_rep | vm_compute; lia | done].
Defined.
