(* ===== verification/Daemon.v ===== *)
(** * Daemon: the configuration of msgbusd

    Models [crates/msgbus-server/src/main.rs]: which arguments are accepted, what
    synchronisation they give, the choice of the store, and a run of the daemon:
    delete markers are replayed before anything is served, then client requests
    and synchronisation passes work on the shared store until the shutdown
    signal.  The argument parser, the listener, signals and TLS contexts are
    libraries; reading a file is a parameter, and what the listener, the interval
    and the signal deliver is a sequence of events.  Requests and synchronisation
    passes come one after another here; their interleaving is the subject of
    [Concurrent]. *)

From Stdlib Require Import Ascii String NArith ZArith Lia.
From stdpp Require Import base strings list gmap.
From S2P Require Import Prelude Strings Core Table RedbKeys Json RedbStore SqliteStore Spec Proto Server ServerProps Sync.

Inductive StorageKind : Type := StorageRedb | StorageSqlite.

Record Args := mkArgs {
  arg_listen : string;
  arg_data : string;
  arg_storage : StorageKind;
  arg_peers : list string;
  peer_tls_ca : option string;
  peer_tls_cert : option string;
  peer_tls_key : option string;
  peer_tls_domain : option string;
  tls_cert : option string;
  tls_key : option string;
  tls_client_ca : option string;
  sync_interval_ms : N;
  sync_batch_limit : N;
  arg_tenant_id : string;
  arg_bl_name : string;
  arg_device_id : string;
}.

Definition peer_tls_config (args : Args) : result string (option PeerClientTlsConfig) :=
  match peer_tls_cert args, peer_tls_key args with
  | Some _, Some _ | None, None =>
      let config := mkPeerTls (peer_tls_ca args) (peer_tls_cert args) (peer_tls_key args)
                      (peer_tls_domain args) in
      Ok (if tls_is_enabled config then Some config else None)
  | _, _ => Err "peer TLS cert and key must be configured together"
  end.

(** What a server TLS context is made of: the identity and the client CA. *)
Record ServerTlsConfig := mkServerTls {
  identity : bytes * bytes;
  client_ca_root : option bytes;
}.

Definition server_tls_config (read : string → result string bytes) (args : Args)
    : result string (option ServerTlsConfig) :=
  match tls_cert args, tls_key args with
  | Some cert, Some key =>
      c ← read cert;
      k ← read key;
      ca ← match tls_client_ca args with
           | Some path => b ← read path; Ok (Some b)
           | None => Ok None
           end;
      Ok (Some (mkServerTls (c, k) ca))
  | None, None =>
      if bool_decide (is_Some (tls_client_ca args))
      then Err "MSGBUS_TLS_CLIENT_CA requires MSGBUS_TLS_CERT and MSGBUS_TLS_KEY"
      else Ok None
  | _, _ => Err "server TLS cert and key must be configured together"
  end.

(** [.map(PeerSpec::parse).collect::<Result<Vec<_>, _>>()] *)
Fixpoint parse_peers (l : list string) : Result (list PeerSpec) :=
  match l with
  | [] => Ok []
  | v :: l' =>
      p ← PeerSpec_parse v;
      ps ← parse_peers l';
      Ok (p :: ps)
  end.

(** [main] up to the choice of the store. *)
Definition configure (read : string → result string bytes) (args : Args)
    : result string (PeerSyncConfig * option ServerTlsConfig) :=
  node ← map_err error_to_string
           (NodeId.new (arg_tenant_id args) (arg_bl_name args) (arg_device_id args));
  peers ← map_err error_to_string (parse_peers (arg_peers args));
  peer_tls ← peer_tls_config args;
  server_tls ← server_tls_config read args;
  Ok (mkPeerSyncConfig node peers (N.max (sync_interval_ms args) 100)
        (N.max (sync_batch_limit args) 1) peer_tls, server_tls).

(** [serve] up to the listener: replay first, then the service, then the sync
    task when there are peers. *)
Definition serve {DB} `{!MsgbusStore DB, !Json TombstoneRange} (fuel : nat) (sync : PeerSyncConfig)
    : M Status DB (option (MsgbusGrpcService DB * bool)) :=
  r ← replay_control_messages fuel;
  match r with
  | None => mret None
  | Some _ =>
      db ← get_state;
      mret (Some (service_new db, sync_is_enabled sync))
  end.

(** ** A run of the daemon *)

(** What reaches the daemon while it serves.  [ListenerFails] is the error of
    [serve_with_shutdown]: the address cannot be bound, or the server breaks. *)
Inductive DaemonEvent : Type :=
| ClientRequest (r : Request)
| SyncTick
| ListenerFails (error : string)
| ShutdownSignal.

Definition is_tick (x : Env * DaemonEvent) : Prop := x.2 = SyncTick.
#[export] Instance is_tick_dec x : Decision (is_tick x).
Proof. unfold is_tick. destruct (x.2); (by left) || (by right). Defined.

(** How the process ends: with an error, normally, or still running when the
    fuel of the model is used up. *)
Abbreviation Exit := (result string (option unit)).

Section run.
Context {JT : Json TombstoneRange}.
Context (status_text : Status → string) (net : Transport) (fuel : nat).

(** [Server::tls_config]: whether the certificates make a TLS context. *)
Context (tls_config : ServerTlsConfig → result string unit).

Section store.
Context {DB : Type} {ST : MsgbusStore DB}.

(** [serve_with_shutdown]: requests are served, and the sync task, when it was
    spawned, makes a pass at every tick; a failed pass is only logged.  A failure
    of the listener or the shutdown signal ends both.  An empty rest is a process
    that is killed. *)
Fixpoint serve_events (node : NodeId) (sync : PeerSyncConfig) (syncing : bool) (t : nat)
    (evs : list (Env * DaemonEvent)) (s : MsgbusGrpcService DB) : Exit * nat * MsgbusGrpcService DB :=
  match evs with
  | [] => (Ok (Some tt), t, s)
  | (e, ClientRequest r) :: evs' =>
      let '(_, t', s') := handle node r e t s in serve_events node sync syncing t' evs' s'
  | (e, SyncTick) :: evs' =>
      if syncing then
        let '(_, t', s') := sync_once status_text net fuel sync e t s in
        serve_events node sync syncing t' evs' s'
      else serve_events node sync syncing t evs' s
  | (_, ListenerFails error) :: _ => (Err error, t, s)
  | (_, ShutdownSignal) :: _ => (Ok (Some tt), t, s)
  end.

(** When the server cannot be built the process ends with that error; the sync
    task, spawned before, may have made passes until then. *)
Definition serve_run (node : NodeId) (sync : PeerSyncConfig) (server_tls : option ServerTlsConfig)
    (e : Env) (t : nat) (evs : list (Env * DaemonEvent)) (db : DB) : Exit * nat * DB :=
  match serve fuel sync e t db with
  | (Ok (Some (s, syncing)), t', _) =>
      match transpose (tls_config <$> server_tls) with
      | Ok _ =>
          let '(r, t'', s') := serve_events node sync syncing t' evs s in (r, t'', store s')
      | Err x =>
          let '(_, t'', s') := serve_events node sync syncing t' (filter is_tick evs) s in
          (Err x, t'', store s')
      end
  | (Ok None, t', db') => (Ok None, t', db')
  | (Err x, t', db') => (Err (status_text x), t', db')
  end.

(** [Store::open(args.data)?], then [serve]. *)
Definition open_and_serve (open : M MsgbusError DB unit) (node : NodeId) (sync : PeerSyncConfig)
    (server_tls : option ServerTlsConfig) (e : Env) (t : nat) (evs : list (Env * DaemonEvent)) (db : DB)
    : Exit * nat * DB :=
  match open e t db with
  | (Ok _, t', db') => serve_run node sync server_tls e t' evs db'
  | (Err x, t', db') => (Err (error_to_string x), t', db')
  end.
End store.

Context {T : Type → Type} {OT : OrderedTable T} {B64 : Base64}.
Context {JM : Json StoredMessage} {JF : Json StoredFifoMessage} {JP : Json PeerSyncState}.
Context {SX : SqliteTexts} {JN : Json NodeId} {JH : Json (gmap string string)}.

(** The data of a node: files by their path, each of the backend that made it. *)
Inductive DataFile : Type :=
| RedbFile (db : RedbStore T)
| SqliteFile (s : SqliteStore).

Abbreviation Disk := (gmap string DataFile).

(** How an engine refuses a file that is not its own. *)
Context (foreign_file : StorageKind → string).

(** One run of the process. *)
Record Run := mkRun {
  run_args : Args;
  run_env : Env;
  run_events : list (Env * DaemonEvent);
}.

(** The file an [open] finds: none yet, its own, or one of the other engine,
    which it refuses and leaves alone. *)
Definition redb_at (path : string) (d : Disk) : option (RedbStore T) :=
  match d !! path with
  | Some (RedbFile db) => Some db
  | Some (SqliteFile _) => None
  | None => Some empty_db
  end.
Definition sqlite_at (path : string) (d : Disk) : option SqliteStore :=
  match d !! path with
  | Some (SqliteFile s) => Some s
  | Some (RedbFile _) => None
  | None => Some (mkSqlite empty_database empty_database)
  end.

(** The first engine call of an [open] makes the file; when it fails on a new
    path there is none. *)
Definition leaves_file (path : string) (d : Disk) (e : Env) (t : nat) : bool :=
  bool_decide (is_Some (d !! path)) || bool_decide (fault e t = None).

Definition daemon_main (read : string → result string bytes) (run : Run) (t : nat) (d : Disk)
    : Exit * nat * Disk :=
  let args := run_args run in
  let path := arg_data args in
  let e := run_env run in
  match configure read args with
  | Err x => (Err x, t, d)
  | Ok (sync, server_tls) =>
      match arg_storage args with
      | StorageRedb =>
          match redb_at path d with
          | None => (Err (foreign_file StorageRedb), S t, d)
          | Some db =>
              let '(r, t', db') := open_and_serve redb_open (local_node sync) sync server_tls e t
                                     (run_events run) db in
              (r, t', if leaves_file path d e t then <[path := RedbFile db']> d else d)
          end
      | StorageSqlite =>
          match sqlite_at path d with
          | None => (Err (foreign_file StorageSqlite), S t, d)
          | Some s =>
              let '(r, t', s') := open_and_serve sqlite_open (local_node sync) sync server_tls e t
                                    (run_events run) s in
              (r, t', if leaves_file path d e t then <[path := SqliteFile s']> d else d)
          end
      end
  end.

(** A node over time: one run after another on the same data. *)
Fixpoint daemon_runs (read : string → result string bytes) (runs : list Run) (t : nat) (d : Disk)
    : nat * Disk :=
  match runs with
  | [] => (t, d)
  | run :: runs' =>
      let '(_, t', d') := daemon_main read run t d in daemon_runs read runs' t' d'
  end.
End run.
Arguments DataFile T : clear implicits.
Arguments RedbFile {T} db.
Arguments SqliteFile {T} s.
Abbreviation Disk T := (gmap string (DataFile T)).

(** ** The properties *)

(** What the rest of the daemon relies on in a configuration. *)
Record config_ok (c : PeerSyncConfig) : Prop := {
  co_node : NodeId_valid (local_node c);
  co_interval : (100 ≤ interval_ms c)%N;
  co_batch : (1 ≤ batch_limit c)%N;
  co_peers : Forall (λ p, trim (endpoint p) ≠ "" ∧
    ∀ n, expected_node p = Some n → NodeId_valid n ∧ slash_free n) (peers c);
  co_tls : ∀ t, tls c = Some t → tls_is_enabled t = true ∧ (is_Some (cert t) ↔ is_Some (key t));
}.

Lemma peer_spec_ok v p :
  PeerSpec_parse v = Ok p → trim (endpoint p) ≠ "" ∧
  ∀ n, expected_node p = Some n → NodeId_valid n ∧ slash_free n.
Proof.
  unfold PeerSpec_parse. destruct (is_empty (trim v)) eqn:Hv; [done|]. apply is_empty_false in Hv.
  destruct (rsplit_once "=" v) as [[l r]|]; [|by intros [= <-]].
  destruct (is_empty (trim l)) eqn:Hl; [done|]. apply is_empty_false in Hl.
  intros (n & Hn & [= <-])%result_bind_ok. apply from_key_ok in Hn as (_ & ? & ?).
  split; [done|]. by intros n' [= <-].
Qed.

Lemma parse_peers_ok l ps :
  parse_peers l = Ok ps → Forall (λ p, trim (endpoint p) ≠ "" ∧
    ∀ n, expected_node p = Some n → NodeId_valid n ∧ slash_free n) ps.
Proof.
  revert ps. induction l as [|v l IH]; intros ps; simpl; [by intros [= <-]|].
  intros (p & Hp & H)%result_bind_ok. apply result_bind_ok in H as (ps' & Hps & [= <-]).
  constructor; [by eapply peer_spec_ok | by apply IH].
Qed.

(** C40: every configuration the daemon starts with is usable: a valid node
    identity, non-blank peer endpoints with valid pins, an interval of at least
    100 ms, a batch of at least one entry, and client TLS only when something of
    it is set, with the certificate and the key together or not at all. *)
Theorem configure_sound read args c t :
  configure read args = Ok (c, t) → config_ok c.
Proof.
  unfold configure. intros (node & Hnode & H)%result_bind_ok. apply map_err_ok in Hnode.
  apply result_bind_ok in H as (ps & Hps & H). apply map_err_ok in Hps.
  apply result_bind_ok in H as (ptls & Hptls & H). apply result_bind_ok in H as (stls & _ & [= <- <-]).
  apply NodeId_new_ok in Hnode as [-> Hv]. split; simpl; [done|lia|lia|by eapply parse_peers_ok|].
  intros tl ->. unfold peer_tls_config in Hptls.
  destruct (peer_tls_cert args) as [ct|] eqn:Hc, (peer_tls_key args) as [ky|] eqn:Hk; try done;
    destruct (tls_is_enabled _) eqn:He; try done; injection Hptls as <-; (split; [exact He|]);
    cbn; split; intros [? ?]; eauto; done.
Qed.

Definition args0 : Args :=
  mkArgs "127.0.0.1:50051" "./msgbus.redb" StorageRedb ["http://b=tenant/bl/target"] None None None None None None None
    5 0 "tenant" "bl" "device".

Lemma configure_sound_witness :
  config_ok (mkPeerSyncConfig (mkNodeId "tenant" "bl" "device")
    [mkPeerSpec "http://b" (Some (mkNodeId "tenant" "bl" "target"))] 100 1 None).
Proof. apply (configure_sound (λ _, Err "no file") args0 _ None). vm_compute. reflexivity. Defined.
