(* ===== verification/Lifecycle.v ===== *)
(** * Lifecycle: a node over any number of runs

    Start-up, client requests and synchronisation share one store.  Whatever
    clients, peers and the engine do, and wherever a run ends, the data of a node
    stays well formed and nothing in its logs is lost. *)

From Stdlib Require Import Ascii String NArith ZArith Lia.
From stdpp Require Import base strings list gmap.
From S2P Require Import Prelude Strings Core Table RedbKeys Json Concrete Spec History RedbStore RedbRep RedbRefine Redb SqliteStore SqliteRep SqliteRefine Sqlite Proto Server ServerProps Replay ServerClaims Sync SyncProps SyncClaims Daemon.

(** Clients send numbers in their wire range. *)
Definition event_typed (ev : DaemonEvent) : Prop :=
  match ev with ClientRequest r => request_typed r | _ => True end.

Definition run_typed (run : Run) : Prop :=
  Forall (λ x : Env * DaemonEvent, event_typed x.2) (run_events run).

Section runs.
Context {DB : Type} {ST : MsgbusStore DB} {JT : Json TombstoneRange} {JTL : JsonLaws TombstoneRange}.
Context {SR : StoreRefinement DB}.
Context (status_text : Status → string) (net : Transport) (fuel : nat) (Hnet : net_typed net).
Context (tls_config : ServerTlsConfig → result string unit).

Implicit Types (a : AbsStore) (db : DB).

(** What a run may make of the data that represented [a]. *)
Definition survived a db : Prop := ∃ a', rep a' db ∧ kept a a' ∧ (markers_typed a → markers_typed a').

Lemma survived_refl a db : rep a db → survived a db.
Proof. by exists a. Qed.

Lemma survived_trans a db db' :
  survived a db → (∀ a1, rep a1 db → survived a1 db') → survived a db'.
Proof.
  intros (a1 & Hrep1 & Hk1 & Ht1) H. destruct (H a1 Hrep1) as (a2 & Hrep2 & Hk2 & Ht2).
  exists a2. split; [done|]. split; [by etrans | auto].
Qed.

Lemma handle_survives node r e t a s :
  request_typed r → rep a (store s) → survived a (store (handle node r e t s).2).
Proof.
  intros Hr Hrep. pose proof (handle_served node e r a s Hr Hrep t) as H.
  destruct (handle node r e t s) as [[res t'] s'].
  destruct H as (a' & new & Hrep' & Hl & _ & _ & _ & Hk & _). exists a'.
  split; [done|]. split; [done | apply Hl].
Qed.

Lemma sync_survives sync e t a s :
  rep a (store s) → survived a (store (sync_once status_text net fuel sync e t s).2).
Proof.
  intros Hrep. assert (wp e (sync_once status_text net fuel sync) (λ _, reached grown a s) s) as H.
  { unfold sync_once. apply wp_bind. eapply wp_mono; [by apply (sync_peers_reached status_text e net)|].
    by intros [[[x|]|]|x] s' Hr; [apply wp_throw|apply wp_ret|apply wp_ret|]. }
  specialize (H t). destruct (sync_once status_text net fuel sync e t s) as [[res t'] s'].
  destruct H as (a' & Hrep' & (Hle & _ & _ & Hty) & _). exists a'. split; [done|].
  split; [by apply store_le_kept | done].
Qed.

Lemma events_survive node sync syncing evs t a s :
  Forall (λ x : Env * DaemonEvent, event_typed x.2) evs → rep a (store s) →
  survived a (store (serve_events status_text net fuel node sync syncing t evs s).2).
Proof.
  intros Hty. revert t a s. induction Hty as [|[e ev] evs Hev _ IH]; intros t a s Hrep; simpl.
  { by apply survived_refl. }
  destruct ev as [r| |x|]; [| |by apply survived_refl..].
  - pose proof (handle_survives node r e t a s Hev Hrep) as H.
    destruct (handle node r e t s) as [[res t'] s']. eapply survived_trans; [exact H|].
    intros a1 Hrep1. by apply IH.
  - destruct syncing; [|by apply IH]. pose proof (sync_survives sync e t a s Hrep) as H.
    destruct (sync_once status_text net fuel sync e t s) as [[res t'] s'].
    eapply survived_trans; [exact H|]. intros a1 Hrep1. by apply IH.
Qed.

Lemma start_survives sync e t a db :
  rep a db → markers_typed a →
  let '(r, _, db') := serve fuel sync e t db in
  survived a db' ∧ ∀ s b, r = Ok (Some (s, b)) → store s = db'.
Proof.
  intros Hrep Hty.
  assert (wp e (serve fuel sync) (λ r db', survived a db' ∧
    ∀ s b, r = Ok (Some (s, b)) → store s = db') db) as H.
  { assert (∀ db', replay_kept a db' → survived a db') as Hk.
    { intros db' (a' & Hrep' & Hle & Hty'). exists a'. split; [done|].
      by split; [apply store_le_kept|]. }
    unfold serve. apply wp_bind. eapply wp_mono; [by apply (replay_control_kept e fuel a)|].
    intros [[[]|]|x] db' Hr; [|apply wp_ret; by split; [apply Hk|]|by split; [apply Hk|]].
    apply wp_bind, wp_get_state, wp_ret. split; [by apply Hk|]. by intros s b [= <- _]. }
  specialize (H t). by destruct (serve fuel sync e t db) as [[r t'] db'].
Qed.

Lemma serve_run_survives node sync tls e t evs a db :
  Forall (λ x : Env * DaemonEvent, event_typed x.2) evs → rep a db → markers_typed a →
  survived a (serve_run status_text net fuel tls_config node sync tls e t evs db).2.
Proof.
  intros Hev Hrep Hty. pose proof (start_survives sync e t a db Hrep Hty) as H. unfold serve_run.
  destruct (serve fuel sync e t db) as [[[[[s syncing]|]|x] t'] db']; [|apply H..].
  destruct H as [Hs Heq]. specialize (Heq s syncing eq_refl). subst db'.
  assert (∀ evs, Forall (λ x : Env * DaemonEvent, event_typed x.2) evs →
    survived a (store (serve_events status_text net fuel node sync syncing t' evs s).2)) as Hrun.
  { intros evs' Hev'. eapply survived_trans; [exact Hs|]. intros a1 Hrep1. by apply events_survive. }
  destruct (transpose _).
  - specialize (Hrun evs Hev). by destruct (serve_events _ _ _ _ _ _ _ _ _) as [[r t''] s'].
  - assert (Forall (λ x : Env * DaemonEvent, event_typed x.2) (filter is_tick evs)) as Hticks.
    { apply Forall_forall. intros y [_ Hy]%list_elem_of_filter. rewrite Forall_forall in Hev. by apply Hev. }
    specialize (Hrun _ Hticks). by destruct (serve_events _ _ _ _ _ _ _ _ _) as [[r t''] s'].
Qed.

Lemma open_and_serve_survives open node sync tls e t evs a db :
  (∀ e t db, rep a db → rep a (open e t db).2) →
  Forall (λ x : Env * DaemonEvent, event_typed x.2) evs → rep a db → markers_typed a →
  survived a (open_and_serve status_text net fuel tls_config open node sync tls e t evs db).2.
Proof.
  intros Hopen Hev Hrep Hty. specialize (Hopen e t db Hrep). unfold open_and_serve.
  destruct (open e t db) as [[[u|x] t'] db']; [by apply serve_run_survives | by apply survived_refl].
Qed.
End runs.

(** ** Opening keeps the data *)

Section opening.
Context {T : Type → Type} {OT : OrderedTable T}.

Lemma redb_open_keeps : keeps (committed (T := T)) redb_open.
Proof.
  intros e db. unfold redb_open, RedbStore.initialize, begin_write, RedbStore.commit, open_table, in_txn.
  wp_run; done.
Qed.

Lemma sqlite_open_keeps : keeps conn sqlite_open.
Proof.
  intros e s. unfold sqlite_open, SqliteStore.configure, initialize, in_conn. wp_run; done.
Qed.
End opening.

(** ** The property *)

Section node.
Context {T : Type → Type} {OT : OrderedTable T} {OTL : OrderedTableLaws T}.
Context {B64 : Base64} {B64L : Base64Laws}.
Context {JM : Json StoredMessage} {JML : JsonLaws StoredMessage}.
Context {JF : Json StoredFifoMessage} {JFL : JsonLaws StoredFifoMessage}.
Context {JT : Json TombstoneRange} {JTL : JsonLaws TombstoneRange}.
Context {JP : Json PeerSyncState} {JPL : JsonLaws PeerSyncState}.
Context {SX : SqliteTexts} {JN : Json NodeId} {JNL : JsonLaws NodeId}.
Context {JH : Json (gmap string string)} {JHL : JsonLaws (gmap string string)}.

(** The state a file represents. *)
Definition file_rep (a : AbsStore) (f : DataFile T) : Prop :=
  markers_typed a ∧ match f with
                    | RedbFile db => redb_db_rep a db
                    | SqliteFile s => sqlite_db_rep a s
                    end.

Definition same_engine (f f' : DataFile T) : Prop :=
  match f, f' with
  | RedbFile _, RedbFile _ | SqliteFile _, SqliteFile _ => True
  | _, _ => False
  end.

(** What becomes of the file at a path, and of a path without one. *)
Definition file_kept (f f' : DataFile T) : Prop :=
  same_engine f f' ∧ ∀ a, file_rep a f → ∃ a', file_rep a' f' ∧ kept a a'.

Definition disk_kept (d d' : Disk T) : Prop :=
  (∀ p f, d !! p = Some f → ∃ f', d' !! p = Some f' ∧ file_kept f f') ∧
  (∀ p f', d !! p = None → d' !! p = Some f' → ∃ a', file_rep a' f').

Lemma file_kept_refl f : file_kept f f.
Proof. split; [by destruct f|]. intros a Hf. by exists a. Qed.

Lemma file_kept_trans f1 f2 f3 : file_kept f1 f2 → file_kept f2 f3 → file_kept f1 f3.
Proof.
  intros [S1 K1] [S2 K2]. split; [by destruct f1, f2, f3|]. intros a Hf.
  destruct (K1 a Hf) as (a1 & Hf1 & Ha1). destruct (K2 a1 Hf1) as (a2 & Hf2 & Ha2).
  exists a2. split; [done | by etrans].
Qed.

#[export] Instance disk_kept_preorder : PreOrder disk_kept.
Proof.
  split.
  - intros d. split; [|congruence]. intros p f Hf. exists f. split; [done|apply file_kept_refl].
  - intros d1 d2 d3 [K1 N1] [K2 N2]. split.
    + intros p f Hf. destruct (K1 p f Hf) as (f1 & Hf1 & H1). destruct (K2 p f1 Hf1) as (f2 & Hf2 & H2).
      exists f2. split; [done | by eapply file_kept_trans].
    + intros p f' Hp Hf'. destruct (d2 !! p) as [f|] eqn:Hf; [|by apply (N2 p)].
      destruct (N1 p f Hp Hf) as [a Ha]. destruct (K2 p f Hf) as (f2 & Hf2 & _ & Hk).
      assert (f2 = f') as -> by congruence. destruct (Hk a Ha) as (a' & ? & _). by exists a'.
Qed.

(** Replacing the file of one path. *)
Lemma disk_kept_insert (d : Disk T) p f' :
  (∀ f, d !! p = Some f → file_kept f f') → (d !! p = None → ∃ a', file_rep a' f') →
  disk_kept d (<[p := f']> d).
Proof.
  intros Hk Hn. split.
  - intros q f Hf. rewrite lookup_insert. case_decide as Heq; [subst q; exists f'; by split; [|apply Hk]|].
    exists f. split; [done|apply file_kept_refl].
  - intros q f. rewrite lookup_insert. case_decide as Heq; [subst q|congruence].
    intros Hp [= <-]. by apply Hn.
Qed.

Context (status_text : Status → string) (net : Transport) (fuel : nat) (Hnet : net_typed net).
Context (tls_config : ServerTlsConfig → result string unit) (foreign_file : StorageKind → string).

Lemma survived_file {DB} `{SR : StoreRefinement DB} (wrap : DB → DataFile T) (db db' : DB) :
  (∀ a db, file_rep a (wrap db) ↔ markers_typed a ∧ rep a db) → same_engine (wrap db) (wrap db') →
  (∀ a, rep a db → markers_typed a → survived a db') → file_kept (wrap db) (wrap db').
Proof.
  intros Hw Hs H. split; [done|]. intros a [Hty Hrep]%Hw.
  destruct (H a Hrep Hty) as (a' & Hrep' & Hk & Hty'). exists a'. split; [apply Hw; auto|done].
Qed.

Lemma redb_run_kept node sync tls e t evs (db : RedbStore T) :
  Forall (λ x : Env * DaemonEvent, event_typed x.2) evs →
  file_kept (RedbFile db)
    (RedbFile (open_and_serve status_text net fuel tls_config redb_open node sync tls e t evs db).2).
Proof.
  intros Hev. apply (survived_file (SR := redb_refinement) RedbFile); [done|done|]. intros a Hrep Hty.
  apply (open_and_serve_survives (SR := redb_refinement)); [done| |done..].
  intros e0 t0 db0 Hrep0. pose proof (redb_open_keeps e0 db0 t0) as Ho.
  destruct (redb_open e0 t0 db0) as [[r0 t1] db1]. change (redb_rep a (committed db1)). rewrite Ho. exact Hrep0.
Qed.

Lemma sqlite_run_kept node sync tls e t evs (s : SqliteStore) :
  Forall (λ x : Env * DaemonEvent, event_typed x.2) evs →
  file_kept (SqliteFile s)
    (SqliteFile (open_and_serve status_text net fuel tls_config sqlite_open node sync tls e t evs s).2).
Proof.
  intros Hev. apply (survived_file (SR := sqlite_refinement) SqliteFile); [done|done|]. intros a Hrep Hty.
  apply (open_and_serve_survives (SR := sqlite_refinement)); [done| |done..].
  intros e0 t0 s0 Hrep0. pose proof (sqlite_open_keeps e0 s0 t0) as Ho.
  destruct (sqlite_open e0 t0 s0) as [[r0 t1] s1]. change (sqlite_rep a (conn s1)). rewrite Ho. exact Hrep0.
Qed.

Lemma empty_typed : markers_typed abs_empty.
Proof. by intros o m ?%elem_of_nil. Qed.

Lemma new_file_rep f f' : file_rep abs_empty f → file_kept f f' → ∃ a', file_rep a' f'.
Proof. intros Hf [_ H]. destruct (H _ Hf) as (a' & ? & _). by exists a'. Qed.

Lemma main_kept read run t (d : Disk T) :
  run_typed run →
  disk_kept d (daemon_main status_text net fuel tls_config foreign_file read run t d).2.
Proof.
  intros Hrun. unfold daemon_main. destruct (configure read (run_args run)) as [[sync tls]|x]; [|done].
  set (path := arg_data (run_args run)). destruct (arg_storage (run_args run)); unfold redb_at, sqlite_at.
  - destruct (d !! path) as [[db|s]|] eqn:Hp; [|done|].
    + pose proof (redb_run_kept (local_node sync) sync tls (run_env run) t (run_events run) db Hrun) as H.
      destruct (open_and_serve _ _ _ _ _ _ _ _ _ _ _ _) as [[r t'] db']. cbn [snd] in *.
      destruct (leaves_file _ _ _ _); [|done]. apply disk_kept_insert; [|by rewrite Hp].
      intros f. rewrite Hp. by intros [= <-].
    + pose proof (redb_run_kept (local_node sync) sync tls (run_env run) t (run_events run) empty_db Hrun) as H.
      destruct (open_and_serve _ _ _ _ _ _ _ _ _ _ _ _) as [[r t'] db']. cbn [snd] in *.
      destruct (leaves_file _ _ _ _); [|done]. apply disk_kept_insert; [by rewrite Hp|]. intros _.
      eapply new_file_rep; [|exact H]. split; [apply empty_typed|apply empty_rep].
  - destruct (d !! path) as [[db|s]|] eqn:Hp; [done| |].
    + pose proof (sqlite_run_kept (local_node sync) sync tls (run_env run) t (run_events run) s Hrun) as H.
      destruct (open_and_serve _ _ _ _ _ _ _ _ _ _ _ _) as [[r t'] s']. cbn [snd] in *.
      destruct (leaves_file _ _ _ _); [|done]. apply disk_kept_insert; [|by rewrite Hp].
      intros f. rewrite Hp. by intros [= <-].
    + pose proof (sqlite_run_kept (local_node sync) sync tls (run_env run) t (run_events run)
        (mkSqlite empty_database empty_database) Hrun) as H.
      destruct (open_and_serve _ _ _ _ _ _ _ _ _ _ _ _) as [[r t'] s']. cbn [snd] in *.
      destruct (leaves_file _ _ _ _); [|done]. apply disk_kept_insert; [by rewrite Hp|]. intros _.
      eapply new_file_rep; [|exact H]. split; [apply empty_typed|apply sqlite_empty_rep].
Qed.

Lemma runs_kept read runs t (d : Disk T) :
  Forall run_typed runs →
  disk_kept d (daemon_runs status_text net fuel tls_config foreign_file read runs t d).2.
Proof.
  intros Hruns. revert t d. induction Hruns as [|run runs Hrun _ IH]; intros t d; cbn [daemon_runs]; [done|].
  pose proof (main_kept read run t d Hrun) as H1.
  destruct (daemon_main _ _ _ _ _ read run t d) as [[r t'] d']. by etrans; [|apply IH].
Qed.

Lemma file_rep_wf a f : file_rep a f → wf a.
Proof.
  destruct f; intros [_ Hrep]; [by eapply (rep_wf (StoreRefinement := redb_refinement))
    |by eapply (rep_wf (StoreRefinement := sqlite_refinement))].
Qed.
End node.


(** C5: a node never loses data.  Over any number of runs of the daemon, each
    with its own arguments, data path and backend, with any client requests, any
    peers, any engine failures, failed starts included, and ended at any moment
    between requests and passes, every data file that represented a well-formed
    store goes on to be a file of the same backend that represents one, whose
    heads never went down and in which, short of a log at [u64::MAX], every log
    entry is still at its number with its content, deleted entries stay deleted
    and tombstones stay; a file that a run created represents a well-formed store
    as well. *)
Theorem daemon_keeps_data {T : Type → Type} `{OTL : OrderedTableLaws T} `{B64L : Base64Laws}
    `{JML : JsonLaws StoredMessage} `{JFL : JsonLaws StoredFifoMessage}
    `{JTL : JsonLaws TombstoneRange} `{JPL : JsonLaws PeerSyncState} `{!SqliteTexts}
    `{JNL : JsonLaws NodeId} `{JHL : JsonLaws (gmap string string)}
    status_text net fuel tls_config foreign_file read runs t (d : Disk T) :
  net_typed net → Forall run_typed runs →
  let d' := (daemon_runs status_text net fuel tls_config foreign_file read runs t d).2 in
  (∀ p f a, d !! p = Some f → file_rep a f →
     ∃ f' a', d' !! p = Some f' ∧ same_engine f f' ∧ file_rep a' f' ∧ wf a' ∧ kept a a') ∧
  (∀ p f', d !! p = None → d' !! p = Some f' → ∃ a', file_rep a' f' ∧ wf a').
Proof.
  intros Hnet Hruns.
  destruct (runs_kept status_text net fuel Hnet tls_config foreign_file read runs t d Hruns) as [Hk Hn].
  split.
  - intros p f a Hf Ha. destruct (Hk p f Hf) as (f' & Hf' & Hs & Hkeep). destruct (Hkeep a Ha) as (a' & Ha' & ?).
    exists f', a'. do 3 (split; [done|]). split; [by eapply file_rep_wf|done].
  - intros p f' Hp Hf'. destruct (Hn p f' Hp Hf') as [a' Ha']. exists a'. split; [done|by eapply file_rep_wf].
Qed.

Definition run0 (path : string) (storage : StorageKind) (e : Env) : Run :=
  mkRun (mkArgs "127.0.0.1:50051" path storage ["http://b=tenant/bl/target"]
           None None None None None None None 5 0 "tenant" "bl" "device") e
    [(env0, ClientRequest (RPublish publish0)); (env0, SyncTick);
     (env0, ClientRequest (RDeleteRange delete0)); (env0, ShutdownSignal)].

(** Both backends, a switch of the backend on one path, a failing engine. *)
Definition runs0 : list Run :=
  [run0 "./a" StorageRedb env0; run0 "./b" StorageSqlite env0; run0 "./a" StorageSqlite env0;
   run0 "./a" StorageRedb env_faulty].

Definition disk0 : Disk GTable := {["./a" := RedbFile empty_db]}.

Lemma daemon_keeps_data_witness :
  let d' := (daemon_runs status_text0 chatty_net 5 (λ _, Ok tt) (λ _, "not a database")
               (λ _, Err "no file") runs0 0 disk0).2 in
  file_rep abs_empty (RedbFile (T := GTable) empty_db) ∧
  (∀ p f a, disk0 !! p = Some f → file_rep a f →
     ∃ f' a', d' !! p = Some f' ∧ same_engine f f' ∧ file_rep a' f' ∧ wf a' ∧ kept a a') ∧
  (∀ p f', disk0 !! p = None → d' !! p = Some f' → ∃ a', file_rep a' f' ∧ wf a').
Proof.
  split; [split; [by intros o m ?%elem_of_nil | apply empty_rep]|]. apply daemon_keeps_data.
  - apply chatty_net_typed.
  - by repeat constructor.
Defined.
