(* ===== verification/Backends.v ===== *)
(** * Backends: the two stores under the services

    A client cannot tell the redb store from the SQLite store until a call meets
    one of SQLite's limits.  The limits show where nodes with different stores
    meet: when the delete markers of a peer are applied at start-up, and when a
    log is pulled. *)

From Stdlib Require Import Ascii String NArith ZArith Lia.
From stdpp Require Import base strings list gmap.
From S2P Require Import Prelude Strings Core Table RedbKeys Json Concrete Spec SpecFacts History RedbStore RedbRep RedbRefine Redb SqliteStore SqliteRep SqliteRefine Sqlite Agreement Proto Server ServerProps Replay ServerClaims Sync Converge SyncClaims.

(** ** Interchangeable stores *)

(** The instants and ids of one call. *)
Definition env_at (now : N) (id : string) : Env := mkEnv (λ _, Some now) (λ _, id) (λ _, None).

Lemma env_at_frozen now id : frozen (env_at now id).
Proof. done. Qed.

Lemma env_at_clock now id : ¬ over (now mod 2 ^ 64)%N → ¬ clock_over (env_at now id).
Proof. intros Hn (n & [t ->] & Hov). done. Qed.

(** C14: an operation that returns an error has changed nothing, on either
    backend: whichever engine call fails, whatever the arguments and whatever is
    stored, the committed tables of redb and the database of SQLite are what they
    were. *)
Theorem backends_error_atomic {T : Type → Type} `{!OrderedTable T, !Base64, !Json StoredMessage,
    !Json StoredFifoMessage, !Json TombstoneRange, !Json PeerSyncState, !SqliteTexts, !Json NodeId,
    !Json (gmap string string)} {A} (op : StoreOp A) e (db : RedbStore T) (s : SqliteStore) :
  wp e (run_op op) (λ r db', is_ok r = false → committed db' = committed db) db ∧
  wp e (run_op op) (λ r s', is_ok r = false → conn s' = conn s) s.
Proof. split; [apply redb_atomic | apply sqlite_atomic]. Qed.

(** ** Start-up on SQLite *)

(** A control entry SQLite can apply: a valid marker that ends inside [i64]. *)
Definition startable `{!Json TombstoneRange} (m : StoredMessage) : Prop :=
  sm_deleted m = false →
  marker_ok m ∧ ∀ tr, from_slice (sm_payload m) = Ok tr → ¬ over (tr_to_head_id tr).

Section start.
Context {SX : SqliteTexts} {JN : Json NodeId} {JNL : JsonLaws NodeId}.
Context {JH : Json (gmap string string)} {JHL : JsonLaws (gmap string string)}.
Context {JT : Json TombstoneRange} {JTL : JsonLaws TombstoneRange}.
Context {JP : Json PeerSyncState} {JPL : JsonLaws PeerSyncState}.

Lemma applied_startable a (s : SqliteStore) m : sqlite_db_rep a s → applied a m → startable m.
Proof.
  intros Hrep Happ Hd. destruct (Happ Hd) as [Hok Htr]. split; [done|]. intros tr Hs.
  apply Htr, (tombs_rep_max _ _ _ _ _ (sr_tombs _ _ Hrep)) in Hs. unfold over. lia.
Qed.

Lemma message_ok_deleted m m' : set_deleted true m = set_deleted true m' → message_ok m → message_ok m'.
Proof. destruct m, m'. unfold message_ok. simpl. by intros [= -> -> _ _ _ _ _]. Qed.

(** The calls of a start-up that meet a limit are the deletions of wide markers. *)
Lemma start_limited e a a' A (op : StoreOp A) :
  ¬ clock_over e → (∀ k m, m ∈ log_of a k → message_ok m) →
  (∀ o, ¬ over (log_head (log_of a (DELETE_TOPIC, o)))) →
  control_same a a' → replay_call a' A op → sqlite_limited e A op a' →
  ∃ o m, m ∈ log_of a (DELETE_TOPIC, o) ∧ ¬ startable m.
Proof.
  intros Hclock Hok Hhead Hsame Hcall.
  assert (∀ k m, m ∈ log_of a' k → message_ok m) as Hok'.
  { intros k m Hm. destruct (control_same_entry a a' k m Hsame Hm) as (m0 & Hm0 & He).
    by eapply message_ok_deleted, Hok. }
  destruct Hcall as [|t o from lim Ht Hfrom|o m tr Hm Hd Htr]; simpl.
  - intros (k & m & Hm & Hno). by destruct (Hok' k m Hm).
  - intros [Hov|Hex]; exfalso.
    + apply (Hhead (NodeId.key o)). destruct Hsame as [_ Hc]. rewrite <- Hc.
      unfold key_of in Hfrom. rewrite Ht in Hfrom. unfold over in *. simpl in Hov. lia.
    + apply Exists_exists in Hex as (m & (i & Hm & _)%elem_of_take & Hno).
      apply list_elem_of_lookup_2, list_elem_of_filter in Hm as [_ Hm]. by eapply Hno, Hok'.
  - intros [Hov|?]; [|done]. exists o, m. destruct Hsame as [_ Hc]. rewrite Hc in Hm.
    split; [done|]. intros Hst. by destruct (Hst Hd) as [_ Hno]; eapply Hno.
Qed.
End start.

(** ** Pulling into SQLite *)

(** What SQLite needs of the entries it lacks: numbers and times inside [i64],
    and ids used neither here nor twice. *)
Record storable a (l missing : list StoredMessage) : Prop := {
  sb_head : ¬ over (log_head l);
  sb_time : Forall (λ m, ¬ over (sm_created_at_ms m)) missing;
  sb_fresh : Forall (λ m, ¬ id_used a (sm_id m)) missing;
  sb_ids : NoDup (sm_id <$> missing);
}.

Section pull.
Context {SX : SqliteTexts} {JN : Json NodeId} {JNL : JsonLaws NodeId}.
Context {JH : Json (gmap string string)} {JHL : JsonLaws (gmap string string)}.
Context {JT : Json TombstoneRange} {JTL : JsonLaws TombstoneRange}.
Context {JP : Json PeerSyncState} {JPL : JsonLaws PeerSyncState}.

Lemma caught_up_id_used head ms a a' i :
  caught_up head ms a a' → id_used a' i → id_used a i ∨ i ∈ sm_id <$> ms.
Proof.
  intros Hp (k & m & Hm & Hi). destruct (decide (k = key_of (th_topic head) (th_origin head))) as [->|Hk].
  - rewrite (pl_log _ _ _ _ Hp) in Hm. apply elem_of_app in Hm as [Hm|Hm]; [left; by eexists _, m|].
    right. apply list_elem_of_fmap in Hm as (m0 & -> & Hm0). apply list_elem_of_fmap. exists m0.
    split; [|done]. rewrite <- Hi. unfold mark. by destruct (covered _ _).
  - rewrite (pl_logs _ _ _ _ Hp) in Hm by done. left. by eexists _, m.
Qed.

Lemma storable_roomy e head l a :
  let k := key_of (th_topic head) (th_origin head) in
  remote_log head l → storable a l (drop (length (log_of a k)) l) →
  roomy (SR := sqlite_refinement) e head l a.
Proof.
  intros k Hl Hst A op a' n Hp Hcall. destruct Hcall as [|m Hm|]; [intros []| |intros []].
  destruct (remote_entry head l Hl _ _ Hm) as (Hk & _ & _ & Hh & _).
  pose proof (lookup_lt_Some _ _ _ Hm) as Hlt. pose proof (sb_head _ _ _ Hst) as Hmax.
  pose proof (caught_up_length head _ _ _ Hp) as Hlen.
  fold k in Hm, Hh, Hlt, Hlen, Hp. set (missing := drop (length (log_of a k)) l) in *.
  assert (missing !! length (take n missing) = Some m) as Hi.
  { revert Hlen. generalize (length (take n missing)). intros j Hj. unfold missing.
    by rewrite lookup_drop, <- Hj. }
  simpl. intros [Hov|Hlim].
  { apply Hmax. unfold over, log_head in *. rewrite Hh in Hov. lia. }
  rewrite Hk in Hlim. fold k in Hlim. rewrite Hh in Hlim.
  rewrite (proj2 (lookup_ge_None _ _)) in Hlim by (simpl; lia). destruct Hlim as [Hov|Hused].
  { by apply (Forall_lookup_1 _ _ _ _ (sb_time _ _ _ Hst) Hi). }
  destruct (caught_up_id_used head _ a a' _ Hp Hused) as [Hu|Hin].
  { by apply (Forall_lookup_1 _ _ _ _ (sb_fresh _ _ _ Hst) Hi). }
  pose proof (sb_ids _ _ _ Hst) as Hnd. rewrite <- (take_drop n missing), fmap_app in Hnd.
  apply NoDup_app in Hnd as (_ & Hdisj & _). apply (Hdisj _ Hin).
  apply list_elem_of_fmap. exists m. split; [done|]. apply (list_elem_of_lookup_2 _ 0).
  pose proof (lookup_lt_Some _ _ _ Hi) as Hn. rewrite length_take in Hi, Hn.
  rewrite Nat.min_l in Hi by lia. by rewrite lookup_drop, Nat.add_0_r.
Qed.
End pull.

(** ** The properties *)

(** C4: the two backends are interchangeable.  From databases that represent the
    same state, any sequence of calls gives the same answers on redb and on
    SQLite, errors included (listings of heads and of sync states up to order),
    namely those of the reference run on the abstract state, and leaves both
    databases representing the same state; the engines must not fail, each call
    sees one time and one fresh id, and no call meets a limit of SQLite. *)
Theorem backends_agree {T : Type → Type} `{OTL : OrderedTableLaws T} `{B64L : Base64Laws}
    `{JML : JsonLaws StoredMessage} `{JFL : JsonLaws StoredFifoMessage}
    `{JTL : JsonLaws TombstoneRange} `{JPL : JsonLaws PeerSyncState} `{!SqliteTexts}
    `{JNL : JsonLaws NodeId} `{JHL : JsonLaws (gmap string string)}
    calls t1 t2 a (db : RedbStore T) (s : SqliteStore) :
  Forall call_quiet calls → within_limits (DB1 := RedbStore T) (DB2 := SqliteStore) calls a →
  redb_db_rep a db → sqlite_db_rep a s →
  agree (SR1 := redb_refinement) (SR2 := sqlite_refinement) calls t1 t2 a db s.
Proof. apply (stores_agree (SR1 := redb_refinement) (SR2 := sqlite_refinement)). Qed.

Definition call_at {A} (op : StoreOp A) (now : N) : Call := mkCall A op (env_at now "id").

Definition fetch0 : StoreOp (list StoredMessage) := OpFetch (mkFetchQuery topic_events node_a 1 10).

Definition calls0 : list Call :=
  [call_at append0 5; call_at fetch0 6; call_at (OpTombstone topic_events node_a 1 7) 7;
   call_at OpListSync 8; call_at fetch0 9].

(** The names of a message, checked by computation. *)
Definition message_okb (m : StoredMessage) : bool :=
  is_ok (validate_part "" (message_id_str (sm_id m))) && is_ok (validate_part "" (topic_str (sm_topic m))).

Lemma message_okb_ok m : message_okb m = true → message_ok m.
Proof.
  unfold message_okb. intros [H1 H2]%andb_true_iff. split; apply (validate_part_ok "").
  - by destruct (validate_part "" (message_id_str _)) as [[]|].
  - by destruct (validate_part "" (topic_str _)) as [[]|].
Qed.

Lemma readable_page q a :
  (fq_from_head_id q <=? 9)%N = true → forallb message_okb (fetch_spec q a) = true →
  ¬ (over (fq_from_head_id q) ∨ Exists (λ m, ¬ message_ok m) (fetch_spec q a)).
Proof.
  intros Hq%N.leb_le Hall [Hov|Hex]; [unfold over, i64_max in Hov; lia|].
  apply Exists_exists in Hex as (m & Hm & Hno). rewrite forallb_forall in Hall.
  by apply Hno, message_okb_ok, Hall, list_elem_of_In.
Qed.

Lemma id_used_empty i : ¬ id_used abs_empty i.
Proof. by intros (k & m & Hm%elem_of_nil & _). Qed.

Lemma backends_agree_witness :
  agree (SR1 := redb_refinement (T := GTable)) (SR2 := sqlite_refinement) calls0 0 0 abs_empty
    empty_db sqlite0.
Proof.
  apply backends_agree.
  - by repeat constructor.
  - repeat split; try exact (λ x, x).
    + intros [H|[H|H]]; [discriminate | by apply id_used_empty in H | by apply env_at_clock in H].
    + by apply readable_page; vm_compute.
    + intros [H|H]; [discriminate | by apply env_at_clock in H].
    + by apply readable_page; vm_compute.
  - apply empty_rep.
  - apply sqlite_empty_rep.
Defined.

(** C21: start-up on a SQLite store, by the control logs alone.  Let the engine
    not fail, the clock be inside [i64], the stored topics and ids be valid, the
    control logs be no longer than [i64::MAX] and shorter than the fuel, and let
    no decodable live control entry name the control topic itself.  Then
    [replay_control_messages] runs to its end with success exactly when every live
    control entry is a valid marker whose range ends at [i64::MAX] or before; and
    otherwise it returns an error. *)
Theorem sqlite_start_iff `{!SqliteTexts} `{JNL : JsonLaws NodeId}
    `{JHL : JsonLaws (gmap string string)} `{JTL : JsonLaws TombstoneRange}
    `{JPL : JsonLaws PeerSyncState} e fuel a (s : SqliteStore) :
  no_faults e → ¬ clock_over e → sqlite_db_rep a s →
  (∀ k m, m ∈ log_of a k → message_ok m) →
  (∀ o, Forall control_message (log_of a (DELETE_TOPIC, o)) ∧
        ¬ over (log_head (log_of a (DELETE_TOPIC, o))) ∧
        (length (log_of a (DELETE_TOPIC, o)) < fuel)%nat) →
  wp e (replay_control_messages fuel) (λ r _,
    (r = Ok (Some tt) ↔ ∀ o, Forall startable (log_of a (DELETE_TOPIC, o))) ∧ r ≠ Ok None) s.
Proof.
  intros Hnf Hclock Hrep Hok Hctl.
  eapply wp_mono; [apply (replay_outcome (SR := sqlite_refinement) e fuel a); [exact Hrep|]|].
  { intros o. destruct (Hctl o) as (? & Hm & ?). split; [done|]. split; [|done].
    unfold over, i64_max, u64_max in *. lia. }
  intros [r|x] s'; simpl.
  - intros (-> & a' & Hrep' & _ & Happ). split; [|done]. split; [intros _ o|done]. apply Forall_forall. intros m Hm.
    by eapply applied_startable, Happ.
  - intros Hwhy. split; [|done]. split; [done|]. intros Hall. exfalso.
    assert (∀ o m, m ∈ log_of a (DELETE_TOPIC, o) → startable m) as Hst.
    { intros o m Hm. specialize (Hall o). rewrite Forall_forall in Hall. by apply Hall. }
    destruct Hwhy as [[Hf|(A & op & a' & Hsame & Hcall & Hlim)]|(o & Hbad)].
    + by destruct (no_faults_has_fault e).
    + destruct (start_limited e a a' A op) as (o & m & Hm & Hno); [done..|intros o; by apply Hctl| | | |].
      all: try done. by eapply Hno, Hst.
    + apply Exists_exists in Hbad as (m & Hm & Hd & Hno). by destruct (Hst _ _ Hm Hd).
Qed.

(** A redb node of [node_b] deletes its whole log, up to [u64::MAX], and a SQLite
    node pulls the control log. *)
Definition env9 : Env := env_at 9 "id".
Definition redb_node : MsgbusGrpcService (RedbStore GTable) := service_new empty_db.
Definition sqlite_node : MsgbusGrpcService SqliteStore := service_new sqlite0.
Definition wide_request : DeleteRangeRequest := mkDeleteRangeRequest "events" None 1 u64_max.

Definition wide_marker : StoredMessage :=
  mkStoredMessage (mkMessageId "id") (mkTopic DELETE_TOPIC) node_b 1
    (enc_of (mkTombstoneRange topic_events node_b 1 u64_max 9)) ∅ 9 false.
Definition wide_state : AbsStore := set_log (msg_key wide_marker) [wide_marker] abs_empty.
Definition wide_store : SqliteStore := (sqlite_put_replicated_message wide_marker env9 0 sqlite0).2.

Lemma env9_clock : ¬ clock_over env9.
Proof. by apply env_at_clock. Qed.

Lemma wide_log o :
  log_of wide_state (DELETE_TOPIC, o) = if decide (NodeId.key node_b = o) then [wide_marker] else [].
Proof.
  unfold wide_state. rewrite log_of_set_log.
  destruct (decide (NodeId.key node_b = o)) as [<-|Hne]; [by rewrite decide_True|].
  rewrite decide_False; [done|]. by intros [= ?].
Qed.

Lemma wide_store_rep : sqlite_db_rep wide_state wide_store.
Proof.
  assert (¬ sqlite_limited env9 _ (OpPutReplicated wide_marker) abs_empty) as Hlim.
  { intros [H|[H|H]]; [discriminate | discriminate | by apply id_used_empty in H]. }
  pose proof (store_reference (SR := sqlite_refinement) env9 (OpPutReplicated wide_marker) abs_empty
    sqlite0 ltac:(done) ltac:(done) ltac:(done) Hlim sqlite_empty_rep 0) as H.
  unfold wide_store. cbn [run_op] in H. change (put_replicated_message wide_marker)
    with (sqlite_put_replicated_message wide_marker) in H.
  destruct (sqlite_put_replicated_message wide_marker env9 0 sqlite0) as [[r t] s].
  exact (proj2 H).
Qed.

Lemma sqlite_start_iff_witness :
  wp env9 (replay_control_messages 2) (λ r _,
    (r = Ok (Some tt) ↔ ∀ o, Forall startable (log_of wide_state (DELETE_TOPIC, o))) ∧ r ≠ Ok None) wide_store.
Proof.
  apply sqlite_start_iff; [done | apply env9_clock | apply wide_store_rep | |].
  - intros k m Hm. unfold wide_state in Hm. rewrite log_of_set_log in Hm. case_decide.
    + apply list_elem_of_singleton in Hm as ->. by apply message_okb_ok.
    + by apply elem_of_nil in Hm.
  - intros o. rewrite wide_log. case_decide; [|by split; [constructor|split; [|simpl; lia]]].
    split; [|by split; [|simpl; lia]]. constructor; [|constructor]. split; [done|].
    intros _ tr Htr. apply (f_equal (map_err Serialization)) in Htr.
    change (decode (sm_payload wide_marker) = Ok tr) in Htr. unfold wide_marker in Htr.
    cbn [sm_payload] in Htr. rewrite decode_enc_of in Htr. injection Htr as <-. by split.
Defined.

(** A control entry that ends beyond [i64::MAX] is refused by SQLite. *)
Lemma wide_refused `{!SqliteTexts} `{JNL : JsonLaws NodeId} `{JHL : JsonLaws (gmap string string)}
    `{JTL : JsonLaws TombstoneRange} `{JPL : JsonLaws PeerSyncState} status_text e m tr a :
  control_message m → sm_deleted m = false → from_slice (sm_payload m) = Ok tr → over (tr_to_head_id tr) →
  refused (SR := sqlite_refinement) status_text e m a.
Proof.
  intros [Ht Hty] Hd Htr Hov s Hrep. unfold apply_control. apply wp_map_err, wp_zoom.
  unfold apply_control_message. rewrite bool_decide_true, Hd, Htr by done. cbn [negb orb].
  apply wp_bind, wp_of_result. cbn [map_err]. destruct (Hty Hd tr Htr) as (_ & Hu1 & Hu2).
  case_bool_decide; cbn [negb]; [|by apply wp_throw].
  apply wp_bind, wp_map_err.
  eapply wp_mono; [by apply (store_refines (StoreRefinement := sqlite_refinement) _ (OpTombstone (tr_topic tr)
    (tr_origin tr) (tr_from_head_id tr) (tr_to_head_id tr)) e a)|].
  cbn [spec_op]. intros [x|x] db'; [|by intros [? _]]. intros (a' & Hs & Hrep'). exfalso.
  destruct (_ <? _)%N; [by destruct Hs|]. destruct Hs as [_ ->].
  assert ((tr_from_head_id tr, tr_to_head_id tr) ∈
    tombs_of (tombstone_spec (key_of (tr_topic tr) (tr_origin tr)) (tr_from_head_id tr)
      (tr_to_head_id tr) a).2 (key_of (tr_topic tr) (tr_origin tr))) as Hin.
  { unfold tombstone_spec. cbn [snd]. rewrite tombs_of_set_tombs, decide_True by done. set_solver. }
  apply (tombs_rep_max _ _ _ _ _ (sr_tombs _ _ Hrep')) in Hin. unfold over in Hov. lia.
Qed.

(** C36: a deletion that one backend accepts keeps a node with the other from
    starting.  A redb node accepts every deletion of its own up to a number beyond
    [i64::MAX] (such as [u64::MAX] for "to the end"), and publishes the marker.
    Let a SQLite node that had the whole control log pull it: the pull fails, but
    the marker is stored, and the start-up that follows fails, whatever else the
    two stores hold.  The clock is inside [i64], identifiers are valid and new to
    the SQLite node, no tombstone covers the control log, and the fuel is above
    the length of the control logs. *)
Theorem wide_delete_blocks_sqlite {T : Type → Type} `{OTL : OrderedTableLaws T} `{B64L : Base64Laws}
    `{JML : JsonLaws StoredMessage} `{JFL : JsonLaws StoredFifoMessage}
    `{JTL : JsonLaws TombstoneRange} `{JPL : JsonLaws PeerSyncState} `{!SqliteTexts}
    `{JNL : JsonLaws NodeId} `{JHL : JsonLaws (gmap string string)}
    status_text e e' e2 fuel fuel2 node' peer limit r a b
    (s : MsgbusGrpcService SqliteStore) (s' : MsgbusGrpcService (RedbStore T)) :
  let k := key_of (mkTopic DELETE_TOPIC) node' in
  let head := mkTopicHead (mkTopic DELETE_TOPIC) node' (log_head (log_of b k) + 1) in
  no_faults e → no_faults e' → NodeId_valid node' → deletable node' r → over (dr_to_head_id r) →
  sqlite_db_rep a (store s) → redb_db_rep b (store s') →
  length (log_of a k) = length (log_of b k) → ¬ over (log_head (log_of b k) + 1)%N →
  (∀ h, covered (tombs_of a k) h = false ∧ covered (tombs_of b k) h = false) →
  ¬ clock_over e' → (∀ n, valid_part (uuid e' n) ∧ ¬ id_used a (mkMessageId (uuid e' n))) →
  (∀ o, Forall control_message (log_of a (DELETE_TOPIC, o)) ∧
        (log_head (log_of a (DELETE_TOPIC, o)) + 1 < u64_max)%N ∧
        (length (log_of a (DELETE_TOPIC, o)) + 1 < fuel2)%nat) → is_u32 limit →
  wp e' (delete_range node' r) (λ r0 s1, is_ok r0 = true ∧ ∃ c, published s1 = published s' ++ [c] ∧
    wp e (sync_head status_text (S fuel) (service_client status_text node' e' s1) peer head limit)
      (λ r1 s2, is_ok r1 = false ∧
         (∃ a2, sqlite_db_rep a2 (store s2) ∧ log_of a2 k = log_of a k ++ [c]) ∧
         wp e2 (replay_control_messages fuel2) (λ r2 _, is_ok r2 = false) (store s2)) s) s'.
Proof.
  intros k head Hnf Hnf' Hnode Hdel Hov Hrep Hrep' Hlen Hmax Hcov Hclock Hid Hctl Hlimit.
  apply (delete_range_ok (SR := redb_refinement) node' e' r b s'); [done..|intros Hx; exact Hx|].
  intros n now now' db' Hnow Hnow' p Hrep1. split; [done|].
  assert (log_head (log_of b k) + 1 < u64_max)%N as Hroom by (unfold over, i64_max, u64_max in *; lia).
  destruct (marker_entry (mkMessageId (uuid e' n)) now now' (mkTopic (dr_topic r)) node' (dr_from_head_id r)
    (dr_to_head_id r) b) as [Hc Hlog]; [apply Hdel|fold k; lia|fold k; intros h; apply Hcov|].
  fold k p in Hc, Hlog. set (tr := mkTombstoneRange _ _ _ _ now) in Hc, Hlog.
  set (c := mkStoredMessage (mkMessageId (uuid e' n)) _ _ _ _ _ now' _) in Hc, Hlog.
  exists c. cbn [published]. rewrite Hc. split; [done|].
  assert (from_slice (sm_payload c) = Ok tr) as Htr by apply from_slice_enc.
  assert (control_message c) as Hcc.
  { split; [done|]. intros _ tr' Htr'. assert (tr' = tr) as -> by congruence. destruct Hdel.
    cbn. unfold is_u64 in *. split; [done|]. lia. }
  destruct (Hid n) as [Hv Hfresh].
  assert (next_entry head a c) as Hn.
  { split; try done; unfold wire_message, c; cbn.
    - split; [by right|]. split; [lia|]. split; [|done]. apply (validate_part_ok "topic"). reflexivity.
    - by eapply ticks_u64.
    - change (key_of (mkTopic DELETE_TOPIC) node') with k. unfold log_head. by rewrite Hlen.
    - unfold is_u64. fold k. lia. }
  assert (msg_key c = k) as Hk by done.
  eapply wp_mono; [apply (pull_stuck (SR := sqlite_refinement) status_text e Hnf _ peer head fuel limit c a s);
    [done|done|done| |intros []| | |done]|].
  - intros t req Ht Ho Hf Hl.
    pose proof (service_serves (SR := redb_refinement) status_text node' e'
      (mkService db' (published s' ++ [c])) p.2 head Hnf') as Hs.
    exists []. rewrite Hs; try done.
    + change (key_of (th_topic head) (th_origin head)) with k. rewrite Hlog, Hf. cbn [sm_head_id c].
      rewrite drop_app_ge by (unfold log_head; fold k; lia).
      replace (N.to_nat (log_head (log_of b k) + 1) - 1 - length (log_of b k))%nat with 0%nat
        by (unfold log_head; lia).
      cbn [drop]. by rewrite take_ge by (pose proof (page_limit_pos (fr_limit req)); simpl; lia).
    + intros from lim _ Hx. exact Hx.
    + apply (validate_part_ok "topic"). reflexivity.
    + rewrite Hf. cbn. lia.
    + change (key_of (th_topic head) (th_origin head)) with k. rewrite Hlog, Hf. unfold log_head.
      rewrite length_app. cbn. fold k. unfold log_head. lia.
  - simpl. rewrite Hk. intros [Hx|Hx]; [by apply Hmax|].
    rewrite (proj2 (lookup_ge_None _ _)) in Hx by (fold k; unfold log_head; lia).
    destruct Hx as [Hx|Hx]; [|done]. apply Hclock. by exists now'.
  - apply (wide_refused status_text e c tr); [done|done|done|exact Hov].
  - intros r1 s2 (Hr1 & _ & Hrep2). split; [done|].
    assert (log_of (with_entry head c a) k = log_of a k ++ [c]) as Hl.
    { unfold with_entry. rewrite log_of_set_log, decide_True by done. do 2 f_equal. unfold mark.
      rewrite Hk. by rewrite (proj1 (Hcov _)). }
    split; [exists (with_entry head c a); by split|].
    eapply wp_mono; [apply (replay_outcome (SR := sqlite_refinement) e2 fuel2 _ (store s2) Hrep2)|].
    + intros o. destruct (Hctl o) as (Hc0 & Hm0 & Hf0). destruct (decide ((DELETE_TOPIC, o) = k)) as [Ho|Ho].
      * rewrite Ho, Hl. rewrite Ho in Hc0, Hm0, Hf0. unfold log_head in *. rewrite length_app. simpl.
        split; [apply Forall_app; by split; [|constructor]|]. lia.
      * unfold with_entry. rewrite log_of_set_log, decide_False by done. split; [done|]. lia.
    + intros [o|x] db2; [|done]. intros (_ & a3 & Hrep3 & _ & Happ). exfalso.
      destruct (applied_startable a3 db2 c Hrep3) with (2 := eq_refl (sm_deleted c)) as [_ Hno]; [|by eapply Hno].
      apply (Happ (NodeId.key node')). change (DELETE_TOPIC, NodeId.key node') with k. rewrite Hl. set_solver.
Qed.

Lemma wide_delete_blocks_sqlite_witness :
  let k := key_of (mkTopic DELETE_TOPIC) node_b in
  wp env9 (delete_range node_b wide_request) (λ r0 s1, is_ok r0 = true ∧ ∃ c, published s1 = [] ++ [c] ∧
    wp env9 (sync_head status_text0 1 (service_client status_text0 node_b env9 s1) peer_b
               (mkTopicHead (mkTopic DELETE_TOPIC) node_b 1) 10)
      (λ r1 s2, is_ok r1 = false ∧
         (∃ a2, sqlite_db_rep a2 (store s2) ∧ log_of a2 k = log_of abs_empty k ++ [c]) ∧
         wp env9 (replay_control_messages 2) (λ r2 _, is_ok r2 = false) (store s2)) sqlite_node) redb_node.
Proof.
  apply (wide_delete_blocks_sqlite status_text0 env9 env9 env9 0 2 node_b peer_b 10 wide_request abs_empty
    abs_empty sqlite_node redb_node);
    [done | done | apply node_b_valid | | done | apply sqlite_empty_rep | apply empty_rep | done | done
    | by intros h | apply env9_clock | | | done].
  - split; [apply valid_events | done | by left | done | apply N.le_refl].
  - intros n. split; [apply (validate_part_ok "id"); reflexivity | apply id_used_empty].
  - intros o. split; [constructor|]. split; [done|]. apply Nat.ltb_lt. reflexivity.
Defined.

(** A SQLite node pulls from a redb node.  When the entries it lacks carry
    times inside [i64] and ids that are used neither in its own store nor twice,
    and the log is no longer than [i64::MAX], the pull ends successfully with
    exactly those entries appended, in order, deleted where a local tombstone
    covers them; nothing else of the store changes, and the entries are announced
    in order. *)
Theorem sqlite_pulls_from_redb {T : Type → Type} `{OTL : OrderedTableLaws T} `{B64L : Base64Laws}
    `{JML : JsonLaws StoredMessage} `{JFL : JsonLaws StoredFifoMessage}
    `{JTL : JsonLaws TombstoneRange} `{JPL : JsonLaws PeerSyncState} `{!SqliteTexts}
    `{JNL : JsonLaws NodeId} `{JHL : JsonLaws (gmap string string)}
    status_text e e' fuel node' peer head limit a b
    (s : MsgbusGrpcService SqliteStore) (s' : MsgbusGrpcService (RedbStore T)) :
  let l := log_of b (key_of (th_topic head) (th_origin head)) in
  let missing := drop (length (log_of a (key_of (th_topic head) (th_origin head)))) l in
  no_faults e → sqlite_db_rep a (store s) → no_faults e' → redb_db_rep b (store s') →
  valid_part (topic_str (th_topic head)) → NodeId_valid (th_origin head) →
  topic_str (th_topic head) ≠ DELETE_TOPIC → remote_log head l → storable a l missing →
  (length (log_of a (key_of (th_topic head) (th_origin head))) ≤ length l)%nat →
  (length l ≤ fuel)%nat → is_u32 limit →
  wp e (sync_head status_text fuel (service_client status_text node' e' s') peer head limit)
    (λ r s1, r = Ok (Some tt) ∧ published s1 = published s ++ missing ∧
       ∃ a', sqlite_db_rep a' (store s1) ∧ caught_up head missing a a' ∧
         recorded peer (Some (th_topic head)) (Some (th_origin head)) (log_head l) (log_head l)
           (log_head l) a') s.
Proof.
  intros l missing Hnf Hrep Hnf' Hrep' Ht Ho Happ Hl Hst Hle Hfuel Hlimit.
  apply (sync_head_ok (SR := sqlite_refinement) status_text e Hnf peer head l Hl Happ); [|done| |done..].
  - apply (service_serves (SR := redb_refinement)); [done| |done..]. intros from lim _ Hlim. exact Hlim.
  - by apply storable_roomy.
Qed.

Lemma sqlite_pulls_from_redb_witness :
  wp env0 (sync_head status_text0 1 (service_client status_text0 node_b env0 remote_b) peer_b head_b1 10)
    (λ r s1, r = Ok (Some tt) ∧ published s1 = published sqlite_node ++ [message_b] ∧
       ∃ a', sqlite_db_rep a' (store s1) ∧ caught_up head_b1 [message_b] abs_empty a' ∧
         recorded peer_b (Some topic_events) (Some node_b) 1 1 1 a') sqlite_node.
Proof.
  pose proof (sqlite_pulls_from_redb status_text0 env0 env0 1 node_b peer_b head_b1 10 abs_empty
    (set_log (msg_key message_b) [message_b] abs_empty) sqlite_node remote_b) as H.
  cbv zeta in H. cbn [th_topic th_origin head_b1] in H. rewrite message_b_log in H.
  apply H; [apply env0_no_faults | apply sqlite_empty_rep | apply env0_no_faults | by apply put_first_rep
    | apply valid_events | apply node_b_valid | done | apply message_b_remote | | apply Nat.le_0_l
    | apply Nat.le_refl | done].
  split; [by vm_compute | by repeat constructor | | apply NoDup_singleton].
  constructor; [apply id_used_empty | constructor].
Defined.
