(* ===== verification/UnitTests.v ===== *)
(** * UnitTests: the tests of the repository

    The unit tests of the crates ([mod tests] of each [lib.rs] and of [sync.rs])
    and the integration test [crates/msgbus-server/tests/peer_sync.rs], as
    programs over the model: [expect] and [assert!] fail where the Rust code
    panics.  The tests of the stores are one program each over any store, as the
    two crates hold the same text; every test is evaluated on the backend its
    crate runs it on, and passes. *)

From Stdlib Require Import Ascii String NArith ZArith Lia.
From stdpp Require Import base strings list gmap.
From S2P Require Import Prelude Strings Core Table RedbKeys Json Concrete Spec SpecFacts History RedbStore RedbRep RedbRefine Redb SqliteStore SqliteRep SqliteRefine Sqlite Proto Server ServerProps Replay ServerClaims Sync SyncProps Converge SyncClaims Sdk EndToEnd.

(** ** The test macros *)

Section macros.
Context {S : Type}.

Abbreviation Test := (M string S).

Definition expect {E A} (m : M E S A) (msg : string) : Test A := map_err_m (λ _, msg) m.
Definition expect_ok {E A} (r : result E A) (msg : string) : Test A := of_result (map_err (λ _, msg) r).
Definition expect_some {A} (o : option A) (msg : string) : Test A := of_result (ok_or msg o).
Definition expect_err {E A} (m : M E S A) (msg : string) : Test E :=
  r ← try m;
  match r with Ok _ => throw msg | Err x => mret x end.
Definition assert_that (b : bool) : Test unit := if b then mret tt else throw "assertion failed".
Definition assert_eq {A} `{!EqDecision A} (x y : A) : Test unit := assert_that (bool_decide (x = y)).
Definition index {A} (l : list A) (i : nat) : Test A := expect_some (l !! i) "index out of bounds".
End macros.

Definition text (s : string) : bytes := list_byte_of_string s.

(** ** The tests of the stores *)

Section stores.
Context {DB : Type} {ST : MsgbusStore DB} {JT : Json TombstoneRange}.
Context (open_store : M MsgbusError DB unit).

Abbreviation Test := (M string DB).

Definition test_node : Test NodeId := expect_ok (NodeId.new "tenant" "bl" "device") "valid node".
Definition test_topic : Test Topic := expect_ok (Topic_new "events") "valid topic".

Definition append_text (topic : Topic) (origin : NodeId) (payload msg : string) : Test StoredMessage :=
  m ← NewMessage_new topic origin (text payload) ∅;
  expect (append_message m) msg.

Definition fetch_all (topic : Topic) (origin : NodeId) : Test (list StoredMessage) :=
  expect (fetch_messages (mkFetchQuery topic origin 1 10)) "fetch".

Definition expect_head (topic : Topic) (origin : NodeId) : Test HeadId :=
  h ← expect (get_head topic origin) "head";
  expect_some h "head exists".

Definition appends_and_fetches_messages_in_head_order : Test unit :=
  expect open_store "open store";;
  origin ← test_node;
  topic ← test_topic;
  first ← append_text topic origin "one" "append first";
  second ← append_text topic origin "two" "append second";
  assert_eq (sm_head_id first) 1%N;;
  assert_eq (sm_head_id second) 2%N;;
  h ← expect_head topic origin;
  assert_eq h 2%N;;
  messages ← fetch_all topic origin;
  assert_eq (length messages) 2%nat;;
  m ← index messages 0;
  assert_eq (sm_payload m) (text "one");;
  m ← index messages 1;
  assert_eq (sm_payload m) (text "two").

Definition tombstone_marks_messages_without_changing_head : Test unit :=
  expect open_store "open store";;
  origin ← test_node;
  topic ← test_topic;
  for_each ["one"; "two"; "three"]
    (λ payload _, append_text topic origin payload "append";; mret (Continue tt)) tt;;
  deleted ← expect (tombstone_range topic origin 2 3) "delete range";
  assert_eq deleted 2%N;;
  h ← expect_head topic origin;
  assert_eq h 3%N;;
  messages ← fetch_all topic origin;
  m ← index messages 0;
  assert_that (negb (sm_deleted m));;
  m ← index messages 1;
  assert_that (sm_deleted m);;
  m ← index messages 2;
  assert_that (sm_deleted m).

Definition tombstone_range_is_idempotent : Test unit :=
  expect open_store "open store";;
  origin ← test_node;
  topic ← test_topic;
  expect (tombstone_range topic origin 1 1) "first tombstone";;
  expect (tombstone_range topic origin 1 1) "second tombstone";;
  mret tt.

Definition future_tombstone_marks_later_appends : Test unit :=
  expect open_store "open store";;
  origin ← test_node;
  topic ← test_topic;
  expect (tombstone_range topic origin 1 1) "future tombstone";;
  stored ← append_text topic origin "one" "append";
  assert_that (sm_deleted stored);;
  messages ← fetch_all topic origin;
  m ← index messages 0;
  assert_that (sm_deleted m).

Definition tombstone_range_with_marker_updates_and_appends_control_message : Test unit :=
  expect open_store "open store";;
  origin ← test_node;
  topic ← test_topic;
  append_text topic origin "one" "append";;
  delete_topic ← expect_ok (Topic_new "$msgbus.delete") "delete topic";
  '(deleted, marker) ← expect (tombstone_range_with_marker topic origin 1 1 delete_topic origin)
                         "delete with marker";
  assert_eq deleted 1%N;;
  assert_eq (sm_topic marker) delete_topic;;
  tombstone ← expect_ok (from_slice (A := TombstoneRange) (sm_payload marker)) "tombstone payload";
  assert_eq (tr_topic tombstone) topic;;
  messages ← fetch_all topic origin;
  m ← index messages 0;
  assert_that (sm_deleted m).

Definition records_peer_sync_state_and_failure_counts : Test unit :=
  expect open_store "open store";;
  origin ← test_node;
  topic ← test_topic;
  let base := mkPeerSyncState "http://peer" (Some topic) (Some origin) 1 2 1 10 0 0 (Some "temporary failure") in
  expect (record_peer_sync_state base) "record first failure";;
  expect (record_peer_sync_state base) "record second failure";;
  states ← expect list_peer_sync_states "list states";
  s ← index states 0;
  assert_eq (ps_consecutive_failures s) 2%N;;
  let success := mkPeerSyncState (ps_peer s) (ps_topic s) (ps_origin s) (ps_local_head s) (ps_remote_head s)
                   (ps_last_synced_head s) (ps_last_attempt_at_ms s) 20 (ps_consecutive_failures s) None in
  expect (record_peer_sync_state success) "record success";;
  states ← expect list_peer_sync_states "list states";
  s ← index states 0;
  assert_eq (ps_consecutive_failures s) 0%N;;
  assert_that (bool_decide (ps_last_error s = None)).

Definition expect_front (queue : QueueName) : Test StoredFifoMessage :=
  front ← expect (peek_fifo queue) "peek";
  expect_some front "front".

Definition fifo_ack_only_accepts_front_message : Test unit :=
  expect open_store "open store";;
  source ← test_node;
  target ← expect_ok (NodeId.new "tenant" "bl" "target") "valid target";
  queue ← expect_ok (QueueName_new "tenant/bl/target") "valid queue";
  topic ← test_topic;
  m ← NewFifoMessage_new queue topic source target (text "one") ∅;
  first ← expect (enqueue_fifo m) "enqueue first";
  m ← NewFifoMessage_new queue topic source target (text "two") ∅;
  second ← expect (enqueue_fifo m) "enqueue second";
  acked ← expect (ack_fifo queue (sf_id second)) "ack second";
  assert_that (negb acked);;
  front ← expect_front queue;
  assert_eq (sf_id front) (sf_id first);;
  acked ← expect (ack_fifo queue (sf_id first)) "ack first";
  assert_that acked;;
  front ← expect_front queue;
  assert_eq (sf_id front) (sf_id second).
End stores.

(** The two crates run them on their own store. *)
Section redb.
Context {T : Type → Type} {OT : OrderedTable T} {B64 : Base64}.
Context {JM : Json StoredMessage} {JF : Json StoredFifoMessage} {JT : Json TombstoneRange}.
Context {JP : Json PeerSyncState}.

Abbreviation Test := (M string (RedbStore T)).

Definition redb_test_append : Test unit := appends_and_fetches_messages_in_head_order redb_open.
Definition redb_test_future_tombstone : Test unit := future_tombstone_marks_later_appends redb_open.
Definition redb_test_marker : Test unit :=
  tombstone_range_with_marker_updates_and_appends_control_message redb_open.
Definition redb_test_peer_sync : Test unit := records_peer_sync_state_and_failure_counts redb_open.
Definition redb_test_fifo : Test unit := fifo_ack_only_accepts_front_message redb_open.

Definition redb_tests : list (Test unit) :=
  [redb_test_append; redb_test_future_tombstone; redb_test_marker; redb_test_peer_sync; redb_test_fifo].
End redb.

Section sqlite.
Context {SX : SqliteTexts} {JN : Json NodeId} {JH : Json (gmap string string)}.
Context {JT : Json TombstoneRange} {JP : Json PeerSyncState}.

Abbreviation Test := (M string SqliteStore).

Definition sqlite_test_append : Test unit := appends_and_fetches_messages_in_head_order open_in_memory.
Definition sqlite_test_tombstone : Test unit := tombstone_marks_messages_without_changing_head open_in_memory.
Definition sqlite_test_idempotent : Test unit := tombstone_range_is_idempotent open_in_memory.
Definition sqlite_test_future_tombstone : Test unit := future_tombstone_marks_later_appends open_in_memory.
Definition sqlite_test_marker : Test unit :=
  tombstone_range_with_marker_updates_and_appends_control_message open_in_memory.
Definition sqlite_test_peer_sync : Test unit := records_peer_sync_state_and_failure_counts open_in_memory.
Definition sqlite_test_fifo : Test unit := fifo_ack_only_accepts_front_message open_in_memory.

Definition sqlite_tests : list (Test unit) :=
  [sqlite_test_append; sqlite_test_tombstone; sqlite_test_idempotent; sqlite_test_future_tombstone;
   sqlite_test_marker; sqlite_test_peer_sync; sqlite_test_fifo].

(** ** The tests of the server *)

Abbreviation STest := (M string (MsgbusGrpcService SqliteStore)).

Definition test_local_node {S} : M string S NodeId := expect_ok (NodeId.new "tenant" "bl" "local") "valid node".
Definition test_remote_node {S} : M string S NodeId := expect_ok (NodeId.new "tenant" "bl" "remote") "valid node".

Definition pb_node (node : NodeId) : ProtoNodeId :=
  mkProtoNodeId (tenant_id node) (bl_name node) (device_id node).

(** A new service over a store in memory. *)
Definition new_service : STest unit :=
  zoom store (λ db s, mkService db (published s)) (expect open_in_memory "open store");;
  modify (λ s, service_new (store s)).

Definition err_code (x : Status) : Code := status_code (rpc_status x).

Definition publish_rejects_non_local_origin : STest unit :=
  new_service;;
  local ← test_local_node;
  remote ← test_remote_node;
  err ← expect_err (publish local (mkPublishRequest "events" (Some (pb_node remote)) (text "payload") ∅))
          "publish should reject remote origin";
  assert_eq (err_code err) PermissionDenied.

Definition publish_rejects_reserved_delete_topic : STest unit :=
  new_service;;
  local ← test_local_node;
  err ← expect_err (publish local (mkPublishRequest DELETE_TOPIC None (text "payload") ∅))
          "publish should reject reserved topic";
  assert_eq (err_code err) PermissionDenied.

Definition delete_range_rejects_non_local_origin : STest unit :=
  new_service;;
  local ← test_local_node;
  remote ← test_remote_node;
  err ← expect_err (delete_range local (mkDeleteRangeRequest "events" (Some (pb_node remote)) 1 1))
          "delete should reject remote origin";
  assert_eq (err_code err) PermissionDenied.

(** [fuel] bounds the pages read. *)
Definition replay_control_messages_applies_stored_delete_markers (fuel : nat) : Test unit :=
  expect open_in_memory "open store";;
  origin ← test_local_node;
  topic ← expect_ok (Topic_new "events") "valid topic";
  append_text topic origin "one" "append";;
  let tombstone := mkTombstoneRange topic origin 1 1 1 in
  id ← MessageId_new;
  delete_topic ← expect_ok (Topic_new DELETE_TOPIC) "delete topic";
  payload ← expect_ok (to_vec tombstone) "encode tombstone";
  let control := mkStoredMessage id delete_topic origin 1 payload ∅ 1 false in
  expect (put_replicated_message control) "store control message";;
  r ← expect (replay_control_messages fuel) "replay controls";
  expect_some r "out of fuel";;
  messages ← fetch_all topic origin;
  m ← index messages 0;
  assert_that (sm_deleted m).

Definition control_message_origin_must_match_tombstone_origin : Test unit :=
  expect open_in_memory "open store";;
  local ← test_local_node;
  remote ← test_remote_node;
  topic ← expect_ok (Topic_new "events") "valid topic";
  let tombstone := mkTombstoneRange topic remote 1 1 1 in
  id ← MessageId_new;
  delete_topic ← expect_ok (Topic_new DELETE_TOPIC) "delete topic";
  payload ← expect_ok (to_vec tombstone) "encode tombstone";
  let control := mkStoredMessage id delete_topic local 1 payload ∅ 1 false in
  err ← expect_err (apply_control_message control) "mismatched owner should fail";
  assert_eq (err_code err) PermissionDenied.

Definition service_tests : list (STest unit) :=
  [publish_rejects_non_local_origin; publish_rejects_reserved_delete_topic;
   delete_range_rejects_non_local_origin].
Definition replay_tests (fuel : nat) : list (Test unit) :=
  [replay_control_messages_applies_stored_delete_markers fuel;
   control_message_origin_must_match_tombstone_origin].

(** ** The integration test: two nodes

    The local service and the remote store; the server of the remote node answers
    from the store as it is when the pass begins. *)
Abbreviation Nodes := (MsgbusGrpcService SqliteStore * SqliteStore)%type.
Abbreviation NTest := (M string Nodes).

Definition on_local {A} (m : M string SqliteStore A) : NTest A :=
  zoom (store ∘ fst) (λ db n, (mkService db (published n.1), n.2)) m.
Definition on_remote {A} (m : M string SqliteStore A) : NTest A := zoom snd (λ db n, (n.1, db)) m.

Definition served_by (status_text : Status → string) (node : NodeId) (e : Env) (db : SqliteStore) : Transport :=
  mkTransport (λ _, Ok tt) (λ _ _, Err "no file") (λ _ _ _, Ok tt)
    (λ _ _, Ok (service_client status_text node e (service_new db))).

Definition test_sync (status_text : Status → string) (fuel : nat) (node : NodeId) (config : PeerSyncConfig)
    (msg : string) : NTest unit := λ e t n,
  (r ← expect (zoom fst (λ s n, (s, n.2)) (sync_once status_text (served_by status_text node e n.2) fuel config)) msg;
   expect_some r "out of fuel") e t n.

Definition sync_once_replicates_messages_and_delete_markers (status_text : Status → string) (fuel : nat)
    (remote_endpoint : string) : NTest unit :=
  local_node ← test_local_node;
  remote_node ← test_remote_node;
  on_local (expect open_in_memory "local store");;
  on_remote (expect open_in_memory "remote store");;
  topic ← expect_ok (Topic_new "events") "topic";
  on_remote (append_text topic remote_node "one" "append remote message");;
  modify (λ n, (service_new (store n.1), n.2));;
  let config := mkPeerSyncConfig local_node [mkPeerSpec remote_endpoint (Some remote_node)] 1000 10 None in
  test_sync status_text fuel remote_node config "initial sync";;
  messages ← on_local (fetch_all topic remote_node);
  assert_eq (length messages) 1%nat;;
  m ← index messages 0;
  assert_that (negb (sm_deleted m));;
  delete_topic ← expect_ok (Topic_new "$msgbus.delete") "delete topic";
  on_remote (expect (tombstone_range_with_marker topic remote_node 1 1 delete_topic remote_node)
               "delete remote message");;
  test_sync status_text fuel remote_node config "delete marker sync";;
  messages ← on_local (fetch_all topic remote_node);
  assert_eq (length messages) 1%nat;;
  m ← index messages 0;
  assert_that (sm_deleted m).
End sqlite.

(** ** The tests of [sync.rs] and of the core types *)

Definition parses_unpinned_peer : M string unit unit :=
  peer ← expect_ok (PeerSpec_parse "http://127.0.0.1:50052") "peer";
  assert_eq (endpoint peer) "http://127.0.0.1:50052";;
  assert_that (bool_decide (expected_node peer = None)).

Definition parses_identity_bound_peer : M string unit unit :=
  peer ← expect_ok (PeerSpec_parse "https://node-b:50052=tenant/default/node-b") "peer";
  assert_eq (endpoint peer) "https://node-b:50052";;
  node ← expect_some (expected_node peer) "expected node";
  assert_eq (NodeId.key node) "tenant/default/node-b".

Definition parses_node_key : M string unit unit :=
  node ← expect_ok (NodeId.from_key "tenant/bl/device") "node key";
  assert_eq (tenant_id node) "tenant";;
  assert_eq (bl_name node) "bl";;
  assert_eq (device_id node) "device".

Definition rejects_malformed_node_key : M string unit unit :=
  assert_that (negb (is_ok (NodeId.from_key "tenant/bl")));;
  assert_that (negb (is_ok (NodeId.from_key "tenant/bl/device/extra"))).

Definition pure_tests : list (M string unit unit) :=
  [parses_unpinned_peer; parses_identity_bound_peer; parses_node_key; rejects_malformed_node_key].

(** ** Running them *)

Definition passes {S} (e : Env) (s : S) (test : M string S unit) : bool :=
  match (test e 0%nat s).1.1 with Ok _ => true | Err _ => false end.

(** Every test of the repository passes. *)
Theorem repository_tests_pass :
  forallb (passes env0 empty_db) (redb_tests (T := GTable)) = true ∧
  forallb (passes env0 sqlite0) sqlite_tests = true ∧
  forallb (passes env0 (service_new sqlite0)) service_tests = true ∧
  forallb (passes env0 sqlite0) (replay_tests 4) = true ∧
  passes env0 (service_new sqlite0, sqlite0)
    (sync_once_replicates_messages_and_delete_markers status_text0 10 "http://127.0.0.1:50052") = true ∧
  forallb (passes env0 tt) pure_tests = true.
Proof. split_and!; vm_compute; reflexivity. Qed.
